(* ===== verification/_CoqProject ===== *)
-Q . S2P
Prelude.v
Text.v
Utf8.v
Radix.v
Extensions.v
Request.v
RequestSpec.v
Chunked.v
ChunkedSpec.v
Body.v
RecvBuffer.v
Connection.v
Percent.v
Form.v
Cookie.v
Location.v
Response.v
ResponseSpec.v
Error.v
RoutePattern.v
Routes.v
Gate.v
Csrf.v
Cors.v
F32.v
Compression.v
CompressionSpec.v
ServerConfig.v
Server.v
ServerSpec.v
ServerCalm.v
ServerDrain.v
Listener.v
ListenerTime.v
WsPattern.v
WsChannel.v
WsConfig.v
WsHandshake.v
WsSession.v
WsSessionSpec.v
Static.v
StaticSpec.v
Jwt.v
JwtSpec.v
JwksSpec.v
Dpop.v
DpopSpec.v
OriginSpec.v
JwtAuth.v
JwtAuthSpec.v
JwtRefresh.v
JwtRefreshSpec.v
NetAddr.v
WebRtc.v
WebRtcInv.v
WebRtcSpec.v
RtcProxy.v
RtcProxySpec.v
Hub.v
HubSpec.v
Tracing.v
GraphQl.v
Plugins.v
Streaming.v
StreamingSpec.v
Shutdown.v
Rebind.v
WsDialogue.v
Reference.v
ReferenceSpec.v
StreamIntegrity.v
Secured.v
Diagnostics.v
GenOpenapi.v
