(* ===== verification/Prelude.v ===== *)
(** * fandhe-backend: a verification library for the HTTP backend framework

    The repository is a Cargo workspace.  Its core is a hand-written HTTP/1.1 server in three
    layers, each of which calls the one below: [crates/http] (sans-IO parsing, framing and
    serialisation), [crates/routes] (patterns and dispatch) and [crates/core] (the listener, the
    connection loop, streaming and the seams to the plugins).  Plugins are crates of their own that
    the core calls through traits or through the seams of [core/src/plugin.rs].

    ** The parts, and where they are modelled

    - This file: [result] for Rust's [Result] with [let?] for its question mark, [let!] for
      [let ... else], byte strings ([bytes], [lit]), slices and generic lemmas.  Text, Utf8, Radix:
      the methods of [str] and of the number types that the code uses.
    - [http/src/request.rs]: Request is [parse_request_head] and the accessors, RequestSpec the
      grammar of request heads, soundness, completeness, stability and absence of out-of-range slices.
    - [http/src/chunked.rs]: Chunked, with ChunkedSpec for the decoder as a byte-at-a-time machine,
      the grammar of chunked bodies, limits and the round trip.
    - [http/src/body.rs, buffer.rs, connection.rs]: Body decides the framing, RecvBuffer is the
      receive buffer as a byte queue, Connection composes both with the parsers into
      [read_request] and refines what a byte stream specifies, however the socket splits it.
    - [http/src/percent.rs, query.rs, form.rs, cookie.rs, location.rs, error.rs, extensions.rs]:
      Percent, Form, Cookie, Location, Error, Extensions.
    - [http/src/response.rs]: Response has the builders and the serialisers, ResponseSpec what a
      client reads from the bytes (one status line, exactly the fields, one framing).
    - [routes/src/pattern.rs, lib.rs]: RoutePattern (parser, matcher, rendering), Routes
      (registration, merge, dispatch against a specification of routing).
    - [core/src/extension.rs]: Gate.  [plugin-csrf]: Csrf.  [plugin-cors]: Cors.
      [plugin-compression]: F32 (the quality values of Accept-Encoding) and Compression, with
      CompressionSpec against a grammar of Accept-Encoding of its own.
    - [core/src/server.rs, plugin.rs, streaming.rs, send_buffer.rs, interceptor.rs]: ServerConfig is
      [Server] with its builder; Server is [handle_connection_with_permit] and everything it calls,
      in a monad of its own whose state is the connection and whose trace ([Event]) is what
      happened; ServerSpec has the theorems that hold in any environment, ServerCalm those of an
      environment without timeouts, ServerDrain those of a graceful shutdown.  Reference is the
      server as a pure function of the bytes of a connection, and ReferenceSpec shows that the
      connection loop implements it.  Secured composes the loop with the gates of plugin-csrf and
      plugin-jwt and the authenticator behind them.  Streaming has
      [BodyWriter] and [BodyStream] over the channel of tokio, StreamingSpec what a receiver gets from
      them, and StreamIntegrity what the client gets of a streamed response.
    - [core/src/server.rs], [BoundServer::run_until]: Listener, a state machine of the accept loop,
      its generations of connections, permits and drains.  ListenerTime: its end as polls against a
      clock, the drain under a timeout and the join.  Rebind: the calls of [RebindHandle::rebind]
      beside it.  Diagnostics ([core/src/diagnostics.rs], [http/src/socket.rs]): what its steps report.
    - [plugin-websocket]: WsPattern ([pattern.rs]), WsChannel ([WsSender] of [handler.rs]), WsConfig
      ([config.rs] and the contexts of [handler.rs]), WsHandshake ([handshake.rs, lib.rs]), WsSession
      ([session.rs]) with its theorems in WsSessionSpec and, on answers, in WsDialogue.
    - [plugin-static]: Static (configuration, media types, the handler over any file system) and
      StaticSpec (confinement to the root, and what a file system at rest is served as).
    - [plugin-jwt]: Jwt ([policy.rs, jwks.rs, verify.rs]) with JwtSpec and
      JwksSpec (key set documents), Dpop ([dpop.rs, dpop/*.rs])
      with DpopSpec (proofs, replay store) and OriginSpec (normal forms of URIs), JwtAuth ([auth.rs,
      notify.rs, gate.rs]) with JwtAuthSpec, JwtRefresh ([refresh.rs, refresh/task.rs]) with
      JwtRefreshSpec.
    - [plugin-webrtc]: WebRtc ([config.rs, handler.rs, drain.rs], with the socket addresses of the
      standard library in NetAddr), WebRtcInv (the invariant of slots and connections) and
      WebRtcSpec.  [plugin-webrtc-proxy]: RtcProxy, RtcProxySpec.
    - [plugin-hub-wiring]: Hub (the tenant gate on JwtAuth, the stores in memory), HubSpec.
      [plugin-tracing]: Tracing.  [plugin-graphql], documents of [plugin-openapi]: GraphQl;
      its generator [gen-openapi]: GenOpenapi.
    - Plugins: an instance of [PathPlugins], the seam of the core, with the models of the plugins,
      and which request reaches which of them.  Shutdown: the listener with the sessions that its
      upgrades started and the registry of WebRTC peers, tied by the seams that carry a shutdown.

    ** State and operations

    Pure code is translated function by function, with the names of the source.  A loop is
    structural where the code consumes a list, and otherwise has fuel: twice the length of the input
    for [decode] ([decode_fuel]), the bytes and reads that are left for the readers ([read_fuel]) and
    for the connection loop, the number of bits of the duration for [checked_deadline].
    Each use has a theorem that this is enough, so that no result is due to fuel.  Integers that can
    overflow are [N] with the bound written out ([u64_max], [instant_max], modulo [2 ^ 64]).

    Concurrent code is a set of labelled steps.  WsChannel advances each call of a sender by one
    lock or one poll at a time; WsSession has a control point per [await] of [run_session], and a
    poll is a step in which the races of the code are decided by their priorities; Listener has a
    step per turn of its loop, per event of a connection and per drain; Streaming has one per poll
    of a call of a writer or of the receiver; JwtAuth makes one access of
    a call to the shared state per step, and JwtRefresh one pass of the loop of the task; WebRtc has
    an [Event] per step of a call, of its build task, of a callback and of a drain, and a run is a
    list of events.  The theorems are proved by an invariant over the reachable states ([inv] in
    WsChannel, Listener and WebRtcInv, [wf] in WsSessionSpec, [sys_ok] in JwtAuthSpec, [refresh_inv]
    in JwtRefreshSpec).

    ** What the theorems show

    - Parsing and framing: accepted heads and bodies are exactly the sentences of their grammars; a
      request is delimited by its own bytes, so that pipelined bytes cannot change it.
    - Responses: no field value can add a line, and there is exactly one framing; a streamed response
      is complete exactly if its producer ended it, and the receiver gets what the calls that returned
      [Ok] were given, in order; a connection is a sequence of complete responses and
      one last one.  In a calm environment a connection writes and calls exactly what the reference
      server answers to its bytes, and pipelined requests get what they would get on their own.
    - Routing, gates and plugins: nothing of the application sees a request that the gates did not
      all let pass; dispatch is the specified one; CSRF, CORS and compression change exactly what
      they should and only when allowed, for compression by the weights of Accept-Encoding.  Behind the CSRF and the JWT gate, whatever reaches the
      application has evidence against forgery and a verified token, and its claims are read.
    - Shutdown: permits are conserved, generations are signalled, a drained connection serves at most
      one more request, and the drain of the server ends at its deadline and the join with its tasks,
      as polls against a clock; its sessions are cancelled and end within their grace period, measured
      from there, whatever their peers send, and no WebRTC peer stays registered.  Reports come after the forced close,
      are bounded in number, and a custom sink holds up the end by 200 ms at most.
    - WebSocket: an upgrade is answered 101 only to a valid and accepted handshake; what senders
      commit arrives in order and once; answers are sent in order, each before the next message is
      looked at; a session reports its end exactly once, sends nothing after
      a close, has a deadline after a cancellation that no frame of the peer renews, and panics only on overflow.
    - Static files: only canonical files below the root are served, whatever the file system does.
    - JWT: exactly the tokens of the policy that a key of the set signed are accepted, and nothing is
      told of the claims of any other; a document gives exactly the keys of its supported public
      entries; the cache is never seen, whatever the interleaving; a proof of possession is
      accepted twice only if the clock ran past its expiry and back in between; the key set is
      fetched and dropped in time.
    - WebRTC: the registry is bounded, nothing is leaked however a call ends, the answered
      peers are the registered ones, and every signalling ends; behind the proxy, 200 is told with exactly the body of an accepted upstream answer.
    - Hub: a handler runs under the tenant of its verified token and reads exactly what requests of
      that tenant wrote.  Tracing: the log has exactly every n-th included response, without queries.

    ** Parameters

    Code outside of the repository is a parameter with the laws the code relies on: [AnyTypes]
    (std::any), [Memmem] (the memchr crate), [HashOrder] (the iteration order of a hash map),
    [GzEncoder] with [GzLaws] (flate2), [AcceptKey] (the key derivation of tungstenite), [Mpsc]
    (the bounded channel of tokio), [Timeout] (its timeout), [JwtCrates]
    (base64, serde_json as the structures that it derives, ring), [HubExtra] (what serde makes of the
    private claims), [WebRtcCrate] (the builder of the webrtc crate), [GraphQlCrates] (serde_json,
    async-graphql), the records [FileSystem] (what the calls of tokio::fs answer), [Upstream] (what
    connecting to, writing to and reading from the upstream gives) and [Env] (what a connection
    meets: times, read results, write results, the shutdown flag, capacities of send buffers).  Each
    class has an instance with which the witnesses are evaluated.  [PathPlugins] is the seam between
    the core and the plugins: the theorems of the server hold for any plugins behind it, and Plugins
    has the instance made of the modelled ones.  In WsSession tungstenite, the peer and the handler
    are what a poll finds ready.

    ** Not modelled

    Read errors of
    the socket within a request are excluded by [reader_ok] in the theorems on [read_request].  The
    elapsed times that middleware is told are left out: they are differences of two readings of a
    clock, with nothing that depends on them but the middleware.  The text of messages of
    applications and of [tracing] is left out.  In
    Listener the moments at which timers and accepts become ready are nondeterministic (ListenerTime
    has the clock of its end), so are the
    answers of tungstenite in WsSession.  [Display] and [Debug] are left out, except for diagnostics.
    [init_tracing] and [build_peer_connection] are builder calls of third-party crates,
    [AuditEvent::to_json] and the rest of plugin-openapi (derive macros, embedded texts) have no
    logic of their own.  The gates of a server are functions of head, context and extensions: in
    Secured the calls that a gate makes to the authenticator are those of a run of its system, and
    one connection gets one answer for equal heads.  In WebRtc a spawned build task is polled at least once, which only the end
    of the runtime prevents.  axum-ref and ws-load-client are benchmark programs.

    ** Plan

    Open: several endpoints in Shutdown, and gates with a state of their own in Server, so that the
    accesses of the authenticator interleave with the steps of the connections. *)

From Stdlib Require Export NArith ZArith Lia.
From Stdlib Require Export Strings.Byte.
From Stdlib Require Strings.String.
Export String.StringSyntax.
From stdpp Require Export prelude list gmap.

#[global] Set Default Goal Selector "!".
#[global] Open Scope nat_scope.

(** ** Fallible results: Rust's [Result<T, E>] and the [?] operator *)

Inductive result (A E : Type) : Type :=
| Ok (a : A)
| Err (e : E).
Arguments Ok {A E} a.
Arguments Err {A E} e.

Definition rbind {A B E} (x : result A E) (k : A → result B E) : result B E :=
  match x with
  | Ok a => k a
  | Err e => Err e
  end.

(** [map_err], [ok_or] and [is_ok], as the Rust code calls them. *)
Definition map_err {A E F} (f : E → F) (x : result A E) : result A F :=
  match x with
  | Ok a => Ok a
  | Err e => Err (f e)
  end.

Definition ok_or {A E} (o : option A) (e : E) : result A E :=
  match o with
  | Some a => Ok a
  | None => Err e
  end.

Definition is_ok {A E} (x : result A E) : bool :=
  match x with
  | Ok _ => true
  | Err _ => false
  end.

Declare Scope rust_scope.
Delimit Scope rust_scope with rust.
Notation "'let?' x ':=' e 'in' k" := (rbind e (λ x, k))
  (at level 10, x pattern, e at level 100, k at level 200) : rust_scope.
Notation "'let!' x ':=' e 'else' d 'in' k" := (match e with Some x => k | None => d end)
  (at level 10, x pattern, e at level 100, d at level 100, k at level 200) : rust_scope.
#[global] Open Scope rust_scope.

#[export] Instance result_eq_dec {A E} `{EqDecision A, EqDecision E} :
  EqDecision (result A E).
Proof. solve_decision. Defined.

Lemma rbind_Ok {A B E} (x : result A E) (k : A → result B E) b :
  rbind x k = Ok b ↔ ∃ a, x = Ok a ∧ k a = Ok b.
Proof. destruct x; simpl; split; [eauto|by intros (? & [= <-] & ?)|done|by intros (? & ? & ?)]. Qed.

Lemma map_err_Ok {A E F} (f : E → F) (x : result A E) a :
  map_err f x = Ok a ↔ x = Ok a.
Proof. destruct x; naive_solver. Qed.

Lemma rbind_Err {A B E} (x : result A E) (k : A → result B E) e :
  rbind x k = Err e ↔ x = Err e ∨ ∃ a, x = Ok a ∧ k a = Err e.
Proof. destruct x; cbn; naive_solver. Qed.
Lemma ok_or_Err {A E} (o : option A) (e e' : E) : ok_or o e = Err e' ↔ o = None ∧ e' = e.
Proof. destruct o; naive_solver. Qed.
Lemma ok_or_Ok {A E} (o : option A) (e : E) a : ok_or o e = Ok a ↔ o = Some a.
Proof. destruct o; naive_solver. Qed.

(** [mapM] for results: Rust's [collect::<Result<Vec<_>, _>>()]. *)
Fixpoint rmapM {A B E} (f : A → result B E) (l : list A) : result (list B) E :=
  match l with
  | [] => Ok []
  | x :: l => let? y := f x in let? ys := rmapM f l in Ok (y :: ys)
  end.

Lemma rmapM_Ok {A B E} (f : A → result B E) l ys :
  rmapM f l = Ok ys ↔ Forall2 (λ x y, f x = Ok y) l ys.
Proof.
  revert ys. induction l as [|x l IH]; intros ys; simpl.
  - split; [intros [= <-]; constructor | by intros ->%Forall2_nil_inv_l].
  - rewrite rbind_Ok. split.
    + intros (y & Hy & (ys' & Hys & [= <-])%rbind_Ok). constructor; [done|by apply IH].
    + intros (y & ys' & Hy & Hys & ->)%Forall2_cons_inv_l. exists y.
      split; [done|]. apply rbind_Ok. exists ys'. split; [by apply IH|done].
Qed.

(** ** Tactics of the development *)

(** Case analysis on the scrutinee of the first [match]/[if] of the goal or of [H]. *)
Ltac case_first :=
  match goal with
  | |- context [match ?x with _ => _ end] => destruct x eqn:?
  end.
Ltac case_first_in H :=
  match type of H with
  | context [match ?x with _ => _ end] => destruct x eqn:?
  end.

(** Turns boolean tests among the hypotheses into propositions. *)
Ltac bool_to_prop :=
  repeat match goal with
  | H : (_ && _) = true |- _ => apply andb_prop in H as [? ?]
  | H : (_ || _) = false |- _ => apply orb_false_elim in H as [? ?]
  | H : negb _ = true |- _ => apply negb_true_iff in H
  | H : negb _ = false |- _ => apply negb_false_iff in H
  | H : bool_decide _ = true |- _ => apply bool_decide_eq_true in H
  | H : bool_decide _ = false |- _ => apply bool_decide_eq_false in H
  | H : (_ <? _)%N = true |- _ => apply N.ltb_lt in H
  | H : (_ <? _)%N = false |- _ => apply N.ltb_ge in H
  | H : (_ <=? _)%N = true |- _ => apply N.leb_le in H
  | H : (_ <=? _)%N = false |- _ => apply N.leb_gt in H
  | H : (_ =? _)%N = true |- _ => apply N.eqb_eq in H
  | H : (_ =? _)%N = false |- _ => apply N.eqb_neq in H
  | H : (_ <? _)%nat = true |- _ => apply Nat.ltb_lt in H
  | H : (_ <? _)%nat = false |- _ => apply Nat.ltb_ge in H
  | H : (_ <=? _)%nat = true |- _ => apply Nat.leb_le in H
  | H : (_ <=? _)%nat = false |- _ => apply Nat.leb_gt in H
  | H : (_ =? _)%nat = true |- _ => apply Nat.eqb_eq in H
  | H : (_ =? _)%nat = false |- _ => apply Nat.eqb_neq in H
  end.

(** Equality of two structures whose numeric components agree by [lia]. *)
Ltac eq_by_lia := repeat first [reflexivity | progress simpl; lia | lia | f_equal].

Create HintDb rust discriminated.
Create Rewrite HintDb rust.

(** ** Bytes

    A Rust [u8] is a [Byte.byte]; [&[u8]], [Vec<u8>], [&str] and [String] are lists of bytes (a
    [&str] is a list that passes [utf8_valid] of [Text]). [bv] is the byte's numeric value. *)

Abbreviation bytes := (list byte).

Definition bv (b : byte) : N := Byte.to_N b.

(** A string literal of the source, [b"..."] or "...". *)
Definition lit (s : String.string) : bytes := String.list_byte_of_string s.
Arguments lit s%_string_scope.

(** [slice.len()] as a machine integer. *)
Definition len {A} (l : list A) : N := N.of_nat (length l).

#[export] Instance byte_eq_decision : EqDecision byte := Byte.byte_eq_dec.

#[export] Program Instance byte_countable : Countable byte :=
  inj_countable Byte.to_N Byte.of_N _.
Next Obligation. intros b. apply Byte.of_to_N. Qed.

Lemma bv_bound b : (bv b < 256)%N.
Proof. unfold bv. pose proof (Byte.to_N_bounded b). lia. Qed.

Lemma bv_inj a b : bv a = bv b → a = b.
Proof.
  unfold bv. intros H. apply (f_equal Byte.of_N) in H. rewrite !Byte.of_to_N in H. congruence.
Qed.

(** All 256 bytes, for exhaustive checks. *)
Definition all_bytes : list byte :=
  omap (λ n, Byte.of_N (N.of_nat n)) (seq 0 256).

Lemma elem_of_all_bytes b : b ∈ all_bytes.
Proof.
  unfold all_bytes. apply list_elem_of_omap. exists (N.to_nat (bv b)). split.
  - apply elem_of_seq. pose proof (bv_bound b). lia.
  - rewrite N2Nat.id. apply Byte.of_to_N.
Qed.

Lemma byte_forall (f : byte → bool) : forallb f all_bytes = true → ∀ b, f b = true.
Proof.
  intros H b. rewrite forallb_forall in H. apply H, list_elem_of_In, elem_of_all_bytes.
Qed.

(** [by_bytes b]: the goal, whose hypotheses about [b] are boolean, holds for each of the
    256 values of [b]. *)
Ltac by_bytes b :=
  repeat match goal with H : context [b] |- _ => revert H end;
  destruct b; first [done | vm_compute; intuition congruence].

(** ** Positions and slices *)

(** [iter().position(p)]. *)
Fixpoint position {A} (p : A → bool) (l : list A) : option nat :=
  match l with
  | [] => None
  | x :: l => if p x then Some 0 else S <$> position p l
  end.

Lemma position_Some {A} (p : A → bool) l i :
  position p l = Some i ↔
  ∃ l1 x l2, l = l1 ++ x :: l2 ∧ length l1 = i ∧ p x = true ∧ Forall (λ y, p y = false) l1.
Proof.
  revert i. induction l as [|y l IH]; intros i; simpl.
  { split; [done|]. intros (l1 & x & l2 & H & _). by destruct l1. }
  destruct (p y) eqn:Hy.
  - split.
    + intros [= <-]. exists [], y, l. auto.
    + intros (l1 & x & l2 & H & <- & Hx & HF). destruct l1 as [|z l1]; [done|].
      simplify_eq/=. apply Forall_cons in HF as [? _]. congruence.
  - rewrite fmap_Some. setoid_rewrite IH. split.
    + intros (j & (l1 & x & l2 & -> & <- & Hx & HF) & ->).
      exists (y :: l1), x, l2. split_and!; [done..|by constructor].
    + intros (l1 & x & l2 & H & <- & Hx & HF). destruct l1 as [|z l1]; simplify_eq/=; [congruence|].
      apply Forall_cons in HF as [_ HF]. exists (length l1). split; [|done]. by exists l1, x, l2.
Qed.

Lemma position_None {A} (p : A → bool) l :
  position p l = None ↔ Forall (λ y, p y = false) l.
Proof.
  induction l as [|y l IH]; simpl; [by split; constructor|].
  rewrite Forall_cons. destruct (p y); [naive_solver|].
  rewrite fmap_None, IH. naive_solver.
Qed.

Lemma position_app_cons {A} (p : A → bool) l1 x l2 :
  Forall (λ y, p y = false) l1 → p x = true →
  position p (l1 ++ x :: l2) = Some (length l1).
Proof. intros. apply position_Some. by exists l1, x, l2. Qed.

Lemma position_lt {A} (p : A → bool) l i : position p l = Some i → i < length l.
Proof. intros (l1 & x & l2 & -> & <- & _)%position_Some. rewrite length_app. simpl. lia. Qed.

(** [Range<usize>] and [&buf[range]]. *)
Record range := Range { r_start : nat; r_end : nat }.

#[export] Instance range_eq_dec : EqDecision range.
Proof. solve_decision. Defined.

Definition slice {A} (l : list A) (r : range) : list A :=
  take (r_end r - r_start r) (drop (r_start r) l).

Lemma slice_app_mid {A} (l1 l2 l3 : list A) i j :
  i = length l1 → j = length l1 + length l2 → slice (l1 ++ l2 ++ l3) (Range i j) = l2.
Proof.
  intros -> ->. unfold slice; simpl. rewrite drop_app_length.
  replace (length l1 + length l2 - length l1) with (length l2) by lia. apply take_app_length.
Qed.

Lemma slice_full {A} (l : list A) : slice l (Range 0 (length l)) = l.
Proof. unfold slice; simpl. rewrite Nat.sub_0_r, drop_0. by apply take_ge. Qed.

Lemma take_app_exact {A} (l k : list A) n : n = length l → take n (l ++ k) = l.
Proof. intros ->. apply take_app_length. Qed.

Lemma drop_app_exact {A} (l k : list A) n : n = length l → drop n (l ++ k) = k.
Proof. intros ->. apply drop_app_length. Qed.

Lemma slice_slice {A} (l : list A) i j k e :
  e ≤ length (slice l (Range i j)) →
  slice l (Range (k + i) (e + i)) = slice (slice l (Range i j)) (Range k e).
Proof.
  unfold slice; simpl. rewrite length_take, length_drop. intros H.
  rewrite skipn_firstn_comm, take_take, drop_drop.
  replace (e + i - (k + i)) with (e - k) by lia. f_equal; [lia|]. f_equal; lia.
Qed.

Lemma drop_middle {A} (l : list A) x k n : n = S (length l) → drop n (l ++ x :: k) = k.
Proof. intros ->. induction l as [|y l IH]; simpl in *; [by rewrite drop_0|done]. Qed.

Lemma len_app {A} (l k : list A) : len (l ++ k) = (len l + len k)%N.
Proof. unfold len. rewrite length_app. lia. Qed.

Lemma len_nil_inv {A} (l : list A) : len l = 0%N → l = [].
Proof. destruct l; [done|unfold len; simpl; lia]. Qed.

Lemma forallb_Forall {A} (f : A → bool) l : forallb f l = true ↔ Forall (λ x, f x = true) l.
Proof.
  rewrite forallb_forall, Forall_forall. setoid_rewrite list_elem_of_In. done.
Qed.

Lemma existsb_false_Forall {A} (f : A → bool) l :
  existsb f l = false ↔ Forall (λ x, f x = false) l.
Proof.
  induction l as [|x l IH]; simpl; [by split; constructor|].
  rewrite Forall_cons, orb_false_iff, IH. done.
Qed.

#[export] Hint Rewrite @len_app @length_app @length_take @length_drop : rust.

(** ** Iterators

    [next] is an [Iterator::next] on an explicit state; [iter_collect] drains it.  Each use
    proves its fuel sufficient. *)
Fixpoint iter_collect {St A} (next : St → option (A * St)) (fuel : nat) (st : St) : list A :=
  match fuel with
  | O => []
  | S fuel =>
      match next st with
      | Some (a, st') => a :: iter_collect next fuel st'
      | None => []
      end
  end.

(** [Option::filter]. *)
Definition opt_filter {A} (p : A → bool) (o : option A) : option A :=
  match o with
  | Some a => if p a then Some a else None
  | None => None
  end.

Lemma opt_filter_Some {A} (p : A → bool) o a : opt_filter p o = Some a ↔ o = Some a ∧ p a = true.
Proof. destruct o; simpl; [case_match|]; naive_solver congruence. Qed.

(** ** [memchr::memmem]

    The [memchr] crate is not part of the repository: the model takes its search as a
    parameter, with its documented behaviour (the first occurrence) as the law. *)
Definition occurs_at (s needle : bytes) (i : nat) : Prop :=
  ∃ a b, s = a ++ needle ++ b ∧ length a = i.

Class Memmem := {
  memmem_find : bytes → bytes → option nat;
  memmem_find_Some h n i :
    memmem_find h n = Some i → occurs_at h n i ∧ ∀ j, j < i → ¬ occurs_at h n j;
  memmem_find_None h n : memmem_find h n = None → ∀ j, ¬ occurs_at h n j;
}.
