(* ===== verification/Text.v ===== *)
(** * The strings and byte slices of Rust's standard library

    The [&str] and [&[u8]] methods the crates call, on lists of bytes: ASCII classes and case
    folding, prefixes, splitting, trimming (with Rust's Unicode [trim]), UTF-8 validation,
    radix parsing and printing, and first-occurrence search.  Each is executable; the lemmas
    are the facts every component shares. *)

From S2P Require Import Prelude.

(** ** ASCII classes *)

Definition in_range (lo hi : N) (b : byte) : bool := ((lo <=? bv b) && (bv b <=? hi))%N.

Definition is_ascii_digit (b : byte) : bool := in_range 48 57 b.
Definition is_ascii_uppercase (b : byte) : bool := in_range 65 90 b.
Definition is_ascii_lowercase (b : byte) : bool := in_range 97 122 b.
Definition is_ascii_alphabetic (b : byte) : bool := is_ascii_uppercase b || is_ascii_lowercase b.
Definition is_ascii_alphanumeric (b : byte) : bool := is_ascii_alphabetic b || is_ascii_digit b.
Definition is_ascii_hexdigit (b : byte) : bool :=
  is_ascii_digit b || in_range 65 70 b || in_range 97 102 b.
Definition is_ascii (b : byte) : bool := (bv b <? 128)%N.

(** The byte with value [n mod 256], a Rust [as u8] cast. *)
Definition byte_of (n : N) : byte := default x00 (Byte.of_N (n mod 256)).

Lemma bv_byte_of n : bv (byte_of n) = (n mod 256)%N.
Proof.
  unfold byte_of, bv. destruct (Byte.of_N (n mod 256)) as [b|] eqn:H; simpl.
  - by apply Byte.to_of_N in H.
  - apply Byte.of_N_None_iff in H. pose proof (N.mod_lt n 256). lia.
Qed.

Definition to_ascii_lowercase (b : byte) : byte :=
  if is_ascii_uppercase b then byte_of (bv b + 32) else b.

Definition str_to_ascii_lowercase (s : bytes) : bytes := to_ascii_lowercase <$> s.

Definition eq_ignore_ascii_case (a b : bytes) : bool :=
  bool_decide (str_to_ascii_lowercase a = str_to_ascii_lowercase b).

Definition beqb (a b : byte) : bool := bool_decide (a = b).
Definition str_eqb (a b : bytes) : bool := bool_decide (a = b).

Lemma eq_ignore_ascii_case_spec a b :
  eq_ignore_ascii_case a b = true ↔ str_to_ascii_lowercase a = str_to_ascii_lowercase b.
Proof. apply bool_decide_eq_true. Qed.

Lemma eq_ignore_ascii_case_refl a : eq_ignore_ascii_case a a = true.
Proof. by apply eq_ignore_ascii_case_spec. Qed.

Lemma eq_ignore_ascii_case_sym a b : eq_ignore_ascii_case a b = eq_ignore_ascii_case b a.
Proof. by apply bool_decide_ext. Qed.

Lemma eq_ignore_ascii_case_trans a b c :
  eq_ignore_ascii_case a b = true → eq_ignore_ascii_case b c = true →
  eq_ignore_ascii_case a c = true.
Proof. rewrite !eq_ignore_ascii_case_spec. congruence. Qed.

(** ** Prefixes, suffixes, membership *)

Fixpoint strip_prefix (p s : bytes) : option bytes :=
  match p, s with
  | [], _ => Some s
  | x :: p, y :: s => if beqb x y then strip_prefix p s else None
  | _ :: _, [] => None
  end.

Definition starts_with (p s : bytes) : bool := bool_decide (is_Some (strip_prefix p s)).

Definition strip_suffix (p s : bytes) : option bytes :=
  reverse <$> strip_prefix (reverse p) (reverse s).

Definition ends_with (p s : bytes) : bool := bool_decide (is_Some (strip_suffix p s)).

Definition contains (c : byte) (s : bytes) : bool := existsb (beqb c) s.

Lemma beqb_eq a b : beqb a b = true ↔ a = b.
Proof. apply bool_decide_eq_true. Qed.
Lemma beqb_neq a b : beqb a b = false ↔ a ≠ b.
Proof. apply bool_decide_eq_false. Qed.
Lemma beqb_refl a : beqb a a = true.
Proof. by apply beqb_eq. Qed.
Lemma str_eqb_eq a b : str_eqb a b = true ↔ a = b.
Proof. apply bool_decide_eq_true. Qed.
Lemma str_eqb_refl a : str_eqb a a = true.
Proof. by apply str_eqb_eq. Qed.

Lemma strip_prefix_Some p s r : strip_prefix p s = Some r ↔ s = p ++ r.
Proof.
  revert s. induction p as [|x p IH]; intros [|y s]; simpl.
  - naive_solver.
  - naive_solver.
  - naive_solver.
  - destruct (beqb x y) eqn:H.
    + apply beqb_eq in H as ->. rewrite IH. naive_solver.
    + apply beqb_neq in H. naive_solver.
Qed.

Lemma strip_prefix_app p r : strip_prefix p (p ++ r) = Some r.
Proof. by apply strip_prefix_Some. Qed.

Lemma starts_with_spec p s : starts_with p s = true ↔ ∃ r, s = p ++ r.
Proof.
  unfold starts_with. rewrite bool_decide_eq_true. unfold is_Some.
  by setoid_rewrite strip_prefix_Some.
Qed.

Lemma strip_suffix_Some p s r : strip_suffix p s = Some r ↔ s = r ++ p.
Proof.
  unfold strip_suffix. rewrite fmap_Some. setoid_rewrite strip_prefix_Some. split.
  - intros (x & H & ->). apply (f_equal reverse) in H.
    by rewrite reverse_involutive, reverse_app, reverse_involutive in H.
  - intros ->. exists (reverse r). by rewrite reverse_app, reverse_involutive.
Qed.

Lemma ends_with_spec p s : ends_with p s = true ↔ ∃ r, s = r ++ p.
Proof.
  unfold ends_with. rewrite bool_decide_eq_true. unfold is_Some.
  by setoid_rewrite strip_suffix_Some.
Qed.

Lemma contains_spec c s : contains c s = true ↔ c ∈ s.
Proof.
  unfold contains. rewrite existsb_exists. split.
  - intros (x & Hx & ->%beqb_eq). by apply list_elem_of_In.
  - intros H. exists c. split; [by apply list_elem_of_In|apply beqb_refl].
Qed.

Lemma contains_false c s : contains c s = false ↔ Forall (λ x, x ≠ c) s.
Proof.
  unfold contains. rewrite existsb_false_Forall.
  apply Forall_iff. intros x. rewrite beqb_neq. naive_solver.
Qed.

Lemma contains_app c s t : contains c (s ++ t) = contains c s || contains c t.
Proof. apply existsb_app. Qed.

(** ** Splitting *)

Fixpoint split (sep : byte) (s : bytes) : list bytes :=
  match s with
  | [] => [[]]
  | c :: s =>
      if beqb c sep then [] :: split sep s
      else match split sep s with
           | h :: t => (c :: h) :: t
           | [] => [[c]]
           end
  end.

Definition split_once (sep : byte) (s : bytes) : option (bytes * bytes) :=
  match position (beqb sep) s with
  | Some i => Some (take i s, drop (S i) s)
  | None => None
  end.

(** [slice.join(sep)] for a one-byte or longer separator. *)
Fixpoint join (sep : bytes) (l : list bytes) : bytes :=
  match l with
  | [] => []
  | [x] => x
  | x :: l => x ++ sep ++ join sep l
  end.

Lemma join_cons sep x y l : join sep (x :: y :: l) = x ++ sep ++ join sep (y :: l).
Proof. done. Qed.

Lemma split_not_nil sep s : split sep s ≠ [].
Proof. destruct s as [|c s]; simpl; [done|]. by destruct (beqb c sep), (split sep s). Qed.

Lemma split_no_sep sep s : Forall (λ x, contains sep x = false) (split sep s).
Proof.
  induction s as [|c s IH]; simpl; [by repeat constructor|].
  destruct (beqb c sep) eqn:H; [by constructor|].
  destruct (split sep s) as [|h t]; [|apply Forall_cons in IH as [IH1 IH2]];
    repeat constructor; try done; unfold contains; simpl;
    rewrite (proj2 (beqb_neq sep c)); try done; apply beqb_neq in H; congruence.
Qed.

Lemma join_split sep s : join [sep] (split sep s) = s.
Proof.
  induction s as [|c s IH]; simpl; [done|].
  pose proof (split_not_nil sep s) as Hn.
  destruct (beqb c sep) eqn:H; destruct (split sep s) as [|h t]; try done.
  - apply beqb_eq in H as ->. rewrite join_cons. simpl. by f_equal.
  - destruct t; [simpl in *; by subst|]. rewrite join_cons in *. rewrite <- IH. done.
Qed.

Lemma split_app_sep sep x s :
  contains sep x = false → split sep (x ++ sep :: s) = x :: split sep s.
Proof.
  induction x as [|c x IH]; simpl; intros H.
  - by rewrite beqb_refl.
  - unfold contains in H; simpl in H. apply orb_false_iff in H as [H1 H2].
    rewrite (proj2 (beqb_neq c sep)); [|apply beqb_neq in H1; congruence].
    by rewrite IH.
Qed.

Lemma split_no_occ sep x : contains sep x = false → split sep x = [x].
Proof.
  induction x as [|c x IH]; simpl; intros H; [done|].
  unfold contains in H; simpl in H. apply orb_false_iff in H as [H1 H2].
  rewrite (proj2 (beqb_neq c sep)); [|apply beqb_neq in H1; congruence].
  by rewrite IH.
Qed.

Lemma split_join sep l :
  l ≠ [] → Forall (λ x, contains sep x = false) l → split sep (join [sep] l) = l.
Proof.
  induction l as [|x l IH]; intros Hn HF; [done|].
  apply Forall_cons in HF as [Hx HF]. destruct l as [|y l].
  - by apply split_no_occ.
  - rewrite join_cons. cbn [app]. rewrite split_app_sep by done. f_equal. by apply IH.
Qed.

Lemma split_once_Some sep s a b :
  split_once sep s = Some (a, b) ↔ s = a ++ sep :: b ∧ contains sep a = false.
Proof.
  unfold split_once. destruct (position _ s) as [i|] eqn:E; split.
  - intros [= <- <-]. apply position_Some in E as (l1 & x & l2 & -> & <- & ->%beqb_eq & HF).
    rewrite take_app_length, drop_middle by done.
    by split; [|apply existsb_false_Forall].
  - intros [-> H]. rewrite position_app_cons in E;
      [|by apply existsb_false_Forall|apply beqb_refl].
    injection E as <-. by rewrite take_app_length, drop_middle.
  - done.
  - intros [-> H]. rewrite position_app_cons in E;
      [done|by apply existsb_false_Forall|apply beqb_refl].
Qed.

Lemma split_once_None sep s : split_once sep s = None ↔ contains sep s = false.
Proof.
  unfold split_once. destruct (position _ s) as [i|] eqn:E; split; try done.
  - intros H. apply existsb_false_Forall, position_None in H. congruence.
  - intros _. by apply existsb_false_Forall, position_None.
Qed.

(** ** Trimming *)

(** [trim_start_matches(p)] and [trim_matches(p)] for a set of ASCII characters. *)
Fixpoint trim_start_matches (p : byte → bool) (s : bytes) : bytes :=
  match s with
  | c :: s' => if p c then trim_start_matches p s' else s
  | [] => []
  end.

Definition trim_end_matches (p : byte → bool) (s : bytes) : bytes :=
  reverse (trim_start_matches p (reverse s)).

Definition trim_matches (p : byte → bool) (s : bytes) : bytes :=
  trim_end_matches p (trim_start_matches p s).

(** Unicode [White_Space], by the UTF-8 encoding of each character: one byte (HT, LF, VT, FF,
    CR, SP), two bytes (U+0085, U+00A0) or three (U+1680, U+2000..U+200A, U+2028, U+2029,
    U+202F, U+205F, U+3000). *)
Definition ws1 (b : byte) : bool := in_range 9 13 b || beqb b x20.
Definition ws2 (a b : byte) : bool := beqb a xc2 && (beqb b x85 || beqb b xa0).
Definition ws3 (a b c : byte) : bool :=
  (beqb a xe1 && beqb b x9a && beqb c x80)
  || (beqb a xe2 && beqb b x80
      && (in_range 128 138 c || beqb c xa8 || beqb c xa9 || beqb c xaf))
  || (beqb a xe2 && beqb b x81 && beqb c x9f)
  || (beqb a xe3 && beqb b x80 && beqb c x80).

(** [str::trim_start] on the bytes of a string ([back] reads the encodings backwards, for
    [trim_end]). *)
Fixpoint trim_ws (back : bool) (s : bytes) : bytes :=
  match s with
  | [] => []
  | a :: s1 =>
      if ws1 a then trim_ws back s1
      else match s1 with
           | [] => s
           | b :: s2 =>
               if (if back then ws2 b a else ws2 a b) then trim_ws back s2
               else match s2 with
                    | [] => s
                    | c :: s3 =>
                        if (if back then ws3 c b a else ws3 a b c) then trim_ws back s3 else s
                    end
           end
  end.

Definition trim (s : bytes) : bytes := reverse (trim_ws true (reverse (trim_ws false s))).

(** A visible ASCII character. *)
Definition is_graph (b : byte) : bool := in_range 33 126 b.

Lemma is_graph_ne c x : is_graph c = true → (128 ≤ bv x)%N → beqb c x = false.
Proof.
  unfold is_graph, in_range. intros H Hx. apply beqb_neq. intros ->. bool_to_prop. lia.
Qed.

Lemma trim_ws_graph back c s : is_graph c = true → trim_ws back (c :: s) = c :: s.
Proof.
  intros H. pose proof (λ x, is_graph_ne c x H) as Hne.
  assert (ws1 c = false) as H1 by by_bytes c.
  assert (in_range 128 138 c = false) as Hr by by_bytes c.
  assert (∀ d, ws2 c d = false) as H2 by (intros d; unfold ws2; by rewrite Hne).
  assert (∀ d, ws2 d c = false) as H2'.
  { intros d. unfold ws2. by rewrite !Hne, andb_false_r. }
  assert (∀ d e, ws3 c d e = false) as H3 by (intros d e; unfold ws3; by rewrite !Hne).
  assert (∀ d e, ws3 e d c = false) as H3'.
  { intros d e. unfold ws3. by rewrite Hr, !Hne, !andb_false_r. }
  simpl. rewrite H1. destruct s as [|d s]; [done|].
  destruct back; rewrite ?H2, ?H2'; destruct s as [|e s]; rewrite ?H3, ?H3'; done.
Qed.

(** A string whose first and last characters are visible ASCII is its own [trim]. *)
Lemma trim_graph_ends s c d s1 s2 :
  s = c :: s1 → s = s2 ++ [d] → is_graph c = true → is_graph d = true → trim s = s.
Proof.
  intros H1 H2 Hc Hd. unfold trim.
  rewrite H1 at 1. rewrite trim_ws_graph by done. rewrite <- H1.
  rewrite H2 at 1. rewrite reverse_app, reverse_singleton. simpl app.
  rewrite trim_ws_graph by done.
  by rewrite reverse_cons, reverse_involutive, <- H2.
Qed.

Lemma trim_all_graph s : forallb is_graph s = true → trim s = s.
Proof.
  intros H. destruct s as [|c s1]; [done|].
  destruct (exists_last (l := c :: s1)) as (s2 & d & E); [done|].
  apply (trim_graph_ends _ c d s1 s2); try done.
  - simpl in H. by apply andb_prop in H as [? _].
  - rewrite E, forallb_app in H. simpl in H. bool_to_prop. done.
Qed.

Lemma trim_start_matches_app p a s :
  Forall (λ c, p c = true) a → trim_start_matches p (a ++ s) = trim_start_matches p s.
Proof. induction 1 as [|c a H _ IH]; simpl; [done|]. by rewrite H. Qed.

Lemma trim_start_matches_head p c s :
  p c = false → trim_start_matches p (c :: s) = c :: s.
Proof. simpl. by intros ->. Qed.

Lemma trim_start_matches_suffix p s : ∃ a, s = a ++ trim_start_matches p s.
Proof.
  induction s as [|c s [a IH]]; simpl; [by exists []|].
  destruct (p c); [exists (c :: a); simpl; by f_equal|by exists []].
Qed.

Lemma trim_matches_infix p s : ∃ a b, s = a ++ trim_matches p s ++ b.
Proof.
  unfold trim_matches, trim_end_matches.
  destruct (trim_start_matches_suffix p s) as [a Ha].
  destruct (trim_start_matches_suffix p (reverse (trim_start_matches p s))) as [b Hb].
  exists a, (reverse b). apply (f_equal reverse) in Hb.
  rewrite reverse_involutive, reverse_app in Hb. by rewrite <- Hb.
Qed.

Lemma trim_matches_Forall p (P : byte → Prop) s : Forall P s → Forall P (trim_matches p s).
Proof.
  intros H. destruct (trim_matches_infix p s) as (a & b & E). rewrite E in H.
  apply Forall_app in H as [_ H]. by apply Forall_app in H as [H _].
Qed.

(** ** Substring search *)

(** [haystack.windows(needle.len()).position(|w| w == needle)]: the first occurrence. *)
Fixpoint find_sub (needle s : bytes) : option nat :=
  if bool_decide (is_Some (strip_prefix needle s)) then Some 0
  else match s with
       | [] => None
       | _ :: s => S <$> find_sub needle s
       end.

Lemma occurs_at_0 s n : occurs_at s n 0 ↔ is_Some (strip_prefix n s).
Proof.
  unfold occurs_at, is_Some. setoid_rewrite strip_prefix_Some. split.
  - intros (a & b & -> & ->%nil_length_inv). by exists b.
  - intros [b ->]. by exists [], b.
Qed.

Lemma occurs_at_S c s n i : occurs_at (c :: s) n (S i) ↔ occurs_at s n i.
Proof.
  unfold occurs_at. split.
  - intros ([|d a] & b & E & H); simplify_eq/=. eauto.
  - intros (a & b & -> & <-). by exists (c :: a), b.
Qed.

Lemma occurs_at_length s n i : occurs_at s n i → i + length n ≤ length s.
Proof. intros (a & b & -> & <-). rewrite !length_app. lia. Qed.

Lemma find_sub_Some n s i :
  find_sub n s = Some i ↔ occurs_at s n i ∧ ∀ j, j < i → ¬ occurs_at s n j.
Proof.
  revert i. induction s as [|c s IH]; intros i; simpl; case_bool_decide as H.
  - split.
    + intros [= <-]. split; [by apply occurs_at_0|lia].
    + intros [(a & b & E & <-) _]. by destruct a.
  - split; [done|]. intros [Ho _]. pose proof (occurs_at_length _ _ _ Ho) as Hl. simpl in Hl.
    destruct H. apply occurs_at_0. by replace 0 with i by lia.
  - split.
    + intros [= <-]. split; [by apply occurs_at_0|lia].
    + intros [_ Hf]. destruct i; [done|]. destruct (Hf 0); [lia|by apply occurs_at_0].
  - rewrite fmap_Some. split.
    + intros (j & [Ho Hf]%IH & ->). split; [by apply occurs_at_S|].
      intros [|k] Hk; [by rewrite occurs_at_0|]. rewrite occurs_at_S. apply Hf. lia.
    + intros [Ho Hf]. destruct i as [|i]; [by apply occurs_at_0 in Ho|].
      exists i. split; [|done]. apply IH. apply occurs_at_S in Ho. split; [done|].
      intros j Hj Hoj. apply (Hf (S j)); [lia|by apply occurs_at_S].
Qed.

Lemma find_sub_None n s : find_sub n s = None ↔ ∀ j, ¬ occurs_at s n j.
Proof.
  induction s as [|c s IH]; simpl; case_bool_decide as H.
  - split; [done|]. intros Hn. destruct (Hn 0). by apply occurs_at_0.
  - split; [|done]. intros _ j Ho. pose proof (occurs_at_length _ _ _ Ho) as Hl. simpl in Hl.
    destruct H. apply occurs_at_0. by replace 0 with j by lia.
  - split; [done|]. intros Hn. destruct (Hn 0). by apply occurs_at_0.
  - rewrite fmap_None, IH. split.
    + intros Hn [|j]; [by rewrite occurs_at_0|by rewrite occurs_at_S].
    + intros Hn j Ho. apply (Hn (S j)). by apply occurs_at_S.
Qed.

(** An occurrence found in [s] is still the first one when more bytes follow. *)
Lemma find_sub_app n s t i : find_sub n s = Some i → find_sub n (s ++ t) = Some i.
Proof.
  rewrite !find_sub_Some. intros [Ho Hf]. pose proof (occurs_at_length _ _ _ Ho) as Hl. split.
  - destruct Ho as (a & b & -> & <-). exists a, (b ++ t). by rewrite <- !(assoc_L (++)).
  - intros j Hj (a & b & E & <-). apply (Hf (length a) Hj).
    assert (length (a ++ n) ≤ length s) as Hle by (rewrite length_app; lia).
    rewrite (assoc_L (++)) in E. apply (f_equal (take (length s))) in E.
    rewrite take_app_length, (take_app_ge _ b) in E by done.
    exists a, (take (length s - length (a ++ n)) b). by rewrite E, <- (assoc_L (++)) at 1.
Qed.

Lemma find_sub_skip n c s :
  is_Some (strip_prefix n (c :: s)) = False → find_sub n (c :: s) = S <$> find_sub n s.
Proof. simpl. intros H. case_bool_decide as Hb; [by rewrite H in Hb|done]. Qed.

(** The search the [memchr] crate documents is the naive one; a concrete instance. *)
Lemma memmem_find_sub `{Memmem} h n : memmem_find h n = find_sub n h.
Proof.
  destruct (memmem_find h n) as [i|] eqn:E; symmetry.
  - apply find_sub_Some. by apply memmem_find_Some.
  - apply find_sub_None. by apply memmem_find_None.
Qed.

Program Definition naive_memmem : Memmem := {| memmem_find h n := find_sub n h |}.
Next Obligation. intros h n i H. by apply find_sub_Some. Qed.
Next Obligation. intros h n H. by apply find_sub_None. Qed.

Lemma occurs_at_lookup s c n i : occurs_at s (c :: n) i → s !! i = Some c.
Proof. intros (a & b & -> & <-). by apply list_lookup_middle. Qed.

(** A needle whose first byte does not occur before it is found where it stands. *)
Lemma find_sub_first c n s t :
  contains c s = false → find_sub (c :: n) (s ++ (c :: n) ++ t) = Some (length s).
Proof.
  intros H. apply find_sub_Some. split; [by exists s, t|].
  intros j Hj Ho%occurs_at_lookup. rewrite lookup_app_l in Ho by done.
  apply contains_false in H. by apply (Forall_lookup_1 _ _ _ _ H Ho).
Qed.

Lemma find_sub_absent c n s : contains c s = false → find_sub (c :: n) s = None.
Proof.
  intros H. apply find_sub_None. intros j Ho%occurs_at_lookup.
  apply contains_false in H. by apply (Forall_lookup_1 _ _ _ _ H Ho).
Qed.

Lemma find_sub_skip_app c n s t :
  contains c s = false → find_sub (c :: n) (s ++ t) = Nat.add (length s) <$> find_sub (c :: n) t.
Proof.
  induction s as [|d s IH]; intros H; simpl app.
  - by destruct (find_sub (c :: n) t).
  - unfold contains in H; simpl in H. apply orb_false_iff in H as [H1 H2].
    cbn [find_sub strip_prefix]. rewrite H1.
    rewrite bool_decide_eq_false_2 by by intros [].
    rewrite IH by done. by destruct (find_sub (c :: n) t).
Qed.

(** [str::split] with a string pattern. *)
Fixpoint split_str_loop (fuel : nat) (sep s : bytes) : list bytes :=
  match fuel with
  | O => [s]
  | S fuel =>
      match find_sub sep s with
      | Some i => take i s :: split_str_loop fuel sep (drop (i + length sep) s)
      | None => [s]
      end
  end.
Definition split_str (sep s : bytes) : list bytes := split_str_loop (S (length s)) sep s.
