(* ===== verification/Utf8.v ===== *)
(** * UTF-8 validation and character boundaries

    [str::from_utf8] accepts a byte list iff [utf8_valid] does (the well-formed sequences of
    the Unicode standard: no overlong forms, no surrogates, nothing above U+10FFFF), and
    [&s[i..j]] on a string panics unless both ends are character boundaries. *)

From S2P Require Import Prelude Text.

Definition is_cont (b : byte) : bool := in_range 128 191 b.

(** The second byte allowed after a three- or four-byte lead. *)
Definition second3_ok (a b : byte) : bool :=
  if beqb a xe0 then in_range 160 191 b
  else if beqb a xed then in_range 128 159 b
  else is_cont b.
Definition second4_ok (a b : byte) : bool :=
  if beqb a xf0 then in_range 144 191 b
  else if beqb a xf4 then in_range 128 143 b
  else is_cont b.

Fixpoint utf8_valid (s : bytes) : bool :=
  match s with
  | [] => true
  | a :: s1 =>
      if is_ascii a then utf8_valid s1
      else if in_range 194 223 a then
        match s1 with
        | b :: s2 => is_cont b && utf8_valid s2
        | _ => false
        end
      else if in_range 224 239 a then
        match s1 with
        | b :: c :: s3 => second3_ok a b && is_cont c && utf8_valid s3
        | _ => false
        end
      else if in_range 240 244 a then
        match s1 with
        | b :: c :: d :: s4 => second4_ok a b && is_cont c && is_cont d && utf8_valid s4
        | _ => false
        end
      else false
  end.

(** [str::from_utf8]: the error value is never inspected by the crates. *)
Definition from_utf8 (s : bytes) : result bytes unit := if utf8_valid s then Ok s else Err tt.

(** [str::is_char_boundary]. *)
Definition is_char_boundary (s : bytes) (i : nat) : bool :=
  match i with
  | O => true
  | _ => match s !! i with
         | Some b => negb (is_cont b)
         | None => i =? length s
         end
  end.

(** [&s[r]] on a [str] does not panic. *)
Definition str_slice_ok (s : bytes) (r : range) : bool :=
  (r_start r <=? r_end r) && (r_end r <=? length s)
  && is_char_boundary s (r_start r) && is_char_boundary s (r_end r).

(** The shape of one encoded character: what [utf8_valid] consumes in one step. *)
Inductive utf8_char : bytes → Prop :=
| utf8_char1 a : is_ascii a = true → utf8_char [a]
| utf8_char2 a b :
    is_ascii a = false → in_range 194 223 a = true → is_cont b = true → utf8_char [a; b]
| utf8_char3 a b c :
    is_ascii a = false → in_range 194 223 a = false → in_range 224 239 a = true →
    second3_ok a b = true → is_cont c = true → utf8_char [a; b; c]
| utf8_char4 a b c d :
    is_ascii a = false → in_range 194 223 a = false → in_range 224 239 a = false →
    in_range 240 244 a = true →
    second4_ok a b = true → is_cont c = true → is_cont d = true → utf8_char [a; b; c; d].

Lemma utf8_char_app u s : utf8_char u → utf8_valid (u ++ s) = utf8_valid s.
Proof. destruct 1; simpl; repeat match goal with H : _ = _ |- _ => rewrite H; clear H end; done. Qed.

(** Induction over a valid string, character by character. *)
Lemma utf8_ind (P : bytes → Prop) :
  P [] → (∀ u s, utf8_char u → utf8_valid s = true → P s → P (u ++ s)) →
  ∀ s, utf8_valid s = true → P s.
Proof.
  intros H0 HS s. remember (length s) as n eqn:Hn.
  revert s Hn. induction (lt_wf n) as [n _ IH]. intros s -> H.
  assert (∀ u t, utf8_char u → s = u ++ t → P s) as step.
  { intros u t Hu ->. rewrite utf8_char_app in H by done. apply HS; [done..|].
    eapply IH; [|done..]. rewrite length_app. destruct Hu; simpl; lia. }
  destruct s as [|a s]; [done|]. simpl in H. repeat case_first_in H; bool_to_prop; try done.
  - by apply (step [a] s); [constructor|].
  - eapply (step [_; _]); [|reflexivity]. by constructor.
  - eapply (step [_; _; _]); [|reflexivity]. by constructor.
  - eapply (step [_; _; _; _]); [|reflexivity]. by constructor.
Qed.

Lemma utf8_valid_app s t : utf8_valid s = true → utf8_valid (s ++ t) = utf8_valid t.
Proof.
  revert s. apply utf8_ind; [done|]. intros u s Hu _ IH.
  by rewrite <- (assoc_L (++)), utf8_char_app.
Qed.

Lemma utf8_valid_ascii_cons c s : is_ascii c = true → utf8_valid (c :: s) = utf8_valid s.
Proof. simpl. by intros ->. Qed.

Lemma utf8_valid_all_ascii s : forallb is_ascii s = true → utf8_valid s = true.
Proof. induction s as [|c s IH]; simpl; [done|]. intros [-> H]%andb_prop. auto. Qed.

Lemma is_cont_not_ascii c : is_ascii c = true → is_cont c = false.
Proof. intros H. by by_bytes c. Qed.

Lemma second3_cont a b : second3_ok a b = true → is_cont b = true.
Proof.
  unfold second3_ok, is_cont, in_range. repeat case_match; intros; bool_to_prop;
    apply andb_true_intro; split; apply N.leb_le; lia.
Qed.

Lemma second4_cont a b : second4_ok a b = true → is_cont b = true.
Proof.
  unfold second4_ok, is_cont, in_range. repeat case_match; intros; bool_to_prop;
    apply andb_true_intro; split; apply N.leb_le; lia.
Qed.

(** Every byte of a character after the first is a continuation byte, and the first is not. *)
Lemma utf8_char_cont u :
  utf8_char u → ∃ a v, u = a :: v ∧ is_cont a = false ∧ Forall (λ b, is_cont b = true) v
                       ∧ (v ≠ [] → is_ascii a = false).
Proof.
  assert (∀ a, in_range 194 223 a = true ∨ in_range 224 239 a = true ∨ in_range 240 244 a = true
    → is_cont a = false) as Hl.
  { intros a Ha. unfold is_cont. unfold in_range in *.
    apply andb_false_iff. right. apply N.leb_gt.
    destruct Ha as [Ha|[Ha|Ha]]; bool_to_prop; lia. }
  destruct 1; (eexists _, _; split; [done|]); (split; [eauto using is_cont_not_ascii|]);
    (split; [|done]); repeat constructor; eauto using second3_cont, second4_cont.
Qed.

(** A valid string splits at any ASCII byte into two valid strings. *)
Lemma utf8_valid_split s c t :
  is_ascii c = true → utf8_valid (s ++ c :: t) = utf8_valid s && utf8_valid t.
Proof.
  intros Hc. destruct (utf8_valid s) eqn:Hs; simpl.
  { rewrite utf8_valid_app by done. by apply utf8_valid_ascii_cons. }
  apply not_true_is_false. intros H. apply Bool.not_true_iff_false in Hs. apply Hs. clear Hs.
  revert s H. cut (∀ w, utf8_valid w = true → ∀ s, w = s ++ c :: t → utf8_valid s = true).
  { intros Hw s H. by eapply Hw. }
  apply (utf8_ind (λ w, ∀ s, w = s ++ c :: t → utf8_valid s = true)).
  { intros s E. by destruct s. }
  intros u w Hu Hw IH s E.
  apply app_eq_inv in E as [(k & -> & E)|(k & -> & E)].
  - destruct k as [|k0 k]; simpl in E.
    + rewrite app_nil_r in Hu. rewrite <- (app_nil_r s), utf8_char_app by done. done.
    + injection E as <- E.
      pose proof (utf8_char_cont _ Hu) as (a & v & Eu & _ & Hv & Hasc).
      destruct s as [|a' s]; [done|]. injection Eu as -> <-.
      apply Forall_app in Hv as [_ Hv]. apply Forall_cons in Hv as [Hv _].
      by rewrite (is_cont_not_ascii c Hc) in Hv.
  - rewrite utf8_char_app by done. by apply IH.
Qed.

Lemma utf8_valid_concat l :
  Forall (λ s, utf8_valid s = true) l → utf8_valid (concat l) = true.
Proof. induction 1; simpl; [done|]. by rewrite utf8_valid_app. Qed.

(** The ends of a slice whose neighbours are ASCII (or the ends of the string) are character
    boundaries. *)
Lemma boundary_before_ascii s c t :
  is_cont c = false → is_char_boundary (s ++ c :: t) (length s) = true.
Proof.
  intros H. unfold is_char_boundary. destruct (length s) eqn:E; [done|].
  by rewrite list_lookup_middle, H.
Qed.

Lemma boundary_end s : is_char_boundary s (length s) = true.
Proof.
  unfold is_char_boundary. destruct (length s) eqn:E; [done|].
  rewrite lookup_ge_None_2 by lia. apply Nat.eqb_refl.
Qed.

(** A valid string does not start inside a character. *)
Lemma utf8_valid_head c s : utf8_valid (c :: s) = true → is_cont c = false.
Proof.
  intros H.
  refine (utf8_ind (λ s, match s with [] => True | d :: _ => is_cont d = false end) I _ _ H).
  intros u w Hu _ _. destruct (utf8_char_cont _ Hu) as (a & v & -> & ? & _). done.
Qed.

(** After an ASCII byte a valid string has a character boundary. *)
Lemma boundary_after_ascii s c t :
  utf8_valid (s ++ c :: t) = true → is_ascii c = true →
  is_char_boundary (s ++ c :: t) (S (length s)) = true.
Proof.
  intros Hv Hc. rewrite utf8_valid_split in Hv by done. bool_to_prop.
  change (c :: t) with ([c] ++ t). rewrite (assoc_L (++)).
  replace (S (length s)) with (length (s ++ [c])) by (rewrite length_app; simpl; lia).
  destruct t as [|d t].
  - rewrite app_nil_r. apply boundary_end.
  - apply boundary_before_ascii.
    by eapply utf8_valid_head.
Qed.

(** ** Characters

    [str::chars], each character as its encoding. *)
Fixpoint chars (s : bytes) : list bytes :=
  match s with
  | [] => []
  | a :: s1 =>
      if is_ascii a then [a] :: chars s1
      else if in_range 194 223 a then
        match s1 with
        | b :: s2 => [a; b] :: chars s2
        | _ => [[a]]
        end
      else if in_range 224 239 a then
        match s1 with
        | b :: c :: s3 => [a; b; c] :: chars s3
        | _ => [a :: s1]
        end
      else
        match s1 with
        | b :: c :: d :: s4 => [a; b; c; d] :: chars s4
        | _ => [a :: s1]
        end
  end.

(** [char::is_control]: the C0 and C1 controls and DEL. *)
Definition is_control (c : bytes) : bool :=
  match c with
  | [b] => (bv b <? 32)%N || beqb b x7f
  | [a; b] => beqb a xc2 && in_range 128 159 b
  | _ => false
  end.

Lemma concat_chars s : concat (chars s) = s.
Proof.
  assert (∀ n s, length s ≤ n → concat (chars s) = s) as H; [|by apply (H (length s))].
  clear s. intros n. induction n as [|n IH]; intros s Hn.
  { by destruct s; [|simpl in Hn; lia]. }
  destruct s as [|a s1]; [done|]. simpl in *.
  destruct (is_ascii a); [simpl; rewrite IH by lia; done|].
  destruct (in_range 194 223 a).
  { destruct s1 as [|b s2]; simpl in *; [done|]. by rewrite IH by lia. }
  destruct (in_range 224 239 a).
  { destruct s1 as [|b [|c s3]]; simpl in *; try done. by rewrite IH by lia. }
  destruct s1 as [|b [|c [|d s4]]]; simpl in *; try done. by rewrite IH by lia.
Qed.

Lemma chars_app u s : utf8_char u → chars (u ++ s) = u :: chars s.
Proof. destruct 1; simpl; repeat match goal with H : _ = _ |- _ => rewrite H; clear H end; done. Qed.

(** An ASCII byte of a valid string is a character of its own. *)
Lemma chars_ascii_byte b s : utf8_valid s = true → is_ascii b = true → b ∈ s → [b] ∈ chars s.
Proof.
  intros Hs Hb. revert s Hs. apply (utf8_ind (λ s, b ∈ s → [b] ∈ chars s)).
  - by intros ?%elem_of_nil.
  - intros u s Hu _ IH [H|H]%elem_of_app; rewrite chars_app by done; apply elem_of_cons; [left|auto].
    assert (∀ x, in_range 128 255 x = true → x ≠ b) as Hne.
    { intros x Hx ->. unfold is_ascii, in_range in *. bool_to_prop. lia. }
    destruct Hu; repeat (apply elem_of_cons in H as [->|H]); try (by apply elem_of_nil in H);
      try done; exfalso; eapply Hne; try reflexivity;
      match goal with |- in_range 128 255 ?x = true => idtac end;
      unfold second3_ok, second4_ok, is_cont, is_ascii, in_range in *;
      repeat case_match; bool_to_prop; lia.
Qed.
