(* ===== verification/Radix.v ===== *)
(** * Integers as text

    [uN::from_str_radix] and [str::parse::<uN>] (checked multiplication and addition at the
    type's width), and the decimal and lower-case hexadecimal printers.  The value of a digit
    string is stated without a width, so that every overflow test is visible. *)

From S2P Require Import Prelude Text.
#[local] Open Scope N_scope.

Definition u16_max : N := 2 ^ 16 - 1.
Definition u32_max : N := 2 ^ 32 - 1.
Definition u64_max : N := 2 ^ 64 - 1.

(** [char::to_digit]. *)
Definition to_digit (radix : N) (b : byte) : option N :=
  let v :=
    if is_ascii_digit b then Some (bv b - 48)
    else if in_range 65 70 b then Some (bv b - 55)
    else if in_range 97 102 b then Some (bv b - 87)
    else None in
  match v with
  | Some d => if d <? radix then Some d else None
  | None => None
  end.

(** The loop of [from_str_radix]: [checked_mul], then [checked_add]. *)
Fixpoint parse_digits (radix max acc : N) (s : bytes) : option N :=
  match s with
  | [] => Some acc
  | c :: s =>
      match to_digit radix c with
      | None => None
      | Some d =>
          if max <? acc * radix then None
          else if max <? acc * radix + d then None
          else parse_digits radix max (acc * radix + d) s
      end
  end.

Definition from_str_radix (radix max : N) (s : bytes) : option N :=
  match s with
  | [] => None
  | [c] => if beqb c x2b then None else parse_digits radix max 0 s
  | c :: s' => if beqb c x2b then parse_digits radix max 0 s' else parse_digits radix max 0 s
  end.

Definition parse_uint (max : N) (s : bytes) : option N := from_str_radix 10 max s.

(** The mathematical value of a digit string. *)
Fixpoint digits_value (radix acc : N) (s : bytes) : option N :=
  match s with
  | [] => Some acc
  | c :: s =>
      match to_digit radix c with
      | None => None
      | Some d => digits_value radix (acc * radix + d) s
      end
  end.

Lemma digits_value_ge radix acc s v :
  1 ≤ radix → digits_value radix acc s = Some v → acc ≤ v.
Proof.
  intros Hr. revert acc. induction s as [|c s IH]; simpl; intros acc H; [by injection H; lia|].
  case_first_in H; [|done]. apply IH in H. nia.
Qed.

(** Checked parsing computes the value exactly when it fits. *)
Lemma parse_digits_spec radix max acc s :
  1 ≤ radix → acc ≤ max →
  parse_digits radix max acc s =
    match digits_value radix acc s with
    | Some v => if v <=? max then Some v else None
    | None => None
    end.
Proof.
  intros Hr. revert acc. induction s as [|c s IH]; simpl; intros acc Ha.
  { by rewrite (proj2 (N.leb_le _ _)). }
  destruct (to_digit radix c) as [d|]; [|done].
  assert (∀ v, digits_value radix (acc * radix + d) s = Some v → max < acc * radix + d →
          (v <=? max) = false) as Hover.
  { intros v Hv Hm. apply digits_value_ge in Hv; [|done]. apply N.leb_gt. lia. }
  destruct (max <? acc * radix) eqn:E1; bool_to_prop.
  { destruct (digits_value _ _ _) as [v|] eqn:E; [|done]. rewrite (Hover v); [done..|lia]. }
  destruct (max <? acc * radix + d) eqn:E2; bool_to_prop.
  { destruct (digits_value _ _ _) as [v|] eqn:E; [|done]. rewrite (Hover v); done. }
  by apply IH.
Qed.

Lemma to_digit_plus radix : to_digit radix x2b = None.
Proof. reflexivity. Qed.

(** A digit string is parsed to its value; its sign-free first character is no [+]. *)
Lemma from_str_radix_digits radix max s v :
  1 ≤ radix → s ≠ [] → digits_value radix 0 s = Some v →
  from_str_radix radix max s = if v <=? max then Some v else None.
Proof.
  intros Hr Hn Hv. destruct s as [|c s]; [done|]. clear Hn.
  assert (beqb c x2b = false) as Hc.
  { apply beqb_neq. intros ->. done. }
  assert (from_str_radix radix max (c :: s) = parse_digits radix max 0 (c :: s)) as ->.
  { unfold from_str_radix. rewrite Hc. by destruct s. }
  rewrite parse_digits_spec, Hv by lia. done.
Qed.

(** Printing *)

Definition digit_char (d : N) : byte :=
  if d <? 10 then byte_of (48 + d) else byte_of (87 + d).

(** Least significant digit first; [fuel] bounds the number of digits. *)
Fixpoint digits_rev (fuel : nat) (radix n : N) : bytes :=
  match fuel with
  | O => []
  | S f => digit_char (n mod radix)
             :: (if n / radix =? 0 then [] else digits_rev f radix (n / radix))
  end.

(** [n.to_string()] ([radix] 10) and [format!("{:x}", n)] ([radix] 16). *)
Definition to_radix (radix n : N) : bytes :=
  reverse (digits_rev (S (N.to_nat (N.log2 n))) radix n).
Definition to_decimal (n : N) : bytes := to_radix 10 n.
Definition to_hex (n : N) : bytes := to_radix 16 n.

Lemma to_digit_digit_char radix d : radix ≤ 16 → d < radix → to_digit radix (digit_char d) = Some d.
Proof.
  intros Hr Hd. assert (d = 0 ∨ d = 1 ∨ d = 2 ∨ d = 3 ∨ d = 4 ∨ d = 5 ∨ d = 6 ∨ d = 7 ∨ d = 8
    ∨ d = 9 ∨ d = 10 ∨ d = 11 ∨ d = 12 ∨ d = 13 ∨ d = 14 ∨ d = 15) as H by lia.
  unfold to_digit.
  repeat (destruct H as [->|H]; [simpl; by rewrite (proj2 (N.ltb_lt _ _))|]).
  subst. simpl. by rewrite (proj2 (N.ltb_lt _ _)).
Qed.

Lemma digits_value_app radix acc s t :
  digits_value radix acc (s ++ t) =
    match digits_value radix acc s with
    | Some v => digits_value radix v t
    | None => None
    end.
Proof.
  revert acc. induction s as [|c s IH]; intros acc; simpl; [done|].
  destruct (to_digit radix c); [apply IH|done].
Qed.

Lemma digits_rev_value radix fuel n :
  2 ≤ radix ≤ 16 → n < 2 ^ N.of_nat fuel → (0 < fuel)%nat →
  digits_value radix 0 (reverse (digits_rev fuel radix n)) = Some n.
Proof.
  intros Hr. revert n. induction fuel as [|f IH]; intros n Hn Hf; [lia|].
  simpl. rewrite reverse_cons, digits_value_app.
  assert (n mod radix < radix) as Hm by (apply N.mod_lt; lia).
  pose proof (N.div_mod n radix ltac:(lia)) as Hdm.
  destruct (n / radix =? 0) eqn:E; bool_to_prop.
  - simpl. rewrite to_digit_digit_char by lia. f_equal. nia.
  - rewrite Nat2N.inj_succ, N.pow_succ_r' in Hn.
    assert (n / radix < 2 ^ N.of_nat f) as Hlt.
    { apply N.Div0.div_lt_upper_bound. eapply N.lt_le_trans; [exact Hn|].
      apply N.mul_le_mono_r. lia. }
    rewrite IH; [|done|destruct f; [by apply N.lt_1_r in Hlt|lia]].
    simpl. rewrite to_digit_digit_char by lia. f_equal. nia.
Qed.

Lemma to_radix_value radix n :
  2 ≤ radix ≤ 16 → digits_value radix 0 (to_radix radix n) = Some n.
Proof.
  intros Hr. apply digits_rev_value; [done| |lia].
  rewrite Nat2N.inj_succ, N2Nat.id. destruct (N.eq_dec n 0) as [->|Hn]; [done|].
  apply N.log2_spec. lia.
Qed.

Lemma to_radix_not_nil radix n : to_radix radix n ≠ [].
Proof. unfold to_radix. simpl. rewrite reverse_cons. by destruct (reverse _). Qed.

Lemma digits_value_Forall radix acc s v (P : byte → bool) :
  (∀ c, is_Some (to_digit radix c) → P c = true) →
  digits_value radix acc s = Some v → forallb P s = true.
Proof.
  intros HP. revert acc. induction s as [|c s IH]; simpl; intros acc H; [done|].
  case_first_in H; [|done]. apply andb_true_intro. split; [apply HP; eauto|eauto].
Qed.

Lemma to_digit_16_hexdigit c : is_Some (to_digit 16 c) → is_ascii_hexdigit c = true.
Proof. unfold is_Some. intros [d H]. by by_bytes c. Qed.

Lemma to_digit_10_digit c : is_Some (to_digit 10 c) → is_ascii_digit c = true.
Proof. unfold is_Some. intros [d H]. by by_bytes c. Qed.

Lemma hexdigits_value s acc :
  forallb is_ascii_hexdigit s = true → is_Some (digits_value 16 acc s).
Proof.
  revert acc. induction s as [|c s IH]; simpl; intros acc H; [by eexists|].
  apply andb_prop in H as [Hc H].
  assert (is_Some (to_digit 16 c)) as [d ->]; [|by apply IH].
  clear - Hc. by_bytes c.
Qed.

Lemma digits_digits_value s acc :
  forallb is_ascii_digit s = true → is_Some (digits_value 10 acc s).
Proof.
  revert acc. induction s as [|c s IH]; simpl; intros acc H; [by eexists|].
  apply andb_prop in H as [Hc H].
  assert (is_Some (to_digit 10 c)) as [d ->]; [|by apply IH].
  clear - Hc. by_bytes c.
Qed.

Lemma to_hex_hexdigits n : forallb is_ascii_hexdigit (to_hex n) = true.
Proof.
  eapply digits_value_Forall; [apply to_digit_16_hexdigit|]. apply (to_radix_value 16). lia.
Qed.

Lemma to_decimal_digits n : forallb is_ascii_digit (to_decimal n) = true.
Proof.
  eapply digits_value_Forall; [apply to_digit_10_digit|]. apply (to_radix_value 10). lia.
Qed.

Lemma to_decimal_value n : digits_value 10 0 (to_decimal n) = Some n.
Proof. apply (to_radix_value 10). lia. Qed.

Lemma to_hex_value n : digits_value 16 0 (to_hex n) = Some n.
Proof. apply (to_radix_value 16). lia. Qed.

(** Printing and parsing back is the identity for every value of the type. *)
Lemma parse_to_decimal max n : n ≤ max → parse_uint max (to_decimal n) = Some n.
Proof.
  intros H. unfold parse_uint.
  rewrite (from_str_radix_digits 10 max _ n);
    [by rewrite (proj2 (N.leb_le _ _))|lia|apply to_radix_not_nil|apply to_decimal_value].
Qed.

Lemma parse_to_hex max n : n ≤ max → from_str_radix 16 max (to_hex n) = Some n.
Proof.
  intros H. rewrite (from_str_radix_digits 16 max _ n);
    [by rewrite (proj2 (N.leb_le _ _))|lia|apply to_radix_not_nil|apply to_hex_value].
Qed.

Lemma digits_value_inj_length radix s acc v :
  1 ≤ radix → digits_value radix acc s = Some v → v < (acc + 1) * radix ^ len s.
Proof.
  intros Hr. revert acc. induction s as [|c s IH]; simpl; intros acc H.
  - injection H as ->. unfold len; simpl. lia.
  - case_first_in H; [|done]. apply IH in H. unfold to_digit in *.
    assert (n < radix) by (repeat case_match; simplify_eq; by bool_to_prop).
    replace (len (c :: s)) with (N.succ (len s)) by (unfold len; simpl; lia).
    rewrite N.pow_succ_r'. nia.
Qed.

Lemma to_radix_len_64 radix n : n ≤ u64_max → len (to_radix radix n) ≤ 64.
Proof.
  intros Hn. assert (∀ f m, (length (digits_rev f radix m) ≤ f)%nat) as Hl.
  { intros f. induction f as [|f IH]; intros m; simpl; [lia|].
    destruct (_ =? 0); simpl; [lia|]. specialize (IH (m / radix)). lia. }
  unfold to_radix, len. rewrite length_reverse. specialize (Hl (S (N.to_nat (N.log2 n))) n).
  assert (N.log2 n < 64); [|lia].
  destruct (N.eq_dec n 0) as [->|]; [done|]. apply N.log2_lt_pow2; [lia|].
  unfold u64_max in Hn. lia.
Qed.
