(* ===== verification/Extensions.v ===== *)
(** * [http::extensions]: the per-request typed store

    [RequestExtensions] keeps values of arbitrary types under their [TypeId]; gates write to
    it, handlers read.  The Rust types are abstract here: [AnyTypes] gives the type
    identifiers and the values of each. *)

From S2P Require Import Prelude.

Class AnyTypes := {
  TypeId : Type;
  TypeId_eq_dec :: EqDecision TypeId;
  Any : TypeId → Type;
}.

Section extensions.
Context {AT : AnyTypes}.

(** [entries: Vec<(TypeId, Arc<dyn Any>)>]. *)
Record RequestExtensions := { entries : list (sigT Any) }.

Definition ext_new : RequestExtensions := {| entries := [] |}.

Definition has_type (t : TypeId) (e : sigT Any) : bool := bool_decide (projT1 e = t).

(** [downcast_ref::<T>()]: succeeds exactly at the stored type. *)
Definition downcast (t : TypeId) (e : sigT Any) : option (Any t) :=
  match decide (projT1 e = t) with
  | left E => Some (eq_rect _ Any (projT2 e) _ E)
  | right _ => None
  end.

(** [insert::<T>]: a second value of the same type is refused and handed back. *)
Definition ext_insert (t : TypeId) (value : Any t) (self : RequestExtensions) :
    RequestExtensions * result unit (Any t) :=
  if existsb (has_type t) (entries self) then (self, Err value)
  else ({| entries := entries self ++ [existT t value] |}, Ok tt).

Definition ext_get (t : TypeId) (self : RequestExtensions) : option (Any t) :=
  match List.find (has_type t) (entries self) with
  | Some e => downcast t e
  | None => None
  end.

Definition ext_contains (t : TypeId) (self : RequestExtensions) : bool :=
  existsb (has_type t) (entries self).

Definition ext_len (self : RequestExtensions) : nat := length (entries self).

Definition ext_is_empty (self : RequestExtensions) : bool :=
  match entries self with [] => true | _ => false end.

(** At most one value per type. *)
Definition ext_wf (self : RequestExtensions) : Prop := NoDup (projT1 <$> entries self).

(** What gates can make of the empty store. *)
Inductive reachable : RequestExtensions → Prop :=
| reachable_new : reachable ext_new
| reachable_insert t v e : reachable e → reachable (ext_insert t v e).1.

Lemma downcast_eq t (v : Any t) : downcast t (existT t v) = Some v.
Proof.
  unfold downcast; simpl. destruct (decide (t = t)) as [E|]; [|done].
  by rewrite (Eqdep_dec.UIP_dec TypeId_eq_dec E eq_refl).
Qed.

Lemma has_type_eq t (v : Any t) : has_type t (existT t v) = true.
Proof. by apply bool_decide_eq_true. Qed.

Lemma has_type_spec t e : has_type t e = true ↔ projT1 e = t.
Proof. apply bool_decide_eq_true. Qed.

Lemma contains_get t e : ext_contains t e = true ↔ is_Some (ext_get t e).
Proof.
  unfold ext_contains, ext_get. destruct (List.find _ _) as [x|] eqn:E.
  - apply List.find_some in E as [Hin Hx]. split.
    + intros _. unfold downcast. apply has_type_spec in Hx.
      destruct (decide _); [by eexists|done].
    + intros _. apply existsb_exists. eauto.
  - split; [|by intros []]. intros (x & Hin & Hx)%existsb_exists.
    pose proof (List.find_none _ _ E x Hin). congruence.
Qed.

Lemma insert_fresh t v e :
  ext_get t e = None → ext_insert t v e = ({| entries := entries e ++ [existT t v] |}, Ok tt).
Proof.
  intros H. unfold ext_insert. destruct (existsb _ _) eqn:E; [|done].
  apply contains_get in E as [? ?]. congruence.
Qed.

Lemma insert_taken t v e w : ext_get t e = Some w → ext_insert t v e = (e, Err v).
Proof.
  intros H. unfold ext_insert. destruct (existsb _ _) eqn:E; [done|].
  assert (ext_contains t e = true) as Hc by (apply contains_get; eauto).
  unfold ext_contains in Hc. congruence.
Qed.

Lemma find_app {A} (p : A → bool) l k :
  List.find p (l ++ k) = match List.find p l with Some x => Some x | None => List.find p k end.
Proof. induction l as [|x l IH]; simpl; [done|]. by destruct (p x). Qed.

Lemma get_snoc t u v e :
  ext_get t {| entries := entries e ++ [existT u v] |} =
    match ext_get t e with
    | Some w => Some w
    | None => downcast t (existT u v)
    end.
Proof.
  unfold ext_get; simpl. rewrite find_app.
  destruct (List.find (has_type t) (entries e)) as [x|] eqn:E.
  - apply List.find_some in E as [_ Hx%has_type_spec]. unfold downcast.
    destruct (decide (projT1 x = t)); done.
  - simpl. unfold has_type; simpl. case_bool_decide; [done|].
    unfold downcast; simpl. by destruct (decide (u = t)).
Qed.

Lemma reachable_wf e : reachable e → ext_wf e.
Proof.
  unfold ext_wf. induction 1 as [|t v e _ IH]; simpl; [constructor|].
  unfold ext_insert. destruct (existsb _ _) eqn:E; simpl; [done|].
  rewrite fmap_app. apply NoDup_app. split_and!; [done| |apply NoDup_singleton].
  intros x Hx ->%list_elem_of_singleton. apply list_elem_of_fmap in Hx as (y & Hy & Hin).
  apply existsb_false_Forall, Forall_forall with (x := y) in E; [|done].
  apply bool_decide_eq_false in E. done.
Qed.

(** the store refines a write-once partial map from types to values: an insertion of an
    absent type adds exactly that value and touches no other type, an insertion of a present
    type changes nothing and returns the offered value, and no sequence of insertions stores
    two values of one type. *)
Theorem extensions_write_once e t (v : Any t) :
  reachable e →
  ext_wf (ext_insert t v e).1
  ∧ (ext_get t e = None →
       (ext_insert t v e).2 = Ok tt ∧ ext_get t (ext_insert t v e).1 = Some v
       ∧ ∀ u, u ≠ t → ext_get u (ext_insert t v e).1 = ext_get u e)
  ∧ (is_Some (ext_get t e) → ext_insert t v e = (e, Err v)).
Proof.
  intros Hr. split_and!.
  - apply reachable_wf. by constructor.
  - intros H. rewrite insert_fresh by done. simpl. split_and!; [done| |].
    + by rewrite get_snoc, H, downcast_eq.
    + intros u Hu. rewrite get_snoc. destruct (ext_get u e); [done|].
      unfold downcast; simpl. by destruct (decide (t = u)).
  - intros [w H]. by apply (insert_taken _ _ _ w).
Qed.

End extensions.

(** The store with the types [bool] (identifier [true]) and [nat] (identifier [false]). *)
Definition demo_types : AnyTypes :=
  {| TypeId := bool; TypeId_eq_dec := bool_eq_dec; Any b := if b then bool else nat |}.

Lemma extensions_write_once_witness :
  let e := (@ext_insert demo_types true false (@ext_new demo_types)).1 in
  @ext_get demo_types false (@ext_insert demo_types false 7 e).1 = Some 7
  ∧ @ext_get demo_types true (@ext_insert demo_types false 7 e).1 = Some false.
Proof.
  simpl. set (e := (@ext_insert demo_types true false (@ext_new demo_types)).1).
  destruct (@extensions_write_once demo_types e false 7) as (_ & H & _).
  { apply reachable_insert, reachable_new. }
  destruct H as (_ & H1 & H2); [reflexivity|]. split; [exact H1|].
  rewrite H2; [reflexivity|discriminate].
Defined.
