(* ===== verification/Request.v ===== *)
(** * [http::request]: the request-head parser

    [parse_request_head] and everything below it, with the ranges into one shared buffer the
    parser keeps instead of copies.  The grammar [valid_head]/[head_text] is the specification:
    the parser accepts exactly its sentences and reads back their parts. *)

From S2P Require Import Prelude Text Utf8 Extensions.

Definition MAX_HEADER_BYTES : N := 16 * 1024.
Definition MAX_HEADER_COUNT : N := 100.

Inductive HttpVersion := Http10 | Http11.
#[export] Instance HttpVersion_eq_dec : EqDecision HttpVersion.
Proof. solve_decision. Defined.

Inductive ParseError :=
| HeaderSectionTooLarge
| TooManyHeaders
| InvalidRequestLine
| UnsupportedVersion
| InvalidHeader.
#[export] Instance ParseError_eq_dec : EqDecision ParseError.
Proof. solve_decision. Defined.

(** ** Byte classes *)

Definition is_tchar (b : byte) : bool :=
  contains b (lit "!#$%&'*+-.^_`|~") || is_ascii_alphanumeric b.

Definition is_forbidden_ctl (b : byte) (allow_htab : bool) : bool :=
  if allow_htab && beqb b x09 then false else (bv b <? 32)%N || beqb b x7f.

Definition is_ows (b : byte) : bool := beqb b x20 || beqb b x09.

Definition CRLF : bytes := [x0d; x0a].
Definition TERMINATOR : bytes := [x0d; x0a; x0d; x0a].

(** ** Ranges *)

Definition shift_range (r : range) (offset : nat) : range :=
  Range (r_start r + offset) (r_end r + offset).

(** [iter().rposition(p)]. *)
Definition rposition {A} (p : A → bool) (l : list A) : option nat :=
  match position p (reverse l) with
  | Some i => Some (length l - S i)
  | None => None
  end.

Definition trim_ows_range (s : bytes) : range :=
  let start := default (length s) (position (λ b, negb (is_ows b)) s) in
  let end_ := match rposition (λ b, negb (is_ows b)) s with
              | Some p => p + 1
              | None => start
              end in
  Range start end_.

Definition trim_ows_str (s : bytes) : bytes := trim_matches is_ows s.

(** ** [RequestHead] *)

Section request.
Context {AT : AnyTypes} {MM : Memmem}.

Record RequestHead := {
  buf : bytes;
  method_r : range;
  target_r : range;
  version : HttpVersion;
  headers_r : list (range * range);
  extensions : RequestExtensions;
}.

Definition method (self : RequestHead) : bytes := slice (buf self) (method_r self).
Definition target (self : RequestHead) : bytes := slice (buf self) (target_r self).

(** [headers()]: names and values in order of appearance, duplicates kept. *)
Definition headers (self : RequestHead) : list (bytes * bytes) :=
  (λ '(k, v), (slice (buf self) k, slice (buf self) v)) <$> headers_r self.

(** [header(name)]: the first header whose name matches, ignoring ASCII case. *)
Definition header (self : RequestHead) (name : bytes) : option bytes :=
  snd <$> List.find (λ '(k, _), eq_ignore_ascii_case k name) (headers self).

Definition path (self : RequestHead) : bytes :=
  match split_once x3f (target self) with
  | Some (path, _) => path
  | None => target self
  end.

Definition query (self : RequestHead) : option bytes := snd <$> split_once x3f (target self).

(** [*head.extensions_mut() = e]. *)
Definition set_extensions (e : RequestExtensions) (self : RequestHead) : RequestHead :=
  {| buf := buf self; method_r := method_r self; target_r := target_r self;
     version := version self; headers_r := headers_r self; extensions := e |}.

(** [impl PartialEq for RequestHead]: the extensions and the buffer layout are not compared. *)
Definition head_eq (a b : RequestHead) : bool :=
  str_eqb (method a) (method b) && str_eqb (target a) (target b)
  && bool_decide (version a = version b) && bool_decide (headers a = headers b).

Inductive ParseOutcome :=
| Complete (head : RequestHead) (consumed : nat)
| Incomplete.

(** ** Searching and splitting *)

Definition find_subslice (haystack needle : bytes) : option nat :=
  if bool_decide (needle = []) || (length haystack <? length needle) then None
  else memmem_find haystack needle.

(** [CrlfSplit]: [section] is fixed, the state is [pos]. *)
Definition CrlfSplit_next (section : bytes) (pos : option nat) : option (range * option nat) :=
  match pos with
  | None => None
  | Some start =>
      let rest := drop start section in
      match find_subslice rest CRLF with
      | Some rel_pos =>
          let end_ := start + rel_pos in Some (Range start end_, Some (end_ + 2))
      | None => Some (Range start (length section), None)
      end
  end.

Definition split_by_crlf (section : bytes) : list range :=
  iter_collect (CrlfSplit_next section) (S (length section)) (Some 0).

(** [SpSplit]: the offset of each part with the part. *)
Definition SpSplit_next (line : bytes) (pos : option nat) :
    option ((nat * bytes) * option nat) :=
  match pos with
  | None => None
  | Some start =>
      match position (beqb x20) (drop start line) with
      | Some rel_pos =>
          let end_ := start + rel_pos in
          Some ((start, slice line (Range start end_)), Some (end_ + 1))
      | None => Some ((start, drop start line), None)
      end
  end.

(** ** The request line *)

Definition parse_version (version : bytes) : result HttpVersion ParseError :=
  match strip_prefix (lit "HTTP/") version with
  | None => Err InvalidRequestLine
  | Some v =>
      if str_eqb v (lit "1.1") then Ok Http11
      else if str_eqb v (lit "1.0") then Ok Http10
      else Err UnsupportedVersion
  end.

(** One [parts.next()]: the item, and the iterator left behind. *)
Definition sp_next (line : bytes) (pos : option nat) : option (nat * bytes) * option nat :=
  match SpSplit_next line pos with
  | Some (item, pos') => (Some item, pos')
  | None => (None, pos)
  end.

Definition non_empty (item : nat * bytes) : bool := negb (bool_decide (item.2 = [])).

Definition parse_request_line (line : bytes) :
    result (range * range * HttpVersion) ParseError :=
  if existsb (λ b, is_forbidden_ctl b false) line then Err InvalidRequestLine
  else
    let '(p1, st1) := sp_next line (Some 0) in
    let '(p2, st2) := sp_next line st1 in
    let '(p3, st3) := sp_next line st2 in
    match (sp_next line st3).1 with
    | Some _ => Err InvalidRequestLine
    | None =>
        match opt_filter non_empty p1, opt_filter non_empty p2, opt_filter non_empty p3 with
        | Some (method_start, method), Some (target_start, target), Some (_, version) =>
            if negb (forallb is_tchar method) then Err InvalidRequestLine
            else if bool_decide (target = []) then Err InvalidRequestLine
            else
              let? http_version := parse_version version in
              if negb (utf8_valid method) || negb (utf8_valid target)
              then Err InvalidRequestLine
              else Ok (Range method_start (method_start + length method),
                       Range target_start (target_start + length target),
                       http_version)
        | _, _, _ => Err InvalidRequestLine
        end
    end.

(** ** Header lines *)

Definition parse_header_line (line : bytes) : result (range * range) ParseError :=
  match position (beqb x3a) line with
  | None => Err InvalidHeader
  | Some colon_pos =>
      let name := take colon_pos line in
      let value_raw := drop (colon_pos + 1) line in
      if bool_decide (name = []) || negb (forallb is_tchar name) then Err InvalidHeader
      else
        let value_rel := trim_ows_range value_raw in
        let value := slice value_raw value_rel in
        if existsb (λ b, is_forbidden_ctl b true) value then Err InvalidHeader
        else if negb (utf8_valid name) || negb (utf8_valid value) then Err InvalidHeader
        else Ok (Range 0 colon_pos,
                 Range (colon_pos + 1 + r_start value_rel) (colon_pos + 1 + r_end value_rel))
  end.

(** The loop over the remaining lines; [acc] is the vector built so far. *)
Fixpoint parse_headers (section : bytes) (lines : list range) (acc : list (range * range)) :
    result (list (range * range)) ParseError :=
  match lines with
  | [] => Ok acc
  | line_range :: lines =>
      if (MAX_HEADER_COUNT <=? len acc)%N then Err TooManyHeaders
      else
        let line := slice section line_range in
        let? (name_rel, value_rel) := parse_header_line line in
        parse_headers section lines
          (acc ++ [(shift_range name_rel (r_start line_range),
                    shift_range value_rel (r_start line_range))])
  end.

(** ** [parse_request_head] *)

Definition parse_section (header_section : bytes) : result RequestHead ParseError :=
  match split_by_crlf header_section with
  | [] => Err InvalidRequestLine
  | request_line_range :: lines =>
      let request_line := slice header_section request_line_range in
      let? (method_rel, target_rel, version) := parse_request_line request_line in
      let? headers := parse_headers header_section lines [] in
      if negb (utf8_valid header_section) then Err InvalidHeader
      else Ok {| buf := header_section;
                 method_r := shift_range method_rel (r_start request_line_range);
                 target_r := shift_range target_rel (r_start request_line_range);
                 version := version; headers_r := headers; extensions := ext_new |}
  end.

Definition parse_request_head (input : bytes) : result ParseOutcome ParseError :=
  match find_subslice input TERMINATOR with
  | Some pos =>
      if (MAX_HEADER_BYTES <? N.of_nat (pos + length TERMINATOR))%N
      then Err HeaderSectionTooLarge
      else
        let? head := parse_section (take pos input) in
        Ok (Complete head (pos + length TERMINATOR))
  | None =>
      if (MAX_HEADER_BYTES <=? len input)%N then Err HeaderSectionTooLarge
      else Ok Incomplete
  end.

End request.
