(* ===== verification/RequestSpec.v ===== *)
(** * The grammar of request heads, and the parser's equivalence with it

    [head_ast] is an abstract request head, [head_text] its octets and [head_of] the record
    the parser must build for it, with every range.  [parse_request_head] accepts exactly the
    octets of the well-formed abstract heads. *)

From S2P Require Import Prelude Text Utf8 Extensions Request.

Record field := {
  f_name : bytes;
  f_ows1 : bytes;
  f_value : bytes;
  f_ows2 : bytes;
}.

Record head_ast := {
  a_method : bytes;
  a_target : bytes;
  a_version : HttpVersion;
  a_fields : list field;
}.

Definition version_text (v : HttpVersion) : bytes :=
  match v with
  | Http10 => lit "HTTP/1.0"
  | Http11 => lit "HTTP/1.1"
  end.

Definition field_text (f : field) : bytes :=
  f_name f ++ x3a :: f_ows1 f ++ f_value f ++ f_ows2 f.

Definition request_line_text (a : head_ast) : bytes :=
  a_method a ++ x20 :: a_target a ++ x20 :: version_text (a_version a).

Definition head_text (a : head_ast) : bytes :=
  join CRLF (request_line_text a :: (field_text <$> a_fields a)).

(** ** Well-formedness *)

Definition token (s : bytes) : Prop := s ≠ [] ∧ forallb is_tchar s = true.

Definition trimmed (s : bytes) : Prop :=
  (∀ c w, s = c :: w → is_ows c = false) ∧ (∀ c w, s = w ++ [c] → is_ows c = false).

Record field_ok (f : field) : Prop := {
  fo_name : token (f_name f);
  fo_ows1 : forallb is_ows (f_ows1 f) = true;
  fo_ows2 : forallb is_ows (f_ows2 f) = true;
  fo_trimmed : trimmed (f_value f);
  fo_empty : f_value f = [] → f_ows2 f = [];
  fo_ctl : existsb (λ b, is_forbidden_ctl b true) (f_value f) = false;
  fo_utf8 : utf8_valid (f_value f) = true;
}.

Record head_ok (a : head_ast) : Prop := {
  ho_method : token (a_method a);
  ho_target : a_target a ≠ [];
  ho_target_sp : contains x20 (a_target a) = false;
  ho_target_ctl : existsb (λ b, is_forbidden_ctl b false) (a_target a) = false;
  ho_target_utf8 : utf8_valid (a_target a) = true;
  ho_fields : Forall field_ok (a_fields a);
  ho_count : (len (a_fields a) ≤ MAX_HEADER_COUNT)%N;
}.

(** ** Bytes *)

Lemma tchar_not_ctl b h : is_tchar b = true → is_forbidden_ctl b h = false.
Proof. intros H. destruct h; by_bytes b. Qed.
Lemma tchar_ascii b : is_tchar b = true → is_ascii b = true.
Proof. intros H. by_bytes b. Qed.
Lemma tchar_ne b c : is_tchar b = true → is_tchar c = false → b ≠ c.
Proof. intros H1 H2 ->. congruence. Qed.
Lemma ows_ascii b : is_ows b = true → is_ascii b = true.
Proof. intros H. by_bytes b. Qed.
Lemma not_ctl_not_cr b h : is_forbidden_ctl b h = false → b ≠ x0d.
Proof. intros H ->. by destruct h. Qed.

Lemma contains_forallb (P : byte → bool) c s :
  forallb P s = true → P c = false → contains c s = false.
Proof.
  rewrite forallb_Forall, contains_false. intros H Hc. eapply Forall_impl; [exact H|].
  simpl. intros x Hx ->. congruence.
Qed.

Lemma contains_existsb (P : byte → bool) c s :
  existsb P s = false → P c = true → contains c s = false.
Proof.
  rewrite existsb_false_Forall, contains_false. intros H Hc. eapply Forall_impl; [exact H|].
  simpl. intros x Hx ->. congruence.
Qed.

Lemma tchar_contains c s : forallb is_tchar s = true → is_tchar c = false → contains c s = false.
Proof. apply contains_forallb. Qed.

Lemma tchars_no_ctl h s : forallb is_tchar s = true → existsb (λ b, is_forbidden_ctl b h) s = false.
Proof.
  rewrite forallb_Forall, existsb_false_Forall. intros H. eapply Forall_impl; [exact H|].
  intros x. apply tchar_not_ctl.
Qed.

Lemma tchars_utf8 s : forallb is_tchar s = true → utf8_valid s = true.
Proof.
  intros H. apply utf8_valid_all_ascii. rewrite forallb_Forall in *.
  eapply Forall_impl; [exact H|]. apply tchar_ascii.
Qed.

Lemma ows_utf8 s : forallb is_ows s = true → utf8_valid s = true.
Proof.
  intros H. apply utf8_valid_all_ascii. rewrite forallb_Forall in *.
  eapply Forall_impl; [exact H|]. apply ows_ascii.
Qed.

Lemma version_text_inj v w : version_text v = version_text w → v = w.
Proof. by destruct v, w. Qed.

Lemma parse_version_Ok s v : parse_version s = Ok v ↔ s = version_text v.
Proof.
  unfold parse_version. split.
  - destruct (strip_prefix _ _) as [r|] eqn:E; [|done].
    apply strip_prefix_Some in E as ->. repeat case_match; intros; simplify_eq;
      repeat match goal with H : str_eqb _ _ = true |- _ => apply str_eqb_eq in H as -> end;
      done.
  - intros ->. by destruct v.
Qed.

(** ** Optional whitespace *)

Lemma rposition_app_cons {A} (p : A → bool) l1 x l2 :
  Forall (λ y, p y = false) l2 → p x = true →
  rposition p (l1 ++ x :: l2) = Some (length l1).
Proof.
  intros H Hx. unfold rposition.
  rewrite reverse_app, reverse_cons, <- (assoc_L (++)). simpl app.
  rewrite position_app_cons; [|by apply Forall_reverse|done].
  rewrite length_reverse, !length_app. simpl. f_equal. lia.
Qed.

Lemma rposition_None {A} (p : A → bool) l : Forall (λ y, p y = false) l → rposition p l = None.
Proof.
  intros H. unfold rposition.
  assert (position p (reverse l) = None) as ->; [|done].
  apply position_None. by apply Forall_reverse.
Qed.

Lemma trim_ows_range_spec o1 v o2 :
  forallb is_ows o1 = true → forallb is_ows o2 = true → trimmed v → (v = [] → o2 = []) →
  trim_ows_range (o1 ++ v ++ o2) = Range (length o1) (length o1 + length v).
Proof.
  rewrite !forallb_Forall. intros H1 H2 [Hh Hl] He. unfold trim_ows_range.
  assert (∀ o, Forall (λ x, is_ows x = true) o →
               Forall (λ x, negb (is_ows x) = false) o) as Hneg.
  { intros o Ho. eapply Forall_impl; [exact Ho|]. by simpl; intros x ->. }
  destruct v as [|c v].
  - rewrite (He eq_refl), !app_nil_r.
    rewrite (proj2 (position_None _ _)), rposition_None by auto. simpl. f_equal; lia.
  - assert (position (λ b, negb (is_ows b)) (o1 ++ (c :: v) ++ o2) = Some (length o1)) as ->.
    { apply position_app_cons; [by auto|by rewrite (Hh c v)]. }
    destruct (exists_last (l := c :: v)) as (w & d & E); [done|].
    assert (rposition (λ b, negb (is_ows b)) (o1 ++ (c :: v) ++ o2) = Some (length (o1 ++ w)))
      as ->.
    { rewrite E, <- (assoc_L (++) w), (assoc_L (++)).
      apply rposition_app_cons; [by auto|by rewrite (Hl d w)]. }
    simpl default. rewrite E, !length_app. simpl. f_equal. lia.
Qed.

(** Every string is whitespace, a trimmed value, whitespace. *)
Lemma ows_decompose s :
  ∃ o1 v o2, s = o1 ++ v ++ o2 ∧ forallb is_ows o1 = true ∧ forallb is_ows o2 = true
             ∧ trimmed v ∧ (v = [] → o2 = []).
Proof.
  destruct (trim_start_matches_suffix is_ows s) as [o1 E1].
  assert (forallb is_ows o1 = true ∧ ∀ c w, trim_start_matches is_ows s = c :: w →
            is_ows c = false) as [Ho1 Hh].
  { revert o1 E1. induction s as [|c s IH]; intros o1 E1; simpl in *.
    - destruct o1; [done|done].
    - destruct (is_ows c) eqn:Hc.
      + destruct o1 as [|d o1].
        * simpl in E1. apply (f_equal length) in E1. simpl in E1.
          destruct (trim_start_matches_suffix is_ows s) as [k Ek].
          apply (f_equal length) in Ek. rewrite length_app in Ek. lia.
        * simpl in E1. injection E1 as <- E1. simpl. rewrite Hc. by apply IH.
      + destruct o1 as [|d o1]; [split; [done|]; by intros ? ? [= <- <-]|].
        exfalso. apply (f_equal length) in E1. simpl in E1. rewrite length_app in E1.
        simpl in E1. lia. }
  set (t := trim_start_matches is_ows s) in *. clearbody t.
  destruct t as [|c t].
  { exists o1, [], []. rewrite app_nil_r in *. split_and!; try done. split; by intros ? [] ?. }
  assert (∃ v o2, c :: t = v ++ o2 ∧ forallb is_ows o2 = true ∧ v ≠ []
          ∧ ∀ d w, v = w ++ [d] → is_ows d = false) as (v & o2 & E & Ho2 & Hn & Hl).
  { specialize (Hh c t eq_refl). clear E1. induction t as [|d t IH] using rev_ind.
    - exists [c], []. split_and!; try done. intros d w E.
      destruct w as [|? []]; by simplify_eq/=.
    - destruct (is_ows d) eqn:Hd.
      + destruct IH as (v & o2 & E & Ho2 & Hn & Hl). exists v, (o2 ++ [d]).
        split_and!; [by rewrite (assoc_L (++)), <- E| |done|done].
        rewrite forallb_app. simpl. by rewrite Ho2, Hd.
      + exists (c :: t ++ [d]), []. rewrite app_nil_r. split_and!; try done.
        intros e w Ew. change (c :: t ++ [d]) with ((c :: t) ++ [d]) in Ew.
        by apply app_inj_tail in Ew as [_ <-]. }
  exists o1, v, o2. rewrite <- E. split_and!; try done.
  split; [|done]. intros d w ->. simpl in E. injection E as <- _. by eapply Hh.
Qed.

(** ** Lines *)

Section spec.
Context {AT : AnyTypes} {MM : Memmem}.

Lemma find_subslice_find_sub h n : n ≠ [] → find_subslice h n = find_sub n h.
Proof.
  intros Hn. unfold find_subslice. rewrite bool_decide_eq_false_2 by done. simpl.
  destruct (length h <? length n) eqn:E; bool_to_prop.
  - symmetry. apply find_sub_None. intros j Ho%occurs_at_length. lia.
  - apply memmem_find_sub.
Qed.

Lemma sp_next_parts line pre w ws :
  line = pre ++ join [x20] (w :: ws) → contains x20 w = false →
  sp_next line (Some (length pre)) =
    (Some (length pre, w),
     match ws with [] => None | _ => Some (length pre + length w + 1) end).
Proof.
  intros -> Hw. unfold sp_next, SpSplit_next. rewrite drop_app_length.
  destruct ws as [|w2 ws].
  - simpl. unfold contains in Hw. rewrite (proj2 (position_None (beqb x20) w)); [done|].
    by apply existsb_false_Forall.
  - rewrite join_cons. cbn [app]. rewrite position_app_cons;
      [|by apply existsb_false_Forall|done].
    by rewrite slice_app_mid.
Qed.

Lemma sp_next_end line : sp_next line None = (None, None).
Proof. done. Qed.

Definition request_line_ranges (m t : bytes) : range * range :=
  (Range 0 (length m), Range (length m + 1) (length m + 1 + length t)).

Lemma existsb_app_false {A} (p : A → bool) l k :
  existsb p (l ++ k) = false ↔ existsb p l = false ∧ existsb p k = false.
Proof. rewrite existsb_app, orb_false_iff. done. Qed.

Lemma parse_request_line_parts line parts :
  line = join [x20] parts → Forall (λ w, contains x20 w = false) parts → parts ≠ [] →
  existsb (λ b, is_forbidden_ctl b false) line = false →
  parse_request_line line =
    match parts with
    | [m; t; v] =>
        if bool_decide (m = []) || bool_decide (t = []) || bool_decide (v = [])
           || negb (forallb is_tchar m)
        then Err InvalidRequestLine
        else
          let? hv := parse_version v in
          if negb (utf8_valid m) || negb (utf8_valid t) then Err InvalidRequestLine
          else Ok (request_line_ranges m t, hv)
    | _ => Err InvalidRequestLine
    end.
Proof.
  intros Hl Hsp Hn Hc. unfold parse_request_line. rewrite Hc.
  destruct parts as [|p1 parts]; [done|]. apply Forall_cons in Hsp as [H1 Hsp].
  pose proof (sp_next_parts line [] p1 parts Hl H1) as E1. simpl in E1. rewrite E1.
  destruct parts as [|p2 parts].
  { rewrite !sp_next_end. simpl. by repeat case_match. }
  apply Forall_cons in Hsp as [H2 Hsp]. rewrite join_cons in Hl.
  rewrite (assoc_L (++)) in Hl.
  pose proof (sp_next_parts line (p1 ++ [x20]) p2 parts Hl H2) as E2.
  rewrite length_app in E2. simpl in E2. rewrite E2.
  destruct parts as [|p3 parts].
  { rewrite !sp_next_end. simpl. by repeat case_match. }
  apply Forall_cons in Hsp as [H3 Hsp]. rewrite join_cons, !(assoc_L (++)) in Hl.
  pose proof (sp_next_parts line (((p1 ++ [x20]) ++ p2) ++ [x20]) p3 parts) as E3.
  rewrite !length_app in E3. simpl in E3. rewrite E3; [|done..].
  destruct parts as [|p4 parts].
  - rewrite !sp_next_end. simpl. unfold non_empty; simpl.
    do 3 (case_bool_decide; simpl; try done).
    by rewrite (bool_decide_eq_false_2 (p2 = [])).
  - apply Forall_cons in Hsp as [H4 Hsp]. rewrite join_cons, !(assoc_L (++)) in Hl.
    pose proof (sp_next_parts line (((((p1 ++ [x20]) ++ p2) ++ [x20]) ++ p3) ++ [x20]) p4 parts)
      as E4.
    rewrite !length_app in E4. simpl in E4. by rewrite E4.
Qed.

(** The request-line parser is equivalent to its grammar. *)
Lemma parse_request_line_Ok line r1 r2 v :
  parse_request_line line = Ok (r1, r2, v) ↔
  ∃ m t, line = m ++ x20 :: t ++ x20 :: version_text v ∧ token m ∧ t ≠ []
    ∧ contains x20 t = false ∧ existsb (λ b, is_forbidden_ctl b false) t = false
    ∧ utf8_valid t = true ∧ (r1, r2) = request_line_ranges m t.
Proof.
  split.
  - intros H. assert (existsb (λ b, is_forbidden_ctl b false) line = false) as Hc.
    { unfold parse_request_line in H. by destruct (existsb _ _). }
    rewrite (parse_request_line_parts line (split x20 line)) in H;
      [|by rewrite join_split|apply split_no_sep|apply split_not_nil|done].
    pose proof (join_split x20 line) as Hj. pose proof (split_no_sep x20 line) as Hsp.
    destruct (split x20 line) as [|m [|t [|w [|]]]]; try done.
    case_first_in H; [done|]. bool_to_prop.
    apply rbind_Ok in H as (hv & Hv%parse_version_Ok & H). case_first_in H; [done|].
    bool_to_prop. simplify_eq. rewrite !join_cons in Hc. simpl in Hc.
    apply existsb_app_false in Hc as [_ Hc]. simpl in Hc.
    apply existsb_app_false in Hc as [Hc _].
    apply Forall_cons in Hsp as [_ Hsp]. apply Forall_cons in Hsp as [Ht _].
    exists m, t. rewrite !join_cons. unfold token. by split_and!.
  - intros (m & t & -> & [Hm Hmt] & Ht & Hsp & Hc & Hu & Hr).
    rewrite (parse_request_line_parts _ [m; t; version_text v]).
    + rewrite !bool_decide_eq_false_2 by (try done; by destruct v). simpl. rewrite Hmt. simpl.
      rewrite (proj2 (parse_version_Ok _ v)) by done. simpl.
      rewrite tchars_utf8, Hu by done. simpl. by rewrite <- Hr.
    + done.
    + repeat constructor; [by apply tchar_contains|done|by destruct v].
    + done.
    + apply existsb_app_false; split; [by apply tchars_no_ctl|]. simpl.
      apply existsb_app_false; split; [done|]. by destruct v.
Qed.

Definition field_rel_ranges (f : field) : range * range :=
  (Range 0 (length (f_name f)),
   Range (length (f_name f) + 1 + length (f_ows1 f))
         (length (f_name f) + 1 + (length (f_ows1 f) + length (f_value f)))).

Lemma header_line_colon n w :
  forallb is_tchar n = true → position (beqb x3a) (n ++ x3a :: w) = Some (length n).
Proof.
  intros H. apply position_app_cons; [|done]. apply existsb_false_Forall.
  by apply (tchar_contains x3a).
Qed.

(** The header-line parser is equivalent to its grammar. *)
Lemma parse_header_line_Ok line rs :
  parse_header_line line = Ok rs ↔
  ∃ f, line = field_text f ∧ field_ok f ∧ rs = field_rel_ranges f.
Proof.
  unfold parse_header_line. split.
  - destruct (position _ line) as [i|] eqn:E; [|done].
    apply position_Some in E as (n & c & w & -> & <- & <-%beqb_eq & HF).
    rewrite take_app_length, drop_middle by lia.
    destruct (ows_decompose w) as (o1 & v & o2 & -> & H1 & H2 & Ht & He).
    rewrite (trim_ows_range_spec o1 v o2), slice_app_mid by done.
    intros H. repeat (case_first_in H; [done|]). bool_to_prop. simplify_eq.
    exists {| f_name := n; f_ows1 := o1; f_value := v; f_ows2 := o2 |}.
    split_and!; [done| |done]. by constructor.
  - intros ([n o1 v o2] & -> & [[Hn Hnt] H1 H2 Ht He Hc Hu] & ->).
    cbn [f_name f_ows1 f_value f_ows2] in *. unfold field_text.
    cbn [f_name f_ows1 f_value f_ows2]. rewrite header_line_colon by done.
    rewrite take_app_length, drop_middle by lia.
    rewrite (trim_ows_range_spec o1 v o2), slice_app_mid by done.
    rewrite bool_decide_eq_false_2, Hnt, Hc, Hu, (tchars_utf8 n) by done. done.
Qed.

(** ** Splitting the section into lines *)

Fixpoint line_ranges (off : nat) (lines : list bytes) : list range :=
  match lines with
  | [] => []
  | l :: lines => Range off (off + length l) :: line_ranges (off + length l + 2) lines
  end.

Lemma find_crlf_first l rest :
  contains x0d l = false → find_sub CRLF (l ++ CRLF ++ rest) = Some (length l).
Proof. apply (find_sub_first x0d [x0a]). Qed.

Lemma find_crlf_absent l : contains x0d l = false → find_sub CRLF l = None.
Proof. apply (find_sub_absent x0d [x0a]). Qed.

Lemma crlf_next_middle pre l rest :
  contains x0d l = false →
  CrlfSplit_next (pre ++ l ++ CRLF ++ rest) (Some (length pre)) =
    Some (Range (length pre) (length pre + length l), Some (length pre + length l + 2)).
Proof.
  intros H. unfold CrlfSplit_next. rewrite drop_app_length, find_subslice_find_sub by done.
  by rewrite find_crlf_first.
Qed.

Lemma crlf_next_last pre l :
  contains x0d l = false →
  CrlfSplit_next (pre ++ l) (Some (length pre)) =
    Some (Range (length pre) (length pre + length l), None).
Proof.
  intros H. unfold CrlfSplit_next. rewrite drop_app_length, find_subslice_find_sub by done.
  by rewrite find_crlf_absent, length_app.
Qed.

Lemma crlf_collect_None s fuel : iter_collect (CrlfSplit_next s) fuel None = [].
Proof. by destruct fuel. Qed.

Lemma crlf_collect pre ls fuel :
  ls ≠ [] → Forall (λ l, contains x0d l = false) ls → length ls < fuel →
  iter_collect (CrlfSplit_next (pre ++ join CRLF ls)) fuel (Some (length pre)) =
    line_ranges (length pre) ls.
Proof.
  revert pre fuel. induction ls as [|l ls IH]; intros pre fuel Hn HF Hf; [done|].
  apply Forall_cons in HF as [Hl HF]. destruct fuel as [|fuel]; [lia|]. cbn [iter_collect].
  destruct ls as [|l2 ls].
  - simpl join. rewrite crlf_next_last by done. by rewrite crlf_collect_None.
  - rewrite join_cons, crlf_next_middle by done. cbn [line_ranges]. f_equal.
    replace (pre ++ l ++ CRLF ++ join CRLF (l2 :: ls))
      with ((pre ++ l ++ CRLF) ++ join CRLF (l2 :: ls)) by by rewrite <- !(assoc_L (++)).
    replace (length pre + length l + 2) with (length (pre ++ l ++ CRLF))
      by (rewrite !length_app; simpl; lia).
    apply IH; [done..|simpl in *; lia].
Qed.

Lemma length_join_ge sep ls : 0 < length sep → length ls ≤ S (length (join sep ls)).
Proof.
  intros Hs. induction ls as [|l ls IH]; simpl; [lia|]. destruct ls; [simpl; lia|].
  rewrite !length_app. simpl in *. lia.
Qed.

Lemma split_by_crlf_lines ls :
  ls ≠ [] → Forall (λ l, contains x0d l = false) ls →
  split_by_crlf (join CRLF ls) = line_ranges 0 ls.
Proof.
  intros Hn HF. unfold split_by_crlf.
  destruct ls as [|l ls]; [done|]. clear Hn. destruct (decide (ls = [])) as [->|Hn].
  - apply Forall_cons in HF as [Hl _]. cbn [iter_collect].
    pose proof (crlf_next_last [] l Hl) as E. cbn [app length] in E. simpl join. rewrite E.
    by rewrite crlf_collect_None.
  - apply (crlf_collect [] (l :: ls)); [done..|].
    destruct ls as [|l2 ls]; [done|]. rewrite join_cons, !length_app.
    pose proof (length_join_ge CRLF (l2 :: ls)). simpl in *. lia.
Qed.

(** Joining the lines back gives the section. *)
Lemma crlf_collect_join s fuel start :
  length s - start < fuel → start ≤ length s →
  join CRLF (slice s <$> iter_collect (CrlfSplit_next s) fuel (Some start)) = drop start s
  ∧ iter_collect (CrlfSplit_next s) fuel (Some start) ≠ [].
Proof.
  revert start. induction fuel as [|fuel IH]; intros start Hf Hs; [lia|].
  cbn [iter_collect]. unfold CrlfSplit_next at 1 3. rewrite find_subslice_find_sub by done.
  destruct (find_sub CRLF (drop start s)) as [i|] eqn:E.
  - apply find_sub_Some in E as [(a & b & E & <-) _].
    assert (length s = start + length a + 2 + length b) as Hl.
    { apply (f_equal length) in E. rewrite length_drop, !length_app in E. simpl in E. lia. }
    assert (drop (start + length a + 2) s = b) as Hb.
    { rewrite <- Nat.add_assoc, <- drop_drop, E, (assoc_L (++)).
      apply drop_app_exact. rewrite length_app. simpl. lia. }
    destruct (IH (start + length a + 2)) as [IH1 IH2]; [lia..|]. split; [|done].
    rewrite fmap_cons.
    destruct (iter_collect (CrlfSplit_next s) fuel (Some (start + length a + 2))) as [|r rs];
      [done|].
    rewrite fmap_cons in *. rewrite join_cons, IH1, Hb, E. f_equal.
    unfold slice; simpl. rewrite E. apply take_app_exact. lia.
  - split; [|done].
    rewrite crlf_collect_None. simpl. unfold slice; simpl. apply take_ge. rewrite length_drop. lia.
Qed.

Lemma join_split_by_crlf s :
  join CRLF (slice s <$> split_by_crlf s) = s ∧ split_by_crlf s ≠ [].
Proof. unfold split_by_crlf. by apply crlf_collect_join; [lia|lia]. Qed.

(** ** The record the parser builds *)

Fixpoint field_ranges (off : nat) (fs : list field) : list (range * range) :=
  match fs with
  | [] => []
  | f :: fs =>
      (shift_range (field_rel_ranges f).1 off, shift_range (field_rel_ranges f).2 off)
        :: field_ranges (off + length (field_text f) + 2) fs
  end.

Definition head_of (a : head_ast) : RequestHead :=
  {| buf := head_text a;
     method_r := (request_line_ranges (a_method a) (a_target a)).1;
     target_r := (request_line_ranges (a_method a) (a_target a)).2;
     version := a_version a;
     headers_r := field_ranges (length (request_line_text a) + 2) (a_fields a);
     extensions := ext_new |}.

Lemma field_text_no_cr f : field_ok f → contains x0d (field_text f) = false.
Proof.
  intros [[_ Hn] H1 H2 _ _ Hc _]. unfold field_text.
  rewrite contains_app, (tchar_contains x0d) by done. simpl.
  change (contains x0d (f_ows1 f ++ f_value f ++ f_ows2 f) = false).
  rewrite !contains_app, (contains_forallb is_ows x0d _ H1),
    (contains_forallb is_ows x0d _ H2), (contains_existsb _ x0d _ Hc) by done. done.
Qed.

Lemma field_text_utf8 f : field_ok f → utf8_valid (field_text f) = true.
Proof.
  intros [[_ Hn] H1 H2 _ _ _ Hu]. unfold field_text.
  rewrite utf8_valid_app by by apply tchars_utf8. rewrite utf8_valid_ascii_cons by done.
  rewrite utf8_valid_app by by apply ows_utf8. rewrite utf8_valid_app by done.
  by apply ows_utf8.
Qed.

Lemma request_line_no_cr a : head_ok a → contains x0d (request_line_text a) = false.
Proof.
  intros [[_ Hm] _ _ Hc _ _ _]. unfold request_line_text.
  rewrite contains_app, (tchar_contains x0d) by done. simpl.
  change (contains x0d (a_target a ++ x20 :: version_text (a_version a)) = false).
  rewrite contains_app, (contains_existsb _ x0d _ Hc) by done. by destruct (a_version a).
Qed.

Lemma request_line_utf8 a : head_ok a → utf8_valid (request_line_text a) = true.
Proof.
  intros [[_ Hm] _ _ _ Hu _ _]. unfold request_line_text.
  rewrite utf8_valid_app by by apply tchars_utf8. rewrite utf8_valid_ascii_cons by done.
  rewrite utf8_valid_app by done. by destruct (a_version a).
Qed.

Lemma head_lines_no_cr a :
  head_ok a →
  Forall (λ l, contains x0d l = false) (request_line_text a :: (field_text <$> a_fields a)).
Proof.
  intros H. constructor; [by apply request_line_no_cr|].
  apply Forall_fmap. eapply Forall_impl; [apply (ho_fields _ H)|]. intros f. apply field_text_no_cr.
Qed.

Lemma utf8_valid_join ls :
  Forall (λ l, utf8_valid l = true) ls → utf8_valid (join CRLF ls) = true.
Proof.
  induction 1 as [|l ls Hl HF IH]; [done|]. destruct ls; [done|].
  rewrite join_cons. by rewrite !utf8_valid_app.
Qed.

Lemma head_text_utf8 a : head_ok a → utf8_valid (head_text a) = true.
Proof.
  intros H. apply utf8_valid_join. constructor; [by apply request_line_utf8|].
  apply Forall_fmap. eapply Forall_impl; [apply (ho_fields _ H)|]. intros f. apply field_text_utf8.
Qed.

Lemma line_ranges_slices pre ls :
  slice (pre ++ join CRLF ls) <$> line_ranges (length pre) ls = ls.
Proof.
  revert pre. induction ls as [|l ls IH]; intros pre; [done|]. cbn [line_ranges].
  rewrite fmap_cons. f_equal.
  - destruct ls; [|rewrite join_cons; by apply slice_app_mid].
    simpl join. rewrite <- (app_nil_r l) at 1. by apply slice_app_mid.
  - destruct ls as [|l2 ls]; [done|]. rewrite join_cons.
    replace (pre ++ l ++ CRLF ++ join CRLF (l2 :: ls))
      with ((pre ++ l ++ CRLF) ++ join CRLF (l2 :: ls)) by by rewrite <- !(assoc_L (++)).
    replace (length pre + length l + 2) with (length (pre ++ l ++ CRLF))
      by (rewrite !length_app; simpl; lia).
    apply IH.
Qed.

Lemma parse_headers_complete s off fs acc :
  slice s <$> line_ranges off (field_text <$> fs) = field_text <$> fs →
  Forall field_ok fs → (len acc + len fs ≤ MAX_HEADER_COUNT)%N →
  parse_headers s (line_ranges off (field_text <$> fs)) acc = Ok (acc ++ field_ranges off fs).
Proof.
  revert off acc. induction fs as [|f fs IH]; intros off acc Hs HF Hc; simpl.
  { by rewrite app_nil_r. }
  simpl in Hs. injection Hs as Hs1 Hs. apply Forall_cons in HF as [Hf HF].
  replace (len (f :: fs)) with (N.succ (len fs)) in Hc by (unfold len; simpl; lia).
  destruct (MAX_HEADER_COUNT <=? len acc)%N eqn:E; bool_to_prop; [lia|].
  rewrite Hs1, (proj2 (parse_header_line_Ok _ _)) by (exists f; split_and!; [done..|reflexivity]).
  simpl. rewrite IH; [|done..|rewrite len_app; unfold len in *; simpl in *; lia].
  by rewrite <- (assoc_L (++)).
Qed.

Lemma parse_headers_sound s rs acc hs :
  parse_headers s rs acc = Ok hs →
  ∃ fs, slice s <$> rs = field_text <$> fs ∧ Forall field_ok fs
        ∧ ((len acc ≤ MAX_HEADER_COUNT)%N → (len acc + len fs ≤ MAX_HEADER_COUNT)%N).
Proof.
  revert acc. induction rs as [|r rs IH]; intros acc H; simpl in H.
  { exists []. split_and!; [done..|]. unfold len at 3; simpl. lia. }
  destruct (MAX_HEADER_COUNT <=? len acc)%N eqn:E; [done|]. bool_to_prop.
  apply rbind_Ok in H as ([k v] & (f & Hf & Hok & _)%parse_header_line_Ok & H).
  apply IH in H as (fs & Hfs & HF & Hc). exists (f :: fs).
  split_and!; [by rewrite !fmap_cons, Hf, Hfs|by constructor|].
  intros _. rewrite len_app in Hc. unfold len in *; simpl in *. lia.
Qed.

Lemma parse_request_line_complete a :
  head_ok a →
  parse_request_line (request_line_text a) =
    Ok (request_line_ranges (a_method a) (a_target a), a_version a).
Proof.
  intros []. destruct (request_line_ranges _ _) as [r1 r2] eqn:E.
  apply parse_request_line_Ok. exists (a_method a), (a_target a). by split_and!.
Qed.

Lemma parse_section_complete a : head_ok a → parse_section (head_text a) = Ok (head_of a).
Proof.
  intros H. unfold parse_section, head_text.
  rewrite split_by_crlf_lines by (done || by apply head_lines_no_cr).
  pose proof (line_ranges_slices [] (request_line_text a :: (field_text <$> a_fields a))) as Hs.
  cbn [app length line_ranges Nat.add r_start] in *. set (s := join CRLF _) in *.
  assert (s = head_text a) as Es by done. clearbody s.
  rewrite fmap_cons in Hs. injection Hs as Hs1 Hs. rewrite Hs1.
  rewrite parse_request_line_complete by done. cbn [rbind].
  rewrite parse_headers_complete; [|done|apply H|].
  2:{ pose proof (ho_count _ H). unfold len at 1; simpl. lia. }
  cbn [rbind]. rewrite Es, head_text_utf8 by done.
  simpl. unfold head_of, shift_range; simpl. by rewrite !Nat.add_0_r.
Qed.

(** The parser of a header section accepts exactly the grammar, and builds [head_of]. *)
Lemma parse_section_Ok s h :
  parse_section s = Ok h ↔ ∃ a, head_ok a ∧ s = head_text a ∧ h = head_of a.
Proof.
  split; [|by intros (a & H & -> & ->); apply parse_section_complete].
  intros Hp. assert (∃ a, head_ok a ∧ s = head_text a) as (a & Ha & ->).
  { unfold parse_section in Hp. destruct (join_split_by_crlf s) as [Hj _].
    destruct (split_by_crlf s) as [|r rs]; [done|].
    apply rbind_Ok in Hp as ([[mr tr] v] & (m & t & Hl & Hm & Ht & Hsp & Hc & Hu & _)
      %parse_request_line_Ok & Hp).
    apply rbind_Ok in Hp as (hs & (fs & Hfs & HF & Hn)%parse_headers_sound & _).
    exists {| a_method := m; a_target := t; a_version := v; a_fields := fs |}. split.
    - constructor; simpl; try done. unfold len in Hn at 1 2. simpl in Hn. lia.
    - rewrite <- Hj. unfold head_text, request_line_text; simpl. by rewrite <- Hl, <- Hfs. }
  rewrite parse_section_complete in Hp by done. injection Hp as <-. by exists a.
Qed.

(** ** The terminator *)

Lemma find_terminator ls rest :
  ls ≠ [] → Forall (λ l, contains x0d l = false ∧ l ≠ []) ls →
  find_sub TERMINATOR (join CRLF ls ++ TERMINATOR ++ rest) = Some (length (join CRLF ls)).
Proof.
  induction ls as [|l ls IH]; intros Hn HF; [done|].
  apply Forall_cons in HF as [[Hl Hln] HF]. destruct ls as [|l2 ls].
  { simpl join. by apply (find_sub_first x0d [x0a; x0d; x0a]). }
  rewrite join_cons, <- (assoc_L (++) l), <- (assoc_L (++) CRLF).
  unfold TERMINATOR at 1. rewrite find_sub_skip_app by done. fold TERMINATOR.
  assert (∃ c t, join CRLF (l2 :: ls) = c :: t ∧ c ≠ x0d) as (c & t & Hj & Hc).
  { apply Forall_cons in HF as [[H2 H2n] _]. destruct l2 as [|c l2]; [done|].
    apply contains_false, Forall_cons in H2 as [Hc _].
    destruct ls; [by exists c, l2|]. rewrite join_cons. by eexists c, _. }
  specialize (IH ltac:(done) HF). rewrite Hj in *.
  assert (∀ u, find_sub TERMINATOR (CRLF ++ (c :: u)) =
               Nat.add 2 <$> find_sub TERMINATOR (c :: u)) as Hstep.
  { intros u. unfold TERMINATOR, CRLF. simpl app. cbn [find_sub strip_prefix]. simpl beqb.
    rewrite (proj2 (beqb_neq x0d c)) by congruence.
    rewrite !bool_decide_eq_false_2 by by intros []. by destruct (find_sub _ u). }
  cbn [app] in IH |- *. rewrite Hstep, IH. simpl. rewrite !length_app. done.
Qed.

Lemma head_lines_not_nil a :
  head_ok a →
  Forall (λ l, contains x0d l = false ∧ l ≠ []) (request_line_text a :: (field_text <$> a_fields a)).
Proof.
  intros H. apply Forall_and. split; [by apply head_lines_no_cr|].
  constructor; [unfold request_line_text; by destruct (a_method a)|].
  apply Forall_fmap, Forall_true. intros f. unfold field_text; simpl. by destruct (f_name f).
Qed.

(** ** What the accessors read back *)

Lemma head_text_split a :
  ∃ rest, head_text a = a_method a ++ x20 :: a_target a ++ x20 :: rest.
Proof.
  unfold head_text. destruct (field_text <$> a_fields a) as [|l ls].
  - by exists (version_text (a_version a)).
  - rewrite join_cons. unfold request_line_text.
    exists (version_text (a_version a) ++ CRLF ++ join CRLF (l :: ls)).
    by rewrite <- !(assoc_L (++)); simpl; rewrite <- !(assoc_L (++)).
Qed.

Lemma method_head_of a : method (head_of a) = a_method a.
Proof.
  unfold method; simpl. destruct (head_text_split a) as [r ->]. apply (slice_app_mid []); done.
Qed.

Lemma target_head_of a : target (head_of a) = a_target a.
Proof.
  unfold target; simpl. destruct (head_text_split a) as [r ->].
  rewrite (cons_middle x20), (assoc_L (++)).
  apply slice_app_mid; rewrite length_app; simpl; lia.
Qed.

Lemma field_slices pre f post :
  let s := pre ++ field_text f ++ post in
  slice s (shift_range (field_rel_ranges f).1 (length pre)) = f_name f
  ∧ slice s (shift_range (field_rel_ranges f).2 (length pre)) = f_value f.
Proof.
  unfold field_text, shift_range; simpl. split.
  - rewrite <- (assoc_L (++)). apply slice_app_mid; lia.
  - assert (pre ++ (f_name f ++ x3a :: f_ows1 f ++ f_value f ++ f_ows2 f) ++ post
      = (pre ++ f_name f ++ x3a :: f_ows1 f) ++ f_value f ++ (f_ows2 f ++ post)) as ->.
    { rewrite <- !(assoc_L (++)). simpl. by rewrite <- !(assoc_L (++)). }
    apply slice_app_mid; rewrite !length_app; simpl; lia.
Qed.

Lemma field_ranges_slices pre fs :
  (λ '(k, v), (slice (pre ++ join CRLF (field_text <$> fs)) k,
               slice (pre ++ join CRLF (field_text <$> fs)) v))
    <$> field_ranges (length pre) fs
  = (λ f, (f_name f, f_value f)) <$> fs.
Proof.
  revert pre. induction fs as [|f fs IH]; intros pre; [done|].
  cbn [field_ranges]. rewrite !fmap_cons.
  assert (∃ post, pre ++ join CRLF (field_text f :: (field_text <$> fs))
                  = pre ++ field_text f ++ post) as [post E].
  { destruct (field_text <$> fs); [exists []; by rewrite app_nil_r|].
    rewrite join_cons. by eexists. }
  destruct (field_slices pre f post) as [E1 E2].
  f_equal; [by rewrite E, E1, E2|]. clear E1 E2 E.
  destruct fs as [|f2 fs]; [done|]. rewrite fmap_cons, join_cons.
  replace (pre ++ field_text f ++ CRLF ++ join CRLF (field_text f2 :: (field_text <$> fs)))
    with ((pre ++ field_text f ++ CRLF) ++ join CRLF (field_text <$> f2 :: fs))
    by by rewrite <- !(assoc_L (++)).
  replace (length pre + length (field_text f) + 2) with (length (pre ++ field_text f ++ CRLF))
    by (rewrite !length_app; simpl; lia).
  apply IH.
Qed.

Lemma headers_head_of a : headers (head_of a) = (λ f, (f_name f, f_value f)) <$> a_fields a.
Proof.
  unfold headers; simpl. unfold head_text.
  destruct (a_fields a) as [|f fs]; [done|]. rewrite fmap_cons, join_cons, (assoc_L (++)).
  replace (length (request_line_text a) + 2) with (length (request_line_text a ++ CRLF))
    by (rewrite length_app; done).
  apply (field_ranges_slices (request_line_text a ++ CRLF) (f :: fs)).
Qed.

(** ** Character boundaries *)

Lemma slice_ok_between s pre w post r :
  s = pre ++ w ++ post → r = Range (length pre) (length pre + length w) →
  utf8_valid s = true → utf8_valid pre = true → utf8_valid (pre ++ w) = true →
  str_slice_ok s r = true.
Proof.
  intros -> -> Hs Hp Hw. unfold str_slice_ok; simpl.
  assert (∀ a b, utf8_valid a = true → utf8_valid (a ++ b) = true →
                 is_char_boundary (a ++ b) (length a) = true) as Hb.
  { intros a b Ha Hab. destruct b as [|c b]; [rewrite app_nil_r; apply boundary_end|].
    apply boundary_before_ascii. rewrite utf8_valid_app in Hab by done.
    by apply utf8_valid_head in Hab. }
  rewrite (Hb pre), (assoc_L (++)), <- length_app by done.
  rewrite (Hb (pre ++ w)) by (done || by rewrite <- (assoc_L (++))).
  rewrite !andb_true_r. apply andb_true_intro.
  split; apply Nat.leb_le; rewrite !length_app; lia.
Qed.

Lemma field_ranges_ok pre fs :
  utf8_valid pre = true → Forall field_ok fs →
  Forall (λ '(k, v), str_slice_ok (pre ++ join CRLF (field_text <$> fs)) k = true
                     ∧ str_slice_ok (pre ++ join CRLF (field_text <$> fs)) v = true)
    (field_ranges (length pre) fs).
Proof.
  revert pre. induction fs as [|f fs IH]; intros pre Hp HF; [constructor|].
  pose proof HF as HF0. apply Forall_cons in HF as [Hf HF]. cbn [field_ranges].
  assert (∃ post, pre ++ join CRLF (field_text <$> f :: fs) = pre ++ field_text f ++ post)
    as [post E].
  { rewrite fmap_cons. destruct (field_text <$> fs); [exists []; by rewrite app_nil_r|].
    rewrite join_cons. by eexists. }
  assert (utf8_valid (pre ++ field_text f ++ post) = true) as Hv.
  { rewrite <- E, utf8_valid_app by done. apply utf8_valid_join, Forall_fmap.
    eapply Forall_impl; [exact HF0|]. intros g. apply field_text_utf8. }
  constructor.
  - rewrite E. destruct Hf as [[_ Hn] H1 H2 _ _ _ Hu]. apply tchars_utf8 in Hn.
    apply ows_utf8 in H1, H2. unfold field_text in *. split.
    + eapply (slice_ok_between _ pre (f_name f)); [by rewrite <- (assoc_L (++))| |done..|].
      * unfold shift_range; simpl. f_equal; lia.
      * by rewrite utf8_valid_app.
    + eapply (slice_ok_between _ (pre ++ f_name f ++ x3a :: f_ows1 f) (f_value f)).
      * rewrite <- !(assoc_L (++)). simpl. by rewrite <- !(assoc_L (++)).
      * unfold shift_range; simpl. rewrite !length_app. simpl. f_equal; lia.
      * done.
      * by rewrite !utf8_valid_app, utf8_valid_ascii_cons.
      * rewrite <- (assoc_L (++)), utf8_valid_app by done.
        rewrite <- (assoc_L (++)), utf8_valid_app by done. simpl app.
        by rewrite utf8_valid_ascii_cons, utf8_valid_app.
  - destruct fs as [|f2 fs]; [constructor|]. rewrite fmap_cons, (fmap_cons _ f2), join_cons.
    replace (pre ++ field_text f ++ CRLF ++ join CRLF (field_text f2 :: (field_text <$> fs)))
      with ((pre ++ field_text f ++ CRLF) ++ join CRLF (field_text <$> f2 :: fs))
      by by rewrite <- !(assoc_L (++)).
    replace (length pre + length (field_text f) + 2)
      with (length (pre ++ field_text f ++ CRLF)) by (rewrite !length_app; simpl; lia).
    apply IH; [|done]. rewrite !utf8_valid_app by (done || by apply field_text_utf8). done.
Qed.

(** Every range of a parsed head is a string slice that does not panic. *)
Definition head_slices_ok (h : RequestHead) : Prop :=
  utf8_valid (buf h) = true ∧ str_slice_ok (buf h) (method_r h) = true
  ∧ str_slice_ok (buf h) (target_r h) = true
  ∧ Forall (λ '(k, v), str_slice_ok (buf h) k = true ∧ str_slice_ok (buf h) v = true)
      (headers_r h).

Lemma head_of_slices_ok a : head_ok a → head_slices_ok (head_of a).
Proof.
  intros H. pose proof (head_text_utf8 _ H) as Hu. pose proof (ho_method _ H) as [_ Hm].
  apply tchars_utf8 in Hm. pose proof (ho_target_utf8 _ H) as Ht.
  unfold head_slices_ok; simpl. destruct (head_text_split a) as [rest E]. split_and!; [done|..].
  - eapply (slice_ok_between _ [] (a_method a)); [exact E|done..].
  - eapply (slice_ok_between _ (a_method a ++ [x20]) (a_target a)).
    + by rewrite E, <- (assoc_L (++)).
    + rewrite length_app. done.
    + done.
    + by rewrite utf8_valid_app.
    + by rewrite <- (assoc_L (++)), utf8_valid_app.
  - unfold head_text. destruct (a_fields a) as [|f fs] eqn:Ef; [constructor|].
    rewrite fmap_cons, join_cons, (assoc_L (++)).
    replace (length (request_line_text a) + 2) with (length (request_line_text a ++ CRLF))
      by (rewrite length_app; done).
    apply (field_ranges_ok (request_line_text a ++ CRLF) (f :: fs)).
    + rewrite utf8_valid_app; [done|by apply request_line_utf8].
    + rewrite <- Ef. apply H.
Qed.

(** ** The whole parser *)

Definition head_size (a : head_ast) : nat := length (head_text a) + length TERMINATOR.

Lemma parse_head_complete a rest :
  head_ok a → (N.of_nat (head_size a) ≤ MAX_HEADER_BYTES)%N →
  parse_request_head (head_text a ++ TERMINATOR ++ rest) =
    Ok (Complete (head_of a) (head_size a)).
Proof.
  intros H Hs. unfold parse_request_head. rewrite find_subslice_find_sub by done.
  unfold head_text at 1. rewrite find_terminator by (done || by apply head_lines_not_nil).
  fold (head_text a). unfold head_size in *.
  destruct (_ <? _)%N eqn:E; bool_to_prop; [lia|].
  rewrite take_app_length, parse_section_complete by done. done.
Qed.

Lemma parse_head_sound input h n :
  parse_request_head input = Ok (Complete h n) →
  ∃ a rest, head_ok a ∧ input = head_text a ++ TERMINATOR ++ rest ∧ h = head_of a
            ∧ n = head_size a ∧ (N.of_nat n ≤ MAX_HEADER_BYTES)%N.
Proof.
  unfold parse_request_head. rewrite find_subslice_find_sub by done.
  destruct (find_sub TERMINATOR input) as [pos|] eqn:E; [|by case_first].
  destruct (_ <? _)%N eqn:Es; [done|]. bool_to_prop.
  intros (h' & (a & Ha & Ht & ->)%parse_section_Ok & [= <- <-])%rbind_Ok.
  apply find_sub_Some in E as [(s & rest & -> & <-) _]. rewrite take_app_length in Ht. subst s.
  by exists a, rest.
Qed.

(** Nothing to decide yet: no empty line, and room for one within the limit. *)
Definition undecided (input : bytes) : Prop :=
  find_sub TERMINATOR input = None ∧ (len input < MAX_HEADER_BYTES)%N.

Lemma parse_head_incomplete input : parse_request_head input = Ok Incomplete ↔ undecided input.
Proof.
  unfold parse_request_head, undecided. rewrite find_subslice_find_sub by done.
  destruct (find_sub TERMINATOR input) as [pos|].
  - split; [|by intros [? _]]. destruct (_ <? _)%N; [done|].
    by intros (h' & _ & [=])%rbind_Ok.
  - rewrite <- N.leb_gt. destruct (_ <=? _)%N; split; try done. by intros [_ ?].
Qed.

Lemma parse_head_stable input more r :
  parse_request_head input = r → r ≠ Ok Incomplete → parse_request_head (input ++ more) = r.
Proof.
  unfold parse_request_head. rewrite !find_subslice_find_sub by done. intros <- Hr.
  destruct (find_sub TERMINATOR input) as [pos|] eqn:E.
  - rewrite (find_sub_app _ _ more _ E). apply find_sub_Some in E as [Ho%occurs_at_length _].
    by rewrite take_app_le by lia.
  - destruct (MAX_HEADER_BYTES <=? len input)%N eqn:Es; [|done]. bool_to_prop.
    destruct (find_sub TERMINATOR (input ++ more)) as [pos|] eqn:E2.
    + destruct (_ <? _)%N eqn:E3; [done|]. bool_to_prop. exfalso.
      apply find_sub_Some in E2 as [(s & b & Eq & <-) _].
      apply (find_sub_None TERMINATOR input) with (j := length s) in E. apply E.
      unfold len in Es. rewrite (assoc_L (++)) in Eq.
      apply (f_equal (take (length input))) in Eq.
      rewrite take_app_length, take_app_ge in Eq by (rewrite length_app; lia).
      rewrite <- (assoc_L (++)) in Eq. by eexists _, _.
    + rewrite (proj2 (N.leb_le _ _)); [done|]. rewrite len_app. lia.
Qed.

(** C2: every well-formed request head within the size limit is accepted, whatever bytes follow
    it, consuming exactly its octets; the accessors give back the method, the target, the
    version and the header fields it was written from. *)
Theorem parse_request_head_complete a rest :
  head_ok a → (N.of_nat (head_size a) ≤ MAX_HEADER_BYTES)%N →
  ∃ h, parse_request_head (head_text a ++ TERMINATOR ++ rest) = Ok (Complete h (head_size a))
    ∧ method h = a_method a ∧ target h = a_target a ∧ version h = a_version a
    ∧ headers h = (λ f, (f_name f, f_value f)) <$> a_fields a.
Proof.
  intros. exists (head_of a).
  rewrite parse_head_complete, method_head_of, target_head_of, headers_head_of by done. done.
Qed.

(** C1: whatever the parser accepts is a sentence of the grammar: the consumed bytes are a
    request line and at most [MAX_HEADER_COUNT] fields separated by CRLF, the method and the
    field names are tokens, no control character (so no CR or LF) is inside a target or a
    value, and the size limit holds. *)
Theorem parse_request_head_sound input h n :
  parse_request_head input = Ok (Complete h n) →
  ∃ a, head_ok a ∧ take n input = head_text a ++ TERMINATOR
    ∧ (N.of_nat n ≤ MAX_HEADER_BYTES)%N
    ∧ method h = a_method a ∧ target h = a_target a ∧ version h = a_version a
    ∧ headers h = (λ f, (f_name f, f_value f)) <$> a_fields a.
Proof.
  intros (a & rest & Ha & -> & -> & -> & Hn)%parse_head_sound. exists a.
  rewrite method_head_of, target_head_of, headers_head_of. split_and!; try done.
  rewrite (assoc_L (++)). apply take_app_exact. by rewrite length_app.
Qed.

(** the parser asks for more input exactly while the head is not terminated and may still
    fit the limit; any other decision, an accepted head or an error, is final: more input never
    changes it. *)
Theorem parse_request_head_stable input r :
  parse_request_head input = r →
  (r = Ok Incomplete ↔ undecided input)
  ∧ (r ≠ Ok Incomplete → ∀ more, parse_request_head (input ++ more) = r).
Proof.
  intros Hr. split; [rewrite <- Hr; apply parse_head_incomplete|].
  intros Hn more. by apply parse_head_stable.
Qed.

(** no accessor of a parsed head can panic: the buffer is valid UTF-8 and every stored
    range lies inside it and starts and ends on a character boundary. *)
Theorem parse_request_head_no_panic input h n :
  parse_request_head input = Ok (Complete h n) → head_slices_ok h.
Proof. intros (a & rest & Ha & -> & -> & _)%parse_head_sound. by apply head_of_slices_ok. Qed.

End spec.

(** ** A concrete request *)

Definition trimmedb (s : bytes) : bool :=
  match s with
  | [] => true
  | c :: _ => negb (is_ows c) && negb (is_ows (List.last s x00))
  end.

Lemma trimmedb_true s : trimmedb s = true → trimmed s.
Proof.
  intros H. split; intros c w ->; simpl in H; bool_to_prop; [done|].
  assert (trimmedb (w ++ [c]) = negb (is_ows (default c (head w))) && negb (is_ows c)) as E.
  { unfold trimmedb. rewrite List.last_last. by destruct w. }
  rewrite E in H. bool_to_prop. done.
Qed.

Definition demo_field (n v : bytes) : field :=
  {| f_name := n; f_ows1 := [x20]; f_value := v; f_ows2 := [] |}.

Definition demo_ast : head_ast :=
  {| a_method := lit "POST"; a_target := lit "/login?next=%2F"; a_version := Http11;
     a_fields := [demo_field (lit "Host") (lit "example.com");
                  demo_field (lit "Content-Length") (lit "3")] |}.

Lemma demo_field_ok n v :
  token n → trimmedb v = true → existsb (λ b, is_forbidden_ctl b true) v = false →
  utf8_valid v = true → field_ok (demo_field n v).
Proof. intros. constructor; simpl; auto using trimmedb_true. Qed.

Lemma demo_ast_ok : head_ok demo_ast.
Proof.
  constructor; try (by vm_compute).
  repeat (apply Forall_cons; split; [by apply demo_field_ok; vm_compute|]). constructor.
Qed.

Definition demo_request : bytes := head_text demo_ast ++ TERMINATOR ++ lit "a=b".

Lemma parse_request_head_complete_witness :
  ∃ h, @parse_request_head demo_types naive_memmem demo_request
       = Ok (Complete h (@head_size demo_ast))
    ∧ @method demo_types h = lit "POST".
Proof.
  destruct (@parse_request_head_complete demo_types naive_memmem demo_ast (lit "a=b"))
    as (h & H & Hm & _); [exact demo_ast_ok|by vm_compute|].
  exists h. split; [exact H|exact Hm].
Defined.

Lemma demo_parse :
  @parse_request_head demo_types naive_memmem demo_request
  = Ok (Complete (head_of demo_ast) (head_size demo_ast)).
Proof. vm_compute. reflexivity. Qed.

Lemma parse_request_head_sound_witness :
  ∃ a, head_ok a ∧ take (head_size demo_ast) demo_request = head_text a ++ TERMINATOR.
Proof.
  destruct (@parse_request_head_sound demo_types naive_memmem demo_request _ _ demo_parse)
    as (a & Ha & Ht & _).
  exists a. split; [exact Ha|exact Ht].
Defined.

Lemma parse_request_head_stable_witness :
  @parse_request_head demo_types naive_memmem (demo_request ++ lit "GET / HTTP/1.1")
  = Ok (Complete (head_of demo_ast) (head_size demo_ast)).
Proof.
  refine (proj2 (@parse_request_head_stable demo_types naive_memmem demo_request _ demo_parse) _ _).
  discriminate.
Defined.

Lemma parse_request_head_no_panic_witness :
  @head_slices_ok demo_types (head_of demo_ast).
Proof. apply (@parse_request_head_no_panic demo_types naive_memmem demo_request _ _ demo_parse). Defined.
