(* ===== verification/Chunked.v ===== *)
(** * [http::chunked]: the chunked transfer coding

    The encoder ([encode_chunk], [encode_terminator]) and the incremental decoder
    ([ChunkedDecoder]), a state machine that is fed the input in arbitrary pieces.  The grammar
    [chunked_body] is the specification of both. *)

From S2P Require Import Prelude Text Utf8 Radix Request.

Definition MAX_BODY_BYTES : N := 1024 * 1024.
Definition MAX_CHUNK_COUNT : N := 16384.
Definition MAX_CHUNK_LINE_BYTES : N := 256.

(** ** The encoder *)

Definition encode_chunk (data out : bytes) : bytes :=
  match data with
  | [] => out
  | _ => out ++ to_hex (len data) ++ CRLF ++ data ++ CRLF
  end.

Definition encode_terminator (out : bytes) : bytes := out ++ lit "0" ++ CRLF ++ CRLF.

(** ** The decoder *)

Inductive ChunkedError :=
| InvalidChunkSize
| ChunkLineTooLong
| TooManyChunks
| BodyTooLarge
| TrailerUnsupported
| InvalidLineTerminator.
#[export] Instance ChunkedError_eq_dec : EqDecision ChunkedError.
Proof. solve_decision. Defined.

Inductive DecodeOutcome :=
| DecodeComplete (consumed : nat)
| DecodeIncomplete (consumed : nat).

Inductive State :=
| ChunkSizeLine
| ChunkData (remaining : N)
| ChunkDataCrlf
| TrailerLine
| Done.

Record ChunkedDecoder := {
  state : State;
  line_buf : bytes;
  total_decoded : N;
  chunk_count : N;
  max_body_bytes : N;
}.

Definition with_max_body_bytes (max : N) : ChunkedDecoder :=
  {| state := ChunkSizeLine; line_buf := []; total_decoded := 0; chunk_count := 0;
     max_body_bytes := max |}.

Definition new_decoder : ChunkedDecoder := with_max_body_bytes MAX_BODY_BYTES.

Definition set_state (s : State) (d : ChunkedDecoder) : ChunkedDecoder :=
  {| state := s; line_buf := line_buf d; total_decoded := total_decoded d;
     chunk_count := chunk_count d; max_body_bytes := max_body_bytes d |}.
Definition set_line_buf (l : bytes) (d : ChunkedDecoder) : ChunkedDecoder :=
  {| state := state d; line_buf := l; total_decoded := total_decoded d;
     chunk_count := chunk_count d; max_body_bytes := max_body_bytes d |}.
Definition set_total (n : N) (d : ChunkedDecoder) : ChunkedDecoder :=
  {| state := state d; line_buf := line_buf d; total_decoded := n;
     chunk_count := chunk_count d; max_body_bytes := max_body_bytes d |}.
Definition set_count (n : N) (d : ChunkedDecoder) : ChunkedDecoder :=
  {| state := state d; line_buf := line_buf d; total_decoded := total_decoded d;
     chunk_count := n; max_body_bytes := max_body_bytes d |}.

Definition parse_chunk_size (line : bytes) : result N ChunkedError :=
  let size_part := match position (beqb x3b) line with
                   | Some idx => take idx line
                   | None => line
                   end in
  if bool_decide (size_part = []) || negb (forallb is_ascii_hexdigit size_part)
  then Err InvalidChunkSize
  else
    let? s := map_err (λ _, InvalidChunkSize) (from_utf8 size_part) in
    ok_or (from_str_radix 16 u64_max s) InvalidChunkSize.

(** [take_line] on the unread rest of the input ([&input[pos..]]): the line buffer, the new
    position and the line without its CRLF, if it is complete. *)
Fixpoint take_line (buf rest : bytes) (pos : nat) :
    bytes * nat * result (option bytes) ChunkedError :=
  match rest with
  | [] => (buf, pos, Ok None)
  | byte :: rest =>
      if beqb byte x0a then
        match last buf with
        | Some c => if beqb c x0d then ([], pos + 1, Ok (Some (removelast buf)))
                    else (buf, pos + 1, Err InvalidLineTerminator)
        | None => (buf, pos + 1, Err InvalidLineTerminator)
        end
      else
        let buf' := buf ++ [byte] in
        if (MAX_CHUNK_LINE_BYTES <? len buf')%N then (buf', pos + 1, Err ChunkLineTooLong)
        else take_line buf' rest (pos + 1)
  end.

(** What one pass through the decoder's [loop] leaves: the decoder, the position, the output
    and, when the pass returns, the result. *)
Definition pass : Type := ChunkedDecoder * nat * bytes * option (result DecodeOutcome ChunkedError).

Definition decode_size_line (self : ChunkedDecoder) (line : bytes) :
    ChunkedDecoder * option ChunkedError :=
  match parse_chunk_size line with
  | Err e => (self, Some e)
  | Ok size =>
      let self := set_count (chunk_count self + 1) self in
      if (MAX_CHUNK_COUNT <? chunk_count self)%N then (self, Some TooManyChunks)
      else if (size =? 0)%N then (set_state TrailerLine self, None)
      else
        let new_total := (total_decoded self + size)%N in
        if (u64_max <? new_total)%N then (self, Some BodyTooLarge)
        else if (max_body_bytes self <? new_total)%N then (self, Some BodyTooLarge)
        else (set_state (ChunkData size) self, None)
  end.

Definition decode_pass (self : ChunkedDecoder) (input : bytes) (pos : nat) (out : bytes) : pass :=
  match state self with
  | Done => (self, pos, out, Some (Ok (DecodeComplete pos)))
  | ChunkData remaining =>
      let available := length input - pos in
      if available =? 0 then (self, pos, out, Some (Ok (DecodeIncomplete pos)))
      else
        let take_n := N.to_nat (N.min (N.of_nat available) remaining) in
        let out := out ++ slice input (Range pos (pos + take_n)) in
        let self := set_total (total_decoded self + N.of_nat take_n) self in
        let pos := pos + take_n in
        let remaining_left := (remaining - N.of_nat take_n)%N in
        if (remaining_left =? 0)%N then (set_state ChunkDataCrlf self, pos, out, None)
        else (set_state (ChunkData remaining_left) self, pos, out,
              Some (Ok (DecodeIncomplete pos)))
  | line_state =>
      let '(buf, pos, r) := take_line (line_buf self) (drop pos input) pos in
      let self := set_line_buf buf self in
      match r with
      | Err e => (self, pos, out, Some (Err e))
      | Ok None => (self, pos, out, Some (Ok (DecodeIncomplete pos)))
      | Ok (Some line) =>
          match line_state with
          | ChunkDataCrlf =>
              if bool_decide (line = []) then (set_state ChunkSizeLine self, pos, out, None)
              else (self, pos, out, Some (Err InvalidLineTerminator))
          | TrailerLine =>
              if bool_decide (line = [])
              then (set_state Done self, pos, out, Some (Ok (DecodeComplete pos)))
              else (self, pos, out, Some (Err TrailerUnsupported))
          | _ =>
              let '(self, e) := decode_size_line self line in
              (self, pos, out, Err <$> e)
          end
      end
  end.

(** The [loop]; [None] when the fuel runs out, which [decode_loop_total] excludes. *)
Fixpoint decode_loop (fuel : nat) (self : ChunkedDecoder) (input : bytes) (pos : nat)
    (out : bytes) : option (ChunkedDecoder * bytes * result DecodeOutcome ChunkedError) :=
  match fuel with
  | O => None
  | S fuel =>
      match decode_pass self input pos out with
      | (self, pos, out, Some r) => Some (self, out, r)
      | (self, pos, out, None) => decode_loop fuel self input pos out
      end
  end.

(** Two passes per input byte are enough (a data pass may consume none only once). *)
Definition decode_fuel (input : bytes) : nat := 2 * length input + 2.

Definition decode (self : ChunkedDecoder) (input out : bytes) :
    ChunkedDecoder * bytes * result DecodeOutcome ChunkedError :=
  default (self, out, Ok (DecodeIncomplete 0)) (decode_loop (decode_fuel input) self input 0 out).
