(* ===== verification/ChunkedSpec.v ===== *)
(** * The chunked coding: reference machine, grammar and bounds

    [run] feeds the decoder one byte at a time; [decode] computes the same for every input
    ([decode_run]), which makes splitting the input harmless.  [chunked_body] is the grammar of
    chunked bodies; the decoder accepts exactly its sentences and the encoder writes them. *)

From S2P Require Import Prelude Text Utf8 Radix Request Chunked.

(** ** The reference machine *)

(** A completed line, without its CRLF, in a line state. *)
Definition on_line (d : ChunkedDecoder) (line : bytes) : ChunkedDecoder * option ChunkedError :=
  match state d with
  | ChunkDataCrlf =>
      if bool_decide (line = []) then (set_state ChunkSizeLine d, None)
      else (d, Some InvalidLineTerminator)
  | TrailerLine =>
      if bool_decide (line = []) then (set_state Done d, None) else (d, Some TrailerUnsupported)
  | _ => decode_size_line d line
  end.

(** One input byte: the new decoder, the output it yields, an error if there is one. *)
Definition feed (d : ChunkedDecoder) (b : byte) : ChunkedDecoder * bytes * option ChunkedError :=
  match state d with
  | Done => (d, [], None)
  | ChunkData r =>
      let d := set_total (total_decoded d + 1) d in
      if (r - 1 =? 0)%N then (set_state ChunkDataCrlf d, [b], None)
      else (set_state (ChunkData (r - 1)) d, [b], None)
  | _ =>
      match take_line (line_buf d) [b] 0 with
      | (buf, _, Err e) => (set_line_buf buf d, [], Some e)
      | (buf, _, Ok None) => (set_line_buf buf d, [], None)
      | (buf, _, Ok (Some line)) =>
          let '(d, e) := on_line (set_line_buf buf d) line in (d, [], e)
      end
  end.

Fixpoint run (d : ChunkedDecoder) (input : bytes) (out : bytes) (pos : nat) :
    ChunkedDecoder * bytes * result DecodeOutcome ChunkedError :=
  match state d with
  | Done => (d, out, Ok (DecodeComplete pos))
  | _ =>
      match input with
      | [] => (d, out, Ok (DecodeIncomplete pos))
      | b :: input =>
          match feed d b with
          | (d, o, Some e) => (d, out ++ o, Err e)
          | (d, o, None) => run d input (out ++ o) (S pos)
          end
      end
  end.

Definition is_line_state (s : State) : bool :=
  match s with Done | ChunkData _ => false | _ => true end.

(** The states the decoder can be in between calls. *)
Record decoder_wf (d : ChunkedDecoder) : Prop := {
  wf_data : ∀ r, state d = ChunkData r → (0 < r)%N ∧ (total_decoded d + r ≤ max_body_bytes d)%N;
  wf_total : (total_decoded d ≤ max_body_bytes d)%N;
  wf_count : (chunk_count d ≤ MAX_CHUNK_COUNT)%N;
  wf_line : (len (line_buf d) ≤ MAX_CHUNK_LINE_BYTES)%N;
}.

Lemma set_line_buf_id d : set_line_buf (line_buf d) d = d.
Proof. by destruct d. Qed.

Lemma set_line_buf_twice l k d : set_line_buf l (set_line_buf k d) = set_line_buf l d.
Proof. done. Qed.

(** [run] on a line state is [take_line] and then the line's action. *)
Lemma run_line d rest out pos :
  is_line_state (state d) = true →
  run d rest out pos =
    match take_line (line_buf d) rest pos with
    | (buf, _, Err e) => (set_line_buf buf d, out, Err e)
    | (buf, pos', Ok None) => (set_line_buf buf d, out, Ok (DecodeIncomplete pos'))
    | (buf, pos', Ok (Some line)) =>
        match on_line (set_line_buf buf d) line with
        | (d, Some e) => (d, out, Err e)
        | (d, None) => run d (drop (pos' - pos) rest) out pos'
        end
    end.
Proof.
  revert d pos. induction rest as [|b rest IH]; intros d pos Hd.
  { simpl. rewrite set_line_buf_id. destruct (state d); done. }
  assert (run d (b :: rest) out pos = match feed d b with
    | (d, o, Some e) => (d, out ++ o, Err e)
    | (d, o, None) => run d rest (out ++ o) (S pos) end) as ->.
  { simpl. by destruct (state d). }
  assert (feed d b = match take_line (line_buf d) [b] 0 with
      | (buf, _, Err e) => (set_line_buf buf d, [], Some e)
      | (buf, _, Ok None) => (set_line_buf buf d, [], None)
      | (buf, _, Ok (Some line)) =>
          let '(d, e) := on_line (set_line_buf buf d) line in (d, [], e)
      end) as ->.
  { unfold feed. by destruct (state d). }
  cbn [take_line]. destruct (beqb b x0a).
  - destruct (last (line_buf d)) as [c|]; [|by rewrite app_nil_r].
    destruct (beqb c x0d); [|by rewrite app_nil_r].
    replace (pos + 1 - pos) with 1 by lia. replace (pos + 1) with (S pos) by lia.
    destruct (on_line _ _) as [d' [e|]]; by rewrite app_nil_r.
  - destruct (MAX_CHUNK_LINE_BYTES <? _)%N; [by rewrite app_nil_r|].
    rewrite app_nil_r, IH by done. replace (pos + 1) with (S pos) by lia.
    cbn [line_buf set_line_buf].
    destruct (take_line (line_buf d ++ [b]) rest (S pos)) as [[buf pos'] [[line|]|e]] eqn:E;
      [|done..].
    rewrite set_line_buf_twice. destruct (on_line _ _) as [d' [e|]]; [done|].
    assert (S pos ≤ pos') as Hp.
    { revert E. clear. generalize (line_buf d ++ [b]) (S pos). intros l p. revert l p.
      induction rest as [|c rest IH]; intros l p E; simpl in E; [by simplify_eq|].
      repeat case_match; simplify_eq; try lia. apply IH in E. lia. }
    by replace (pos' - pos) with (S (pos' - S pos)) by lia.
Qed.

Definition take_line_pos buf rest pos := (take_line buf rest pos).1.2.

Lemma take_line_bounds buf rest pos buf' pos' r :
  take_line buf rest pos = (buf', pos', r) →
  pos ≤ pos' ≤ pos + length rest
  ∧ (r = Ok None → pos' = pos + length rest)
  ∧ (r ≠ Ok None → pos < pos')
  ∧ ((len buf ≤ MAX_CHUNK_LINE_BYTES)%N → is_ok r = true → (len buf' ≤ MAX_CHUNK_LINE_BYTES)%N).
Proof.
  revert buf pos. induction rest as [|c rest IH]; intros buf pos E; simpl in E.
  { simplify_eq. simpl. split_and!; first [done|lia|by intros []]. }
  destruct (beqb c x0a).
  { repeat case_match; simplify_eq; simpl; split_and!; first [done|lia|by intros]. }
  destruct (MAX_CHUNK_LINE_BYTES <? _)%N eqn:Hl; bool_to_prop.
  { simplify_eq. simpl. split_and!; first [done|lia]. }
  apply IH in E as (H1 & H2 & H3 & H4). simpl. split_and!; [lia..| | |].
  - intros ->. rewrite H2 by done. lia.
  - intros Hr. specialize (H3 Hr). lia.
  - intros _. by apply H4.
Qed.

Lemma run_data d r rest out pos :
  state d = ChunkData r → (0 < r)%N →
  run d rest out pos =
    if (r <=? len rest)%N
    then run (set_state ChunkDataCrlf (set_total (total_decoded d + r) d))
             (drop (N.to_nat r) rest) (out ++ take (N.to_nat r) rest) (pos + N.to_nat r)
    else (set_state (ChunkData (r - len rest)) (set_total (total_decoded d + len rest) d),
          out ++ rest, Ok (DecodeIncomplete (pos + length rest))).
Proof.
  revert d r out pos. induction rest as [|b rest IH]; intros d r out pos Hs Hr.
  { simpl. rewrite Hs, (proj2 (N.leb_gt _ _)) by (unfold len; simpl; lia).
    rewrite app_nil_r, Nat.add_0_r. unfold len; simpl. rewrite N.sub_0_r, N.add_0_r.
    destruct d; simpl in *; by subst. }
  cbn [run]. rewrite Hs. unfold feed. rewrite Hs.
  replace (len (b :: rest)) with (N.succ (len rest)) by (unfold len; simpl; lia).
  destruct (r - 1 =? 0)%N eqn:E; bool_to_prop.
  - assert (r = 1%N) as -> by lia. rewrite (proj2 (N.leb_le _ _)) by lia. change (N.to_nat 1) with 1.
    simpl. by replace (pos + 1) with (S pos) by lia.
  - rewrite (IH _ (r - 1)%N); [|done|lia].
    assert ((r - 1 <=? len rest) = (r <=? N.succ (len rest)))%N as ->.
    { apply eq_bool_prop_intro. rewrite !Is_true_true, !N.leb_le. lia. }
    replace (N.to_nat r) with (S (N.to_nat (r - 1))) by lia. simpl.
    destruct (r <=? N.succ (len rest))%N eqn:E2; bool_to_prop.
    + rewrite <- !(assoc_L (++)). simpl. f_equal; [|lia].
      unfold set_state, set_total; simpl. f_equal. lia.
    + rewrite <- !(assoc_L (++)). unfold set_state, set_total; simpl.
      replace (r - 1 - len rest)%N with (r - N.succ (len rest))%N by lia.
      replace (total_decoded d + 1 + len rest)%N with (total_decoded d + N.succ (len rest))%N by lia.
      by replace (S (pos + length rest)) with (pos + S (length rest)) by lia.
Qed.

(** ** The decoder is the reference machine *)

Definition data_pos (d : ChunkedDecoder) : Prop := ∀ r, state d = ChunkData r → (0 < r)%N.

Lemma on_line_data_pos d line d' e :
  is_line_state (state d) = true → on_line d line = (d', e) → data_pos d'.
Proof.
  unfold on_line, decode_size_line, data_pos. intros Hl H r.
  repeat case_match; simplify_eq/=; bool_to_prop; intros; simplify_eq; try congruence; lia.
Qed.

Definition pass_measure (d : ChunkedDecoder) (input : bytes) (pos : nat) : nat :=
  2 * (length input - pos) + match state d with ChunkData _ => 1 | _ => 0 end.

Lemma decode_pass_line d input pos out :
  is_line_state (state d) = true →
  decode_pass d input pos out =
    match take_line (line_buf d) (drop pos input) pos with
    | (buf, pos, Err e) => (set_line_buf buf d, pos, out, Some (Err e))
    | (buf, pos, Ok None) => (set_line_buf buf d, pos, out, Some (Ok (DecodeIncomplete pos)))
    | (buf, pos, Ok (Some line)) =>
        match on_line (set_line_buf buf d) line with
        | (d', Some e) => (d', pos, out, Some (Err e))
        | (d', None) =>
            (d', pos, out, match state d' with Done => Some (Ok (DecodeComplete pos)) | _ => None end)
        end
    end.
Proof.
  intros Hl. unfold decode_pass, on_line. destruct d as [st lb t c m]; simpl in *.
  destruct (take_line lb (drop pos input) pos) as [[buf pos'] [[line|]|e]];
    destruct st; try done; simpl; try (by case_bool_decide).
  unfold decode_size_line; simpl. destruct (parse_chunk_size line) as [size|]; [|done].
  destruct (MAX_CHUNK_COUNT <? _)%N; [done|]. destruct (size =? 0)%N; [done|].
  destruct (u64_max <? _)%N; [done|]. by destruct (m <? _)%N.
Qed.

Lemma decode_loop_run fuel d input pos out :
  data_pos d → pos ≤ length input → pass_measure d input pos < fuel →
  decode_loop fuel d input pos out = Some (run d (drop pos input) out pos).
Proof.
  revert d pos out. induction fuel as [|fuel IH]; intros d pos out Hd Hp Hf; [lia|].
  cbn [decode_loop]. destruct (is_line_state (state d)) eqn:Hl.
  - rewrite decode_pass_line, run_line by done.
    destruct (take_line (line_buf d) (drop pos input) pos) as [[buf pos'] r] eqn:E.
    apply take_line_bounds in E as (Hb & Hn & Hs & _). rewrite length_drop in Hb.
    destruct r as [[line|]|e]; [|done..].
    destruct (on_line _ line) as [d' [e|]] eqn:Eo; [done|].
    pose proof (on_line_data_pos (set_line_buf buf d) _ _ _ Hl Eo) as Hd'.
    rewrite drop_drop. replace (pos + (pos' - pos)) with pos' by lia.
    specialize (Hs ltac:(done)).
    assert (pass_measure d' input pos' < fuel) as Hm.
    { unfold pass_measure in *. destruct (state d), (state d'); simpl in *; try done; lia. }
    destruct (state d') eqn:Es; try (by apply IH; [done|lia|done]).
    destruct (drop pos' input); simpl; by rewrite Es.
  - destruct (state d) eqn:Es; try done.
    + unfold decode_pass. rewrite Es. pose proof (Hd _ Es) as Hr.
      rewrite (run_data d remaining) by done.
      assert (len (drop pos input) = N.of_nat (length input - pos)) as El.
      { unfold len. by rewrite length_drop. }
      destruct (length input - pos =? 0) eqn:E0; bool_to_prop.
      { rewrite drop_ge, app_nil_r by lia. rewrite (proj2 (N.leb_gt _ _)).
        - unfold len; simpl. rewrite N.sub_0_r, N.add_0_r, Nat.add_0_r.
          destruct d; simpl in *; by subst.
        - unfold len; simpl. lia. }
      rewrite El. unfold slice; simpl.
      replace (pos + N.to_nat (N.of_nat (length input - pos) `min` remaining) - pos)
        with (N.to_nat (N.of_nat (length input - pos) `min` remaining)) by lia.
      destruct (remaining <=? _)%N eqn:E1; bool_to_prop.
      * rewrite N.min_r, N2Nat.id, N.sub_diag by lia. simpl.
        rewrite IH; [|done|lia|].
        -- by rewrite drop_drop.
        -- unfold pass_measure in *. rewrite Es in Hf. simpl. lia.
      * rewrite N.min_l by lia. rewrite Nat2N.id.
        rewrite (proj2 (N.eqb_neq _ 0)) by lia.
        rewrite take_ge by (rewrite length_drop; lia). rewrite length_drop. done.
    + unfold decode_pass. rewrite Es. destruct (drop pos input); simpl; by rewrite Es.
Qed.

Lemma decode_loop_total d input out :
  data_pos d → decode_loop (decode_fuel input) d input 0 out = Some (run d input out 0).
Proof.
  intros Hd. rewrite decode_loop_run; [by rewrite drop_0|done|lia|].
  unfold pass_measure, decode_fuel. destruct (state d); lia.
Qed.

Lemma decode_run d input out : data_pos d → decode d input out = run d input out 0.
Proof. intros Hd. unfold decode. by rewrite decode_loop_total. Qed.

(** ** Splitting the input *)

Definition shift_outcome (n : nat) (r : result DecodeOutcome ChunkedError) :
    result DecodeOutcome ChunkedError :=
  match r with
  | Ok (DecodeComplete m) => Ok (DecodeComplete (n + m))
  | Ok (DecodeIncomplete m) => Ok (DecodeIncomplete (n + m))
  | Err e => Err e
  end.

Lemma run_shift d input out pos n :
  run d input out (n + pos) =
    let '(d', out', r) := run d input out pos in (d', out', shift_outcome n r).
Proof.
  revert d out pos. induction input as [|b input IH]; intros d out pos; simpl.
  - by destruct (state d).
  - destruct (state d); try done;
      destruct (feed d b) as [[d' o] [e|]]; try done; rewrite <- IH; f_equal; lia.
Qed.

Lemma run_app d a b out pos :
  run d (a ++ b) out pos =
    match run d a out pos with
    | (d', out', Ok (DecodeIncomplete n)) => run d' b out' n
    | r => r
    end.
Proof.
  revert d out pos. induction a as [|c a IH]; intros d out pos; simpl.
  - destruct (state d) eqn:Es; try done. destruct b; simpl; by rewrite Es.
  - destruct (state d); try done; destruct (feed d c) as [[d' o] [e|]]; try done; apply IH.
Qed.

Lemma run_incomplete d input out pos d' out' n :
  run d input out pos = (d', out', Ok (DecodeIncomplete n)) → n = pos + length input.
Proof.
  revert d out pos. induction input as [|c a IH]; intros d out pos; simpl.
  - destruct (state d); intros; simplify_eq; lia.
  - destruct (state d); try done; destruct (feed d c) as [[d1 o] [e|]]; try done;
      intros H; apply IH in H; lia.
Qed.

Lemma run_incomplete_nil d input out pos d' out' n :
  run d input out pos = (d', out', Ok (DecodeIncomplete n)) →
  ∀ out2 m, run d' [] out2 m = (d', out2, Ok (DecodeIncomplete m)).
Proof.
  revert d out pos. induction input as [|c a IH]; intros d out pos; simpl.
  - destruct (state d) eqn:Es; intros; simplify_eq; by rewrite Es.
  - destruct (state d); try done; destruct (feed d c) as [[d1 o] [e|]]; try done;
      intros H; by eapply IH.
Qed.

Lemma run_complete_le d input out pos d' out' n :
  run d input out pos = (d', out', Ok (DecodeComplete n)) → pos ≤ n ≤ pos + length input.
Proof.
  revert d out pos. induction input as [|c a IH]; intros d out pos; simpl.
  - destruct (state d); intros; simplify_eq; lia.
  - destruct (state d); try (intros; simplify_eq; lia);
      destruct (feed d c) as [[d1 o] [e|]]; try done; intros H; apply IH in H; lia.
Qed.

Lemma run_complete_prefix d input out pos d' out' n other :
  run d input out pos = (d', out', Ok (DecodeComplete n)) →
  run d (take (n - pos) input ++ other) out pos = (d', out', Ok (DecodeComplete n)).
Proof.
  revert d out pos. induction input as [|c a IH]; intros d out pos; simpl.
  - destruct (state d) eqn:Es; intros; simplify_eq.
    rewrite take_nil. simpl. destruct other; simpl; by rewrite Es.
  - destruct (state d) eqn:Es; try (destruct (feed d c) as [[d1 o] [e|]] eqn:Ef; try done; intros H;
      pose proof (run_complete_le _ _ _ _ _ _ _ H) as [Hle _];
      replace (n - pos) with (S (n - S pos)) by lia; simpl; rewrite Es, Ef; by apply IH).
    intros; simplify_eq. rewrite Nat.sub_diag. simpl. destruct other; simpl; by rewrite Es.
Qed.

(** ** Bounds *)

Lemma decode_size_line_wf d line d' e :
  decode_size_line d line = (d', e) → decoder_wf d →
  total_decoded d' = total_decoded d ∧ max_body_bytes d' = max_body_bytes d
  ∧ (e = None → decoder_wf d').
Proof.
  intros H [Hd Ht Hc Hl]. unfold decode_size_line in H.
  destruct (parse_chunk_size line) as [size|]; [|by simplify_eq].
  repeat case_first_in H; simplify_eq/=; bool_to_prop; simpl in *; split_and!; try done;
    intros _; split; simpl in *; try lia; try done.
  intros r [= <-]. lia.
Qed.

Lemma on_line_wf d line d' e :
  on_line d line = (d', e) → decoder_wf d →
  total_decoded d' = total_decoded d ∧ max_body_bytes d' = max_body_bytes d
  ∧ (e = None → decoder_wf d').
Proof.
  unfold on_line. intros H Hd. destruct (state d); try (by eapply decode_size_line_wf);
    destruct (bool_decide _); simplify_eq/=; split_and!; try done;
    intros _; destruct Hd; split; simpl in *; done.
Qed.

Lemma set_line_buf_wf l d :
  decoder_wf d → (len l ≤ MAX_CHUNK_LINE_BYTES)%N → decoder_wf (set_line_buf l d).
Proof. intros [????] ?. by split. Qed.

Lemma take_line_one buf b :
  take_line buf [b] 0 =
    if beqb b x0a then
      match last buf with
      | Some c => if beqb c x0d then ([], 1, Ok (Some (removelast buf)))
                  else (buf, 1, Err InvalidLineTerminator)
      | None => (buf, 1, Err InvalidLineTerminator)
      end
    else (buf ++ [b], 1, if (MAX_CHUNK_LINE_BYTES <? len (buf ++ [b]))%N
                         then Err ChunkLineTooLong else Ok None).
Proof.
  cbn [take_line]. repeat case_match; done.
Qed.

Lemma feed_wf d b d' o e :
  feed d b = (d', o, e) → decoder_wf d →
  total_decoded d' = (total_decoded d + len o)%N ∧ max_body_bytes d' = max_body_bytes d
  ∧ (total_decoded d' ≤ max_body_bytes d')%N ∧ (e = None → decoder_wf d').
Proof.
  intros H Hd. pose proof (wf_total _ Hd) as Ht.
  assert (∀ s, s = state d → is_line_state s = true →
    match take_line (line_buf d) [b] 0 with
    | (buf, _, Err e) => (set_line_buf buf d, [], Some e)
    | (buf, _, Ok None) => (set_line_buf buf d, [], None)
    | (buf, _, Ok (Some line)) =>
        let '(d, e) := on_line (set_line_buf buf d) line in (d, [], e)
    end = (d', o, e) →
    total_decoded d' = (total_decoded d + len o)%N ∧ max_body_bytes d' = max_body_bytes d
    ∧ (total_decoded d' ≤ max_body_bytes d')%N ∧ (e = None → decoder_wf d')) as Hline.
  { intros s -> _ Hf. destruct (take_line _ _ _) as [[buf p] r] eqn:E.
    apply take_line_bounds in E as (_ & _ & _ & Hb). specialize (Hb (wf_line _ Hd)).
    destruct r as [[line|]|er]; simplify_eq/=.
    - destruct (on_line _ _) as [d2 e2] eqn:Eo; simplify_eq.
      apply on_line_wf in Eo as (E1 & E2 & E3); [|by apply set_line_buf_wf; auto].
      rewrite E1, E2. unfold len; simpl in *. rewrite N.add_0_r. auto.
    - unfold len; simpl. rewrite N.add_0_r. split_and!; try done.
      intros _. apply set_line_buf_wf; auto.
    - unfold len; simpl. rewrite N.add_0_r. done. }
  unfold feed in H. destruct (state d) eqn:Es; try (by eapply Hline; [reflexivity|..|exact H]).
  - clear Hline. destruct (wf_data _ Hd _ Es) as [H1 H2].
    destruct (remaining - 1 =? 0)%N eqn:E; bool_to_prop; simplify_eq/=;
      (split_and!; try done; [lia|]); intros _; destruct Hd; split; simpl in *; try lia; try done.
    intros r [= <-]. lia.
  - simplify_eq. unfold len; simpl. rewrite N.add_0_r. done.
Qed.

Lemma run_wf d input out pos d' out' r :
  run d input out pos = (d', out', r) → decoder_wf d →
  (∃ o, out' = out ++ o ∧ total_decoded d' = (total_decoded d + len o)%N)
  ∧ (total_decoded d' ≤ max_body_bytes d')%N ∧ max_body_bytes d' = max_body_bytes d
  ∧ (is_ok r = true → decoder_wf d').
Proof.
  revert d out pos. induction input as [|b input IH]; intros d out pos H Hd.
  - assert (d' = d ∧ out' = out) as [-> ->] by (simpl in H; destruct (state d); by simplify_eq).
    split_and!; [|by apply wf_total|done..].
    exists []. rewrite app_nil_r. unfold len; simpl. split; [done|lia].
  - assert ((d' = d ∧ out' = out) ∨ match feed d b with
      | (d1, o, Some e) => (d1, out ++ o, Err e)
      | (d1, o, None) => run d1 input (out ++ o) (S pos) end = (d', out', r)) as [[-> ->]|Hf].
    { simpl in H. destruct (state d); auto. by simplify_eq; left. }
    { split_and!; [|by apply wf_total|done..].
      exists []. rewrite app_nil_r. unfold len; simpl. split; [done|lia]. }
    destruct (feed d b) as [[d1 o] e] eqn:Ef. apply feed_wf in Ef as (E1 & E2 & E3 & E4); [|done].
    destruct e as [e|].
    + simplify_eq. split_and!; eauto; done.
    + apply IH in Hf as ((o2 & -> & F1) & F2 & F3 & F4); [|by apply E4].
      split_and!; [|done|congruence|done].
      exists (o ++ o2). rewrite (assoc_L (++)). split; [done|]. rewrite len_app. lia.
Qed.

Lemma decoder_wf_data_pos d : decoder_wf d → data_pos d.
Proof. intros [H _ _ _] r Hr. apply (H r Hr). Qed.

Lemma new_decoder_wf max : decoder_wf (with_max_body_bytes max).
Proof. split; simpl; unfold len; simpl; lia || done. Qed.

(** ** The grammar of chunked bodies *)

(** A chunk-size line: hexadecimal digits, then nothing or a semicolon and an extension. *)
Inductive size_line : bytes → N → Prop :=
| size_line_intro digits ext v :
    digits ≠ [] → forallb is_ascii_hexdigit digits = true →
    digits_value 16 0 digits = Some v → (v ≤ u64_max)%N →
    (ext = [] ∨ ∃ e, ext = x3b :: e) →
    contains x0a ext = false → (len (digits ++ ext) < MAX_CHUNK_LINE_BYTES)%N →
    size_line (digits ++ ext) v.

(** [chunked_body text body n]: [text] is a complete chunked body of [n] chunks, the last one
    included, that carries [body]. *)
Inductive chunked_body : bytes → bytes → N → Prop :=
| chunked_last line :
    size_line line 0 → chunked_body (line ++ CRLF ++ CRLF) [] 1
| chunked_chunk line data text body n :
    size_line line (len data) → data ≠ [] → chunked_body text body n →
    chunked_body (line ++ CRLF ++ data ++ CRLF ++ text) (data ++ body) (n + 1).

Lemma hexdigits_no c s : is_ascii_hexdigit c = false → forallb is_ascii_hexdigit s = true →
  contains c s = false.
Proof.
  intros Hc Hs. apply contains_false. apply forallb_Forall in Hs.
  eapply Forall_impl; [exact Hs|]. simpl. intros x Hx ->. congruence.
Qed.

Lemma size_line_no_lf line v : size_line line v → contains x0a line = false.
Proof.
  intros [digits ext w H1 H2 H3 H4 H5 H6 H7]. rewrite contains_app, H6, orb_false_r.
  by apply hexdigits_no.
Qed.

Lemma size_line_len line v : size_line line v → (len line < MAX_CHUNK_LINE_BYTES)%N.
Proof. by intros []. Qed.

(** The part of a size line the decoder parses ends at the first semicolon. *)
Lemma size_part_spec line :
  ∃ ext, line = match position (beqb x3b) line with Some i => take i line | None => line end ++ ext
  ∧ (ext = [] ∨ ∃ e, ext = x3b :: e).
Proof.
  destruct (position (beqb x3b) line) as [i|] eqn:E.
  - apply position_Some in E as (a & x & b & -> & <- & Hx%beqb_eq & _). subst x.
    exists (x3b :: b). rewrite take_app_length. eauto.
  - exists []. rewrite app_nil_r. auto.
Qed.

Lemma size_part_app digits ext :
  forallb is_ascii_hexdigit digits = true → (ext = [] ∨ ∃ e, ext = x3b :: e) →
  match position (beqb x3b) (digits ++ ext) with
  | Some i => take i (digits ++ ext) | None => digits ++ ext end = digits.
Proof.
  intros Hd He.
  assert (Forall (λ y, beqb x3b y = false) digits) as HF.
  { apply forallb_Forall in Hd. eapply Forall_impl; [exact Hd|]. simpl. intros x Hx. by_bytes x. }
  destruct He as [->|[e ->]].
  - rewrite app_nil_r. by rewrite (proj2 (position_None _ _) HF).
  - rewrite position_app_cons by done. apply take_app_length.
Qed.

Lemma parse_chunk_size_spec line v :
  contains x0a line = false → (len line < MAX_CHUNK_LINE_BYTES)%N →
  parse_chunk_size line = Ok v ↔ size_line line v.
Proof.
  intros Hlf Hlen. split.
  - unfold parse_chunk_size. destruct (size_part_spec line) as (ext & El & He).
    set (size_part := match position _ _ with Some i => _ | None => _ end) in *.
    clearbody size_part. subst line. intros H.
    case_bool_decide as Hn; [done|]. simpl in H.
    destruct (forallb is_ascii_hexdigit size_part) eqn:Hh; [|done]. simpl in H.
    apply rbind_Ok in H as (s & Hs & H%ok_or_Ok). apply map_err_Ok in Hs.
    unfold from_utf8 in Hs. destruct (utf8_valid size_part); simplify_eq.
    destruct (hexdigits_value s 0 Hh) as [w Hw].
    rewrite (from_str_radix_digits 16 u64_max s w) in H by (done || lia).
    destruct (w <=? u64_max)%N eqn:Hle; simplify_eq. bool_to_prop.
    rewrite contains_app in Hlf. apply orb_false_iff in Hlf as [_ Hlf].
    by econstructor.
  - intros [digits ext w H1 H2 H3 H4 H5 H6 H7]. unfold parse_chunk_size.
    rewrite size_part_app, H2 by done. rewrite bool_decide_false by done. simpl.
    unfold from_utf8. rewrite utf8_valid_all_ascii.
    + simpl. rewrite (from_str_radix_digits 16 u64_max digits w) by (done || lia).
      by rewrite (proj2 (N.leb_le _ _)).
    + apply forallb_Forall in H2. apply forallb_Forall. eapply Forall_impl; [exact H2|].
      simpl. intros x Hx. by_bytes x.
Qed.

(** ** Lines of the input *)

Lemma take_line_Some buf rest pos buf' pos' line :
  take_line buf rest pos = (buf', pos', Ok (Some line)) →
  ∃ l rest', rest = l ++ x0a :: rest' ∧ buf ++ l = line ++ [x0d] ∧ contains x0a l = false
    ∧ buf' = [] ∧ pos' = pos + length l + 1
    ∧ (l = [] ∨ (len (buf ++ l) ≤ MAX_CHUNK_LINE_BYTES)%N).
Proof.
  revert buf pos. induction rest as [|c rest IH]; intros buf pos H; simpl in H; [done|].
  destruct (beqb c x0a) eqn:Hc.
  - apply beqb_eq in Hc as ->. destruct (last buf) as [e|] eqn:El; [|done].
    destruct (beqb e x0d) eqn:He; simplify_eq. apply beqb_eq in He as ->.
    exists [], rest. apply last_Some in El as [k ->].
    rewrite removelast_last, app_nil_r. simpl. rewrite Nat.add_0_r. auto 10.
  - destruct (MAX_CHUNK_LINE_BYTES <? _)%N eqn:Hl; simplify_eq. bool_to_prop.
    apply IH in H as (l & rest' & -> & H2 & H3 & H4 & H5 & H6).
    exists (c :: l), rest'. rewrite (cons_middle c buf l), (assoc_L (++)).
    split_and!; try done.
    + unfold contains in *; simpl. rewrite H3, orb_false_r. apply beqb_neq in Hc.
      apply beqb_neq. congruence.
    + simpl. lia.
    + right. destruct H6 as [->|H6]; [by rewrite app_nil_r|done].
Qed.

Lemma take_line_app buf l rest pos :
  contains x0a l = false → (len (buf ++ l) ≤ MAX_CHUNK_LINE_BYTES)%N →
  take_line buf (l ++ rest) pos = take_line (buf ++ l) rest (pos + length l).
Proof.
  revert buf pos. induction l as [|c l IH]; intros buf pos Hl Hb; simpl.
  - by rewrite app_nil_r, Nat.add_0_r.
  - unfold contains in Hl; simpl in Hl. apply orb_false_iff in Hl as [Hc Hl].
    rewrite (proj2 (beqb_neq c x0a)) by (apply beqb_neq in Hc; congruence).
    rewrite (cons_middle c buf l), (assoc_L (++)) in *.
    rewrite (proj2 (N.ltb_ge _ _)) by (rewrite (len_app (buf ++ [c])) in Hb; lia).
    rewrite IH by done. f_equal. lia.
Qed.

Lemma take_line_line line rest pos :
  contains x0a line = false → (len line < MAX_CHUNK_LINE_BYTES)%N →
  take_line [] (line ++ CRLF ++ rest) pos = ([], pos + length line + 2, Ok (Some line)).
Proof.
  intros Hl Hb. change (line ++ CRLF ++ rest) with (line ++ [x0d] ++ x0a :: rest).
  rewrite (assoc_L (++)), take_line_app.
  - simpl. rewrite last_snoc, removelast_last. simpl. rewrite length_app. simpl.
    by replace (pos + (length line + 1) + 1) with (pos + length line + 2) by lia.
  - by rewrite contains_app, Hl.
  - simpl. rewrite len_app. change (len [x0d]) with 1%N. lia.
Qed.

Lemma take_line_inv rest pos buf' pos' line :
  take_line [] rest pos = (buf', pos', Ok (Some line)) →
  ∃ rest', rest = line ++ CRLF ++ rest' ∧ contains x0a line = false ∧ buf' = []
    ∧ pos' = pos + length line + 2 ∧ (len line < MAX_CHUNK_LINE_BYTES)%N.
Proof.
  intros (l & rest' & -> & E & Hl & -> & -> & Hb)%take_line_Some. simpl in *. subst l.
  exists rest'. rewrite contains_app in Hl. apply orb_false_iff in Hl as [Hl _].
  rewrite <- (assoc_L (++)), length_app. simpl. split_and!; [done..|lia|].
  destruct Hb as [Hb|Hb]; [by destruct line|].
  rewrite len_app in Hb. change (len [x0d]) with 1%N in Hb. lia.
Qed.

Lemma decode_size_line_ok d line d' :
  decode_size_line d line = (d', None) ↔
  ∃ v, parse_chunk_size line = Ok v ∧ (chunk_count d + 1 ≤ MAX_CHUNK_COUNT)%N ∧
    d' = set_state (if (v =? 0)%N then TrailerLine else ChunkData v)
           (set_count (chunk_count d + 1) d) ∧
    (v ≠ 0%N → (total_decoded d + v ≤ u64_max)%N ∧ (total_decoded d + v ≤ max_body_bytes d)%N).
Proof.
  unfold decode_size_line. destruct (parse_chunk_size line) as [v|e]; [|by split; [|intros (? & ? & _)]].
  cbn [chunk_count set_count total_decoded max_body_bytes]. split.
  - intros H. exists v. destruct (MAX_CHUNK_COUNT <? _)%N eqn:E1; simplify_eq.
    destruct (v =? 0)%N eqn:E2; [simplify_eq; bool_to_prop; by split_and!|].
    destruct (u64_max <? _)%N eqn:E3; simplify_eq.
    destruct (max_body_bytes d <? _)%N eqn:E4; simplify_eq. by bool_to_prop.
  - intros (w & [= <-] & H1 & -> & H2). rewrite (proj2 (N.ltb_ge _ _)) by done.
    destruct (v =? 0)%N eqn:E; [done|]. bool_to_prop. destruct (H2 E).
    by rewrite !(proj2 (N.ltb_ge _ _)) by done.
Qed.

(** The decoder between two chunks. *)
Definition at_chunk (d : ChunkedDecoder) : Prop := state d = ChunkSizeLine ∧ line_buf d = [].

Lemma run_line_complete d input out pos d' out' m :
  is_line_state (state d) = true → line_buf d = [] →
  run d input out pos = (d', out', Ok (DecodeComplete m)) →
  ∃ line rest d1, input = line ++ CRLF ++ rest ∧ contains x0a line = false
    ∧ (len line < MAX_CHUNK_LINE_BYTES)%N ∧ on_line d line = (d1, None)
    ∧ run d1 rest out (pos + length line + 2) = (d', out', Ok (DecodeComplete m)).
Proof.
  intros Hs Hl H. rewrite run_line, Hl in H by done.
  destruct (take_line [] input pos) as [[buf pos'] [[line|]|e]] eqn:E; [|done..].
  apply take_line_inv in E as (rest & -> & H1 & -> & -> & H2).
  destruct (on_line _ _) as [d1 [e|]] eqn:Eo; [done|].
  replace (set_line_buf [] d) with d in Eo by (rewrite <- Hl; by rewrite set_line_buf_id).
  rewrite (assoc_L (++)), drop_app_exact in H by (rewrite length_app; simpl; lia).
  by exists line, rest, d1.
Qed.

Lemma run_line_next d line rest out pos d1 :
  is_line_state (state d) = true → line_buf d = [] →
  contains x0a line = false → (len line < MAX_CHUNK_LINE_BYTES)%N → on_line d line = (d1, None) →
  run d (line ++ CRLF ++ rest) out pos = run d1 rest out (pos + length line + 2).
Proof.
  intros Hs Hb Hl Hn Ho. rewrite run_line, Hb, take_line_line by done.
  replace (set_line_buf [] d) with d by (rewrite <- Hb; by rewrite set_line_buf_id).
  by rewrite Ho, (assoc_L (++)), drop_app_exact by (rewrite length_app; simpl; lia).
Qed.

(** An empty line in one of the two states that require it. *)
Lemma run_empty_line d rest out pos s :
  line_buf d = [] → (state d = ChunkDataCrlf ∧ s = ChunkSizeLine ∨ state d = TrailerLine ∧ s = Done) →
  run d (CRLF ++ rest) out pos = run (set_state s d) rest out (pos + 2).
Proof.
  intros Hl Hs. change (CRLF ++ rest) with ([] ++ CRLF ++ rest).
  rewrite (run_line_next d [] rest out pos (set_state s d)); [|by destruct Hs as [[-> _]|[-> _]]|done..|].
  - by rewrite Nat.add_0_r.
  - unfold on_line. by destruct Hs as [[-> ->]|[-> ->]].
Qed.

Lemma run_empty_line_complete d input out pos d' out' m :
  line_buf d = [] → (state d = ChunkDataCrlf ∨ state d = TrailerLine) →
  run d input out pos = (d', out', Ok (DecodeComplete m)) → ∃ rest, input = CRLF ++ rest.
Proof.
  intros Hl Hs H. apply run_line_complete in H as (line & rest & d1 & -> & _ & _ & Ho & _);
    [|by destruct Hs as [->| ->]|done].
  exists rest. unfold on_line in Ho.
  destruct Hs as [Hs|Hs]; rewrite Hs in Ho; case_bool_decide; by subst.
Qed.

Lemma run_done d input out pos : state d = Done → run d input out pos = (d, out, Ok (DecodeComplete pos)).
Proof. intros Hs. destruct input; simpl; by rewrite Hs. Qed.

Lemma run_sound n d input out pos d' out' m :
  length input ≤ n → at_chunk d →
  run d input out pos = (d', out', Ok (DecodeComplete m)) →
  ∃ text rest body cnt, input = text ++ rest ∧ m = pos + length text ∧ out' = out ++ body
    ∧ chunked_body text body cnt ∧ (chunk_count d + cnt ≤ MAX_CHUNK_COUNT)%N
    ∧ (body = [] ∨ (total_decoded d + len body ≤ max_body_bytes d)%N).
Proof.
  revert d input out pos. induction n as [|n IH]; intros d input out pos Hn [Hs Hb] H.
  { destruct input; [|simpl in Hn; lia]. simpl in H. by rewrite Hs in H. }
  apply run_line_complete in H as (line & rest & d1 & -> & H1 & H2 & Ho & H); [|by rewrite Hs|done].
  unfold on_line in Ho. rewrite Hs in Ho.
  apply decode_size_line_ok in Ho as (v & Hv & Hc & -> & Ht).
  apply parse_chunk_size_spec in Hv; [|done..].
  destruct (v =? 0)%N eqn:E; bool_to_prop.
  - subst v. pose proof H as Hr. apply run_empty_line_complete in Hr as [r2 ->]; [|done|by right].
    rewrite (run_empty_line _ _ _ _ Done), run_done in H by (done || by right). simplify_eq.
    exists (line ++ CRLF ++ CRLF), r2, [], 1%N. rewrite <- !(assoc_L (++)), app_nil_r, !length_app.
    split_and!; try done; [simpl; lia|by constructor|by left].
  - destruct (Ht E) as [Ht1 Ht2]. rewrite (run_data _ v) in H by (done || lia).
    destruct (v <=? len rest)%N eqn:Ev; [|done]. bool_to_prop. unfold len in Ev.
    pose proof (take_drop (N.to_nat v) rest) as Er.
    assert (length (take (N.to_nat v) rest) = N.to_nat v) as Ed by (rewrite length_take; lia).
    set (data := take _ rest) in *. clearbody data.
    set (r1 := drop _ rest) in *. clearbody r1. subst rest. cbn [set_state set_count total_decoded] in H.
    pose proof H as Hr. apply run_empty_line_complete in Hr as [r2 ->]; [|done|by left].
    rewrite (run_empty_line _ _ _ _ ChunkSizeLine) in H by (done || by left).
    apply IH in H as (text & r3 & body & cnt & -> & -> & -> & Hbody & Hcnt & Htot);
      [|rewrite !length_app in Hn; simpl in Hn; lia|done].
    simpl in Hcnt, Htot. assert (v = len data) as -> by (unfold len; lia).
    exists (line ++ CRLF ++ data ++ CRLF ++ text), r3, (data ++ body), (cnt + 1)%N.
    rewrite <- !(assoc_L (++)), !length_app. split_and!; try done; [simpl; lia|..].
    + apply chunked_chunk; [done| |done]. intros ->. done.
    + lia.
    + right. rewrite len_app. destruct Htot as [->|Htot]; [|lia].
      change (len (@nil byte)) with 0%N. lia.
Qed.

Lemma run_complete text body cnt :
  chunked_body text body cnt → ∀ d rest out pos,
  at_chunk d → (chunk_count d + cnt ≤ MAX_CHUNK_COUNT)%N →
  (total_decoded d + len body ≤ max_body_bytes d)%N → (max_body_bytes d ≤ u64_max)%N →
  ∃ d', run d (text ++ rest) out pos = (d', out ++ body, Ok (DecodeComplete (pos + length text))).
Proof.
  induction 1 as [line Hline|line data text body n Hline Hdata _ IH];
    intros d rest out pos [Hs Hb] Hc Ht Hm;
    pose proof (size_line_no_lf _ _ Hline) as Hlf; pose proof (size_line_len _ _ Hline) as Hll.
  - rewrite <- !(assoc_L (++)). rewrite (run_line_next d line _ out pos
      (set_state TrailerLine (set_count (chunk_count d + 1) d))); [|by rewrite Hs|done..|].
    + rewrite (run_empty_line _ _ _ _ Done); [|done|by right].
      rewrite run_done by done. rewrite app_nil_r, !length_app.
      eexists. eq_by_lia.
    + unfold on_line. rewrite Hs. apply decode_size_line_ok. exists 0%N.
      split_and!; [by apply parse_chunk_size_spec|done|done|done].
  - assert (len data ≠ 0%N) as Hnz by (intros ?%len_nil_inv; done).
    rewrite len_app in Ht.
    rewrite <- !(assoc_L (++)). rewrite (run_line_next d line _ out pos
      (set_state (ChunkData (len data)) (set_count (chunk_count d + 1) d))); [|by rewrite Hs|done..|].
    + rewrite (run_data _ (len data)) by (done || lia).
      rewrite (proj2 (N.leb_le _ _)) by (rewrite len_app; lia).
      rewrite take_app_exact, drop_app_exact by (unfold len; lia).
      rewrite (run_empty_line _ _ _ _ ChunkSizeLine); [|done|by left].
      edestruct IH as [d' ->]; [done|simpl; lia..|].
      exists d'. rewrite <- (assoc_L (++)), !length_app. unfold len. eq_by_lia.
    + unfold on_line. rewrite Hs. apply decode_size_line_ok. exists (len data).
      rewrite (proj2 (N.eqb_neq _ _)) by done.
      split_and!; [by apply parse_chunk_size_spec|lia|done|lia].
Qed.

(** ** The encoder *)

Fixpoint encode_chunks (chunks : list bytes) (out : bytes) : bytes :=
  match chunks with
  | [] => encode_terminator out
  | c :: chunks => encode_chunks chunks (encode_chunk c out)
  end.

Lemma to_hex_size_line n : (n ≤ u64_max)%N → size_line (to_hex n) n.
Proof.
  intros H. rewrite <- (app_nil_r (to_hex n)).
  apply (size_line_intro (to_hex n) [] n); try done.
  - apply to_radix_not_nil.
  - apply to_hex_hexdigits.
  - apply to_hex_value.
  - by left.
  - rewrite app_nil_r. pose proof (to_radix_len_64 16 n H). unfold MAX_CHUNK_LINE_BYTES, to_hex. lia.
Qed.

(** The number of chunks the decoder counts: the empty ones are not written. *)
Definition chunks_written (chunks : list bytes) : N :=
  len (filter (λ c, c ≠ []) chunks).

Lemma encode_chunks_out chunks out :
  encode_chunks chunks out = out ++ encode_chunks chunks [].
Proof.
  revert out. induction chunks as [|c chunks IH]; intros out; simpl; [done|].
  rewrite IH, (IH (encode_chunk c [])), (assoc_L (++)). f_equal.
  destruct c; simpl; [by rewrite app_nil_r|done].
Qed.

Lemma encode_chunks_cons c chunks :
  encode_chunks (c :: chunks) [] =
    match c with [] => [] | _ => to_hex (len c) ++ CRLF ++ c ++ CRLF end ++ encode_chunks chunks [].
Proof. simpl. rewrite encode_chunks_out. by destruct c. Qed.

Lemma encode_chunks_body chunks :
  (len (concat chunks) ≤ u64_max)%N →
  chunked_body (encode_chunks chunks []) (concat chunks) (chunks_written chunks + 1).
Proof.
  unfold chunks_written. induction chunks as [|c chunks IH]; intros H.
  - apply (chunked_last (lit "0")). by apply (to_hex_size_line 0).
  - rewrite encode_chunks_cons. cbn [concat] in *. rewrite len_app in H. destruct c as [|b c].
    + rewrite filter_cons_False by naive_solver. apply IH. lia.
    + rewrite filter_cons_True by done. rewrite <- !(assoc_L (++)).
      replace (len (_ :: filter _ chunks) + 1)%N with (len (filter (λ c, c ≠ []) chunks) + 1 + 1)%N
        by (unfold len; simpl; lia).
      apply chunked_chunk; [apply to_hex_size_line; lia|done|apply IH; lia].
Qed.

(** ** The claims *)

(** C3: the decoder accepts exactly the grammar: [decode] on a new decoder with the body limit
    [max] completes with [n] consumed bytes and [out'] as output iff the first [n] bytes of the
    input are a chunked body within the chunk-count and body limits, and then it has appended
    precisely the data of its chunks. *)
Theorem chunked_decode_grammar max input out out' n :
  (max ≤ u64_max)%N →
  (decode (with_max_body_bytes max) input out).1.2 = out'
  ∧ (decode (with_max_body_bytes max) input out).2 = Ok (DecodeComplete n) ↔
  ∃ text rest body cnt,
    input = text ++ rest ∧ n = length text ∧ out' = out ++ body
    ∧ chunked_body text body cnt ∧ (cnt ≤ MAX_CHUNK_COUNT)%N ∧ (len body ≤ max)%N.
Proof.
  intros Hmax. rewrite decode_run by apply decoder_wf_data_pos, new_decoder_wf. split.
  - destruct (run _ _ _ _) as [[d' o] r] eqn:E. simpl. intros [-> ->].
    apply (run_sound (length input)) in E as (text & rest & body & cnt & E1 & E2 & E3 & E4 & E5 & E6);
      [|done..].
    exists text, rest, body, cnt. simpl in E5, E6. split_and!; try done.
    destruct E6 as [->|?]; [unfold len; simpl; lia|lia].
  - intros (text & rest & body & cnt & -> & -> & -> & Hb & Hc & Hl).
    edestruct (run_complete _ _ _ Hb (with_max_body_bytes max) rest out 0) as [d' ->];
      [done|simpl; lia..|done].
Qed.

(** cutting the input anywhere does not change what the decoder does: decoding [a ++ b] at
    once is decoding [a] and, if that asks for more, continuing with [b] on the decoder it
    left; the decoder then consumed all of [a]. *)
Theorem chunked_decode_split d a b out :
  decoder_wf d →
  decode d (a ++ b) out =
    match decode d a out with
    | (d', out', Ok (DecodeIncomplete n)) =>
        let '(d'', out'', r) := decode d' b out' in (d'', out'', shift_outcome n r)
    | r => r
    end
  ∧ ∀ d' out' n, decode d a out = (d', out', Ok (DecodeIncomplete n)) → n = length a.
Proof.
  intros Hd. rewrite !decode_run by (by apply decoder_wf_data_pos). rewrite run_app. split.
  - destruct (run d a out 0) as [[d' out'] [[n|n]|e]] eqn:E; [done| |done].
    rewrite decode_run.
    + rewrite <- (Nat.add_0_r n) at 1. apply run_shift.
    + apply run_wf in E as (_ & _ & _ & H); [|done]. apply decoder_wf_data_pos. by apply H.
  - intros d' out' n H. by apply run_incomplete in H.
Qed.

(** bounds.  Whatever it is fed, a decoder appends to the output exactly the bytes it
    counts in [total_decoded], and that count (and so the output of a decoder's whole life)
    never passes [max_body_bytes], on errors included; unless an error ended it, the decoder
    it leaves is again one whose counters, line buffer and pending chunk are in bounds. *)
Theorem chunked_decode_bounds d input out :
  decoder_wf d →
  let '(d', out', r) := decode d input out in
  (∃ o, out' = out ++ o ∧ total_decoded d' = (total_decoded d + len o)%N)
  ∧ (total_decoded d' ≤ max_body_bytes d')%N ∧ max_body_bytes d' = max_body_bytes d
  ∧ (is_ok r = true → decoder_wf d').
Proof.
  intros Hd. rewrite decode_run by (by apply decoder_wf_data_pos).
  destruct (run d input out 0) as [[d' out'] r] eqn:E. by eapply run_wf.
Qed.

(** C14: round trip.  What the encoder writes for a sequence of chunks, the empty ones
    included, the decoder turns back into their concatenation, consuming exactly the encoded
    bytes, provided the sequence is within the decoder's limits. *)
Theorem chunked_roundtrip max chunks rest out :
  (max ≤ u64_max)%N → (len (concat chunks) ≤ max)%N → (chunks_written chunks < MAX_CHUNK_COUNT)%N →
  ∃ d', decode (with_max_body_bytes max) (encode_chunks chunks [] ++ rest) out =
    (d', out ++ concat chunks, Ok (DecodeComplete (length (encode_chunks chunks [])))).
Proof.
  intros Hm Hl Hc. rewrite decode_run by apply decoder_wf_data_pos, new_decoder_wf.
  apply (run_complete (encode_chunks chunks []) (concat chunks) (chunks_written chunks + 1))
    with (pos := 0); simpl; try done; try lia.
  apply encode_chunks_body. lia.
Qed.

(** ** Witnesses *)

Definition demo_chunks : list bytes := [lit "Wiki"; []; lit "pedia in chunks"].

Lemma chunked_decode_grammar_witness :
  ((decode (with_max_body_bytes 64) (encode_chunks demo_chunks [] ++ lit "X") []).1.2
     = lit "Wikipedia in chunks"
   ∧ (decode (with_max_body_bytes 64) (encode_chunks demo_chunks [] ++ lit "X") []).2
     = Ok (DecodeComplete 34))
  ∧ ∃ text rest body cnt,
    encode_chunks demo_chunks [] ++ lit "X" = text ++ rest ∧ 34 = length text
    ∧ lit "Wikipedia in chunks" = [] ++ body
    ∧ chunked_body text body cnt ∧ (cnt ≤ MAX_CHUNK_COUNT)%N ∧ (len body ≤ 64)%N.
Proof.
  split; [by split; vm_compute|]. apply (chunked_decode_grammar 64); [done|].
  by split; vm_compute.
Defined.

Lemma chunked_decode_split_witness :
  decoder_wf (with_max_body_bytes 64)
  ∧ (decode (with_max_body_bytes 64) ((lit "4" ++ [x0d]) ++ x0a :: lit "Wi") []).2
    = Ok (DecodeIncomplete 5).
Proof.
  split; [apply new_decoder_wf|].
  rewrite (proj1 (chunked_decode_split (with_max_body_bytes 64) (lit "4" ++ [x0d])
    (x0a :: lit "Wi") [] (new_decoder_wf 64))).
  by vm_compute.
Defined.

Lemma chunked_decode_bounds_witness :
  (total_decoded (decode (with_max_body_bytes 4) (encode_chunks demo_chunks []) []).1.1 ≤ 4)%N.
Proof.
  pose proof (chunked_decode_bounds (with_max_body_bytes 4) (encode_chunks demo_chunks []) []
    (new_decoder_wf 4)) as H.
  destruct (decode _ _ _) as [[d' o] r]. destruct H as (_ & H & E & _). by rewrite E in H.
Defined.

Lemma chunked_roundtrip_witness :
  ∃ d', decode (with_max_body_bytes 19) (encode_chunks demo_chunks [] ++ []) [] =
    (d', concat demo_chunks, Ok (DecodeComplete 34)).
Proof.
  exact (chunked_roundtrip 19 demo_chunks [] [] ltac:(done) ltac:(done) ltac:(done)).
Defined.
