(* ===== verification/Body.v ===== *)
(** * [http::body]: how the length of a request body is decided

    [body_length_with_limit] reads [Transfer-Encoding] and [Content-Length].  [framing] is the
    decision table it must implement: every head has exactly one outcome, and no head with both
    headers, or with two of either, is given a body length. *)

From S2P Require Import Prelude Text Utf8 Radix Extensions Request RequestSpec Chunked.

Inductive BodyLength :=
| LenNone
| LenFixed (n : N)
| LenChunked.
#[export] Instance BodyLength_eq_dec : EqDecision BodyLength.
Proof. solve_decision. Defined.

Inductive BodyError :=
| TransferEncodingUnsupported
| ContentLengthWithChunked
| DuplicateContentLength
| InvalidContentLength
| BodyErrTooLarge.
#[export] Instance BodyError_eq_dec : EqDecision BodyError.
Proof. solve_decision. Defined.

Definition parse_content_length (value : bytes) : result N BodyError :=
  if bool_decide (value = []) || negb (forallb is_ascii_digit value)
  then Err InvalidContentLength
  else ok_or (parse_uint u64_max value) InvalidContentLength.

Section body.
Context {AT : AnyTypes}.

(** [headers().filter(|(n, _)| n.eq_ignore_ascii_case(name)).map(|(_, v)| v)]. *)
Definition header_values (name : bytes) (self : RequestHead) : list bytes :=
  snd <$> List.filter (λ p, eq_ignore_ascii_case p.1 name) (headers self).

(** The loop over the headers; [content_length] is the local variable. *)
Fixpoint content_length_loop (hs : list (bytes * bytes)) (content_length : option N) :
    result (option N) BodyError :=
  match hs with
  | [] => Ok content_length
  | (name, value) :: hs =>
      if negb (eq_ignore_ascii_case name (lit "content-length"))
      then content_length_loop hs content_length
      else
        match content_length with
        | Some _ => Err DuplicateContentLength
        | None =>
            let? n := parse_content_length value in
            content_length_loop hs (Some n)
        end
  end.

Definition body_length_with_limit (head : RequestHead) (max_body_bytes : N) :
    result BodyLength BodyError :=
  let has_content_length :=
    existsb (λ p, eq_ignore_ascii_case p.1 (lit "content-length")) (headers head) in
  match header_values (lit "transfer-encoding") head with
  | first :: transfer_encodings =>
      let is_single_chunked :=
        bool_decide (transfer_encodings = [])
        && eq_ignore_ascii_case (trim first) (lit "chunked") in
      if negb (bool_decide (version head = Http11)) || negb is_single_chunked
      then Err TransferEncodingUnsupported
      else if has_content_length then Err ContentLengthWithChunked
      else Ok LenChunked
  | [] =>
      let? content_length := content_length_loop (headers head) None in
      match content_length with
      | None => Ok LenNone
      | Some n =>
          if (n =? 0)%N then Ok LenNone
          else if (max_body_bytes <? n)%N then Err BodyErrTooLarge
          else Ok (LenFixed n)
      end
  end.

Definition body_length (head : RequestHead) : result BodyLength BodyError :=
  body_length_with_limit head MAX_BODY_BYTES.

(** ** Specification *)

(** A valid [Content-Length] value: decimal digits only (no sign, no blanks) with a value that
    fits 64 bits. *)
Definition content_length_value (v : bytes) (n : N) : Prop :=
  v ≠ [] ∧ forallb is_ascii_digit v = true ∧ digits_value 10 0 v = Some n ∧ (n ≤ u64_max)%N.

(** The decision table over the values of the two headers, in order of appearance. *)
Inductive framing (v : HttpVersion) (max : N) : list bytes → list bytes → result BodyLength BodyError → Prop :=
| framing_chunked te :
    v = Http11 → eq_ignore_ascii_case (trim te) (lit "chunked") = true →
    framing v max [te] [] (Ok LenChunked)
| framing_chunked_cl te cl cls :
    v = Http11 → eq_ignore_ascii_case (trim te) (lit "chunked") = true →
    framing v max [te] (cl :: cls) (Err ContentLengthWithChunked)
| framing_te te tes cls :
    (v ≠ Http11 ∨ tes ≠ [] ∨ eq_ignore_ascii_case (trim te) (lit "chunked") = false) →
    framing v max (te :: tes) cls (Err TransferEncodingUnsupported)
| framing_none : framing v max [] [] (Ok LenNone)
| framing_zero cl : content_length_value cl 0 → framing v max [] [cl] (Ok LenNone)
| framing_fixed cl n :
    content_length_value cl n → n ≠ 0%N → (n ≤ max)%N → framing v max [] [cl] (Ok (LenFixed n))
| framing_too_large cl n :
    content_length_value cl n → n ≠ 0%N → (max < n)%N → framing v max [] [cl] (Err BodyErrTooLarge)
| framing_invalid cl cls :
    (¬ ∃ n, content_length_value cl n) → framing v max [] (cl :: cls) (Err InvalidContentLength)
| framing_duplicate cl cl2 cls n :
    content_length_value cl n → framing v max [] (cl :: cl2 :: cls) (Err DuplicateContentLength).

Lemma parse_content_length_spec v :
  match parse_content_length v with
  | Ok n => content_length_value v n
  | Err e => e = InvalidContentLength ∧ ¬ ∃ n, content_length_value v n
  end.
Proof.
  unfold parse_content_length, content_length_value. case_bool_decide as Hv; simpl.
  { split; [done|]. by intros (n & ? & _). }
  destruct (forallb is_ascii_digit v) eqn:Hd; simpl; [|split; [done|]; by intros (n & _ & ? & _)].
  destruct (digits_digits_value v 0 Hd) as [n Hn]. unfold parse_uint.
  rewrite (from_str_radix_digits 10 u64_max v n) by (done || lia).
  destruct (n <=? u64_max)%N eqn:E; simpl; bool_to_prop; [done|].
  split; [done|]. intros (m & _ & _ & Hm & Hle). simplify_eq. lia.
Qed.

Lemma content_length_loop_values hs acc :
  content_length_loop hs acc =
    match acc, snd <$> List.filter (λ p, eq_ignore_ascii_case p.1 (lit "content-length")) hs with
    | _, [] => Ok acc
    | Some _, _ :: _ => Err DuplicateContentLength
    | None, v :: vs =>
        let? n := parse_content_length v in
        match vs with [] => Ok (Some n) | _ => Err DuplicateContentLength end
    end.
Proof.
  revert acc. induction hs as [|[k v] hs IH]; intros acc; cbn [content_length_loop List.filter];
    [by destruct acc|]. cbn [fst].
  destruct (eq_ignore_ascii_case k _) eqn:E; cbn [negb]; [|apply IH].
  destruct acc as [a|]; [done|].
  cbn. destruct (parse_content_length v) as [n|e]; [|done]. cbn [rbind]. rewrite IH. done.
Qed.

Lemma existsb_header_values name hs :
  existsb (λ p : bytes * bytes, eq_ignore_ascii_case p.1 name) hs =
    negb (bool_decide ((snd <$> List.filter (λ p, eq_ignore_ascii_case p.1 name) hs) = [])).
Proof.
  induction hs as [|[k v] hs IH]; simpl; [done|].
  by destruct (eq_ignore_ascii_case k name).
Qed.

Lemma body_length_table head max :
  framing (version head) max (header_values (lit "transfer-encoding") head)
    (header_values (lit "content-length") head) (body_length_with_limit head max).
Proof.
  unfold body_length_with_limit. rewrite existsb_header_values, content_length_loop_values.
  fold (header_values (lit "content-length") head).
  destruct (header_values (lit "transfer-encoding") head) as [|te tes].
  - destruct (header_values (lit "content-length") head) as [|cl cls]; simpl; [constructor|].
    pose proof (parse_content_length_spec cl) as Hp.
    destruct (parse_content_length cl) as [n|e]; simpl.
    + destruct cls as [|cl2 cls]; [|by econstructor]. simpl.
      destruct (n =? 0)%N eqn:E; bool_to_prop; [subst; by constructor|].
      destruct (max <? n)%N eqn:E2; bool_to_prop; by econstructor.
    + destruct Hp as [-> Hp]. by constructor.
  - case_bool_decide as Hv; simpl; [|constructor; by left].
    case_bool_decide as Ht; simpl; [subst|constructor; by right; left].
    destruct (eq_ignore_ascii_case (trim te) _) eqn:E; simpl; [|constructor; by right; right].
    destruct (header_values (lit "content-length") head) as [|cl cls]; simpl; by constructor.
Qed.

Lemma content_length_value_inj v n m : content_length_value v n → content_length_value v m → n = m.
Proof. intros (_ & _ & H1 & _) (_ & _ & H2 & _). congruence. Qed.

Lemma framing_functional v max tes cls r1 r2 :
  framing v max tes cls r1 → framing v max tes cls r2 → r1 = r2.
Proof.
  assert (∀ cl n m, content_length_value cl n → content_length_value cl m → n = m)
    by apply content_length_value_inj.
  destruct 1; inversion 1; subst;
    repeat match goal with
    | H1 : content_length_value ?c ?n, H2 : content_length_value ?c ?m |- _ =>
        assert (n = m) as <- by eauto; clear H2
    | H1 : content_length_value ?c ?n, H2 : ¬ _ |- _ => destruct H2; by exists n
    end; try done; try lia; intuition congruence.
Qed.

(** [body_length_with_limit] is the decision table [framing], for every head: an outcome is
    returned iff the table has it.  In particular (request smuggling) a body length is only
    given when the framing is unambiguous: chunked needs HTTP/1.1, one [Transfer-Encoding] that
    is [chunked] and no [Content-Length]; a fixed length needs exactly one [Content-Length],
    digits only, and no [Transfer-Encoding]. *)
Theorem body_length_decides head max r :
  body_length_with_limit head max = r ↔
  framing (version head) max (header_values (lit "transfer-encoding") head)
    (header_values (lit "content-length") head) r.
Proof.
  split; [intros <-; apply body_length_table|]. intros H.
  eapply framing_functional; [apply body_length_table|exact H].
Qed.

Lemma body_length_bounded head max n :
  body_length_with_limit head max = Ok (LenFixed n) → (0 < n ≤ max)%N ∧ (n ≤ u64_max)%N.
Proof.
  intros H. pose proof (body_length_table head max) as HF. rewrite H in HF.
  inversion HF; subst. match goal with H : content_length_value _ _ |- _ => destruct H as (_&_&_&?) end.
  lia.
Qed.

End body.
