(* ===== verification/RecvBuffer.v ===== *)
(** * [http::buffer]: the receive buffer

    A [Vec<u8>] with its capacity and a cursor.  Abstractly it is a byte queue, [unread]; the
    theorem of this file is that every operation acts on that queue as it says, keeps the
    cursor in bounds, and that the memory kept between requests is bounded. *)

From S2P Require Import Prelude.

Definition READ_CHUNK_BYTES : nat := 8 * 1024.
Definition MAX_RETAINED_CAPACITY : nat := 64 * 1024.

Record RecvBuffer := { rb_buf : bytes; rb_cap : nat; rb_pos : nat }.

(** ** [Vec<u8>]: growth and shrinking of the capacity, as the standard library does it *)

(** [Vec::reserve]: doubling, and at least eight bytes. *)
Definition vec_reserve (len cap additional : nat) : nat :=
  if cap - len <? additional then Nat.max 8 (Nat.max (2 * cap) (len + additional)) else cap.

(** [Vec::shrink_to]. *)
Definition vec_shrink_to (len cap min_capacity : nat) : nat :=
  if min_capacity <? cap then Nat.max len min_capacity else cap.

(** [Vec::copy_within(pos.., 0)] *)
Definition copy_within_front (pos : nat) (v : bytes) : bytes := drop pos v ++ drop (length v - pos) v.

(** ** Operations *)

Definition rb_new : RecvBuffer := {| rb_buf := []; rb_cap := 0; rb_pos := 0 |}.

Definition unread (self : RecvBuffer) : bytes := drop (rb_pos self) (rb_buf self).

Definition capacity (self : RecvBuffer) : nat := rb_cap self.

(** [None] is the failed [assert!]. *)
Definition consume (n : nat) (self : RecvBuffer) : option RecvBuffer :=
  if rb_pos self + n <=? length (rb_buf self)
  then Some {| rb_buf := rb_buf self; rb_cap := rb_cap self; rb_pos := rb_pos self + n |}
  else None.

Definition take_exact (n : nat) (self : RecvBuffer) : option (bytes * RecvBuffer) :=
  if (rb_pos self =? 0) && (length (rb_buf self) =? n)
  then Some (rb_buf self, {| rb_buf := []; rb_cap := 0; rb_pos := 0 |})
  else None.

(** Moving the unread bytes to the front, as both functions below do it. *)
Definition compact (self : RecvBuffer) : RecvBuffer :=
  if 0 <? rb_pos self then
    let unread_len := length (rb_buf self) - rb_pos self in
    let moved := if 0 <? unread_len then copy_within_front (rb_pos self) (rb_buf self)
                 else rb_buf self in
    {| rb_buf := take unread_len moved; rb_cap := rb_cap self; rb_pos := 0 |}
  else self.

Definition reserve_for_read (self : RecvBuffer) : RecvBuffer :=
  let self := compact self in
  {| rb_buf := rb_buf self; rb_cap := vec_reserve (length (rb_buf self)) (rb_cap self) READ_CHUNK_BYTES;
     rb_pos := rb_pos self |}.

Definition shrink_if_oversized (self : RecvBuffer) : RecvBuffer :=
  if rb_cap self <=? MAX_RETAINED_CAPACITY then self
  else
    let self := compact self in
    {| rb_buf := rb_buf self;
       rb_cap := vec_shrink_to (length (rb_buf self)) (rb_cap self)
                   (Nat.max MAX_RETAINED_CAPACITY (length (rb_buf self)));
       rb_pos := rb_pos self |}.

(** ** The reader

    An [AsyncRead] is the list of what its reads will yield; after the last one it is at the
    end of the file.  A read gives at most as many bytes as there is room for. *)
Inductive ReadItem := RData (d : bytes) | RError.
Definition Reader := list ReadItem.

Definition read_into (spare : nat) (reader : Reader) : result bytes unit * Reader :=
  match reader with
  | [] => (Ok [], [])
  | RError :: reader => (Err tt, reader)
  | RData d :: reader =>
      if length d <=? spare then (Ok d, reader)
      else (Ok (take spare d), RData (drop spare d) :: reader)
  end.

Definition read_chunk (self : RecvBuffer) (reader : Reader) :
    RecvBuffer * Reader * result nat unit :=
  let self := reserve_for_read self in
  match read_into (rb_cap self - length (rb_buf self)) reader with
  | (Ok d, reader) =>
      ({| rb_buf := rb_buf self ++ d; rb_cap := rb_cap self; rb_pos := rb_pos self |}, reader,
       Ok (length d))
  | (Err e, reader) => (self, reader, Err e)
  end.

(** ** The queue *)

Record rb_wf (self : RecvBuffer) : Prop := {
  wf_pos : rb_pos self ≤ length (rb_buf self);
  wf_cap : length (rb_buf self) ≤ rb_cap self;
}.

Lemma rb_new_wf : rb_wf rb_new.
Proof. split; simpl; lia. Qed.

Lemma length_unread self : length (unread self) = length (rb_buf self) - rb_pos self.
Proof. apply length_drop. Qed.

Lemma compact_spec self :
  rb_wf self → rb_buf (compact self) = unread self ∧ rb_pos (compact self) = 0
               ∧ rb_cap (compact self) = rb_cap self.
Proof.
  intros [Hp _]. unfold compact, unread, copy_within_front.
  destruct (0 <? rb_pos self) eqn:E; bool_to_prop; simpl.
  - split_and!; [|done..]. destruct (0 <? _) eqn:E2; bool_to_prop.
    + apply take_app_exact. by rewrite length_drop.
    + assert (length (rb_buf self) - rb_pos self = 0) as -> by lia.
      by rewrite drop_ge by lia.
  - split_and!; [|lia|done]. by replace (rb_pos self) with 0 by lia.
Qed.

Lemma consume_Some n self self' :
  consume n self = Some self' → rb_wf self →
  rb_wf self' ∧ unread self' = drop n (unread self) ∧ rb_cap self' = rb_cap self.
Proof.
  unfold consume, unread. intros H [Hp Hc]. case_first_in H; simplify_eq. bool_to_prop. simpl.
  rewrite drop_drop. split_and!; [by split|done|done].
Qed.

Lemma consume_ok n self :
  rb_wf self → n ≤ length (unread self) → is_Some (consume n self).
Proof.
  intros [Hp _] Hn. rewrite length_unread in Hn. unfold consume.
  rewrite (proj2 (Nat.leb_le _ _)) by lia. by eexists.
Qed.

Lemma take_exact_Some n self d self' :
  take_exact n self = Some (d, self') →
  d = unread self ∧ n = length (unread self) ∧ rb_wf self' ∧ unread self' = [].
Proof.
  unfold take_exact, unread. intros H. case_first_in H; simplify_eq. bool_to_prop.
  rewrite H. simpl. rewrite drop_0. by split_and!; [| |split; simpl; lia|].
Qed.

Lemma reserve_for_read_spec self :
  rb_wf self →
  rb_wf (reserve_for_read self) ∧ rb_buf (reserve_for_read self) = unread self
  ∧ rb_pos (reserve_for_read self) = 0
  ∧ length (unread self) + READ_CHUNK_BYTES ≤ rb_cap (reserve_for_read self)
    ≤ Nat.max (Nat.max 8 (2 * rb_cap self)) (length (unread self) + READ_CHUNK_BYTES).
Proof.
  intros Hw. destruct (compact_spec self Hw) as (H1 & H2 & H3). destruct Hw as [Hp Hc].
  unfold reserve_for_read; simpl. rewrite H1, H2, H3, length_unread. unfold vec_reserve.
  generalize READ_CHUNK_BYTES. intros k.
  destruct (_ <? k) eqn:E; bool_to_prop; split_and!; try done; try lia;
    split; simpl; rewrite ?length_unread; lia.
Qed.

Lemma shrink_spec self :
  rb_wf self →
  rb_wf (shrink_if_oversized self) ∧ unread (shrink_if_oversized self) = unread self
  ∧ rb_cap (shrink_if_oversized self) ≤ Nat.max MAX_RETAINED_CAPACITY (length (unread self))
  ∧ rb_cap (shrink_if_oversized self) ≤ rb_cap self.
Proof.
  intros Hw. destruct (compact_spec self Hw) as (H1 & H2 & H3). destruct Hw as [Hp Hc].
  unfold shrink_if_oversized, vec_shrink_to. generalize MAX_RETAINED_CAPACITY. intros k.
  destruct (rb_cap self <=? k) eqn:E; bool_to_prop; [split_and!; try done; lia|]. simpl.
  rewrite H1, H2, H3.
  destruct (_ <? rb_cap self) eqn:E2; bool_to_prop; split_and!; rewrite ?length_unread in *;
    try (unfold unread at 1; simpl; by rewrite drop_0); try lia;
    split; simpl; rewrite ?length_unread; lia.
Qed.

(** ** The stream of bytes a reader still holds *)

Fixpoint stream (reader : Reader) : bytes :=
  match reader with
  | [] => []
  | RData d :: reader => d ++ stream reader
  | RError :: reader => stream reader
  end.

(** No failing read, and only the end of the file reads as nothing. *)
Definition reader_ok (reader : Reader) : Prop := Forall (λ i, ∃ d, i = RData d ∧ d ≠ []) reader.

(** The number of reads that can still yield something is at most this. *)
Fixpoint reader_size (reader : Reader) : nat :=
  match reader with
  | [] => 0
  | RData d :: reader => S (length d) + reader_size reader
  | RError :: reader => 1 + reader_size reader
  end.

Lemma read_chunk_spec self reader :
  rb_wf self → reader_ok reader →
  ∃ self' reader' d, read_chunk self reader = (self', reader', Ok (length d))
    ∧ rb_wf self' ∧ reader_ok reader' ∧ unread self' = unread self ++ d
    ∧ stream reader = d ++ stream reader'
    ∧ (d = [] → reader = []) ∧ (d ≠ [] → reader_size reader' < reader_size reader).
Proof.
  intros Hw Hr. destruct (reserve_for_read_spec self Hw) as (Hw' & H1 & H2 & H3 & _).
  unfold read_chunk. destruct Hw' as [_ Hc]. set (s := reserve_for_read self) in *. clearbody s.
  rewrite H1. set (spare := rb_cap s - length (unread self)).
  assert (0 < spare) as Hs by (unfold spare, READ_CHUNK_BYTES in *; lia).
  rewrite H1 in Hc.
  assert (∀ d, length d ≤ spare →
    let s' := {| rb_buf := unread self ++ d; rb_cap := rb_cap s; rb_pos := rb_pos s |} in
    rb_wf s' ∧ unread s' = unread self ++ d) as Hs'.
  { intros d Hd. simpl. split; [split; simpl; rewrite length_app; unfold spare in Hd; lia|].
    unfold unread at 1; simpl. by rewrite H2, drop_0. }
  destruct reader as [|[d|] reader]; simpl.
  - destruct (Hs' [] ltac:(simpl; lia)). eexists _, [], []. by split_and!.
  - apply Forall_cons in Hr as [(d' & [= <-] & Hd) Hr'].
    destruct (length d <=? spare) eqn:E; bool_to_prop.
    + destruct (Hs' d E). eexists _, reader, d. split_and!; try done. intros _. lia.
    + destruct (Hs' (take spare d) ltac:(rewrite length_take; lia)).
      assert (drop spare d ≠ []) as Hne.
      { intros Hnil. apply (f_equal length) in Hnil. rewrite length_drop in Hnil. simpl in Hnil. lia. }
      eexists _, _, (take spare d). split_and!; try done.
      * constructor; [by eexists|done].
      * simpl. by rewrite (assoc_L (++)), take_drop.
      * intros Hnil. apply (f_equal length) in Hnil. rewrite length_take in Hnil. simpl in Hnil. lia.
      * intros _. simpl. rewrite length_drop. lia.
  - by apply Forall_cons in Hr as [(? & ? & ?) _].
Qed.

(** the receive buffer is a byte queue.  From any state whose cursor and length are in
    bounds, every operation leaves such a state; [consume] drops a prefix of the unread bytes
    and its assertion holds exactly when there are that many; [take_exact] hands the buffer
    over only when it is all of the unread bytes; [shrink_if_oversized] keeps the unread bytes
    and bounds the retained capacity; a read appends what the reader gave, which always has
    room, and the buffer at most doubles or grows to the unread bytes and one chunk. *)
Theorem recv_buffer_queue self :
  rb_wf self →
  (∀ n, match consume n self with
        | Some self' => n ≤ length (unread self) ∧ rb_wf self' ∧ unread self' = drop n (unread self)
        | None => length (unread self) < n
        end)
  ∧ (∀ n d self', take_exact n self = Some (d, self') →
       d = unread self ∧ n = length d ∧ rb_wf self' ∧ unread self' = [])
  ∧ (let self' := shrink_if_oversized self in
     rb_wf self' ∧ unread self' = unread self
     ∧ capacity self' ≤ Nat.max MAX_RETAINED_CAPACITY (length (unread self)))
  ∧ (∀ reader, reader_ok reader → ∃ d reader',
       let '(self', rest, r) := read_chunk self reader in
       r = Ok (length d) ∧ rest = reader' ∧ stream reader = d ++ stream reader'
       ∧ rb_wf self' ∧ unread self' = unread self ++ d
       ∧ capacity self' ≤ Nat.max (Nat.max 8 (2 * capacity self)) (length (unread self) + READ_CHUNK_BYTES)).
Proof.
  intros Hw. split_and!.
  - intros n. destruct (consume n self) as [self'|] eqn:E.
    + destruct (consume_Some _ _ _ E Hw) as (H1 & H2 & _). split_and!; [|done..].
      unfold consume in E. case_first_in E; [|done]. bool_to_prop. rewrite length_unread. lia.
    + unfold consume in E. case_first_in E; [done|]. bool_to_prop. rewrite length_unread. destruct Hw. lia.
  - intros n d self' (-> & -> & ? & ?)%take_exact_Some. done.
  - destruct (shrink_spec self Hw) as (? & ? & ? & _). done.
  - intros reader Hr. destruct (read_chunk_spec self reader Hw Hr) as (self' & reader' & d & E & ? & ? & ? & ? & _).
    exists d, reader'. rewrite E. split_and!; try done.
    unfold read_chunk in E. destruct (reserve_for_read_spec self Hw) as (_ & _ & _ & _ & Hcap).
    unfold capacity. destruct (read_into _ _) as [[d'|e'] rest]; by simplify_eq/=.
Qed.

Lemma recv_buffer_queue_witness :
  let self := {| rb_buf := lit "GET / HTTP"; rb_cap := 16; rb_pos := 4 |} in
  unread self = lit "/ HTTP" ∧ rb_wf (shrink_if_oversized self)
  ∧ unread (shrink_if_oversized self) = lit "/ HTTP".
Proof.
  intros self. split; [reflexivity|].
  destruct (recv_buffer_queue self) as (_ & _ & (H1 & H2 & _) & _); [split; simpl; lia|].
  split; [exact H1|exact H2].
Defined.
