(* ===== verification/Connection.v ===== *)
(** * [http::connection]: reading requests from a connection

    [read_request_with_limit] pulls bytes through the receive buffer until it has a head and
    its body.  [request_of] is the specification: a function of the bytes of the connection as
    a whole.  However the reader cuts them into pieces, the code computes it and leaves exactly
    the bytes behind the request for the next one. *)

From S2P Require Import Prelude Text Utf8 Radix Extensions Request RequestSpec Chunked ChunkedSpec.
From S2P Require Import Body RecvBuffer.

Section connection.
Context {AT : AnyTypes} {MM : Memmem}.

(** [struct Request]. *)
Record HttpRequest := { head : RequestHead; body : bytes }.

Inductive RequestError :=
| EParse (e : ParseError)
| EBody (e : BodyError)
| EChunked (e : ChunkedError)
| UnexpectedEof
| EIo.

Definition should_keep_alive (head : RequestHead) : bool :=
  let tokens := trim <$> (header_values (lit "connection") head ≫= split x2c) in
  let has_close := existsb (eq_ignore_ascii_case (lit "close")) tokens in
  match version head with
  | Http11 => negb has_close
  | Http10 => negb has_close && existsb (eq_ignore_ascii_case (lit "keep-alive")) tokens
  end.

(** The loops below end when the reader has nothing left; [None] is fuel that ran out or a
    failed assertion of [consume], and [read_request_total] excludes both. *)
Definition outcome (A : Type) : Type := option (result A RequestError * RecvBuffer * Reader).

Fixpoint read_head (fuel : nat) (buf : RecvBuffer) (reader : Reader) :
    outcome (option (RequestHead * nat)) :=
  match fuel with
  | O => None
  | S fuel =>
      match parse_request_head (unread buf) with
      | Err e => Some (Err (EParse e), buf, reader)
      | Ok (Complete head consumed) => Some (Ok (Some (head, consumed)), buf, reader)
      | Ok Incomplete =>
          let started_empty := bool_decide (unread buf = []) in
          match read_chunk buf reader with
          | (buf, reader, Err _) => Some (Err EIo, buf, reader)
          | (buf, reader, Ok n) =>
              if n =? 0 then
                Some (if started_empty then Ok None else Err UnexpectedEof, buf, reader)
              else read_head fuel buf reader
          end
      end
  end.

(** The [while] loop of [read_body]. *)
Fixpoint fill (fuel : nat) (n : N) (buf : RecvBuffer) (reader : Reader) : outcome unit :=
  match fuel with
  | O => None
  | S fuel =>
      if (len (unread buf) <? n)%N then
        match read_chunk buf reader with
        | (buf, reader, Err _) => Some (Err EIo, buf, reader)
        | (buf, reader, Ok read) =>
            if read =? 0 then Some (Err UnexpectedEof, buf, reader)
            else fill fuel n buf reader
        end
      else Some (Ok tt, buf, reader)
  end.

(** A [usize] has 64 bits. *)
Definition read_body (fuel : nat) (n : N) (buf : RecvBuffer) (reader : Reader) : outcome bytes :=
  if (u64_max <? n)%N then Some (Err (EBody BodyErrTooLarge), buf, reader)
  else
    match fill fuel n buf reader with
    | None => None
    | Some (Err e, buf, reader) => Some (Err e, buf, reader)
    | Some (Ok _, buf, reader) =>
        match take_exact (N.to_nat n) buf with
        | Some (body, buf) => Some (Ok body, buf, reader)
        | None =>
            let body := take (N.to_nat n) (unread buf) in
            let! buf := consume (N.to_nat n) buf else None in
            Some (Ok body, buf, reader)
        end
    end.

Fixpoint read_chunked_loop (fuel : nat) (decoder : ChunkedDecoder) (body : bytes)
    (buf : RecvBuffer) (reader : Reader) : outcome bytes :=
  match fuel with
  | O => None
  | S fuel =>
      match decode decoder (unread buf) body with
      | (_, _, Err e) => Some (Err (EChunked e), buf, reader)
      | (_, body, Ok (DecodeComplete consumed)) =>
          let! buf := consume consumed buf else None in
          Some (Ok body, buf, reader)
      | (decoder, body, Ok (DecodeIncomplete consumed)) =>
          let! buf := consume consumed buf else None in
          match read_chunk buf reader with
          | (buf, reader, Err _) => Some (Err EIo, buf, reader)
          | (buf, reader, Ok n) =>
              if n =? 0 then Some (Err UnexpectedEof, buf, reader)
              else read_chunked_loop fuel decoder body buf reader
          end
      end
  end.

Definition read_body_chunked (fuel : nat) (max_body_bytes : N) (buf : RecvBuffer)
    (reader : Reader) : outcome bytes :=
  read_chunked_loop fuel (with_max_body_bytes max_body_bytes) [] buf reader.

Definition read_fuel (reader : Reader) : nat := S (reader_size reader).

Definition read_request_with_limit (max_body_bytes : N) (buf : RecvBuffer) (reader : Reader) :
    outcome (option HttpRequest) :=
  match read_head (read_fuel reader) buf reader with
  | None => None
  | Some (Err e, buf, reader) => Some (Err e, buf, reader)
  | Some (Ok None, buf, reader) => Some (Ok None, buf, reader)
  | Some (Ok (Some (head, consumed)), buf, reader) =>
      let! buf := consume consumed buf else None in
      let body :=
        match body_length_with_limit head max_body_bytes with
        | Err e => Some (Err (EBody e), buf, reader)
        | Ok LenNone => Some (Ok [], buf, reader)
        | Ok (LenFixed n) => read_body (read_fuel reader) n buf reader
        | Ok LenChunked => read_body_chunked (read_fuel reader) max_body_bytes buf reader
        end in
      match body with
      | None => None
      | Some (Err e, buf, reader) => Some (Err e, buf, reader)
      | Some (Ok body, buf, reader) =>
          Some (Ok (Some {| head := head; body := body |}), shrink_if_oversized buf, reader)
      end
  end.

Definition read_request (buf : RecvBuffer) (reader : Reader) : outcome (option HttpRequest) :=
  read_request_with_limit MAX_BODY_BYTES buf reader.

(** ** Specification: the request at the front of a byte string *)

(** The body of length [l] at the front of [input], with the octets it takes. *)
Definition body_of (max : N) (l : BodyLength) (input : bytes) : result (bytes * nat) RequestError :=
  match l with
  | LenNone => Ok ([], 0)
  | LenFixed n =>
      if (n <=? len input)%N then Ok (take (N.to_nat n) input, N.to_nat n) else Err UnexpectedEof
  | LenChunked =>
      match decode (with_max_body_bytes max) input [] with
      | (_, body, Ok (DecodeComplete n)) => Ok (body, n)
      | (_, _, Ok (DecodeIncomplete _)) => Err UnexpectedEof
      | (_, _, Err e) => Err (EChunked e)
      end
  end.

(** The request at the front of [input], with the octets it takes; [None] at a clean end. *)
Definition request_of (max : N) (input : bytes) : result (option (HttpRequest * nat)) RequestError :=
  match parse_request_head input with
  | Err e => Err (EParse e)
  | Ok Incomplete => if bool_decide (input = []) then Ok None else Err UnexpectedEof
  | Ok (Complete head c) =>
      let? l := map_err EBody (body_length_with_limit head max) in
      let? (body, m) := body_of max l (drop c input) in
      Ok (Some ({| head := head; body := body |}, c + m))
  end.

(** The bytes of the connection that are still to come. *)
Definition pending (buf : RecvBuffer) (reader : Reader) : bytes := unread buf ++ stream reader.

(** What reading leaves behind: a sound buffer, a sound reader, no more to read than before. *)
Definition conn_ok (buf : RecvBuffer) (reader : Reader) : Prop := rb_wf buf ∧ reader_ok reader.

(** ** The loops compute the specification *)

Lemma read_chunk_pending buf reader :
  conn_ok buf reader →
  ∃ buf' reader' d, read_chunk buf reader = (buf', reader', Ok (length d))
    ∧ conn_ok buf' reader' ∧ pending buf' reader' = pending buf reader
    ∧ unread buf' = unread buf ++ d
    ∧ (d = [] → pending buf reader = unread buf)
    ∧ (d ≠ [] → reader_size reader' < reader_size reader)
    ∧ reader_size reader' ≤ reader_size reader.
Proof.
  intros [Hb Hr]. destruct (read_chunk_spec buf reader Hb Hr)
    as (buf' & reader' & d & E & H1 & H2 & H3 & H4 & H5 & H6).
  exists buf', reader', d. unfold pending. rewrite H3, H4, <- !(assoc_L (++)). split_and!; try done.
  - intros Hd. specialize (H5 Hd). subst. simpl in *. rewrite <- H4.
    by rewrite app_nil_r.
  - destruct d as [|c d]; [|by apply Nat.lt_le_incl, H6].
    specialize (H5 eq_refl). subst. unfold read_chunk in E. simpl in E.
    injection E as _ <-. done.
Qed.

Lemma len_zero_nil {A} (d : list A) : (length d =? 0) = bool_decide (d = []).
Proof. destruct d; [done|]. by rewrite bool_decide_false. Qed.

Lemma parse_pending buf reader r :
  parse_request_head (unread buf) = r → r ≠ Ok Incomplete →
  parse_request_head (pending buf reader) = r.
Proof. apply parse_head_stable. Qed.

Lemma read_head_spec fuel buf reader :
  conn_ok buf reader → reader_size reader < fuel →
  ∃ r buf' reader', read_head fuel buf reader = Some (r, buf', reader')
    ∧ conn_ok buf' reader' ∧ pending buf' reader' = pending buf reader
    ∧ match parse_request_head (pending buf reader) with
      | Err e => r = Err (EParse e)
      | Ok Incomplete =>
          r = if bool_decide (pending buf reader = []) then Ok None else Err UnexpectedEof
      | Ok (Complete h c) => r = Ok (Some (h, c)) ∧ c ≤ length (unread buf')
      end.
Proof.
  revert buf reader. induction fuel as [|fuel IH]; intros buf reader Hok Hf; [lia|]. simpl.
  destruct (parse_request_head (unread buf)) as [[h c|]|e] eqn:Ep.
  - eexists _, buf, reader. split_and!; [done..|].
    rewrite (parse_pending _ _ _ Ep) by done. split; [done|].
    apply parse_head_sound in Ep as (a & rest & _ & Eu & _ & -> & _). rewrite Eu.
    unfold head_size. rewrite !length_app. lia.
  - destruct (read_chunk_pending buf reader Hok) as (buf' & reader' & d & -> & Hok' & Hp & Hu & Hn & Hs & _).
    rewrite len_zero_nil. destruct (bool_decide (d = [])) eqn:Ed; bool_to_prop.
    + eexists _, buf', reader'. split_and!; [done..|]. specialize (Hn Ed). by rewrite Hn, Ep.
    + destruct (IH buf' reader' Hok') as (r & b2 & r2 & E & Hok2 & Hp2 & Hr); [specialize (Hs Ed); lia|].
      exists r, b2, r2. rewrite Hp in *. by split_and!.
  - eexists _, buf, reader. split_and!; [done..|]. by rewrite (parse_pending _ _ _ Ep).
Qed.

(** The shape of the three body readers' specifications. *)
Definition reads_body (out : outcome bytes) (buf : RecvBuffer) (reader : Reader)
    (spec : result (bytes * nat) RequestError) : Prop :=
  ∃ r buf' reader', out = Some (r, buf', reader') ∧ conn_ok buf' reader'
    ∧ match spec with
      | Err e => r = Err e
      | Ok (b, m) => r = Ok b ∧ pending buf' reader' = drop m (pending buf reader)
                     ∧ m ≤ length (pending buf reader)
      end.

Lemma fill_spec fuel n buf reader :
  conn_ok buf reader → reader_size reader < fuel →
  ∃ r buf' reader', fill fuel n buf reader = Some (r, buf', reader')
    ∧ conn_ok buf' reader' ∧ pending buf' reader' = pending buf reader
    ∧ r = (if (n <=? len (pending buf reader))%N then Ok tt else Err UnexpectedEof)
    ∧ (r = Ok tt → (n ≤ len (unread buf'))%N).
Proof.
  revert buf reader. induction fuel as [|fuel IH]; intros buf reader Hok Hf; [lia|]. simpl.
  destruct (len (unread buf) <? n)%N eqn:El; bool_to_prop.
  - destruct (read_chunk_pending buf reader Hok) as (buf' & reader' & d & -> & Hok' & Hp & Hu & Hn & Hs & _).
    rewrite len_zero_nil. destruct (bool_decide (d = [])) eqn:Ed; bool_to_prop.
    + eexists _, buf', reader'. specialize (Hn Ed). rewrite Hn in *.
      rewrite (proj2 (N.leb_gt _ _)) by done. by split_and!.
    + destruct (IH buf' reader' Hok') as (r & b2 & r2 & E & Hok2 & Hp2 & Hr); [specialize (Hs Ed); lia|].
      exists r, b2, r2. rewrite Hp in *. done.
  - eexists _, buf, reader. rewrite (proj2 (N.leb_le _ _)) by (unfold pending; rewrite len_app; lia).
    by split_and!.
Qed.

Lemma consume_pending n buf reader :
  conn_ok buf reader → n ≤ length (unread buf) →
  ∃ buf', consume n buf = Some buf' ∧ conn_ok buf' reader
    ∧ pending buf' reader = drop n (pending buf reader)
    ∧ unread buf' = drop n (unread buf).
Proof.
  intros [Hb Hr] Hn. destruct (consume_ok n buf Hb Hn) as [buf' E]. exists buf'.
  destruct (consume_Some _ _ _ E Hb) as (H1 & H2 & _). unfold pending. rewrite H2.
  by rewrite drop_app_le.
Qed.

Lemma read_body_spec fuel max n buf reader :
  conn_ok buf reader → reader_size reader < fuel → (n ≤ u64_max)%N →
  reads_body (read_body fuel n buf reader) buf reader (body_of max (LenFixed n) (pending buf reader)).
Proof.
  intros Hok Hf Hn. unfold reads_body, read_body, body_of. rewrite (proj2 (N.ltb_ge _ _)) by done.
  destruct (fill_spec fuel n buf reader Hok Hf) as (r & buf' & reader' & -> & Hok' & Hp & -> & Hl).
  destruct (n <=? _)%N eqn:E; [|by eexists _, buf', reader']. bool_to_prop. specialize (Hl eq_refl).
  rewrite <- Hp in *. clear Hp E buf Hok reader Hf.
  assert (N.to_nat n ≤ length (unread buf')) as Hle by (unfold len in Hl; lia).
  assert (take (N.to_nat n) (pending buf' reader') = take (N.to_nat n) (unread buf')) as ->.
  { unfold pending. by rewrite take_app_le. }
  assert (N.to_nat n ≤ length (pending buf' reader')) as Hle2.
  { unfold pending. rewrite length_app. lia. }
  destruct (take_exact _ _) as [[b buf2]|] eqn:Et.
  - apply take_exact_Some in Et as (-> & El & Hw & Hu). eexists _, buf2, reader'.
    split_and!; [done|by split; [|apply Hok']|by rewrite take_ge by lia| |done].
    unfold pending. rewrite Hu, drop_app_exact by done. done.
  - destruct (consume_pending (N.to_nat n) buf' reader' Hok' Hle) as (buf2 & -> & Hok2 & Hp2 & _).
    by eexists _, buf2, reader'.
Qed.

Lemma read_chunked_loop_spec fuel d acc buf reader :
  conn_ok buf reader → reader_size reader < fuel → decoder_wf d →
  reads_body (read_chunked_loop fuel d acc buf reader) buf reader
    match decode d (pending buf reader) acc with
    | (_, body, Ok (DecodeComplete n)) => Ok (body, n)
    | (_, _, Ok (DecodeIncomplete _)) => Err UnexpectedEof
    | (_, _, Err e) => Err (EChunked e)
    end.
Proof.
  unfold reads_body. revert d acc buf reader.
  induction fuel as [|fuel IH]; intros d acc buf reader Hok Hf Hd; [lia|].
  cbn [read_chunked_loop]. unfold pending at 1.
  rewrite !decode_run by (by apply decoder_wf_data_pos). rewrite run_app.
  destruct (run d (unread buf) acc 0) as [[d' acc'] [[n|n]|e]] eqn:E.
  - assert (n ≤ length (unread buf)) as Hn by (apply run_complete_le in E; lia).
    destruct (consume_pending n buf reader Hok Hn) as (buf2 & -> & Hok2 & Hp2 & _).
    eexists _, buf2, reader. split_and!; [done..|].
    unfold pending. rewrite length_app. lia.
  - pose proof (run_incomplete _ _ _ _ _ _ _ E) as ->. simpl in *.
    pose proof (run_incomplete_nil _ _ _ _ _ _ _ E) as Hnil.
    destruct (consume_pending (length (unread buf)) buf reader Hok) as (buf2 & -> & Hok2 & Hp2 & Hu2); [done|].
    rewrite drop_ge in Hu2 by done.
    apply run_wf in E as (_ & _ & _ & Hd'); [|done]. specialize (Hd' eq_refl).
    destruct (read_chunk_pending buf2 reader Hok2) as (buf3 & reader3 & dd & -> & Hok3 & Hp3 & Hu3 & Hn3 & Hs3 & _).
    rewrite len_zero_nil. destruct (bool_decide (dd = [])) eqn:Ed; bool_to_prop.
    + eexists _, buf3, reader3. specialize (Hn3 Ed). unfold pending in Hn3. rewrite Hu2 in Hn3.
      simpl in Hn3. rewrite Hn3, Hnil. by split_and!.
    + destruct (IH d' acc' buf3 reader3 Hok3) as (r & b4 & r4 & E4 & Hok4 & Hr4);
        [specialize (Hs3 Ed); lia|done|].
      exists r, b4, r4. split_and!; [done..|]. revert Hr4.
      assert (pending buf3 reader3 = stream reader) as Hps by (rewrite Hp3; unfold pending; by rewrite Hu2).
      rewrite Hps, decode_run by (by apply decoder_wf_data_pos).
      pose proof (run_shift d' (stream reader) acc' 0 (length (unread buf))) as Es.
      rewrite Nat.add_0_r in Es. rewrite Es.
      destruct (run d' (stream reader) acc' 0) as [[d5 b5] [[n5|n5]|e5]]; simpl; [|done..].
      intros (-> & -> & Hle). split_and!; [done| |].
      * unfold pending. by rewrite <- drop_drop, drop_app_length.
      * unfold pending. rewrite length_app. lia.
  - by eexists _, buf, reader.
Qed.

Lemma body_length_fixed_bound h max n :
  body_length_with_limit h max = Ok (LenFixed n) → (n ≤ u64_max)%N.
Proof. intros H. by apply body_length_bounded in H as [_ H]. Qed.

Lemma reads_body_spec max l buf reader :
  conn_ok buf reader → (∀ n, l = LenFixed n → (n ≤ u64_max)%N) →
  reads_body
    match l with
    | LenNone => Some (Ok [], buf, reader)
    | LenFixed n => read_body (read_fuel reader) n buf reader
    | LenChunked => read_body_chunked (read_fuel reader) max buf reader
    end buf reader (body_of max l (pending buf reader)).
Proof.
  intros Hok Hl. destruct l as [|n|].
  - eexists _, buf, reader. split_and!; [done..|]. simpl. rewrite drop_0. split_and!; [done..|lia].
  - apply read_body_spec; [done|unfold read_fuel; lia|by apply Hl].
  - apply read_chunked_loop_spec; [done|unfold read_fuel; lia|apply new_decoder_wf].
Qed.

(** ** A request is delimited by its own bytes *)

Lemma body_of_prefix max l input b m other :
  body_of max l input = Ok (b, m) →
  body_of max l (take m input ++ other) = Ok (b, m) ∧ m ≤ length input.
Proof.
  destruct l as [|n|]; simpl.
  - intros [= <- <-]. split; [done|lia].
  - destruct (n <=? len input)%N eqn:E; [|done]. intros [= <- <-]. bool_to_prop.
    assert (N.to_nat n ≤ length input) by (unfold len in E; lia).
    rewrite (proj2 (N.leb_le _ _)).
    + by rewrite take_app_exact by (rewrite length_take; lia).
    + rewrite len_app. unfold len. rewrite length_take. lia.
  - rewrite !decode_run by apply decoder_wf_data_pos, new_decoder_wf.
    destruct (run _ input [] 0) as [[d' b'] [[n|n]|e]] eqn:E; [|done..]. intros [= <- <-].
    pose proof (run_complete_le _ _ _ _ _ _ _ E) as [_ Hn]. split; [|done].
    apply run_complete_prefix with (other := other) in E. rewrite Nat.sub_0_r in E. by rewrite E.
Qed.

Lemma request_of_inv max input req n :
  request_of max input = Ok (Some (req, n)) →
  ∃ c l m, parse_request_head input = Ok (Complete (head req) c)
    ∧ body_length_with_limit (head req) max = Ok l
    ∧ body_of max l (drop c input) = Ok (body req, m) ∧ n = c + m.
Proof.
  unfold request_of. destruct (parse_request_head input) as [[h c|]|e]; [|by case_bool_decide|done].
  intros (l & Hl%map_err_Ok & H)%rbind_Ok. apply rbind_Ok in H as ([b m] & Hb & H).
  injection H as <- <-. by exists c, l, m.
Qed.

Lemma parse_head_prefix input h c other :
  parse_request_head input = Ok (Complete h c) →
  parse_request_head (take c input ++ other) = Ok (Complete h c) ∧ c ≤ length input.
Proof.
  intros (a & rest & Ha & -> & -> & -> & Hs)%parse_head_sound. unfold head_size.
  rewrite (assoc_L (++)), take_app_exact by (by rewrite length_app).
  split; [|rewrite !length_app; lia].
  rewrite <- (assoc_L (++)). by apply parse_head_complete.
Qed.

Lemma read_request_spec max buf reader :
  conn_ok buf reader →
  ∃ r buf' reader', read_request_with_limit max buf reader = Some (r, buf', reader')
    ∧ match request_of max (pending buf reader) with
      | Err e => r = Err e
      | Ok None => r = Ok None
      | Ok (Some (req, n)) =>
          r = Ok (Some req) ∧ conn_ok buf' reader'
          ∧ pending buf' reader' = drop n (pending buf reader) ∧ n ≤ length (pending buf reader)
          ∧ capacity buf' ≤ Nat.max MAX_RETAINED_CAPACITY (length (unread buf'))
      end.
Proof.
  intros Hok. unfold read_request_with_limit, request_of.
  destruct (read_head_spec (read_fuel reader) buf reader Hok) as (r & b1 & r1 & -> & Hok1 & Hp1 & Hr);
    [unfold read_fuel; lia|].
  destruct (parse_request_head (pending buf reader)) as [[h c|]|e].
  2, 3: subst r; try case_bool_decide; by eexists _, _, _.
  destruct Hr as [-> Hc].
  destruct (consume_pending c b1 r1 Hok1 Hc) as (b2 & -> & Hok2 & Hp2 & _). rewrite Hp1 in Hp2.
  assert (c ≤ length (pending buf reader)) as Hcl.
  { rewrite <- Hp1. unfold pending. rewrite length_app. lia. }
  pose proof (body_length_fixed_bound h max) as Hfix.
  destruct (body_length_with_limit h max) as [l|e]; cbn [map_err rbind]; [|by eexists _, _, _].
  rewrite <- Hp2.
  destruct (reads_body_spec max l b2 r1 Hok2) as (rb & b3 & r3 & Eb & Hok3 & Hb);
    [intros n ->; by apply Hfix|].
  replace (match l with
    | LenNone => Some (Ok [], b2, r1)
    | LenFixed n => read_body (read_fuel r1) n b2 r1
    | LenChunked => read_body_chunked (read_fuel r1) max b2 r1 end) with (Some (rb, b3, r3)) by done.
  destruct (body_of max l (pending b2 r1)) as [[b m]|e]; cbn [rbind]; [|subst rb; by eexists _, _, _].
  destruct Hb as (-> & Hp3 & Hm). destruct Hok3 as [Hb3 Hr3].
  destruct (shrink_spec b3 Hb3) as (Hs1 & Hs2 & Hs3 & _).
  eexists _, _, r3. split; [done|]. unfold pending at 1, capacity. rewrite Hs2.
  split_and!; [done|done| |rewrite Hp2, length_drop in Hm; lia|done].
  change (unread b3 ++ stream r3) with (pending b3 r3). by rewrite Hp3, Hp2, drop_drop.
Qed.

(** C4: reading a request computes [request_of] of the bytes of the connection, however they
    arrive.  For any sound buffer and any error-free reader, however it cuts the stream into
    pieces, the code terminates (no assertion fails, no loop runs on), returns the request, the
    clean end or the error that [request_of] gives for the buffered bytes followed by the
    stream, and after a request leaves exactly the bytes behind it pending, with the retained
    capacity bounded. *)
Theorem read_request_refines max buf reader :
  conn_ok buf reader →
  ∃ r buf' reader', read_request_with_limit max buf reader = Some (r, buf', reader')
    ∧ match request_of max (pending buf reader) with
      | Err e => r = Err e
      | Ok None => r = Ok None
      | Ok (Some (req, n)) =>
          r = Ok (Some req) ∧ conn_ok buf' reader'
          ∧ pending buf' reader' = drop n (pending buf reader) ∧ n ≤ length (pending buf reader)
          ∧ capacity buf' ≤ Nat.max MAX_RETAINED_CAPACITY (length (unread buf'))
      end.
Proof. apply read_request_spec. Qed.

(** a request is delimited by its own bytes: whether the [n] bytes at the front are a
    request, and which one, does not depend on what follows them.  So the bytes a client
    appends (a pipelined request, or smuggled ones) are never read as part of the request
    before them, and never change it. *)
Theorem request_self_delimiting max input req n other :
  request_of max input = Ok (Some (req, n)) →
  n ≤ length input ∧ request_of max (take n input ++ other) = Ok (Some (req, n)).
Proof.
  intros (c & l & m & Hp & Hl & Hb & ->)%request_of_inv.
  destruct (body_of_prefix _ _ _ _ _ other Hb) as [Hb2 Hm]. rewrite length_drop in Hm.
  destruct (parse_head_prefix _ _ _ (take m (drop c input) ++ other) Hp) as [Hp2 Hc].
  split; [lia|]. unfold request_of.
  assert (take (c + m) input ++ other = take c input ++ take m (drop c input) ++ other) as ->.
  { by rewrite (assoc_L (++)), take_take_drop. }
  rewrite Hp2, Hl. cbn [map_err rbind].
  rewrite drop_app_exact by (rewrite length_take; lia).
  rewrite Hb2. cbn [rbind]. by destruct req.
Qed.

End connection.

(** ** A connection with two pipelined requests, cut at arbitrary places *)

Definition demo_connection : bytes :=
  head_text demo_ast ++ TERMINATOR ++ lit "a=bGET / HTTP/1.1".

Definition demo_reader : Reader :=
  [RData (take 3 demo_connection); RData (take 60 (drop 3 demo_connection));
   RData (drop 63 demo_connection)].

Lemma demo_request_of :
  @request_of demo_types naive_memmem 1024 demo_connection
  = Ok (Some ({| head := @head_of demo_types demo_ast; body := lit "a=b" |}, 74)).
Proof. vm_compute. reflexivity. Qed.

Lemma demo_conn_ok : conn_ok rb_new demo_reader.
Proof.
  split; [apply rb_new_wf|].
  repeat (apply Forall_cons; split; [eexists; split; [reflexivity|by vm_compute]|]). constructor.
Qed.

Lemma read_request_refines_witness :
  ∃ buf' reader',
    @read_request_with_limit demo_types naive_memmem 1024 rb_new demo_reader
    = Some (Ok (Some {| head := @head_of demo_types demo_ast; body := lit "a=b" |}), buf', reader')
    ∧ pending buf' reader' = lit "GET / HTTP/1.1".
Proof.
  destruct (@read_request_refines demo_types naive_memmem 1024 rb_new demo_reader demo_conn_ok)
    as (r & buf' & reader' & E & H).
  exists buf', reader'. rewrite E.
  assert (pending rb_new demo_reader = demo_connection) as Hp by (vm_compute; reflexivity).
  rewrite Hp, demo_request_of in H. destruct H as (-> & _ & Hl & _).
  split; [reflexivity|]. rewrite Hl. vm_compute. reflexivity.
Defined.

Lemma request_self_delimiting_witness :
  @request_of demo_types naive_memmem 1024 (take 74 demo_connection ++ lit "PUT")
  = Ok (Some ({| head := @head_of demo_types demo_ast; body := lit "a=b" |}, 74)).
Proof.
  exact (proj2 (@request_self_delimiting demo_types naive_memmem 1024 demo_connection _ 74
    (lit "PUT") demo_request_of)).
Defined.
