(* ===== verification/Percent.v ===== *)
(** * [http::percent]: percent-decoding

    [decode_bytes] undoes percent-encoding without touching anything else; [percent_coded] is
    the grammar of its inputs with their meaning, and [decode_str] adds the UTF-8 check. *)

From S2P Require Import Prelude Text Utf8.

Inductive PercentDecodeError :=
| TruncatedEscape (at_ : nat)
| InvalidHexDigit (at_ : nat)
| InvalidUtf8.
#[export] Instance PercentDecodeError_eq_dec : EqDecision PercentDecodeError.
Proof. solve_decision. Defined.

Definition hex_value (b : byte) : option N :=
  if in_range 48 57 b then Some (bv b - 48)%N
  else if in_range 65 70 b then Some (bv b - 65 + 10)%N
  else if in_range 97 102 b then Some (bv b - 97 + 10)%N
  else None.

(** The loop at index [i], on the rest [input[i..]]. *)
Fixpoint decode_from (i : nat) (rest : bytes) : result bytes PercentDecodeError :=
  match rest with
  | [] => Ok []
  | b :: rest =>
      if beqb b x25 then
        match rest with
        | hi :: lo :: rest =>
            let? hi_v := ok_or (hex_value hi) (InvalidHexDigit (i + 1)) in
            let? lo_v := ok_or (hex_value lo) (InvalidHexDigit (i + 2)) in
            let? out := decode_from (i + 3) rest in
            Ok (byte_of (N.lor (N.shiftl hi_v 4) lo_v) :: out)
        | _ => Err (TruncatedEscape i)
        end
      else
        let? out := decode_from (i + 1) rest in
        Ok (b :: out)
  end.

Definition decode_bytes (input : bytes) : result bytes PercentDecodeError := decode_from 0 input.

Definition decode_str (input : bytes) : result bytes PercentDecodeError :=
  let? bytes := decode_bytes input in
  map_err (λ _, InvalidUtf8) (from_utf8 bytes).

(** ** Specification *)

(** [percent_coded input out]: a sequence of ordinary bytes and of escapes with two hex digits,
    and what it stands for. *)
Inductive percent_coded : bytes → bytes → Prop :=
| coded_nil : percent_coded [] []
| coded_byte b input out : b ≠ x25 → percent_coded input out → percent_coded (b :: input) (b :: out)
| coded_escape hi lo h l input out :
    hex_value hi = Some h → hex_value lo = Some l → percent_coded input out →
    percent_coded (x25 :: hi :: lo :: input) (byte_of (16 * h + l) :: out).

Lemma hex_value_lt b v : hex_value b = Some v → (v < 16)%N.
Proof.
  unfold hex_value, in_range. repeat case_match; intros; simplify_eq; bool_to_prop; lia.
Qed.

Lemma nibbles_value h l : (h < 16)%N → (l < 16)%N → N.lor (N.shiftl h 4) l = (16 * h + l)%N.
Proof.
  pose (nibs := N.of_nat <$> seq 0 16).
  assert (∀ n, (n < 16)%N → In n nibs) as Hin.
  { intros n Hn. apply list_elem_of_In, list_elem_of_fmap. exists (N.to_nat n).
    split; [lia|apply elem_of_seq; lia]. }
  assert (forallb (λ h, forallb (λ l, N.lor (N.shiftl h 4) l =? 16 * h + l)%N nibs) nibs = true)
    as H by by vm_compute.
  intros Hh Hl. rewrite forallb_forall in H. specialize (H h (Hin h Hh)).
  rewrite forallb_forall in H. specialize (H l (Hin l Hl)). by apply N.eqb_eq in H.
Qed.

Lemma decode_from_sound n i rest out :
  length rest ≤ n → decode_from i rest = Ok out → percent_coded rest out.
Proof.
  revert i rest out. induction n as [|n IH]; intros i rest out Hn H.
  { destruct rest; [|simpl in Hn; lia]. simpl in H. simplify_eq. constructor. }
  destruct rest as [|b rest]; simpl in H; [simplify_eq; constructor|]. simpl in Hn.
  destruct (beqb b x25) eqn:Hb.
  - apply beqb_eq in Hb as ->. destruct rest as [|hi [|lo rest]]; try done. simpl in Hn.
    apply rbind_Ok in H as (h & Hh%ok_or_Ok & H). apply rbind_Ok in H as (l & Hl%ok_or_Ok & H).
    apply rbind_Ok in H as (o & Ho & [= <-]).
    rewrite nibbles_value by (by eapply hex_value_lt).
    constructor; [done..|]. eapply IH; [|done]. lia.
  - apply beqb_neq in Hb. apply rbind_Ok in H as (o & Ho & [= <-]).
    constructor; [done|]. eapply IH; [|done]. lia.
Qed.

Lemma decode_from_complete rest out : percent_coded rest out → ∀ i, decode_from i rest = Ok out.
Proof.
  induction 1 as [|b input out Hb _ IH|hi lo h l input out Hh Hl _ IH]; intros i; [done|..].
  - cbn [decode_from]. rewrite (proj2 (beqb_neq _ _) Hb), IH. done.
  - cbn [decode_from]. rewrite beqb_refl, Hh, Hl. cbn [ok_or rbind]. rewrite IH. cbn [rbind].
    by rewrite nibbles_value by (by eapply hex_value_lt).
Qed.

Lemma decode_bytes_Ok input out : decode_bytes input = Ok out ↔ percent_coded input out.
Proof.
  split; [by apply (decode_from_sound (length input))|intros H; by apply decode_from_complete].
Qed.

Lemma decode_str_Ok input out :
  decode_str input = Ok out ↔ percent_coded input out ∧ utf8_valid out = true.
Proof.
  unfold decode_str, from_utf8. rewrite rbind_Ok. setoid_rewrite decode_bytes_Ok. split.
  - intros (o & H & Ho%map_err_Ok). destruct (utf8_valid o) eqn:E; by simplify_eq.
  - intros [H Hu]. exists out. by rewrite Hu.
Qed.

Lemma percent_coded_app a x b y :
  percent_coded a x → percent_coded b y → percent_coded (a ++ b) (x ++ y).
Proof. induction 1; simpl; [done|intros; constructor; auto..]. Qed.

(** Decoding never grows the text, and errors point into it. *)
Lemma decode_from_error i rest e :
  decode_from i rest = Err e →
  match e with
  | TruncatedEscape at_ => i ≤ at_ < i + length rest
  | InvalidHexDigit at_ => i < at_ < i + length rest
  | InvalidUtf8 => False
  end.
Proof.
  remember (length rest) as n eqn:Hn. revert i rest Hn.
  induction n as [n IH] using lt_wf_ind. intros i rest -> H.
  destruct rest as [|b rest]; simpl in *; [done|].
  destruct (beqb b x25).
  - destruct rest as [|hi [|lo rest]]; simplify_eq/=; try lia.
    destruct (hex_value hi); simplify_eq/=; [|lia].
    destruct (hex_value lo); simplify_eq/=; [|lia].
    destruct (decode_from (i + 3) rest) as [o|e'] eqn:E; simplify_eq/=.
    apply (IH (length rest)) in E; [|lia|done]. destruct e; lia.
  - destruct (decode_from (i + 1) rest) as [o|e'] eqn:E; simplify_eq/=.
    apply (IH (length rest)) in E; [|lia|done]. destruct e; lia.
Qed.

Lemma percent_coded_length input out : percent_coded input out → length out ≤ length input.
Proof. induction 1; simpl; lia. Qed.

(** [decode_str] accepts exactly the percent-encoded texts whose meaning is UTF-8 and
    returns that meaning, which is never longer than the text; an error about an escape names
    a position inside the text. *)
Theorem percent_decode_spec input :
  (∀ out, decode_str input = Ok out ↔ percent_coded input out ∧ utf8_valid out = true)
  ∧ (∀ out, decode_str input = Ok out → length out ≤ length input)
  ∧ (∀ at_, decode_str input = Err (TruncatedEscape at_) ∨ decode_str input = Err (InvalidHexDigit at_)
            → at_ < length input).
Proof.
  split_and!.
  - intros out. apply decode_str_Ok.
  - intros out [H _]%decode_str_Ok. by apply percent_coded_length.
  - intros a. unfold decode_str, decode_bytes.
    destruct (decode_from 0 input) as [o|e] eqn:E; simpl.
    + unfold from_utf8. destruct (utf8_valid o); intros [|]; done.
    + apply decode_from_error in E. intros [[= ->]|[= ->]]; lia.
Qed.
