(* ===== verification/Form.v ===== *)
(** * [http::query] and [http::form]: key/value pairs

    The query iterator yields the non-empty segments between the [&]s, split at their first
    [=]; the form parser decodes both halves.  [form_encode] is the standard serialisation of
    pairs, which the parser inverts. *)

From S2P Require Import Prelude Text Utf8 Percent.

Definition MAX_QUERY_BYTES : N := 8 * 1024.
Definition MAX_QUERY_PAIRS : N := 256.
Definition MAX_FORM_BYTES : N := 8 * 1024.
Definition MAX_FORM_PAIRS : N := 256.

(** ** [http::query] *)

Inductive QueryError := QueryTooLong | QueryTooManyPairs.
#[export] Instance QueryError_eq_dec : EqDecision QueryError.
Proof. solve_decision. Defined.

Record QueryPairs := { remainder : bytes }.

(** [Iterator::next]: the loop skips empty segments; it ends because the rest shrinks. *)
Fixpoint QueryPairs_loop (fuel : nat) (self : QueryPairs) : option ((bytes * bytes) * QueryPairs) :=
  match fuel with
  | O => None
  | S fuel =>
      if bool_decide (remainder self = []) then None
      else
        let '(segment, rest) := match split_once x26 (remainder self) with
                                | Some (seg, rest) => (seg, rest)
                                | None => (remainder self, [])
                                end in
        let self := {| remainder := rest |} in
        if bool_decide (segment = []) then QueryPairs_loop fuel self
        else Some (match split_once x3d segment with
                   | Some (key, value) => (key, value)
                   | None => (segment, [])
                   end, self)
  end.

Definition QueryPairs_next (self : QueryPairs) : option ((bytes * bytes) * QueryPairs) :=
  QueryPairs_loop (S (length (remainder self))) self.

(** Draining the iterator. *)
Definition query_pairs (self : QueryPairs) : list (bytes * bytes) :=
  iter_collect QueryPairs_next (S (length (remainder self))) self.

Definition parse_query_with_limits (query : bytes) (max_bytes max_pairs : N) :
    result QueryPairs QueryError :=
  if (max_bytes <? len query)%N then Err QueryTooLong
  else
    let pair_count := len (List.filter (λ seg, negb (bool_decide (seg = []))) (split x26 query)) in
    if (max_pairs <? pair_count)%N then Err QueryTooManyPairs
    else Ok {| remainder := query |}.

Definition parse_query (query : bytes) : result QueryPairs QueryError :=
  parse_query_with_limits query MAX_QUERY_BYTES MAX_QUERY_PAIRS.

(** ** [http::form] *)

Record FormLimits := { max_bytes : N; max_pairs : N }.

Definition FormLimits_DEFAULT : FormLimits :=
  {| max_bytes := MAX_FORM_BYTES; max_pairs := MAX_FORM_PAIRS |}.

Definition with_max_bytes (n : N) (self : FormLimits) : FormLimits :=
  {| max_bytes := n; max_pairs := max_pairs self |}.
Definition with_max_pairs (n : N) (self : FormLimits) : FormLimits :=
  {| max_bytes := max_bytes self; max_pairs := n |}.

Inductive FormError :=
| BodyTooLong
| FormTooManyPairs
| InvalidUtf8Body
| Decode (e : PercentDecodeError).
#[export] Instance FormError_eq_dec : EqDecision FormError.
Proof. solve_decision. Defined.

(** [impl From<QueryError> for FormError]. *)
Definition form_of_query_error (e : QueryError) : FormError :=
  match e with
  | QueryTooLong => BodyTooLong
  | QueryTooManyPairs => FormTooManyPairs
  end.

Definition plus_to_space (b : byte) : byte := if beqb b x2b then x20 else b.

Definition decode_form_component (component : bytes) : result bytes PercentDecodeError :=
  decode_str (plus_to_space <$> component).

Definition decode_pair (p : bytes * bytes) : result (bytes * bytes) FormError :=
  let? decoded_key := map_err Decode (decode_form_component p.1) in
  let? decoded_value := map_err Decode (decode_form_component p.2) in
  Ok (decoded_key, decoded_value).

Definition parse_form_with_limit (body : bytes) (limits : FormLimits) :
    result (list (bytes * bytes)) FormError :=
  if (max_bytes limits <? len body)%N then Err BodyTooLong
  else
    let? body_str := map_err (λ _, InvalidUtf8Body) (from_utf8 body) in
    let? pairs := map_err form_of_query_error
                    (parse_query_with_limits body_str (max_bytes limits) (max_pairs limits)) in
    rmapM decode_pair (query_pairs pairs).

Definition parse_form (body : bytes) : result (list (bytes * bytes)) FormError :=
  parse_form_with_limit body FormLimits_DEFAULT.

(** [content_type.split(';').next().unwrap_or("")] is the first segment of a [split], which is
    never empty. *)
Definition is_form_content_type (content_type : bytes) : bool :=
  let media_type := trim (default [] (head (split x3b content_type))) in
  eq_ignore_ascii_case media_type (lit "application/x-www-form-urlencoded").

(** ** Specification of the iterator *)

Definition nonempty_seg (seg : bytes) : bool := negb (bool_decide (seg = [])).

Definition pair_of (seg : bytes) : bytes * bytes :=
  match split_once x3d seg with
  | Some (key, value) => (key, value)
  | None => (seg, [])
  end.

Definition pairs_spec (query : bytes) : list (bytes * bytes) :=
  pair_of <$> List.filter nonempty_seg (split x26 query).

(** One step of the split, as the iterator takes it. *)
Lemma split_step q :
  q ≠ [] →
  let '(seg, rest) := match split_once x26 q with
                      | Some (seg, rest) => (seg, rest)
                      | None => (q, [])
                      end in
  length rest < length q
  ∧ List.filter nonempty_seg (split x26 q)
    = (if nonempty_seg seg then [seg] else []) ++ List.filter nonempty_seg (split x26 rest).
Proof.
  intros Hq. destruct (split_once x26 q) as [[seg rest]|] eqn:E.
  - apply split_once_Some in E as [-> Hseg]. rewrite split_app_sep by done.
    rewrite length_app. cbn [List.filter length]. split; [lia|]. by destruct (nonempty_seg seg).
  - apply split_once_None in E. rewrite split_no_occ by done. split; [destruct q; [done|simpl; lia]|].
    simpl. by destruct (nonempty_seg q).
Qed.

Lemma QueryPairs_loop_spec fuel q :
  length q < fuel →
  match QueryPairs_loop fuel {| remainder := q |} with
  | None => pairs_spec q = []
  | Some (p, st) => pairs_spec q = p :: pairs_spec (remainder st) ∧ length (remainder st) < length q
  end.
Proof.
  revert q. induction fuel as [|fuel IH]; intros q Hf; [lia|]. cbn [QueryPairs_loop remainder].
  case_bool_decide as Hq; [by subst|].
  pose proof (split_step q Hq) as Hs. unfold pairs_spec.
  destruct (match split_once x26 q with Some (seg, rest) => _ | None => _ end) as [seg rest].
  destruct Hs as [Hl Hs]. rewrite Hs. case_bool_decide as Hseg.
  - subst seg. cbn [nonempty_seg app]. specialize (IH rest ltac:(lia)). unfold pairs_spec in IH.
    destruct (QueryPairs_loop _ _) as [[p st]|]; [|done]. destruct IH. split; [done|lia].
  - assert (nonempty_seg seg = true) as -> by (unfold nonempty_seg; by rewrite bool_decide_false).
    done.
Qed.

Lemma query_pairs_spec q : query_pairs {| remainder := q |} = pairs_spec q.
Proof.
  unfold query_pairs. simpl remainder.
  assert (∀ fuel q, length q < fuel → iter_collect QueryPairs_next fuel {| remainder := q |} = pairs_spec q)
    as H; [|apply H; lia].
  clear q. intros fuel. induction fuel as [|fuel IH]; intros q Hf; [lia|].
  cbn [iter_collect]. unfold QueryPairs_next at 1. cbn [remainder].
  pose proof (QueryPairs_loop_spec (S (length q)) q ltac:(lia)) as Hq.
  destruct (QueryPairs_loop _ _) as [[p [rest]]|]; [|done]. simpl in Hq. destruct Hq as [-> Hl].
  rewrite IH by lia. done.
Qed.

Lemma parse_query_Ok query mb mp st :
  parse_query_with_limits query mb mp = Ok st ↔
  (len query ≤ mb)%N ∧ (len (pairs_spec query) ≤ mp)%N ∧ st = {| remainder := query |}.
Proof.
  unfold parse_query_with_limits, pairs_spec. fold nonempty_seg.
  assert (len (pair_of <$> List.filter nonempty_seg (split x26 query))
    = len (List.filter nonempty_seg (split x26 query))) as ->
    by (unfold len; by rewrite length_fmap).
  destruct (mb <? len query)%N eqn:E1; bool_to_prop; [split; [done|lia]|].
  destruct (mp <? _)%N eqn:E2; bool_to_prop; [split; [done|lia]|].
  split; [by intros [= <-]|by intros (_ & _ & ->)].
Qed.

(** ** The standard serialisation *)

Definition form_unreserved (b : byte) : bool := is_ascii_alphanumeric b || contains b (lit "*-._").

Definition hex_upper (n : N) : byte := if (n <? 10)%N then byte_of (48 + n) else byte_of (55 + n).

Definition form_encode_byte (b : byte) : bytes :=
  if beqb b x20 then [x2b]
  else if form_unreserved b then [b]
  else [x25; hex_upper (N.shiftr (bv b) 4); hex_upper (N.land (bv b) 15)].

Definition form_encode_component (s : bytes) : bytes := s ≫= form_encode_byte.

Definition form_encode_pair (p : bytes * bytes) : bytes :=
  form_encode_component p.1 ++ x3d :: form_encode_component p.2.

Definition form_encode (ps : list (bytes * bytes)) : bytes := join [x26] (form_encode_pair <$> ps).

Lemma form_encode_byte_ok b :
  decode_bytes (plus_to_space <$> form_encode_byte b) = Ok [b]
  ∧ contains x26 (form_encode_byte b) = false ∧ contains x3d (form_encode_byte b) = false
  ∧ forallb is_ascii (form_encode_byte b) = true.
Proof.
  assert (∀ b, bool_decide (decode_bytes (plus_to_space <$> form_encode_byte b) = Ok [b])
    && negb (contains x26 (form_encode_byte b)) && negb (contains x3d (form_encode_byte b))
    && forallb is_ascii (form_encode_byte b) = true) as H by (apply byte_forall; by vm_compute).
  specialize (H b). bool_to_prop. done.
Qed.

Lemma form_component_ok s :
  percent_coded (plus_to_space <$> form_encode_component s) s
  ∧ contains x26 (form_encode_component s) = false ∧ contains x3d (form_encode_component s) = false
  ∧ forallb is_ascii (form_encode_component s) = true.
Proof.
  induction s as [|b s (IH1 & IH2 & IH3 & IH4)]; [by split_and!; [constructor|..]|].
  destruct (form_encode_byte_ok b) as (H1%decode_bytes_Ok & H2 & H3 & H4).
  change (form_encode_component (b :: s)) with (form_encode_byte b ++ form_encode_component s).
  rewrite fmap_app, !contains_app, forallb_app.
  rewrite H2, H3, H4, IH2, IH3, IH4. split_and!; [|done..].
  by apply (percent_coded_app _ [b]).
Qed.

Lemma decode_form_encoded s :
  utf8_valid s = true → decode_form_component (form_encode_component s) = Ok s.
Proof. intros H. apply decode_str_Ok. split; [apply form_component_ok|done]. Qed.

Lemma form_encode_pair_ok p :
  contains x26 (form_encode_pair p) = false ∧ nonempty_seg (form_encode_pair p) = true
  ∧ forallb is_ascii (form_encode_pair p) = true
  ∧ pair_of (form_encode_pair p) = (form_encode_component p.1, form_encode_component p.2).
Proof.
  destruct p as [k v]. unfold form_encode_pair. simpl.
  destruct (form_component_ok k) as (_ & K1 & K2 & K3), (form_component_ok v) as (_ & V1 & V2 & V3).
  split_and!.
  - rewrite contains_app, K1. unfold contains in *; simpl. by rewrite V1.
  - unfold nonempty_seg. rewrite bool_decide_false; [done|]. by destruct (form_encode_component k).
  - rewrite forallb_app, K3. simpl. by rewrite V3.
  - unfold pair_of. by rewrite (proj2 (split_once_Some _ _ (form_encode_component k) (form_encode_component v))).
Qed.

Lemma filter_all {A} (p : A → bool) l : Forall (λ x, p x = true) l → List.filter p l = l.
Proof. induction 1 as [|x l Hx _ IH]; simpl; [done|]. by rewrite Hx, IH. Qed.

Lemma pairs_spec_encode ps :
  pairs_spec (form_encode ps) = (λ p, (form_encode_component p.1, form_encode_component p.2)) <$> ps.
Proof.
  unfold pairs_spec, form_encode. destruct ps as [|p ps]; [done|].
  rewrite split_join; [|done|].
  - rewrite filter_all.
    + rewrite <- list_fmap_compose. apply list_fmap_ext. intros _ q _. simpl.
      by apply form_encode_pair_ok.
    + apply Forall_fmap, Forall_true. intros q. by apply form_encode_pair_ok.
  - apply Forall_fmap, Forall_true. intros q. by apply form_encode_pair_ok.
Qed.

Lemma form_encode_ascii ps : forallb is_ascii (form_encode ps) = true.
Proof.
  unfold form_encode. induction ps as [|p ps IH]; [done|].
  destruct (form_encode_pair_ok p) as (_ & _ & Ha & _).
  destruct ps as [|q ps]; [done|]. cbn [fmap list_fmap] in *.
  rewrite join_cons, !forallb_app, Ha, IH. done.
Qed.

(** The query iterator yields exactly the non-empty segments between the [&]s, each split at
    its first [=]; a query is refused only for its length or for its number of pairs, and what
    is accepted yields at most [max_pairs] pairs. *)
Theorem parse_query_spec query mb mp :
  match parse_query_with_limits query mb mp with
  | Ok it => query_pairs it = pairs_spec query ∧ (len query ≤ mb)%N ∧ (len (query_pairs it) ≤ mp)%N
  | Err QueryTooLong => (mb < len query)%N
  | Err QueryTooManyPairs => (len query ≤ mb)%N ∧ (mp < len (pairs_spec query))%N
  end.
Proof.
  destruct (parse_query_with_limits query mb mp) as [it|e] eqn:E.
  - apply parse_query_Ok in E as (H1 & H2 & ->). by rewrite query_pairs_spec.
  - unfold parse_query_with_limits in E. fold nonempty_seg in E.
    destruct (mb <? len query)%N eqn:E1; simplify_eq; bool_to_prop; [done|].
    case_first_in E; simplify_eq. bool_to_prop. unfold pairs_spec, len in *.
    by rewrite length_fmap.
Qed.

(** form round trip.  For every list of UTF-8 pairs (empty keys and values, and any bytes
    such as [&], [=], [+], [%] and control characters included), parsing its
    [application/x-www-form-urlencoded] serialisation gives back the list, in order, with
    duplicates, provided the serialisation is within the limits. *)
Theorem parse_form_roundtrip ps limits :
  Forall (λ p, utf8_valid p.1 = true ∧ utf8_valid p.2 = true) ps →
  (len (form_encode ps) ≤ max_bytes limits)%N → (len ps ≤ max_pairs limits)%N →
  parse_form_with_limit (form_encode ps) limits = Ok ps.
Proof.
  intros Hps Hb Hn. unfold parse_form_with_limit, from_utf8.
  rewrite (proj2 (N.ltb_ge _ _)), utf8_valid_all_ascii by (done || apply form_encode_ascii).
  cbn [map_err rbind].
  rewrite (proj2 (parse_query_Ok _ _ _ {| remainder := form_encode ps |})).
  - cbn [map_err rbind]. rewrite query_pairs_spec, pairs_spec_encode. apply rmapM_Ok.
    clear Hb Hn. induction Hps as [|[k v] ps [Hk Hv] _ IH]; simpl; constructor; [|done].
    unfold decode_pair; simpl in *. rewrite !decode_form_encoded by done. done.
  - split_and!; [done| |done]. rewrite pairs_spec_encode. unfold len in *. by rewrite length_fmap.
Qed.

Definition demo_form : list (bytes * bytes) :=
  [(lit "user name", lit "a&b=c+d%"); ([], []); (lit "user name", lit "x")].

Lemma parse_form_roundtrip_witness :
  parse_form (form_encode demo_form) = Ok demo_form.
Proof.
  apply (parse_form_roundtrip demo_form FormLimits_DEFAULT);
    [repeat (constructor; [split; vm_compute; reflexivity|]); constructor|by vm_compute..].
Defined.
