(* ===== verification/Cookie.v ===== *)
(** * [http::cookie]: reading [Cookie] headers and building [Set-Cookie] values

    [parse_cookie_header] and [RequestHead::cookies] read; [SetCookie] builds.  A [SetCookie]
    can only be made by the constructors and changed by the builder methods below
    ([cookie_built]); the invariant of what they can make is what browsers ask of the
    [__Host-] and [__Secure-] prefixes. *)

From S2P Require Import Prelude Text Utf8 Radix Extensions Request RequestSpec Body.

Definition MAX_COOKIE_COUNT : N := 100.
Definition MAX_COOKIE_STRING_BYTES : N := 8 * 1024.

Inductive CookieError :=
| CookieStringTooLarge
| TooManyCookies
| InvalidCookiePair
| InvalidName
| InvalidValue
| InvalidPath
| ReservedPrefix
| PrefixMismatch
| HostPrefixPath
| SessionSameSiteNone.
#[export] Instance CookieError_eq_dec : EqDecision CookieError.
Proof. solve_decision. Defined.

(** ** Reading *)

Definition is_cookie_octet (b : byte) : bool :=
  beqb b x21 || in_range 35 43 b || in_range 45 58 b || in_range 60 91 b || in_range 93 126 b.

Definition parse_cookie_pair (pair : bytes) : result (bytes * bytes) CookieError :=
  match split_once x3d pair with
  | None => Err InvalidCookiePair
  | Some (name, raw_value) =>
      if bool_decide (name = []) || negb (forallb is_tchar name) then Err InvalidCookiePair
      else
        let? value := match strip_prefix [x22] raw_value with
                      | Some inner => ok_or (strip_suffix [x22] inner) InvalidCookiePair
                      | None => Ok raw_value
                      end in
        if negb (forallb is_cookie_octet value) then Err InvalidCookiePair
        else Ok (name, value)
  end.

Definition parse_cookie_header (value : bytes) : result (list (bytes * bytes)) CookieError :=
  if (MAX_COOKIE_STRING_BYTES <? len value)%N then Err CookieStringTooLarge
  else
    let segments := trim_ows_str <$> split x3b value in
    if (MAX_COOKIE_COUNT <? len segments)%N then Err TooManyCookies
    else rmapM parse_cookie_pair segments.

(** [RequestHead::cookies]: the headers are checked and read one by one. *)
Definition cookies `{AnyTypes} (self : RequestHead) : result (list (bytes * bytes)) CookieError :=
  match header_values (lit "cookie") self with
  | [] => Ok []
  | raw_headers =>
      let joined_len := (foldr N.add 0 (len <$> raw_headers) + (len raw_headers - 1) * 2)%N in
      if (MAX_COOKIE_STRING_BYTES <? joined_len)%N then Err CookieStringTooLarge
      else
        let segments := raw_headers ≫= λ h, trim_ows_str <$> split x3b h in
        if (MAX_COOKIE_COUNT <? len segments)%N then Err TooManyCookies
        else rmapM parse_cookie_pair segments
  end.

(** ** [SetCookie] *)

Inductive SameSite := Strict | Lax | SameSiteNone.
#[export] Instance SameSite_eq_dec : EqDecision SameSite.
Proof. solve_decision. Defined.

Definition SameSite_as_str (self : SameSite) : bytes :=
  match self with
  | Strict => lit "Strict"
  | Lax => lit "Lax"
  | SameSiteNone => lit "None"
  end.

Inductive SessionSameSite := SessionLax | SessionStrict.

Definition same_site_of_session (v : SessionSameSite) : SameSite :=
  match v with
  | SessionLax => Lax
  | SessionStrict => Strict
  end.

Definition session_of_same_site (v : SameSite) : result SessionSameSite CookieError :=
  match v with
  | Lax => Ok SessionLax
  | Strict => Ok SessionStrict
  | SameSiteNone => Err SessionSameSiteNone
  end.

Inductive CookiePrefix := Host | Secure.
#[export] Instance CookiePrefix_eq_dec : EqDecision CookiePrefix.
Proof. solve_decision. Defined.

Record SetCookie := {
  c_name : bytes;
  c_value : bytes;
  c_http_only : bool;
  c_secure : bool;
  c_same_site : option SameSite;
  c_path : option bytes;
  c_max_age : option Z;
  c_prefix : option CookiePrefix;
}.

Definition HOST_PREFIX : bytes := lit "__Host-".
Definition SECURE_PREFIX : bytes := lit "__Secure-".

Definition detect_prefix (name : bytes) : option CookiePrefix :=
  if (length HOST_PREFIX <=? length name)
     && eq_ignore_ascii_case (take (length HOST_PREFIX) name) HOST_PREFIX
  then Some Host
  else if (length SECURE_PREFIX <=? length name)
          && eq_ignore_ascii_case (take (length SECURE_PREFIX) name) SECURE_PREFIX
  then Some Secure
  else None.

Definition is_path_value (b : byte) : bool := negb (beqb b x3b) && in_range 32 126 b.

Definition validate_name_value (name value : bytes) : result unit CookieError :=
  if bool_decide (name = []) || negb (forallb is_tchar name) then Err InvalidName
  else if negb (forallb is_cookie_octet value) then Err InvalidValue
  else Ok tt.

Definition build (name value : bytes) (prefix : option CookiePrefix) : SetCookie :=
  let '(secure, path) := match prefix with
                         | Some Host => (true, Some (lit "/"))
                         | Some Secure => (true, None)
                         | None => (false, None)
                         end in
  {| c_name := name; c_value := value; c_http_only := false; c_secure := secure;
     c_same_site := None; c_path := path; c_max_age := None; c_prefix := prefix |}.

Definition cookie_new (name value : bytes) : result SetCookie CookieError :=
  let? _ := validate_name_value name value in
  if bool_decide (is_Some (detect_prefix name)) then Err ReservedPrefix
  else Ok (build name value None).

Definition session_with (name value : bytes) (same_site : SessionSameSite) :
    result SetCookie CookieError :=
  let? _ := validate_name_value name value in
  let prefix := detect_prefix name in
  let c := build name value prefix in
  Ok {| c_name := c_name c; c_value := c_value c; c_http_only := true; c_secure := true;
        c_same_site := Some (same_site_of_session same_site); c_path := Some (lit "/");
        c_max_age := c_max_age c; c_prefix := c_prefix c |}.

Definition session (name value : bytes) : result SetCookie CookieError :=
  session_with name value SessionLax.

(** [max_age(seconds)]; the other builder methods follow. *)
Definition with_max_age (seconds : Z) (c : SetCookie) : SetCookie :=
  {| c_name := c_name c; c_value := c_value c; c_http_only := c_http_only c;
     c_secure := c_secure c; c_same_site := c_same_site c; c_path := c_path c;
     c_max_age := Some seconds; c_prefix := c_prefix c |}.

Definition session_removal_with (name : bytes) (same_site : SessionSameSite) :
    result SetCookie CookieError :=
  let? c := session_with name [] same_site in Ok (with_max_age 0 c).

Definition session_removal (name : bytes) : result SetCookie CookieError :=
  session_removal_with name SessionLax.

Definition host_prefixed (name value : bytes) : result SetCookie CookieError :=
  let? _ := validate_name_value name value in
  if bool_decide (detect_prefix name ≠ Some Host) then Err PrefixMismatch
  else Ok (build name value (Some Host)).

Definition secure_prefixed (name value : bytes) : result SetCookie CookieError :=
  let? _ := validate_name_value name value in
  if bool_decide (detect_prefix name ≠ Some Secure) then Err PrefixMismatch
  else Ok (build name value (Some Secure)).

Definition with_http_only (c : SetCookie) : SetCookie :=
  {| c_name := c_name c; c_value := c_value c; c_http_only := true;
     c_secure := c_secure c; c_same_site := c_same_site c; c_path := c_path c;
     c_max_age := c_max_age c; c_prefix := c_prefix c |}.

Definition with_secure (c : SetCookie) : SetCookie :=
  {| c_name := c_name c; c_value := c_value c; c_http_only := c_http_only c;
     c_secure := true; c_same_site := c_same_site c; c_path := c_path c;
     c_max_age := c_max_age c; c_prefix := c_prefix c |}.

Definition with_same_site (same_site : SameSite) (c : SetCookie) : SetCookie :=
  let c := if bool_decide (same_site = SameSiteNone) then with_secure c else c in
  {| c_name := c_name c; c_value := c_value c; c_http_only := c_http_only c;
     c_secure := c_secure c; c_same_site := Some same_site; c_path := c_path c;
     c_max_age := c_max_age c; c_prefix := c_prefix c |}.

Definition with_path (path : bytes) (c : SetCookie) : result SetCookie CookieError :=
  if bool_decide (path = []) || negb (starts_with [x2f] path) || negb (forallb is_path_value path)
  then Err InvalidPath
  else if bool_decide (c_prefix c = Some Host) && negb (str_eqb path (lit "/"))
  then Err HostPrefixPath
  else Ok {| c_name := c_name c; c_value := c_value c; c_http_only := c_http_only c;
             c_secure := c_secure c; c_same_site := c_same_site c; c_path := Some path;
             c_max_age := c_max_age c; c_prefix := c_prefix c |}.

(** [i64::to_string]. *)
Definition i64_to_string (z : Z) : bytes :=
  if (z <? 0)%Z then x2d :: to_decimal (Z.to_N (- z)) else to_decimal (Z.to_N z).

Definition set_cookie_to_header_value (c : SetCookie) : bytes :=
  let out := c_name c ++ lit "=" ++ c_value c in
  let out := match c_path c with
             | Some path => out ++ lit "; Path=" ++ path
             | None => out
             end in
  let out := match c_max_age c with
             | Some max_age => out ++ lit "; Max-Age=" ++ i64_to_string max_age
             | None => out
             end in
  let out := match c_same_site c with
             | Some same_site => out ++ lit "; SameSite=" ++ SameSite_as_str same_site
             | None => out
             end in
  let out := if c_secure c then out ++ lit "; Secure" else out in
  if c_http_only c then out ++ lit "; HttpOnly" else out.

(** The cookies a program can build: the fields are private. *)
Inductive cookie_built : SetCookie → Prop :=
| built_new n v c : cookie_new n v = Ok c → cookie_built c
| built_session n v s c : session_with n v s = Ok c → cookie_built c
| built_removal n s c : session_removal_with n s = Ok c → cookie_built c
| built_host n v c : host_prefixed n v = Ok c → cookie_built c
| built_secure n v c : secure_prefixed n v = Ok c → cookie_built c
| built_http_only c : cookie_built c → cookie_built (with_http_only c)
| built_with_secure c : cookie_built c → cookie_built (with_secure c)
| built_same_site s c : cookie_built c → cookie_built (with_same_site s c)
| built_path p c c' : cookie_built c → with_path p c = Ok c' → cookie_built c'
| built_max_age z c : cookie_built c → cookie_built (with_max_age z c).

(** ** [cookies] against one joined header *)

Lemma split_app sep x s : split sep (x ++ sep :: s) = split sep x ++ split sep s.
Proof.
  induction x as [|c x IH]; simpl; [by rewrite beqb_refl|].
  destruct (beqb c sep); [by rewrite IH|]. rewrite IH.
  pose proof (split_not_nil sep x). by destruct (split sep x).
Qed.

Lemma trim_ows_str_sp s : trim_ows_str (x20 :: s) = trim_ows_str s.
Proof. reflexivity. Qed.

Lemma split_sp s : trim_ows_str <$> split x3b (x20 :: s) = trim_ows_str <$> split x3b s.
Proof.
  simpl. pose proof (split_not_nil x3b s). destruct (split x3b s) as [|h t]; [done|].
  cbn [fmap list_fmap]. by rewrite trim_ows_str_sp.
Qed.

Lemma split_joined v vs :
  trim_ows_str <$> split x3b (join (lit "; ") (v :: vs))
  = (v :: vs) ≫= λ h, trim_ows_str <$> split x3b h.
Proof.
  revert v. induction vs as [|w vs IH]; intros v.
  - simpl. by rewrite app_nil_r.
  - rewrite join_cons. change (lit "; " ++ ?x) with (x3b :: x20 :: x).
    rewrite split_app, fmap_app, split_sp, IH. done.
Qed.

Lemma len_joined v vs :
  len (join (lit "; ") (v :: vs))
  = (foldr N.add 0 (len <$> (v :: vs)) + (len (v :: vs) - 1) * 2)%N.
Proof.
  revert v. induction vs as [|w vs IH]; intros v.
  - simpl. unfold len; simpl. lia.
  - rewrite join_cons, !len_app, IH. cbn [fmap list_fmap foldr].
    change (len (lit "; ")) with 2%N.
    replace (len (v :: w :: vs)) with (len (w :: vs) + 1)%N by (unfold len; simpl; lia).
    assert (1 ≤ len (w :: vs))%N by (unfold len; simpl; lia). lia.
Qed.

(** ** What can be built *)

Record cookie_wf (c : SetCookie) : Prop := {
  cw_name : token (c_name c);
  cw_value : forallb is_cookie_octet (c_value c) = true;
  cw_path : ∀ p, c_path c = Some p → starts_with [x2f] p = true ∧ forallb is_path_value p = true;
  cw_prefix : c_prefix c = detect_prefix (c_name c);
  cw_host : c_prefix c = Some Host → c_secure c = true ∧ c_path c = Some (lit "/");
  cw_secure : c_prefix c = Some Secure → c_secure c = true;
  cw_same_site : c_same_site c = Some SameSiteNone → c_secure c = true;
}.

Lemma validate_Ok n v u :
  validate_name_value n v = Ok u → token n ∧ forallb is_cookie_octet v = true.
Proof.
  unfold validate_name_value, token. case_bool_decide; simpl; [done|].
  destruct (forallb is_tchar n); [|done]. by destruct (forallb is_cookie_octet v).
Qed.

Lemma build_wf n v :
  token n → forallb is_cookie_octet v = true → cookie_wf (build n v (detect_prefix n)).
Proof.
  intros Hn Hv. unfold build. destruct (detect_prefix n) as [[]|] eqn:E; split; simpl;
    try done; by intros p [= <-].
Qed.

Lemma session_with_wf n v s c : session_with n v s = Ok c → cookie_wf c.
Proof.
  unfold session_with. intros (u & [Hn Hv]%validate_Ok & [= <-])%rbind_Ok.
  pose proof (build_wf n v Hn Hv) as [????? ? ?].
  split; simpl; try done. by intros p [= <-].
Qed.

Lemma cookie_built_wf c : cookie_built c → cookie_wf c.
Proof.
  induction 1 as [n v c H|n v s c H|n s c H|n v c H|n v c H|c _ IH|c _ IH|s c _ IH|p c c' _ IH H|z c _ IH].
  - unfold cookie_new in H. apply rbind_Ok in H as (u & [Hn Hv]%validate_Ok & H).
    case_bool_decide as Hp; simplify_eq. pose proof (build_wf n v Hn Hv).
    by destruct (detect_prefix n); [destruct Hp; eexists|].
  - by eapply session_with_wf.
  - unfold session_removal_with in H. apply rbind_Ok in H as (c' & H & [= <-]).
    apply session_with_wf in H as []. by split.
  - unfold host_prefixed in H. apply rbind_Ok in H as (u & [Hn Hv]%validate_Ok & H).
    case_bool_decide as Hp; simplify_eq. rewrite <- Hp. by apply build_wf.
  - unfold secure_prefixed in H. apply rbind_Ok in H as (u & [Hn Hv]%validate_Ok & H).
    case_bool_decide as Hp; simplify_eq. rewrite <- Hp. by apply build_wf.
  - destruct IH. by split.
  - destruct IH as [???? Hh Hs ?]. split; simpl; try done. intros E. by destruct (Hh E).
  - destruct IH as [???? Hh Hs Hss]. unfold with_same_site. case_bool_decide; split; simpl;
      try done; try congruence. intros E. by destruct (Hh E).
  - unfold with_path in H. destruct (_ || _) eqn:E1 in H; [done|].
    destruct (_ && _) eqn:E2 in H; [done|]. simplify_eq. bool_to_prop.
    destruct IH as [???? Hh Hs Hss]. split; simpl; try done.
    + by intros q [= <-].
    + intros Ep. rewrite Ep in E2. destruct (Hh Ep) as [Hsec _]. split; [done|].
      rewrite bool_decide_true in E2 by done. simpl in E2. bool_to_prop.
      f_equal. by apply str_eqb_eq.
  - destruct IH. by split.
Qed.

(** ** The header value *)

Definition cookie_attributes (c : SetCookie) : list bytes :=
  match c_path c with Some p => [lit "Path=" ++ p] | None => [] end ++
  match c_max_age c with Some z => [lit "Max-Age=" ++ i64_to_string z] | None => [] end ++
  match c_same_site c with Some s => [lit "SameSite=" ++ SameSite_as_str s] | None => [] end ++
  (if c_secure c then [lit "Secure"] else []) ++
  (if c_http_only c then [lit "HttpOnly"] else []).

Definition cookie_pair_text (c : SetCookie) : bytes := c_name c ++ x3d :: c_value c.

Definition attr_text (a : bytes) : bytes := x3b :: x20 :: a.

Lemma header_value_attributes c :
  set_cookie_to_header_value c = cookie_pair_text c ++ concat (attr_text <$> cookie_attributes c).
Proof.
  unfold set_cookie_to_header_value, cookie_attributes, cookie_pair_text.
  destruct (c_path c), (c_max_age c), (c_same_site c), (c_secure c), (c_http_only c);
    cbn [app fmap list_fmap concat attr_text lit String.list_byte_of_string];
    rewrite ?app_nil_r; repeat rewrite <- (assoc_L (++)); done.
Qed.

(** Printable ASCII without a semicolon: what every part of the header value consists of. *)
Definition part_ok (s : bytes) : Prop := forallb is_path_value s = true.

Lemma part_ok_app s t : part_ok (s ++ t) ↔ part_ok s ∧ part_ok t.
Proof. unfold part_ok. rewrite forallb_app. apply andb_true_iff. Qed.

Lemma forallb_impl (p q : byte → bool) s :
  (∀ b, p b = true → q b = true) → forallb p s = true → forallb q s = true.
Proof.
  intros Hpq H. apply forallb_Forall in H. apply forallb_Forall. eapply Forall_impl; [done|].
  simpl. auto.
Qed.

Lemma cookie_octet_part b : is_cookie_octet b = true → is_path_value b = true.
Proof. intros H. by_bytes b. Qed.
Lemma tchar_part b : is_tchar b = true → is_path_value b = true.
Proof. intros H. by_bytes b. Qed.
Lemma digit_part b : is_ascii_digit b = true → is_path_value b = true.
Proof. intros H. by_bytes b. Qed.

Lemma i64_part z : part_ok (i64_to_string z).
Proof.
  assert (∀ n, part_ok (to_decimal n)) as H.
  { intros n. eapply forallb_impl; [apply digit_part|apply to_decimal_digits]. }
  unfold i64_to_string. destruct (z <? 0)%Z; [apply (H (Z.to_N (- z)))|apply H].
Qed.

Lemma part_no_semicolon s : part_ok s → contains x3b s = false.
Proof.
  intros H. apply contains_false. apply forallb_Forall in H. eapply Forall_impl; [done|].
  by intros b Hb ->.
Qed.

Lemma pair_text_part c : cookie_wf c → part_ok (cookie_pair_text c).
Proof.
  intros [[_ Hn] Hv _ _ _ _ _]. unfold cookie_pair_text. apply part_ok_app. split.
  - eapply forallb_impl; [|exact Hn]. apply tchar_part.
  - change (x3d :: c_value c) with ([x3d] ++ c_value c). apply part_ok_app. split; [done|].
    eapply forallb_impl; [|exact Hv]. apply cookie_octet_part.
Qed.

Lemma attributes_part c : cookie_wf c → Forall part_ok (cookie_attributes c).
Proof.
  intros [_ _ Hp _ _ _ _]. unfold cookie_attributes.
  repeat apply Forall_app_2.
  - destruct (c_path c) as [p|]; repeat constructor. apply part_ok_app. split; [done|]. by apply (Hp p).
  - destruct (c_max_age c) as [z|]; repeat constructor. apply part_ok_app. split; [done|apply i64_part].
  - destruct (c_same_site c) as [[]|]; repeat constructor.
  - destruct (c_secure c); repeat constructor.
  - destruct (c_http_only c); repeat constructor.
Qed.

Lemma split_attributes p attrs :
  part_ok p → Forall part_ok attrs →
  split x3b (p ++ concat (attr_text <$> attrs)) = p :: ((x20 ::.) <$> attrs).
Proof.
  intros Hp HF. revert p Hp. induction HF as [|a attrs Ha _ IH]; intros p Hp; simpl.
  - rewrite app_nil_r. by apply split_no_occ, part_no_semicolon.
  - rewrite split_app_sep by (by apply part_no_semicolon). f_equal.
    apply (IH (x20 :: a)). by apply (part_ok_app [x20] a).
Qed.

Lemma parse_pair_text c : cookie_wf c → parse_cookie_pair (cookie_pair_text c) = Ok (c_name c, c_value c).
Proof.
  intros [[Hne Hn] Hv _ _ _ _ _]. unfold parse_cookie_pair, cookie_pair_text.
  rewrite (proj2 (split_once_Some _ _ (c_name c) (c_value c)));
    [|split; [done|by apply (tchar_contains x3d)]].
  rewrite bool_decide_false, Hn by done. cbn [negb orb].
  destruct (strip_prefix [x22] (c_value c)) as [inner|] eqn:E; [|cbn [rbind]; by rewrite Hv].
  apply strip_prefix_Some in E. rewrite E in Hv. done.
Qed.

(** Reading the [Cookie] headers of a request one by one, as [RequestHead::cookies] does to
    avoid copying, is reading one header in which they are joined by a semicolon and a space,
    as HTTP requires, errors and limits included. *)
Theorem cookies_joined `{AnyTypes} head :
  cookies head =
    match header_values (lit "cookie") head with
    | [] => Ok []
    | v :: vs => parse_cookie_header (join (lit "; ") (v :: vs))
    end.
Proof.
  unfold cookies, parse_cookie_header.
  destruct (header_values (lit "cookie") head) as [|v vs]; [done|].
  by rewrite split_joined, len_joined.
Qed.

(** every [Set-Cookie] value a program can build is sound: a name with the [__Host-] prefix
    (in any case) comes with [Secure] and [Path=/], one with [__Secure-] with [Secure], and
    [SameSite=None] with [Secure]; the value is printable ASCII (no CR or LF can get in) and
    its semicolon-separated parts are the pair, which reads back as the name and the value,
    and then exactly the attributes that were set: no part can inject another. *)
Theorem set_cookie_sound c :
  cookie_built c →
  (detect_prefix (c_name c) = Some Host → c_secure c = true ∧ c_path c = Some (lit "/"))
  ∧ (detect_prefix (c_name c) = Some Secure → c_secure c = true)
  ∧ (c_same_site c = Some SameSiteNone → c_secure c = true)
  ∧ split x3b (set_cookie_to_header_value c)
    = cookie_pair_text c :: ((x20 ::.) <$> cookie_attributes c)
  ∧ parse_cookie_pair (cookie_pair_text c) = Ok (c_name c, c_value c)
  ∧ forallb (in_range 32 126) (set_cookie_to_header_value c) = true.
Proof.
  intros Hw%cookie_built_wf. pose proof (pair_text_part c Hw) as Hp.
  pose proof (attributes_part c Hw) as Ha. rewrite header_value_attributes.
  split_and!; [..|by apply split_attributes|by apply parse_pair_text|].
  - rewrite <- (cw_prefix c Hw). apply (cw_host c Hw).
  - rewrite <- (cw_prefix c Hw). apply (cw_secure c Hw).
  - apply (cw_same_site c Hw).
  - assert (∀ s, part_ok s → forallb (in_range 32 126) s = true) as Hr.
    { intros s. apply forallb_impl. unfold is_path_value. intros b Hb. by bool_to_prop. }
    rewrite forallb_app, (Hr _ Hp). cbn [andb]. clear Hp. induction Ha as [|a l Ha _ IH]; [done|].
    change (concat (attr_text <$> a :: l)) with (lit "; " ++ a ++ concat (attr_text <$> l)).
    by rewrite !forallb_app, (Hr _ Ha), IH.
Qed.

Definition demo_cookie : result SetCookie CookieError :=
  let? c := host_prefixed (lit "__HOST-sid") (lit "abc") in
  with_path (lit "/") (with_same_site SameSiteNone (with_max_age (-1) c)).

Lemma set_cookie_sound_witness :
  match demo_cookie with
  | Ok c => c_secure c = true ∧ c_path c = Some (lit "/")
            ∧ set_cookie_to_header_value c
              = lit "__HOST-sid=abc; Path=/; Max-Age=-1; SameSite=None; Secure"
  | Err _ => False
  end.
Proof.
  destruct (host_prefixed (lit "__HOST-sid") (lit "abc")) as [c|e] eqn:E;
    [|vm_compute in E; discriminate].
  destruct (with_path (lit "/") (with_same_site SameSiteNone (with_max_age (-1) c))) as [c'|e] eqn:E'.
  - assert (cookie_built c') as Hb.
    { eapply built_path; [|exact E']. apply built_same_site, built_max_age. eapply built_host, E. }
    unfold demo_cookie. rewrite E. cbn [rbind]. rewrite E'.
    destruct (set_cookie_sound c' Hb) as (H & _).
    assert (c' = c') as _ by reflexivity.
    vm_compute in E. injection E as <-. vm_compute in E'. injection E' as <-.
    destruct H as [H1 H2]; [vm_compute; reflexivity|].
    split; [exact H1|]. split; [exact H2|]. vm_compute. reflexivity.
  - exfalso. vm_compute in E. injection E as <-. vm_compute in E'. discriminate.
Defined.
