(* ===== verification/Location.v ===== *)
(** * [http::location]: redirect targets on the same origin *)

From S2P Require Import Prelude Text Utf8.

Inductive SameOriginLocationError :=
| LocEmpty
| NotRootRelative
| SchemeRelative
| Backslash
| ControlCharacter.
#[export] Instance SameOriginLocationError_eq_dec : EqDecision SameOriginLocationError.
Proof. solve_decision. Defined.

(** The final loop over the characters after the leading slash. *)
Fixpoint check_location_chars (cs : list bytes) : result unit SameOriginLocationError :=
  match cs with
  | [] => Ok tt
  | c :: cs =>
      if str_eqb c (lit "\") then Err Backslash
      else if is_control c then Err ControlCharacter
      else check_location_chars cs
  end.

Definition validate_same_origin_location (value : bytes) : result unit SameOriginLocationError :=
  match chars value with
  | [] => Err LocEmpty
  | c :: cs =>
      if negb (str_eqb c (lit "/")) then Err NotRootRelative
      else
        match cs with
        | d :: _ =>
            if str_eqb d (lit "/") || str_eqb d (lit "\") then Err SchemeRelative
            else check_location_chars cs
        | [] => check_location_chars cs
        end
  end.

(** [SameOriginLocation]: its field is private, so a value is what [new] returned. *)
Record SameOriginLocation := { loc_value : bytes }.

Definition SameOriginLocation_new (value : bytes) :
    result SameOriginLocation SameOriginLocationError :=
  let? _ := validate_same_origin_location value in
  Ok {| loc_value := value |}.

(** A string a browser resolves against the origin of the response and nothing else: an
    absolute path (not a network-path reference), without the backslashes browsers turn into
    slashes and the control characters they drop. *)
Definition same_origin_path (value : bytes) : Prop :=
  ∃ rest, value = x2f :: rest ∧ (∀ r, rest ≠ x2f :: r) ∧ ([x5c] ∉ chars rest)
    ∧ Forall (λ c, is_control c = false) (chars rest).

Lemma check_location_chars_Ok cs :
  check_location_chars cs = Ok tt ↔ ([x5c] ∉ cs) ∧ Forall (λ c, is_control c = false) cs.
Proof.
  induction cs as [|c cs IH]; simpl.
  - split; [|done]. intros _. split; [apply not_elem_of_nil|constructor].
  - rewrite not_elem_of_cons, Forall_cons. destruct (str_eqb c _) eqn:E.
    + apply str_eqb_eq in E. subst. split; [done|]. by intros [[? _] _].
    + assert (c ≠ [x5c]). { intros ->. by rewrite str_eqb_refl in E. }
      destruct (is_control c); [split; [done|]; by intros [_ [? _]]|].
      rewrite IH. intuition congruence.
Qed.

(** [validate_same_origin_location] accepts exactly the same-origin paths. *)
Theorem same_origin_location_spec value :
  utf8_valid value = true →
  is_ok (validate_same_origin_location value) = true ↔ same_origin_path value.
Proof.
  intros Hu. assert (∀ r, is_ok (check_location_chars r) = true ↔ check_location_chars r = Ok tt) as Hok.
  { intros r. by destruct (check_location_chars r) as [[]|]. }
  unfold validate_same_origin_location, same_origin_path.
  destruct value as [|a rest]; [by split; [|intros (? & ? & _)]|].
  destruct (decide (a = x2f)) as [->|Ha].
  - change (chars (x2f :: rest)) with ([x2f] :: chars rest).
    change (str_eqb [x2f] (lit "/")) with true. cbn [negb].
    assert (is_ok match chars rest with
        | d :: _ => if str_eqb d (lit "/") || str_eqb d (lit "\") then Err SchemeRelative
                    else check_location_chars (chars rest)
        | [] => check_location_chars (chars rest) end = true
      ↔ (∀ r, rest ≠ x2f :: r) ∧ check_location_chars (chars rest) = Ok tt) as ->.
    + destruct rest as [|b rest]; [by split|].
      pose proof (concat_chars (b :: rest)) as Hc.
      destruct (chars (b :: rest)) as [|d ds] eqn:Ed; [done|].
      destruct (str_eqb d (lit "/")) eqn:E1; cbn [orb].
      { apply str_eqb_eq in E1 as ->. split; [done|]. intros [Hn _]. simpl in Hc.
        injection Hc as <- <-. by destruct (Hn (concat ds)). }
      destruct (str_eqb d (lit "\")) eqn:E2.
      { apply str_eqb_eq in E2 as ->. split; [done|]. intros [_ H]. done. }
      rewrite Hok. split; [|by intros []]. intros H. split; [|done].
      intros r [= -> ->]. simpl in Ed. injection Ed as <- _. done.
    + rewrite check_location_chars_Ok. split.
      * intros (H1 & H2 & H3). by exists rest.
      * intros (r & [= <-] & H1 & H2 & H3). done.
  - assert (∃ d ds, chars (a :: rest) = d :: ds ∧ d ≠ [x2f]) as (d & ds & -> & Hd).
    { simpl. repeat case_match; eexists _, _; (split; [reflexivity|congruence]). }
    assert (str_eqb d (lit "/") = false) as -> by (apply not_true_iff_false; by intros ?%str_eqb_eq).
    split; [done|]. intros (r & [= ? _] & _). done.
Qed.

Lemma same_origin_location_spec_witness :
  same_origin_path (lit "/login?next=%2F") ∧ ¬ same_origin_path (lit "//evil.example/")
  ∧ ¬ same_origin_path (lit "/\evil.example/").
Proof.
  split_and!; rewrite <- same_origin_location_spec by (vm_compute; reflexivity);
    vm_compute; congruence.
Defined.
