(* ===== verification/Response.v ===== *)
(** * [http::response]: building and serialising responses

    [Response] values are made by the constructors and builder methods only; the three
    serialisers write them.  The source writes the same status line and header fields in each
    serialiser; here they are [write_head]. *)

From stdpp Require Import sorting.
From S2P Require Import Prelude Text Utf8 Radix Request Cookie Location.

(** ** [AllowedMethods] *)

(** The order of [String]: bytewise, lexicographic. *)
Fixpoint bytes_leb (a b : bytes) : bool :=
  match a, b with
  | [], _ => true
  | _ :: _, [] => false
  | x :: a, y :: b => if (bv x <? bv y)%N then true else if beqb x y then bytes_leb a b else false
  end.
Definition bytes_le (a b : bytes) : Prop := bytes_leb a b = true.
#[export] Instance bytes_le_dec : RelDecision bytes_le.
Proof. intros a b. unfold bytes_le. apply _. Defined.

(** [Vec::dedup]: drops an element equal to the one kept before it. *)
Fixpoint dedup (l : list bytes) : list bytes :=
  match l with
  | [] => []
  | x :: l =>
      match dedup l with
      | y :: l' => if str_eqb x y then y :: l' else x :: y :: l'
      | [] => [x]
      end
  end.

Record AllowedMethods := { methods : list bytes }.

Definition from_methods (ms : list bytes) : option AllowedMethods :=
  if bool_decide (ms = []) then None
  else if existsb (λ m, bool_decide (m = []) || negb (forallb is_tchar m)) ms then None
  else Some {| methods := dedup (merge_sort bytes_le ms) |}.

Definition allow_to_header_value (self : AllowedMethods) : bytes := join (lit ", ") (methods self).

(** ** [Response] *)

Inductive HeaderError := HdrInvalidName | HdrInvalidValue | HdrReservedName.
#[export] Instance HeaderError_eq_dec : EqDecision HeaderError.
Proof. solve_decision. Defined.

Inductive RedirectError :=
| UnsupportedStatus
| EmptyLocation
| InvalidLocation (e : HeaderError).

Record Response := {
  status : N;
  r_body : bytes;
  content_type : option bytes;
  allow : option AllowedMethods;
  extra_headers : list (bytes * bytes);
}.

Definition response_new (status : N) (body : bytes) : Response :=
  {| status := status; r_body := body; content_type := None; allow := None; extra_headers := [] |}.

Definition response_empty (status : N) : Response := response_new status [].

Definition with_content_type (ct : bytes) (self : Response) : Response :=
  {| status := status self; r_body := r_body self; content_type := Some ct;
     allow := allow self; extra_headers := extra_headers self |}.

Definition with_allow (a : AllowedMethods) (self : Response) : Response :=
  {| status := status self; r_body := r_body self; content_type := content_type self;
     allow := Some a; extra_headers := extra_headers self |}.

(** [self.extra_headers.push((name, value))]. *)
Definition push_header (name value : bytes) (self : Response) : Response :=
  {| status := status self; r_body := r_body self; content_type := content_type self;
     allow := allow self; extra_headers := extra_headers self ++ [(name, value)] |}.

(** Assignments to the public fields. *)
Definition set_body (b : bytes) (self : Response) : Response :=
  {| status := status self; r_body := b; content_type := content_type self;
     allow := allow self; extra_headers := extra_headers self |}.
Definition set_status (s : N) (self : Response) : Response :=
  {| status := s; r_body := r_body self; content_type := content_type self;
     allow := allow self; extra_headers := extra_headers self |}.

Definition RESERVED : list bytes := [lit "content-length"; lit "connection"; lit "transfer-encoding"].

Definition forbidden_value_byte (b : byte) : bool :=
  ((bv b <? 32)%N && negb (beqb b x09)) || beqb b x7f.

Definition with_header (name value : bytes) (self : Response) : result Response HeaderError :=
  if bool_decide (name = []) || negb (forallb is_tchar name) then Err HdrInvalidName
  else if existsb forbidden_value_byte value then Err HdrInvalidValue
  else if existsb (eq_ignore_ascii_case name) RESERVED then Err HdrReservedName
  else Ok (push_header name value self).

Definition is_ows_char (b : byte) : bool := beqb b x20 || beqb b x09.

Definition list_members (value : bytes) : list bytes :=
  List.filter (λ m, negb (bool_decide (m = []))) (trim_matches is_ows_char <$> split x2c value).

(** The values of the extra headers with this name, ignoring case. *)
Definition extra_values (name : bytes) (self : Response) : list bytes :=
  snd <$> List.filter (λ p, eq_ignore_ascii_case p.1 name) (extra_headers self).

Definition with_vary (field_name : bytes) (self : Response) : result Response HeaderError :=
  let is_star := str_eqb field_name (lit "*") in
  if negb is_star && (bool_decide (field_name = []) || negb (forallb is_tchar field_name))
  then Err HdrInvalidValue
  else
    let already := existsb (λ m, str_eqb m (lit "*") || eq_ignore_ascii_case m field_name)
                     (extra_values (lit "vary") self ≫= list_members) in
    if already then Ok self else with_header (lit "Vary") field_name self.

(** The loop of [has_directive]: the rest of the value, the segment read so far and the two
    flags.  The characters it looks for are ASCII, so bytes and characters agree. *)
Fixpoint has_directive_loop (check : bytes → bool) (rest seg : bytes) (in_quote escaped : bool) : bool :=
  match rest with
  | [] => check seg
  | c :: rest =>
      if escaped then has_directive_loop check rest (seg ++ [c]) in_quote false
      else if in_quote && beqb c x5c then has_directive_loop check rest (seg ++ [c]) in_quote true
      else if beqb c x22 then has_directive_loop check rest (seg ++ [c]) (negb in_quote) false
      else if beqb c x2c && negb in_quote then
        if check seg then true else has_directive_loop check rest [] in_quote false
      else has_directive_loop check rest (seg ++ [c]) in_quote false
  end.

Definition has_directive (value name : bytes) : bool :=
  let check seg := match split x3d seg with
                   | d :: _ => eq_ignore_ascii_case (trim_matches is_ows_char d) name
                   | [] => false
                   end in
  has_directive_loop check value [] false false.

Definition with_no_store (self : Response) : Response :=
  let already := existsb (λ v, has_directive v (lit "no-store"))
                   (extra_values (lit "cache-control") self) in
  if already then self else push_header (lit "Cache-Control") (lit "no-store") self.

Definition response_header (name : bytes) (self : Response) : option bytes :=
  match eq_ignore_ascii_case name (lit "content-type"), content_type self with
  | true, Some ct => Some ct
  | _, _ => snd <$> List.find (λ p, eq_ignore_ascii_case p.1 name) (extra_headers self)
  end.

Definition with_set_cookie (cookie : SetCookie) (self : Response) : Response :=
  push_header (lit "Set-Cookie") (set_cookie_to_header_value cookie) self.

Definition see_other (location : SameOriginLocation) : Response :=
  push_header (lit "Location") (loc_value location) (response_empty 303).

Definition redirect (status : N) (location : bytes) : result Response RedirectError :=
  if negb (existsb (N.eqb status) [301; 302; 303; 307; 308]%N) then Err UnsupportedStatus
  else if bool_decide (location = []) then Err EmptyLocation
  else map_err InvalidLocation (with_header (lit "Location") location (response_empty status)).

(** ** Serialisation *)

Definition reason_phrase (status : N) : bytes :=
  match status with
  | 200 => lit "OK"
  | 204 => lit "No Content"
  | 304 => lit "Not Modified"
  | 301 => lit "Moved Permanently"
  | 302 => lit "Found"
  | 303 => lit "See Other"
  | 307 => lit "Temporary Redirect"
  | 308 => lit "Permanent Redirect"
  | 400 => lit "Bad Request"
  | 401 => lit "Unauthorized"
  | 403 => lit "Forbidden"
  | 404 => lit "Not Found"
  | 405 => lit "Method Not Allowed"
  | 413 => lit "Payload Too Large"
  | 429 => lit "Too Many Requests"
  | 431 => lit "Request Header Fields Too Large"
  | 500 => lit "Internal Server Error"
  | 501 => lit "Not Implemented"
  | 502 => lit "Bad Gateway"
  | 503 => lit "Service Unavailable"
  | 504 => lit "Gateway Timeout"
  | 505 => lit "HTTP Version Not Supported"
  | _ => []
  end%N.

(** The loop of [write_decimal]: [fuel] is the index into the 20-byte array. *)
Fixpoint write_decimal_loop (fuel : nat) (n : N) (digits : bytes) : bytes :=
  match fuel with
  | O => digits
  | S i =>
      let digits := byte_of (48 + n mod 10) :: digits in
      let n := (n / 10)%N in
      if (n =? 0)%N then digits else write_decimal_loop i n digits
  end.

Definition write_decimal (out : bytes) (n : N) : bytes := out ++ write_decimal_loop 20 n [].

Definition write_field (out : bytes) (f : bytes * bytes) : bytes :=
  out ++ f.1 ++ lit ": " ++ f.2 ++ CRLF.

(** The fields written from the dedicated ones and the extra headers they do not shadow. *)
Definition write_fields (self : Response) (out : bytes) : bytes :=
  let out := match content_type self with
             | Some ct => out ++ lit "Content-Type: " ++ ct ++ CRLF
             | None => out
             end in
  let out := match allow self with
             | Some a => out ++ lit "Allow: " ++ allow_to_header_value a ++ CRLF
             | None => out
             end in
  foldl (λ out f,
           if bool_decide (is_Some (content_type self)) && eq_ignore_ascii_case f.1 (lit "content-type")
           then out
           else if bool_decide (is_Some (allow self)) && eq_ignore_ascii_case f.1 (lit "allow")
           then out
           else write_field out f) out (extra_headers self).

Definition serialize_into (keep_alive : bool) (self : Response) : bytes :=
  let out := lit "HTTP/1.1 " in
  let out := write_decimal out (status self) in
  let out := out ++ [x20] ++ reason_phrase (status self) ++ CRLF in
  let out := write_fields self out in
  let out := out ++ lit "Content-Length: " in
  let out := write_decimal out (len (r_body self)) in
  let out := out ++ CRLF in
  let out := if negb keep_alive then out ++ lit "Connection: close" ++ CRLF else out in
  let out := out ++ CRLF in
  out ++ r_body self.

Definition serialize (keep_alive : bool) (self : Response) : bytes := serialize_into keep_alive self.

Definition is_bodyless_status (status : N) : bool :=
  ((100 <=? status) && (status <=? 199) || (status =? 204) || (status =? 304))%N.

Definition serialize_chunked_head (keep_alive : bool) (self : Response) : bytes :=
  let out := lit "HTTP/1.1 " ++ to_decimal (status self) ++ [x20] ++ reason_phrase (status self) ++ CRLF in
  let out := write_fields self out in
  let out := if negb (is_bodyless_status (status self))
             then out ++ lit "Transfer-Encoding: chunked" ++ CRLF else out in
  let out := if negb keep_alive then out ++ lit "Connection: close" ++ CRLF else out in
  out ++ CRLF.

Definition serialize_streaming_head_http10 (self : Response) : bytes :=
  let out := lit "HTTP/1.1 " ++ to_decimal (status self) ++ [x20] ++ reason_phrase (status self) ++ CRLF in
  let out := write_fields self out in
  out ++ lit "Connection: close" ++ CRLF ++ CRLF.
