(* ===== verification/ResponseSpec.v ===== *)
(** * Responses cannot be split

    Every response a program can build serialises to a status line, the header fields that were
    set, and the framing fields of the framework, one per line, and then the body: no value
    carries a line break into the head, and the framing fields are exactly the framework's. *)

From stdpp Require Import sorting.
From S2P Require Import Prelude Text Utf8 Radix Extensions Request RequestSpec Cookie Location Response.

(** ** What can be built *)

(** The text of a [Content-Type] literal of the source. *)
Definition value_ok (v : bytes) : Prop :=
  existsb forbidden_value_byte v = false ∧ utf8_valid v = true.

Inductive response_built : Response → Prop :=
| built_response s b : response_built (response_new s b)
| built_content_type ct r : value_ok ct → response_built r → response_built (with_content_type ct r)
| built_allow ms a r : from_methods ms = Some a → response_built r → response_built (with_allow a r)
| built_header n v r r' :
    utf8_valid v = true → with_header n v r = Ok r' → response_built r → response_built r'
| built_vary f r r' : with_vary f r = Ok r' → response_built r → response_built r'
| built_no_store r : response_built r → response_built (with_no_store r)
| built_set_cookie c r : cookie_built c → response_built r → response_built (with_set_cookie c r)
| built_see_other v l : utf8_valid v = true → SameOriginLocation_new v = Ok l → response_built (see_other l)
| built_redirect s l r : utf8_valid l = true → redirect s l = Ok r → response_built r
| built_set_body b r : response_built r → response_built (set_body b r)
| built_set_status s r : response_built r → response_built (set_status s r).

Definition reserved (n : bytes) : bool := existsb (eq_ignore_ascii_case n) RESERVED.

Definition header_ok (f : bytes * bytes) : Prop :=
  token f.1 ∧ value_ok f.2 ∧ reserved f.1 = false.

Record response_wf (r : Response) : Prop := {
  rw_content_type : ∀ ct, content_type r = Some ct → value_ok ct;
  rw_allow : ∀ a, allow r = Some a → Forall token (methods a) ∧ methods a ≠ [];
  rw_headers : Forall header_ok (extra_headers r);
}.

(** ** The pushes that skip the validation do what the validated ones would *)

Lemma with_header_Ok n v r r' :
  with_header n v r = Ok r' ↔
  token n ∧ existsb forbidden_value_byte v = false ∧ reserved n = false ∧ r' = push_header n v r.
Proof.
  unfold with_header, token, reserved. split.
  - intros H. repeat (case_first_in H; [done|]). bool_to_prop. by simplify_eq.
  - intros ([Hn ->] & -> & -> & ->). by rewrite bool_decide_false.
Qed.

Lemma part_no_forbidden v : forallb (in_range 32 126) v = true → value_ok v.
Proof.
  intros H. split.
  - apply existsb_false_Forall. apply forallb_Forall in H. eapply Forall_impl; [exact H|].
    intros b Hb. by_bytes b.
  - apply utf8_valid_all_ascii. eapply forallb_impl; [|exact H]. intros b Hb. by_bytes b.
Qed.

Lemma header_value_attributes_ok c : cookie_built c → value_ok (set_cookie_to_header_value c).
Proof.
  intros Hc%cookie_built_wf. apply part_no_forbidden. rewrite header_value_attributes.
  assert (∀ s, part_ok s → forallb (in_range 32 126) s = true) as Hr.
  { intros s. apply forallb_impl. unfold is_path_value. intros b Hb. by bool_to_prop. }
  rewrite forallb_app, (Hr _ (pair_text_part c Hc)). cbn [andb].
  induction (attributes_part c Hc) as [|a l Ha _ IH]; [done|].
  change (concat (attr_text <$> a :: l)) with (lit "; " ++ a ++ concat (attr_text <$> l)).
  by rewrite !forallb_app, (Hr _ Ha), IH.
Qed.

Lemma with_set_cookie_checked c r :
  cookie_built c →
  with_header (lit "Set-Cookie") (set_cookie_to_header_value c) r = Ok (with_set_cookie c r).
Proof.
  intros Hc. apply with_header_Ok. split_and!; [done| |done|done].
  by apply header_value_attributes_ok.
Qed.

Lemma see_other_value v l :
  utf8_valid v = true → SameOriginLocation_new v = Ok l → value_ok (loc_value l).
Proof.
  unfold SameOriginLocation_new. intros Hu ([] & H & [= <-])%rbind_Ok. simpl. split; [|done].
  unfold validate_same_origin_location in H. destruct (chars v) as [|c cs] eqn:Ec; [done|].
  destruct (negb (str_eqb c (lit "/"))) eqn:Es; [done|]. bool_to_prop. apply str_eqb_eq in Es as ->.
  assert (check_location_chars cs = Ok tt) as Hc.
  { destruct cs as [|d ds]; [done|]. by destruct (_ || _) in H. }
  apply check_location_chars_Ok in Hc as [_ HF].
  apply existsb_false_Forall, Forall_forall. intros b Hb.
  destruct (forbidden_value_byte b) eqn:E; [|done]. exfalso.
  assert (is_ascii b = true) as Ha by by_bytes b.
  pose proof (chars_ascii_byte b v Hu Ha Hb) as Hin. rewrite Ec in Hin.
  apply elem_of_cons in Hin as [[= ->]|Hin]; [done|].
  rewrite Forall_forall in HF. specialize (HF [b] Hin). by_bytes b.
Qed.

Lemma see_other_checked v l :
  utf8_valid v = true → SameOriginLocation_new v = Ok l →
  with_header (lit "Location") (loc_value l) (response_empty 303) = Ok (see_other l).
Proof.
  intros Hu Hl. apply with_header_Ok. split_and!; [done| |done|done].
  by eapply see_other_value.
Qed.

Lemma with_no_store_checked r :
  with_no_store r = r ∨
  with_header (lit "Cache-Control") (lit "no-store") r = Ok (with_no_store r).
Proof.
  unfold with_no_store. destruct (existsb _ _); [by left|right]. by apply with_header_Ok.
Qed.

(** ** [AllowedMethods] *)

Lemma bytes_leb_total a b : bytes_leb a b = true ∨ bytes_leb b a = true.
Proof.
  revert b. induction a as [|x a IH]; intros [|y b]; simpl; auto.
  destruct (bv x <? bv y)%N eqn:E1; [by left|]. destruct (bv y <? bv x)%N eqn:E2; [by right|].
  bool_to_prop. assert (x = y) as -> by (apply bv_inj; lia). rewrite beqb_refl. apply IH.
Qed.

Lemma bytes_leb_antisym a b : bytes_leb a b = true → bytes_leb b a = true → a = b.
Proof.
  revert b. induction a as [|x a IH]; intros [|y b]; simpl; try done.
  destruct (bv x <? bv y)%N eqn:E1, (bv y <? bv x)%N eqn:E2; bool_to_prop; try lia.
  - destruct (beqb y x) eqn:E; [|done]. apply beqb_eq in E as ->. lia.
  - destruct (beqb x y) eqn:E; [|done]. apply beqb_eq in E as ->. lia.
  - destruct (beqb x y) eqn:E; [|done]. apply beqb_eq in E as ->. rewrite beqb_refl.
    intros. f_equal. by apply IH.
Qed.

Lemma bytes_leb_trans a b c : bytes_leb a b = true → bytes_leb b c = true → bytes_leb a c = true.
Proof.
  revert b c. induction a as [|x a IH]; intros [|y b] [|z c]; simpl; try done.
  destruct (bv x <? bv y)%N eqn:E1, (bv y <? bv z)%N eqn:E2; bool_to_prop.
  - by rewrite (proj2 (N.ltb_lt _ _)) by lia.
  - destruct (beqb y z) eqn:E; [|done]. apply beqb_eq in E as ->. intros.
    by rewrite (proj2 (N.ltb_lt _ _)) by lia.
  - destruct (beqb x y) eqn:E; [|done]. apply beqb_eq in E as ->. intros.
    by rewrite (proj2 (N.ltb_lt _ _)) by lia.
  - destruct (beqb x y) eqn:E; [|done]. apply beqb_eq in E as ->.
    destruct (beqb y z) eqn:E; [|done]. apply beqb_eq in E as ->.
    rewrite N.ltb_irrefl, ?beqb_refl. apply IH.
Qed.

#[export] Instance bytes_le_total : Total bytes_le.
Proof. intros a b. apply bytes_leb_total. Qed.
#[export] Instance bytes_le_trans : Transitive bytes_le.
Proof. intros a b c. apply bytes_leb_trans. Qed.

Lemma dedup_head l x : head (dedup l) = Some x → head l = Some x.
Proof.
  revert x. induction l as [|y l IH]; intros x; simpl; [done|].
  destruct (dedup l) as [|z l']; [done|]. destruct (str_eqb y z) eqn:E; [|done].
  apply str_eqb_eq in E as ->. done.
Qed.

Lemma dedup_elem l x : x ∈ dedup l ↔ x ∈ l.
Proof.
  induction l as [|y l IH]; simpl; [done|]. rewrite elem_of_cons, <- IH.
  destruct (dedup l) as [|z l']; [by rewrite elem_of_cons|].
  destruct (str_eqb y z) eqn:E; [|by rewrite elem_of_cons].
  apply str_eqb_eq in E as ->. rewrite elem_of_cons. tauto.
Qed.

Definition bytes_lt (a b : bytes) : Prop := bytes_le a b ∧ a ≠ b.

Lemma dedup_sorted l : Sorted bytes_le l → Sorted bytes_lt (dedup l).
Proof.
  induction 1 as [|y l Hl IH Hhd]; simpl; [constructor|].
  destruct (dedup l) as [|z l'] eqn:Ed; [by repeat constructor|].
  destruct (str_eqb y z) eqn:E; [done|]. constructor; [done|]. constructor.
  assert (head l = Some z) as Hz by (apply dedup_head; by rewrite Ed).
  destruct Hhd; simplify_eq/=. split; [done|]. intros ->. by rewrite str_eqb_refl in E.
Qed.

Lemma from_methods_Some ms a :
  from_methods ms = Some a →
  ms ≠ [] ∧ Forall token ms ∧ (∀ m, m ∈ methods a ↔ m ∈ ms) ∧ Sorted bytes_lt (methods a).
Proof.
  unfold from_methods. case_bool_decide as Hn; [done|]. destruct (existsb _ ms) eqn:E; [done|].
  intros [= <-]. simpl. split_and!; [done| | |].
  - apply existsb_false_Forall in E. eapply Forall_impl; [exact E|]. simpl. intros m Hm.
    bool_to_prop. by split.
  - intros m. by rewrite dedup_elem, (merge_sort_Permutation bytes_le ms).
  - apply dedup_sorted, (Sorted_merge_sort bytes_le).
Qed.

Lemma response_built_wf res : response_built res → response_wf res.
Proof.
  assert (∀ n v r r', utf8_valid v = true → with_header n v r = Ok r' → response_wf r → response_wf r')
    as Hpush.
  { intros n v r r' Hu (Hn & Hv & Hres & ->)%with_header_Ok [H1 H2 H3]. split; simpl; [done..|].
    apply Forall_app. split; [done|]. constructor; [by split_and!|constructor]. }
  assert (∀ s, response_wf (response_empty s)) as Hempty by (intros s; split; simpl; by try constructor).
  induction 1 as [s b|ct r Hct _ [H1 H2 H3]|ms a r Ha _ [H1 H2 H3]|n v r r' Hu H _ IH|f r r' H _ IH|r _ IH
    |c r Hc _ IH|v l Hu Hl|s l r Hu H|b r _ []|s r _ []].
  - split; simpl; by try constructor.
  - split; simpl; [|done..]. by intros ? [= <-].
  - split; simpl; [done| |done]. intros ? [= <-].
    apply from_methods_Some in Ha as (Hn & Ht & He & _). split.
    + rewrite Forall_forall in Ht |- *. intros m Hm. apply Ht. by apply He.
    + intros Hnil. destruct ms as [|m ms]; [done|]. specialize (He m). rewrite Hnil in He.
      assert (m ∈ []) as ?%elem_of_nil; [|done]. apply He. by left.
  - by eapply Hpush.
  - unfold with_vary in H. case_first_in H; [done|]. case_first_in H; [by simplify_eq|].
    eapply Hpush; [|exact H|done]. destruct (str_eqb f (lit "*")) eqn:Es.
    + by apply str_eqb_eq in Es as ->.
    + simpl in *. bool_to_prop. by apply tchars_utf8.
  - destruct (with_no_store_checked r) as [->|H]; [done|].
    by eapply (Hpush (lit "Cache-Control") (lit "no-store")).
  - eapply Hpush; [|by apply with_set_cookie_checked|done]. by apply header_value_attributes_ok.
  - eapply Hpush; [|by eapply see_other_checked|apply Hempty]. by eapply see_other_value.
  - unfold redirect in H. repeat (case_first_in H; [done|]). apply map_err_Ok in H.
    eapply Hpush; [exact Hu|exact H|apply Hempty].
  - by split.
  - by split.
Qed.

(** ** The fields of a serialised response *)

Definition dedicated_fields (r : Response) : list (bytes * bytes) :=
  match content_type r with Some ct => [(lit "Content-Type", ct)] | None => [] end ++
  match allow r with Some a => [(lit "Allow", allow_to_header_value a)] | None => [] end.

(** Whether a dedicated field takes the place of the extra header [f]. *)
Definition shadowed (r : Response) (f : bytes * bytes) : bool :=
  bool_decide (is_Some (content_type r)) && eq_ignore_ascii_case f.1 (lit "content-type")
  || bool_decide (is_Some (allow r)) && eq_ignore_ascii_case f.1 (lit "allow").

(** The fields the program set. *)
Definition app_fields (r : Response) : list (bytes * bytes) :=
  dedicated_fields r ++ List.filter (λ f, negb (shadowed r f)) (extra_headers r).

Definition close_fields (keep_alive : bool) : list (bytes * bytes) :=
  if keep_alive then [] else [(lit "Connection", lit "close")].

Definition fixed_fields (keep_alive : bool) (r : Response) : list (bytes * bytes) :=
  app_fields r ++ (lit "Content-Length", to_decimal (len (r_body r))) :: close_fields keep_alive.

Definition chunked_fields (keep_alive : bool) (r : Response) : list (bytes * bytes) :=
  app_fields r ++
  (if is_bodyless_status (status r) then [] else [(lit "Transfer-Encoding", lit "chunked")]) ++
  close_fields keep_alive.

Definition field_line (f : bytes * bytes) : bytes := f.1 ++ lit ": " ++ f.2.

Definition status_line (r : Response) : bytes :=
  lit "HTTP/1.1 " ++ to_decimal (status r) ++ [x20] ++ reason_phrase (status r).

(** A head: the lines, each ended by CRLF, and the empty line. *)
Definition head_bytes (sl : bytes) (fs : list (bytes * bytes)) : bytes :=
  concat ((λ l, l ++ CRLF) <$> sl :: (field_line <$> fs)) ++ CRLF.

Lemma head_bytes_join sl fs : head_bytes sl fs = join CRLF (sl :: (field_line <$> fs)) ++ TERMINATOR.
Proof.
  unfold head_bytes. generalize (field_line <$> fs). intros ls. revert sl.
  induction ls as [|l ls IH]; intros sl.
  - cbn [fmap list_fmap concat]. rewrite app_nil_r, <- (assoc_L (++)). done.
  - rewrite join_cons, fmap_cons. cbn [concat]. rewrite <- !(assoc_L (++)). f_equal. f_equal.
    rewrite <- IH. done.
Qed.

Lemma write_fields_app r out :
  write_fields r out = out ++ concat ((λ l, l ++ CRLF) <$> (field_line <$> app_fields r)).
Proof.
  unfold write_fields, app_fields, dedicated_fields.
  assert (∀ l out, foldl (λ out f,
           if bool_decide (is_Some (content_type r)) && eq_ignore_ascii_case f.1 (lit "content-type")
           then out
           else if bool_decide (is_Some (allow r)) && eq_ignore_ascii_case f.1 (lit "allow")
           then out
           else write_field out f) out l
    = out ++ concat ((λ l, l ++ CRLF) <$> (field_line <$> List.filter (λ f, negb (shadowed r f)) l))) as Hf.
  { intros l. induction l as [|f l IH]; intros o; simpl; [by rewrite app_nil_r|].
    rewrite IH. unfold shadowed at 2. destruct (_ && _); simpl; [done|].
    destruct (_ && _); simpl; [done|]. unfold write_field, field_line.
    by rewrite <- !(assoc_L (++)). }
  rewrite Hf, !fmap_app, concat_app, (assoc_L (++)). f_equal.
  destruct (content_type r), (allow r); cbn [fmap list_fmap app concat];
    unfold field_line; rewrite ?app_nil_r; repeat rewrite <- (assoc_L (++)); done.
Qed.

Lemma digits_rev_stable radix f1 f2 n :
  (2 ≤ radix)%N → (n < radix ^ N.of_nat f1)%N → (n < radix ^ N.of_nat f2)%N → 0 < f1 → 0 < f2 →
  digits_rev f1 radix n = digits_rev f2 radix n.
Proof.
  intros Hr. revert f2 n. induction f1 as [|f1 IH]; intros f2 n H1 H2 Hp1 Hp2; [lia|].
  destruct f2 as [|f2]; [lia|]. simpl. f_equal.
  destruct (n / radix =? 0)%N eqn:E; [done|]. bool_to_prop.
  rewrite Nat2N.inj_succ, N.pow_succ_r' in H1, H2.
  assert (∀ f, (n < radix * radix ^ N.of_nat f)%N → (n / radix < radix ^ N.of_nat f)%N ∧ 0 < f) as Hd.
  { intros f Hf. assert (n / radix < radix ^ N.of_nat f)%N as Hlt
      by (apply N.Div0.div_lt_upper_bound; exact Hf).
    split; [done|]. destruct f; [|lia]. simpl in Hlt. by apply N.lt_1_r in Hlt. }
  destruct (Hd f1 H1), (Hd f2 H2). by apply IH.
Qed.

Lemma write_decimal_loop_rev fuel n acc :
  0 < fuel → (n < 10 ^ N.of_nat fuel)%N →
  write_decimal_loop fuel n acc = reverse (digits_rev fuel 10 n) ++ acc.
Proof.
  revert n acc. induction fuel as [|f IH]; intros n acc Hp Hn; [lia|].
  simpl. rewrite reverse_cons, <- (assoc_L (++)).
  assert (digit_char (n mod 10) = byte_of (48 + n mod 10)) as Hc.
  { unfold digit_char. by rewrite (proj2 (N.ltb_lt _ _)) by (by apply N.mod_lt). }
  rewrite Hc. destruct (n / 10 =? 0)%N eqn:E; [done|]. bool_to_prop.
  rewrite Nat2N.inj_succ, N.pow_succ_r' in Hn.
  assert (n / 10 < 10 ^ N.of_nat f)%N as Hlt by (apply N.Div0.div_lt_upper_bound; exact Hn).
  apply IH; [|done]. destruct f; [|lia]. by apply N.lt_1_r in Hlt.
Qed.

(** [write_decimal] prints what [to_string] prints, for every machine integer. *)
Lemma write_decimal_to_decimal out n : (n ≤ u64_max)%N → write_decimal out n = out ++ to_decimal n.
Proof.
  intros Hn. unfold write_decimal, to_decimal, to_radix.
  assert (n < 10 ^ N.of_nat 20)%N as H20.
  { eapply N.le_lt_trans; [exact Hn|]. by vm_compute. }
  rewrite write_decimal_loop_rev, app_nil_r by (lia || done). do 2 f_equal.
  apply digits_rev_stable; try lia; try done.
  rewrite Nat2N.inj_succ, N2Nat.id. destruct (N.eq_dec n 0%N) as [->|Hz]; [done|].
  eapply N.lt_le_trans; [apply N.log2_spec; lia|].
  apply N.pow_le_mono_l. lia.
Qed.

(** ** Every line reads as the field it was written from *)

Lemma forbidden_value_byte_ctl b : forbidden_value_byte b = is_forbidden_ctl b true.
Proof. by destruct b. Qed.

Lemma trim_ows_str_mid o1 v o2 :
  forallb is_ows o1 = true → forallb is_ows o2 = true → trimmed v → (v = [] → o2 = []) →
  trim_ows_str (o1 ++ v ++ o2) = v.
Proof.
  intros H1 H2 [Hh Hl] He. apply forallb_Forall in H1, H2.
  unfold trim_ows_str, trim_matches, trim_end_matches.
  rewrite trim_start_matches_app by done. destruct v as [|c v].
  - rewrite He by done. done.
  - assert (trim_start_matches is_ows ((c :: v) ++ o2) = (c :: v) ++ o2) as ->.
    { cbn [app]. apply trim_start_matches_head. by eapply Hh. }
    rewrite reverse_app, trim_start_matches_app by (by apply Forall_reverse).
    destruct (exists_last (l := c :: v)) as (w & d & E); [done|]. rewrite E.
    rewrite reverse_app. cbn [reverse app]. rewrite reverse_singleton. cbn [app].
    rewrite trim_start_matches_head by (by eapply Hl).
    by rewrite reverse_cons, reverse_involutive.
Qed.

(** A header line of the request grammar (a token, a colon, a value without control bytes)
    that carries the name and, outer blanks apart, the value of [f]. *)
Definition reads_as (line : bytes) (f : bytes * bytes) : Prop :=
  ∃ g, line = field_text g ∧ field_ok g ∧ f_name g = f.1 ∧ f_value g = trim_ows_str f.2.

Lemma field_line_reads f : token f.1 → value_ok f.2 → reads_as (field_line f) f.
Proof.
  destruct f as [n v]. simpl. intros Hn [Hc Hu].
  destruct (ows_decompose v) as (o1 & w & o2 & -> & H1 & H2 & Ht & He).
  exists {| f_name := n; f_ows1 := x20 :: o1; f_value := w; f_ows2 := o2 |}.
  cbn [fst snd f_name f_value]. rewrite trim_ows_str_mid by done. split_and!; [done| |done..].
  constructor; simpl; try done.
  - rewrite !existsb_app in Hc. apply orb_false_iff in Hc as [_ Hc].
    apply orb_false_iff in Hc as [Hc _].
    apply existsb_false_Forall in Hc. apply existsb_false_Forall.
    eapply Forall_impl; [exact Hc|]. intros b Hb. cbn beta in *. by rewrite <- forbidden_value_byte_ctl.
  - rewrite utf8_valid_app in Hu by (by apply ows_utf8).
    destruct o2 as [|c o2]; [by rewrite app_nil_r in Hu|].
    simpl in H2. apply andb_prop in H2 as [Hc2 _].
    rewrite utf8_valid_split in Hu by (by apply ows_ascii). by apply andb_prop in Hu as [Hu _].
Qed.

Lemma join_value_ok ms : Forall token ms → value_ok (join (lit ", ") ms).
Proof.
  assert (∀ m, token m → value_ok m) as Htok.
  { intros m [_ Hm]. apply part_no_forbidden. eapply forallb_impl; [|exact Hm].
    intros b Hb. by_bytes b. }
  assert (∀ a b, value_ok a → value_ok b → value_ok (a ++ b)) as Happ.
  { intros a b [A1 A2] [B1 B2]. split; [by rewrite existsb_app, A1|by rewrite utf8_valid_app]. }
  induction 1 as [|m ms Hm _ IH]; [by split|].
  destruct ms as [|m2 ms]; [by apply Htok|]. rewrite join_cons. auto.
Qed.

Lemma app_fields_ok r : response_wf r → Forall (λ f, token f.1 ∧ value_ok f.2) (app_fields r).
Proof.
  intros [Hct Ha Hh]. unfold app_fields, dedicated_fields. repeat apply Forall_app_2.
  - destruct (content_type r); repeat constructor; by try apply Hct.
  - destruct (allow r) as [a|]; constructor; [|constructor]. split; [done|].
    apply join_value_ok. by apply Ha.
  - apply Forall_forall. intros f [Hf _]%list_elem_of_In%filter_In.
    rewrite Forall_forall in Hh. apply list_elem_of_In in Hf. by destruct (Hh f Hf) as (? & ? & _).
Qed.

Lemma to_decimal_value_ok n : value_ok (to_decimal n).
Proof.
  apply part_no_forbidden. eapply forallb_impl; [|apply to_decimal_digits].
  intros b Hb. by_bytes b.
Qed.

Lemma fixed_fields_ok ka r : response_wf r → Forall (λ f, token f.1 ∧ value_ok f.2) (fixed_fields ka r).
Proof.
  intros H. apply Forall_app. split; [by apply app_fields_ok|]. constructor.
  - split; [done|apply to_decimal_value_ok].
  - destruct ka; repeat constructor; done.
Qed.

Lemma chunked_fields_ok ka r :
  response_wf r → Forall (λ f, token f.1 ∧ value_ok f.2) (chunked_fields ka r).
Proof.
  intros H. unfold chunked_fields. rewrite !Forall_app. split_and!; [by apply app_fields_ok|..].
  - destruct (is_bodyless_status _); repeat constructor; done.
  - destruct ka; repeat constructor; done.
Qed.

Lemma status_line_ok r : contains x0d (status_line r) = false ∧ contains x0a (status_line r) = false.
Proof.
  assert (∀ c, is_ascii_digit c = false → contains c (to_decimal (status r)) = false) as Hd.
  { intros c Hc. pose proof (to_decimal_digits (status r)) as H. apply forallb_Forall in H.
    apply contains_false. eapply Forall_impl; [exact H|]. intros x Hx ->. congruence. }
  assert (contains x0d (reason_phrase (status r)) = false ∧ contains x0a (reason_phrase (status r)) = false)
    as [H1 H2] by (unfold reason_phrase; repeat case_match; done).
  unfold status_line. by rewrite !contains_app, H1, H2, !Hd.
Qed.

Lemma status_line_ne r : status_line r ≠ [].
Proof. unfold status_line. by intros [? _]%app_eq_nil. Qed.

Lemma field_text_no_lf f : field_ok f → contains x0a (field_text f) = false.
Proof.
  intros [[_ Hn] H1 H2 _ _ Hc _]. unfold field_text.
  rewrite contains_app, (tchar_contains x0a) by done. cbn [orb].
  change (contains x0a (f_ows1 f ++ f_value f ++ f_ows2 f) = false).
  rewrite !contains_app, (contains_forallb is_ows x0a _ H1),
    (contains_forallb is_ows x0a _ H2), (contains_existsb _ x0a _ Hc) by done. done.
Qed.

(** What a recipient finds: [wire] is the head whose lines are the status line and lines that
    read as [fs], then the empty line, and it is the first empty line of [wire]; [rest] follows. *)
Definition head_reads (wire sl : bytes) (fs : list (bytes * bytes)) (rest : bytes) : Prop :=
  ∃ lines, wire = join CRLF (sl :: lines) ++ TERMINATOR ++ rest
    ∧ find_sub TERMINATOR wire = Some (length (join CRLF (sl :: lines)))
    ∧ Forall (λ l, contains x0d l = false ∧ contains x0a l = false) (sl :: lines)
    ∧ Forall2 reads_as lines fs.

Lemma head_bytes_reads r fs rest :
  Forall (λ f, token f.1 ∧ value_ok f.2) fs →
  head_reads (head_bytes (status_line r) fs ++ rest) (status_line r) fs rest.
Proof.
  intros HF. exists (field_line <$> fs). rewrite head_bytes_join, <- (assoc_L (++)).
  assert (Forall2 reads_as (field_line <$> fs) fs) as Hr.
  { apply Forall2_fmap_l. induction HF as [|f fs [Hn Hv] _ IH]; constructor; [|done].
    by apply field_line_reads. }
  assert (Forall (λ l, contains x0d l = false ∧ contains x0a l = false) (status_line r :: (field_line <$> fs)))
    as Hc.
  { constructor; [apply status_line_ok|]. clear HF.
    induction Hr as [|l f ls fs' (g & -> & Hg & _) _ IH]; constructor; [|done].
    split; [by apply field_text_no_cr|by apply field_text_no_lf]. }
  split_and!; [reflexivity| |exact Hc|exact Hr]. apply find_terminator; [done|].
  constructor; [split; [exact (proj1 (status_line_ok r))|apply status_line_ne]|].
  apply Forall_cons in Hc as [_ Hc]. apply Forall_fmap. apply Forall_fmap in Hc.
  apply Forall_forall. intros f Hf. rewrite Forall_forall in HF, Hc. split; [exact (proj1 (Hc f Hf))|].
  destruct (HF f Hf) as [[Hn _] _]. unfold field_line. by intros [? _]%app_eq_nil.
Qed.

(** The values the fields [fs] give to [name]. *)
Definition values_of (name : bytes) (fs : list (bytes * bytes)) : list bytes :=
  snd <$> List.filter (λ f, eq_ignore_ascii_case f.1 name) fs.

Lemma values_of_app name fs gs : values_of name (fs ++ gs) = values_of name fs ++ values_of name gs.
Proof. unfold values_of. by rewrite List.filter_app, fmap_app. Qed.

Lemma app_fields_unreserved r name :
  response_wf r → name ∈ RESERVED → values_of name (app_fields r) = [].
Proof.
  intros [_ _ Hh] Hname. unfold app_fields, dedicated_fields. rewrite !values_of_app.
  assert (values_of name match content_type r with Some ct => [(lit "Content-Type", ct)] | None => [] end = []
    ∧ values_of name match allow r with Some a => [(lit "Allow", allow_to_header_value a)] | None => [] end = [])
    as [-> ->].
  { unfold RESERVED in Hname. repeat (apply elem_of_cons in Hname as [->|Hname]);
      [..|by apply elem_of_nil in Hname]; destruct (content_type r), (allow r); split; reflexivity. }
  simpl. unfold values_of. induction Hh as [|f l (_ & _ & Hres) _ IH]; [done|].
  simpl. destruct (negb (shadowed r f)); [|done]. simpl.
  assert (eq_ignore_ascii_case f.1 name = false) as ->; [|done].
  unfold reserved in Hres. apply existsb_false_Forall in Hres. rewrite Forall_forall in Hres. auto.
Qed.

Lemma serialize_bytes ka r :
  (len (r_body r) ≤ u64_max)%N → (status r ≤ u16_max)%N →
  serialize ka r = head_bytes (status_line r) (fixed_fields ka r) ++ r_body r.
Proof.
  intros Hb Hs. unfold serialize, serialize_into. cbv zeta.
  assert (status r ≤ u64_max)%N by (unfold u16_max, u64_max in *; lia).
  rewrite !write_decimal_to_decimal, write_fields_app by done.
  unfold head_bytes, fixed_fields, status_line. rewrite !fmap_cons, !fmap_app, !fmap_cons.
  cbn [concat]. rewrite concat_app. cbn [concat]. rewrite <- !(assoc_L (++)).
  destruct ka; cbn [negb close_fields fmap list_fmap concat]; unfold field_line;
    cbn [fst snd]; rewrite <- !(assoc_L (++)); done.
Qed.

Lemma chunked_head_bytes ka r :
  serialize_chunked_head ka r = head_bytes (status_line r) (chunked_fields ka r).
Proof.
  unfold serialize_chunked_head. cbv zeta. rewrite write_fields_app.
  unfold head_bytes, chunked_fields, status_line. rewrite fmap_cons, !fmap_app.
  cbn [concat]. rewrite !concat_app, <- !(assoc_L (++)).
  destruct (is_bodyless_status (status r)), ka;
    cbn [negb close_fields fmap list_fmap concat]; unfold field_line;
    cbn [fst snd]; rewrite ?app_nil_r, <- ?(assoc_L (++)); cbn [app]; reflexivity.
Qed.

Lemma http10_head_bytes r :
  serialize_streaming_head_http10 r
  = head_bytes (status_line r) (app_fields r ++ close_fields false).
Proof.
  unfold serialize_streaming_head_http10. cbv zeta. rewrite write_fields_app.
  unfold head_bytes, status_line. rewrite fmap_cons, !fmap_app.
  cbn [concat]. rewrite concat_app, <- !(assoc_L (++)). reflexivity.
Qed.

(** ** The claims *)

(** C12: no response splitting.  Every response that can be built serialises to a status line,
    one line per field and the body behind the first empty line: no line contains CR or LF,
    each line reads (in the grammar of header fields) as the field it was written from, and
    the framing is the framework's: exactly one [Content-Length], the length of the body, no
    [Transfer-Encoding], and [Connection: close] exactly when the connection ends. *)
Theorem serialize_sound r keep_alive :
  response_built r → (len (r_body r) ≤ u64_max)%N → (status r ≤ u16_max)%N →
  let fs := fixed_fields keep_alive r in
  head_reads (serialize keep_alive r) (status_line r) fs (r_body r)
  ∧ values_of (lit "content-length") fs = [to_decimal (len (r_body r))]
  ∧ values_of (lit "transfer-encoding") fs = []
  ∧ values_of (lit "connection") fs = if keep_alive then [] else [lit "close"].
Proof.
  intros Hw%response_built_wf Hb Hs fs. subst fs. rewrite serialize_bytes by done.
  split; [by apply head_bytes_reads, fixed_fields_ok|].
  unfold fixed_fields. rewrite !values_of_app, !app_fields_unreserved by (done || set_solver).
  destruct keep_alive; split_and!; reflexivity.
Qed.

(** the heads of streamed responses are sound in the same sense, whatever follows them.
    With HTTP/1.1 they announce the chunked coding, except for the statuses that have no body,
    and never a [Content-Length]; with HTTP/1.0 neither, and the connection always ends. *)
Theorem streaming_head_sound r keep_alive rest :
  response_built r →
  let fs := chunked_fields keep_alive r in
  let fs10 := app_fields r ++ close_fields false in
  head_reads (serialize_chunked_head keep_alive r ++ rest) (status_line r) fs rest
  ∧ values_of (lit "content-length") fs = []
  ∧ values_of (lit "transfer-encoding") fs
    = (if is_bodyless_status (status r) then [] else [lit "chunked"])
  ∧ values_of (lit "connection") fs = (if keep_alive then [] else [lit "close"])
  ∧ head_reads (serialize_streaming_head_http10 r ++ rest) (status_line r) fs10 rest
  ∧ values_of (lit "content-length") fs10 = [] ∧ values_of (lit "transfer-encoding") fs10 = []
  ∧ values_of (lit "connection") fs10 = [lit "close"].
Proof.
  intros Hw%response_built_wf fs fs10. subst fs fs10. rewrite chunked_head_bytes, http10_head_bytes.
  split; [by apply head_bytes_reads, chunked_fields_ok|].
  unfold chunked_fields. rewrite !values_of_app, !app_fields_unreserved by (done || set_solver).
  destruct (is_bodyless_status (status r)), keep_alive; split_and!; try reflexivity;
    (apply head_bytes_reads, Forall_app; split; [by apply app_fields_ok|]; repeat constructor; done).
Qed.

(** The push of a header whose validation would have succeeded and given the same response. *)
Definition checked_push (name value : bytes) (before after : Response) : Prop :=
  with_header name value before = Ok after.

(** The builders that push a header without validating it ([with_set_cookie], [see_other],
    [with_no_store]) do exactly what the validating [with_header] would: the validation would
    succeed on every value their argument types allow. *)
Theorem unchecked_pushes_valid :
  (∀ c r, cookie_built c →
     checked_push (lit "Set-Cookie") (set_cookie_to_header_value c) r (with_set_cookie c r))
  ∧ (∀ v l, utf8_valid v = true → SameOriginLocation_new v = Ok l →
       checked_push (lit "Location") (loc_value l) (response_empty 303) (see_other l))
  ∧ (∀ r, with_no_store r = r
          ∨ checked_push (lit "Cache-Control") (lit "no-store") r (with_no_store r)).
Proof.
  unfold checked_push.
  split_and!; [apply with_set_cookie_checked|apply see_other_checked|apply with_no_store_checked].
Qed.

(** [AllowedMethods::from_methods] succeeds exactly on non-empty lists of tokens, and then
    lists each method once, in strictly increasing order. *)
Theorem from_methods_spec ms :
  match from_methods ms with
  | Some a => (∀ m, m ∈ methods a ↔ m ∈ ms) ∧ Sorted bytes_lt (methods a) ∧ Forall token ms
  | None => ms = [] ∨ ¬ Forall token ms
  end.
Proof.
  destruct (from_methods ms) as [a|] eqn:E.
  - by apply from_methods_Some in E as (_ & ? & ? & ?).
  - unfold from_methods in E. case_bool_decide; [by left|right].
    destruct (existsb _ ms) eqn:Ex; [|done]. intros HF.
    assert (existsb (λ m, bool_decide (m = []) || negb (forallb is_tchar m)) ms = false); [|congruence].
    apply existsb_false_Forall. eapply Forall_impl; [exact HF|]. intros m [Hm Ht].
    by rewrite bool_decide_false, Ht.
Qed.

(** [r'] is [r] with the headers [hs] behind its own. *)
Definition adds (r r' : Response) (hs : list (bytes * bytes)) : Prop :=
  status r' = status r ∧ r_body r' = r_body r ∧ content_type r' = content_type r
  ∧ allow r' = allow r ∧ extra_headers r' = extra_headers r ++ hs.

Lemma adds_nil r : adds r r [].
Proof. unfold adds. by rewrite app_nil_r. Qed.

Lemma adds_trans r1 r2 r3 a b : adds r1 r2 a → adds r2 r3 b → adds r1 r3 (a ++ b).
Proof. unfold adds. intros (?&?&?&?&E1) (?&?&?&?&E2). rewrite E2, E1, (assoc_L (++)). intuition congruence. Qed.

(** The fields of the response cover [field] in [Vary]. *)
Definition varies_on (field : bytes) (r : Response) : Prop :=
  existsb (λ m, str_eqb m (lit "*") || eq_ignore_ascii_case m field)
    (extra_values (lit "vary") r ≫= list_members) = true.

(** Field names that [with_vary] can list; decided by evaluation for a constant name. *)
Definition vary_name (field : bytes) : bool :=
  negb (str_eqb field (lit "*")) && negb (bool_decide (field = [])) && forallb is_tchar field
  && negb (existsb forbidden_value_byte field) && bool_decide (list_members field = [field]).

Lemma with_vary_adds field r :
  vary_name field = true →
  ∃ r' hs, with_vary field r = Ok r' ∧ adds r r' hs
    ∧ (hs = [] ∨ hs = [(lit "Vary", field)]) ∧ varies_on field r'.
Proof.
  unfold vary_name. rewrite !andb_true_iff, !negb_true_iff. intros ((((H1 & H2) & H3) & H4) & H5).
  apply bool_decide_eq_true in H5. unfold with_vary. rewrite H1, H2, H3. cbn [negb andb orb].
  destruct (existsb _ (extra_values _ _ ≫= _)) eqn:E.
  - exists r, []. split_and!; [done|apply adds_nil|by left|exact E].
  - assert (with_header (lit "Vary") field r = Ok (push_header (lit "Vary") field r)) as ->
      by (apply with_header_Ok; split_and!; [split; by vm_compute|done|by vm_compute|done]).
    eexists _, [(lit "Vary", field)]. split_and!; [done|repeat split|by right|].
    unfold varies_on, extra_values. cbn [push_header extra_headers].
    rewrite List.filter_app, fmap_app, bind_app, existsb_app. apply orb_true_iff. right.
    change (snd <$> List.filter _ [(lit "Vary", field)]) with [field]. cbn [mbind list_bind].
    rewrite H5, app_nil_r. cbn [existsb]. by rewrite eq_ignore_ascii_case_refl, orb_true_r.
Qed.

(** ** Witnesses *)

Definition demo_response : Response :=
  push_header (lit "X-Id") (lit " 7 ") (with_content_type (lit "text/plain") (response_new 200 (lit "hi"))).

Lemma demo_response_built : response_built demo_response.
Proof.
  apply (built_header (lit "X-Id") (lit " 7 ")
    (with_content_type (lit "text/plain") (response_new 200 (lit "hi")))); [done|vm_compute; reflexivity|].
  apply built_content_type; [by split; vm_compute|constructor].
Qed.

Lemma serialize_sound_witness :
  head_reads (serialize false demo_response) (lit "HTTP/1.1 200 OK")
    [(lit "Content-Type", lit "text/plain"); (lit "X-Id", lit " 7 ");
     (lit "Content-Length", lit "2"); (lit "Connection", lit "close")] (lit "hi").
Proof.
  destruct (serialize_sound demo_response false demo_response_built) as (H & _);
    [by vm_compute|by vm_compute|]. exact H.
Defined.

Lemma streaming_head_sound_witness :
  head_reads (serialize_chunked_head true demo_response ++ lit "2") (lit "HTTP/1.1 200 OK")
    [(lit "Content-Type", lit "text/plain"); (lit "X-Id", lit " 7 ");
     (lit "Transfer-Encoding", lit "chunked")] (lit "2").
Proof.
  destruct (streaming_head_sound demo_response true (lit "2") demo_response_built) as (H & _).
  exact H.
Defined.
