(* ===== verification/Error.v ===== *)
(** * [http::error]: error responses

    [error_response] wraps a message in a JSON object; [HttpError], [FormError] and results are
    turned into responses through it.  [json_read] is the reading end: the string a JSON parser
    finds. *)

From S2P Require Import Prelude Text Utf8 Radix Percent Form Request Cookie Location Response ResponseSpec.

(** [format!("\\u{:04x}", n)]. *)
Definition json_u_escape (n : N) : bytes :=
  lit "\u" ++ replicate (4 - length (to_hex n)) x30 ++ to_hex n.

(** One character of [escape_json_string]; the characters it treats are ASCII, so each is one
    byte and the bytes of the others are copied. *)
Definition escape_json_char (ch : byte) : bytes :=
  if beqb ch x22 then [x5c; x22]
  else if beqb ch x5c then [x5c; x5c]
  else if beqb ch x08 then lit "\b"
  else if beqb ch x0c then lit "\f"
  else if beqb ch x0a then lit "\n"
  else if beqb ch x0d then lit "\r"
  else if beqb ch x09 then lit "\t"
  else if (bv ch <? 32)%N then json_u_escape (bv ch)
  else [ch].

Definition escape_json_string (input out : bytes) : bytes := out ++ (input ≫= escape_json_char).

Definition error_response (status : N) (message : bytes) : Response :=
  let body := lit "{" ++ [x22] ++ lit "error" ++ [x22] ++ lit ":" ++ [x22] in
  let body := escape_json_string message body in
  let body := body ++ [x22] ++ lit "}" in
  with_content_type (lit "application/json") (response_new status body).

(** ** [IntoResponse] *)

Record HttpError := { he_status : N; he_message : bytes }.

Class IntoResponse (A : Type) := into_response : A → Response.

#[export] Instance into_response_Response : IntoResponse Response := λ r, r.
#[export] Instance into_response_HttpError : IntoResponse HttpError :=
  λ e, error_response (he_status e) (he_message e).
#[export] Instance into_response_result {T E} `{IntoResponse T, IntoResponse E} :
  IntoResponse (result T E) := λ r, match r with Ok t => into_response t | Err e => into_response e end.

(** [impl From<FormError> for HttpError]. *)
Definition http_error_of_form (err : FormError) : HttpError :=
  match err with
  | BodyTooLong => {| he_status := 413; he_message := lit "form body too large" |}
  | FormTooManyPairs => {| he_status := 413; he_message := lit "too many form fields" |}
  | InvalidUtf8Body => {| he_status := 400; he_message := lit "form body is not valid UTF-8" |}
  | Decode _ => {| he_status := 400; he_message := lit "invalid form encoding" |}
  end.

#[export] Instance into_response_FormError : IntoResponse FormError :=
  λ e, into_response (http_error_of_form e).

(** ** Reading JSON strings *)

(** The value of a four-digit escape below 128. *)
Definition json_code (a b c d : byte) : option byte :=
  match digits_value 16 0 [a; b; c; d] with
  | Some v => if (v <? 128)%N then Some (byte_of v) else None
  | None => None
  end.

Definition json_simple_escape (b : byte) : option byte :=
  if beqb b x22 then Some x22 else if beqb b x5c then Some x5c
  else if beqb b x2f then Some x2f else if beqb b x62 then Some x08
  else if beqb b x66 then Some x0c else if beqb b x6e then Some x0a
  else if beqb b x72 then Some x0d else if beqb b x74 then Some x09 else None.

(** The contents of a JSON string literal from behind its opening quote, and what follows its
    closing quote; control characters must be escaped. *)
Fixpoint json_read (s : bytes) : option (bytes * bytes) :=
  match s with
  | [] => None
  | c :: s =>
      if beqb c x22 then Some ([], s)
      else if beqb c x5c then
        match s with
        | e :: s =>
            if beqb e x75 then
              match s with
              | a :: b :: c :: d :: s =>
                  let! x := json_code a b c d else None in
                  let! (w, rest) := json_read s else None in Some (x :: w, rest)
              | _ => None
              end
            else
              let! x := json_simple_escape e else None in
              let! (w, rest) := json_read s else None in Some (x :: w, rest)
        | [] => None
        end
      else if (bv c <? 32)%N then None
      else let! (w, rest) := json_read s else None in Some (c :: w, rest)
  end.

(** The three shapes an escaped byte can have. *)
Lemma escape_json_char_shape b :
  (escape_json_char b = [b] ∧ beqb b x22 = false ∧ beqb b x5c = false ∧ (bv b <? 32)%N = false)
  ∨ (∃ e, escape_json_char b = [x5c; e] ∧ beqb e x75 = false ∧ json_simple_escape e = Some b)
  ∨ (∃ p q r s, escape_json_char b = [x5c; x75; p; q; r; s] ∧ json_code p q r s = Some b).
Proof.
  destruct b;
    first [left; split_and!; vm_compute; reflexivity
          |right; left; eexists; split_and!; [vm_compute; reflexivity|vm_compute; reflexivity..]
          |right; right; eexists _, _, _, _; split; [vm_compute; reflexivity|vm_compute; reflexivity]].
Qed.

Lemma json_read_escaped m rest :
  json_read ((m ≫= escape_json_char) ++ x22 :: rest) = Some (m, rest).
Proof.
  induction m as [|b m IH]; [done|].
  change ((b :: m) ≫= escape_json_char) with (escape_json_char b ++ (m ≫= escape_json_char)).
  rewrite <- (assoc_L (++)).
  destruct (escape_json_char_shape b) as [(-> & H1 & H2 & H3)|[(e & -> & H1 & H2)|(p & q & r & s & -> & H)]];
    cbn [app json_read].
  - by rewrite H1, H2, H3, IH.
  - change (beqb x5c x22) with false. change (beqb x5c x5c) with true. cbn iota.
    by rewrite H1, H2, IH.
  - change (beqb x5c x22) with false. change (beqb x5c x5c) with true.
    change (beqb x75 x75) with true. cbn iota. by rewrite H, IH.
Qed.

(** whatever the message, the body of an error response is the JSON object with the member
    [error] whose value a JSON reader reads back as exactly the message, with only the closing
    brace behind it; the response is one the serialiser accepts. *)
Theorem error_response_json status message :
  ∃ rest, r_body (error_response status message)
    = lit "{" ++ [x22] ++ lit "error" ++ [x22] ++ lit ":" ++ x22 :: rest
  ∧ json_read rest = Some (message, lit "}")
  ∧ response_built (error_response status message).
Proof.
  exists ((message ≫= escape_json_char) ++ x22 :: lit "}"). split_and!.
  - unfold error_response, escape_json_string. cbn [with_content_type r_body response_new].
    by rewrite <- !(assoc_L (++)).
  - apply json_read_escaped.
  - apply built_content_type; [by split; vm_compute|constructor].
Qed.
