(* ===== verification/RoutePattern.v ===== *)
(** * [routes::pattern]: path patterns with parameters

    [parse_pattern] accepts exactly the well-formed patterns ([render_segments] is its inverse),
    and [match_segments] succeeds exactly on the instances of a pattern ([instance_of]), with
    the values that make the instance. *)

From S2P Require Import Prelude Text Utf8.

Inductive RoutePatternError :=
| MissingLeadingSlash
| EmptyParamName
| InvalidParamName (name : bytes)
| MixedSegment (seg : bytes)
| DuplicateParamName (name : bytes)
| EmptySegment
| NoParamSegment
| WildcardNotLast (seg : bytes).
#[export] Instance RoutePatternError_eq_dec : EqDecision RoutePatternError.
Proof. solve_decision. Defined.

Inductive Segment :=
| Literal (l : bytes)
| Param (name : bytes)
| Wildcard (name : bytes).
#[export] Instance Segment_eq_dec : EqDecision Segment.
Proof. solve_decision. Defined.

(** [PathParams]. *)
Definition PathParams : Type := list (bytes * bytes).

Definition params_get (name : bytes) (self : PathParams) : option bytes :=
  snd <$> List.find (λ p, str_eqb p.1 name) self.

Definition params_len (self : PathParams) : nat := length self.
Definition params_is_empty (self : PathParams) : bool := bool_decide (self = []).

Definition split_segments (pattern : bytes) : list bytes :=
  let trimmed := default pattern (strip_prefix [x2f] pattern) in
  if bool_decide (trimmed = []) then [] else split x2f trimmed.

Definition request_target_segments (target : bytes) : option (list bytes) :=
  let! stripped := strip_prefix [x2f] target else None in
  Some (if bool_decide (stripped = []) then [] else split x2f stripped).

Definition is_name_byte (b : byte) : bool := is_ascii_alphanumeric b || beqb b x5f.

(** One round of the loop of [parse_pattern]: the names seen so far with the new one, and the
    segment; [is_last] is [index == last_index]. *)
Definition parse_segment (is_last : bool) (seen : list bytes) (raw : bytes) :
    result (list bytes * Segment) RoutePatternError :=
  if bool_decide (raw = []) then Err EmptySegment
  else if starts_with [x7b] raw && ends_with [x7d] raw && (2 <=? length raw) then
    let inner := slice raw (Range 1 (length raw - 1)) in
    let '(is_wildcard, name) := match strip_prefix [x2a] inner with
                                | Some rest => (true, rest)
                                | None => (false, inner)
                                end in
    if bool_decide (name = []) then Err EmptyParamName
    else if negb (forallb is_name_byte name) then Err (InvalidParamName name)
    else if existsb (str_eqb name) seen then Err (DuplicateParamName name)
    else if is_wildcard && negb is_last then Err (WildcardNotLast raw)
    else Ok (seen ++ [name], if is_wildcard then Wildcard name else Param name)
  else if contains x7b raw || contains x7d raw then Err (MixedSegment raw)
  else Ok (seen, Literal raw).

Fixpoint parse_segments (index last_index : nat) (seen : list bytes) (raws : list bytes) :
    result (list bytes * list Segment) RoutePatternError :=
  match raws with
  | [] => Ok (seen, [])
  | raw :: raws =>
      let? (seen, seg) := parse_segment (index =? last_index) seen raw in
      let? (seen, segs) := parse_segments (S index) last_index seen raws in
      Ok (seen, seg :: segs)
  end.

(** [has_param] is whether a name was pushed. *)
Definition parse_pattern (pattern : bytes) : result (list Segment) RoutePatternError :=
  if negb (starts_with [x2f] pattern) then Err MissingLeadingSlash
  else
    let raw_segments := split_segments pattern in
    let last_index := length raw_segments - 1 in
    let? (seen, segments) := parse_segments 0 last_index [] raw_segments in
    if bool_decide (seen = []) then Err NoParamSegment else Ok segments.

Definition is_safe_segment_value (value : bytes) : bool :=
  negb (bool_decide (value = [])) && negb (str_eqb value (lit ".")) && negb (str_eqb value (lit ".."))
  && negb (contains x3f value) && negb (contains x23 value).

(** The loop over the zipped prefixes. *)
Fixpoint match_prefix (segments : list Segment) (values : list bytes) (params : PathParams) :
    option PathParams :=
  match segments, values with
  | segment :: segments, value :: values =>
      match segment with
      | Literal l => if negb (str_eqb l value) then None else match_prefix segments values params
      | Param name =>
          if negb (is_safe_segment_value value) then None
          else match_prefix segments values (params ++ [(name, value)])
      | Wildcard _ => None
      end
  | _, _ => Some params
  end.

Definition match_segments (segments : list Segment) (target_segments : list bytes) (path : bytes) :
    option PathParams :=
  let wildcard_name := match last segments with Some (Wildcard name) => Some name | _ => None end in
  let prefix_len := if bool_decide (is_Some wildcard_name) then length segments - 1
                    else length segments in
  if (if bool_decide (is_Some wildcard_name) then length target_segments <? length segments
      else negb (length segments =? length target_segments))
  then None
  else
    let! params := match_prefix (take prefix_len segments) (take prefix_len target_segments) []
      else None in
    match wildcard_name with
    | None => Some params
    | Some name =>
        let tail := drop prefix_len target_segments in
        if negb (forallb is_safe_segment_value tail) then None
        else
          let start := foldl (λ start seg, start + length seg + 1) 1 (take prefix_len target_segments) in
          Some (params ++ [(name, drop start path)])
    end.

Definition segment_equivalent (x y : Segment) : bool :=
  match x, y with
  | Literal lx, Literal ly => str_eqb lx ly
  | Param _, Param _ => true
  | Wildcard _, Wildcard _ => true
  | _, _ => false
  end.

Definition segments_equivalent (a b : list Segment) : bool :=
  (length a =? length b) && forallb (λ p, segment_equivalent p.1 p.2) (zip a b).

Definition render_segment (segment : Segment) : bytes :=
  match segment with
  | Literal l => l
  | Param name => lit "{" ++ name ++ lit "}"
  | Wildcard name => lit "{*" ++ name ++ lit "}"
  end.

Definition render_segments (segments : list Segment) : bytes :=
  foldl (λ out segment, out ++ x2f :: render_segment segment) [] segments.

(** ** Well-formed patterns *)

Definition seg_name (s : Segment) : option bytes :=
  match s with
  | Literal _ => None
  | Param name | Wildcard name => Some name
  end.

Definition name_ok (name : bytes) : Prop := name ≠ [] ∧ forallb is_name_byte name = true.

Definition seg_ok (s : Segment) : Prop :=
  match s with
  | Literal l => l ≠ [] ∧ contains x2f l = false ∧ contains x7b l = false ∧ contains x7d l = false
  | Param name | Wildcard name => name_ok name
  end.

Definition is_wild (s : Segment) : bool := match s with Wildcard _ => true | _ => false end.

Fixpoint wild_last (segs : list Segment) : Prop :=
  match segs with
  | [] => True
  | s :: segs => (is_wild s = true → segs = []) ∧ wild_last segs
  end.

(** Segments of a well-formed pattern: sound names, none twice, at least one, and a wildcard
    only at the end. *)
Record pattern_ok (segs : list Segment) : Prop := {
  po_segs : Forall seg_ok segs;
  po_names : NoDup (omap seg_name segs);
  po_param : omap seg_name segs ≠ [];
  po_wild : wild_last segs;
}.

Lemma name_byte_no c name :
  is_name_byte c = false → forallb is_name_byte name = true → contains c name = false.
Proof.
  intros Hc Hn. apply contains_false. apply forallb_Forall in Hn.
  eapply Forall_impl; [exact Hn|]. simpl. intros x Hx ->. congruence.
Qed.

Lemma braces_slice name :
  slice (lit "{" ++ name ++ lit "}") (Range 1 (length (lit "{" ++ name ++ lit "}") - 1)) = name.
Proof. apply slice_app_mid; [done|]. rewrite !length_app. simpl. lia. Qed.

Lemma braces_inv raw :
  starts_with [x7b] raw && ends_with [x7d] raw && (2 <=? length raw) = true →
  ∃ inner, raw = lit "{" ++ inner ++ lit "}".
Proof.
  intros H. bool_to_prop. apply starts_with_spec in H as [a ->]. apply ends_with_spec in H1 as [b Hb].
  destruct b as [|c b]; simplify_eq/=. by exists b.
Qed.

Lemma braces_test name :
  starts_with [x7b] (lit "{" ++ name ++ lit "}") && ends_with [x7d] (lit "{" ++ name ++ lit "}")
  && (2 <=? length (lit "{" ++ name ++ lit "}")) = true.
Proof.
  assert (starts_with [x7b] (lit "{" ++ name ++ lit "}") = true) as ->
    by (apply starts_with_spec; by exists (name ++ lit "}")).
  assert (ends_with [x7d] (lit "{" ++ name ++ lit "}") = true) as ->
    by (apply ends_with_spec; by exists (lit "{" ++ name)).
  apply Nat.leb_le. rewrite !length_app. simpl. lia.
Qed.

Lemma existsb_str_eqb name seen : existsb (str_eqb name) seen = false ↔ name ∉ seen.
Proof.
  rewrite existsb_false_Forall, Forall_forall. split.
  - intros H Hin. specialize (H _ Hin). by rewrite str_eqb_refl in H.
  - intros H x Hx. apply not_true_iff_false. by intros ->%str_eqb_eq.
Qed.

(** One segment: accepted exactly when it is the text of a sound segment. *)
Lemma parse_segment_Ok is_last seen raw seen' seg :
  contains x2f raw = false →
  parse_segment is_last seen raw = Ok (seen', seg) ↔
  seg_ok seg ∧ raw = render_segment seg ∧ seen' = seen ++ option_list (seg_name seg)
  ∧ (∀ n, seg_name seg = Some n → n ∉ seen) ∧ (is_wild seg = true → is_last = true).
Proof.
  intros Hs. unfold parse_segment. split.
  - case_bool_decide as Hn; [done|]. destruct (_ && _) eqn:E.
    + apply braces_inv in E as [inner ->]. rewrite braces_slice.
      destruct (strip_prefix [x2a] inner) as [rest|] eqn:Ew.
      * apply strip_prefix_Some in Ew as ->. intros H. repeat (case_first_in H; [done|]).
        bool_to_prop. simplify_eq/=. apply existsb_str_eqb in Heqb1.
        split_and!; try done; [by intros n [= <-]|by destruct is_last].
      * intros H. repeat (case_first_in H; [done|]).
        bool_to_prop. simplify_eq/=. apply existsb_str_eqb in Heqb1.
        split_and!; try done. by intros n [= <-].
    + destruct (_ || _) eqn:Ec; [done|]. intros [= <- <-]. bool_to_prop. simpl.
      by rewrite app_nil_r.
  - intros (Hok & -> & -> & Hseen & Hlast). destruct seg as [l|name|name];
      cbn [seg_ok seg_name is_wild render_segment option_list] in *.
    + destruct Hok as (Hl & _ & H1 & H2). rewrite bool_decide_false by done.
      assert (starts_with [x7b] l = false) as ->.
      { apply not_true_iff_false. intros [r ->]%starts_with_spec. done. }
      by rewrite H1, H2, app_nil_r.
    + destruct Hok as [Hn Hb]. rewrite bool_decide_false by done.
      rewrite (braces_test name), (braces_slice name).
      assert (strip_prefix [x2a] name = None) as ->.
      { destruct name as [|c name]; [done|]. simpl. case_first; [|done]. apply beqb_eq in Heqb. by subst. }
      cbn beta iota. rewrite bool_decide_false, Hb, (proj2 (existsb_str_eqb name seen)) by auto. done.
    + destruct Hok as [Hn Hb]. rewrite bool_decide_false by done.
      change (lit "{*" ++ name ++ lit "}") with (lit "{" ++ (x2a :: name) ++ lit "}").
      rewrite (braces_test (x2a :: name)), (braces_slice (x2a :: name)). cbn [strip_prefix].
      change (beqb x2a x2a) with true. cbn beta iota.
      rewrite bool_decide_false, Hb, (proj2 (existsb_str_eqb name seen)), Hlast by auto. done.
Qed.

Lemma parse_segments_Ok index last_index seen raws seen' segs :
  Forall (λ r, contains x2f r = false) raws → index + length raws = S last_index ∨ raws = [] →
  parse_segments index last_index seen raws = Ok (seen', segs) ↔
  Forall seg_ok segs ∧ raws = render_segment <$> segs ∧ seen' = seen ++ omap seg_name segs
  ∧ NoDup (omap seg_name segs) ∧ (∀ n, n ∈ omap seg_name segs → n ∉ seen) ∧ wild_last segs.
Proof.
  intros Hr. revert index seen seen' segs. induction Hr as [|raw raws Hraw _ IH];
    intros index seen seen' segs Hi; cbn [parse_segments].
  - split.
    + intros [= <- <-]. split_and!; try done; [by rewrite app_nil_r|constructor|set_solver].
    + intros (_ & E & -> & _). symmetry in E. apply fmap_nil_inv in E as ->. by rewrite app_nil_r.
  - assert (S index + length raws = S last_index ∨ raws = []) as Hi'.
    { destruct Hi as [Hi|]; [|done]. simpl in Hi. left. lia. }
    assert ((index =? last_index) = true ↔ raws = []) as Hlast.
    { rewrite Nat.eqb_eq. destruct Hi as [Hi|]; [|done]. simpl in Hi.
      split; [intros ->; destruct raws; [done|simpl in Hi; lia]|intros ->; simpl in Hi; lia]. }
    split.
    + intros ((s1 & seg) & Hseg & H)%rbind_Ok. apply rbind_Ok in H as ((s2 & segs') & Hsegs & [= <- <-]).
      apply parse_segment_Ok in Hseg as (Hok & -> & -> & Hnew & Hw); [|done].
      apply IH in Hsegs as (H1 & -> & -> & H2 & H3 & H4); [|done]. cbn [omap list_omap].
      split_and!; [by constructor|done| | | |].
      * rewrite <- (assoc_L (++)). by destruct (seg_name seg).
      * destruct (seg_name seg) as [n|] eqn:En; [|done]. constructor; [|done].
        intros Hin. apply (H3 n Hin). set_solver.
      * intros n Hin. destruct (seg_name seg) as [m|] eqn:En; [|set_solver].
        apply elem_of_cons in Hin as [->|Hin]; [by apply Hnew|]. specialize (H3 n Hin). set_solver.
      * split; [|done]. intros Hsw. specialize (Hw Hsw). apply Hlast in Hw. by apply fmap_nil_inv in Hw.
    + intros (HF & E & -> & Hnd & Hnew & Hw). destruct segs as [|seg segs]; [done|].
      injection E as -> ->. apply Forall_cons in HF as [Hok HF]. destruct Hw as [Hw1 Hw2].
      cbn [omap list_omap] in *.
      rewrite (proj2 (parse_segment_Ok _ seen _ (seen ++ option_list (seg_name seg)) seg Hraw)).
      * cbn [rbind]. rewrite (proj2 (IH (S index) _ (seen ++ omap seg_name (seg :: segs)) segs Hi')); [done|].
        cbn [omap list_omap]. destruct (seg_name seg) as [n|] eqn:En; cbn [option_list].
        -- apply NoDup_cons in Hnd as [Hn Hnd]. split_and!; try done; [by rewrite <- (assoc_L (++))|set_solver].
        -- rewrite app_nil_r. by split_and!.
      * split_and!; try done; [intros n Hn; apply Hnew; rewrite Hn; by left|].
        intros Hsw. apply Hlast. by rewrite (Hw1 Hsw).
Qed.

Lemma render_segments_app segs out :
  foldl (λ out segment, out ++ x2f :: render_segment segment) out segs
  = out ++ concat ((λ s, x2f :: render_segment s) <$> segs).
Proof.
  revert out. induction segs as [|s segs IH]; intros out; simpl; [by rewrite app_nil_r|].
  by rewrite IH, <- (assoc_L (++)).
Qed.

Lemma render_segments_join seg segs :
  render_segments (seg :: segs) = x2f :: join [x2f] (render_segment <$> seg :: segs).
Proof.
  unfold render_segments. rewrite render_segments_app. cbn [app].
  revert seg. induction segs as [|s segs IH]; intros seg.
  - cbn. by rewrite app_nil_r.
  - rewrite fmap_cons. cbn [concat]. rewrite IH. rewrite !fmap_cons, join_cons. done.
Qed.

Lemma render_segment_no_slash s : seg_ok s → contains x2f (render_segment s) = false ∧ render_segment s ≠ [].
Proof.
  destruct s as [l|n|n]; cbn [seg_ok render_segment].
  - by intros (? & ? & _).
  - intros [_ Hn]. by rewrite !contains_app, (name_byte_no x2f n).
  - intros [_ Hn]. by rewrite !contains_app, (name_byte_no x2f n).
Qed.

Lemma split_render segs :
  Forall seg_ok segs → segs ≠ [] → split_segments (render_segments segs) = render_segment <$> segs.
Proof.
  intros HF Hn. destruct segs as [|seg segs]; [done|]. rewrite render_segments_join.
  unfold split_segments. cbn [strip_prefix default]. rewrite beqb_refl. cbn [default].
  assert (Forall (λ r, contains x2f r = false) (render_segment <$> seg :: segs)) as Hs.
  { apply Forall_fmap. eapply Forall_impl; [exact HF|]. intros s Hok. by apply render_segment_no_slash. }
  rewrite bool_decide_false; [by apply split_join|].
  apply Forall_cons in HF as [Hok _]. destruct (render_segment_no_slash seg Hok) as [_ Hne].
  rewrite fmap_cons. destruct (render_segment <$> segs); [done|]. rewrite join_cons.
  by intros [? _]%app_eq_nil.
Qed.

Lemma parse_pattern_Ok pattern segs :
  parse_pattern pattern = Ok segs ↔ pattern_ok segs ∧ pattern = render_segments segs.
Proof.
  unfold parse_pattern. split.
  - destruct (starts_with [x2f] pattern) eqn:E; [|done]. cbn [negb].
    apply starts_with_spec in E as [r ->].
    assert (split_segments ([x2f] ++ r) = if bool_decide (r = []) then [] else split x2f r) as Es.
    { unfold split_segments. by rewrite strip_prefix_app. }
    intros ((seen & segs') & H & Hs)%rbind_Ok. case_bool_decide as Hne; [done|]. simplify_eq.
    rewrite Es in H. clear Es. destruct (bool_decide (r = [])); [by simplify_eq/=|]. apply parse_segments_Ok in H as (H1 & H2 & H3 & H4 & H5 & H6).
    + simpl in H3. subst seen. split; [by split|].
      destruct segs as [|seg segs]; [done|]. rewrite render_segments_join, <- H2. by rewrite join_split.
    + apply split_no_sep.
    + left. pose proof (split_not_nil x2f r). destruct (split x2f r); [done|]. simpl. lia.
  - intros [[H1 H2 H3 H4] ->]. destruct segs as [|seg segs]; [done|].
    assert (starts_with [x2f] (render_segments (seg :: segs)) = true) as ->.
    { apply starts_with_spec. rewrite render_segments_join. by eexists. }
    cbn [negb]. rewrite split_render by done.
    set (names := omap seg_name (seg :: segs)) in *.
    rewrite (proj2 (parse_segments_Ok 0 (length (render_segment <$> seg :: segs) - 1) []
      (render_segment <$> seg :: segs) names (seg :: segs)
      ltac:(apply Forall_fmap; eapply Forall_impl; [exact H1|intros s Hok; by apply render_segment_no_slash])
      ltac:(left; rewrite length_fmap; simpl; lia))).
    + cbn [rbind]. by rewrite bool_decide_false.
    + split_and!; try done. set_solver.
Qed.

(** ** Instances of a pattern *)

(** A value a parameter may take: one path segment, not a dot segment, no [?] and no [#]. *)
Definition value_ok (v : bytes) : Prop := is_safe_segment_value v = true ∧ contains x2f v = false.

Inductive instance_of : list Segment → PathParams → bytes → Prop :=
| inst_nil : instance_of [] [] []
| inst_literal l segs ps s :
    instance_of segs ps s → instance_of (Literal l :: segs) ps (x2f :: l ++ s)
| inst_param n v segs ps s :
    value_ok v → instance_of segs ps s →
    instance_of (Param n :: segs) ((n, v) :: ps) (x2f :: v ++ s)
| inst_wildcard n vs :
    vs ≠ [] → Forall value_ok vs →
    instance_of [Wildcard n] [(n, join [x2f] vs)] (x2f :: join [x2f] vs).

(** A segment of a matching target and what it binds, wildcards apart. *)
Inductive prefix_match : list Segment → list bytes → PathParams → Prop :=
| pm_nil : prefix_match [] [] []
| pm_literal l segs vs ps : prefix_match segs vs ps → prefix_match (Literal l :: segs) (l :: vs) ps
| pm_param n v segs vs ps :
    is_safe_segment_value v = true → prefix_match segs vs ps →
    prefix_match (Param n :: segs) (v :: vs) ((n, v) :: ps).

Definition part_ok (v : bytes) : Prop := contains x2f v = false ∧ v ≠ [].

(** Segments with their slashes. *)
Definition slashed (vs : list bytes) : bytes := concat ((x2f ::.) <$> vs).

Lemma match_prefix_spec segs vs acc params :
  length segs = length vs →
  match_prefix segs vs acc = Some params ↔ ∃ ps, params = acc ++ ps ∧ prefix_match segs vs ps.
Proof.
  revert vs acc. induction segs as [|seg segs IH]; intros [|v vs] acc Hl; try done.
  - cbn. split.
    + intros [= <-]. exists []. rewrite app_nil_r. split; [done|constructor].
    + intros (ps & -> & H). inversion H. by rewrite app_nil_r.
  - injection Hl as Hl. cbn [match_prefix]. destruct seg as [l|n|n].
    + destruct (str_eqb l v) eqn:E; cbn [negb].
      * apply str_eqb_eq in E as ->. rewrite IH by done. split; intros (ps & -> & H);
          exists ps; (split; [done|]); [by constructor|by inversion H].
      * split; [done|]. intros (ps & _ & H). inversion H; subst. by rewrite str_eqb_refl in E.
    + destruct (is_safe_segment_value v) eqn:E; cbn [negb].
      * rewrite IH by done. split.
        -- intros (ps & -> & H). exists ((n, v) :: ps). rewrite <- (assoc_L (++)).
           split; [done|by constructor].
        -- intros (ps & -> & H). inversion H as [| |? ? ? ? ps' ? H']; subst.
           exists ps'. by rewrite <- (assoc_L (++)).
      * split; [done|]. intros (ps & _ & H). inversion H; congruence.
    + split; [done|]. intros (ps & _ & H). inversion H.
Qed.

Lemma prefix_match_length segs vs ps : prefix_match segs vs ps → length segs = length vs.
Proof. induction 1; simpl; congruence. Qed.

Lemma safe_nonempty v : is_safe_segment_value v = true → v ≠ [].
Proof. unfold is_safe_segment_value. intros H ->. done. Qed.

Lemma value_ok_part v : value_ok v → part_ok v.
Proof. intros [H1 H2]. split; [done|by apply safe_nonempty]. Qed.

Lemma prefix_match_parts segs vs ps :
  Forall seg_ok segs → prefix_match segs vs ps → Forall (λ v, v ≠ []) vs.
Proof.
  intros Hs H. induction H; constructor; apply Forall_cons in Hs as [Hok Hs]; auto.
  - by destruct Hok.
  - by apply safe_nonempty.
Qed.

(** Instances of a pattern without a wildcard, and of one with a wildcard at the end. *)
Lemma instance_prefix segs tail_segs ps s :
  Forall seg_ok segs → Forall (λ x, is_wild x = false) segs →
  instance_of (segs ++ tail_segs) ps s ↔
  ∃ vs ps1 ps2 s2, ps = ps1 ++ ps2 ∧ s = slashed vs ++ s2 ∧ prefix_match segs vs ps1
    ∧ Forall part_ok vs ∧ instance_of tail_segs ps2 s2.
Proof.
  intros Hok. revert ps s. induction Hok as [|seg segs Hseg _ IH]; intros ps s Hw.
  - split.
    + intros H. exists [], [], ps, s. by split_and!; try constructor.
    + intros (vs & ps1 & ps2 & s2 & -> & -> & H & _ & H2). by inversion H; subst.
  - apply Forall_cons in Hw as [Hw1 Hw]. destruct seg as [l|n|n]; [..|done]; cbn [app].
    + split.
      * intros H. inversion H as [|? ? ? s' H'| |]; subst. apply IH in H' as (vs & ps1 & ps2 & s2 & -> & -> & H1 & H2 & H3); [|done].
        exists (l :: vs), ps1, ps2, s2. unfold slashed. cbn [fmap list_fmap concat app].
        rewrite <- (assoc_L (++)). split_and!; try done; [by constructor|].
        constructor; [|done]. destruct Hseg as (? & ? & _). by split.
      * intros (vs & ps1 & ps2 & s2 & -> & -> & H1 & H2 & H3). inversion H1 as [|? ? vs' ? H1'|]; subst.
        apply Forall_cons in H2 as [_ H2]. unfold slashed. cbn [fmap list_fmap concat app].
        rewrite <- (assoc_L (++)). constructor. apply IH; [done|]. by exists vs', ps1, ps2, s2.
    + split.
      * intros H. inversion H as [| |? v ? ps' s' Hv H'|]; subst.
        apply IH in H' as (vs & ps1 & ps2 & s2 & -> & -> & H1 & H2 & H3); [|done].
        exists (v :: vs), ((n, v) :: ps1), ps2, s2. unfold slashed. cbn [fmap list_fmap concat app].
        rewrite <- (assoc_L (++)). split_and!; try done; [constructor; [apply Hv|done]|].
        constructor; [by apply value_ok_part|done].
      * intros (vs & ps1 & ps2 & s2 & -> & -> & H1 & H2 & H3). inversion H1 as [| |? v ? vs' ps' Hv H1']; subst.
        apply Forall_cons in H2 as [[Hns _] H2]. unfold slashed. cbn [fmap list_fmap concat app].
        rewrite <- (assoc_L (++)). constructor; [by split|]. apply IH; [done|]. by exists vs', ps', ps2, s2.
Qed.

Lemma slashed_app a b : slashed (a ++ b) = slashed a ++ slashed b.
Proof. unfold slashed. by rewrite fmap_app, concat_app. Qed.

Lemma slashed_join v vs : slashed (v :: vs) = x2f :: join [x2f] (v :: vs).
Proof.
  revert v. induction vs as [|w vs IH]; intros v.
  - unfold slashed. cbn. by rewrite app_nil_r.
  - rewrite join_cons. change (slashed (v :: w :: vs)) with (x2f :: v ++ slashed (w :: vs)).
    by rewrite IH.
Qed.

(** The segments of a target are the parts between its slashes. *)
Lemma target_segments_slashed vs :
  Forall part_ok vs → vs ≠ [] → request_target_segments (slashed vs) = Some vs.
Proof.
  intros HF Hn. destruct vs as [|v vs]; [done|]. rewrite slashed_join.
  unfold request_target_segments. cbn [strip_prefix]. rewrite beqb_refl.
  rewrite bool_decide_false.
  - rewrite split_join; [done|done|]. eapply Forall_impl; [exact HF|]. by intros x [].
  - apply Forall_cons in HF as [[_ Hv] _]. destruct vs; [done|]. rewrite join_cons.
    by intros [? _]%app_eq_nil.
Qed.

Lemma target_segments_inv path ts :
  request_target_segments path = Some ts → ts ≠ [] →
  path = slashed ts ∧ Forall (λ v, contains x2f v = false) ts.
Proof.
  unfold request_target_segments. destruct (strip_prefix [x2f] path) as [r|] eqn:E; [|done].
  apply strip_prefix_Some in E as ->. case_bool_decide; intros [= <-] Hn; [done|].
  split; [|apply split_no_sep]. pose proof (join_split x2f r) as Hj.
  destruct (split x2f r) as [|v vs]; [done|]. rewrite slashed_join, Hj. done.
Qed.

Lemma wild_last_cases segs :
  wild_last segs →
  (Forall (λ x, is_wild x = false) segs ∧ ∀ n, last segs ≠ Some (Wildcard n))
  ∨ ∃ pre n, segs = pre ++ [Wildcard n] ∧ Forall (λ x, is_wild x = false) pre.
Proof.
  induction segs as [|s segs IH]; intros Hw; [by left|]. destruct Hw as [H1 H2].
  destruct (is_wild s) eqn:E.
  - right. rewrite (H1 eq_refl). destruct s as [| |n]; try done. exists [], n. by split; [|constructor].
  - destruct (IH H2) as [[HF Hl]|(pre & n & -> & HF)].
    + left. split; [by constructor|]. intros n. destruct segs; [simpl; by intros [= ->]|].
      rewrite last_cons_cons. apply Hl.
    + right. exists (s :: pre), n. split; [done|by constructor].
Qed.

Lemma start_offset vs k :
  foldl (λ start seg, start + length seg + 1) k vs = k + length (slashed vs).
Proof.
  revert k. induction vs as [|v vs IH]; intros k; [unfold slashed; simpl; lia|]. cbn [foldl].
  rewrite IH. change (slashed (v :: vs)) with (x2f :: v ++ slashed vs). cbn [length]. rewrite length_app. lia.
Qed.

Lemma forallb_safe_values tail :
  Forall (λ v, contains x2f v = false) tail →
  forallb is_safe_segment_value tail = true ↔ Forall value_ok tail.
Proof.
  induction 1 as [|v tail Hv _ IH]; simpl; [by split; constructor|].
  rewrite Forall_cons, andb_true_iff, IH. unfold value_ok. tauto.
Qed.

(** [parse_pattern] accepts exactly the texts of well-formed patterns: parsing and
    [render_segments] are inverse to each other. *)
Theorem parse_pattern_roundtrip pattern segs :
  parse_pattern pattern = Ok segs ↔ pattern_ok segs ∧ pattern = render_segments segs.
Proof. apply parse_pattern_Ok. Qed.

Lemma match_no_wildcard segs path ts params :
  pattern_ok segs → request_target_segments path = Some ts →
  Forall (λ x, is_wild x = false) segs → (∀ n, last segs ≠ Some (Wildcard n)) →
  match_segments segs ts path = Some params ↔ instance_of segs params path.
Proof.
  intros [Hok _ Hp _] Hts Hw Hl.
  assert (segs ≠ []) as Hne by (by intros ->).
  assert (match last segs with Some (Wildcard name) => Some name | _ => None end = None) as Hwn.
  { destruct (last segs) as [[]|]; try done. by destruct (Hl name). }
  rewrite <- (app_nil_r segs), instance_prefix, app_nil_r by done.
  unfold match_segments. rewrite Hwn. cbn -[match_prefix]. rewrite firstn_all.
  destruct (length segs =? length ts) eqn:El; bool_to_prop; cbn [negb].
  - rewrite take_ge by lia. split.
    + destruct (match_prefix segs ts []) as [p|] eqn:E; [|done]. intros [= ->].
      apply match_prefix_spec in E as (ps & -> & Hm); [|done].
      assert (ts ≠ []) as Htn by (intros ->; by destruct segs).
      destruct (target_segments_inv _ _ Hts Htn) as [-> Hsl].
      exists ts, ps, [], []. rewrite !app_nil_r. split_and!; try done; [|constructor].
      apply Forall_and. split; [done|by eapply prefix_match_parts].
    + intros (vs & ps1 & ps2 & s2 & -> & -> & Hm & Hparts & H). inversion H; subst. rewrite app_nil_r in Hts.
      rewrite target_segments_slashed in Hts; [|done|].
      * injection Hts as <-. rewrite (proj2 (match_prefix_spec segs vs [] ps1 El)); [by rewrite app_nil_r|].
        by exists ps1.
      * intros ->. apply prefix_match_length in Hm. by destruct segs.
  - split; [done|]. intros (vs & ps1 & ps2 & s2 & -> & -> & Hm & Hparts & H). inversion H; subst.
    rewrite app_nil_r in Hts. pose proof (prefix_match_length _ _ _ Hm).
    rewrite target_segments_slashed in Hts; [by injection Hts as <-|done|]. intros ->. by destruct segs.
Qed.

Lemma match_wildcard pre n path ts params :
  pattern_ok (pre ++ [Wildcard n]) → request_target_segments path = Some ts →
  Forall (λ x, is_wild x = false) pre →
  match_segments (pre ++ [Wildcard n]) ts path = Some params
  ↔ instance_of (pre ++ [Wildcard n]) params path.
Proof.
  intros [Hok _ _ _] Hts Hw. apply Forall_app in Hok as [Hok _].
  rewrite instance_prefix by done. unfold match_segments. rewrite last_snoc, length_app.
  change (bool_decide (is_Some (Some n))) with true. cbn beta zeta iota. cbn [length].
  replace (length pre + 1 - 1) with (length pre) by lia.
  rewrite take_app_length. destruct (length ts <? length pre + 1) eqn:El; bool_to_prop.
  - split; [done|]. intros (vs & ps1 & ps2 & s2 & -> & -> & Hm & Hparts & H).
    inversion H as [| | |? ws Hne Hws]; subst. exfalso.
    rewrite (prefix_match_length _ _ _ Hm) in El.
    destruct ws as [|w ws]; [done|]. rewrite <- slashed_join, <- slashed_app in Hts.
    rewrite target_segments_slashed in Hts.
    + injection Hts as <-. rewrite length_app in El. simpl in El. lia.
    + apply Forall_app. split; [done|]. eapply Forall_impl; [exact Hws|]. apply value_ok_part.
    + by intros [_ ?]%app_eq_nil.
  - assert (ts ≠ []) as Htn by (intros ->; simpl in El; lia). split.
    + destruct (target_segments_inv _ _ Hts Htn) as [-> Hsl].
      destruct (match_prefix pre (take (length pre) ts) []) as [p|] eqn:E; [|done].
      apply match_prefix_spec in E as (ps & -> & Hm); [|rewrite length_take; lia].
      rewrite <- (take_drop (length pre) ts) in Hsl |- *. apply Forall_app in Hsl as [Hs1 Hs2].
      set (vs := take (length pre) ts) in *. rewrite drop_app_exact by (by apply prefix_match_length in Hm).
      rewrite take_app_exact by (by apply prefix_match_length in Hm).
      assert (drop (length pre) ts ≠ []) as Hd.
      { intros Hd. apply (f_equal length) in Hd. rewrite length_drop in Hd. simpl in Hd. lia. }
      destruct (forallb is_safe_segment_value (drop (length pre) ts)) eqn:Ef; [|done]. cbn [negb].
      apply forallb_safe_values in Ef; [|done].
      destruct (drop (length pre) ts) as [|w ws]; [done|].
      rewrite start_offset, slashed_app, slashed_join. cbn [app].
      rewrite drop_middle by done. intros [= <-].
      eexists vs, ps, _, _. split_and!; [done..| |exact (inst_wildcard n (w :: ws) Hd Ef)].
      apply Forall_and. split; [done|by eapply prefix_match_parts].
    + intros (vs & ps1 & ps2 & s2 & -> & -> & Hm & Hparts & H).
      inversion H as [| | |? ws Hne Hws]; subst.
      pose proof (prefix_match_length _ _ _ Hm) as Hl.
      destruct ws as [|w ws]; [done|]. rewrite <- slashed_join, <- slashed_app in *.
      rewrite target_segments_slashed in Hts.
      * injection Hts as <-. rewrite take_app_exact, drop_app_exact by done.
        rewrite (proj2 (match_prefix_spec pre vs [] ps1 Hl)) by (by exists ps1).
        assert (forallb is_safe_segment_value (w :: ws) = true) as ->.
        { apply forallb_safe_values; [|done]. eapply Forall_impl; [exact Hws|]. by intros ? []. }
        cbn [negb]. rewrite start_offset, slashed_app, slashed_join. by rewrite drop_middle.
      * apply Forall_app. split; [done|]. eapply Forall_impl; [exact Hws|]. apply value_ok_part.
      * by intros [_ ?]%app_eq_nil.
Qed.

(** matching is correct for every well-formed pattern and every path: [match_segments]
    succeeds exactly when the path is an instance of the pattern (each parameter one path
    segment that is not empty, not [.] or [..] and without [?] or [#]; a wildcard one or more
    of them), and the parameters it returns are the ones of that instance: the slice it takes
    for a wildcard is exactly the rest of the path. *)
Theorem match_segments_spec segs path ts params :
  pattern_ok segs → request_target_segments path = Some ts →
  match_segments segs ts path = Some params ↔ instance_of segs params path.
Proof.
  intros Hok Hts. destruct (wild_last_cases segs (po_wild _ Hok)) as [[Hw Hl]|(pre & n & -> & Hw)].
  - by apply match_no_wildcard.
  - by apply match_wildcard.
Qed.

Definition demo_pattern : list Segment := [Literal (lit "files"); Param (lit "id"); Wildcard (lit "rest")].

Lemma demo_pattern_ok : pattern_ok demo_pattern.
Proof. by apply (parse_pattern_Ok (lit "/files/{id}/{*rest}")). Qed.

Lemma match_segments_spec_witness :
  instance_of demo_pattern [(lit "id", lit "7"); (lit "rest", lit "a/b.txt")] (lit "/files/7/a/b.txt")
  ∧ ¬ ∃ ps, instance_of demo_pattern ps (lit "/files/7/a/../b").
Proof.
  split.
  - apply (match_segments_spec demo_pattern (lit "/files/7/a/b.txt")
      [lit "files"; lit "7"; lit "a"; lit "b.txt"]); [apply demo_pattern_ok|reflexivity|].
    vm_compute. reflexivity.
  - intros [ps H].
    apply (match_segments_spec demo_pattern (lit "/files/7/a/../b")
      [lit "files"; lit "7"; lit "a"; lit ".."; lit "b"]) in H;
      [|apply demo_pattern_ok|reflexivity].
    vm_compute in H. discriminate.
Defined.
