(* ===== verification/Routes.v ===== *)
(** * [routes]: the router

    A [Router] maps static paths and methods to handlers, keeps the parameter routes in
    registration order, and decides between them, the fallbacks and the 404 and 405 responses.
    Handlers and their futures are abstract.  The hash maps are [gmap]s; the order in which they
    are iterated is a parameter ([HashOrder]), since the hasher decides it. *)

From stdpp Require Import sorting.
From S2P Require Import Prelude Text Utf8 Extensions Request RequestSpec Response ResponseSpec RoutePattern.

(** The iteration order of a hash map: every entry once. *)
Class HashOrder := {
  hash_entries : ∀ {A : Type}, gmap bytes A → list (bytes * A);
  hash_entries_perm : ∀ {A : Type} (m : gmap bytes A), hash_entries m ≡ₚ map_to_list m;
}.

Program Definition sorted_order : HashOrder := {| hash_entries A m := map_to_list m |}.
Next Obligation. done. Qed.

Section routes.
Context {AT : AnyTypes} {Fut : Type} (ready : Response → Fut).

Definition RouteHandler : Type := RequestHead → bytes → Fut.
Definition ParamRouteHandler : Type := RequestHead → PathParams → bytes → Fut.
Definition OptionsFallbackHandler : Type := RequestHead → AllowedMethods → bytes → Response.

Inductive FallbackPolicy := NotFoundOnly | IncludeMethodNotAllowed.

Inductive RouterMergeError :=
| DuplicateRoute (method path : bytes)
| DuplicateParamRoute (method pattern : bytes)
| ConflictingFallback
| ConflictingOptionsFallback.

Record ParamRoute := {
  pr_method : bytes;
  pr_segments : list Segment;
  pr_handler : ParamRouteHandler;
}.

Record Router := {
  routes : gmap bytes (gmap bytes RouteHandler);
  param_routes : list ParamRoute;
  options_fallback : option OptionsFallbackHandler;
  fallback : option (FallbackPolicy * RouteHandler);
}.

Definition router_new : Router :=
  {| routes := ∅; param_routes := []; options_fallback := None; fallback := None |}.

Definition route_async (method path : bytes) (handler : RouteHandler) (self : Router) : Router :=
  {| routes := <[path := <[method := handler]> (default ∅ (routes self !! path))]> (routes self);
     param_routes := param_routes self; options_fallback := options_fallback self;
     fallback := fallback self |}.

Definition route (method path : bytes) (handler : RequestHead → bytes → Response) (self : Router) : Router :=
  route_async method path (λ head body, ready (handler head body)) self.

Definition route_param_async (method pattern : bytes) (handler : ParamRouteHandler) (self : Router) :
    result Router RoutePatternError :=
  let? segments := parse_pattern pattern in
  Ok {| routes := routes self;
        param_routes := param_routes self ++
          [{| pr_method := method; pr_segments := segments; pr_handler := handler |}];
        options_fallback := options_fallback self; fallback := fallback self |}.

Definition route_param (method pattern : bytes)
    (handler : RequestHead → PathParams → bytes → Response) (self : Router) :
    result Router RoutePatternError :=
  route_param_async method pattern (λ head params body, ready (handler head params body)) self.

Definition set_options_fallback (handler : OptionsFallbackHandler) (self : Router) : Router :=
  {| routes := routes self; param_routes := param_routes self;
     options_fallback := Some handler; fallback := fallback self |}.

Definition fallback_with (policy : FallbackPolicy) (handler : RequestHead → bytes → Response)
    (self : Router) : Router :=
  {| routes := routes self; param_routes := param_routes self;
     options_fallback := options_fallback self;
     fallback := Some (policy, λ head body, ready (handler head body)) |}.

Definition set_fallback (handler : RequestHead → bytes → Response) (self : Router) : Router :=
  fallback_with NotFoundOnly handler self.

(** ** [merge] *)

Section order.
Context {HO : HashOrder}.

(** The static routes both routers have, in the order the loops meet them. *)
Definition duplicate_routes (self other : Router) : list (bytes * bytes) :=
  hash_entries (routes other) ≫= λ '(path, methods),
    match routes self !! path with
    | Some self_methods =>
        omap (λ '(method, _), if bool_decide (is_Some (self_methods !! method))
                              then Some (method, path) else None) (hash_entries methods)
    | None => []
    end.

Definition same_param_route (other_route self_route : ParamRoute) : bool :=
  str_eqb (pr_method self_route) (pr_method other_route)
  && segments_equivalent (pr_segments self_route) (pr_segments other_route).

Definition duplicate_param_routes (self other : Router) : list ParamRoute :=
  param_routes other ≫= λ other_route, List.filter (same_param_route other_route) (param_routes self).

(** [self.routes.entry(path).or_default().extend(methods)] for every entry of [other]. *)
Definition extend_routes (self other : gmap bytes (gmap bytes RouteHandler)) :
    gmap bytes (gmap bytes RouteHandler) :=
  foldl (λ acc '(path, methods), <[path := methods ∪ default ∅ (acc !! path)]> acc)
    self (hash_entries other).

Definition merge (self other : Router) : result Router RouterMergeError :=
  match duplicate_routes self other with
  | (method, path) :: _ => Err (DuplicateRoute method path)
  | [] =>
      match duplicate_param_routes self other with
      | self_route :: _ =>
          Err (DuplicateParamRoute (pr_method self_route) (render_segments (pr_segments self_route)))
      | [] =>
          if bool_decide (is_Some (fallback self)) && bool_decide (is_Some (fallback other))
          then Err ConflictingFallback
          else if bool_decide (is_Some (options_fallback self))
                  && bool_decide (is_Some (options_fallback other))
          then Err ConflictingOptionsFallback
          else
            Ok {| routes := extend_routes (routes self) (routes other);
                  param_routes := param_routes self ++ param_routes other;
                  fallback := match fallback self with Some f => Some f | None => fallback other end;
                  options_fallback := match options_fallback self with
                                      | Some f => Some f | None => options_fallback other end |}
      end
  end.

(** ** [dispatch] *)

Definition build_allow (registered_methods : list bytes) : option AllowedMethods :=
  from_methods (List.filter (λ m, bool_decide (is_Some (from_methods [m]))) registered_methods).

(** The scan of the parameter routes: the handler's future when a method matches, or the
    methods collected. *)
Fixpoint scan_params (head : RequestHead) (body : bytes) (target_segments : list bytes)
    (prs : list ParamRoute) (param_methods : list bytes) : Fut + list bytes :=
  match prs with
  | [] => inr param_methods
  | pr :: prs =>
      match match_segments (pr_segments pr) target_segments (path head) with
      | None => scan_params head body target_segments prs param_methods
      | Some params =>
          if str_eqb (pr_method pr) (method head) then inl (pr_handler pr head params body)
          else scan_params head body target_segments prs (param_methods ++ [pr_method pr])
      end
  end.

Definition static_handler (self : Router) (path method : bytes) : option RouteHandler :=
  routes self !! path ≫= λ methods, methods !! method.

Definition dispatch (self : Router) (head : RequestHead) (body : bytes) : Fut :=
  match static_handler self (path head) (method head) with
  | Some handler => handler head body
  | None =>
      match (match request_target_segments (path head) with
             | Some target_segments => scan_params head body target_segments (param_routes self) []
             | None => inr []
             end) with
      | inl fut => fut
      | inr param_methods =>
          let registered_methods :=
            match routes self !! path head with
            | Some methods => (hash_entries methods).*1
            | None => []
            end ++ param_methods in
          if bool_decide (registered_methods = []) then
            match fallback self with
            | Some (_, handler) => handler head body
            | None => ready (response_empty 404)
            end
          else
            match build_allow registered_methods with
            | None =>
                match fallback self with
                | Some (IncludeMethodNotAllowed, handler) => handler head body
                | _ => ready (response_empty 405)
                end
            | Some allow =>
                let rest :=
                  match fallback self with
                  | Some (IncludeMethodNotAllowed, handler) => handler head body
                  | _ => ready (with_allow allow (response_empty 405))
                  end in
                if str_eqb (method head) (lit "OPTIONS") then
                  match options_fallback self with
                  | Some fallback => ready (fallback head allow body)
                  | None => rest
                  end
                else rest
            end
      end
  end.

End order.

(** ** Specification *)

(** Routers as programs build them. *)
Inductive router_built `{HashOrder} : Router → Prop :=
| built_router_new : router_built router_new
| built_route_async m p h r : router_built r → router_built (route_async m p h r)
| built_route_param m p h r r' :
    route_param_async m p h r = Ok r' → router_built r → router_built r'
| built_options_fallback h r : router_built r → router_built (set_options_fallback h r)
| built_fallback pol h r : router_built r → router_built (fallback_with pol h r)
| built_merge r1 r2 r : merge r1 r2 = Ok r → router_built r1 → router_built r2 → router_built r.

Definition router_wf (r : Router) : Prop := Forall (λ pr, pattern_ok (pr_segments pr)) (param_routes r).

(** [pr] has the shape of [path], with these parameters. *)
Definition pr_matches (pr : ParamRoute) (path : bytes) (ps : PathParams) : Prop :=
  instance_of (pr_segments pr) ps path.

(** Some route of the path has the method [m]. *)
Definition registered (r : Router) (path m : bytes) : Prop :=
  is_Some (static_handler r path m)
  ∨ ∃ pr ps, pr ∈ param_routes r ∧ pr_matches pr path ps ∧ pr_method pr = m.

(** [allow] lists exactly the methods of the path that are tokens, each once, in order. *)
Definition allow_of (r : Router) (path : bytes) (allow : AllowedMethods) : Prop :=
  (∀ m, m ∈ methods allow ↔ registered r path m ∧ token m) ∧ Sorted bytes_lt (methods allow).

(** What a router must do with a request; [body] is its body. *)
Inductive dispatched (r : Router) (head : RequestHead) (body : bytes) : Fut → Prop :=
| d_static h :
    static_handler r (path head) (method head) = Some h → dispatched r head body (h head body)
| d_param pr ps l1 l2 :
    static_handler r (path head) (method head) = None →
    param_routes r = l1 ++ pr :: l2 → pr_matches pr (path head) ps → pr_method pr = method head →
    (∀ q qs, q ∈ l1 → pr_matches q (path head) qs → pr_method q ≠ method head) →
    dispatched r head body (pr_handler pr head ps body)
| d_not_found :
    (∀ m, ¬ registered r (path head) m) → fallback r = None →
    dispatched r head body (ready (response_empty 404))
| d_fallback pol h :
    (∀ m, ¬ registered r (path head) m) → fallback r = Some (pol, h) →
    dispatched r head body (h head body)
| d_options allow h :
    ¬ registered r (path head) (method head) → method head = lit "OPTIONS" →
    allow_of r (path head) allow → methods allow ≠ [] → options_fallback r = Some h →
    dispatched r head body (ready (h head allow body))
| d_method_fallback h m :
    ¬ registered r (path head) (method head) → registered r (path head) m →
    (method head = lit "OPTIONS" → options_fallback r = None ∨ ∀ m, registered r (path head) m → ¬ token m) →
    fallback r = Some (IncludeMethodNotAllowed, h) → dispatched r head body (h head body)
| d_not_allowed allow :
    ¬ registered r (path head) (method head) →
    (method head = lit "OPTIONS" → options_fallback r = None) →
    (∀ h, fallback r ≠ Some (IncludeMethodNotAllowed, h)) →
    allow_of r (path head) allow → methods allow ≠ [] →
    dispatched r head body (ready (with_allow allow (response_empty 405)))
| d_not_allowed_no_token m :
    ¬ registered r (path head) (method head) → registered r (path head) m →
    (∀ m, registered r (path head) m → ¬ token m) →
    (∀ h, fallback r ≠ Some (IncludeMethodNotAllowed, h)) →
    dispatched r head body (ready (response_empty 405)).

(** ** [dispatch] implements the specification *)

Lemma parse_pattern_wf p segs : parse_pattern p = Ok segs → pattern_ok segs.
Proof. by intros [? _]%parse_pattern_Ok. Qed.

Lemma merge_Ok `{HashOrder} r1 r2 r :
  merge r1 r2 = Ok r →
  duplicate_routes r1 r2 = [] ∧ duplicate_param_routes r1 r2 = []
  ∧ (fallback r1 = None ∨ fallback r2 = None)
  ∧ (options_fallback r1 = None ∨ options_fallback r2 = None)
  ∧ routes r = extend_routes (routes r1) (routes r2)
  ∧ param_routes r = param_routes r1 ++ param_routes r2
  ∧ fallback r = match fallback r1 with Some f => Some f | None => fallback r2 end
  ∧ options_fallback r = match options_fallback r1 with Some f => Some f | None => options_fallback r2 end.
Proof.
  unfold merge. destruct (duplicate_routes r1 r2) as [|[]]; [|done].
  destruct (duplicate_param_routes r1 r2); [|done].
  destruct (_ && _) eqn:E1; [done|]. destruct (_ && _) eqn:E2 in |- *; [done|].
  intros [= <-]. simpl. split_and!; try done.
  - destruct (fallback r1), (fallback r2); auto. vm_compute in E1. done.
  - destruct (options_fallback r1), (options_fallback r2); auto. vm_compute in E2. done.
Qed.

Lemma router_built_wf `{HashOrder} r : router_built r → router_wf r.
Proof.
  unfold router_wf. induction 1 as [|m p h r _ IH|m p h r r' E _ IH|h r _ IH|pol h r _ IH|r1 r2 r E _ IH1 _ IH2];
    try done.
  - unfold route_param_async in E. apply rbind_Ok in E as (segs & Hs%parse_pattern_wf & [= <-]). simpl.
    apply Forall_app. split; [done|by apply Forall_singleton].
  - apply merge_Ok in E as (_ & _ & _ & _ & _ & -> & _). by apply Forall_app.
Qed.

Lemma instance_leading_slash segs ps path :
  instance_of segs ps path → segs ≠ [] → is_Some (request_target_segments path).
Proof.
  intros H Hn. unfold request_target_segments.
  destruct H; try done; cbn [strip_prefix]; rewrite beqb_refl; by eexists.
Qed.

Lemma pattern_ok_ne segs : pattern_ok segs → segs ≠ [].
Proof. intros [_ _ H _] ->. done. Qed.

Lemma scan_params_spec head body ts prs acc :
  request_target_segments (path head) = Some ts → Forall (λ pr, pattern_ok (pr_segments pr)) prs →
  match scan_params head body ts prs acc with
  | inl fut =>
      ∃ l1 pr l2 ps, prs = l1 ++ pr :: l2 ∧ pr_matches pr (path head) ps
        ∧ pr_method pr = method head ∧ fut = pr_handler pr head ps body
        ∧ ∀ q qs, q ∈ l1 → pr_matches q (path head) qs → pr_method q ≠ method head
  | inr ms =>
      ∃ ms', ms = acc ++ ms'
        ∧ (∀ m, m ∈ ms' ↔ ∃ pr ps, pr ∈ prs ∧ pr_matches pr (path head) ps ∧ pr_method pr = m)
        ∧ (∀ q qs, q ∈ prs → pr_matches q (path head) qs → pr_method q ≠ method head)
  end.
Proof.
  intros Hts. revert acc. induction prs as [|pr prs IH]; intros acc HF; cbn [scan_params].
  - exists []. rewrite app_nil_r. split_and!; [done| |by intros ? ? ?%elem_of_nil].
    intros m. split; [by intros ?%elem_of_nil|]. by intros (? & ? & ?%elem_of_nil & _).
  - apply Forall_cons in HF as [Hok HF].
    pose proof (λ ps, match_segments_spec (pr_segments pr) (path head) ts ps Hok Hts) as Hm.
    destruct (match_segments (pr_segments pr) ts (path head)) as [ps|].
    + assert (pr_matches pr (path head) ps) as Hps by (by apply Hm).
      destruct (str_eqb (pr_method pr) (method head)) eqn:Em.
      * apply str_eqb_eq in Em. exists [], pr, prs, ps. split_and!; try done.
        by intros ? ? ?%elem_of_nil.
      * assert (pr_method pr ≠ method head) as Hne by (intros E; by rewrite E, str_eqb_refl in Em).
        specialize (IH (acc ++ [pr_method pr]) HF). destruct (scan_params _ _ _ _ _) as [fut|ms].
        -- destruct IH as (l1 & pr' & l2 & ps' & -> & H1 & H2 & H3 & H4).
           exists (pr :: l1), pr', l2, ps'. split_and!; try done.
           intros q qs [->|Hq]%elem_of_cons; [done|by eapply H4].
        -- destruct IH as (ms' & -> & H1 & H2). exists (pr_method pr :: ms').
           rewrite <- (assoc_L (++)). split_and!; [done| |].
           ++ intros m. rewrite elem_of_cons, H1. split.
              ** intros [->|(q & qs & Hq & ? & ?)]; [exists pr, ps|exists q, qs]; split_and!; try done;
                   apply elem_of_cons; auto.
              ** intros (q & qs & [->|Hq]%elem_of_cons & ? & ?); [by left|right; by exists q, qs].
           ++ intros q qs [->|Hq]%elem_of_cons; [done|by eapply H2].
    + assert (∀ qs, ¬ pr_matches pr (path head) qs) as Hno by (intros qs ?%Hm; done).
      specialize (IH acc HF). destruct (scan_params _ _ _ _ _) as [fut|ms].
      * destruct IH as (l1 & pr' & l2 & ps' & -> & H1 & H2 & H3 & H4).
        exists (pr :: l1), pr', l2, ps'. split_and!; try done.
        intros q qs [->|Hq]%elem_of_cons Hmq; [by destruct (Hno qs)|by eapply H4].
      * destruct IH as (ms' & -> & H1 & H2). exists ms'. split_and!; [done| |].
        -- intros m. rewrite H1. split; intros (q & qs & Hq & ? & ?); exists q, qs.
           ++ split_and!; try done. by right.
           ++ apply elem_of_cons in Hq as [->|Hq]; [by destruct (Hno qs)|done].
        -- intros q qs [->|Hq]%elem_of_cons Hmq; [by destruct (Hno qs)|by eapply H2].
Qed.

Lemma build_allow_spec ms :
  match build_allow ms with
  | Some a => (∀ m, m ∈ methods a ↔ m ∈ ms ∧ token m) ∧ Sorted bytes_lt (methods a) ∧ methods a ≠ []
  | None => ∀ m, m ∈ ms → ¬ token m
  end.
Proof.
  assert (∀ m, bool_decide (is_Some (from_methods [m])) = true ↔ token m) as Htok.
  { intros m. rewrite bool_decide_eq_true. split.
    - intros [a Ha]. apply from_methods_Some in Ha as (_ & Ht & _). by apply Forall_cons in Ht as [? _].
    - intros Ht. pose proof (from_methods_spec [m]) as H. destruct (from_methods [m]); [by eexists|].
      destruct H as [|H]; [done|]. destruct H. by apply Forall_singleton. }
  unfold build_allow. set (valid := List.filter _ ms).
  assert (∀ m, m ∈ valid ↔ m ∈ ms ∧ token m) as Hv.
  { intros m. unfold valid. rewrite !list_elem_of_In, filter_In, Htok. done. }
  pose proof (from_methods_spec valid) as H. destruct (from_methods valid) as [a|] eqn:E.
  - apply from_methods_Some in E as (Hne & _ & He & Hs). split_and!; [|done|].
    + intros m. by rewrite He, Hv.
    + intros Ha. destruct valid as [|m v]; [done|]. specialize (He m). rewrite Ha in He.
      assert (m ∈ []) as ?%elem_of_nil; [|done]. apply He. by left.
  - intros m Hm Ht. destruct H as [H|H].
    + assert (m ∈ valid) as Hin by (by apply Hv). rewrite H in Hin. by apply elem_of_nil in Hin.
    + destruct H. apply Forall_forall. intros x Hx. by apply Hv.
Qed.

Lemma elem_of_hash_keys `{HashOrder} {A} (m : gmap bytes A) k : k ∈ (hash_entries m).*1 ↔ is_Some (m !! k).
Proof.
  rewrite hash_entries_perm, list_elem_of_fmap. split.
  - intros ([k' v] & -> & Hin). apply elem_of_map_to_list in Hin. by eexists.
  - intros [v Hv]. exists (k, v). split; [done|]. by apply elem_of_map_to_list.
Qed.

Lemma scan_result r head body :
  router_wf r →
  match (match request_target_segments (path head) with
         | Some ts => scan_params head body ts (param_routes r) []
         | None => inr []
         end) with
  | inl fut =>
      ∃ l1 pr l2 ps, param_routes r = l1 ++ pr :: l2 ∧ pr_matches pr (path head) ps
        ∧ pr_method pr = method head ∧ fut = pr_handler pr head ps body
        ∧ ∀ q qs, q ∈ l1 → pr_matches q (path head) qs → pr_method q ≠ method head
  | inr ms =>
      (∀ m, m ∈ ms ↔ ∃ pr ps, pr ∈ param_routes r ∧ pr_matches pr (path head) ps ∧ pr_method pr = m)
      ∧ (∀ q qs, q ∈ param_routes r → pr_matches q (path head) qs → pr_method q ≠ method head)
  end.
Proof.
  intros Hw. destruct (request_target_segments (path head)) as [ts|] eqn:Hts.
  - pose proof (scan_params_spec head body ts (param_routes r) [] Hts Hw) as H.
    destruct (scan_params _ _ _ _ _); [done|]. destruct H as (ms' & -> & H1 & H2). by split.
  - assert (∀ q qs, q ∈ param_routes r → ¬ pr_matches q (path head) qs) as Hno.
    { intros q qs Hq Hm. unfold router_wf in Hw. rewrite Forall_forall in Hw.
      destruct (instance_leading_slash _ _ _ Hm) as [ts Ht]; [by apply pattern_ok_ne, Hw|congruence]. }
    split; [|by intros q qs Hq ?%Hno]. intros m. split; [by intros ?%elem_of_nil|].
    intros (q & qs & Hq & Hm & _). by destruct (Hno q qs Hq).
Qed.

(** The methods [dispatch] collects are the registered ones. *)
Lemma registered_methods_spec `{HashOrder} r path ms :
  (∀ m, m ∈ ms ↔ ∃ pr ps, pr ∈ param_routes r ∧ pr_matches pr path ps ∧ pr_method pr = m) →
  ∀ m, m ∈ match routes r !! path with Some methods => (hash_entries methods).*1 | None => [] end ++ ms
       ↔ registered r path m.
Proof.
  intros Hms m. rewrite elem_of_app, Hms. unfold registered, static_handler.
  destruct (routes r !! path) as [methods|]; simpl.
  - by rewrite elem_of_hash_keys.
  - split; [by intros [?%elem_of_nil|]; [|right]|]. intros [[? ?]|?]; [done|by right].
Qed.

(** C13: routing.  For every router that can be built, every request and every iteration order of
    the hash maps, [dispatch] does what [dispatched] says: the static route of the path and
    method first; else the first registered parameter route that the path is an instance of,
    with the parameters of that instance; 404 (or the fallback) when the path has no route;
    else OPTIONS, the method fallback, or 405 whose [Allow] lists exactly the methods that have
    a route for this path. *)
Theorem dispatch_spec `{HashOrder} r head body :
  router_built r → dispatched r head body (dispatch r head body).
Proof.
  intros Hw%router_built_wf. unfold dispatch.
  destruct (static_handler r (path head) (method head)) as [h|] eqn:Es; [by constructor|].
  pose proof (scan_result r head body Hw) as Hscan.
  destruct (match request_target_segments (path head) with Some ts => _ | None => _ end) as [fut|ms].
  { destruct Hscan as (l1 & pr & l2 & ps & ? & ? & ? & -> & ?). by eapply d_param. }
  destruct Hscan as [Hms Hnone].
  assert (¬ registered r (path head) (method head)) as Hnr.
  { intros [[? Hst]|(q & qs & Hq & Hm & Hmeth)]; [congruence|]. by eapply Hnone. }
  pose proof (registered_methods_spec r (path head) ms Hms) as Hreg. cbv zeta.
  set (reg := match routes r !! path head with Some methods => _ | None => _ end ++ ms) in *.
  clearbody reg. case_bool_decide as Hnil.
  { assert (∀ m, ¬ registered r (path head) m) as Hno.
    { intros m Hm%Hreg. rewrite Hnil in Hm. by apply elem_of_nil in Hm. }
    destruct (fallback r) as [[pol h]|] eqn:Ef; [by eapply d_fallback|by apply d_not_found]. }
  assert (∃ m, registered r (path head) m) as [m Hm].
  { destruct reg as [|m reg']; [done|]. exists m. apply Hreg. by left. }
  pose proof (build_allow_spec reg) as Ha. destruct (build_allow reg) as [allow|].
  - destruct Ha as (Hin & Hsorted & Hne).
    assert (allow_of r (path head) allow) as Hallow.
    { split; [|done]. intros x. by rewrite Hin, Hreg. }
    destruct (str_eqb (method head) (lit "OPTIONS")) eqn:Eo.
    + apply str_eqb_eq in Eo. destruct (options_fallback r) as [h|] eqn:Eof; [by eapply d_options|].
      destruct (fallback r) as [[[] h]|] eqn:Ef;
        [apply d_not_allowed|eapply d_method_fallback|apply d_not_allowed]; eauto; congruence.
    + assert (method head ≠ lit "OPTIONS") by (intros E; by rewrite E, str_eqb_refl in Eo).
      destruct (fallback r) as [[[] h]|] eqn:Ef;
        [apply d_not_allowed|eapply d_method_fallback|apply d_not_allowed]; eauto; congruence.
  - assert (∀ x, registered r (path head) x → ¬ token x) as Hnt by (intros x Hx%Hreg; by apply Ha).
    destruct (fallback r) as [[[] h]|] eqn:Ef;
      [eapply d_not_allowed_no_token|eapply d_method_fallback|eapply d_not_allowed_no_token];
      eauto; congruence.
Qed.

(** ** Merging *)

Lemma foldl_extend_lookup (l : list (bytes * gmap bytes RouteHandler))
    (acc : gmap bytes (gmap bytes RouteHandler)) p :
  NoDup l.*1 →
  foldl (λ acc '(path, methods), <[path := methods ∪ default ∅ (acc !! path)]> acc) acc l !! p
  = match (list_to_map l : gmap bytes (gmap bytes RouteHandler)) !! p with
    | Some ms => Some (ms ∪ default ∅ (acc !! p))
    | None => acc !! p
    end.
Proof.
  revert acc. induction l as [|[q ms] l IH]; intros acc Hnd; [done|].
  cbn [foldl list_to_map fst snd foldr fmap list_fmap] in *. apply NoDup_cons in Hnd as [Hq Hnd].
  rewrite IH by done. destruct (decide (p = q)) as [->|Hne].
  - rewrite lookup_insert_eq. apply not_elem_of_list_to_map_1 in Hq. by rewrite Hq, lookup_insert_eq.
  - by rewrite !lookup_insert_ne by done.
Qed.

Lemma hash_entries_nodup `{HashOrder} {A} (m : gmap bytes A) : NoDup (hash_entries m).*1.
Proof. rewrite hash_entries_perm. apply NoDup_fst_map_to_list. Qed.

Lemma hash_entries_to_map `{HashOrder} {A} (m : gmap bytes A) : list_to_map (hash_entries m) = m.
Proof.
  rewrite <- (list_to_map_to_list m) at 2. apply list_to_map_proper; [apply hash_entries_nodup|].
  apply hash_entries_perm.
Qed.

Lemma duplicate_routes_nil `{HashOrder} r1 r2 :
  duplicate_routes r1 r2 = [] ↔
  ∀ p m, is_Some (static_handler r1 p m) → is_Some (static_handler r2 p m) → False.
Proof.
  unfold duplicate_routes, static_handler. split.
  - intros Hd p m H1 H2. destruct (routes r1 !! p) as [ms1|] eqn:E1; [|by destruct H1].
    destruct (routes r2 !! p) as [ms2|] eqn:E2; [|by destruct H2]. simpl in *.
    assert ((m, p) ∈ (hash_entries (routes r2) ≫= λ '(path, methods),
      match routes r1 !! path with
      | Some self_methods =>
          omap (λ '(method, _), if bool_decide (is_Some (self_methods !! method))
                                then Some (method, path) else None) (hash_entries methods)
      | None => [] end)) as Hin; [|rewrite Hd in Hin; by apply elem_of_nil in Hin].
    apply list_elem_of_bind. exists (p, ms2). split.
    + rewrite E1. apply list_elem_of_omap. destruct H2 as [h2 H2]. exists (m, h2).
      rewrite bool_decide_true by done. split; [|done].
      rewrite hash_entries_perm. by apply elem_of_map_to_list.
    + rewrite hash_entries_perm. by apply elem_of_map_to_list.
  - intros Hno. apply elem_of_nil_inv. intros [m p] Hin.
    apply list_elem_of_bind in Hin as ([p' ms2] & Hin & Hp). rewrite hash_entries_perm in Hp.
    apply elem_of_map_to_list in Hp. destruct (routes r1 !! p') as [ms1|] eqn:E1; [|by apply elem_of_nil in Hin].
    apply list_elem_of_omap in Hin as ([m' h2] & Hin & Hb). case_bool_decide as Hs; simplify_eq.
    rewrite hash_entries_perm in Hin. apply elem_of_map_to_list in Hin.
    apply (Hno p m); [by rewrite E1|]. rewrite Hp. simpl. by eexists.
Qed.

(** merging routers loses nothing and shadows nothing.  When [merge] succeeds the two
    routers have no static route in common, and the merged one answers every path and method
    with the handler of the one that had it; the parameter routes are the first router's and
    then the second's, no two of them of the same method and shape; it has at most one of each
    fallback to take over.  When both have a static route in common it fails. *)
Theorem merge_sound `{HashOrder} r1 r2 :
  match merge r1 r2 with
  | Ok r =>
      (∀ p m, static_handler r p m = match static_handler r1 p m with
                                     | Some h => Some h | None => static_handler r2 p m end)
      ∧ (∀ p m, static_handler r1 p m = None ∨ static_handler r2 p m = None)
      ∧ param_routes r = param_routes r1 ++ param_routes r2
      ∧ (∀ a b, a ∈ param_routes r1 → b ∈ param_routes r2 → pr_method a = pr_method b →
           segments_equivalent (pr_segments a) (pr_segments b) = false)
      ∧ (fallback r1 = None ∧ fallback r = fallback r2
         ∨ fallback r2 = None ∧ fallback r = fallback r1)
      ∧ (options_fallback r1 = None ∧ options_fallback r = options_fallback r2
         ∨ options_fallback r2 = None ∧ options_fallback r = options_fallback r1)
  | Err (DuplicateRoute m p) =>
      is_Some (static_handler r1 p m) ∧ is_Some (static_handler r2 p m)
  | Err _ => ∀ p m, static_handler r1 p m = None ∨ static_handler r2 p m = None
  end.
Proof.
  assert (duplicate_routes r1 r2 = [] → ∀ p m, static_handler r1 p m = None ∨ static_handler r2 p m = None)
    as Hdis.
  { intros Hd p m. destruct (static_handler r1 p m) eqn:E1, (static_handler r2 p m) eqn:E2; auto.
    exfalso. eapply (proj1 (duplicate_routes_nil r1 r2) Hd p m); by eexists. }
  destruct (merge r1 r2) as [r|e] eqn:E.
  - apply merge_Ok in E as (Hd & Hp & Hf & Ho & Hr & Hpr & Hfb & Hob). split_and!.
    + intros p m. unfold static_handler. rewrite Hr. unfold extend_routes.
      rewrite foldl_extend_lookup by apply hash_entries_nodup. rewrite hash_entries_to_map.
      specialize (Hdis Hd p m). unfold static_handler in Hdis.
      destruct (routes r2 !! p) as [ms2|]; simpl in *; [|by destruct (routes r1 !! p ≫= _)].
      rewrite lookup_union. destruct (routes r1 !! p) as [ms1|]; simpl in *.
      * destruct (ms1 !! m), (ms2 !! m); by destruct Hdis.
      * rewrite lookup_empty. by destruct (ms2 !! m).
    + by apply Hdis.
    + done.
    + intros a b Ha Hb Hm. destruct (segments_equivalent _ _) eqn:Es; [|done]. exfalso.
      assert (a ∈ duplicate_param_routes r1 r2) as Hin; [|rewrite Hp in Hin; by apply elem_of_nil in Hin].
      apply list_elem_of_bind. exists b. split; [|done]. apply list_elem_of_In, filter_In.
      split; [by apply list_elem_of_In|]. unfold same_param_route. by rewrite Hm, str_eqb_refl, Es.
    + rewrite Hfb. destruct (fallback r1); [right|left]; [by destruct Hf|done].
    + rewrite Hob. destruct (options_fallback r1); [right|left]; [by destruct Ho|done].
  - unfold merge in E. destruct (duplicate_routes r1 r2) as [|[m p] l] eqn:Ed.
    + repeat case_first_in E; simplify_eq; by apply Hdis.
    + simplify_eq. assert ((m, p) ∈ duplicate_routes r1 r2) as Hin by (rewrite Ed; by left).
      unfold duplicate_routes in Hin.
      apply list_elem_of_bind in Hin as ([p' ms2] & Hin & Hp). rewrite hash_entries_perm in Hp.
      apply elem_of_map_to_list in Hp. destruct (routes r1 !! p') as [ms1|] eqn:E1; [|by apply elem_of_nil in Hin].
      apply list_elem_of_omap in Hin as ([m' h2] & Hin & Hb). case_bool_decide as Hs; simplify_eq.
      rewrite hash_entries_perm in Hin. apply elem_of_map_to_list in Hin.
      unfold static_handler. rewrite E1, Hp. simpl. by split; [|eexists].
Qed.

End routes.

(** ** A router whose only route of the path has another method *)

Definition demo_router : @Router demo_types Response :=
  route_async (lit "GET") (lit "/login") (λ _ _, response_empty 204) router_new.

Lemma demo_router_built : @router_built demo_types Response id sorted_order demo_router.
Proof. apply built_route_async, built_router_new. Qed.

Lemma dispatch_spec_witness :
  @dispatched demo_types Response id demo_router (@head_of demo_types demo_ast) []
    (with_allow {| methods := [lit "GET"] |} (response_empty 405)).
Proof.
  pose proof (@dispatch_spec demo_types Response id sorted_order demo_router
    (@head_of demo_types demo_ast) [] demo_router_built) as H.
  assert (@dispatch demo_types Response id sorted_order demo_router (@head_of demo_types demo_ast) []
    = with_allow {| methods := [lit "GET"] |} (response_empty 405)) as E by (vm_compute; reflexivity).
  rewrite E in H. exact H.
Defined.
