(* ===== verification/Gate.v ===== *)
(** * [core::extension]: the extension points of the server

    Request gates (pass or reject a request, writing to its extensions), middleware (observers)
    and upgrade handlers.  Third-party implementations are records of functions. *)

From S2P Require Import Prelude Text Utf8 Extensions Request Response.

(** [SocketAddr] is opaque to the server: an address and a port. *)
Definition SocketAddr : Type := list N * N.

Section gate.
Context {AT : AnyTypes}.

Inductive GateOutcome :=
| Allow
| Reject (response : Response).

(** [GateOutcome::reject]. *)
Definition gate_reject (status : N) (body : bytes) : GateOutcome := Reject (response_new status body).

Record GateContext := { peer_addr : option SocketAddr }.

(** [trait RequestGate]: [check] may write to the extensions. *)
Record RequestGate := {
  gate_name : bytes;
  check : RequestHead → GateContext → RequestExtensions → GateOutcome * RequestExtensions;
}.

(** [trait UpgradeHandler]. *)
Record UpgradeHandler := {
  upgrade_name : bytes;
  upgrade_matches : RequestHead → bool;
}.

End gate.
