(* ===== verification/Csrf.v ===== *)
(** * [plugin-csrf]: the CSRF gate

    [CsrfGateBuilder::build] validates the configured origins and paths; [CsrfGate::check]
    decides by the method, the exempt paths, [Sec-Fetch-Site] and [Origin].  The IPv6 parser
    and printer of the standard library, which the origin validation uses, are below. *)

From S2P Require Import Prelude Text Utf8 Radix Extensions Request RequestSpec Response Body Gate.

Definition MAX_ALLOWED_ORIGINS : nat := 64.
Definition MAX_EXEMPT_PATHS : nat := 64.
Definition MAX_ENTRY_LEN : nat := 2048.

Inductive CsrfConfigError :=
| InvalidOrigin (index : nat)
| InvalidExemptPath (index : nat)
| TooManyOrigins
| TooManyExemptPaths.

Record CsrfGateBuilder := { cb_origins : list bytes; cb_exempt : list bytes }.

Record CsrfGate := { allowed_origins : list bytes; exempt_paths : list bytes }.

(** ** [std::net::Ipv6Addr]: eight 16-bit segments *)

(** One group of hexadecimal digits at the front: the value and the rest. *)
Fixpoint read_hex (count : nat) (value : N) (s : bytes) : option (N * bytes) :=
  match s with
  | c :: s' =>
      match to_digit 16 c with
      | Some d => if (4 <=? count)%nat then None else read_hex (S count) (value * 16 + d)%N s'
      | None => if (count =? 0)%nat then None else Some (value, s)
      end
  | [] => if (count =? 0)%nat then None else Some (value, [])
  end.

(** [read_groups] for at most [limit] groups; a group that cannot be read is not consumed. *)
Fixpoint read_groups (limit : nat) (first : bool) (s : bytes) : list N * bytes :=
  match limit with
  | O => ([], s)
  | S limit =>
      let after_sep := if first then Some s else strip_prefix [x3a] s in
      match after_sep ≫= read_hex 0 0 with
      | Some (v, rest) => let '(vs, rest) := read_groups limit false rest in (v :: vs, rest)
      | None => ([], s)
      end
  end.

(** [str::parse::<Ipv6Addr>] for a text without dots (no embedded IPv4 address). *)
Definition parse_ipv6 (s : bytes) : option (list N) :=
  let '(head, rest) := read_groups 8 true s in
  if (length head =? 8)%nat then if bool_decide (rest = []) then Some head else None
  else
    let! rest := strip_prefix (lit "::") rest else None in
    let '(tail, rest) := read_groups (8 - (length head + 1)) true rest in
    if bool_decide (rest = [])
    then Some (head ++ replicate (8 - length head - length tail) 0%N ++ tail) else None.

(** The longest run of zero segments, the first of them: its start and length. *)
Fixpoint longest_zeroes (i : nat) (segs : list N) (current longest : nat * nat) : nat * nat :=
  match segs with
  | [] => longest
  | s :: segs =>
      if (s =? 0)%N then
        let current := (if (current.2 =? 0)%nat then i else current.1, S current.2) in
        let longest := if (longest.2 <? current.2)%nat then current else longest in
        longest_zeroes (S i) segs current longest
      else longest_zeroes (S i) segs (0, 0) longest
  end.

Definition fmt_subslice (segs : list N) : bytes := join [x3a] (to_hex <$> segs).

(** [Ipv6Addr::to_string] of an address that is not IPv4-mapped. *)
Definition ipv6_to_string (segs : list N) : bytes :=
  let '(start, zlen) := longest_zeroes 0 segs (0, 0) (0, 0) in
  if (1 <? zlen)%nat then fmt_subslice (take start segs) ++ lit "::" ++ fmt_subslice (drop (start + zlen) segs)
  else fmt_subslice segs.

(** [to_ipv4_mapped]: the last two segments of [::ffff:a.b.c.d]. *)
Definition to_ipv4_mapped (segs : list N) : option (N * N) :=
  match segs with
  | [0; 0; 0; 0; 0; 65535; ab; cd]%N => Some (ab, cd)
  | _ => None
  end.

(** ** [build] *)

Definition valid_ipv6_literal (inner : bytes) : bool :=
  if contains x2e inner then false
  else
    match parse_ipv6 inner with
    | None => false
    | Some addr =>
        let canonical := match to_ipv4_mapped addr with
                         | Some (ab, cd) => lit "::ffff:" ++ to_hex ab ++ lit ":" ++ to_hex cd
                         | None => ipv6_to_string addr
                         end in
        str_eqb canonical inner
    end.

Definition ends_in_number (h : bytes) : bool :=
  let last := default [] (last (split x2e h)) in
  if bool_decide (last = []) then false
  else if forallb is_ascii_digit last then true
  else match strip_prefix (lit "0x") last with
       | Some r => forallb is_ascii_hexdigit r
       | None => false
       end.

Definition ipv4_part_ok (part : bytes) : bool :=
  negb (bool_decide (part = [])) && (length part <=? 3)%nat && forallb is_ascii_digit part
  && (str_eqb part (lit "0") || negb (starts_with [x30] part))
  && match parse_uint u16_max part with Some v => (v <=? 255)%N | None => false end.

(** The loop returns at the first bad part; otherwise there must be four. *)
Definition canonical_ipv4 (h : bytes) : bool :=
  forallb ipv4_part_ok (split x2e h) && (length (split x2e h) =? 4)%nat.

Definition hostname_byte (b : byte) : bool := is_ascii_lowercase b || is_ascii_digit b || beqb b x2d.

Definition valid_hostname (h : bytes) : bool :=
  let had_dot := ends_with [x2e] h in
  let h := default h (strip_suffix [x2e] h) in
  if ends_in_number h then negb had_dot && canonical_ipv4 h
  else
    negb (bool_decide (h = []))
    && forallb (λ label, negb (bool_decide (label = [])) && forallb hostname_byte label) (split x2e h).

Definition valid_port (p default_port : bytes) : bool :=
  if bool_decide (p = []) || (5 <? length p)%nat || starts_with [x30] p || str_eqb p default_port
  then false
  else forallb is_ascii_digit p
       && match parse_uint u32_max p with Some n => (n <=? 65535)%N | None => false end.

Definition valid_origin (s : bytes) : bool :=
  if bool_decide (s = []) || (MAX_ENTRY_LEN <? length s)%nat then false
  else
    match (match strip_prefix (lit "https://") s with
           | Some r => Some (lit "443", r)
           | None => match strip_prefix (lit "http://") s with
                     | Some r => Some (lit "80", r)
                     | None => None
                     end
           end) with
    | None => false
    | Some (default_port, rest) =>
        let port : option (option bytes) :=
          match strip_prefix [x5b] rest with
          | Some after =>
              match position (beqb x5d) after with
              | None => None
              | Some end_ =>
                  let inner := take end_ after in
                  if negb (valid_ipv6_literal inner) then None
                  else
                    let tail := drop (end_ + 1) after in
                    if bool_decide (tail = []) then Some None
                    else match strip_prefix [x3a] tail with
                         | Some p => Some (Some p)
                         | None => None
                         end
              end
          | None =>
              let '(host, port) := match split_once x3a rest with
                                   | Some (h, p) => (h, Some p)
                                   | None => (rest, None)
                                   end in
              if negb (valid_hostname host) then None else Some port
          end in
        match port with
        | None => false
        | Some None => true
        | Some (Some p) => valid_port p default_port
        end
    end.

Definition exempt_path_byte (b : byte) : bool :=
  (32 <? bv b)%N && (bv b <? 127)%N && negb (beqb b x3f) && negb (beqb b x23).

Definition valid_exempt_path (p : bytes) : bool :=
  negb (bool_decide (p = [])) && (length p <=? MAX_ENTRY_LEN)%nat && starts_with [x2f] p
  && forallb exempt_path_byte p.

Definition csrf_build (self : CsrfGateBuilder) : result CsrfGate CsrfConfigError :=
  if (MAX_ALLOWED_ORIGINS <? length (cb_origins self))%nat then Err TooManyOrigins
  else if (MAX_EXEMPT_PATHS <? length (cb_exempt self))%nat then Err TooManyExemptPaths
  else
    match position (λ o, negb (valid_origin o)) (cb_origins self) with
    | Some index => Err (InvalidOrigin index)
    | None =>
        match position (λ p, negb (valid_exempt_path p)) (cb_exempt self) with
        | Some index => Err (InvalidExemptPath index)
        | None => Ok {| allowed_origins := cb_origins self; exempt_paths := cb_exempt self |}
        end
    end.

(** ** [check] *)

Section csrf.
Context {AT : AnyTypes}.

(** The count, a [u8] that stops at two, and the first value. *)
Fixpoint count_header_loop (name : bytes) (hs : list (bytes * bytes)) (n : N) (first : option bytes) :
    N * option bytes :=
  match hs with
  | [] => (n, first)
  | (k, v) :: hs =>
      if eq_ignore_ascii_case k name
      then count_header_loop name hs (N.min (n + 1) 2) (if (n =? 0)%N then Some v else first)
      else count_header_loop name hs n first
  end.

Definition count_header (head : RequestHead) (name : bytes) : N * option bytes :=
  count_header_loop name (headers head) 0 None.

Definition csrf_deny : GateOutcome := gate_reject 403 [].

Definition csrf_check (self : CsrfGate) (head : RequestHead) (_ : GateContext)
    (extensions : RequestExtensions) : GateOutcome * RequestExtensions :=
  (if str_eqb (method head) (lit "GET") || str_eqb (method head) (lit "HEAD")
      || str_eqb (method head) (lit "OPTIONS") then Allow
   else if existsb (λ p, str_eqb p (path head)) (exempt_paths self) then Allow
   else
     let origin_check :=
       match count_header head (lit "origin") with
       | (1%N, Some o) => if existsb (λ a, str_eqb a o) (allowed_origins self) then Allow else csrf_deny
       | _ => csrf_deny
       end in
     match count_header head (lit "sec-fetch-site") with
     | (0%N, _) => origin_check
     | (1%N, Some v) =>
         if str_eqb v (lit "same-origin") || str_eqb v (lit "none") then Allow else csrf_deny
     | _ => csrf_deny
     end, extensions).

Definition csrf_gate (self : CsrfGate) : RequestGate :=
  {| gate_name := lit "csrf-gate"; check := csrf_check self |}.

(** Some header value says the request comes from the site itself, or from a configured
    origin; ambiguous (repeated) headers say nothing. *)
Inductive csrf_evidence (self : CsrfGate) (head : RequestHead) : Prop :=
| ev_safe_method : method head ∈ [lit "GET"; lit "HEAD"; lit "OPTIONS"] → csrf_evidence self head
| ev_exempt : path head ∈ exempt_paths self → csrf_evidence self head
| ev_fetch_site v :
    header_values (lit "sec-fetch-site") head = [v] → v ∈ [lit "same-origin"; lit "none"] →
    csrf_evidence self head
| ev_origin o :
    header_values (lit "sec-fetch-site") head = [] → header_values (lit "origin") head = [o] →
    o ∈ allowed_origins self → csrf_evidence self head.

Lemma count_header_loop_spec name hs n first :
  (n ≤ 2)%N →
  count_header_loop name hs n first =
    let vs := snd <$> List.filter (λ p, eq_ignore_ascii_case p.1 name) hs in
    (N.min (n + len vs) 2, if (n =? 0)%N then match vs with v :: _ => Some v | [] => first end else first).
Proof.
  revert n first. induction hs as [|[k v] hs IH]; intros n first Hn; cbn [count_header_loop List.filter fst].
  - simpl. unfold len; simpl. rewrite N.add_0_r, N.min_l by done. by destruct (n =? 0)%N.
  - destruct (eq_ignore_ascii_case k name); [|by apply IH]. rewrite IH by lia. cbv zeta.
    rewrite fmap_cons. cbn [snd]. set (vs := snd <$> _). clearbody vs.
    assert ((N.min (n + 1) 2 =? 0) = false)%N as -> by (apply N.eqb_neq; lia).
    f_equal. unfold len. cbn [length]. lia.
Qed.

Lemma count_header_spec head name :
  count_header head name = (N.min (len (header_values name head)) 2, List.head (header_values name head) : option bytes).
Proof.
  unfold count_header. rewrite count_header_loop_spec by done. cbn zeta.
  fold (header_values name head). by rewrite N.add_0_l.
Qed.

Lemma existsb_str_eqb_elem l x : existsb (λ a, str_eqb a x) l = true ↔ x ∈ l.
Proof.
  rewrite existsb_exists. split.
  - intros (a & Ha & ->%str_eqb_eq). by apply list_elem_of_In.
  - intros H. exists x. split; [by apply list_elem_of_In|apply str_eqb_refl].
Qed.

(** the gate lets a request through exactly when there is evidence that it is not forged: a
    safe method, an exempt path, a single [Sec-Fetch-Site] of [same-origin] or [none], or, only
    when that header is absent, a single [Origin] that is configured.  A repeated header is
    never evidence.  The extensions are not touched, and every other request is answered 403
    with an empty body. *)
Theorem csrf_check_spec self head ctx ext :
  (csrf_check self head ctx ext = (Allow, ext) ↔ csrf_evidence self head)
  ∧ (csrf_check self head ctx ext = (Allow, ext)
     ∨ csrf_check self head ctx ext = (Reject (response_new 403 []), ext)).
Proof.
  unfold csrf_check. set (outcome := if str_eqb _ _ || _ || _ then _ else _).
  assert (outcome = Allow ∧ csrf_evidence self head
          ∨ outcome = csrf_deny ∧ ¬ csrf_evidence self head) as H.
  { subst outcome. rewrite !count_header_spec.
    destruct (str_eqb (method head) _ || _ || _) eqn:Em.
    { left. split; [done|]. apply ev_safe_method.
      apply orb_prop in Em as [Em|Em]; [apply orb_prop in Em as [Em|Em]|]; apply str_eqb_eq in Em;
        rewrite Em; set_solver. }
    destruct (existsb _ (exempt_paths self)) eqn:Ex.
    { left. split; [done|]. by apply ev_exempt, existsb_str_eqb_elem. }
    assert (method head ∈ [lit "GET"; lit "HEAD"; lit "OPTIONS"] → False) as Hm.
    { intros Hin%list_elem_of_In. destruct Hin as [E|[E|[E|[]]]]; rewrite <- E in Em; done. }
    assert (path head ∈ exempt_paths self → False) as Hp.
    { intros ?%existsb_str_eqb_elem. congruence. }
    destruct (header_values (lit "sec-fetch-site") head) as [|v [|v2 vs]] eqn:Es.
    - change (N.min (len (@nil bytes)) 2) with 0%N. cbn iota.
      destruct (header_values (lit "origin") head) as [|o [|o2 os]] eqn:Eo.
      + right. split; [done|]. intros []; congruence.
      + change (N.min (len [o]) 2) with 1%N. cbn [List.head hd_error]. cbn iota.
        destruct (existsb _ (allowed_origins self)) eqn:Ea.
        * left. split; [done|]. apply existsb_str_eqb_elem in Ea. by eapply ev_origin.
        * right. split; [done|]. intros []; try congruence.
          assert (o0 = o) as -> by congruence. apply existsb_str_eqb_elem in H1. congruence.
      + assert (N.min (len (o :: o2 :: os)) 2 = 2%N) as -> by (unfold len; simpl; lia).
        right. split; [done|]. intros []; congruence.
    - change (N.min (len [v]) 2) with 1%N. cbn [List.head hd_error]. cbn iota.
      destruct (str_eqb v _ || str_eqb v _) eqn:Ev.
      + left. split; [done|]. eapply ev_fetch_site; [done|].
        apply orb_prop in Ev as [Ev|Ev]; apply str_eqb_eq in Ev; rewrite Ev; set_solver.
      + right. split; [done|]. intros []; try congruence.
        assert (v0 = v) as -> by congruence.
        apply elem_of_cons in H0 as [->|H0]; [done|]. apply elem_of_cons in H0 as [->|H0]; [done|].
        by apply elem_of_nil in H0.
    - assert (N.min (len (v :: v2 :: vs)) 2 = 2%N) as -> by (unfold len; simpl; lia).
      right. split; [done|]. intros []; congruence. }
  destruct H as [[-> He]|[-> He]].
  - split; [done|by left].
  - split; [split; [done|by intros ?%He]|by right].
Qed.

End csrf.
