(* ===== verification/Cors.v ===== *)
(** * [plugin-cors]: cross-origin resource sharing

    [preflight_response] answers preflights and [apply_cors_headers] adds the headers of actual
    responses, from a [CorsConfig] that only [build] makes.  What is proved is what browsers
    rely on: an origin is only ever named when the configuration allows it, and credentials
    are never combined with the wildcard. *)

From S2P Require Import Prelude Text Utf8 Radix Extensions Request RequestSpec Response ResponseSpec.

Inductive CorsOrigins :=
| OriginList (l : list bytes)
| OriginAny.

Inductive CorsConfigError := AnyOriginWithCredentials.

Record CorsConfig := {
  origins : CorsOrigins;
  cors_methods : option (list bytes);
  cors_headers : list bytes;
  credentials : bool;
  max_age : option N;
  expose_headers : list bytes;
}.

Record CorsConfigBuilder := {
  b_origins : list bytes;
  b_any_origin : bool;
  b_methods : option (list bytes);
  b_headers : list bytes;
  b_credentials : bool;
  b_max_age : option N;
  b_expose_headers : list bytes;
}.

Definition cors_builder : CorsConfigBuilder :=
  {| b_origins := []; b_any_origin := false; b_methods := None; b_headers := [];
     b_credentials := false; b_max_age := None; b_expose_headers := [] |}.

Definition allow_origin (o : bytes) (b : CorsConfigBuilder) : CorsConfigBuilder :=
  {| b_origins := b_origins b ++ [o]; b_any_origin := b_any_origin b; b_methods := b_methods b;
     b_headers := b_headers b; b_credentials := b_credentials b; b_max_age := b_max_age b;
     b_expose_headers := b_expose_headers b |}.
Definition allow_any_origin (b : CorsConfigBuilder) : CorsConfigBuilder :=
  {| b_origins := b_origins b; b_any_origin := true; b_methods := b_methods b;
     b_headers := b_headers b; b_credentials := b_credentials b; b_max_age := b_max_age b;
     b_expose_headers := b_expose_headers b |}.
Definition allow_methods (ms : list bytes) (b : CorsConfigBuilder) : CorsConfigBuilder :=
  {| b_origins := b_origins b; b_any_origin := b_any_origin b; b_methods := Some ms;
     b_headers := b_headers b; b_credentials := b_credentials b; b_max_age := b_max_age b;
     b_expose_headers := b_expose_headers b |}.
Definition allow_headers (hs : list bytes) (b : CorsConfigBuilder) : CorsConfigBuilder :=
  {| b_origins := b_origins b; b_any_origin := b_any_origin b; b_methods := b_methods b;
     b_headers := hs; b_credentials := b_credentials b; b_max_age := b_max_age b;
     b_expose_headers := b_expose_headers b |}.
Definition allow_credentials (allow : bool) (b : CorsConfigBuilder) : CorsConfigBuilder :=
  {| b_origins := b_origins b; b_any_origin := b_any_origin b; b_methods := b_methods b;
     b_headers := b_headers b; b_credentials := allow; b_max_age := b_max_age b;
     b_expose_headers := b_expose_headers b |}.
Definition set_max_age (secs : N) (b : CorsConfigBuilder) : CorsConfigBuilder :=
  {| b_origins := b_origins b; b_any_origin := b_any_origin b; b_methods := b_methods b;
     b_headers := b_headers b; b_credentials := b_credentials b; b_max_age := Some secs;
     b_expose_headers := b_expose_headers b |}.
Definition set_expose_headers (hs : list bytes) (b : CorsConfigBuilder) : CorsConfigBuilder :=
  {| b_origins := b_origins b; b_any_origin := b_any_origin b; b_methods := b_methods b;
     b_headers := b_headers b; b_credentials := b_credentials b; b_max_age := b_max_age b;
     b_expose_headers := hs |}.

Definition cors_build (self : CorsConfigBuilder) : result CorsConfig CorsConfigError :=
  if b_any_origin self && b_credentials self then Err AnyOriginWithCredentials
  else
    let origins := if b_any_origin self then OriginAny else OriginList (b_origins self) in
    Ok {| origins := origins; cors_methods := b_methods self; cors_headers := b_headers self;
          credentials := b_credentials self; max_age := b_max_age self;
          expose_headers := b_expose_headers self |}.

Definition origin_allowed (config : CorsConfig) (origin : bytes) : bool :=
  match origins config with
  | OriginAny => true
  | OriginList l => existsb (λ allowed, str_eqb allowed origin) l
  end.

(** A header that the validation of the response refuses is left out. *)
Definition try_add_header (name value : bytes) (response : Response) : Response :=
  match with_header name value response with Ok r => r | Err _ => response end.

Definition try_add_vary (field_name : bytes) (response : Response) : Response :=
  match with_vary field_name response with Ok r => r | Err _ => response end.

Section cors.
Context {AT : AnyTypes}.

Definition is_preflight (head : RequestHead) : bool :=
  eq_ignore_ascii_case (method head) (lit "OPTIONS")
  && bool_decide (is_Some (header head (lit "origin")))
  && bool_decide (is_Some (header head (lit "access-control-request-method"))).

(** The two headers that name the origin. *)
Definition add_allow_origin (config : CorsConfig) (origin : bytes) (response : Response) : Response :=
  match origins config with
  | OriginAny => try_add_header (lit "Access-Control-Allow-Origin") (lit "*") response
  | OriginList _ =>
      let response := try_add_header (lit "Access-Control-Allow-Origin") origin response in
      try_add_vary (lit "Origin") response
  end.

Definition effective_methods (allow : AllowedMethods) (config : CorsConfig) : list bytes :=
  match cors_methods config with
  | Some ms => ms
  | None => split_str (lit ", ") (allow_to_header_value allow)
  end.

Definition preflight_response (head : RequestHead) (allow : AllowedMethods) (config : CorsConfig) :
    Response :=
  match header head (lit "origin") with
  | None => with_allow allow (response_empty 405)
  | Some origin =>
      let req_method := default [] (header head (lit "access-control-request-method")) in
      if negb (origin_allowed config origin) then response_empty 403
      else
        let effective_methods := effective_methods allow config in
        if negb (existsb (λ m, str_eqb m req_method) effective_methods) then response_empty 403
        else
          let response := add_allow_origin config origin (response_empty 204) in
          let response := try_add_header (lit "Access-Control-Allow-Methods")
                            (join (lit ", ") effective_methods) response in
          let response := if negb (bool_decide (cors_headers config = []))
                          then try_add_header (lit "Access-Control-Allow-Headers")
                                 (join (lit ", ") (cors_headers config)) response
                          else response in
          let response := match max_age config with
                          | Some n => try_add_header (lit "Access-Control-Max-Age") (to_decimal n) response
                          | None => response
                          end in
          if credentials config
          then try_add_header (lit "Access-Control-Allow-Credentials") (lit "true") response
          else response
  end.

Definition apply_cors_headers (head : RequestHead) (config : CorsConfig) (response : Response) :
    Response :=
  match header head (lit "origin") with
  | None => response
  | Some origin =>
      if negb (origin_allowed config origin) then response
      else
        let response := add_allow_origin config origin response in
        let response := if credentials config
                        then try_add_header (lit "Access-Control-Allow-Credentials") (lit "true") response
                        else response in
        if negb (bool_decide (expose_headers config = []))
        then try_add_header (lit "Access-Control-Expose-Headers")
               (join (lit ", ") (expose_headers config)) response
        else response
  end.

(** ** What is added to a response *)

Lemma try_add_header_adds n v r :
  ∃ hs, adds r (try_add_header n v r) hs ∧ (hs = [] ∨ hs = [(n, v)]).
Proof.
  unfold try_add_header. destruct (with_header n v r) as [r'|e] eqn:E.
  - apply with_header_Ok in E as (_ & _ & _ & ->). exists [(n, v)]. by split; [|right].
  - exists []. split; [apply adds_nil|by left].
Qed.

Lemma try_add_header_ok n v r :
  token n → existsb forbidden_value_byte v = false → reserved n = false →
  adds r (try_add_header n v r) [(n, v)].
Proof. intros. unfold try_add_header. by rewrite (proj2 (with_header_Ok n v r (push_header n v r))). Qed.

Lemma try_add_vary_adds r :
  ∃ hs, adds r (try_add_vary (lit "Origin") r) hs ∧ (hs = [] ∨ hs = [(lit "Vary", lit "Origin")])
    ∧ varies_on (lit "Origin") (try_add_vary (lit "Origin") r).
Proof.
  unfold try_add_vary. destruct (with_vary_adds (lit "Origin") r) as (r' & hs & -> & H);
    [by vm_compute|]. by exists hs.
Qed.

Lemma split_str_join ms fuel :
  ms ≠ [] → Forall (λ m, contains x2c m = false) ms → length ms ≤ fuel →
  split_str_loop fuel (lit ", ") (join (lit ", ") ms) = ms.
Proof.
  intros Hn HF. revert fuel. induction HF as [|m ms Hm HF IH]; intros fuel Hf; [done|].
  destruct fuel as [|fuel]; [simpl in Hf; lia|]. cbn [split_str_loop].
  destruct ms as [|m2 ms].
  - change (join (lit ", ") [m]) with m.
    by rewrite (find_sub_absent x2c [x20]).
  - rewrite join_cons, (find_sub_first x2c [x20] m) by done.
    rewrite take_app_length, (assoc_L (++)), drop_app_exact by (by rewrite length_app).
    rewrite IH; [done|done|simpl in *; lia].
Qed.

(** The methods of an [Allow] value are read back from its text. *)
Lemma effective_methods_default allow config :
  cors_methods config = None → Forall token (methods allow) → methods allow ≠ [] →
  effective_methods allow config = methods allow.
Proof.
  intros Hc Ht Hn. unfold effective_methods, split_str, allow_to_header_value. rewrite Hc.
  apply split_str_join; [done| |].
  - eapply Forall_impl; [exact Ht|]. intros m [_ Hm]. by apply (tchar_contains x2c).
  - pose proof (length_join_ge (lit ", ") (methods allow)). simpl in *. lia.
Qed.

Lemma origin_allowed_list config l o :
  origins config = OriginList l → origin_allowed config o = true ↔ o ∈ l.
Proof.
  unfold origin_allowed. intros ->. rewrite existsb_exists. split.
  - intros (x & Hx & ->%str_eqb_eq). by apply list_elem_of_In.
  - intros H. exists o. split; [by apply list_elem_of_In|apply str_eqb_refl].
Qed.

Lemma cors_build_credentials b config :
  cors_build b = Ok config → origins config = OriginAny → credentials config = false.
Proof.
  unfold cors_build. destruct (b_any_origin b), (b_credentials b); intros [= <-]; done.
Qed.

(** The CORS headers [hs] are sound for a request from [o]. *)
Definition cors_sound (config : CorsConfig) (o : bytes) (hs : list (bytes * bytes)) : Prop :=
  (origins config = OriginAny
   ∧ values_of (lit "access-control-allow-origin") hs = [lit "*"]
   ∧ values_of (lit "access-control-allow-credentials") hs = [])
  ∨ (∃ l, origins config = OriginList l ∧ o ∈ l
     ∧ values_of (lit "access-control-allow-origin") hs = [o]
     ∧ values_of (lit "access-control-allow-credentials") hs
       = if credentials config then [lit "true"] else []).

(** Names that are neither of the two headers [cors_sound] is about. *)
Definition other_name (n : bytes) : Prop :=
  eq_ignore_ascii_case n (lit "access-control-allow-origin") = false
  ∧ eq_ignore_ascii_case n (lit "access-control-allow-credentials") = false.

Lemma cors_sound_app config o hs n v :
  cors_sound config o hs → other_name n → cors_sound config o (hs ++ [(n, v)]).
Proof.
  intros H [H1 H2]. unfold cors_sound. rewrite !values_of_app.
  assert (∀ name, eq_ignore_ascii_case n name = false → values_of name [(n, v)] = []) as Hv.
  { intros name Hn. unfold values_of. simpl. by rewrite Hn. }
  rewrite !Hv, !app_nil_r by done. exact H.
Qed.

Lemma cors_sound_try config o r r1 hs n v :
  adds r r1 hs → cors_sound config o hs → other_name n →
  ∃ hs', adds r (try_add_header n v r1) hs' ∧ cors_sound config o hs'.
Proof.
  intros Ha Hs Hn. destruct (try_add_header_adds n v r1) as (hs2 & Ha2 & Hcase).
  exists (hs ++ hs2). split; [by eapply adds_trans|].
  destruct Hcase as [->| ->]; [by rewrite app_nil_r|by apply cors_sound_app].
Qed.

(** Naming the origin and, if configured, the credentials; [r1] may have gained other headers
    in between. *)
Lemma add_allow_origin_adds config o r :
  existsb forbidden_value_byte o = false → origin_allowed config o = true →
  ∃ hs, adds r (add_allow_origin config o r) hs
    ∧ values_of (lit "access-control-allow-credentials") hs = []
    ∧ (origins config = OriginAny ∧ values_of (lit "access-control-allow-origin") hs = [lit "*"]
       ∨ ∃ l, origins config = OriginList l ∧ o ∈ l
           ∧ values_of (lit "access-control-allow-origin") hs = [o]
           ∧ varies_on (lit "Origin") (add_allow_origin config o r)).
Proof.
  intros Ho Hallow. unfold add_allow_origin. destruct (origins config) as [l|] eqn:El.
  - pose proof (try_add_header_ok (lit "Access-Control-Allow-Origin") o r ltac:(done) Ho ltac:(done)) as Ha.
    destruct (try_add_vary_adds (try_add_header (lit "Access-Control-Allow-Origin") o r)) as (hs & Hv & Hcase & Hvary).
    eexists. split; [by eapply adds_trans|]. split.
    + rewrite values_of_app. by destruct Hcase as [->| ->].
    + right. exists l. split_and!; [done|by eapply origin_allowed_list| |done].
      rewrite values_of_app. by destruct Hcase as [->| ->].
  - pose proof (try_add_header_ok (lit "Access-Control-Allow-Origin") (lit "*") r ltac:(done) ltac:(done) ltac:(done)) as Ha.
    eexists. split; [exact Ha|]. split; [done|]. by left.
Qed.

Lemma add_credentials config o r r1 hs :
  (origins config = OriginAny → credentials config = false) → adds r r1 hs →
  values_of (lit "access-control-allow-credentials") hs = [] →
  (origins config = OriginAny ∧ values_of (lit "access-control-allow-origin") hs = [lit "*"]
   ∨ ∃ l, origins config = OriginList l ∧ o ∈ l
       ∧ values_of (lit "access-control-allow-origin") hs = [o]) →
  ∃ hs', adds r (if credentials config
                 then try_add_header (lit "Access-Control-Allow-Credentials") (lit "true") r1 else r1) hs'
    ∧ cors_sound config o hs'.
Proof.
  intros Hany Ha Hcred Hcase. destruct (credentials config) eqn:Ec.
  - exists (hs ++ [(lit "Access-Control-Allow-Credentials", lit "true")]). split.
    + eapply adds_trans; [exact Ha|]. by apply try_add_header_ok.
    + destruct Hcase as [[Ho _]|(l & Ho & Hin & Hv)]; [by specialize (Hany Ho)|]. right. exists l.
      rewrite !values_of_app, Hcred, Hv, Ec. by split_and!.
  - exists hs. split; [done|]. destruct Hcase as [[Ho Hv]|(l & Ho & Hin & Hv)]; [by left|].
    right. exists l. by rewrite Ec.
Qed.

(** ** The claims *)

(** actual responses.  For a configuration that [build] made, a request whose [Origin] is
    absent or not allowed leaves the response as it was; otherwise the response only gains
    headers: [Access-Control-Allow-Origin] is the wildcard (and then no credentials header is
    sent) or the very origin of the request, which is in the list, with the credentials header
    exactly as configured and [Vary] covering [Origin]. *)
Theorem apply_cors_headers_sound b config head r :
  cors_build b = Ok config →
  (∀ o, header head (lit "origin") = Some o → existsb forbidden_value_byte o = false) →
  match header head (lit "origin") with
  | Some o =>
      if origin_allowed config o
      then ∃ hs, adds r (apply_cors_headers head config r) hs ∧ cors_sound config o hs
      else apply_cors_headers head config r = r
  | None => apply_cors_headers head config r = r
  end.
Proof.
  intros Hb Hval. unfold apply_cors_headers. destruct (header head (lit "origin")) as [o|]; [|done].
  destruct (origin_allowed config o) eqn:Ea; cbn [negb]; [|done].
  destruct (add_allow_origin_adds config o r (Hval o eq_refl) Ea) as (hs & Ha & Hcred & Hcase).
  destruct (add_credentials config o r (add_allow_origin config o r) hs) as (hs2 & Ha2 & Hs2);
    [by eapply cors_build_credentials|done..| |].
  { destruct Hcase as [?|(l & ? & ? & ? & _)]; [by left|right; by exists l]. }
  destruct (negb _); [|by exists hs2].
  eapply cors_sound_try; [exact Ha2|exact Hs2|done].
Qed.

(** preflights.  The answer is 204 only when the origin is allowed and the requested method
    is one of the configured methods, or without configured methods one the path has; then the
    origin and credentials headers are sound in the sense above.  Every other answer carries no
    CORS header at all. *)
Theorem preflight_response_sound b config head allow :
  cors_build b = Ok config →
  (∀ o, header head (lit "origin") = Some o → existsb forbidden_value_byte o = false) →
  Forall token (methods allow) → methods allow ≠ [] →
  let r := preflight_response head allow config in
  (status r = 204%N ∧ ∃ o m hs, header head (lit "origin") = Some o
     ∧ origin_allowed config o = true
     ∧ default [] (header head (lit "access-control-request-method")) = m
     ∧ m ∈ default (methods allow) (cors_methods config)
     ∧ adds (response_empty 204) r hs ∧ cors_sound config o hs)
  ∨ (status r ≠ 204%N ∧ extra_headers r = []).
Proof.
  intros Hb Hval Htok Hne. cbv zeta. unfold preflight_response.
  destruct (header head (lit "origin")) as [o|]; [|by right].
  destruct (origin_allowed config o) eqn:Ea; cbn [negb]; [|by right].
  destruct (existsb _ (effective_methods allow config)) eqn:Em; cbn [negb]; [left|by right].
  set (m := default [] (header head (lit "access-control-request-method"))) in *.
  assert (m ∈ default (methods allow) (cors_methods config)) as Hm.
  { apply existsb_exists in Em as (x & Hx%list_elem_of_In & ->%str_eqb_eq).
    destruct (cors_methods config) as [ms|] eqn:Ec; simpl.
    - unfold effective_methods in Hx. by rewrite Ec in Hx.
    - by rewrite effective_methods_default in Hx. }
  destruct (add_allow_origin_adds config o (response_empty 204) (Hval o eq_refl) Ea) as (hs & Ha & Hcred & Hcase).
  set (r1 := add_allow_origin config o (response_empty 204)) in *.
  assert (∀ r' n v hs, adds (response_empty 204) r' hs → other_name n → ∃ hs',
    adds (response_empty 204) (try_add_header n v r') hs'
    ∧ ∀ name, eq_ignore_ascii_case n name = false → values_of name hs' = values_of name hs) as Hstep.
  { intros r' n v h Hr' _. destruct (try_add_header_adds n v r') as (h2 & Hh2 & Hc2).
    exists (h ++ h2). split; [by eapply adds_trans|]. intros name Hname. rewrite values_of_app.
    destruct Hc2 as [->| ->]; [by rewrite app_nil_r|]. unfold values_of at 2. simpl.
    by rewrite Hname, app_nil_r. }
  destruct (Hstep r1 (lit "Access-Control-Allow-Methods") (join (lit ", ") (effective_methods allow config)) hs Ha)
    as (h1 & A1 & V1); [done|]. set (r2 := try_add_header _ _ r1) in *.
  assert (∃ h3, adds (response_empty 204) (if negb (bool_decide (cors_headers config = []))
      then try_add_header (lit "Access-Control-Allow-Headers") (join (lit ", ") (cors_headers config)) r2
      else r2) h3
    ∧ values_of (lit "access-control-allow-origin") h3 = values_of (lit "access-control-allow-origin") h1
    ∧ values_of (lit "access-control-allow-credentials") h3 = values_of (lit "access-control-allow-credentials") h1)
    as (h3 & A3 & V3 & W3).
  { destruct (negb _); [|by exists h1].
    destruct (Hstep r2 (lit "Access-Control-Allow-Headers") (join (lit ", ") (cors_headers config)) h1 A1)
      as (h & A & V); [done|]. exists h. by rewrite !V. }
  set (r3 := if negb (bool_decide (cors_headers config = [])) then _ else r2) in *.
  assert (∃ h4, adds (response_empty 204) (match max_age config with
      | Some n => try_add_header (lit "Access-Control-Max-Age") (to_decimal n) r3
      | None => r3 end) h4
    ∧ values_of (lit "access-control-allow-origin") h4 = values_of (lit "access-control-allow-origin") h3
    ∧ values_of (lit "access-control-allow-credentials") h4 = values_of (lit "access-control-allow-credentials") h3)
    as (h4 & A4 & V4 & W4).
  { destruct (max_age config) as [n|]; [|by exists h3].
    destruct (Hstep r3 (lit "Access-Control-Max-Age") (to_decimal n) h3 A3) as (h & A & V); [done|].
    exists h. by rewrite !V. }
  destruct (add_credentials config o _ _ h4 (λ H, cors_build_credentials b config Hb H) A4) as (h5 & A5 & S5).
  - by rewrite W4, W3, V1.
  - destruct Hcase as [[Ho Hv]|(l & Ho & Hin & Hv & _)]; [left|right; exists l];
      rewrite V4, V3, V1 by done; by split_and!.
  - split; [by destruct A5|]. exists o, m, h5. by split_and!.
Qed.

End cors.

(** ** Witnesses *)

Definition demo_cors : result CorsConfig CorsConfigError :=
  cors_build (allow_credentials true (allow_origin (lit "https://a.example") cors_builder)).

Definition demo_cors_config : CorsConfig :=
  {| origins := OriginList [lit "https://a.example"]; cors_methods := None; cors_headers := [];
     credentials := true; max_age := None; expose_headers := [] |}.

Definition demo_preflight : RequestHead :=
  @head_of demo_types
    {| a_method := lit "OPTIONS"; a_target := lit "/x"; a_version := Http11;
       a_fields := [demo_field (lit "Origin") (lit "https://a.example");
                    demo_field (lit "Access-Control-Request-Method") (lit "PUT")] |}.

Lemma apply_cors_headers_sound_witness :
  ∃ hs, adds (response_empty 200)
          (@apply_cors_headers demo_types demo_preflight demo_cors_config (response_empty 200)) hs
    ∧ cors_sound demo_cors_config (lit "https://a.example") hs.
Proof.
  pose proof (@apply_cors_headers_sound demo_types
    (allow_credentials true (allow_origin (lit "https://a.example") cors_builder))
    demo_cors_config demo_preflight (response_empty 200) eq_refl) as H.
  assert (@header demo_types demo_preflight (lit "origin") = Some (lit "https://a.example")) as E
    by (vm_compute; reflexivity).
  rewrite E in H. apply H. intros o [= <-]. vm_compute. reflexivity.
Defined.

Lemma preflight_response_sound_witness :
  status (@preflight_response demo_types demo_preflight {| methods := [lit "PUT"] |} demo_cors_config)
  = 204%N
  ∧ ∃ hs, adds (response_empty 204)
      (@preflight_response demo_types demo_preflight {| methods := [lit "PUT"] |} demo_cors_config) hs
    ∧ cors_sound demo_cors_config (lit "https://a.example") hs.
Proof.
  destruct (@preflight_response_sound demo_types
    (allow_credentials true (allow_origin (lit "https://a.example") cors_builder))
    demo_cors_config demo_preflight {| methods := [lit "PUT"] |} eq_refl)
    as [[H (o & m & hs & Ho & _ & _ & _ & Ha & Hs)]|[H _]].
  - intros o Ho. vm_compute in Ho. injection Ho as <-. vm_compute. reflexivity.
  - apply Forall_singleton. split; [discriminate|vm_compute; reflexivity].
  - discriminate.
  - split; [exact H|]. exists hs. split; [exact Ha|].
    vm_compute in Ho. injection Ho as <-. exact Hs.
  - exfalso. apply H. vm_compute. reflexivity.
Defined.
