(* ===== verification/F32.v ===== *)
(** * [str::parse::<f32>] as the code uses it

    The code parses quality values and only asks whether they lie in [0.0..=1.0] and whether
    they are positive.  A parsed number is kept as the decimal it was written as; the two
    questions are answered for the nearest [f32] (round half to even), so [1.00000001] is
    [1.0] and [1e-60] is [0.0]. *)

From S2P Require Import Prelude Text Radix.

Inductive f32 :=
| F32Dec (neg : bool) (mant : N) (exp10 : Z)
| F32Inf (neg : bool)
| F32NaN.

#[export] Instance f32_eq_dec : EqDecision f32.
Proof. solve_decision. Defined.

Definition f32_one : f32 := F32Dec false 1 0.

(** The longest prefix of digits. *)
Fixpoint span_digits (s : bytes) : bytes * bytes :=
  match s with
  | b :: s' => if is_ascii_digit b then let '(d, r) := span_digits s' in (b :: d, r) else ([], s)
  | [] => ([], [])
  end.

(** [Sign? Digit+], the whole of the input. *)
Definition parse_exponent (s : bytes) : option Z :=
  let '(neg, s) := match s with
                   | b :: s' => if beqb b x2d then (true, s') else if beqb b x2b then (false, s') else (false, s)
                   | [] => (false, s)
                   end in
  let '(d, r) := span_digits s in
  if bool_decide (d = []) || negb (bool_decide (r = [])) then None
  else
    let e := Z.of_N (default 0%N (digits_value 10 0 d)) in
    Some (if neg then (- e)%Z else e).

(** [Digit+ | Digit+ '.' Digit* | Digit* '.' Digit+], then an optional exponent. *)
Definition parse_number (neg : bool) (s : bytes) : option f32 :=
  let '(int, rest) := span_digits s in
  let '(frac, rest) := match rest with
                       | b :: rest' => if beqb b x2e then span_digits rest' else ([], rest)
                       | [] => ([], [])
                       end in
  if bool_decide (int ++ frac = []) then None
  else
    let mant := default 0%N (digits_value 10 0 (int ++ frac)) in
    let e := (- Z.of_nat (length frac))%Z in
    match rest with
    | [] => Some (F32Dec neg mant e)
    | b :: rest =>
        if beqb b x65 || beqb b x45
        then (λ e', F32Dec neg mant (e + e')%Z) <$> parse_exponent rest
        else None
    end.

Definition parse_f32 (s : bytes) : option f32 :=
  let '(neg, s) := match s with
                   | b :: s' => if beqb b x2d then (true, s') else if beqb b x2b then (false, s') else (false, s)
                   | [] => (false, s)
                   end in
  if eq_ignore_ascii_case s (lit "inf") || eq_ignore_ascii_case s (lit "infinity") then Some (F32Inf neg)
  else if eq_ignore_ascii_case s (lit "nan") then Some F32NaN
  else parse_number neg s.

(** [mant * 10^exp10 <= num / den]. *)
Definition dec_le (mant : N) (exp10 : Z) (num den : N) : bool :=
  match exp10 with
  | Zneg p => (mant * den <=? num * 10 ^ Npos p)%N
  | _ => (mant * 10 ^ Z.to_N exp10 * den <=? num)%N
  end.

(** At most half the least subnormal number: rounds to zero. *)
Definition rounds_to_zero (mant : N) (exp10 : Z) : bool := dec_le mant exp10 1 (2 ^ 150).

(** [(0.0..=1.0).contains(&v)]: up to half a unit in the last place above one. *)
Definition f32_in_unit (v : f32) : bool :=
  match v with
  | F32Dec true m e => rounds_to_zero m e
  | F32Dec false m e => dec_le m e (2 ^ 24 + 1) (2 ^ 24)
  | _ => false
  end.

(** [v > 0.0]. *)
Definition f32_positive (v : f32) : bool :=
  match v with
  | F32Dec neg m e => negb neg && negb (rounds_to_zero m e)
  | F32Inf neg => negb neg
  | F32NaN => false
  end.

(** The decimals that clients write, [0], [0.ddd], [1], [1.000], are read as such. *)
Lemma q_values :
  (λ s, (λ v, (f32_in_unit v, f32_positive v)) <$> parse_f32 s)
    <$> [lit "0"; lit "0.000"; lit "0.5"; lit ".5"; lit "1."; lit "1.000";
         lit "1.001"; lit "-0"; lit "-1"; lit "2e-1"; lit "1e-60"; lit "NaN";
         lit "+inf"; lit "x"; lit "."; lit "1e"]
  = [Some (true, false); Some (true, false); Some (true, true); Some (true, true); Some (true, true);
     Some (true, true); Some (false, true); Some (true, false); Some (false, false); Some (true, true);
     Some (true, false); Some (false, false); Some (false, true); None; None; None].
Proof. by vm_compute. Qed.
