(* ===== verification/Compression.v ===== *)
(** * [plugin-compression]: gzip responses

    [plan_compression] decides, [compress_body] runs the encoder and [attach_compressed] keeps
    its output if it is shorter; [begin_streaming_compression] decides for a streamed response.
    The gzip codec is the crate [flate2], a parameter here: the class [GzEncoder] has the
    operations the code calls, the class [GzLaws] the decoder and what is documented of it.  CompressionSpec.v has what a client
    allows. *)

From S2P Require Import Prelude Text Utf8 F32 Extensions Request RequestSpec Response ResponseSpec.

(** [flate2::write::GzEncoder<Vec<u8>>]: an encoder over the vector it writes to. *)
Class GzEncoder := {
  Enc : Type;
  enc_new : Enc;
  enc_write_all : Enc → bytes → option Enc;
  enc_flush : Enc → option Enc;
  enc_get_ref : Enc → bytes;
  enc_set_inner : Enc → bytes → Enc;
  enc_finish : Enc → option bytes;
}.

(** [enc_ok e input taken]: the encoder [e] was fed [input] and the bytes [taken] were taken out
    of its vector.  [flush] writes all that is pending (a sync flush); what was taken and what
    [finish] returns decompress to the input. *)
Class GzLaws `{GzEncoder} := {
  gunzip : bytes → option bytes;
  enc_ok : Enc → bytes → bytes → Prop;
  enc_ok_new : enc_ok enc_new [] [];
  enc_ok_write e e' d i t : enc_ok e i t → enc_write_all e d = Some e' → enc_ok e' (i ++ d) t;
  enc_ok_flush e e' i t : enc_ok e i t → enc_flush e = Some e' → enc_ok e' i t;
  enc_ok_take e i t : enc_ok e i t → enc_ok (enc_set_inner e []) i (t ++ enc_get_ref e);
  enc_ok_finish e i t out : enc_ok e i t → enc_finish e = Some out → gunzip (t ++ out) = Some i;
}.

Definition DEFAULT_COMPRESSIBLE_TYPES : list bytes :=
  [lit "text/"; lit "application/json"; lit "application/javascript"; lit "application/xml";
   lit "application/xhtml+xml"; lit "image/svg+xml"].
Definition DEFAULT_MIN_SIZE : N := 1024.
Definition DEFAULT_BLOCKING_THRESHOLD : N := 64 * 1024.

Record CompressionConfig := {
  min_size : N;
  compressible_types : list bytes;
  compress_streaming : bool;
  blocking_threshold : N;
}.

(** The builder has the same fields, and [build] copies them. *)
Record CompressionConfigBuilder := {
  cb_min_size : N;
  cb_compressible_types : list bytes;
  cb_compress_streaming : bool;
  cb_blocking_threshold : N;
}.

Definition compression_builder : CompressionConfigBuilder :=
  {| cb_min_size := DEFAULT_MIN_SIZE;
     cb_compressible_types := str_to_ascii_lowercase <$> DEFAULT_COMPRESSIBLE_TYPES;
     cb_compress_streaming := false; cb_blocking_threshold := DEFAULT_BLOCKING_THRESHOLD |}.

Definition set_min_size (n : N) (b : CompressionConfigBuilder) : CompressionConfigBuilder :=
  {| cb_min_size := n; cb_compressible_types := cb_compressible_types b;
     cb_compress_streaming := cb_compress_streaming b; cb_blocking_threshold := cb_blocking_threshold b |}.

Definition set_compressible_types (ts : list bytes) (b : CompressionConfigBuilder) :
    CompressionConfigBuilder :=
  {| cb_min_size := cb_min_size b; cb_compressible_types := str_to_ascii_lowercase <$> ts;
     cb_compress_streaming := cb_compress_streaming b; cb_blocking_threshold := cb_blocking_threshold b |}.

Definition add_compressible_type (t : bytes) (b : CompressionConfigBuilder) : CompressionConfigBuilder :=
  {| cb_min_size := cb_min_size b;
     cb_compressible_types := cb_compressible_types b ++ [str_to_ascii_lowercase t];
     cb_compress_streaming := cb_compress_streaming b; cb_blocking_threshold := cb_blocking_threshold b |}.

Definition set_compress_streaming (enabled : bool) (b : CompressionConfigBuilder) :
    CompressionConfigBuilder :=
  {| cb_min_size := cb_min_size b; cb_compressible_types := cb_compressible_types b;
     cb_compress_streaming := enabled; cb_blocking_threshold := cb_blocking_threshold b |}.

Definition set_blocking_threshold (n : N) (b : CompressionConfigBuilder) : CompressionConfigBuilder :=
  {| cb_min_size := cb_min_size b; cb_compressible_types := cb_compressible_types b;
     cb_compress_streaming := cb_compress_streaming b; cb_blocking_threshold := n |}.

Definition compression_build (b : CompressionConfigBuilder) : CompressionConfig :=
  {| min_size := cb_min_size b; compressible_types := cb_compressible_types b;
     compress_streaming := cb_compress_streaming b; blocking_threshold := cb_blocking_threshold b |}.

Definition matches_content_type (self : CompressionConfig) (content_type : bytes) : bool :=
  let essence := str_to_ascii_lowercase (trim (default [] (head (split x3b content_type)))) in
  if bool_decide (essence = []) then false
  else existsb (λ pattern,
         match strip_suffix (lit "/") pattern with
         | Some prefix => starts_with (prefix ++ lit "/") essence
         | None => str_eqb essence pattern
         end) (compressible_types self).

(** One [;]-separated parameter: [q=...] sets or invalidates the quality, others are ignored. *)
Definition accept_param (acc : f32 * bool) (param : bytes) : f32 * bool :=
  let '(q, valid) := acc in
  let param := trim param in
  let raw := match strip_prefix (lit "q=") param with
             | Some raw => Some raw
             | None => strip_prefix (lit "Q=") param
             end in
  match raw with
  | None => (q, valid)
  | Some raw =>
      match parse_f32 (trim raw) with
      | Some v => if f32_in_unit v then (v, valid) else (q, false)
      | None => (q, false)
      end
  end.

(** One [,]-separated token of a field value, updating the qualities of [gzip] and of [*]. *)
Definition accept_token (acc : option f32 * option f32) (token : bytes) : option f32 * option f32 :=
  let '(gzip_q, star_q) := acc in
  match split x3b token with
  | [] => acc
  | coding :: parts =>
      let coding := trim coding in
      if bool_decide (coding = []) then acc
      else
        let '(q, valid) := foldl accept_param (f32_one, true) parts in
        if negb valid then acc
        else if eq_ignore_ascii_case coding (lit "gzip") || eq_ignore_ascii_case coding (lit "x-gzip")
        then (Some q, star_q)
        else if str_eqb coding (lit "*") then (gzip_q, Some q)
        else acc
  end.

Definition accept_field (acc : option f32 * option f32) (h : bytes * bytes) : option f32 * option f32 :=
  if negb (eq_ignore_ascii_case h.1 (lit "accept-encoding")) then acc
  else foldl accept_token acc (split x2c h.2).

Section compression.
Context {AT : AnyTypes}.

Definition accepts_gzip (head : RequestHead) : bool :=
  let '(gzip_q, star_q) := foldl accept_field (None, None) (headers head) in
  match gzip_q with
  | Some q => f32_positive q
  | None => match star_q with Some q => f32_positive q | None => false end
  end.

End compression.

Definition gz_try_add_header (name value : bytes) (response : Response) : Response :=
  match with_header name value response with Ok r => r | Err _ => response end.

Definition gz_try_add_vary (field_name : bytes) (response : Response) : Response :=
  match with_vary field_name response with Ok r => r | Err _ => response end.

Inductive CompressionPlan :=
| Skip (response : Response)
| Compress (response : Response).

Section plan.
Context {AT : AnyTypes}.

Definition plan_compression (head : RequestHead) (config : CompressionConfig) (response : Response) :
    CompressionPlan :=
  if (status response =? 204)%N || negb ((200 <=? status response) && (status response <? 300))%N
  then Skip response
  else
    let content_type_ok := match response_header (lit "content-type") response with
                           | Some ct => matches_content_type config ct
                           | None => false
                           end in
    let size_ok := (min_size config <=? len (r_body response))%N in
    if negb (content_type_ok && size_ok) then Skip response
    else
      let response := gz_try_add_vary (lit "Accept-Encoding") response in
      match response_header (lit "content-encoding") response with
      | Some _ => Skip response
      | None => if negb (accepts_gzip head) then Skip response else Compress response
      end.

End plan.

Definition attach_compressed (response : Response) (compressed : bytes) : Response :=
  if bool_decide (compressed = []) || (len (r_body response) <=? len compressed)%N then response
  else set_body compressed (gz_try_add_header (lit "Content-Encoding") (lit "gzip") response).

Section codec.
Context {AT : AnyTypes} `{GzEncoder}.

(** The encoder's errors give the empty vector, which [attach_compressed] ignores. *)
Definition compress_body (data : bytes) : bytes :=
  match enc_write_all enc_new data with
  | None => []
  | Some e => default [] (enc_finish e)
  end.

Definition apply_compression (head : RequestHead) (config : CompressionConfig) (response : Response) :
    Response :=
  match plan_compression head config response with
  | Skip response => response
  | Compress response => attach_compressed response (compress_body (r_body response))
  end.

(** [StreamingGzipEncoder]: every chunk is flushed and taken out of the encoder's vector. *)
Record StreamingGzipEncoder := { sg_encoder : Enc }.

Definition sg_new : StreamingGzipEncoder := {| sg_encoder := enc_new |}.

Definition sg_encode_chunk (data : bytes) (self : StreamingGzipEncoder) :
    option (bytes * StreamingGzipEncoder) :=
  if bool_decide (data = []) then Some ([], self)
  else
    let! e := enc_write_all (sg_encoder self) data else None in
    let! e := enc_flush e else None in
    Some (enc_get_ref e, {| sg_encoder := enc_set_inner e [] |}).

Definition sg_finish (self : StreamingGzipEncoder) : option bytes := enc_finish (sg_encoder self).

Definition begin_streaming_compression (head : RequestHead) (config : CompressionConfig)
    (response : Response) : Response * option StreamingGzipEncoder :=
  if negb (compress_streaming config) then (response, None)
  else if negb ((200 <=? status response) && (status response <? 300))%N
          || is_bodyless_status (status response) then (response, None)
  else
    let content_type_ok := match response_header (lit "content-type") response with
                           | Some ct => matches_content_type config ct
                           | None => false
                           end in
    if negb content_type_ok then (response, None)
    else
      let response := gz_try_add_vary (lit "Accept-Encoding") response in
      match response_header (lit "content-encoding") response with
      | Some _ => (response, None)
      | None =>
          if negb (accepts_gzip head) then (response, None)
          else (gz_try_add_header (lit "Content-Encoding") (lit "gzip") response, Some sg_new)
      end.

End codec.

(** ** Specification *)

(** The values of [Accept-Encoding], all the decision reads of a request. *)
Definition accept_values `{AnyTypes} (head : RequestHead) : list bytes :=
  snd <$> List.filter (λ p, eq_ignore_ascii_case p.1 (lit "accept-encoding")) (headers head).

(** [r'] is the same representation as [r], at most with [Vary: Accept-Encoding] added. *)
Definition same_representation (r r' : Response) : Prop :=
  ∃ hs, adds r r' hs ∧ (hs = [] ∨ hs = [(lit "Vary", lit "Accept-Encoding")]).

(** [r'] is the gzip coding of [r], labelled as such and varying on the request. *)
Definition gzip_representation `{GzLaws} (r r' : Response) : Prop :=
  response_header (lit "content-encoding") r = None
  ∧ (∃ hs, extra_headers r' = extra_headers r ++ hs ++ [(lit "Content-Encoding", lit "gzip")]
       ∧ (hs = [] ∨ hs = [(lit "Vary", lit "Accept-Encoding")]))
  ∧ status r' = status r ∧ content_type r' = content_type r ∧ allow r' = allow r
  ∧ varies_on (lit "Accept-Encoding") r'
  ∧ gunzip (r_body r') = Some (r_body r) ∧ (len (r_body r') < len (r_body r))%N.

(** The encoder after a list of chunks, and the bytes taken out of it. *)
Fixpoint sg_encode_all `{GzEncoder} (chunks : list bytes) (self : StreamingGzipEncoder) :
    option (list bytes * StreamingGzipEncoder) :=
  match chunks with
  | [] => Some ([], self)
  | c :: chunks =>
      let! (out, self) := sg_encode_chunk c self else None in
      let! (outs, self) := sg_encode_all chunks self else None in
      Some (out :: outs, self)
  end.

Lemma accept_fold_values hs acc :
  foldl accept_field acc hs
  = foldl (λ a v, foldl accept_token a (split x2c v)) acc
      (snd <$> List.filter (λ p, eq_ignore_ascii_case p.1 (lit "accept-encoding")) hs).
Proof.
  revert acc. induction hs as [|[n v] hs IH]; intros acc; [done|]. cbn [foldl List.filter].
  unfold accept_field at 2. cbn [fst snd]. by destruct (eq_ignore_ascii_case n _).
Qed.

Lemma accepts_gzip_values `{AnyTypes} h1 h2 :
  accept_values h1 = accept_values h2 → accepts_gzip h1 = accepts_gzip h2.
Proof. intros E. unfold accepts_gzip, accept_values in *. by rewrite !accept_fold_values, E. Qed.

Lemma gz_vary_adds r :
  ∃ hs, adds r (gz_try_add_vary (lit "Accept-Encoding") r) hs
    ∧ (hs = [] ∨ hs = [(lit "Vary", lit "Accept-Encoding")])
    ∧ varies_on (lit "Accept-Encoding") (gz_try_add_vary (lit "Accept-Encoding") r).
Proof.
  unfold gz_try_add_vary. destruct (with_vary_adds (lit "Accept-Encoding") r) as (r' & hs & -> & H);
    [by vm_compute|]. by exists hs.
Qed.

Lemma gz_content_encoding r :
  gz_try_add_header (lit "Content-Encoding") (lit "gzip") r
  = push_header (lit "Content-Encoding") (lit "gzip") r.
Proof.
  unfold gz_try_add_header.
  assert (with_header (lit "Content-Encoding") (lit "gzip") r
          = Ok (push_header (lit "Content-Encoding") (lit "gzip") r)) as ->; [|done].
  apply with_header_Ok; split_and!; [split; by vm_compute|by vm_compute..|done].
Qed.

Lemma adds_response_header n r r' hs :
  adds r r' hs → eq_ignore_ascii_case n (lit "content-type") = false →
  response_header n r' = None → response_header n r = None.
Proof.
  intros (_ & _ & Ec & _ & Ee) Hn. unfold response_header. rewrite Hn, Ee, find_app.
  by destruct (List.find _ (extra_headers r)).
Qed.

Lemma varies_on_set_body f b n v r : varies_on f r → varies_on f (set_body b (push_header n v r)).
Proof.
  unfold varies_on, extra_values. cbn [set_body push_header extra_headers].
  rewrite List.filter_app, fmap_app, bind_app, existsb_app. by intros ->.
Qed.

(** What [plan_compression] returns, on each branch. *)
Lemma plan_compression_cases `{AnyTypes} head config r :
  match plan_compression head config r with
  | Skip r' => same_representation r r'
  | Compress r' =>
      r' = gz_try_add_vary (lit "Accept-Encoding") r ∧ accepts_gzip head = true
      ∧ response_header (lit "content-encoding") r = None
      ∧ (200 <= status r < 300)%N ∧ status r ≠ 204%N ∧ (min_size config <= len (r_body r))%N
  end.
Proof.
  unfold plan_compression. destruct (gz_vary_adds r) as (hs & Hadds & Hhs & _).
  assert (same_representation r r) as Hr by (exists []; split; [apply adds_nil|by left]).
  assert (same_representation r (gz_try_add_vary (lit "Accept-Encoding") r)) as Hv by (by exists hs).
  set (v := gz_try_add_vary _ r) in *.
  destruct ((status r =? 204)%N || _) eqn:Es; [exact Hr|].
  match goal with |- context [if ?b then Skip r else _] => destruct b eqn:Et end; [exact Hr|].
  destruct (response_header (lit "content-encoding") v) eqn:Ec; [exact Hv|].
  destruct (negb (accepts_gzip head)) eqn:Ea; [exact Hv|]. bool_to_prop.
  apply (adds_response_header _ _ _ _ Hadds) in Ec; [|done].
  split_and!; try done; try lia; destruct_and?; bool_to_prop; lia.
Qed.

Lemma compress_body_decodes `{GzLaws} data :
  compress_body data = [] ∨ gunzip (compress_body data) = Some data.
Proof.
  unfold compress_body. destruct (enc_write_all enc_new data) as [e|] eqn:Ew; [|by left].
  destruct (enc_finish e) as [out|] eqn:Ef; [|by left]. right. cbn [default].
  pose proof (enc_ok_write _ _ _ _ _ enc_ok_new Ew) as Hok. exact (enc_ok_finish _ _ _ _ Hok Ef).
Qed.

(** Whatever the encoder returns, the result is the response itself or its coding. *)
Lemma attach_compressed_cases `{GzLaws} r data :
  response_header (lit "content-encoding") r = None →
  let r' := gz_try_add_vary (lit "Accept-Encoding") r in
  data = [] ∨ gunzip data = Some (r_body r) →
  attach_compressed r' data = r' ∨ gzip_representation r (attach_compressed r' data).
Proof.
  intros Hce r' Hd. destruct (gz_vary_adds r) as (hs & (Es & Eb & Ec & Ea & Ee) & Hhs & Hv).
  fold r' in Es, Eb, Ec, Ea, Ee, Hv. unfold attach_compressed.
  destruct (_ || _) eqn:E; [by left|]. right. bool_to_prop. destruct Hd as [->|Hd]; [done|].
  rewrite gz_content_encoding. split; [done|]. split.
  { exists hs. split; [|done]. cbn [set_body push_header extra_headers]. by rewrite Ee, <- (assoc_L (++)). }
  cbn [set_body push_header status content_type allow r_body]. rewrite Es, Ec, Ea.
  split_and!; try done; [by apply varies_on_set_body|congruence].
Qed.

(** Chunks that were encoded one by one and finished decompress to their concatenation. *)
Lemma sg_encode_all_ok `{GzLaws} chunks s i t outs s' :
  enc_ok (sg_encoder s) i t → sg_encode_all chunks s = Some (outs, s') →
  enc_ok (sg_encoder s') (i ++ concat chunks) (t ++ concat outs).
Proof.
  revert s i t outs. induction chunks as [|c chunks IH]; intros s i t outs Hok Hrun.
  { injection Hrun as <- <-. by rewrite !app_nil_r. }
  cbn [sg_encode_all] in Hrun. destruct (sg_encode_chunk c s) as [[out s1]|] eqn:Ec; [|done].
  destruct (sg_encode_all chunks s1) as [[outs' s2]|] eqn:Er; [|done].
  injection Hrun as <- <-. cbn [concat]. rewrite !(assoc_L (++)). eapply IH; [|exact Er].
  unfold sg_encode_chunk in Ec. destruct (bool_decide (c = [])) eqn:Hc.
  { bool_to_prop. subst c. injection Ec as <- <-. by rewrite !app_nil_r. }
  destruct (enc_write_all _ c) as [e1|] eqn:E1; [|done].
  destruct (enc_flush e1) as [e2|] eqn:E2; [|done]. injection Ec as <- <-.
  apply enc_ok_take. eapply enc_ok_flush; [|exact E2]. by eapply enc_ok_write.
Qed.

(** ** Theorems *)

(** responses under compression can be cached.  What the response becomes depends on the
    [Accept-Encoding] values of the request only, and if two requests get different responses
    then both responses vary on [Accept-Encoding]. *)
Theorem compression_cache_safe `{AnyTypes} `{GzLaws} h1 h2 config r :
  (accept_values h1 = accept_values h2 → apply_compression h1 config r = apply_compression h2 config r)
  ∧ (apply_compression h1 config r ≠ apply_compression h2 config r →
     varies_on (lit "Accept-Encoding") (apply_compression h1 config r)
     ∧ varies_on (lit "Accept-Encoding") (apply_compression h2 config r)).
Proof.
  assert (∀ h, apply_compression h config r = apply_compression h1 config r
    ∨ varies_on (lit "Accept-Encoding") (apply_compression h config r)
      ∧ varies_on (lit "Accept-Encoding") (apply_compression h1 config r)
      ∧ accepts_gzip h ≠ accepts_gzip h1) as Hone.
  { intros h. unfold apply_compression, plan_compression. destruct (gz_vary_adds r) as (_ & _ & _ & Hv).
    assert (∀ d, varies_on (lit "Accept-Encoding")
              (attach_compressed (gz_try_add_vary (lit "Accept-Encoding") r) d)) as Hva.
    { intros d. unfold attach_compressed. destruct (_ || _); [done|].
      rewrite gz_content_encoding. by apply varies_on_set_body. }
    destruct (_ || _); [by left|]. match goal with |- context [if ?b then Skip r else _] => destruct b end; [by left|].
    destruct (response_header _ (gz_try_add_vary _ _)); [by left|].
    destruct (accepts_gzip h), (accepts_gzip h1); cbn [negb]; auto. }
  split.
  - intros E%accepts_gzip_values. destruct (Hone h2) as [->|(_ & _ & ?)]; [done|congruence].
  - intros Hne. destruct (Hone h2) as [E|(? & ? & _)]; [congruence|done].
Qed.

(** ** A codec that satisfies the laws

    Runs of a byte, as pairs of the length and the byte; nothing is ever pending. *)

Fixpoint rle (s : bytes) : bytes :=
  match s with
  | [] => []
  | b :: s =>
      match rle s with
      | n :: c :: r => if beqb b c && (bv n <? 255)%N then byte_of (bv n + 1) :: c :: r
                       else x01 :: b :: n :: c :: r
      | _ => [x01; b]
      end
  end.

Fixpoint unrle (s : bytes) : option bytes :=
  match s with
  | [] => Some []
  | n :: c :: s => app (replicate (N.to_nat (bv n)) c) <$> unrle s
  | [_] => None
  end.

Lemma unrle_app a b x y : unrle a = Some x → unrle b = Some y → unrle (a ++ b) = Some (x ++ y).
Proof.
  intros Ha Hb. revert x Ha. induction a as [a IH] using (induction_ltof1 _ length). unfold ltof in IH.
  intros x Ha. destruct a as [|n [|c a]]; [by injection Ha as <-|done|]. cbn [unrle app] in *.
  destruct (unrle a) as [z|] eqn:Ez; [|done]. injection Ha as <-.
  rewrite (IH a ltac:(simpl; lia) z Ez). cbn. by rewrite (assoc_L (++)).
Qed.

Lemma unrle_rle s : unrle (rle s) = Some s.
Proof.
  induction s as [|b s IH]; [done|]. cbn [rle]. destruct (rle s) as [|n [|c r]]; [by injection IH as <-|discriminate IH|].
  cbn [unrle] in IH. destruct (unrle r) as [z|] eqn:Ez; [|done]. injection IH as <-.
  destruct (beqb b c && (bv n <? 255)%N) eqn:E; cbn [unrle].
  - rewrite Ez. cbn [fmap option_fmap option_map]. bool_to_prop. apply beqb_eq in H as ->. rewrite bv_byte_of by lia.
    by replace (N.to_nat ((bv n + 1) `mod` 256)) with (S (N.to_nat (bv n))) by (rewrite N.mod_small; lia).
  - by rewrite Ez.
Qed.

#[export] Instance rle_encoder : GzEncoder := {
  Enc := bytes;
  enc_new := [];
  enc_write_all e d := Some (e ++ rle d);
  enc_flush e := Some e;
  enc_get_ref e := e;
  enc_set_inner _ b := b;
  enc_finish e := Some e;
}.

#[export, refine] Instance rle_laws : GzLaws := {
  gunzip := unrle;
  enc_ok e i t := unrle (t ++ e) = Some i;
}.
Proof.
  - done.
  - intros e e' d i t H [= <-]. rewrite (assoc_L (++)). apply unrle_app; [done|apply unrle_rle].
  - intros e e' i t H [= <-]. done.
  - intros e i t H. cbn in *. by rewrite app_nil_r.
  - intros e i t out H [= <-]. done.
Defined.

#[local] Existing Instance demo_types.

Definition demo_gzip_head : @RequestHead demo_types :=
  head_of {| a_method := lit "GET"; a_target := lit "/"; a_version := Http11;
             a_fields := [demo_field (lit "Accept-Encoding") (lit "br;q=1, GZIP; q=0.5, *;q=0")] |}.

Definition demo_compression : CompressionConfig :=
  compression_build (set_min_size 3 compression_builder).

Definition demo_plain : Response := with_content_type (lit "text/plain") (response_new 200 (lit "aaaaaa")).

Lemma demo_compressed :
  apply_compression demo_gzip_head demo_compression demo_plain
  = set_body [x06; x61] (push_header (lit "Content-Encoding") (lit "gzip")
      (push_header (lit "Vary") (lit "Accept-Encoding") demo_plain)).
Proof. by vm_compute. Qed.

Lemma compression_cache_safe_witness :
  varies_on (lit "Accept-Encoding")
    (apply_compression (head_of demo_ast) demo_compression demo_plain).
Proof.
  apply (compression_cache_safe demo_gzip_head (head_of demo_ast) demo_compression demo_plain).
  rewrite demo_compressed. intros E. apply (f_equal r_body) in E. vm_compute in E. discriminate E.
Defined.
