(* ===== verification/CompressionSpec.v ===== *)
(** * What a client allows

    The elements of [Accept-Encoding] as RFC 9110 writes them (section 12.5.3), with weights in
    thousandths, and what they say of gzip.  The parser of plugin-compression, which reads weights as
    floating point numbers, decides exactly that for well-formed fields, and so a response is only
    compressed for a client that allows it. *)

From S2P Require Import Prelude Text Radix F32 Extensions Request RequestSpec Response ResponseSpec Compression.

(** ** The grammar *)

(** [qvalue], with its value in thousandths. *)
Inductive qvalue : bytes → N → Prop :=
| qvalue_zero : qvalue (lit "0") 0
| qvalue_fraction ds v :
    length ds ≤ 3 → forallb is_ascii_digit ds = true → digits_value 10 0 ds = Some v →
    qvalue (lit "0." ++ ds) (v * 10 ^ (3 - len ds))
| qvalue_one : qvalue (lit "1") 1000
| qvalue_one_zeros n : n ≤ 3 → qvalue (lit "1." ++ replicate n x30) 1000.

(** A coding with the weight the client gives it. *)
Record Pref := { p_coding : bytes; p_weight : N }.

Definition ows (s : bytes) : Prop := forallb is_ows s = true.
Definition coding_name (c : bytes) : Prop := c ≠ [] ∧ forallb is_tchar c = true.

(** One element of the list; an empty one says nothing. *)
Inductive element : bytes → list Pref → Prop :=
| element_empty a : ows a → element a []
| element_plain a c b :
    ows a → coding_name c → ows b → element (a ++ c ++ b) [{| p_coding := c; p_weight := 1000 |}]
| element_weight a c b a' q text w b' :
    ows a → coding_name c → ows b → ows a' → q = lit "q=" ∨ q = lit "Q=" → qvalue text w → ows b' →
    element (a ++ c ++ b ++ [x3b] ++ a' ++ q ++ text ++ b') [{| p_coding := c; p_weight := w |}].

(** A field value. *)
Inductive field : bytes → list Pref → Prop :=
| field_one e ps : element e ps → field e ps
| field_more e v ps qs : element e ps → field v qs → field (e ++ x2c :: v) (ps ++ qs).

(** ** What the client says of gzip *)

Definition is_gzip (c : bytes) : bool := eq_ignore_ascii_case c (lit "gzip") || eq_ignore_ascii_case c (lit "x-gzip").
Definition is_star (c : bytes) : bool := str_eqb c (lit "*").

(** The weight that is given last to a coding. *)
Definition weight_of (p : bytes → bool) (ps : list Pref) : option N :=
  last (p_weight <$> List.filter (λ x, p (p_coding x)) ps).

(** Gzip by its name, or else by the wildcard, with a weight that is not zero. *)
Definition wants_gzip (ps : list Pref) : bool :=
  match weight_of is_gzip ps with
  | Some w => (0 <? w)%N
  | None => match weight_of is_star ps with Some w => (0 <? w)%N | None => false end
  end.

(** The preferences of a request whose fields are well formed, in order. *)
Definition client_prefers `{AnyTypes} (head : RequestHead) (ps : list Pref) : Prop :=
  ∃ pss, Forall2 field (accept_values head) pss ∧ ps = concat pss.

(** ** Weights *)

Definition weight_read (text : bytes) (w : N) : bool :=
  forallb is_graph text
  && match parse_f32 text with
     | Some v => f32_in_unit v && Bool.eqb (f32_positive v) (0 <? w)%N
     | None => false
     end.

Definition decimal_digits : bytes := [x30; x31; x32; x33; x34; x35; x36; x37; x38; x39].
Fixpoint digit_texts (n : nat) : list bytes :=
  match n with
  | O => [[]]
  | S n => [] :: flat_map (λ ds, (λ d, d :: ds) <$> decimal_digits) (digit_texts n)
  end.

Lemma decimal_digit_in b : is_ascii_digit b = true → b ∈ decimal_digits.
Proof. intros H. apply list_elem_of_In. revert H. by_bytes b. Qed.

Lemma digit_text_in n ds : length ds ≤ n → forallb is_ascii_digit ds = true → ds ∈ digit_texts n.
Proof.
  revert n. induction ds as [|d ds IH]; intros [|n] Hn Hd; cbn in Hn; try lia; try (by left).
  cbn in Hd. apply andb_prop in Hd as [Hd Hds]. cbn [digit_texts]. apply elem_of_cons. right.
  apply list_elem_of_In, in_flat_map. exists ds. split; [apply list_elem_of_In, IH; [lia|done]|].
  apply list_elem_of_In, list_elem_of_fmap. exists d. split; [done|]. by apply decimal_digit_in.
Qed.

Lemma fractions_read :
  forallb (λ ds, match digits_value 10 0 ds with
                 | Some v => weight_read (lit "0." ++ ds) (v * 10 ^ (3 - len ds))
                 | None => true
                 end) (digit_texts 3) = true.
Proof. vm_compute. reflexivity. Qed.

(** Every weight is read as a number in the unit interval, positive exactly if it is. *)
Lemma qvalue_read text w : qvalue text w → weight_read text w = true.
Proof.
  intros [|ds v Hl Hd Hv| |n Hn].
  - vm_compute. reflexivity.
  - pose proof (proj1 (forallb_forall _ _) fractions_read ds) as H. cbv beta in H. rewrite Hv in H.
    apply H, list_elem_of_In. by apply digit_text_in.
  - vm_compute. reflexivity.
  - do 4 (destruct n as [|n]; [vm_compute; reflexivity|]). lia.
Qed.

(** ** Elements *)

Lemma ows_ws1 b : is_ows b = true → ws1 b = true.
Proof. unfold is_ows, ws1. intros [->|H]%orb_prop; [apply orb_true_r|]. by apply beqb_eq in H as ->. Qed.

Lemma trim_ws_ows back a s : ows a → trim_ws back (a ++ s) = trim_ws back s.
Proof.
  unfold ows. induction a as [|c a IH]; [done|]. cbn [forallb]. intros [Hc Ha]%andb_prop. cbn [app trim_ws].
  rewrite (ows_ws1 _ Hc). by apply IH.
Qed.

Lemma ows_reverse a : ows a → ows (reverse a).
Proof. unfold ows. rewrite !forallb_forall. intros H x Hx. apply H. apply list_elem_of_In, elem_of_reverse. by apply list_elem_of_In. Qed.

Lemma trim_around a s b : ows a → ows b → forallb is_graph s = true → trim (a ++ s ++ b) = s.
Proof.
  intros Ha Hb Hs. unfold trim. rewrite trim_ws_ows by done. destruct s as [|c s1].
  { cbn [app]. rewrite <- (app_nil_r b), (trim_ws_ows _ _ _ Hb). done. }
  pose proof Hs as Hs'. cbn in Hs'. apply andb_prop in Hs' as [Hc _]. cbn [app]. rewrite trim_ws_graph by done.
  change (c :: s1 ++ b) with ((c :: s1) ++ b). rewrite reverse_app, trim_ws_ows by by apply ows_reverse.
  destruct (exists_last (l := c :: s1)) as (s2 & d & E); [done|]. rewrite E in Hs |- *.
  rewrite forallb_app in Hs. cbn in Hs. bool_to_prop. rewrite reverse_app, reverse_singleton. cbn [app].
  rewrite trim_ws_graph by done. by rewrite reverse_cons, reverse_involutive.
Qed.

Lemma tchar_graph b : is_tchar b = true → is_graph b = true ∧ b ≠ x3b ∧ b ≠ x2c.
Proof. intros H. split_and!; [revert H; by_bytes b|intros ->; discriminate H..]. Qed.

Lemma coding_name_graph c : coding_name c → forallb is_graph c = true ∧ contains x3b c = false ∧ contains x2c c = false.
Proof.
  intros [_ H]. rewrite !contains_false, forallb_forall. rewrite forallb_forall in H. setoid_rewrite Forall_forall.
  setoid_rewrite list_elem_of_In. split_and!; intros x Hx; by apply tchar_graph, H.
Qed.

Lemma contains_ows x a : ows a → is_ows x = false → contains x a = false.
Proof.
  intros Ha Hx. apply contains_false, Forall_forall. intros y Hy ->. unfold ows in Ha. rewrite forallb_forall in Ha.
  apply list_elem_of_In, Ha in Hy. congruence.
Qed.

(** The characters of a weight. *)
Lemma qvalue_plain text w x : qvalue text w → x = x2c ∨ x = x3b → contains x text = false.
Proof.
  intros H Hx. destruct H as [|ds v Hl Hd Hv| |n Hn].
  - by destruct Hx as [-> | ->].
  - assert (contains x ds = false) as Hc.
    { apply contains_false, Forall_forall. intros y Hy ->. rewrite forallb_forall in Hd. apply list_elem_of_In, Hd in Hy.
      by destruct Hx as [-> | ->]. }
    unfold contains in *. rewrite existsb_app, Hc. by destruct Hx as [-> | ->].
  - by destruct Hx as [-> | ->].
  - do 4 (destruct n as [|n]; [by destruct Hx as [-> | ->]|]). lia.
Qed.

Lemma accept_weight acc a q text w b :
  ows a → q = lit "q=" ∨ q = lit "Q=" → qvalue text w → ows b →
  ∃ v, accept_param acc (a ++ q ++ text ++ b) = (v, acc.2) ∧ f32_positive v = (0 <? w)%N.
Proof.
  intros Ha Hq Hw Hb. pose proof (qvalue_read _ _ Hw) as Hr. unfold weight_read in Hr. apply andb_prop in Hr as [Hg Hr].
  destruct (parse_f32 text) as [v|] eqn:Ev; [|done]. apply andb_prop in Hr as [Hu Hp%eqb_prop]. exists v. split; [|done].
  assert (trim (a ++ q ++ text ++ b) = q ++ text) as Ht.
  { rewrite (assoc_L (++) q). apply trim_around; [done..|]. rewrite forallb_app, Hg, andb_true_r. by destruct Hq as [-> | ->]. }
  unfold accept_param. destruct acc as [q0 ok]. rewrite Ht.
  assert (trim text = text) as Htt by by apply trim_all_graph.
  destruct Hq as [-> | ->].
  - assert (strip_prefix (lit "q=") (lit "q=" ++ text) = Some text) as -> by done. by rewrite Htt, Ev, Hu.
  - assert (strip_prefix (lit "q=") (lit "Q=" ++ text) = None) as -> by done.
    assert (strip_prefix (lit "Q=") (lit "Q=" ++ text) = Some text) as -> by done. by rewrite Htt, Ev, Hu.
Qed.

(** The two qualities of the parser against the preferences so far. *)
Definition reads (acc : option f32 * option f32) (ps : list Pref) : Prop :=
  f32_positive <$> acc.1 = N.ltb 0 <$> weight_of is_gzip ps ∧ f32_positive <$> acc.2 = N.ltb 0 <$> weight_of is_star ps.

Lemma weight_of_snoc p ps x :
  weight_of p (ps ++ [x]) = if p (p_coding x) then Some (p_weight x) else weight_of p ps.
Proof.
  unfold weight_of. rewrite List.filter_app, fmap_app, last_app. cbn. by destruct (p (p_coding x)).
Qed.

Lemma star_not_gzip c : is_gzip c = true → str_eqb c (lit "*") = false.
Proof. unfold str_eqb. intros H. apply bool_decide_eq_false. by intros ->. Qed.

(** One pref with the quality the parser has for it. *)
Lemma reads_snoc acc ps x v :
  reads acc ps → f32_positive v = (0 <? p_weight x)%N →
  reads (if is_gzip (p_coding x) then (Some v, acc.2) else if is_star (p_coding x) then (acc.1, Some v) else acc) (ps ++ [x]).
Proof.
  intros [Hg Hs] Hv. unfold reads. rewrite !weight_of_snoc.
  destruct (is_gzip (p_coding x)) eqn:Eg; cbn [fst snd].
  - unfold is_star. rewrite star_not_gzip by done. cbn. by rewrite Hv.
  - destruct (is_star (p_coding x)); cbn; by rewrite ?Hv.
Qed.

Lemma accept_element acc ps e qs : reads acc ps → element e qs → reads (accept_token acc e) (ps ++ qs).
Proof.
  intros Hr He. destruct acc as [g s]. destruct He as [a Ha|a c b Ha [Nc Hc] Hb|a c b a' q text w b' Ha [Nc Hc] Hb Ha' Hq Hw Hb'].
  - unfold accept_token. rewrite split_no_occ by by apply contains_ows.
    assert (trim a = []) as -> by by (rewrite <- (app_nil_r a); apply (trim_around a [] [])). by rewrite app_nil_r.
  - destruct (coding_name_graph c) as (Hg & H3 & H2); [done|]. unfold accept_token.
    rewrite split_no_occ by (rewrite !contains_app, H3, !contains_ows by done; done).
    rewrite trim_around, bool_decide_false by done. cbn [foldl negb]. by apply (reads_snoc (g, s) ps (Build_Pref c 1000)).
  - destruct (coding_name_graph c) as (Hg & H3 & H2); [done|]. unfold accept_token.
    replace (a ++ c ++ b ++ [x3b] ++ a' ++ q ++ text ++ b') with ((a ++ c ++ b) ++ x3b :: a' ++ q ++ text ++ b')
      by (by rewrite <- !(assoc_L (++))).
    rewrite split_app_sep by (rewrite !contains_app, H3, !contains_ows by done; done).
    rewrite split_no_occ.
    2:{ rewrite !contains_app, (contains_ows _ a'), (contains_ows _ b'), (qvalue_plain text w) by auto. by destruct Hq as [-> | ->]. }
    rewrite trim_around, bool_decide_false by done. cbn [foldl].
    destruct (accept_weight (f32_one, true) a' q text w b' Ha' Hq Hw Hb') as (v & -> & Hv). cbn [snd negb].
    by apply (reads_snoc (g, s) ps (Build_Pref c w)).
Qed.

Lemma element_no_comma e qs : element e qs → contains x2c e = false.
Proof.
  intros [a Ha|a c b Ha Hc Hb|a c b a' q text w b' Ha Hc Hb Ha' Hq Hw Hb'].
  - by apply contains_ows.
  - destruct (coding_name_graph c Hc) as (_ & _ & H2). by rewrite !contains_app, H2, !contains_ows.
  - destruct (coding_name_graph c Hc) as (_ & _ & H2).
    rewrite !contains_app, H2, (contains_ows _ a), (contains_ows _ b), (contains_ows _ a'), (contains_ows _ b'), (qvalue_plain text w) by auto.
    by destruct Hq as [-> | ->].
Qed.

Lemma accept_field_reads acc ps v qs : reads acc ps → field v qs → reads (foldl accept_token acc (split x2c v)) (ps ++ qs).
Proof.
  intros Hr Hf. revert acc ps Hr. induction Hf as [e qs He|e qs v rs He _ IH]; intros acc ps Hr.
  - rewrite split_no_occ by by eapply element_no_comma. by apply accept_element.
  - rewrite split_app_sep by by eapply element_no_comma. cbn [foldl]. rewrite (assoc_L (++)). by apply IH, accept_element.
Qed.

(** The parser decides what the client says. *)
Lemma accepts_gzip_wants `{AnyTypes} head ps : client_prefers head ps → accepts_gzip head = wants_gzip ps.
Proof.
  intros (pss & Hf & ->). unfold accepts_gzip. rewrite accept_fold_values. fold (accept_values head).
  assert (∀ vs acc qs pss, Forall2 field vs pss → reads acc qs →
    reads (foldl (λ a v, foldl accept_token a (split x2c v)) acc vs) (qs ++ concat pss)) as Hall.
  { intros vs acc qs pss0 H2. revert acc qs. induction H2 as [|v ps vs pss0 Hv _ IH]; intros acc qs Hr; cbn.
    - by rewrite app_nil_r.
    - rewrite (assoc_L (++)). by apply IH, accept_field_reads. }
  specialize (Hall (accept_values head) (None, None) [] pss Hf). destruct (foldl _ _ _) as [g s].
  destruct (Hall (conj eq_refl eq_refl)) as [Hg Hs]. cbn [app fst snd] in *. unfold wants_gzip.
  destruct (weight_of is_gzip (concat pss)), g; cbn in Hg; try done; [by injection Hg|].
  destruct (weight_of is_star (concat pss)), s; cbn in Hs; try done. by injection Hs.
Qed.

(** Well formed or not, some element names gzip or the wildcard before its parameters. *)
Definition mentions_gzip `{AnyTypes} (head : RequestHead) : Prop :=
  ∃ v e c params, v ∈ accept_values head ∧ e ∈ split x2c v ∧ split x3b e = c :: params
    ∧ (is_gzip (trim c) = true ∨ trim c = lit "*").

Lemma accepts_gzip_mentions `{AnyTypes} head : accepts_gzip head = true → mentions_gzip head.
Proof.
  intros Ha. unfold accepts_gzip in Ha. rewrite accept_fold_values in Ha. fold (accept_values head) in Ha.
  assert (∀ es acc, foldl accept_token acc es ≠ acc → ∃ e c params, e ∈ es ∧ split x3b e = c :: params
    ∧ (is_gzip (trim c) = true ∨ trim c = lit "*")) as Htok.
  { induction es as [|e es IH]; intros acc Hne; [done|]. cbn [foldl] in Hne.
    destruct (decide (accept_token acc e = acc)) as [E|E].
    - rewrite E in Hne. destruct (IH acc Hne) as (e' & c & params & Hin & H'). exists e', c, params. split; [by right|done].
    - clear IH. unfold accept_token in E. destruct acc as [g s]. destruct (split x3b e) as [|c params] eqn:Es; [done|].
      exists e, c, params. split_and!; [by left|done|]. destruct (bool_decide _); [done|].
      destruct (foldl accept_param _ params) as [q ok]. destruct ok; [|done]. cbn [negb] in E.
      unfold is_gzip. destruct (_ || _); [by left|]. right. destruct (str_eqb (trim c) (lit "*")) eqn:Est; [|done].
      by apply str_eqb_eq. }
  assert (∀ vs acc, foldl (λ a v, foldl accept_token a (split x2c v)) acc vs ≠ acc → ∃ v e c params, v ∈ vs ∧ e ∈ split x2c v
    ∧ split x3b e = c :: params ∧ (is_gzip (trim c) = true ∨ trim c = lit "*")) as Hall.
  { induction vs as [|v vs IH]; intros acc Hne; [done|]. cbn [foldl] in Hne.
    destruct (decide (foldl accept_token acc (split x2c v) = acc)) as [E|E].
    - rewrite E in Hne. destruct (IH acc Hne) as (v' & e & c & params & Hin & H'). exists v', e, c, params. split; [by right|done].
    - destruct (Htok _ _ E) as (e & c & params & Hin & H'). exists v, e, c, params. split; [by left|done]. }
  apply (Hall _ (None, None)). intros E. by rewrite E in Ha.
Qed.

(** ** Theorems *)

(** C11: compression only ever replaces a representation by its own gzip coding, and only for a client
    that allows it. The result is the response it was given, at most with [Vary: Accept-Encoding]
    added; or it is a strictly shorter body that decompresses to the original one, labelled
    [Content-Encoding: gzip] and varying on [Accept-Encoding], and then the response was a 2xx other than
    204 of at least [min_size] bytes without a coding, an element of the request's [Accept-Encoding]
    names gzip, x-gzip or the wildcard, and if the fields are well formed, the weight they give last
    to gzip, or else to the wildcard, is not zero. Conversely, if they give gzip such a weight, a response
    of a configured type that meets the conditions is replaced whenever the encoder makes it shorter. *)
Theorem compression_sound `{AnyTypes} `{GzLaws} head config r :
  let r' := apply_compression head config r in
  (same_representation r r'
   ∨ gzip_representation r r' ∧ mentions_gzip head ∧ (∀ ps, client_prefers head ps → wants_gzip ps = true)
     ∧ (200 <= status r < 300)%N ∧ status r ≠ 204%N ∧ (min_size config <= len (r_body r))%N)
  ∧ ∀ ps ct, client_prefers head ps → wants_gzip ps = true →
      (200 <= status r < 300)%N → status r ≠ 204%N → (min_size config <= len (r_body r))%N →
      response_header (lit "content-type") r = Some ct → matches_content_type config ct = true →
      response_header (lit "content-encoding") (gz_try_add_vary (lit "Accept-Encoding") r) = None →
      compress_body (r_body r) ≠ [] → (len (compress_body (r_body r)) < len (r_body r))%N →
      gzip_representation r r'.
Proof.
  cbv zeta. unfold apply_compression. destruct (gz_vary_adds r) as (hs & Hadds & Hhs & _).
  assert (r_body (gz_try_add_vary (lit "Accept-Encoding") r) = r_body r) as Eb by apply Hadds. split.
  - pose proof (plan_compression_cases head config r) as Hp.
    destruct (plan_compression head config r) as [r'|r']; [by left|]. destruct Hp as (-> & Ha & Hce & Hs & Hn & Hm).
    rewrite Eb. destruct (attach_compressed_cases r _ Hce (compress_body_decodes (r_body r))) as [->|Hg].
    + left. by exists hs.
    + right. split; [done|]. split; [by apply accepts_gzip_mentions|]. split; [|by split; [exact Hs|split; [exact Hn|exact Hm]]].
      intros ps Hps. by rewrite <- (accepts_gzip_wants _ _ Hps).
  - intros ps ct Hps Hw Hs Hn Hm Hct Hmt Hce Hne Hlt. pose proof (accepts_gzip_wants _ _ Hps) as Ha. rewrite Hw in Ha.
    assert (plan_compression head config r = Compress (gz_try_add_vary (lit "Accept-Encoding") r)) as ->.
    { unfold plan_compression. rewrite (proj2 (N.eqb_neq _ _) Hn). rewrite (proj2 (N.leb_le 200 _)), (proj2 (N.ltb_lt _ 300)) by lia.
      cbn [andb negb orb]. rewrite Hct, Hmt, (proj2 (N.leb_le _ _) Hm). cbn [andb negb]. by rewrite Hce, Ha. }
    rewrite Eb. pose proof (adds_response_header (lit "content-encoding") _ _ _ Hadds eq_refl Hce) as Hce'.
    destruct (attach_compressed_cases r _ Hce' (compress_body_decodes (r_body r))) as [E|Hg]; [|done]. exfalso.
    unfold attach_compressed in E. rewrite Eb, bool_decide_false, (proj2 (N.leb_gt _ _) Hlt) in E by done. cbn [orb] in E.
    apply (f_equal r_body) in E. change (compress_body (r_body r) = r_body (gz_try_add_vary (lit "Accept-Encoding") r)) in E. rewrite Eb in E. rewrite E in Hlt. by apply N.lt_irrefl in Hlt.
Qed.

(** ** Instances *)

#[local] Existing Instance demo_types.

(** Two elements and a weight of zero. *)
Lemma demo_prefers :
  client_prefers demo_gzip_head
    [{| p_coding := lit "br"; p_weight := 1000 |}; {| p_coding := lit "GZIP"; p_weight := 500 |}; {| p_coding := lit "*"; p_weight := 0 |}].
Proof.
  exists [[{| p_coding := lit "br"; p_weight := 1000 |}; {| p_coding := lit "GZIP"; p_weight := 500 |}; {| p_coding := lit "*"; p_weight := 0 |}]].
  split; [|reflexivity]. change (accept_values demo_gzip_head) with [lit "br;q=1, GZIP; q=0.5, *;q=0"].
  constructor; [|constructor].
  apply (field_more (lit "br;q=1") (lit " GZIP; q=0.5, *;q=0") [_] [_; _]).
  { apply (element_weight [] (lit "br") [] [] (lit "q=") (lit "1") 1000 []); try done; [by left|constructor]. }
  apply (field_more (lit " GZIP; q=0.5") (lit " *;q=0") [_] [_]).
  { apply (element_weight (lit " ") (lit "GZIP") [] (lit " ") (lit "q=") (lit "0.5") 500 []); try done; [by left|].
    apply (qvalue_fraction (lit "5") 5); [cbn; lia|done|done]. }
  constructor. apply (element_weight (lit " ") (lit "*") [] [] (lit "q=") (lit "0") 0 []); try done; [by left|constructor].
Qed.

Lemma compression_sound_witness :
  gunzip (r_body (apply_compression demo_gzip_head demo_compression demo_plain)) = Some (lit "aaaaaa").
Proof.
  destruct (compression_sound demo_gzip_head demo_compression demo_plain) as [_ Hc].
  pose proof (Hc _ (lit "text/plain") demo_prefers) as (_ & _ & _ & _ & _ & _ & Hg & _).
  - vm_compute. reflexivity.
  - vm_compute. split; [discriminate|reflexivity].
  - vm_compute. discriminate.
  - vm_compute. discriminate.
  - reflexivity.
  - vm_compute. reflexivity.
  - vm_compute. reflexivity.
  - vm_compute. discriminate.
  - vm_compute. reflexivity.
  - exact Hg.
Defined.

(** A client that refuses gzip. *)
Example demo_refused :
  wants_gzip [{| p_coding := lit "gzip"; p_weight := 0 |}; {| p_coding := lit "*"; p_weight := 1000 |}] = false.
Proof. vm_compute. reflexivity. Qed.
