(* ===== verification/ServerConfig.v ===== *)
(** * [core]: the configuration of the server

    The traits an application implements ([Handler], [Interceptor], [Middleware]) as records of
    functions, the [Server] with its builder, and the class of the path plugins: the plugins
    that answer a path of their own by talking to other systems (WebRTC, GraphQL, the file
    system, WebSocket sessions), of which the server only uses the functions named here.
    Middleware only observes: it is its name, and what it is told is an event of the trace. *)

From S2P Require Import Prelude Text Utf8 Extensions Request Response Chunked Routes Gate Cors Compression.

(** [std::time::Duration] and instants, in nanoseconds. *)
Definition Duration : Type := N.
Definition from_secs (s : N) : Duration := (s * 1000000000)%N.

Definition DEFAULT_READ_TIMEOUT : Duration := from_secs 30.
Definition FAR_FUTURE_FALLBACK : Duration := from_secs (30 * 24 * 60 * 60).
Definition DEFAULT_WRITE_TIMEOUT : Duration := from_secs 30.
Definition DEFAULT_MAX_CONNECTION_LIFETIME : Duration := from_secs 300.
Definition DEFAULT_MAX_REQUESTS_PER_CONNECTION : N := 1000.
Definition DEFAULT_MAX_CONNECTIONS : N := 10000.
Definition DEFAULT_SHUTDOWN_GRACE_PERIOD : Duration := from_secs 30.

(** The response types of the plugins that do not depend on the http crate. *)
Record PluginResponse := { p_status : N; p_body : bytes; p_content_type : bytes }.

Section config.
Context {AT : AnyTypes}.

(** What the server uses of the path plugins. *)
Class PathPlugins := {
  ProxyConfig : Type;
  try_rtc_proxy : RequestHead → bytes → ProxyConfig → option PluginResponse;
  WebRtcConfig : Type;
  try_rtc_offer : RequestHead → bytes → WebRtcConfig → option Response;
  GraphQlConfig : Type;
  try_graphql : RequestHead → bytes → GraphQlConfig → option PluginResponse;
  StaticFilesConfig : Type;
  try_static : RequestHead → StaticFilesConfig → option Response;
  WebSocketConfig : Type;
  websocket_matches : RequestHead → WebSocketConfig → bool;
  OPENAPI_JSON : bytes;
  OPENAPI_YAML : bytes;
}.

Record OpenApiDoc := { doc_json : bytes; doc_yaml : option bytes }.

Inductive OpenApiRegistration :=
| Disabled
| Embedded
| Custom (doc : OpenApiDoc).

(** What a body channel delivers: the events sent before the writers were dropped.  The end of
    the list is the closed channel, [RecvOutcome::Aborted]. *)
Inductive StreamEvent :=
| StreamChunk (data : bytes)
| StreamEnd.

Record StreamingResponse := {
  s_status : N;
  s_content_type : option bytes;
  s_rx : list StreamEvent;
}.

(** [trait Handler]; [handle_streaming] is [None] unless the application overrides it. *)
Record Handler := {
  handle : RequestHead → bytes → Response;
  handle_streaming : RequestHead → bytes → option StreamingResponse;
}.

(** [impl Handler for Router]. *)
Definition router_handler `{HashOrder} (r : @Router AT Response) : Handler :=
  {| handle := dispatch id r; handle_streaming := λ _ _, None |}.

(** [trait Interceptor]. *)
Record Interceptor := {
  intercept : RequestHead → bytes → option Response;
  map_response : RequestHead → Response → Response;
}.

Context {PP : PathPlugins}.

(** [WebSocketUpgradeAdapter]. *)
Definition websocket_adapter (config : WebSocketConfig) : UpgradeHandler :=
  {| upgrade_name := lit "websocket"; upgrade_matches := λ head, websocket_matches head config |}.

Record Server := {
  middlewares : list bytes;
  gates : list RequestGate;
  upgrade_handlers : list UpgradeHandler;
  interceptors : list Interceptor;
  handler : option Handler;
  max_connections : N;
  max_connection_lifetime : Duration;
  max_requests_per_connection : N;
  srv_max_body_bytes : N;
  read_timeout : Duration;
  keep_alive_enabled : bool;
  shutdown_grace_period : Duration;
  webrtc_proxy_config : option ProxyConfig;
  webrtc_config : option WebRtcConfig;
  websocket_configs : list WebSocketConfig;
  graphql_config : option GraphQlConfig;
  openapi_registration : OpenApiRegistration;
  cors_config : option CorsConfig;
  compression_config : option CompressionConfig;
  static_files_config : option StaticFilesConfig;
}.

(** [impl Default for Server]. *)
Definition server_new : Server :=
  {| middlewares := []; gates := []; upgrade_handlers := []; interceptors := []; handler := None;
     max_connections := DEFAULT_MAX_CONNECTIONS;
     max_connection_lifetime := DEFAULT_MAX_CONNECTION_LIFETIME;
     max_requests_per_connection := DEFAULT_MAX_REQUESTS_PER_CONNECTION;
     srv_max_body_bytes := MAX_BODY_BYTES; read_timeout := DEFAULT_READ_TIMEOUT;
     keep_alive_enabled := true; shutdown_grace_period := DEFAULT_SHUTDOWN_GRACE_PERIOD;
     webrtc_proxy_config := None; webrtc_config := None; websocket_configs := [];
     graphql_config := None; openapi_registration := Disabled; cors_config := None;
     compression_config := None; static_files_config := None |}.

Definition set_max_connections (max : N) (self : Server) : Server :=
  {| middlewares := middlewares self; gates := gates self;
     upgrade_handlers := upgrade_handlers self; interceptors := interceptors self;
     handler := handler self; max_connections := max;
     max_connection_lifetime := max_connection_lifetime self;
     max_requests_per_connection := max_requests_per_connection self;
     srv_max_body_bytes := srv_max_body_bytes self; read_timeout := read_timeout self;
     keep_alive_enabled := keep_alive_enabled self;
     shutdown_grace_period := shutdown_grace_period self;
     webrtc_proxy_config := webrtc_proxy_config self; webrtc_config := webrtc_config self;
     websocket_configs := websocket_configs self; graphql_config := graphql_config self;
     openapi_registration := openapi_registration self; cors_config := cors_config self;
     compression_config := compression_config self;
     static_files_config := static_files_config self |}.

Definition set_max_connection_lifetime (max : Duration) (self : Server) : Server :=
  {| middlewares := middlewares self; gates := gates self;
     upgrade_handlers := upgrade_handlers self; interceptors := interceptors self;
     handler := handler self; max_connections := max_connections self;
     max_connection_lifetime := max;
     max_requests_per_connection := max_requests_per_connection self;
     srv_max_body_bytes := srv_max_body_bytes self; read_timeout := read_timeout self;
     keep_alive_enabled := keep_alive_enabled self;
     shutdown_grace_period := shutdown_grace_period self;
     webrtc_proxy_config := webrtc_proxy_config self; webrtc_config := webrtc_config self;
     websocket_configs := websocket_configs self; graphql_config := graphql_config self;
     openapi_registration := openapi_registration self; cors_config := cors_config self;
     compression_config := compression_config self;
     static_files_config := static_files_config self |}.

Definition set_max_requests_per_connection (max : N) (self : Server) : Server :=
  {| middlewares := middlewares self; gates := gates self;
     upgrade_handlers := upgrade_handlers self; interceptors := interceptors self;
     handler := handler self; max_connections := max_connections self;
     max_connection_lifetime := max_connection_lifetime self; max_requests_per_connection := max;
     srv_max_body_bytes := srv_max_body_bytes self; read_timeout := read_timeout self;
     keep_alive_enabled := keep_alive_enabled self;
     shutdown_grace_period := shutdown_grace_period self;
     webrtc_proxy_config := webrtc_proxy_config self; webrtc_config := webrtc_config self;
     websocket_configs := websocket_configs self; graphql_config := graphql_config self;
     openapi_registration := openapi_registration self; cors_config := cors_config self;
     compression_config := compression_config self;
     static_files_config := static_files_config self |}.

Definition set_max_body_bytes (max : N) (self : Server) : Server :=
  {| middlewares := middlewares self; gates := gates self;
     upgrade_handlers := upgrade_handlers self; interceptors := interceptors self;
     handler := handler self; max_connections := max_connections self;
     max_connection_lifetime := max_connection_lifetime self;
     max_requests_per_connection := max_requests_per_connection self; srv_max_body_bytes := max;
     read_timeout := read_timeout self; keep_alive_enabled := keep_alive_enabled self;
     shutdown_grace_period := shutdown_grace_period self;
     webrtc_proxy_config := webrtc_proxy_config self; webrtc_config := webrtc_config self;
     websocket_configs := websocket_configs self; graphql_config := graphql_config self;
     openapi_registration := openapi_registration self; cors_config := cors_config self;
     compression_config := compression_config self;
     static_files_config := static_files_config self |}.

Definition set_read_timeout (timeout : Duration) (self : Server) : Server :=
  {| middlewares := middlewares self; gates := gates self;
     upgrade_handlers := upgrade_handlers self; interceptors := interceptors self;
     handler := handler self; max_connections := max_connections self;
     max_connection_lifetime := max_connection_lifetime self;
     max_requests_per_connection := max_requests_per_connection self;
     srv_max_body_bytes := srv_max_body_bytes self; read_timeout := timeout;
     keep_alive_enabled := keep_alive_enabled self;
     shutdown_grace_period := shutdown_grace_period self;
     webrtc_proxy_config := webrtc_proxy_config self; webrtc_config := webrtc_config self;
     websocket_configs := websocket_configs self; graphql_config := graphql_config self;
     openapi_registration := openapi_registration self; cors_config := cors_config self;
     compression_config := compression_config self;
     static_files_config := static_files_config self |}.

Definition set_keep_alive (enabled : bool) (self : Server) : Server :=
  {| middlewares := middlewares self; gates := gates self;
     upgrade_handlers := upgrade_handlers self; interceptors := interceptors self;
     handler := handler self; max_connections := max_connections self;
     max_connection_lifetime := max_connection_lifetime self;
     max_requests_per_connection := max_requests_per_connection self;
     srv_max_body_bytes := srv_max_body_bytes self; read_timeout := read_timeout self;
     keep_alive_enabled := enabled; shutdown_grace_period := shutdown_grace_period self;
     webrtc_proxy_config := webrtc_proxy_config self; webrtc_config := webrtc_config self;
     websocket_configs := websocket_configs self; graphql_config := graphql_config self;
     openapi_registration := openapi_registration self; cors_config := cors_config self;
     compression_config := compression_config self;
     static_files_config := static_files_config self |}.

Definition set_shutdown_grace_period (grace : Duration) (self : Server) : Server :=
  {| middlewares := middlewares self; gates := gates self;
     upgrade_handlers := upgrade_handlers self; interceptors := interceptors self;
     handler := handler self; max_connections := max_connections self;
     max_connection_lifetime := max_connection_lifetime self;
     max_requests_per_connection := max_requests_per_connection self;
     srv_max_body_bytes := srv_max_body_bytes self; read_timeout := read_timeout self;
     keep_alive_enabled := keep_alive_enabled self; shutdown_grace_period := grace;
     webrtc_proxy_config := webrtc_proxy_config self; webrtc_config := webrtc_config self;
     websocket_configs := websocket_configs self; graphql_config := graphql_config self;
     openapi_registration := openapi_registration self; cors_config := cors_config self;
     compression_config := compression_config self;
     static_files_config := static_files_config self |}.

Definition add_middleware (m : bytes) (self : Server) : Server :=
  {| middlewares := middlewares self ++ [m]; gates := gates self;
     upgrade_handlers := upgrade_handlers self; interceptors := interceptors self;
     handler := handler self; max_connections := max_connections self;
     max_connection_lifetime := max_connection_lifetime self;
     max_requests_per_connection := max_requests_per_connection self;
     srv_max_body_bytes := srv_max_body_bytes self; read_timeout := read_timeout self;
     keep_alive_enabled := keep_alive_enabled self;
     shutdown_grace_period := shutdown_grace_period self;
     webrtc_proxy_config := webrtc_proxy_config self; webrtc_config := webrtc_config self;
     websocket_configs := websocket_configs self; graphql_config := graphql_config self;
     openapi_registration := openapi_registration self; cors_config := cors_config self;
     compression_config := compression_config self;
     static_files_config := static_files_config self |}.

Definition add_gate (g : RequestGate) (self : Server) : Server :=
  {| middlewares := middlewares self; gates := gates self ++ [g];
     upgrade_handlers := upgrade_handlers self; interceptors := interceptors self;
     handler := handler self; max_connections := max_connections self;
     max_connection_lifetime := max_connection_lifetime self;
     max_requests_per_connection := max_requests_per_connection self;
     srv_max_body_bytes := srv_max_body_bytes self; read_timeout := read_timeout self;
     keep_alive_enabled := keep_alive_enabled self;
     shutdown_grace_period := shutdown_grace_period self;
     webrtc_proxy_config := webrtc_proxy_config self; webrtc_config := webrtc_config self;
     websocket_configs := websocket_configs self; graphql_config := graphql_config self;
     openapi_registration := openapi_registration self; cors_config := cors_config self;
     compression_config := compression_config self;
     static_files_config := static_files_config self |}.

Definition add_upgrade_handler (h : UpgradeHandler) (self : Server) : Server :=
  {| middlewares := middlewares self; gates := gates self;
     upgrade_handlers := upgrade_handlers self ++ [h]; interceptors := interceptors self;
     handler := handler self; max_connections := max_connections self;
     max_connection_lifetime := max_connection_lifetime self;
     max_requests_per_connection := max_requests_per_connection self;
     srv_max_body_bytes := srv_max_body_bytes self; read_timeout := read_timeout self;
     keep_alive_enabled := keep_alive_enabled self;
     shutdown_grace_period := shutdown_grace_period self;
     webrtc_proxy_config := webrtc_proxy_config self; webrtc_config := webrtc_config self;
     websocket_configs := websocket_configs self; graphql_config := graphql_config self;
     openapi_registration := openapi_registration self; cors_config := cors_config self;
     compression_config := compression_config self;
     static_files_config := static_files_config self |}.

Definition add_interceptor (i : Interceptor) (self : Server) : Server :=
  {| middlewares := middlewares self; gates := gates self;
     upgrade_handlers := upgrade_handlers self; interceptors := interceptors self ++ [i];
     handler := handler self; max_connections := max_connections self;
     max_connection_lifetime := max_connection_lifetime self;
     max_requests_per_connection := max_requests_per_connection self;
     srv_max_body_bytes := srv_max_body_bytes self; read_timeout := read_timeout self;
     keep_alive_enabled := keep_alive_enabled self;
     shutdown_grace_period := shutdown_grace_period self;
     webrtc_proxy_config := webrtc_proxy_config self; webrtc_config := webrtc_config self;
     websocket_configs := websocket_configs self; graphql_config := graphql_config self;
     openapi_registration := openapi_registration self; cors_config := cors_config self;
     compression_config := compression_config self;
     static_files_config := static_files_config self |}.

Definition set_handler (h : Handler) (self : Server) : Server :=
  {| middlewares := middlewares self; gates := gates self;
     upgrade_handlers := upgrade_handlers self; interceptors := interceptors self;
     handler := Some h; max_connections := max_connections self;
     max_connection_lifetime := max_connection_lifetime self;
     max_requests_per_connection := max_requests_per_connection self;
     srv_max_body_bytes := srv_max_body_bytes self; read_timeout := read_timeout self;
     keep_alive_enabled := keep_alive_enabled self;
     shutdown_grace_period := shutdown_grace_period self;
     webrtc_proxy_config := webrtc_proxy_config self; webrtc_config := webrtc_config self;
     websocket_configs := websocket_configs self; graphql_config := graphql_config self;
     openapi_registration := openapi_registration self; cors_config := cors_config self;
     compression_config := compression_config self;
     static_files_config := static_files_config self |}.

Definition set_webrtc_proxy (config : ProxyConfig) (self : Server) : Server :=
  {| middlewares := middlewares self; gates := gates self;
     upgrade_handlers := upgrade_handlers self; interceptors := interceptors self;
     handler := handler self; max_connections := max_connections self;
     max_connection_lifetime := max_connection_lifetime self;
     max_requests_per_connection := max_requests_per_connection self;
     srv_max_body_bytes := srv_max_body_bytes self; read_timeout := read_timeout self;
     keep_alive_enabled := keep_alive_enabled self;
     shutdown_grace_period := shutdown_grace_period self; webrtc_proxy_config := Some config;
     webrtc_config := webrtc_config self; websocket_configs := websocket_configs self;
     graphql_config := graphql_config self; openapi_registration := openapi_registration self;
     cors_config := cors_config self; compression_config := compression_config self;
     static_files_config := static_files_config self |}.

Definition set_webrtc (config : WebRtcConfig) (self : Server) : Server :=
  {| middlewares := middlewares self; gates := gates self;
     upgrade_handlers := upgrade_handlers self; interceptors := interceptors self;
     handler := handler self; max_connections := max_connections self;
     max_connection_lifetime := max_connection_lifetime self;
     max_requests_per_connection := max_requests_per_connection self;
     srv_max_body_bytes := srv_max_body_bytes self; read_timeout := read_timeout self;
     keep_alive_enabled := keep_alive_enabled self;
     shutdown_grace_period := shutdown_grace_period self;
     webrtc_proxy_config := webrtc_proxy_config self; webrtc_config := Some config;
     websocket_configs := websocket_configs self; graphql_config := graphql_config self;
     openapi_registration := openapi_registration self; cors_config := cors_config self;
     compression_config := compression_config self;
     static_files_config := static_files_config self |}.

(** An adapter among the upgrade handlers, and the configuration for the upgrade itself. *)
Definition add_websocket (config : WebSocketConfig) (self : Server) : Server :=
  {| middlewares := middlewares self; gates := gates self;
     upgrade_handlers := upgrade_handlers self ++ [websocket_adapter config];
     interceptors := interceptors self; handler := handler self;
     max_connections := max_connections self;
     max_connection_lifetime := max_connection_lifetime self;
     max_requests_per_connection := max_requests_per_connection self;
     srv_max_body_bytes := srv_max_body_bytes self; read_timeout := read_timeout self;
     keep_alive_enabled := keep_alive_enabled self;
     shutdown_grace_period := shutdown_grace_period self;
     webrtc_proxy_config := webrtc_proxy_config self; webrtc_config := webrtc_config self;
     websocket_configs := websocket_configs self ++ [config];
     graphql_config := graphql_config self; openapi_registration := openapi_registration self;
     cors_config := cors_config self; compression_config := compression_config self;
     static_files_config := static_files_config self |}.

Definition set_graphql (config : GraphQlConfig) (self : Server) : Server :=
  {| middlewares := middlewares self; gates := gates self;
     upgrade_handlers := upgrade_handlers self; interceptors := interceptors self;
     handler := handler self; max_connections := max_connections self;
     max_connection_lifetime := max_connection_lifetime self;
     max_requests_per_connection := max_requests_per_connection self;
     srv_max_body_bytes := srv_max_body_bytes self; read_timeout := read_timeout self;
     keep_alive_enabled := keep_alive_enabled self;
     shutdown_grace_period := shutdown_grace_period self;
     webrtc_proxy_config := webrtc_proxy_config self; webrtc_config := webrtc_config self;
     websocket_configs := websocket_configs self; graphql_config := Some config;
     openapi_registration := openapi_registration self; cors_config := cors_config self;
     compression_config := compression_config self;
     static_files_config := static_files_config self |}.

(** [openapi] registers [Embedded], [openapi_with] a document. *)
Definition set_openapi_registration (r : OpenApiRegistration) (self : Server) : Server :=
  {| middlewares := middlewares self; gates := gates self;
     upgrade_handlers := upgrade_handlers self; interceptors := interceptors self;
     handler := handler self; max_connections := max_connections self;
     max_connection_lifetime := max_connection_lifetime self;
     max_requests_per_connection := max_requests_per_connection self;
     srv_max_body_bytes := srv_max_body_bytes self; read_timeout := read_timeout self;
     keep_alive_enabled := keep_alive_enabled self;
     shutdown_grace_period := shutdown_grace_period self;
     webrtc_proxy_config := webrtc_proxy_config self; webrtc_config := webrtc_config self;
     websocket_configs := websocket_configs self; graphql_config := graphql_config self;
     openapi_registration := r; cors_config := cors_config self;
     compression_config := compression_config self;
     static_files_config := static_files_config self |}.

Definition set_cors (config : CorsConfig) (self : Server) : Server :=
  {| middlewares := middlewares self; gates := gates self;
     upgrade_handlers := upgrade_handlers self; interceptors := interceptors self;
     handler := handler self; max_connections := max_connections self;
     max_connection_lifetime := max_connection_lifetime self;
     max_requests_per_connection := max_requests_per_connection self;
     srv_max_body_bytes := srv_max_body_bytes self; read_timeout := read_timeout self;
     keep_alive_enabled := keep_alive_enabled self;
     shutdown_grace_period := shutdown_grace_period self;
     webrtc_proxy_config := webrtc_proxy_config self; webrtc_config := webrtc_config self;
     websocket_configs := websocket_configs self; graphql_config := graphql_config self;
     openapi_registration := openapi_registration self; cors_config := Some config;
     compression_config := compression_config self;
     static_files_config := static_files_config self |}.

Definition set_compression (config : CompressionConfig) (self : Server) : Server :=
  {| middlewares := middlewares self; gates := gates self;
     upgrade_handlers := upgrade_handlers self; interceptors := interceptors self;
     handler := handler self; max_connections := max_connections self;
     max_connection_lifetime := max_connection_lifetime self;
     max_requests_per_connection := max_requests_per_connection self;
     srv_max_body_bytes := srv_max_body_bytes self; read_timeout := read_timeout self;
     keep_alive_enabled := keep_alive_enabled self;
     shutdown_grace_period := shutdown_grace_period self;
     webrtc_proxy_config := webrtc_proxy_config self; webrtc_config := webrtc_config self;
     websocket_configs := websocket_configs self; graphql_config := graphql_config self;
     openapi_registration := openapi_registration self; cors_config := cors_config self;
     compression_config := Some config; static_files_config := static_files_config self |}.

Definition set_static_files (config : StaticFilesConfig) (self : Server) : Server :=
  {| middlewares := middlewares self; gates := gates self;
     upgrade_handlers := upgrade_handlers self; interceptors := interceptors self;
     handler := handler self; max_connections := max_connections self;
     max_connection_lifetime := max_connection_lifetime self;
     max_requests_per_connection := max_requests_per_connection self;
     srv_max_body_bytes := srv_max_body_bytes self; read_timeout := read_timeout self;
     keep_alive_enabled := keep_alive_enabled self;
     shutdown_grace_period := shutdown_grace_period self;
     webrtc_proxy_config := webrtc_proxy_config self; webrtc_config := webrtc_config self;
     websocket_configs := websocket_configs self; graphql_config := graphql_config self;
     openapi_registration := openapi_registration self; cors_config := cors_config self;
     compression_config := compression_config self; static_files_config := Some config |}.

End config.
