(* ===== verification/Server.v ===== *)
(** * [core::server]: serving one connection

    [handle_connection_with_permit] reads requests, asks the gates, hands over upgrades, asks
    interceptors, plugins and the handler, and writes responses, buffered or streamed.  Clocks,
    timers, the shutdown flag and the outcome of writes are observed through an [Env]: the
    [k]-th observation of a connection has the [k]-th answer, whatever it is.  The state is
    the bytes still to be read, the buffers, the bytes written and a trace of the calls that
    leave the connection: to middleware, gates, the application and upgraded sessions. *)

From S2P Require Import Prelude Text Utf8 Extensions Request Chunked Body RecvBuffer Connection.
From S2P Require Import Response Gate Cors Compression ServerConfig.

(** What the outside world answers at the [k]-th observation. *)
Record Env := {
  env_elapsed : nat → Duration;
  env_now : nat → Duration;
  env_shutdown : nat → bool;
  (** Does the timer at this deadline fire before the request is there? *)
  env_read_expires : nat → Duration → bool;
  (** A write under an optional timeout: [Some n] fails with [n] bytes on the wire. *)
  env_write : nat → option Duration → option nat;
  env_recv_expires : nat → Duration → bool;
  (** Does the blocking task of a large compression return? *)
  env_join : nat → bool;
  (** Does the allocator hold more than [MAX_RETAINED_CAPACITY] for the send buffer? *)
  env_oversized : nat → bool;
}.

(** The largest [Instant]: the seconds are an [i64]. *)
Definition instant_max : Duration := (from_secs (2 ^ 63 - 1) + 999999999)%N.
Definition checked_add (now d : Duration) : option Duration :=
  if (now + d <=? instant_max)%N then Some (now + d)%N else None.

Inductive Flow := Continue | Return.

Section server.
Context {AT : AnyTypes} {MM : Memmem} `{GzEncoder} {PP : PathPlugins}.

(** The calls that leave the connection. *)
Inductive Event :=
| EvRequest (middleware : bytes) (head : RequestHead)
| EvGate (gate : bytes) (head : RequestHead)
| EvUpgrade (head : RequestHead) (leftover : bytes) (stream : Reader)
| EvApplication (head : RequestHead) (body : bytes)
| EvStream (head : RequestHead) (body : bytes)
| EvHandle (head : RequestHead) (body : bytes)
| EvResponse (middleware : bytes) (head : RequestHead) (status : N).

Record Conn := {
  c_tick : nat;
  c_reader : Reader;
  c_buf : RecvBuffer;
  c_send : bytes;
  c_out : bytes;
  c_trace : list Event;
}.

(** ** Effects: state passing, [None] is a panic or fuel that ran out *)

Definition M (A : Type) : Type := Conn → option (A * Conn).
#[global] Instance M_ret : MRet M := λ A x c, Some (x, c).
#[global] Instance M_bind : MBind M := λ A B k m c,
  match m c with Some (x, c') => k x c' | None => None end.
#[global] Instance M_fmap : FMap M := λ A B f m, m ≫= λ x, mret (f x).
Definition panic {A} : M A := λ _, None.

End server.

Section connection.
Context {AT : AnyTypes} {MM : Memmem} `{GzEncoder} {PP : PathPlugins}.
Context (env : Env) (server : Server).

Definition observe {A} (f : nat → A) : M A := λ c,
  Some (f (c_tick c),
    {| c_tick := S (c_tick c); c_reader := c_reader c; c_buf := c_buf c; c_send := c_send c;
       c_out := c_out c; c_trace := c_trace c |}).

Definition get {A} (f : Conn → A) : M A := λ c, Some (f c, c).

Definition emit (evs : list Event) : M unit := λ c,
  Some (tt,
    {| c_tick := c_tick c; c_reader := c_reader c; c_buf := c_buf c; c_send := c_send c;
       c_out := c_out c; c_trace := c_trace c ++ evs |}).

Definition put_send (b : bytes) : M unit := λ c,
  Some (tt,
    {| c_tick := c_tick c; c_reader := c_reader c; c_buf := c_buf c; c_send := b;
       c_out := c_out c; c_trace := c_trace c |}).

Definition put_out (b : bytes) : M unit := λ c,
  Some (tt,
    {| c_tick := c_tick c; c_reader := c_reader c; c_buf := c_buf c; c_send := c_send c;
       c_out := c_out c ++ b; c_trace := c_trace c |}).

Definition elapsed : M Duration := observe (env_elapsed env).
Definition load_shutdown : M bool := observe (env_shutdown env).

(** [stream.write_all(data)], under a timeout or not: an error leaves a strict prefix. *)
Definition write_all (data : bytes) (timeout : option Duration) : M bool :=
  w ← observe (λ k, env_write env k timeout);
  match w with
  | Some n =>
      if bool_decide (data = []) then mret true
      else put_out (take (Nat.min n (length data - 1)) data) ;; mret false
  | None => put_out data ;; mret true
  end.

(** [read_request_with_limit(&mut stream, &mut buf, ..)] *)
Definition read_request_io : M (result (option HttpRequest) RequestError) := λ c,
  match read_request_with_limit (srv_max_body_bytes server) (c_buf c) (c_reader c) with
  | None => None
  | Some (r, buf, reader) =>
      Some (r,
        {| c_tick := c_tick c; c_reader := reader; c_buf := buf; c_send := c_send c;
           c_out := c_out c; c_trace := c_trace c |})
  end.

(** The read is raced against the timer and wins if it is ready. *)
Definition timed_read (deadline : Duration) : M (option (result (option HttpRequest) RequestError)) :=
  expired ← observe (λ k, env_read_expires env k deadline);
  if expired : bool then mret None else Some <$> read_request_io.

(** ** The send buffer *)

Definition serialize_response (r : Response) (keep_alive : bool) : M bytes :=
  let data := serialize_into keep_alive r in
  put_send data ;; mret data.

Definition shrink_send_if_oversized : M unit :=
  oversized ← observe (env_oversized env);
  if oversized : bool then put_send [] else mret tt.

(** ** Errors and gates *)

Definition request_error_response (err : RequestError) : option Response :=
  match err with
  | EParse (HeaderSectionTooLarge | TooManyHeaders) => Some (response_empty 431)
  | EParse (InvalidRequestLine | InvalidHeader) => Some (response_empty 400)
  | EParse UnsupportedVersion => Some (response_empty 505)
  | EBody BodyErrTooLarge => Some (response_empty 413)
  | EBody TransferEncodingUnsupported => Some (response_empty 501)
  | EBody (DuplicateContentLength | InvalidContentLength | ContentLengthWithChunked) =>
      Some (response_empty 400)
  | EChunked BodyTooLarge => Some (response_empty 413)
  | EChunked (InvalidChunkSize | ChunkLineTooLong | TooManyChunks | TrailerUnsupported
             | InvalidLineTerminator) => Some (response_empty 400)
  | UnexpectedEof | EIo => None
  end.

Fixpoint first_rejection (gs : list RequestGate) (head : RequestHead) (ctx : GateContext)
    (ext : RequestExtensions) : M (option Response * RequestExtensions) :=
  match gs with
  | [] => mret (None, ext)
  | g :: gs =>
      emit [EvGate (gate_name g) head] ;;
      match check g head ctx ext with
      | (Allow, ext) => first_rejection gs head ctx ext
      | (Reject response, ext) => mret (Some response, ext)
      end
  end.

(** ** Plugins *)

Definition from_plugin_response (r : PluginResponse) : Response :=
  with_content_type (p_content_type r) (response_new (p_status r) (p_body r)).

Definition openapi_json : option bytes :=
  match openapi_registration server with
  | Disabled => None
  | Embedded => Some OPENAPI_JSON
  | Custom doc => Some (doc_json doc)
  end.
Definition openapi_yaml : option bytes :=
  match openapi_registration server with
  | Disabled => None
  | Embedded => Some OPENAPI_YAML
  | Custom doc => doc_yaml doc
  end.

Definition first_some {A} (a b : option A) : option A := match a with Some x => Some x | None => b end.

Definition openapi_response (head : RequestHead) (path : bytes) (body : option bytes) (ct : bytes) :
    option Response :=
  if str_eqb (method head) (lit "GET") && str_eqb (target head) path
  then (λ b, with_content_type ct (response_new 200 b)) <$> body
  else None.

(** The path plugins in their fixed order; the first that answers wins. *)
Definition try_intercept (head : RequestHead) (body : bytes) : option Response :=
  first_some (from_plugin_response <$> (webrtc_proxy_config server ≫= try_rtc_proxy head body))
  (first_some (webrtc_config server ≫= try_rtc_offer head body)
  (first_some (from_plugin_response <$> (graphql_config server ≫= try_graphql head body))
  (first_some (openapi_response head (lit "/openapi.json") openapi_json (lit "application/json"))
  (first_some (openapi_response head (lit "/openapi.yaml") openapi_yaml (lit "application/yaml"))
    (static_files_config server ≫= try_static head))))).

Definition apply_cors (head : RequestHead) (response : Response) : Response :=
  match cors_config server with
  | Some config => if negb (is_preflight head) then apply_cors_headers head config response else response
  | None => response
  end.

(** CORS, then compression; large bodies are compressed by a blocking task, and a task that
    does not return gives the empty vector. *)
Definition finalize_response (head : RequestHead) (response : Response) : M Response :=
  let response := apply_cors head response in
  match compression_config server with
  | None => mret response
  | Some config =>
      match plan_compression head config response with
      | Skip skipped => mret skipped
      | Compress planned =>
          if (blocking_threshold config <=? len (r_body planned))%N then
            joined ← observe (env_join env);
            let compressed := if joined : bool then compress_body (r_body planned) else [] in
            mret (attach_compressed planned compressed)
          else mret (attach_compressed planned (compress_body (r_body planned)))
      end
  end.

Definition finalize_streaming_head (head : RequestHead) (response : Response) : Response :=
  apply_cors head response.

(** [StreamingBodyEncoder]: the identity or gzip. *)
Definition StreamingBodyEncoder : Type := option StreamingGzipEncoder.

Definition transform (data : bytes) (self : StreamingBodyEncoder) :
    option (bytes * StreamingBodyEncoder) :=
  match self with
  | Some encoder => (λ p, (p.1, Some p.2)) <$> sg_encode_chunk data encoder
  | None => Some (data, None)
  end.

Definition finish (self : StreamingBodyEncoder) : option bytes :=
  match self with
  | Some encoder => sg_finish encoder
  | None => Some []
  end.

Definition prepare_streaming_compression (head : RequestHead) (response : Response) :
    Response * StreamingBodyEncoder :=
  match compression_config server with
  | Some config => begin_streaming_compression head config response
  | None => (response, None)
  end.

(** ** Streamed responses *)

Record StreamingCompletion := { sc_keep_alive : bool; sc_status : N }.

(** [keep_alive && elapsed < lifetime && !shutdown], short-circuiting. *)
Definition still_alive (keep_alive : bool) : M bool :=
  if keep_alive then
    e ← elapsed;
    if (e <? max_connection_lifetime server)%N then
      stop ← load_shutdown;
      mret (negb stop)
    else mret false
  else mret false.

(** [DEFAULT_WRITE_TIMEOUT.min(remaining_lifetime(..))] *)
Definition io_timeout : M Duration :=
  e ← elapsed;
  mret (N.min DEFAULT_WRITE_TIMEOUT (max_connection_lifetime server - e))%N.

Definition timed_write (data : bytes) : M bool :=
  t ← io_timeout;
  write_all data (Some t).

(** Whether [recv] is still waiting when its timeout fires. *)
Definition recv_expired : M bool :=
  t ← io_timeout;
  observe (λ k, env_recv_expires env k t).

(** HTTP/1.0: the chunks as they are, ended by the end of the connection. *)
Fixpoint stream_http10 (final_status : N) (rx : list StreamEvent) : M (option StreamingCompletion) :=
  expired ← recv_expired;
  if expired : bool then mret None
  else
    match rx with
    | StreamChunk data :: rx =>
        if bool_decide (data = []) then stream_http10 final_status rx
        else
          ok ← timed_write data;
          if negb ok then mret None else stream_http10 final_status rx
    | StreamEnd :: _ => mret (Some {| sc_keep_alive := false; sc_status := final_status |})
    | [] => mret None
    end.

(** HTTP/1.1: every chunk through the encoder and then into a chunk of the coding. *)
Fixpoint stream_chunked (keep_alive : bool) (final_status : N) (enc : StreamingBodyEncoder)
    (rx : list StreamEvent) : M (option StreamingCompletion) :=
  expired ← recv_expired;
  if expired : bool then mret None
  else
    match rx with
    | StreamChunk data :: rx =>
        match transform data enc with
        | None => mret None
        | Some (data, enc) =>
            let framed := encode_chunk data [] in
            if bool_decide (framed = []) then stream_chunked keep_alive final_status enc rx
            else
              ok ← timed_write framed;
              if negb ok then mret None else stream_chunked keep_alive final_status enc rx
        end
    | StreamEnd :: _ =>
        match finish enc with
        | None => mret None
        | Some residual =>
            let terminator := encode_terminator
              (if bool_decide (residual = []) then [] else encode_chunk residual []) in
            ok ← timed_write terminator;
            if negb ok then mret None
            else
              alive ← still_alive keep_alive;
              mret (Some {| sc_keep_alive := alive; sc_status := final_status |})
        end
    | [] => mret None
    end.

(** The response head of a streamed response, before compression. *)
Definition streaming_head (streaming : StreamingResponse) (head : RequestHead) : Response :=
  let head_response := response_empty (s_status streaming) in
  let head_response := match s_content_type streaming with
                       | Some ct => with_content_type ct head_response
                       | None => head_response
                       end in
  let head_response := foldl (λ acc i, map_response i head acc) head_response (interceptors server) in
  set_body [] (finalize_streaming_head head head_response).

Definition write_streaming_response (streaming : StreamingResponse) (head : RequestHead)
    (keep_alive : bool) : M (option StreamingCompletion) :=
  let head_response := streaming_head streaming head in
  let final_status := status head_response in
  match version head with
  | Http10 =>
      ok ← timed_write (serialize_streaming_head_http10 head_response);
      if negb ok then mret None
      else if is_bodyless_status (status head_response)
      then mret (Some {| sc_keep_alive := false; sc_status := final_status |})
      else stream_http10 final_status (s_rx streaming)
  | Http11 =>
      keep_alive ← still_alive keep_alive;
      let '(head_response, enc) := prepare_streaming_compression head head_response in
      ok ← timed_write (serialize_chunked_head keep_alive head_response);
      if negb ok then mret None
      else if is_bodyless_status (status head_response)
      then
        alive ← still_alive keep_alive;
        mret (Some {| sc_keep_alive := alive; sc_status := final_status |})
      else stream_chunked keep_alive final_status enc (s_rx streaming)
  end.

(** ** Upgrades *)

(** A matching WebSocket configuration takes the connection, with the bytes already read. *)
Definition try_handle_upgrade (stream : Reader) (head : RequestHead) (leftover : bytes) : M bool :=
  match List.find (websocket_matches head) (websocket_configs server) with
  | Some _ => emit [EvUpgrade head leftover stream] ;; mret true
  | None => mret false
  end.

(** ** The connection loop *)

Definition observers (f : bytes → Event) : M unit := emit (f <$> middlewares server).

(** Write a whole response and go on or not. *)
Definition send_response (head : RequestHead) (response : Response) (keep_alive : bool) : M Flow :=
  data ← serialize_response response keep_alive;
  ok ← write_all data None;
  if negb ok then mret Return
  else
    shrink_send_if_oversized ;;
    observers (λ m, EvResponse m head (status response)) ;;
    mret (if keep_alive then Continue else Return).

(** What is behind the gates: upgrade, interceptors, plugins, streaming, the handler. *)
Definition serve_admitted (head : RequestHead) (body : bytes) (keep_alive : bool) : M Flow :=
  if existsb (λ h, upgrade_matches h head) (upgrade_handlers server) then
    stop ← load_shutdown;
    if stop : bool then
      write_all (serialize false (response_empty 503)) None ;; mret Return
    else
      leftover ← get (λ c, unread (c_buf c));
      stream ← get c_reader;
      upgraded ← try_handle_upgrade stream head leftover;
      if upgraded : bool then mret Return
      else write_all (serialize false (response_empty 501)) None ;; mret Return
  else
    emit [EvApplication head body] ;;
    let intercepted :=
      match list_find (λ i, is_Some (intercept i head body)) (interceptors server) with
      | Some (_, i) => intercept i head body
      | None => try_intercept head body
      end in
    let streaming :=
      match intercepted, handler server with
      | None, Some h => handle_streaming h head body
      | _, _ => None
      end in
    match streaming with
    | Some streaming =>
        emit [EvStream head body] ;;
        completion ← write_streaming_response streaming head keep_alive;
        match completion with
        | Some sc =>
            observers (λ m, EvResponse m head (sc_status sc)) ;;
            mret (if sc_keep_alive sc then Continue else Return)
        | None => mret Return
        end
    | None =>
        response ← match intercepted with
                   | Some response => mret response
                   | None =>
                       match handler server with
                       | Some h => emit [EvHandle head body] ;; mret (handle h head body)
                       | None => mret (response_empty 404)
                       end
                   end;
        let response := foldl (λ acc i, map_response i head acc) response (interceptors server) in
        response ← finalize_response head response;
        keep_alive ← still_alive keep_alive;
        send_response head response keep_alive
    end.

(** A request that was read, the [served]-th of the connection. *)
Definition serve_request (ctx : GateContext) (served : N) (request : HttpRequest) : M Flow :=
  let rhead := Connection.head request in
  observers (λ m, EvRequest m rhead) ;;
  keep_alive ← still_alive (keep_alive_enabled server && should_keep_alive rhead
                            && (served <? N.max (max_requests_per_connection server) 1)%N);
  if negb (ext_is_empty (extensions rhead)) then panic
  else
    gated ← first_rejection (gates server) rhead ctx ext_new;
    match gated with
    | (Some rejection, _) => send_response rhead rejection keep_alive
    | (None, ext) =>
        let rhead := if ext_is_empty ext then rhead else set_extensions ext rhead in
        serve_admitted rhead (Connection.body request) keep_alive
    end.

(** One turn of the loop. *)
Definition serve_one (ctx : GateContext) (served : N) : M Flow :=
  e ← elapsed;
  if (max_connection_lifetime server <=? e)%N then mret Return
  else
    let read_timeout := N.min (read_timeout server) (max_connection_lifetime server - e) in
    now ← observe (env_now env);
    let deadline := default (default now (checked_add now FAR_FUTURE_FALLBACK))
                      (checked_add now read_timeout) in
    r ← timed_read deadline;
    match r with
    | None => mret Return
    | Some (Err err) =>
        match request_error_response err with
        | Some response => write_all (serialize false response) None ;; mret Return
        | None => mret Return
        end
    | Some (Ok None) => mret Return
    | Some (Ok (Some request)) => serve_request ctx (served + 1) request
    end.

Fixpoint connection_loop (fuel : nat) (ctx : GateContext) (served : N) : M unit :=
  match fuel with
  | O => panic
  | S fuel =>
      flow ← serve_one ctx served;
      match flow with
      | Return => mret tt
      | Continue => connection_loop fuel ctx (served + 1)
      end
  end.

(** Every turn that goes on has read a request, of at least one byte. *)
Definition conn_fuel (reader : Reader) : nat := S (length (stream reader)).

Definition conn_new (reader : Reader) : Conn :=
  {| c_tick := 0; c_reader := reader; c_buf := rb_new; c_send := []; c_out := []; c_trace := [] |}.

Definition handle_connection_with_permit (reader : Reader) (peer : option SocketAddr) : option Conn :=
  snd <$> connection_loop (conn_fuel reader) {| peer_addr := peer |} 0 (conn_new reader).

End connection.

(** The public entry points: no shutdown flag is ever raised. *)
Definition without_shutdown (env : Env) : Env :=
  {| env_elapsed := env_elapsed env; env_now := env_now env; env_shutdown := λ _, false;
     env_read_expires := env_read_expires env; env_write := env_write env;
     env_recv_expires := env_recv_expires env; env_join := env_join env;
     env_oversized := env_oversized env |}.

Definition handle_connection `{AnyTypes} `{Memmem} `{GzEncoder} `{PathPlugins} (env : Env) (server : Server)
    (reader : Reader) : option Conn :=
  handle_connection_with_permit (without_shutdown env) server reader None.

Definition handle_connection_with_peer_addr `{AnyTypes} `{Memmem} `{GzEncoder} `{PathPlugins} (env : Env)
    (server : Server) (reader : Reader) (peer : SocketAddr) : option Conn :=
  handle_connection_with_permit (without_shutdown env) server reader (Some peer).
