(* ===== verification/ServerSpec.v ===== *)
(** * What a connection serves

    [exchanges] is the specification of a connection in any environment: the requests of the
    byte stream one after the other, for each the calls it may cause and the message, or
    beginning of a message, it may put on the wire.  The connection loop implements it, and
    gate safety and the soundness of the response stream follow.  In a calm environment what
    is served does not depend on the environment or on how the bytes arrive. *)

From S2P Require Import Prelude Text Utf8 Radix Extensions Request RequestSpec Chunked ChunkedSpec.
From S2P Require Import Body RecvBuffer Connection Response Gate Cors Compression ServerConfig Server.

(** ** A logic for the effects that do not read *)

Section logic.
Context {AT : AnyTypes} {PP : PathPlugins}.

(** [c'] is [c] with [w] more on the wire and [evs] more in the trace. *)
Definition frame (c c' : Conn) (w : bytes) (evs : list Event) : Prop :=
  c_reader c' = c_reader c ∧ c_buf c' = c_buf c ∧ c_out c' = c_out c ++ w
  ∧ c_trace c' = c_trace c ++ evs.

(** [m] always returns; with the result [x] it writes [w] and calls [evs] such that [Q x w evs]. *)
Definition does {A} (m : M A) (Q : A → bytes → list Event → Prop) : Prop :=
  ∀ c, ∃ x c' w evs, m c = Some (x, c') ∧ frame c c' w evs ∧ Q x w evs.

Lemma does_weaken {A} (m : M A) (Q Q' : A → bytes → list Event → Prop) :
  does m Q → (∀ x w evs, Q x w evs → Q' x w evs) → does m Q'.
Proof. intros H HQ c. destruct (H c) as (x & c' & w & evs & E & F & Hx). by exists x, c', w, evs; auto. Qed.

Lemma does_ret {A} (x : A) (Q : A → bytes → list Event → Prop) : Q x [] [] → does (mret x) Q.
Proof. intros H c. exists x, c, [], []. unfold frame. by rewrite !app_nil_r. Qed.

Lemma does_bind {A B} (m : M A) (k : A → M B) Q1 (Q : B → bytes → list Event → Prop) :
  does m Q1 →
  (∀ x w evs, Q1 x w evs → does (k x) (λ y w' evs', Q y (w ++ w') (evs ++ evs'))) →
  does (m ≫= k) Q.
Proof.
  intros H1 H2 c. destruct (H1 c) as (x & c1 & w1 & e1 & E1 & (F1 & F2 & F3 & F4) & HQ1).
  destruct (H2 x w1 e1 HQ1 c1) as (y & c2 & w2 & e2 & E2 & (G1 & G2 & G3 & G4) & HQ2).
  exists y, c2, (w1 ++ w2), (e1 ++ e2). unfold mbind, M_bind. rewrite E1. split; [done|].
  split; [|done]. unfold frame. by rewrite G1, G2, G3, G4, F1, F2, F3, F4, !(assoc_L (++)).
Qed.

(** An effect that writes and calls nothing. *)
Definition silent {A} (m : M A) : Prop := does m (λ _ w evs, w = [] ∧ evs = []).

Lemma does_silent {A B} (m : M A) (k : A → M B) (Q : B → bytes → list Event → Prop) :
  silent m → (∀ x, does (k x) Q) → does (m ≫= k) Q.
Proof.
  intros H1 H2. apply (does_bind _ _ _ _ H1). intros x w evs [-> ->].
  apply (does_weaken _ _ _ (H2 x)). done.
Qed.

Lemma silent_ret {A} (x : A) : silent (mret x).
Proof. by apply does_ret. Qed.

Lemma silent_bind {A B} (m : M A) (k : A → M B) : silent m → (∀ x, silent (k x)) → silent (m ≫= k).
Proof. intros H1 H2. by apply does_silent. Qed.

Lemma silent_observe {A} (f : nat → A) : silent (observe f).
Proof. intros c. eexists _, _, [], []. split; [done|]. unfold frame. cbn. by rewrite !app_nil_r. Qed.

Lemma silent_get {A} (f : Conn → A) : silent (get f).
Proof. intros c. eexists _, c, [], []. split; [done|]. unfold frame. by rewrite !app_nil_r. Qed.

Lemma silent_put_send b : silent (put_send b).
Proof. intros c. eexists _, _, [], []. split; [done|]. unfold frame. cbn. by rewrite !app_nil_r. Qed.

Lemma does_emit evs (Q : unit → bytes → list Event → Prop) : Q tt [] evs → does (emit evs) Q.
Proof. intros H c. eexists _, _, [], evs. split; [done|]. unfold frame. cbn. by rewrite app_nil_r. Qed.

Lemma does_put_out b (Q : unit → bytes → list Event → Prop) : Q tt b [] → does (put_out b) Q.
Proof. intros H c. eexists _, _, b, []. split; [done|]. unfold frame. cbn. by rewrite app_nil_r. Qed.

Definition same_conn (c c1 : Conn) : Prop :=
  c_reader c1 = c_reader c ∧ c_buf c1 = c_buf c ∧ c_out c1 = c_out c ∧ c_trace c1 = c_trace c.

Lemma silent_step {A B} (m : M A) (k : A → M B) c :
  silent m → ∃ x c1, same_conn c c1 ∧ (m ≫= k) c = k x c1.
Proof.
  intros H'. destruct (H' c) as (x & c1 & w & evs & E & (F1 & F2 & F3 & F4) & -> & ->).
  rewrite !app_nil_r in *. exists x, c1. unfold mbind, M_bind. by rewrite E.
Qed.

Lemma bind_assoc {A B C} (m : M A) (f : A → M B) (g : B → M C) c :
  ((m ≫= f) ≫= g) c = (m ≫= λ x, f x ≫= g) c.
Proof. unfold mbind, M_bind. by destruct (m c) as [[]|]. Qed.

End logic.

Create HintDb effects.
#[export] Hint Resolve silent_ret silent_observe silent_get silent_put_send : effects.
#[export] Hint Extern 2 (silent (_ ≫= _)) => apply silent_bind; [|intros ?] : effects.

(** Run the silent effect at the head of the goal. *)
Ltac step_silent x c S :=
  match goal with |- context [@mbind _ _ ?A ?B ?k ?m ?c0] =>
    destruct (silent_step (A := A) (B := B) m k c0 ltac:(auto with effects)) as (x & c & S & ->) end.

Section spec.
Context {AT : AnyTypes} {MM : Memmem} `{GzEncoder} {PP : PathPlugins}.

Lemma silent_elapsed env : silent (elapsed env).
Proof. apply silent_observe. Qed.
#[local] Hint Resolve silent_elapsed : effects.

(** A write puts all of the data on the wire, or fails after a strict prefix of it. *)
Definition wrote (data : bytes) (ok : bool) (w : bytes) (evs : list Event) : Prop :=
  evs = [] ∧ if ok then w = data else ∃ n, n < length data ∧ w = take n data.

Lemma does_write_all env data t : does (write_all env data t) (wrote data).
Proof.
  unfold write_all. apply does_silent; [apply silent_observe|]. intros [n|].
  - case_bool_decide as Hd; [subst; by apply does_ret|].
    apply (does_bind _ _ (λ _ w evs, evs = [] ∧ w = take (Nat.min n (length data - 1)) data));
      [by apply does_put_out|].
    intros [] w evs [-> ->]. apply does_ret. rewrite !app_nil_r. split; [done|].
    exists (Nat.min n (length data - 1)). split; [|done]. destruct data; [done|simpl; lia].
  - apply (does_bind _ _ (λ _ w evs, evs = [] ∧ w = data)); [by apply does_put_out|].
    intros [] w evs [-> ->]. apply does_ret. by rewrite app_nil_r.
Qed.

Lemma silent_io_timeout env server : silent (io_timeout env server).
Proof. unfold io_timeout, elapsed. auto with effects. Qed.

Lemma does_timed_write env server data : does (timed_write env server data) (wrote data).
Proof. apply does_silent; [apply silent_io_timeout|]. intros t. apply does_write_all. Qed.

Lemma silent_recv_expired env server : silent (recv_expired env server).
Proof. apply silent_bind; [apply silent_io_timeout|]. intros t. apply silent_observe. Qed.

Lemma still_alive_does env server ka :
  does (still_alive env server ka) (λ b w evs, w = [] ∧ evs = [] ∧ (b = true → ka = true)).
Proof.
  unfold still_alive. destruct ka; [|by apply does_ret].
  apply does_silent; [apply silent_observe|]. intros e. destruct (_ <? _)%N; [|by apply does_ret].
  apply does_silent; [apply silent_observe|]. intros s. by apply does_ret.
Qed.

Lemma silent_finalize env server head r : silent (finalize_response env server head r).
Proof.
  unfold finalize_response. destruct (compression_config server); [|apply silent_ret].
  destruct (plan_compression _ _ _); [apply silent_ret|]. destruct (_ <=? _)%N; auto with effects.
Qed.

(** ** Streamed bodies *)

(** The chunks a channel delivers before its end; [None] if it is closed without one. *)
Fixpoint stream_data (rx : list StreamEvent) : option (list bytes) :=
  match rx with
  | StreamChunk d :: rx => cons d <$> stream_data rx
  | StreamEnd :: _ => Some []
  | [] => None
  end.

(** The chunks that were sent before an end, if there is one. *)
Fixpoint sent_chunks (rx : list StreamEvent) : list bytes :=
  match rx with
  | StreamChunk d :: rx => d :: sent_chunks rx
  | _ => []
  end.

(** What the encoder makes of chunks, its last output included. *)
Definition encoded (enc : StreamingBodyEncoder) (ds : list bytes) : option (list bytes) :=
  match enc with
  | None => Some ds
  | Some e =>
      let! (outs, e) := sg_encode_all ds e else None in
      let! residual := sg_finish e else None in
      Some (outs ++ [residual])
  end.

Lemma encoded_cons enc enc' d d' ds cs :
  transform d enc = Some (d', enc') → encoded enc' ds = Some cs →
  encoded enc (d :: ds) = Some (d' :: cs).
Proof.
  unfold transform, encoded. destruct enc as [e|]; [|intros [= <- <-] [= ->]; done].
  cbn [sg_encode_all]. destruct (sg_encode_chunk d e) as [[o e1]|]; [|done]. intros [= <- <-].
  cbn [fst snd]. destruct (sg_encode_all ds e1) as [[outs e2]|]; [|done].
  destruct (sg_finish e2); [|done]. by intros [= <-].
Qed.

Lemma encode_chunks_frame c cs : encode_chunks (c :: cs) [] = encode_chunk c [] ++ encode_chunks cs [].
Proof. rewrite encode_chunks_cons. by destruct c. Qed.

Lemma encode_chunks_nonempty cs : encode_chunks cs [] ≠ [].
Proof.
  induction cs as [|c cs IH]; [done|]. rewrite encode_chunks_frame. intros [_ E]%app_eq_nil. done.
Qed.

Lemma encode_chunks_last r :
  encode_chunks [r] [] = encode_terminator (if bool_decide (r = []) then [] else encode_chunk r []).
Proof. cbn [encode_chunks]. case_bool_decide; [by subst|done]. Qed.

(** [w] is a complete encoding of the chunks, or a strict beginning of an encoding, of the first chunks
    when they are not compressed. *)
Definition chunked_written (enc : StreamingBodyEncoder) (rx : list StreamEvent) (done : bool) (w : bytes) : Prop :=
  if done
  then ∃ ds cs, stream_data rx = Some ds ∧ encoded enc ds = Some cs ∧ w = encode_chunks cs []
  else ∃ cs z, z ≠ [] ∧ w ++ z = encode_chunks cs [] ∧ (enc = None → cs `prefix_of` sent_chunks rx).

Lemma chunked_written_cut enc rx cs n :
  n < length (encode_chunks cs []) → (enc = None → cs `prefix_of` sent_chunks rx) →
  chunked_written enc rx false (take n (encode_chunks cs [])).
Proof.
  intros Hn Hp. exists cs, (drop n (encode_chunks cs [])). split_and!; [|apply take_drop|done].
  intros E. apply (f_equal length) in E. rewrite length_drop in E. simpl in E. lia.
Qed.

(** The result of streaming: whether it completed, and then if the connection may go on. *)
Definition completes (ka : bool) (st : N) (r : option StreamingCompletion) : Prop :=
  match r with Some sc => sc_status sc = st ∧ (sc_keep_alive sc = true → ka = true) | None => True end.

Lemma does_stream_chunked env server ka st enc rx :
  does (stream_chunked env server ka st enc rx) (λ r w evs,
    evs = [] ∧ completes ka st r ∧ chunked_written enc rx (bool_decide (is_Some r)) w).
Proof.
  assert (∀ enc rx, chunked_written enc rx false []) as Hnone.
  { intros. exists [], (encode_chunks [] []). split_and!; [apply encode_chunks_nonempty|done|]. intros _. apply prefix_nil. }
  revert enc. induction rx as [|[d|] rx IH]; intros enc; cbn [stream_chunked];
    (apply does_silent; [apply silent_recv_expired|]; intros [|]; [by apply does_ret|]).
  - by apply does_ret.
  - destruct (transform d enc) as [[d' enc']|] eqn:Et; [|by apply does_ret].
    assert (∀ b w, chunked_written enc' rx b w →
      chunked_written enc (StreamChunk d :: rx) b (encode_chunk d' [] ++ w)) as Hcons.
    { intros [|] w; unfold chunked_written.
      - intros (ds & cs & Hd & He & ->). exists (d :: ds), (d' :: cs). cbn [stream_data]. rewrite Hd.
        split_and!; [done|by eapply encoded_cons|by rewrite encode_chunks_frame].
      - intros (cs & z & Hz & E & Hp). exists (d' :: cs), z. split_and!; [done| |].
        { by rewrite encode_chunks_frame, <- E, (assoc_L (++)). }
        intros ->. injection Et as <- <-. cbn [sent_chunks]. by apply prefix_cons, Hp. }
    case_bool_decide as Hd.
    { apply (does_weaken _ _ _ (IH enc')). intros r w evs (? & ? & Hw). split_and!; try done.
      apply Hcons in Hw. by rewrite Hd in Hw. }
    apply (does_bind _ _ _ _ (does_timed_write env server _)). intros ok w evs [-> Hw].
    destruct ok; cbn [negb].
    + subst w. apply (does_weaken _ _ _ (IH enc')). intros r w evs (-> & ? & Hw). split_and!; auto.
    + destruct Hw as (n & Hn & ->). apply does_ret. split_and!; [done..|].
      rewrite app_nil_r. exists [d'], (drop n (encode_chunks [d'] [])). rewrite encode_chunks_frame.
      split_and!.
      * intros E. apply (f_equal length) in E. rewrite length_drop, length_app in E. cbn in E. lia.
      * rewrite drop_app_le by lia. by rewrite (assoc_L (++)), take_drop.
      * intros ->. injection Et as <- <-. apply prefix_cons, prefix_nil.
  - destruct (finish enc) as [residual|] eqn:Ef; [|by apply does_ret].
    rewrite <- encode_chunks_last.
    apply (does_bind _ _ _ _ (does_timed_write env server _)). intros ok w evs [-> Hw].
    destruct ok; cbn [negb].
    + subst w. apply (does_bind _ _ _ _ (still_alive_does env server ka)).
      intros b w evs (-> & -> & Hb). apply does_ret. rewrite app_nil_r. split_and!; [done..|].
      exists [], (match enc with None => [] | Some _ => [residual] end). unfold encoded, finish in *.
      rewrite !app_nil_r. destruct enc as [e|]; cbn [sg_encode_all]; [by rewrite Ef|].
      injection Ef as <-. done.
    + destruct Hw as (n & Hn & ->). apply does_ret. split_and!; [done..|]. rewrite app_nil_r.
      destruct enc as [e|]; [by apply (chunked_written_cut _ _ _ _ Hn)|]. injection Ef as <-.
      apply (chunked_written_cut _ _ [] _ Hn). intros _. apply prefix_nil.
Qed.

Lemma does_stream_http10 env server st rx :
  does (stream_http10 env server st rx) (λ r w evs,
    evs = [] ∧ completes false st r
    ∧ (is_Some r → ∃ ds, stream_data rx = Some ds ∧ w = concat ds)).
Proof.
  assert (∀ rx, does (mret (M := M) (@None StreamingCompletion)) (λ r w evs,
    evs = [] ∧ completes false st r
    ∧ (is_Some r → ∃ ds, stream_data rx = Some ds ∧ w = concat ds))) as Hno.
  { intros. apply does_ret. split_and!; [done..|]. by intros [? [=]]. }
  induction rx as [|[d|] rx IH]; cbn [stream_http10];
    (apply does_silent; [apply silent_recv_expired|]; intros [|]; [apply Hno|]).
  - apply (Hno []).
  - case_bool_decide as Hd.
    { apply (does_weaken _ _ _ IH). intros r w evs (? & ? & Hw). split_and!; try done.
      intros (ds & E & ->)%Hw. exists (d :: ds). cbn [stream_data]. rewrite E. by subst d. }
    apply (does_bind _ _ _ _ (does_timed_write env server _)). intros ok w evs [-> Hw].
    destruct ok; cbn [negb].
    + subst w. apply (does_weaken _ _ _ IH). intros r w evs (-> & ? & Hw). split_and!; try done.
      intros (ds & E & ->)%Hw. exists (d :: ds). cbn [stream_data]. by rewrite E.
    + apply does_ret. split_and!; [done..|]. by intros [? [=]].
  - apply does_ret. split_and!; [done..|]. by exists [].
Qed.

(** What [write_streaming_response] puts on the wire, with its result.  The head announces
    [ka'], which is at most the [keep_alive] it was given. *)
Inductive streamed (server : Server) (s : StreamingResponse) (head : RequestHead) (ka : bool) :
    option StreamingCompletion → bytes → Prop :=
| streamed_head10 n :
    let hd := streaming_head server s head in
    version head = Http10 → n < length (serialize_streaming_head_http10 hd) →
    streamed server s head ka None (take n (serialize_streaming_head_http10 hd))
| streamed_bodyless10 :
    let hd := streaming_head server s head in
    version head = Http10 → is_bodyless_status (status hd) = true →
    streamed server s head ka (Some {| sc_keep_alive := false; sc_status := status hd |})
      (serialize_streaming_head_http10 hd)
| streamed_body10 r w :
    let hd := streaming_head server s head in
    version head = Http10 → is_bodyless_status (status hd) = false → completes false (status hd) r →
    (is_Some r → ∃ ds, stream_data (s_rx s) = Some ds ∧ w = concat ds) →
    streamed server s head ka r (serialize_streaming_head_http10 hd ++ w)
| streamed_head11 hd enc ka' n :
    prepare_streaming_compression server head (streaming_head server s head) = (hd, enc) →
    version head = Http11 → n < length (serialize_chunked_head ka' hd) → (ka' = true → ka = true) →
    streamed server s head ka None (take n (serialize_chunked_head ka' hd))
| streamed_bodyless11 hd enc ka' r :
    prepare_streaming_compression server head (streaming_head server s head) = (hd, enc) →
    version head = Http11 → is_bodyless_status (status hd) = true → (ka' = true → ka = true) →
    is_Some r → completes ka' (status (streaming_head server s head)) r →
    streamed server s head ka r (serialize_chunked_head ka' hd)
| streamed_body11 hd enc ka' r w :
    prepare_streaming_compression server head (streaming_head server s head) = (hd, enc) →
    version head = Http11 → is_bodyless_status (status hd) = false → (ka' = true → ka = true) →
    completes ka' (status (streaming_head server s head)) r →
    chunked_written enc (s_rx s) (bool_decide (is_Some r)) w →
    streamed server s head ka r (serialize_chunked_head ka' hd ++ w).

Lemma does_write_streaming env server s head ka :
  does (write_streaming_response env server s head ka) (λ r w evs,
    evs = [] ∧ streamed server s head ka r w).
Proof.
  unfold write_streaming_response. destruct (version head) eqn:Ev.
  - apply (does_bind _ _ _ _ (does_timed_write env server _)). intros ok w evs [-> Hw].
    destruct ok; cbn [negb].
    2:{ destruct Hw as (n & Hn & ->). apply does_ret. rewrite !app_nil_r. split; [done|].
        by apply streamed_head10. }
    subst w. destruct (is_bodyless_status _) eqn:Eb.
    + apply does_ret. rewrite !app_nil_r. split; [done|]. by apply streamed_bodyless10.
    + apply (does_weaken _ _ _ (does_stream_http10 env server _ _)). intros r w evs (-> & ? & ?).
      split; [done|]. by apply streamed_body10.
  - apply (does_bind _ _ _ _ (still_alive_does env server ka)). intros ka' w evs (-> & -> & Hka).
    destruct (prepare_streaming_compression server head _) as [hd enc] eqn:Ep.
    apply (does_bind _ _ _ _ (does_timed_write env server _)). intros ok w evs [-> Hw].
    destruct ok; cbn [negb].
    2:{ destruct Hw as (n & Hn & ->). apply does_ret. rewrite !app_nil_r. split; [done|].
        by eapply streamed_head11. }
    subst w. destruct (is_bodyless_status _) eqn:Eb.
    + apply (does_bind _ _ _ _ (still_alive_does env server ka')). intros b w evs (-> & -> & Hb).
      apply does_ret. cbn [app]. rewrite !app_nil_r. split; [done|]. eapply streamed_bodyless11; eauto. by split.
    + apply (does_weaken _ _ _ (does_stream_chunked env server _ _ _ _)). intros r w evs (-> & ? & ?).
      split; [done|]. by eapply streamed_body11.
Qed.

(** ** Messages *)

(** The messages after which the connection can go on. *)
Inductive persistent : bytes → Prop :=
| persistent_plain r : persistent (serialize true r)
| persistent_bodyless r :
    is_bodyless_status (status r) = true → persistent (serialize_chunked_head true r)
| persistent_chunked r cs :
    is_bodyless_status (status r) = false → persistent (serialize_chunked_head true r ++ encode_chunks cs []).

(** The messages that announce the end of the connection, or are ended by it. *)
Inductive closing : bytes → Prop :=
| closing_plain r : closing (serialize false r)
| closing_bodyless r :
    is_bodyless_status (status r) = true → closing (serialize_chunked_head false r)
| closing_chunked r cs :
    is_bodyless_status (status r) = false → closing (serialize_chunked_head false r ++ encode_chunks cs [])
| closing_http10 r data : closing (serialize_streaming_head_http10 r ++ data).

(** The last thing on the wire: a message, or the beginning of one. *)
Definition last_words (w : bytes) : Prop := ∃ z, persistent (w ++ z) ∨ closing (w ++ z).

(** A closing message, or the beginning of one. *)
Definition closing_words (w : bytes) : Prop := ∃ z, closing (w ++ z).

Lemma closing_words_last w : closing_words w → last_words w.
Proof. intros [z H']. exists z. by right. Qed.

Lemma closing_words_serialize r w z : w ++ z = serialize false r → closing_words w.
Proof. intros E. exists z. rewrite E. constructor. Qed.

Lemma closing_words_chunked r w :
  (∃ z cs, w ++ z = serialize_chunked_head false r ++ encode_chunks cs [] ∧ is_bodyless_status (status r) = false)
  ∨ (∃ z, w ++ z = serialize_chunked_head false r ∧ is_bodyless_status (status r) = true) → closing_words w.
Proof. intros [(z & cs & E & Hb)|(z & E & Hb)]; exists z; rewrite E; by constructor. Qed.

Definition on_wire (flow : Flow) (w : bytes) : Prop :=
  match flow with Continue => persistent w | Return => last_words w end.

Lemma chunked_message ka r cs :
  is_bodyless_status (status r) = false →
  persistent (serialize_chunked_head ka r ++ encode_chunks cs [])
  ∨ closing (serialize_chunked_head ka r ++ encode_chunks cs []).
Proof. intros Hb. destruct ka; [left; by constructor|right; by constructor]. Qed.

Lemma bodyless_message ka r :
  is_bodyless_status (status r) = true →
  persistent (serialize_chunked_head ka r) ∨ closing (serialize_chunked_head ka r).
Proof. intros Hb. destruct ka; [left; by constructor|right; by constructor]. Qed.

Lemma last_words_chunked ka r w :
  (∃ z cs, w ++ z = serialize_chunked_head ka r ++ encode_chunks cs [] ∧ is_bodyless_status (status r) = false)
  ∨ (∃ z, w ++ z = serialize_chunked_head ka r ∧ is_bodyless_status (status r) = true) → last_words w.
Proof.
  intros [(z & cs & E & Hb)|(z & E & Hb)]; exists z; rewrite E;
    [by apply chunked_message|by apply bodyless_message].
Qed.

Lemma serialize_message ka r : persistent (serialize ka r) ∨ closing (serialize ka r).
Proof. destruct ka; [left|right]; constructor. Qed.

Lemma last_words_serialize ka r w z : w ++ z = serialize ka r → last_words w.
Proof. intros E. exists z. rewrite E. apply serialize_message. Qed.

Lemma closing_words_nil : closing_words [].
Proof. by apply (closing_words_serialize (response_empty 200) [] (serialize false (response_empty 200))). Qed.

Lemma last_words_nil : last_words [].
Proof. by apply (last_words_serialize true (response_empty 200) [] (serialize true (response_empty 200))). Qed.

Definition streaming_flow (r : option StreamingCompletion) : Flow :=
  match r with Some sc => if sc_keep_alive sc then Continue else Return | None => Return end.

Lemma streamed_on_wire server s head ka r w :
  streamed server s head ka r w →
  on_wire (streaming_flow r) w ∧ (ka = false → streaming_flow r = Return ∧ closing_words w).
Proof.
  intros Hs. destruct Hs as [n hd Ev Hn|hd Ev Hb|r w hd Ev Hb Hc Hd|hd enc ka' n Ep Ev Hn Hka
    |hd enc ka' r Ep Ev Hb Hka Hr Hc|hd enc ka' r w Ep Ev Hb Hka Hc Hw]; cbn [streaming_flow on_wire].
  - assert (closing_words (take n (serialize_streaming_head_http10 hd))) as Hcw.
    { exists (drop n (serialize_streaming_head_http10 hd)). rewrite take_drop.
      rewrite <- (app_nil_r (serialize_streaming_head_http10 hd)). apply closing_http10. }
    split; [by apply closing_words_last|done].
  - assert (closing_words (serialize_streaming_head_http10 hd)) as Hcw by (exists []; apply closing_http10).
    split; [by apply closing_words_last|done].
  - assert (streaming_flow r = Return) as ->.
    { destruct r as [[[|] st]|]; [|done..]. by destruct (proj2 Hc). }
    assert (closing_words (serialize_streaming_head_http10 hd ++ w)) as Hcw.
    { exists []. rewrite app_nil_r. apply closing_http10. }
    split; [by apply closing_words_last|done].
  - assert (∀ ka', (∃ z cs, take n (serialize_chunked_head ka' hd) ++ z
        = serialize_chunked_head ka' hd ++ encode_chunks cs [] ∧ is_bodyless_status (status hd) = false)
      ∨ ∃ z, take n (serialize_chunked_head ka' hd) ++ z = serialize_chunked_head ka' hd
        ∧ is_bodyless_status (status hd) = true) as Hw.
    { intros b. destruct (is_bodyless_status (status hd)) eqn:Eb; [right; eexists; by rewrite take_drop|left].
      exists (drop n (serialize_chunked_head b hd) ++ encode_chunks [] []), [].
      by rewrite (assoc_L (++)), take_drop. }
    split; [by apply (last_words_chunked ka' hd)|]. intros ->. split; [done|].
    destruct ka'; [by specialize (Hka eq_refl)|]. by apply (closing_words_chunked hd).
  - destruct Hr as [[b st] ->]. cbn in Hc. destruct Hc as [-> Hbk]. destruct b; cbn [on_wire].
    + rewrite (Hbk eq_refl) in *. split; [by constructor|]. intros ->. by specialize (Hka eq_refl).
    + split; [apply (last_words_chunked ka' hd); right; exists []; by rewrite app_nil_r|].
      intros ->. split; [done|]. destruct ka'; [by specialize (Hka eq_refl)|].
      apply (closing_words_chunked hd). right. exists []. by rewrite app_nil_r.
  - destruct r as [[b st]|]; cbn [streaming_flow].
    + destruct Hw as (ds & cs & _ & _ & ->). destruct Hc as [_ Hbk]. cbn in Hbk. destruct b; cbn [on_wire].
      * rewrite (Hbk eq_refl) in *. split; [by constructor|]. intros ->. by specialize (Hka eq_refl).
      * split; [apply (last_words_chunked ka' hd); left; exists [], cs; by rewrite app_nil_r|].
        intros ->. split; [done|]. destruct ka'; [by specialize (Hka eq_refl)|].
        apply (closing_words_chunked hd). left. exists [], cs. by rewrite app_nil_r.
    + destruct Hw as (cs & z & _ & E & _). split.
      * apply (last_words_chunked ka' hd). left. exists z, cs. by rewrite <- E, (assoc_L (++)).
      * intros ->. split; [done|]. destruct ka'; [by specialize (Hka eq_refl)|].
        apply (closing_words_chunked hd). left. exists z, cs. by rewrite <- E, (assoc_L (++)).
Qed.

(** ** Admission *)

(** What the gates decide, and the extensions they leave. *)
Fixpoint gates_run (gs : list RequestGate) (head : RequestHead) (ctx : GateContext)
    (ext : RequestExtensions) : option Response * RequestExtensions :=
  match gs with
  | [] => (None, ext)
  | g :: gs =>
      match check g head ctx ext with
      | (Allow, ext) => gates_run gs head ctx ext
      | (Reject response, ext) => (Some response, ext)
      end
  end.

(** The head that what is behind the gates sees. *)
Definition admitted_head (ext : RequestExtensions) (head : RequestHead) : RequestHead :=
  if ext_is_empty ext then head else set_extensions ext head.

(** The calls behind the gates: all about this head and body. *)
Definition admitted_event (head : RequestHead) (body : bytes) (ev : Event) : Prop :=
  match ev with
  | EvUpgrade h _ _ | EvResponse _ h _ => h = head
  | EvApplication h b | EvStream h b | EvHandle h b => h = head ∧ b = body
  | EvRequest _ _ | EvGate _ _ => False
  end.

Definition response_event (head : RequestHead) (st : N) (ev : Event) : Prop :=
  match ev with EvResponse _ h s => h = head ∧ s = st | _ => False end.

(** The calls of one request: middleware, then gates in order until one rejects; what is behind
    the gates only if all of them let the request pass. *)
Inductive request_trace (server : Server) (ctx : GateContext) (req : HttpRequest) : list Event → Prop :=
| trace_rejected k r ext post :
    let h := Connection.head req in
    gates_run (gates server) h ctx ext_new = (Some r, ext) →
    Forall (response_event h (status r)) post →
    request_trace server ctx req
      (((λ m, EvRequest m h) <$> middlewares server)
       ++ ((λ g, EvGate (gate_name g) h) <$> take k (gates server)) ++ post)
| trace_admitted ext post :
    let h := Connection.head req in
    gates_run (gates server) h ctx ext_new = (None, ext) →
    Forall (admitted_event (admitted_head ext h) (Connection.body req)) post →
    request_trace server ctx req
      (((λ m, EvRequest m h) <$> middlewares server)
       ++ ((λ g, EvGate (gate_name g) h) <$> gates server) ++ post).

Lemma does_first_rejection gs head ctx ext :
  does (first_rejection gs head ctx ext) (λ r w evs,
    w = [] ∧ r = gates_run gs head ctx ext
    ∧ ∃ k, evs = (λ g, EvGate (gate_name g) head) <$> take k gs ∧ (r.1 = None → k = length gs)).
Proof.
  revert ext. induction gs as [|g gs IH]; intros ext; cbn [first_rejection gates_run].
  { apply does_ret. split_and!; [done..|]. by exists 0. }
  apply (does_bind _ _ (λ _ w evs, w = [] ∧ evs = [EvGate (gate_name g) head])); [by apply does_emit|].
  intros [] w evs [-> ->]. destruct (check g head ctx ext) as [[|response] ext'].
  - apply (does_weaken _ _ _ (IH ext')). intros r w evs (-> & -> & k & -> & Hk). split_and!; [done..|].
    exists (S k). split; [done|]. intros E. simpl. by rewrite Hk.
  - apply does_ret. split_and!; [done..|]. exists 1. split; [done|]. by intros [=].
Qed.

Lemma does_observers server (f : bytes → Event) :
  does (observers server f) (λ _ w evs, w = [] ∧ evs = f <$> middlewares server).
Proof. by apply does_emit. Qed.

Lemma silent_shrink_send env : silent (shrink_send_if_oversized env).
Proof. apply silent_bind; [apply silent_observe|]. intros [|]; auto with effects. Qed.

Lemma does_send_response env server head r ka :
  does (send_response env server head r ka) (λ flow w evs,
    on_wire flow w ∧ (ka = false → flow = Return ∧ closing_words w)
    ∧ Forall (response_event head (status r)) evs).
Proof.
  unfold send_response, serialize_response.
  apply (does_bind _ _ (λ data w evs, data = serialize ka r ∧ w = [] ∧ evs = [])).
  { apply does_silent; [apply silent_put_send|]. intros []. by apply does_ret. }
  intros data w evs (-> & -> & ->). apply (does_bind _ _ _ _ (does_write_all env _ _)).
  intros ok w evs [-> Hw]. destruct ok; cbn [negb].
  - subst w. apply does_silent; [apply silent_shrink_send|]. intros [].
    apply (does_bind _ _ _ _ (does_observers server _)). intros [] w evs [-> ->]. apply does_ret.
    cbn [app]. rewrite !app_nil_r.
    assert (closing_words (serialize false r)) as Hcw.
    { apply (closing_words_serialize r _ []). by rewrite app_nil_r. }
    split_and!; [|by intros ->|].
    + destruct ka; [by constructor|]. by apply closing_words_last.
    + apply Forall_fmap, Forall_forall. by cbn.
  - destruct Hw as (n & Hn & ->). apply does_ret. cbn [app]. rewrite app_nil_r. split_and!; [| |done].
    + apply (last_words_serialize ka r _ (drop n (serialize ka r))). apply take_drop.
    + intros ->. split; [done|]. apply (closing_words_serialize r _ (drop n (serialize false r))).
      apply take_drop.
Qed.

Lemma does_try_handle_upgrade server stream head leftover body :
  does (try_handle_upgrade server stream head leftover) (λ _ w evs,
    w = [] ∧ Forall (admitted_event head body) evs).
Proof.
  unfold try_handle_upgrade. destruct (List.find _ _) as [config|]; [|by apply does_ret].
  apply (does_bind _ _ (λ _ w evs, w = [] ∧ Forall (admitted_event head body) evs)).
  - apply does_emit. split; [done|]. by repeat constructor.
  - intros [] w evs [-> H']. apply does_ret. by rewrite !app_nil_r.
Qed.

(** A last message under [connection: close], written or not. *)
Lemma does_final_words env r (P : Event → Prop) :
  does (write_all env (serialize false r) None ;; mret Return) (λ flow w evs,
    closing_words w ∧ flow = Return ∧ evs = [] ∧ Forall P evs).
Proof.
  apply (does_bind _ _ _ _ (does_write_all env _ _)). intros ok w evs [-> Hw]. apply does_ret.
  rewrite app_nil_r. split_and!; [|done..]. destruct ok.
  - subst w. apply (closing_words_serialize r _ []). by rewrite app_nil_r.
  - destruct Hw as (n & Hn & ->). apply (closing_words_serialize r _ (drop n (serialize false r))).
    apply take_drop.
Qed.

Definition served_ok (head : RequestHead) (body : bytes) (ka : bool) (flow : Flow) (w : bytes)
    (evs : list Event) : Prop :=
  on_wire flow w ∧ (ka = false → flow = Return ∧ closing_words w)
  ∧ Forall (admitted_event head body) evs.

Lemma does_upgrade env server head body ka :
  does (stop ← load_shutdown env;
        if stop : bool then write_all env (serialize false (response_empty 503)) None ;; mret Return
        else
          leftover ← get (λ c, unread (c_buf c));
          stream ← get c_reader;
          upgraded ← try_handle_upgrade server stream head leftover;
          if upgraded : bool then mret Return
          else write_all env (serialize false (response_empty 501)) None ;; mret Return)
    (served_ok head body ka).
Proof.
  assert (∀ r, does (write_all env (serialize false r) None ;; mret Return) (served_ok head body ka)) as Hfinal.
  { intros r. apply (does_weaken _ _ _ (does_final_words env r (admitted_event head body))).
    intros flow w evs (? & -> & _ & ?). split_and!; [by apply closing_words_last|done..]. }
  apply does_silent; [apply silent_observe|]. intros [|]; [apply Hfinal|].
  apply does_silent; [apply silent_get|]. intros leftover.
  apply does_silent; [apply silent_get|]. intros stream.
  apply (does_bind _ _ _ _ (does_try_handle_upgrade server stream head leftover body)).
  intros [|] w evs [-> Hev].
  - apply does_ret. rewrite !app_nil_r. split_and!; [apply last_words_nil| |done].
    intros _. split; [done|apply closing_words_nil].
  - apply (does_weaken _ _ _ (Hfinal _)). intros flow w evs' (? & ? & ?). split_and!; try done.
    by apply Forall_app.
Qed.

Lemma response_admitted head body st evs :
  Forall (response_event head st) evs → Forall (admitted_event head body) evs.
Proof. intros H'. apply (Forall_impl _ _ _ H'). intros []; cbn; naive_solver. Qed.

(** After the calls [evs0], which write nothing, the message of [flow]. *)
Lemma served_after evs0 head body ka flow w evs :
  Forall (admitted_event head body) evs0 → served_ok head body ka flow w evs →
  served_ok head body ka flow ([] ++ w) (evs0 ++ evs).
Proof. intros H0 (? & ? & ?). split_and!; [done..|]. by apply Forall_app. Qed.

Lemma does_streamed_answer env server head body ka s :
  does (emit [EvStream head body] ;;
        completion ← write_streaming_response env server s head ka;
        match completion with
        | Some sc =>
            observers server (λ m, EvResponse m head (sc_status sc)) ;;
            mret (if sc_keep_alive sc then Continue else Return)
        | None => mret Return
        end) (served_ok head body ka).
Proof.
  apply (does_bind _ _ (λ _ w evs, w = [] ∧ evs = [EvStream head body])); [by apply does_emit|].
  intros [] w evs [-> ->]. apply (does_bind _ _ _ _ (does_write_streaming env server s head ka)).
  intros r w evs [-> [Hw Hka]%streamed_on_wire]. destruct r as [sc|].
  - apply (does_bind _ _ _ _ (does_observers server _)). intros [] w' evs [-> ->]. apply does_ret.
    cbn [app]. rewrite !app_nil_r. split_and!; [done|done|].
    constructor; [done|]. apply Forall_fmap, Forall_forall. by cbn.
  - apply does_ret. cbn [app]. rewrite app_nil_r. split_and!; [done..|]. by repeat constructor.
Qed.

Lemma does_plain_answer env server head body ka (m : M Response) :
  does m (λ _ w evs, w = [] ∧ Forall (admitted_event head body) evs) →
  does (response ← m;
        let response := foldl (λ acc i, map_response i head acc) response (interceptors server) in
        response ← finalize_response env server head response;
        keep_alive ← still_alive env server ka;
        send_response env server head response keep_alive) (served_ok head body ka).
Proof.
  intros Hm. apply (does_bind _ _ _ _ Hm). intros r w evs [-> Hevs]. cbv zeta.
  apply does_silent; [apply silent_finalize|]. intros r'.
  apply (does_bind _ _ _ _ (still_alive_does env server ka)). intros b w evs' (-> & -> & Hb).
  apply (does_weaken _ _ _ (does_send_response env server head r' b)).
  intros flow w evs' (Hw & Hflow & Hev). apply served_after; [done|]. cbn [app]. split_and!; [done| |].
  - intros ->. apply Hflow. destruct b; [by specialize (Hb eq_refl)|done].
  - by eapply response_admitted.
Qed.

Lemma does_serve_admitted env server head body ka :
  does (serve_admitted env server head body ka) (served_ok head body ka).
Proof.
  unfold serve_admitted. destruct (existsb _ _); [apply does_upgrade|].
  apply (does_bind _ _ (λ _ w evs, w = [] ∧ evs = [EvApplication head body])); [by apply does_emit|].
  intros [] w evs [-> ->]. set (intercepted := match list_find _ _ with Some _ => _ | None => _ end).
  cbv zeta. apply (does_weaken _ (served_ok head body ka)).
  2:{ intros flow w evs. apply served_after. by repeat constructor. }
  destruct (match intercepted with Some _ => None | None => _ end) as [s|];
    [apply does_streamed_answer|]. apply does_plain_answer.
  destruct intercepted as [r|]; [by apply does_ret|]. destruct (handler server) as [h|]; [|by apply does_ret].
  apply (does_bind _ _ (λ _ w evs, w = [] ∧ evs = [EvHandle head body])); [by apply does_emit|].
  intros [] w evs [-> ->]. apply does_ret. split; [done|]. by repeat constructor.
Qed.

(** ** One request, and the loop *)

Definition max_requests (server : Server) : N := N.max (max_requests_per_connection server) 1.

Lemma does_serve_request env server ctx served req :
  extensions (Connection.head req) = ext_new →
  does (serve_request env server ctx served req) (λ flow w evs,
    on_wire flow w ∧ (flow = Continue → (served < max_requests server)%N)
    ∧ request_trace server ctx req evs).
Proof.
  intros Hext. unfold serve_request. set (h := Connection.head req) in *.
  apply (does_bind _ _ _ _ (does_observers server _)). intros [] w evs [-> ->].
  apply (does_bind _ _ _ _ (still_alive_does env server _)). intros ka w evs (-> & -> & Hka).
  rewrite Hext. change (ext_is_empty ext_new) with true. cbn [negb].
  assert (∀ flow (w : bytes), (ka = false → flow = Return ∧ closing_words w) → flow = Continue → (served < max_requests server)%N) as Hmax.
  { intros flow w Hf ->. destruct ka; [|by destruct (Hf eq_refl)]. specialize (Hka eq_refl).
    bool_to_prop. done. }
  apply (does_bind _ _ _ _ (does_first_rejection _ h ctx ext_new)).
  intros [[r|] ext] w evs (-> & Hr & k & -> & Hk).
  - apply (does_weaken _ _ _ (does_send_response env server h r ka)).
    intros flow w evs (Hw & Hflow & Hev). cbn [app]. split_and!; [done|by apply (Hmax flow w)|].
    by eapply trace_rejected.
  - apply (does_weaken _ _ _ (does_serve_admitted env server _ (Connection.body req) ka)).
    intros flow w evs (Hw & Hflow & Hev). cbn [app]. split_and!; [done|by apply (Hmax flow w)|].
    rewrite (Hk eq_refl), firstn_all. by eapply trace_admitted.
Qed.

(** The specification of a connection that has served [served] requests and has [input] still
    to come: what it writes and calls. *)
Inductive exchanges (server : Server) (ctx : GateContext) : N → bytes → bytes → list Event → Prop :=
| exchanges_stop served input w :
    last_words w → exchanges server ctx served input w []
| exchanges_last served input req n w evs :
    request_of (srv_max_body_bytes server) input = Ok (Some (req, n)) →
    request_trace server ctx req evs → last_words w →
    exchanges server ctx served input w evs
| exchanges_next served input req n w evs out trace :
    request_of (srv_max_body_bytes server) input = Ok (Some (req, n)) →
    request_trace server ctx req evs → persistent w → (served + 1 < max_requests server)%N →
    exchanges server ctx (served + 1) (drop n input) out trace →
    exchanges server ctx served input (w ++ out) (evs ++ trace).

Lemma request_of_head max input req n :
  request_of max input = Ok (Some (req, n)) → extensions (Connection.head req) = ext_new ∧ 0 < n.
Proof.
  intros (c & l & m & Hp & _ & _ & ->)%request_of_inv.
  apply parse_head_sound in Hp as (a & rest & _ & _ & E & -> & _). rewrite E. split; [done|].
  unfold head_size. change (length TERMINATOR) with 4. lia.
Qed.

(** One turn: it ends the connection with last words, or serves the request at the front. *)
Definition turn_ok (server : Server) (ctx : GateContext) (served : N) (c c' : Conn) (flow : Flow)
    (w : bytes) (evs : list Event) : Prop :=
  let input := pending (c_buf c) (c_reader c) in
  c_out c' = c_out c ++ w ∧ c_trace c' = c_trace c ++ evs
  ∧ (flow = Return ∧ closing_words w ∧ evs = []
     ∨ ∃ req n, request_of (srv_max_body_bytes server) input = Ok (Some (req, n))
         ∧ on_wire flow w ∧ (flow = Continue → (served + 1 < max_requests server)%N)
         ∧ request_trace server ctx req evs
         ∧ conn_ok (c_buf c') (c_reader c') ∧ pending (c_buf c') (c_reader c') = drop n input).

Lemma serve_one_stop server ctx served c c' w :
  frame c c' w [] → closing_words w → turn_ok server ctx served c c' Return w [].
Proof. intros (_ & _ & Ho & Ht) Hw. split_and!; [done..|]. by left. Qed.

(** The turn behind the read. *)
Lemma serve_read env server ctx served c r buf reader :
  conn_ok (c_buf c) (c_reader c) →
  read_request_with_limit (srv_max_body_bytes server) (c_buf c) (c_reader c) = Some (r, buf, reader) →
  ∀ c1, c_buf c1 = buf → c_reader c1 = reader → c_out c1 = c_out c → c_trace c1 = c_trace c →
  ∃ flow c' w evs,
    match r with
    | Err err =>
        match request_error_response err with
        | Some response => write_all env (serialize false response) None ;; mret Return
        | None => mret Return
        end
    | Ok None => mret Return
    | Ok (Some request) => serve_request env server ctx (served + 1) request
    end c1 = Some (flow, c') ∧ turn_ok server ctx served c c' flow w evs.
Proof.
  intros Hok Hread c1 Hb Hr Ho Ht.
  destruct (read_request_spec (srv_max_body_bytes server) _ _ Hok) as (r' & buf' & reader' & Hread' & Hspec).
  rewrite Hread in Hread'. injection Hread' as <- <- <-.
  assert (∀ m : M Flow, does m (λ flow w evs, closing_words w ∧ flow = Return ∧ evs = []) →
    ∃ flow c' w evs, m c1 = Some (flow, c') ∧ turn_ok server ctx served c c' flow w evs) as Hstop.
  { intros m Hm. destruct (Hm c1) as (flow & c' & w & evs & E & (_ & _ & Fo & Ft) & Hw & -> & ->).
    exists Return, c', w, []. split; [done|]. rewrite Ho in Fo. rewrite Ht in Ft. split_and!; [done..|]. by left. }
  destruct r as [[req|]|err].
  - destruct (request_of _ _) as [[[req' n]|]|] eqn:Eq; [|discriminate Hspec..].
    destruct Hspec as ([= <-] & Hok' & Hp & _).
    destruct (does_serve_request env server ctx (served + 1) req (proj1 (request_of_head _ _ _ _ Eq)) c1)
      as (flow & c' & w & evs & E & (Fr & Fb & Fo & Ft) & Hw & Hm & Htr).
    exists flow, c', w, evs. split; [done|]. rewrite Ho in Fo. rewrite Ht in Ft.
    split_and!; [done..|]. right. exists req, n. rewrite Fr, Fb, Hb, Hr. by split_and!.
  - apply Hstop. apply does_ret. by split; [apply closing_words_nil|].
  - apply Hstop. destruct (request_error_response err) as [response|].
    + apply (does_weaken _ _ _ (does_final_words env response (λ _, True))). naive_solver.
    + apply does_ret. by split; [apply closing_words_nil|].
Qed.

Lemma serve_one_turn env server ctx served c :
  conn_ok (c_buf c) (c_reader c) →
  ∃ flow c' w evs, serve_one env server ctx served c = Some (flow, c')
    ∧ turn_ok server ctx served c c' flow w evs.
Proof.
  intros Hok. unfold serve_one.
  assert (∀ c1, same_conn c c1 → ∃ flow c' w evs, mret (M := M) Return c1 = Some (flow, c')
      ∧ turn_ok server ctx served c c' flow w evs) as Hret.
  { intros c1 (? & ? & Ho & Ht). exists Return, c1, [], []. split; [done|].
    split_and!; rewrite ?app_nil_r; try done. left. by split; [|split; [apply closing_words_nil|]]. }
  assert (∀ c1 c2, same_conn c c1 → same_conn c1 c2 → same_conn c c2) as Htrans.
  { unfold same_conn. intros c1 c2 (-> & -> & -> & ->) (-> & -> & -> & ->). done. }
  step_silent e c1 Hs1. destruct (_ <=? _)%N; [by apply Hret|].
  step_silent now c2 Hs2. pose proof (Htrans _ _ Hs1 Hs2) as Hs3. cbv zeta.
  set (deadline := default _ _). clearbody deadline. unfold timed_read.
  rewrite bind_assoc. step_silent expired c3 Hs4. pose proof (Htrans _ _ Hs3 Hs4) as Hs5.
  destruct expired; [by apply Hret|].
  destruct (read_request_spec (srv_max_body_bytes server) _ _ Hok) as (r & buf & reader & Hread & _).
  destruct Hs5 as (E1 & E2 & E3 & E4).
  unfold read_request_io, fmap, M_fmap. rewrite bind_assoc.
  unfold mbind at 1, M_bind at 1. rewrite E1, E2, Hread. cbn [mbind M_bind mret M_ret].
  by eapply (serve_read env server ctx served c r buf reader Hok Hread).
Qed.

Lemma connection_loop_exchanges env server ctx fuel served c :
  conn_ok (c_buf c) (c_reader c) → length (pending (c_buf c) (c_reader c)) < fuel →
  ∃ c' w evs, connection_loop env server fuel ctx served c = Some (tt, c')
    ∧ c_out c' = c_out c ++ w ∧ c_trace c' = c_trace c ++ evs
    ∧ exchanges server ctx served (pending (c_buf c) (c_reader c)) w evs.
Proof.
  revert served c. induction fuel as [|fuel IH]; intros served c Hok Hf; [lia|].
  destruct (serve_one_turn env server ctx served c Hok) as (flow & c1 & w & evs & E & Ho & Ht & Hcase).
  cbn [connection_loop]. unfold mbind at 1, M_bind at 1. rewrite E.
  destruct Hcase as [(-> & Hw & ->)|(req & n & Hreq & Hw & Hm & Htr & Hok1 & Hp)].
  - exists c1, w, []. split_and!; [done..|]. by apply exchanges_stop, closing_words_last.
  - destruct flow.
    + assert (length (pending (c_buf c1) (c_reader c1)) < fuel) as Hf1.
      { rewrite Hp, length_drop. pose proof (proj2 (request_of_head _ _ _ _ Hreq)).
        destruct (pending (c_buf c) (c_reader c)); [discriminate Hreq|cbn [length] in *; lia]. }
      destruct (IH (served + 1)%N c1 Hok1 Hf1) as (c2 & w2 & evs2 & -> & Ho2 & Ht2 & Hx).
      exists c2, (w ++ w2), (evs ++ evs2). rewrite Ho2, Ht2, Ho, Ht, <- !(assoc_L (++)).
      split_and!; [done..|]. rewrite Hp in Hx. eapply exchanges_next; eauto.
    + exists c1, w, evs. split_and!; [done..|]. by eapply exchanges_last.
Qed.

Lemma rb_new_conn_ok reader : reader_ok reader → conn_ok rb_new reader.
Proof. intros H'. split; [apply rb_new_wf|done]. Qed.

Lemma handle_connection_exchanges env server reader peer :
  reader_ok reader →
  ∃ c, handle_connection_with_permit env server reader peer = Some c
    ∧ exchanges server {| peer_addr := peer |} 0 (stream reader) (c_out c) (c_trace c).
Proof.
  intros Hr. unfold handle_connection_with_permit.
  destruct (connection_loop_exchanges env server {| peer_addr := peer |} (conn_fuel reader) 0 (conn_new reader))
    as (c & w & evs & -> & Ho & Ht & Hx); [by apply rb_new_conn_ok|cbn; unfold conn_fuel; lia|].
  exists c. split; [done|]. cbn in Ho, Ht, Hx. by rewrite Ho, Ht.
Qed.

(** ** Chunked bodies are self-delimiting *)

Lemma line_cut l1 l2 r1 r2 :
  contains x0a l1 = false → contains x0a l2 = false →
  l1 ++ CRLF ++ r1 = l2 ++ CRLF ++ r2 → l1 = l2 ∧ r1 = r2.
Proof.
  intros H1 H2 E.
  assert (∀ l r, contains x0a l = false →
    position (beqb x0a) (l ++ CRLF ++ r) = Some (length (l ++ [x0d]))) as Hpos.
  { intros l r Hl. change (l ++ CRLF ++ r) with (l ++ [x0d] ++ x0a :: r). rewrite (assoc_L (++)).
    apply position_app_cons; [|done]. apply Forall_app. split; [by apply existsb_false_Forall|].
    by repeat constructor. }
  pose proof (f_equal (position (beqb x0a)) E) as Ep. rewrite !Hpos in Ep by done.
  rewrite !length_app in Ep. injection Ep as Ep.
  apply app_inj_1 in E as [-> E]; [|simpl in Ep; lia]. by injection E.
Qed.

Lemma size_line_hex k n : size_line (to_hex k) n → n = k.
Proof.
  pose proof (to_hex_hexdigits k) as Hd. pose proof (to_hex_value k) as Hv. intros Hl.
  inversion Hl as [digits ext v _ _ Hn _ Hext _ _ E]; subst v.
  destruct Hext as [->|[e ->]].
  - rewrite app_nil_r in Hv. congruence.
  - exfalso. rewrite forallb_app in Hd. by apply andb_prop in Hd as [_ Hd].
Qed.

Lemma encode_chunks_cases cs :
  encode_chunks cs [] = to_hex 0 ++ CRLF ++ CRLF
  ∨ ∃ c cs', c ≠ [] ∧ encode_chunks cs [] = to_hex (len c) ++ CRLF ++ c ++ CRLF ++ encode_chunks cs' [].
Proof.
  induction cs as [|c cs IH]; [by left|]. destruct c as [|b c]; [exact IH|]. right.
  exists (b :: c), cs. split; [done|]. by rewrite encode_chunks_cons, <- !(assoc_L (++)).
Qed.

Lemma to_hex_no_lf n : contains x0a (to_hex n) = false.
Proof. apply hexdigits_no; [done|apply to_hex_hexdigits]. Qed.

Lemma chunked_body_ends text data n rest cs :
  chunked_body text data n → text ++ rest = encode_chunks cs [] → rest = [].
Proof.
  intros Hb. revert cs. induction Hb as [line Hl|line d text body n Hl Hd _ IH]; intros cs E;
    pose proof (size_line_no_lf _ _ Hl) as Hlf; rewrite <- !(assoc_L (++)) in E;
    destruct (encode_chunks_cases cs) as [Ec|(c & cs' & Hc & Ec)]; rewrite Ec in E.
  - apply line_cut in E as [_ E]; [|done|apply to_hex_no_lf]. by injection E.
  - apply line_cut in E as [-> _]; [|done|apply to_hex_no_lf]. apply size_line_hex in Hl.
    symmetry in Hl. by apply len_nil_inv in Hl.
  - change (to_hex 0 ++ CRLF ++ CRLF) with (to_hex 0 ++ CRLF ++ (CRLF ++ [])) in E.
    apply line_cut in E as [-> _]; [|done|apply to_hex_no_lf]. apply size_line_hex in Hl.
    by apply len_nil_inv in Hl.
  - apply line_cut in E as [-> E]; [|done|apply to_hex_no_lf]. apply size_line_hex in Hl.
    apply app_inj_1 in E as [_ E]; [|unfold len in Hl; lia]. injection E as E. by apply (IH cs').
Qed.

(** ** Gate safety *)

(** The head that a call behind the gates was given. *)
Definition behind_gates (ev : Event) : option RequestHead :=
  match ev with
  | EvUpgrade h _ _ | EvApplication h _ | EvStream h _ | EvHandle h _ => Some h
  | EvRequest _ _ | EvGate _ _ | EvResponse _ _ _ => None
  end.

(** [h] is the head of a request at the front of [input], admitted by all the gates, and the
    calls [before] end with theirs and calls behind them. *)
Definition admitted_by_gates (server : Server) (ctx : GateContext) (input : bytes)
    (before : list Event) (h : RequestHead) : Prop :=
  ∃ req n ext a b,
    request_of (srv_max_body_bytes server) input = Ok (Some (req, n))
    ∧ gates_run (gates server) (Connection.head req) ctx ext_new = (None, ext)
    ∧ h = admitted_head ext (Connection.head req)
    ∧ before = a ++ ((λ g, EvGate (gate_name g) (Connection.head req)) <$> gates server) ++ b.

(** An element of a concatenation is in the first list or splits the second one. *)
Lemma cut_app {A} (a b t1 t2 : list A) x :
  a ++ b = t1 ++ x :: t2 → x ∈ a ∨ ∃ t, t1 = a ++ t ∧ b = t ++ x :: t2.
Proof.
  intros E. apply app_eq_inv in E as [([|y l] & -> & E)|(l & -> & ->)].
  - right. exists []. by rewrite !app_nil_r.
  - injection E as -> ->. left. set_solver.
  - right. by exists l.
Qed.

Lemma observed_not_behind {A} (f : A → Event) (l : list A) ev h :
  (∀ x, behind_gates (f x) = None) → behind_gates ev = Some h → ev ∈ f <$> l → False.
Proof. intros Hf Hb (x & -> & _)%list_elem_of_fmap. by rewrite Hf in Hb. Qed.

Lemma request_trace_admitted server ctx req evs t1 ev t2 h input n :
  request_of (srv_max_body_bytes server) input = Ok (Some (req, n)) →
  request_trace server ctx req evs → evs = t1 ++ ev :: t2 → behind_gates ev = Some h →
  admitted_by_gates server ctx input t1 h.
Proof.
  intros Hreq Htr E Hb.
  destruct Htr as [k r ext post h0 Hg Hpost|ext post h0 Hg Hpost];
    (apply cut_app in E as [E|(t & -> & E)]; [exfalso; by refine (observed_not_behind _ _ _ _ _ Hb E)|]);
    (apply cut_app in E as [E|(t' & -> & E)]; [exfalso; by refine (observed_not_behind _ _ _ _ _ Hb E)|]); subst post;
    apply Forall_app in Hpost as [_ [Hev _]%Forall_cons].
  - by destruct ev.
  - exists req, n, ext, ((λ m, EvRequest m h0) <$> middlewares server), t'. split_and!; try done.
    destruct ev; cbn in Hev, Hb; naive_solver.
Qed.

Lemma exchanges_admitted server ctx served input w trace :
  exchanges server ctx served input w trace → ∀ t1 ev t2 h,
  trace = t1 ++ ev :: t2 → behind_gates ev = Some h →
  ∃ pre suffix, input = pre ++ suffix ∧ admitted_by_gates server ctx suffix t1 h.
Proof.
  induction 1 as [served input w _|served input req n w evs Hreq Htr _
    |served input req n w evs out trace Hreq Htr _ _ _ IH]; intros t1 ev t2 h E Hb.
  - by destruct t1.
  - exists [], input. split; [done|]. by eapply request_trace_admitted.
  - apply app_eq_inv in E as [(l & -> & E)|(l & -> & E)].
    + destruct l as [|x l]; cbn [app] in E.
      * destruct (IH [] ev t2 h) as (pre & suffix & Hin & req' & m & ext & a & b & ? & ? & ? & Hn);
          [done|done|]. exists (take n input ++ pre), suffix. split.
        { by rewrite <- (assoc_L (++)), <- Hin, take_drop. }
        exists req', m, ext, (t1 ++ a), b. split_and!; [done..|].
        rewrite <- (assoc_L (++)). by rewrite <- Hn, app_nil_r.
      * injection E as <- ->. exists [], input. split; [done|]. by eapply request_trace_admitted.
    + destruct (IH l ev t2 h) as (pre & suffix & Hin & req' & m & ext & a & b & ? & ? & ? & ->); [done|done|].
      exists (take n input ++ pre), suffix. split.
      { by rewrite <- (assoc_L (++)), <- Hin, take_drop. }
      exists req', m, ext, (evs ++ a), b. split_and!; [done..|]. by rewrite (assoc_L (++)).
Qed.

Lemma exchanges_messages server ctx served input out trace :
  exchanges server ctx served input out trace →
  ∃ ws w, out = concat ws ++ w ∧ Forall persistent ws ∧ last_words w
    ∧ (ws = [] ∨ (served + len ws < max_requests server)%N).
Proof.
  induction 1 as [served input w Hw|served input req n w evs _ _ Hw
    |served input req n w evs out trace _ _ Hw Hm _ (ws & w' & -> & Hws & Hl & IH)].
  - exists [], w. split_and!; [done..|by left].
  - exists [], w. split_and!; [done..|by left].
  - exists (w :: ws), w'. cbn [concat]. rewrite (assoc_L (++)). split_and!; [done|by constructor|done|].
    right. destruct IH as [->|IH]; unfold len in *; cbn [length] in *; lia.
Qed.

(** C5: the gates are always asked first.  On every connection, whatever the environment does,
    a request only reaches an upgrade, an interceptor, a plugin or the handler if it is a
    request of the byte stream that every gate let pass, it is seen with exactly the extensions
    the gates left, and the calls of the gates, in order, come before. *)
Theorem gates_before_application env server reader peer :
  reader_ok reader →
  ∃ c, handle_connection_with_permit env server reader peer = Some c
    ∧ ∀ t1 ev t2 h, c_trace c = t1 ++ ev :: t2 → behind_gates ev = Some h →
      ∃ pre suffix, stream reader = pre ++ suffix
        ∧ admitted_by_gates server {| peer_addr := peer |} suffix t1 h.
Proof.
  intros (c & E & Hx)%(handle_connection_exchanges env server reader peer).
  exists c. split; [done|]. by apply (exchanges_admitted _ _ _ _ _ _ Hx).
Qed.

(** C6: the response stream stays in sync.  Whatever the environment does, the bytes a
    connection writes are complete messages that leave the connection open, fewer than
    [max_requests_per_connection] of them, followed by at most one message that announces the
    end, or the beginning of a message. *)
Theorem response_stream_sound env server reader peer :
  reader_ok reader →
  ∃ c ws w, handle_connection_with_permit env server reader peer = Some c
    ∧ c_out c = concat ws ++ w ∧ Forall persistent ws ∧ last_words w
    ∧ (len ws < max_requests server)%N.
Proof.
  intros (c & E & Hx)%(handle_connection_exchanges env server reader peer).
  apply exchanges_messages in Hx as (ws & w & Ho & Hws & Hw & Hn).
  exists c, ws, w. split_and!; [done..|]. destruct Hn as [->|Hn]; [|lia].
  unfold max_requests, len. cbn [length]. lia.
Qed.

End spec.

(** ** A server and a connection

    A gate that refuses [DELETE], a handler that streams under [/s]; three pipelined requests,
    cut in the middle of a head. *)

#[local] Existing Instance demo_types.
#[local] Existing Instance naive_memmem.

#[export] Instance no_plugins : PathPlugins := {
  ProxyConfig := Empty_set; try_rtc_proxy _ _ _ := None;
  WebRtcConfig := Empty_set; try_rtc_offer _ _ _ := None;
  GraphQlConfig := Empty_set; try_graphql _ _ _ := None;
  StaticFilesConfig := Empty_set; try_static _ _ := None;
  WebSocketConfig := Empty_set; websocket_matches _ _ := false;
  OPENAPI_JSON := lit "{}"; OPENAPI_YAML := [];
}.

Definition demo_env : Env :=
  {| env_elapsed k := N.of_nat (Nat.min k 1000); env_now k := N.of_nat k; env_shutdown _ := false;
     env_read_expires _ _ := false; env_write _ _ := None; env_recv_expires _ _ := false;
     env_join _ := true; env_oversized _ := false |}.

Definition no_delete : RequestGate :=
  {| gate_name := lit "no-delete";
     check head _ ext := (if str_eqb (method head) (lit "DELETE") then gate_reject 403 [] else Allow, ext) |}.

Definition demo_stream : StreamingResponse :=
  {| s_status := 200; s_content_type := Some (lit "text/plain");
     s_rx := [StreamChunk (lit "aaaaaaaa"); StreamChunk []; StreamChunk (lit "b"); StreamEnd] |}.

Definition demo_handler : Handler :=
  {| handle _ _ := response_new 200 (lit "hi");
     handle_streaming head _ := if str_eqb (target head) (lit "/s") then Some demo_stream else None |}.

Definition demo_server : Server :=
  set_handler demo_handler (add_gate no_delete (add_middleware (lit "log") server_new)).

Definition demo_pipeline : bytes :=
  lit "GET /a HTTP/1.1" ++ CRLF ++ CRLF ++ lit "DELETE /b HTTP/1.1" ++ CRLF ++ CRLF
  ++ lit "GET /s HTTP/1.1" ++ CRLF ++ lit "Connection: close" ++ CRLF ++ CRLF.

Definition demo_pieces : Reader := [RData (take 7 demo_pipeline); RData (drop 7 demo_pipeline)].

Lemma demo_served :
  c_out <$> handle_connection_with_permit demo_env demo_server demo_pieces None
  = Some (lit "HTTP/1.1 200 OK" ++ CRLF ++ lit "Content-Length: 2" ++ CRLF ++ CRLF ++ lit "hi"
      ++ lit "HTTP/1.1 403 Forbidden" ++ CRLF ++ lit "Content-Length: 0" ++ CRLF ++ CRLF
      ++ lit "HTTP/1.1 200 OK" ++ CRLF ++ lit "Content-Type: text/plain" ++ CRLF
      ++ lit "Transfer-Encoding: chunked" ++ CRLF ++ lit "Connection: close" ++ CRLF ++ CRLF
      ++ lit "8" ++ CRLF ++ lit "aaaaaaaa" ++ CRLF ++ lit "1" ++ CRLF ++ lit "b" ++ CRLF
      ++ lit "0" ++ CRLF ++ CRLF).
Proof. by vm_compute. Qed.

Lemma demo_pieces_ok : reader_ok demo_pieces.
Proof. repeat constructor; eexists; (split; [reflexivity|by vm_compute]). Qed.

Lemma gates_before_application_witness :
  ∃ c, handle_connection_with_permit demo_env demo_server demo_pieces None = Some c
    ∧ ∀ t1 ev t2 h, c_trace c = t1 ++ ev :: t2 → behind_gates ev = Some h →
      ∃ pre suffix, demo_pipeline = pre ++ suffix
        ∧ admitted_by_gates demo_server {| peer_addr := None |} suffix t1 h.
Proof. exact (gates_before_application demo_env demo_server demo_pieces None demo_pieces_ok). Defined.

Lemma response_stream_sound_witness :
  ∃ c ws w, handle_connection_with_permit demo_env demo_server demo_pieces None = Some c
    ∧ c_out c = concat ws ++ w ∧ Forall persistent ws ∧ last_words w ∧ (len ws < 1000)%N.
Proof. exact (response_stream_sound demo_env demo_server demo_pieces None demo_pieces_ok). Defined.
