(* ===== verification/ServerCalm.v ===== *)
(** * What a connection serves does not depend on timing or on how its bytes arrive

    In a calm environment, where nothing expires, no write fails, the lifetime is not used up
    and no shutdown comes, two runs of a connection whose readers deliver the same bytes, in
    pieces of any sizes, write the same bytes and make the same calls.  The proof relates the
    two runs effect by effect. *)

From S2P Require Import Prelude Text Utf8 Radix Extensions Request RequestSpec Chunked ChunkedSpec.
From S2P Require Import Body RecvBuffer Connection Response Gate Cors Compression ServerConfig Server ServerSpec.

Record calm (env : Env) (lifetime : Duration) : Prop := {
  calm_elapsed k : (env_elapsed env k < lifetime)%N;
  calm_shutdown k : env_shutdown env k = false;
  calm_read k d : env_read_expires env k d = false;
  calm_write k t : env_write env k t = None;
  calm_recv k t : env_recv_expires env k t = false;
  calm_join k : env_join env k = true;
}.

Section calm.
Context {AT : AnyTypes} {MM : Memmem} `{GzEncoder} {PP : PathPlugins}.

(** An upgraded session gets the bytes already read and the stream: together they are the rest
    of the connection. *)
Definition same_event (e1 e2 : Event) : Prop :=
  match e1, e2 with
  | EvUpgrade h1 l1 s1, EvUpgrade h2 l2 s2 => h1 = h2 ∧ l1 ++ stream s1 = l2 ++ stream s2
  | _, _ => e1 = e2
  end.

Lemma same_event_refl e : same_event e e.
Proof. by destruct e. Qed.

Lemma same_events_refl l : Forall2 same_event l l.
Proof. induction l; constructor; auto using same_event_refl. Qed.

Definition related (c1 c2 : Conn) : Prop :=
  pending (c_buf c1) (c_reader c1) = pending (c_buf c2) (c_reader c2)
  ∧ c_out c1 = c_out c2 ∧ Forall2 same_event (c_trace c1) (c_trace c2).

Definition same_io (c c' : Conn) : Prop := c_buf c' = c_buf c ∧ c_reader c' = c_reader c.

(** [m1] and [m2] take related states to related states, with results in [S], and do not read. *)
Definition sim {A} (S : A → A → Prop) (m1 m2 : M A) : Prop := ∀ c1 c2,
  related c1 c2 →
  ∃ x1 x2 c1' c2', m1 c1 = Some (x1, c1') ∧ m2 c2 = Some (x2, c2')
    ∧ S x1 x2 ∧ related c1' c2' ∧ same_io c1 c1' ∧ same_io c2 c2'.

Lemma sim_ret {A} (S : A → A → Prop) x1 x2 : S x1 x2 → sim S (mret x1) (mret x2).
Proof. intros HS c1 c2 HR. by exists x1, x2, c1, c2. Qed.

Lemma sim_bind {A B} (S1 : A → A → Prop) (S : B → B → Prop) m1 m2 k1 k2 :
  sim S1 m1 m2 → (∀ x1 x2, S1 x1 x2 → sim S (k1 x1) (k2 x2)) → sim S (m1 ≫= k1) (m2 ≫= k2).
Proof.
  intros Hm Hk c1 c2 HR. destruct (Hm c1 c2 HR) as (x1 & x2 & d1 & d2 & E1 & E2 & HS & HR' & [F1 F2] & [F3 F4]).
  destruct (Hk x1 x2 HS d1 d2 HR') as (y1 & y2 & e1 & e2 & G1 & G2 & HS' & HR'' & [G3 G4] & [G5 G6]).
  exists y1, y2, e1, e2. unfold mbind, M_bind. rewrite E1, E2. unfold same_io.
  rewrite G3, G4, G5, G6, F1, F2, F3, F4. by split_and!.
Qed.

Lemma sim_observe {A} (S : A → A → Prop) (f1 f2 : nat → A) :
  (∀ k1 k2, S (f1 k1) (f2 k2)) → sim S (observe f1) (observe f2).
Proof. intros HS c1 c2 HR. eexists _, _, _, _. by split_and!. Qed.

Lemma sim_put_send b1 b2 : sim (λ _ _, True) (put_send b1) (put_send b2).
Proof. intros c1 c2 HR. eexists _, _, _, _. by split_and!. Qed.

Lemma sim_put_out b : sim eq (put_out b) (put_out b).
Proof.
  intros c1 c2 (Hp & Ho & Ht). eexists _, _, _, _. split_and!; try done.
  split_and!; try done. cbn. by rewrite Ho.
Qed.

Lemma sim_emit evs1 evs2 : Forall2 same_event evs1 evs2 → sim eq (emit evs1) (emit evs2).
Proof.
  intros He c1 c2 (Hp & Ho & Ht). eexists _, _, _, _. split_and!; try done.
  split_and!; try done. cbn. by apply Forall2_app.
Qed.

Lemma sim_emit_same evs : sim eq (emit evs) (emit evs).
Proof. apply sim_emit, same_events_refl. Qed.

Lemma sim_eq_bind {A B} (S : B → B → Prop) (m1 m2 : M A) k1 k2 :
  sim eq m1 m2 → (∀ x, sim S (k1 x) (k2 x)) → sim S (m1 ≫= k1) (m2 ≫= k2).
Proof. intros Hm Hk. apply (sim_bind eq); [done|]. intros x _ <-. apply Hk. Qed.

(** Both return [v]. *)
Definition both {A} (v : A) (x1 x2 : A) : Prop := x1 = v ∧ x2 = v.

Lemma sim_both_bind {A B} (v : A) (S : B → B → Prop) m1 m2 k1 k2 :
  sim (both v) m1 m2 → sim S (k1 v) (k2 v) → sim S (m1 ≫= k1) (m2 ≫= k2).
Proof. intros Hm Hk. apply (sim_bind (both v)); [done|]. by intros _ _ [-> ->]. Qed.

Lemma sim_any_bind {A B} (S : B → B → Prop) (m1 m2 : M A) k1 k2 :
  sim (λ _ _, True) m1 m2 → (∀ x1 x2, sim S (k1 x1) (k2 x2)) → sim S (m1 ≫= k1) (m2 ≫= k2).
Proof. intros Hm Hk. apply (sim_bind (λ _ _, True)); [done|]. intros x1 x2 _. apply Hk. Qed.

Context (server : Server) (env1 env2 : Env).
Context (Hc1 : calm env1 (max_connection_lifetime server)) (Hc2 : calm env2 (max_connection_lifetime server)).

Lemma sim_write_all data t1 t2 : sim (both true) (write_all env1 data t1) (write_all env2 data t2).
Proof.
  unfold write_all. apply (sim_both_bind None).
  { apply sim_observe. intros k1 k2. split; by eapply calm_write. }
  apply sim_eq_bind; [apply sim_put_out|]. intros []. by apply sim_ret.
Qed.

Lemma sim_io_timeout : sim (λ _ _, True) (io_timeout env1 server) (io_timeout env2 server).
Proof.
  unfold io_timeout, elapsed. apply sim_any_bind; [by apply sim_observe|]. intros e1 e2. by apply sim_ret.
Qed.

Lemma sim_timed_write data : sim (both true) (timed_write env1 server data) (timed_write env2 server data).
Proof. apply sim_any_bind; [apply sim_io_timeout|]. intros t1 t2. apply sim_write_all. Qed.

Lemma sim_recv_expired : sim (both false) (recv_expired env1 server) (recv_expired env2 server).
Proof.
  apply sim_any_bind; [apply sim_io_timeout|]. intros t1 t2. apply sim_observe. intros k1 k2.
  split; by eapply calm_recv.
Qed.

Lemma sim_load_shutdown : sim (both false) (load_shutdown env1) (load_shutdown env2).
Proof. apply sim_observe. intros k1 k2. split; by eapply calm_shutdown. Qed.

Lemma sim_elapsed :
  sim (λ e1 e2, (e1 < max_connection_lifetime server)%N ∧ (e2 < max_connection_lifetime server)%N)
    (elapsed env1) (elapsed env2).
Proof. apply sim_observe. intros k1 k2. split; by eapply calm_elapsed. Qed.

Lemma sim_still_alive ka : sim (both ka) (still_alive env1 server ka) (still_alive env2 server ka).
Proof.
  unfold still_alive. destruct ka; [|by apply sim_ret].
  apply (sim_bind _ _ _ _ _ _ sim_elapsed). intros e1 e2 [->%N.ltb_lt ->%N.ltb_lt].
  apply (sim_both_bind false); [apply sim_load_shutdown|]. by apply sim_ret.
Qed.

(** ** Streaming *)

Lemma sim_stream_http10 st rx :
  sim eq (stream_http10 env1 server st rx) (stream_http10 env2 server st rx).
Proof.
  induction rx as [|[d|] rx IH]; cbn [stream_http10];
    (apply (sim_both_bind false); [apply sim_recv_expired|]); [by apply sim_ret| |by apply sim_ret].
  case_bool_decide; [exact IH|]. apply (sim_both_bind true); [apply sim_timed_write|]. exact IH.
Qed.

Lemma sim_stream_chunked ka st enc rx :
  sim eq (stream_chunked env1 server ka st enc rx) (stream_chunked env2 server ka st enc rx).
Proof.
  revert enc. induction rx as [|[d|] rx IH]; intros enc; cbn [stream_chunked];
    (apply (sim_both_bind false); [apply sim_recv_expired|]); [by apply sim_ret| |].
  - destruct (transform d enc) as [[d' enc']|]; [|by apply sim_ret]. case_bool_decide; [exact (IH enc')|].
    apply (sim_both_bind true); [apply sim_timed_write|]. exact (IH enc').
  - destruct (finish enc); [|by apply sim_ret].
    apply (sim_both_bind true); [apply sim_timed_write|]. cbn [negb].
    apply (sim_both_bind ka); [apply sim_still_alive|]. by apply sim_ret.
Qed.

Lemma sim_write_streaming s head ka :
  sim eq (write_streaming_response env1 server s head ka) (write_streaming_response env2 server s head ka).
Proof.
  unfold write_streaming_response. destruct (version head).
  - apply (sim_both_bind true); [apply sim_timed_write|]. cbn [negb].
    destruct (is_bodyless_status _); [by apply sim_ret|apply sim_stream_http10].
  - apply (sim_both_bind ka); [apply sim_still_alive|].
    destruct (prepare_streaming_compression _ _ _) as [hd enc].
    apply (sim_both_bind true); [apply sim_timed_write|]. cbn [negb].
    destruct (is_bodyless_status _); [|apply sim_stream_chunked].
    apply (sim_both_bind ka); [apply sim_still_alive|]. by apply sim_ret.
Qed.

(** ** One request *)

Lemma sim_finalize head r :
  sim eq (finalize_response env1 server head r) (finalize_response env2 server head r).
Proof.
  unfold finalize_response. destruct (compression_config server); [|by apply sim_ret].
  destruct (plan_compression _ _ _); [by apply sim_ret|]. destruct (_ <=? _)%N; [|by apply sim_ret].
  apply (sim_both_bind true); [|by apply sim_ret]. apply sim_observe. intros k1 k2. split; by eapply calm_join.
Qed.

Lemma sim_first_rejection gs head ctx ext :
  sim eq (first_rejection gs head ctx ext) (first_rejection gs head ctx ext).
Proof.
  revert ext. induction gs as [|g gs IH]; intros ext; cbn [first_rejection]; [by apply sim_ret|].
  apply sim_eq_bind; [apply sim_emit_same|]. intros []. destruct (check g head ctx ext) as [[|r] ext'];
    [apply IH|by apply sim_ret].
Qed.

Lemma sim_observers (f : bytes → Event) : sim eq (observers server f) (observers server f).
Proof. apply sim_emit_same. Qed.

Lemma sim_send_response head r ka :
  sim eq (send_response env1 server head r ka) (send_response env2 server head r ka).
Proof.
  unfold send_response, serialize_response. apply (sim_both_bind (serialize ka r)).
  { apply sim_any_bind; [apply sim_put_send|]. intros _ _. by apply sim_ret. }
  apply (sim_both_bind true); [apply sim_write_all|]. cbn [negb].
  apply sim_any_bind.
  { unfold shrink_send_if_oversized. apply sim_any_bind; [by apply sim_observe|].
    intros [|] [|]; try apply sim_put_send; try by apply sim_ret.
    - intros c1 c2 HR. eexists _, _, _, _. by split_and!.
    - intros c1 c2 HR. eexists _, _, _, _. by split_and!. }
  intros _ _. apply sim_eq_bind; [apply sim_observers|]. intros []. by apply sim_ret.
Qed.

Lemma sim_last_response r :
  sim eq (write_all env1 (serialize false r) None ;; mret Return) (write_all env2 (serialize false r) None ;; mret Return).
Proof. apply (sim_both_bind true); [apply sim_write_all|]. by apply sim_ret. Qed.

Lemma sim_upgrade head :
  sim eq
    (leftover ← get (λ c, unread (c_buf c));
     stream ← get c_reader;
     upgraded ← try_handle_upgrade server stream head leftover;
     if upgraded : bool then mret Return
     else write_all env1 (serialize false (response_empty 501)) None ;; mret Return)
    (leftover ← get (λ c, unread (c_buf c));
     stream ← get c_reader;
     upgraded ← try_handle_upgrade server stream head leftover;
     if upgraded : bool then mret Return
     else write_all env2 (serialize false (response_empty 501)) None ;; mret Return).
Proof.
  intros c1 c2 HR. destruct (List.find (websocket_matches head) (websocket_configs server)) eqn:E.
  - unfold try_handle_upgrade. rewrite E. eexists _, _, _, _.
    split; [reflexivity|]. split; [reflexivity|]. destruct HR as (Hp & Ho & Ht). split_and!; try done.
    split_and!; try done. cbn. apply Forall2_app; [done|]. by repeat constructor.
  - unfold try_handle_upgrade. rewrite E. exact (sim_last_response (response_empty 501) c1 c2 HR).
Qed.

Lemma sim_serve_admitted head body ka :
  sim eq (serve_admitted env1 server head body ka) (serve_admitted env2 server head body ka).
Proof.
  unfold serve_admitted. destruct (existsb _ _).
  { apply (sim_both_bind false); [apply sim_load_shutdown|]. apply sim_upgrade. }
  apply sim_eq_bind; [apply sim_emit_same|]. intros [].
  set (intercepted := match list_find _ _ with Some _ => _ | None => _ end). cbv zeta.
  destruct (match intercepted with Some _ => None | None => _ end) as [s|].
  - apply sim_eq_bind; [apply sim_emit_same|]. intros []. apply sim_eq_bind; [apply sim_write_streaming|].
    intros [sc|]; [|by apply sim_ret]. apply sim_eq_bind; [apply sim_observers|]. intros []. by apply sim_ret.
  - apply sim_eq_bind.
    { destruct intercepted; [by apply sim_ret|]. destruct (handler server); [|by apply sim_ret].
      apply sim_eq_bind; [apply sim_emit_same|]. intros []. by apply sim_ret. }
    intros r. apply sim_eq_bind; [apply sim_finalize|]. intros r'.
    apply (sim_both_bind ka); [apply sim_still_alive|]. apply sim_send_response.
Qed.

Lemma sim_serve_request ctx served req :
  extensions (Connection.head req) = ext_new →
  sim eq (serve_request env1 server ctx served req) (serve_request env2 server ctx served req).
Proof.
  intros Hext. unfold serve_request. apply sim_eq_bind; [apply sim_observers|]. intros [].
  eapply sim_both_bind; [apply sim_still_alive|]. rewrite Hext. change (ext_is_empty ext_new) with true.
  cbn [negb]. apply sim_eq_bind; [apply sim_first_rejection|].
  intros [[r|] ext]; [apply sim_send_response|apply sim_serve_admitted].
Qed.

(** ** Turns and the loop *)

(** What a turn does with the result of the read. *)
Definition after_read (env : Env) (ctx : GateContext) (served : N)
    (r : result (option HttpRequest) RequestError) : M Flow :=
  match r with
  | Err err =>
      match request_error_response err with
      | Some response => write_all env (serialize false response) None ;; mret Return
      | None => mret Return
      end
  | Ok None => mret Return
  | Ok (Some request) => serve_request env server ctx (served + 1) request
  end.

Definition set_io (buf : RecvBuffer) (reader : Reader) (c : Conn) : Conn :=
  {| c_tick := S (S (S (c_tick c))); c_reader := reader; c_buf := buf; c_send := c_send c;
     c_out := c_out c; c_trace := c_trace c |}.

Lemma serve_one_calm env ctx served c r buf reader :
  calm env (max_connection_lifetime server) →
  read_request_with_limit (srv_max_body_bytes server) (c_buf c) (c_reader c) = Some (r, buf, reader) →
  serve_one env server ctx served c = after_read env ctx served r (set_io buf reader c).
Proof.
  intros Hc Hread. unfold serve_one, elapsed, timed_read, read_request_io, observe, mbind, M_bind, fmap, M_fmap.
  rewrite (proj2 (N.leb_gt _ _)) by (apply Hc). cbn [c_tick c_buf c_reader].
  rewrite (calm_read _ _ Hc). unfold mbind, M_bind. cbn [c_tick c_buf c_reader]. rewrite Hread.
  by destruct r as [[]|].
Qed.

(** The parts of the state that the outside sees. *)
Definition seen_same (c1 c2 : Conn) : Prop :=
  c_out c1 = c_out c2 ∧ Forall2 same_event (c_trace c1) (c_trace c2).

Lemma sim_serve_one ctx served c1 c2 :
  conn_ok (c_buf c1) (c_reader c1) → conn_ok (c_buf c2) (c_reader c2) → related c1 c2 →
  ∃ flow c1' c2', serve_one env1 server ctx served c1 = Some (flow, c1')
    ∧ serve_one env2 server ctx served c2 = Some (flow, c2')
    ∧ seen_same c1' c2' ∧ (flow = Continue → related c1' c2').
Proof.
  intros Hok1 Hok2 (Hp & Ho & Ht).
  destruct (read_request_spec (srv_max_body_bytes server) _ _ Hok1) as (r1 & buf1 & reader1 & Hr1 & Hs1).
  destruct (read_request_spec (srv_max_body_bytes server) _ _ Hok2) as (r2 & buf2 & reader2 & Hr2 & Hs2).
  rewrite (serve_one_calm _ _ _ _ _ _ _ Hc1 Hr1), (serve_one_calm _ _ _ _ _ _ _ Hc2 Hr2).
  rewrite Hp in Hs1. destruct (request_of _ _) as [[[req n]|]|e] eqn:Eq.
  - destruct Hs1 as (-> & _ & Hp1 & _), Hs2 as (-> & _ & Hp2 & _). cbn [after_read].
    destruct (sim_serve_request ctx (served + 1) req (proj1 (request_of_head _ _ _ _ Eq))
      (set_io buf1 reader1 c1) (set_io buf2 reader2 c2)) as (f & _ & c1' & c2' & -> & -> & <- & HR & _);
      [split_and!; cbn; congruence|].
    exists f, c1', c2'. split_and!; try done. by destruct HR as (_ & ? & ?).
  - subst r1 r2. exists Return, (set_io buf1 reader1 c1), (set_io buf2 reader2 c2). by split_and!.
  - subst r1 r2. cbn [after_read]. destruct (request_error_response e) as [response|].
    + eexists Return, _, _. unfold write_all, observe, mbind, M_bind, put_out.
      rewrite (calm_write _ _ Hc1), (calm_write _ _ Hc2). split; [reflexivity|]. split; [reflexivity|].
      split; [|done]. split; [|done]. cbn. by rewrite Ho.
    + exists Return, (set_io buf1 reader1 c1), (set_io buf2 reader2 c2). by split_and!.
Qed.

Lemma sim_connection_loop ctx fuel served c1 c2 :
  conn_ok (c_buf c1) (c_reader c1) → conn_ok (c_buf c2) (c_reader c2) → related c1 c2 →
  length (pending (c_buf c1) (c_reader c1)) < fuel →
  ∃ c1' c2', connection_loop env1 server fuel ctx served c1 = Some (tt, c1')
    ∧ connection_loop env2 server fuel ctx served c2 = Some (tt, c2') ∧ seen_same c1' c2'.
Proof.
  revert served c1 c2. induction fuel as [|fuel IH]; intros served c1 c2 Hok1 Hok2 HR Hf; [lia|].
  destruct (sim_serve_one ctx served c1 c2 Hok1 Hok2 HR) as (flow & d1 & d2 & E1 & E2 & Hseen & Hcont).
  destruct (serve_one_turn env1 server ctx served c1 Hok1) as (f1 & d1' & w1 & v1 & E1' & _ & _ & H1).
  destruct (serve_one_turn env2 server ctx served c2 Hok2) as (f2 & d2' & w2 & v2 & E2' & _ & _ & H2).
  rewrite E1 in E1'. rewrite E2 in E2'. injection E1' as <- <-. injection E2' as <- <-.
  cbn [connection_loop]. unfold mbind, M_bind. rewrite E1, E2.
  destruct flow; [|by exists d1, d2].
  destruct H1 as [(? & _)|(req & n & Hreq & _ & _ & _ & Hd1 & Hp1)]; [done|].
  destruct H2 as [(? & _)|(req2 & n2 & _ & _ & _ & _ & Hd2 & _)]; [done|].
  apply IH; auto. rewrite Hp1, length_drop. pose proof (proj2 (request_of_head _ _ _ _ Hreq)).
  destruct (pending (c_buf c1) (c_reader c1)); [discriminate Hreq|cbn [length] in *; lia].
Qed.

End calm.

Section claim.
Context {AT : AnyTypes} {MM : Memmem} `{GzEncoder} {PP : PathPlugins}.

(** in calm environments a connection is a function of its bytes.  Whatever the clocks show
    and however the transport cuts the bytes into reads, the server writes the same bytes and
    makes the same calls, and an upgraded session is given the same rest of the stream. *)
Theorem connection_determined server env1 env2 reader1 reader2 peer :
  calm env1 (max_connection_lifetime server) → calm env2 (max_connection_lifetime server) →
  reader_ok reader1 → reader_ok reader2 → stream reader1 = stream reader2 →
  ∃ c1 c2, handle_connection_with_permit env1 server reader1 peer = Some c1
    ∧ handle_connection_with_permit env2 server reader2 peer = Some c2
    ∧ c_out c1 = c_out c2 ∧ Forall2 same_event (c_trace c1) (c_trace c2).
Proof.
  intros Hc1 Hc2 Hr1 Hr2 Es. unfold handle_connection_with_permit.
  replace (conn_fuel reader2) with (conn_fuel reader1) by (unfold conn_fuel; by rewrite Es).
  destruct (sim_connection_loop server env1 env2 Hc1 Hc2 {| peer_addr := peer |} (conn_fuel reader1) 0
    (conn_new reader1) (conn_new reader2)) as (c1 & c2 & -> & -> & Ho & Ht).
  - by apply rb_new_conn_ok.
  - by apply rb_new_conn_ok.
  - by split_and!.
  - cbn. unfold conn_fuel. lia.
  - by exists c1, c2.
Qed.

End claim.

(** The demo connection, cut elsewhere and under other clocks. *)

#[local] Existing Instance demo_types.
#[local] Existing Instance naive_memmem.

Definition demo_bytewise : Reader := (λ b, RData [b]) <$> demo_pipeline.

Definition slow_env : Env :=
  {| env_elapsed _ := from_secs 299; env_now _ := 0%N; env_shutdown _ := false;
     env_read_expires _ _ := false; env_write _ _ := None; env_recv_expires _ _ := false;
     env_join _ := true; env_oversized _ := true |}.

Lemma connection_determined_witness :
  ∃ c1 c2, handle_connection_with_permit demo_env demo_server demo_pieces None = Some c1
    ∧ handle_connection_with_permit slow_env demo_server demo_bytewise None = Some c2
    ∧ c_out c1 = c_out c2 ∧ Forall2 same_event (c_trace c1) (c_trace c2).
Proof.
  apply (connection_determined demo_server demo_env slow_env demo_pieces demo_bytewise None).
  - constructor; try done. intros k. cbn [env_elapsed demo_env].
    change (max_connection_lifetime demo_server) with 300000000000%N. lia.
  - by constructor.
  - apply demo_pieces_ok.
  - apply Forall_fmap, Forall_forall. intros b _. exists [b]. done.
  - by vm_compute.
Defined.
