(* ===== verification/ServerDrain.v ===== *)
(** * The drain contract of a connection

    Once the shutdown flag is raised, a connection serves at most the request it is reading or
    waiting for: the loop ends after this turn, the answer announces the end of the connection,
    and a request for an upgrade is refused. *)

From S2P Require Import Prelude Text Utf8 Radix Extensions Request RequestSpec Chunked ChunkedSpec.
From S2P Require Import Body RecvBuffer Connection Response Gate Cors Compression ServerConfig Server ServerSpec.

(** ** Effects after an observation *)

Section logic.
Context {AT : AnyTypes} {PP : PathPlugins}.

(** Observations are numbered in the order in which they are made. *)
Definition mono {A} (m : M A) : Prop := ∀ c x c', m c = Some (x, c') → c_tick c ≤ c_tick c'.

Lemma mono_ret {A} (x : A) : mono (mret x).
Proof. intros c y c' [= _ <-]. done. Qed.

Lemma mono_bind {A B} (m : M A) (k : A → M B) : mono m → (∀ x, mono (k x)) → mono (m ≫= k).
Proof.
  intros H1 H2 c y c' E. unfold mbind, M_bind in E. destruct (m c) as [[x c1]|] eqn:E1; [|done].
  apply H1 in E1. apply H2 in E. lia.
Qed.

Lemma mono_observe {A} (f : nat → A) : mono (observe f).
Proof. intros c x c' [= _ <-]. cbn. lia. Qed.

Lemma mono_get {A} (f : Conn → A) : mono (get f).
Proof. intros c x c' [= _ <-]. done. Qed.

Lemma mono_emit evs : mono (emit evs).
Proof. intros c x c' [= _ <-]. done. Qed.

(** [does] for the runs that begin after the first [k0] observations. *)
Definition does_from {A} (k0 : nat) (m : M A) (Q : A → bytes → list Event → Prop) : Prop :=
  ∀ c, k0 ≤ c_tick c → ∃ x c' w evs, m c = Some (x, c') ∧ frame c c' w evs ∧ Q x w evs.

Lemma from_does {A} k0 (m : M A) Q : does m Q → does_from k0 m Q.
Proof. intros H c _. apply H. Qed.

Lemma from_weaken {A} k0 (m : M A) (Q Q' : A → bytes → list Event → Prop) :
  does_from k0 m Q → (∀ x w evs, Q x w evs → Q' x w evs) → does_from k0 m Q'.
Proof. intros H HQ c Hc. destruct (H c Hc) as (x & c' & w & evs & E & F & Hx). exists x, c', w, evs. auto. Qed.

Lemma from_bind {A B} k0 (m : M A) (k : A → M B) Q1 (Q : B → bytes → list Event → Prop) :
  mono m → does_from k0 m Q1 →
  (∀ x w evs, Q1 x w evs → does_from k0 (k x) (λ y w' evs', Q y (w ++ w') (evs ++ evs'))) →
  does_from k0 (m ≫= k) Q.
Proof.
  intros Hm H1 H2 c Hc. destruct (H1 c Hc) as (x & c1 & w1 & e1 & E1 & (F1 & F2 & F3 & F4) & HQ1).
  apply Hm in E1 as Ht. assert (k0 ≤ c_tick c1) as Hc1 by lia.
  destruct (H2 x w1 e1 HQ1 c1 Hc1) as (y & c2 & w2 & e2 & E2 & (G1 & G2 & G3 & G4) & HQ2).
  exists y, c2, (w1 ++ w2), (e1 ++ e2). unfold mbind, M_bind. rewrite E1. split; [done|].
  split; [|done]. unfold frame. by rewrite G1, G2, G3, G4, F1, F2, F3, F4, !(assoc_L (++)).
Qed.

End logic.

Create HintDb mono.
#[export] Hint Resolve mono_ret mono_observe mono_get mono_emit : mono.
#[export] Hint Extern 2 (mono (_ ≫= _)) => apply mono_bind; [|intros ?] : mono.

Section drain.
Context {AT : AnyTypes} {MM : Memmem} `{GzEncoder} {PP : PathPlugins}.
Context (env : Env) (server : Server) (k0 : nat).
Hypothesis stopping : ∀ k, k0 ≤ k → env_shutdown env k = true.

Lemma mono_still_alive ka : mono (still_alive env server ka).
Proof.
  unfold still_alive, elapsed, load_shutdown. destruct ka; [|auto with mono].
  apply mono_bind; [auto with mono|]. intros e. destruct (_ <? _)%N; auto with mono.
Qed.

Lemma mono_first_rejection gs head ctx ext : mono (first_rejection gs head ctx ext).
Proof.
  revert ext. induction gs as [|g gs IH]; intros ext; cbn [first_rejection]; [auto with mono|].
  apply mono_bind; [auto with mono|]. intros []. destruct (check g head ctx ext) as [[|r] e]; [auto|auto with mono].
Qed.

Lemma from_load_shutdown : does_from k0 (load_shutdown env) (λ b w evs, b = true ∧ w = [] ∧ evs = []).
Proof.
  intros c Hc. destruct (silent_observe (env_shutdown env) c) as (b & c' & w & evs & E & F & Hw).
  exists b, c', w, evs. split; [done|]. split; [done|]. split; [|done].
  unfold observe in E. injection E as <- _. by apply stopping.
Qed.

(** No response keeps the connection alive. *)
Lemma from_still_alive ka :
  does_from k0 (still_alive env server ka) (λ b w evs, b = false ∧ w = [] ∧ evs = []).
Proof.
  unfold still_alive. destruct ka; [|by apply from_does, does_ret].
  apply (from_bind _ _ _ (λ _ w evs, w = [] ∧ evs = [])); [apply mono_observe|apply from_does, silent_observe|].
  intros e w evs [-> ->]. destruct (_ <? _)%N; [|by apply from_does, does_ret].
  apply (from_bind _ _ _ _ _ (mono_observe _) from_load_shutdown). intros b w evs (-> & -> & ->).
  by apply from_does, does_ret.
Qed.

(** What happens to a request that the gates let pass: an upgrade is refused with 503. *)
Definition refused (head : RequestHead) (w : bytes) (evs : list Event) : Prop :=
  existsb (λ h, upgrade_matches h head) (upgrade_handlers server) = true →
  evs = [] ∧ ∃ z, w ++ z = serialize false (response_empty 503).

Lemma from_serve_admitted head body :
  does_from k0 (serve_admitted env server head body false) (λ flow w evs,
    flow = Return ∧ closing_words w ∧ Forall (admitted_event head body) evs ∧ refused head w evs).
Proof.
  destruct (existsb (λ h, upgrade_matches h head) (upgrade_handlers server)) eqn:Eu.
  - unfold serve_admitted. rewrite Eu.
    apply (from_bind _ _ _ _ _ (mono_observe _) from_load_shutdown). intros b w evs (-> & -> & ->).
    apply from_does. apply (does_bind _ _ _ _ (does_write_all env _ _)). intros ok w evs [-> Hw].
    apply does_ret. cbn [app]. rewrite app_nil_r.
    assert (∃ z, w ++ z = serialize false (response_empty 503)) as [z E].
    { destruct ok; [exists []; by rewrite app_nil_r, Hw|]. destruct Hw as (n & _ & ->).
      exists (drop n (serialize false (response_empty 503))). apply take_drop. }
    split_and!; [done|by eapply closing_words_serialize|done|]. intros _. split; [done|]. by exists z.
  - apply (from_weaken _ _ _ _ (from_does _ _ _ (does_serve_admitted env server head body false))).
    intros flow w evs (_ & Hf & Hev). destruct (Hf eq_refl) as [-> ?]. split_and!; [done..|].
    unfold refused. by rewrite Eu.
Qed.

Definition upgrade_refused (ctx : GateContext) (req : HttpRequest) (w : bytes) (evs : list Event) : Prop :=
  ∀ ext, gates_run (gates server) (Connection.head req) ctx ext_new = (None, ext) →
  existsb (λ h, upgrade_matches h (admitted_head ext (Connection.head req))) (upgrade_handlers server) = true →
  (∃ z, w ++ z = serialize false (response_empty 503)) ∧ ∀ h l s, EvUpgrade h l s ∉ evs.

Lemma from_serve_request ctx served req :
  extensions (Connection.head req) = ext_new →
  does_from k0 (serve_request env server ctx served req) (λ flow w evs,
    flow = Return ∧ closing_words w ∧ request_trace server ctx req evs ∧ upgrade_refused ctx req w evs).
Proof.
  intros Hext. unfold serve_request, upgrade_refused. set (h := Connection.head req) in *.
  apply (from_bind _ _ _ _ _ (mono_emit _) (from_does _ _ _ (does_observers server _))).
  intros [] w evs [-> ->].
  apply (from_bind _ _ _ _ _ (mono_still_alive _) (from_still_alive _)). intros ka w evs (-> & -> & ->).
  rewrite Hext. change (ext_is_empty ext_new) with true. cbn [negb].
  apply (from_bind _ _ _ _ _ (mono_first_rejection _ _ _ _)
    (from_does _ _ _ (does_first_rejection (gates server) h ctx ext_new))).
  intros [r ext] w evs (-> & Hr & k & -> & Hk). destruct r as [r|].
  - apply (from_weaken _ _ _ _ (from_does _ _ _ (does_send_response env server h r false))).
    intros flow w evs (_ & Hf & Hev). destruct (Hf eq_refl) as [-> ?]. cbn [app]. split_and!; [done..| |].
    + by eapply trace_rejected.
    + intros ext' E. congruence.
  - apply (from_weaken _ _ _ _ (from_serve_admitted (admitted_head ext h) (Connection.body req))).
    intros flow w evs (-> & Hc & Hev & Href). cbn [app]. split_and!; [done..| |].
    + rewrite (Hk eq_refl), firstn_all. by eapply trace_admitted.
    + intros ext' E. rewrite <- Hr in E. injection E as <-. intros Hu.
      destruct (Href Hu) as [-> Hz]. split; [done|]. intros h' l s. rewrite app_nil_r, elem_of_app.
      intros [(? & ? & _)%list_elem_of_fmap|(? & ? & _)%list_elem_of_fmap]; done.
Qed.

(** The last turn of a connection that drains. *)
Definition last_turn (ctx : GateContext) (c c' : Conn) : Prop :=
  let input := pending (c_buf c) (c_reader c) in
  ∃ w evs, c_out c' = c_out c ++ w ∧ c_trace c' = c_trace c ++ evs ∧ closing_words w
    ∧ (evs = [] ∨ ∃ req n, request_of (srv_max_body_bytes server) input = Ok (Some (req, n))
         ∧ request_trace server ctx req evs ∧ upgrade_refused ctx req w evs).

Lemma last_turn_stop ctx c c1 (m : M Flow) :
  c_out c1 = c_out c → c_trace c1 = c_trace c →
  does m (λ flow w evs, closing_words w ∧ flow = Return ∧ evs = []) →
  ∃ c', m c1 = Some (Return, c') ∧ last_turn ctx c c'.
Proof.
  intros Ho Ht Hm. destruct (Hm c1) as (flow & c' & w & evs & E & (_ & _ & Fo & Ft) & Hw & -> & ->).
  exists c'. split; [done|]. rewrite Ho in Fo. rewrite Ht in Ft. exists w, []. auto.
Qed.

Lemma drain_after_read ctx served c c1 r buf reader :
  conn_ok (c_buf c) (c_reader c) →
  read_request_with_limit (srv_max_body_bytes server) (c_buf c) (c_reader c) = Some (r, buf, reader) →
  c_out c1 = c_out c → c_trace c1 = c_trace c → k0 ≤ c_tick c1 →
  ∃ c', match r with
    | Err err =>
        match request_error_response err with
        | Some response => write_all env (serialize false response) None ;; mret Return
        | None => mret Return
        end
    | Ok None => mret Return
    | Ok (Some request) => serve_request env server ctx (served + 1) request
    end c1 = Some (Return, c') ∧ last_turn ctx c c'.
Proof.
  intros Hok Hread Ho Ht Hk.
  assert (does (mret (M := M) Return) (λ flow w evs, closing_words w ∧ flow = Return ∧ evs = [])) as Hret.
  { apply does_ret. by split; [apply closing_words_nil|]. }
  destruct r as [[req|]|err].
  - destruct (read_request_spec (srv_max_body_bytes server) _ _ Hok) as (r' & buf' & reader' & Hread' & Hspec).
    rewrite Hread in Hread'. injection Hread' as <- <- <-.
    destruct (request_of _ _) as [[[req' n]|]|] eqn:Eq; [|discriminate Hspec..].
    destruct Hspec as ([= <-] & _).
    destruct (from_serve_request ctx (served + 1) req (proj1 (request_of_head _ _ _ _ Eq)) c1 Hk)
      as (flow & c' & w & evs & E & (_ & _ & Fo & Ft) & -> & Hw & Htr & Hup).
    exists c'. split; [done|]. rewrite Ho in Fo. rewrite Ht in Ft. exists w, evs. split_and!; [done..|].
    right. by exists req, n.
  - by apply last_turn_stop.
  - apply last_turn_stop; [done..|]. destruct (request_error_response err) as [response|]; [|done].
    apply (does_weaken _ _ _ (does_final_words env response (λ _, True))). naive_solver.
Qed.

Lemma drain_serve_one ctx served c :
  conn_ok (c_buf c) (c_reader c) → k0 ≤ c_tick c →
  ∃ c', serve_one env server ctx served c = Some (Return, c') ∧ last_turn ctx c c'.
Proof.
  intros Hok Hk. unfold serve_one, elapsed, timed_read.
  assert (∀ c1, c_out c1 = c_out c → c_trace c1 = c_trace c →
    ∃ c', mret (M := M) Return c1 = Some (Return, c') ∧ last_turn ctx c c') as Hret.
  { intros c1 Ho Ht. apply last_turn_stop; [done..|]. apply does_ret. by split; [apply closing_words_nil|]. }
  unfold mbind at 1, M_bind at 1, observe at 1. destruct (_ <=? _)%N; [by apply Hret|].
  unfold mbind at 1, M_bind at 1, observe at 1. cbv zeta. rewrite bind_assoc.
  unfold mbind at 1, M_bind at 1, observe at 1. destruct (env_read_expires env _ _); [by apply Hret|].
  destruct (read_request_spec (srv_max_body_bytes server) _ _ Hok) as (r & buf & reader & Hread & _).
  unfold read_request_io, fmap, M_fmap. rewrite bind_assoc.
  unfold mbind at 1, M_bind at 1. cbn [c_buf c_reader]. rewrite Hread. cbn [mbind M_bind mret M_ret].
  eapply (drain_after_read ctx served c _ r buf reader Hok Hread); cbn; [done..|lia].
Qed.

(** C17: The drain contract.  From the moment the shutdown flag is raised, whatever the connection
    was doing between two requests, and however clocks, timers and writes behave, the connection
    loop ends within one more turn: it serves at most one further request, asking middleware,
    gates and application about it as ever; what it writes is one message that announces the end
    of the connection, or the beginning of one; and an upgrade is refused with 503. *)
Theorem drain_serves_one_more ctx served fuel c :
  conn_ok (c_buf c) (c_reader c) → k0 ≤ c_tick c →
  ∃ c', connection_loop env server (S fuel) ctx served c = Some (tt, c') ∧ last_turn ctx c c'.
Proof.
  intros Hok Hk. destruct (drain_serve_one ctx served c Hok Hk) as (c' & E & Hl).
  exists c'. split; [|done]. cbn [connection_loop]. unfold mbind, M_bind. by rewrite E.
Qed.

End drain.

(** Shutdown is raised before the connection reads its first request. *)
Definition draining_env : Env :=
  {| env_elapsed k := N.of_nat (Nat.min k 1000); env_now k := N.of_nat k;
     env_shutdown k := bool_decide (2 ≤ k); env_read_expires _ _ := false; env_write _ _ := None;
     env_recv_expires _ _ := false; env_join _ := true; env_oversized _ := false |}.

Section witness.
#[local] Existing Instance demo_types.
#[local] Existing Instance naive_memmem.
#[local] Existing Instance rle_encoder.
#[local] Existing Instance no_plugins.

Definition demo_waiting : Conn :=
  {| c_tick := 2; c_reader := demo_pieces; c_buf := rb_new; c_send := []; c_out := []; c_trace := [] |}.

Lemma demo_drained_output :
  (λ p, c_out p.2) <$> connection_loop draining_env demo_server 5 {| peer_addr := None |} 0 demo_waiting
  = Some (lit "HTTP/1.1 200 OK" ++ CRLF ++ lit "Content-Length: 2" ++ CRLF
      ++ lit "Connection: close" ++ CRLF ++ CRLF ++ lit "hi").
Proof. by vm_compute. Qed.

Lemma drain_serves_one_more_witness :
  ∃ c', connection_loop draining_env demo_server 5 {| peer_addr := None |} 0 demo_waiting = Some (tt, c')
    ∧ last_turn demo_server {| peer_addr := None |} demo_waiting c'.
Proof.
  apply (drain_serves_one_more draining_env demo_server 2).
  - intros k Hk. by apply bool_decide_eq_true_2.
  - apply rb_new_conn_ok, demo_pieces_ok.
  - by vm_compute; lia.
Defined.
End witness.
