(* ===== verification/Listener.v ===== *)
(** * [core::server]: the listener

    [BoundServer::run_until] as a state machine: the accept loop that races shutdown against
    rebind commands against accepting, the connection tasks it spawns, the sessions that leave
    them by an upgrade, the drain of a replaced generation and the drain at the end.  The state
    holds what is shared: the permits of the semaphore, the cells of the shutdown flags and of
    the cancellation channels, the join sets.  A label is one step of one of the tasks, with
    what its poll of the outside world returned.  ListenerTime.v runs the end of it against a clock. *)

From stdpp Require Import relations.
From S2P Require Import Prelude Text Utf8 Extensions Request Response Gate ServerConfig.

Definition REBIND_BACKLOG_DRAIN_LIMIT : nat := 1024.
Definition u32_max : N := 4294967295.

(** [TcpListener::poll_accept]. *)
Inductive AcceptPoll :=
| APending
| AReady (peer : SocketAddr)
| AError.

(** The accept future: it waits for a permit, then for a connection, or sleeps after an error. *)
Inductive AcceptFut :=
| AfAcquire
| AfAccept
| AfBackoff.

(** [Raced], over the peer of the accepted connection. *)
Inductive Raced :=
| RShutdown
| RRebind (listener : nat) (backlog : list AcceptPoll)
| RCompleted (accepted : option SocketAddr).

(** A running [handle_connection_with_permit], with its references to the shared cells. *)
Record Task := { t_peer : SocketAddr; t_flag : nat; t_cancel : nat }.

(** A background drain of a replaced generation, [spawn_generation_drain]. *)
Record Drain := { d_join_set : gset nat; d_cancel : nat; d_fired : bool }.

Inductive Phase :=
| Accepting
| Draining
| Joining
| Returned
| Dropped.
#[global] Instance phase_eq_dec : EqDecision Phase.
Proof. solve_decision. Defined.

Record Listening := {
  connection_limit : N;
  permit_total : N;
  flags : gmap nat bool;
  cancels : gmap nat bool;
  tasks : gmap nat Task;
  sessions : gmap nat Task;
  listener : option nat;
  current_shutdown_flag : nat;
  current_cancel : nat;
  join_set : gset nat;
  drains : gmap nat Drain;
  accept_fut : AcceptFut;
  phase : Phase;
  next : nat;
}.

(** ** Binding *)

Definition permit_count (max_connections : N) : N := N.max max_connections 1.

(** [Server::bind], then the first lines of [run_until]. *)
Definition bind (max_connections : N) : Listening :=
  {| connection_limit := permit_count max_connections;
     permit_total := N.min (permit_count max_connections) u32_max;
     flags := {[ 0 := false ]}; cancels := {[ 1 := false ]}; tasks := ∅; sessions := ∅;
     listener := Some 2; current_shutdown_flag := 0; current_cancel := 1; join_set := ∅;
     drains := ∅; accept_fut := AfAcquire; phase := Accepting; next := 3 |}.

(** ** Updates *)

Definition set_limit (n : N) (s : Listening) : Listening :=
  {| connection_limit := n; permit_total := permit_total s; flags := flags s;
     cancels := cancels s; tasks := tasks s; sessions := sessions s; listener := listener s;
     current_shutdown_flag := current_shutdown_flag s; current_cancel := current_cancel s;
     join_set := join_set s; drains := drains s; accept_fut := accept_fut s; phase := phase s;
     next := next s |}.
Definition set_flag (l : nat) (s : Listening) : Listening :=
  {| connection_limit := connection_limit s; permit_total := permit_total s;
     flags := <[ l := true ]> (flags s); cancels := cancels s; tasks := tasks s;
     sessions := sessions s; listener := listener s;
     current_shutdown_flag := current_shutdown_flag s; current_cancel := current_cancel s;
     join_set := join_set s; drains := drains s; accept_fut := accept_fut s; phase := phase s;
     next := next s |}.
(** [GenerationCancel::fire]. *)
Definition fire (l : nat) (s : Listening) : Listening :=
  {| connection_limit := connection_limit s; permit_total := permit_total s; flags := flags s;
     cancels := <[ l := true ]> (cancels s); tasks := tasks s; sessions := sessions s;
     listener := listener s; current_shutdown_flag := current_shutdown_flag s;
     current_cancel := current_cancel s; join_set := join_set s; drains := drains s;
     accept_fut := accept_fut s; phase := phase s; next := next s |}.
Definition set_accept (a : AcceptFut) (s : Listening) : Listening :=
  {| connection_limit := connection_limit s; permit_total := permit_total s; flags := flags s;
     cancels := cancels s; tasks := tasks s; sessions := sessions s; listener := listener s;
     current_shutdown_flag := current_shutdown_flag s; current_cancel := current_cancel s;
     join_set := join_set s; drains := drains s; accept_fut := a; phase := phase s;
     next := next s |}.
Definition set_join_set (js : gset nat) (s : Listening) : Listening :=
  {| connection_limit := connection_limit s; permit_total := permit_total s; flags := flags s;
     cancels := cancels s; tasks := tasks s; sessions := sessions s; listener := listener s;
     current_shutdown_flag := current_shutdown_flag s; current_cancel := current_cancel s;
     join_set := js; drains := drains s; accept_fut := accept_fut s; phase := phase s;
     next := next s |}.
Definition set_tasks (ts ss : gmap nat Task) (s : Listening) : Listening :=
  {| connection_limit := connection_limit s; permit_total := permit_total s; flags := flags s;
     cancels := cancels s; tasks := ts; sessions := ss; listener := listener s;
     current_shutdown_flag := current_shutdown_flag s; current_cancel := current_cancel s;
     join_set := join_set s; drains := drains s; accept_fut := accept_fut s; phase := phase s;
     next := next s |}.
Definition set_drains (ds : gmap nat Drain) (s : Listening) : Listening :=
  {| connection_limit := connection_limit s; permit_total := permit_total s; flags := flags s;
     cancels := cancels s; tasks := tasks s; sessions := sessions s; listener := listener s;
     current_shutdown_flag := current_shutdown_flag s; current_cancel := current_cancel s;
     join_set := join_set s; drains := ds; accept_fut := accept_fut s; phase := phase s;
     next := next s |}.
Definition set_phase (p : Phase) (l : option nat) (s : Listening) : Listening :=
  {| connection_limit := connection_limit s; permit_total := permit_total s; flags := flags s;
     cancels := cancels s; tasks := tasks s; sessions := sessions s; listener := l;
     current_shutdown_flag := current_shutdown_flag s; current_cancel := current_cancel s;
     join_set := join_set s; drains := drains s; accept_fut := accept_fut s; phase := p;
     next := next s |}.

Definition release (n : N) (s : Listening) : Listening := set_limit (connection_limit s + n) s.

(** ** The race *)

(** What the poll of one turn finds ready. *)
Record Ready := {
  ready_shutdown : bool;
  ready_rebind : option (nat * list AcceptPoll);
  ready_accept : AcceptPoll;
  ready_slept : bool;
}.

(** [listener.accept()] with the permit in hand; an error drops the permit and sleeps. *)
Definition poll_listener (r : Ready) (s : Listening) : Listening * option (option SocketAddr) :=
  match ready_accept r with
  | APending => (set_accept AfAccept s, None)
  | AReady peer => (set_accept AfAcquire s, Some (Some peer))
  | AError => (set_accept AfBackoff (release 1 s), None)
  end.

Definition poll_accept_fut (r : Ready) (s : Listening) : Listening * option (option SocketAddr) :=
  match accept_fut s with
  | AfAcquire =>
      if (connection_limit s =? 0)%N then (s, None)
      else poll_listener r (set_limit (connection_limit s - 1) s)
  | AfAccept => poll_listener r s
  | AfBackoff => if ready_slept r then (set_accept AfAcquire s, Some None) else (s, None)
  end.

(** The permit the accept future holds goes back when the future is dropped. *)
Definition held (s : Listening) : N := match accept_fut s with AfAccept => 1 | _ => 0 end.
Definition drop_accept_fut (s : Listening) : Listening :=
  set_accept AfAcquire (release (held s) s).

(** Shutdown first, then rebind, then accept; [None] is pending. *)
Definition race_shutdown_or_accept (r : Ready) (s : Listening) : Listening * option Raced :=
  if ready_shutdown r then (drop_accept_fut s, Some RShutdown)
  else
    match ready_rebind r with
    | Some (l, backlog) => (drop_accept_fut s, Some (RRebind l backlog))
    | None =>
        match poll_accept_fut r s with
        | (s, Some accepted) => (s, Some (RCompleted accepted))
        | (s, None) => (s, None)
        end
    end.

(** ** Spawning *)

(** [join_set.spawn(handle_connection_with_permit(..))] with a permit already taken. *)
Definition spawn (peer : SocketAddr) (s : Listening) : Listening :=
  {| connection_limit := connection_limit s; permit_total := permit_total s; flags := flags s;
     cancels := cancels s;
     tasks := <[ next s := {| t_peer := peer; t_flag := current_shutdown_flag s;
                              t_cancel := current_cancel s |} ]> (tasks s);
     sessions := sessions s; listener := listener s;
     current_shutdown_flag := current_shutdown_flag s; current_cancel := current_cancel s;
     join_set := {[ next s ]} ∪ join_set s; drains := drains s; accept_fut := accept_fut s;
     phase := phase s; next := S (next s) |}.

(** At most [max] connections, each with a permit that is free now, until one is not there. *)
Fixpoint drain_listener_backlog (max : nat) (backlog : list AcceptPoll) (s : Listening) :
    list SocketAddr * Listening :=
  match max with
  | O => ([], s)
  | S max =>
      if (connection_limit s =? 0)%N then ([], s)
      else
        match backlog with
        | AReady peer :: backlog =>
            let '(drained, s) := drain_listener_backlog max backlog (set_limit (connection_limit s - 1) s) in
            (peer :: drained, s)
        | _ => ([], s)
        end
  end.

Definition spawn_all (peers : list SocketAddr) (s : Listening) : Listening :=
  foldl (λ s peer, spawn peer s) s peers.

(** The old join set and cancellation go to a background task, and new ones take their place. *)
Definition new_generation (new_listener : nat) (s : Listening) : Listening :=
  {| connection_limit := connection_limit s; permit_total := permit_total s;
     flags := <[ S (next s) := false ]> (flags s); cancels := <[ next s := false ]> (cancels s);
     tasks := tasks s; sessions := sessions s; listener := Some new_listener;
     current_shutdown_flag := S (next s); current_cancel := next s; join_set := ∅;
     drains := <[ next s := {| d_join_set := join_set s; d_cancel := current_cancel s;
                               d_fired := false |} ]> (drains s);
     accept_fut := accept_fut s; phase := phase s; next := S (S (next s)) |}.

(** ** The accept loop *)

(** [while join_set.try_join_next().is_some() {}] forgets the tasks that ended. *)
Definition reap (s : Listening) : Listening := set_join_set (join_set s ∩ dom (tasks s)) s.

Definition on_shutdown (s : Listening) : Listening :=
  set_phase Draining None (fire (current_cancel s) (set_flag (current_shutdown_flag s) s)).

Definition on_rebind (new_listener : nat) (backlog : list AcceptPoll) (s : Listening) : Listening :=
  let s := set_flag (current_shutdown_flag s) s in
  let '(drained, s) := drain_listener_backlog REBIND_BACKLOG_DRAIN_LIMIT backlog s in
  new_generation new_listener (spawn_all drained s).

Definition on_raced (r : Raced) (s : Listening) : Listening :=
  match r with
  | RShutdown => on_shutdown s
  | RRebind l backlog => on_rebind l backlog s
  | RCompleted None => s
  | RCompleted (Some peer) => spawn peer s
  end.

(** One poll of the race, and what its winner does. *)
Definition turn (r : Ready) (s : Listening) : Listening :=
  match race_shutdown_or_accept r (reap s) with
  | (s, Some raced) => on_raced raced s
  | (s, None) => s
  end.

(** ** The other tasks *)

(** [JoinSet::shutdown]: the tasks of the set are dropped, their permits with them. *)
Definition abort (js : gset nat) (s : Listening) : Listening :=
  let gone := filter (λ p, p.1 ∈ js) (tasks s) in
  release (N.of_nat (size gone)) (set_tasks (filter (λ p, p.1 ∉ js) (tasks s)) (sessions s) s).

(** The caller may drop the future of [run_until]: the sender of the cancellation is dropped with
    it, which its receivers take for a cancellation, and the tasks are detached. *)
Inductive Label :=
| LTurn (r : Ready)
| LFinish (task : nat)
| LUpgrade (task : nat)
| LSessionEnd (session : nat)
| LDrainFire (drain : nat)
| LDrainEnd (drain : nat)
| LDrainGrace (drain : nat)
| LAcquired
| LJoined
| LGrace
| LDropFuture.

Definition ended (js : gset nat) (s : Listening) : bool := bool_decide (js ∩ dom (tasks s) = ∅).

Definition apply (l : Label) (s : Listening) : option Listening :=
  match l with
  | LTurn r => match phase s with Accepting => Some (turn r s) | _ => None end
  | LFinish t =>
      match tasks s !! t with
      | Some _ => Some (release 1 (set_tasks (delete t (tasks s)) (sessions s) s))
      | None => None
      end
  | LUpgrade t =>
      match tasks s !! t with
      | Some task => Some (set_tasks (delete t (tasks s)) (<[ t := task ]> (sessions s)) s)
      | None => None
      end
  | LSessionEnd t =>
      match sessions s !! t with
      | Some _ => Some (release 1 (set_tasks (tasks s) (delete t (sessions s)) s))
      | None => None
      end
  | LDrainFire d =>
      match drains s !! d with
      | Some {| d_join_set := js; d_cancel := c; d_fired := false |} =>
          let dr := {| d_join_set := js; d_cancel := c; d_fired := true |} in
          Some (set_drains (<[ d := dr ]> (drains s)) (fire c s))
      | _ => None
      end
  | LDrainEnd d =>
      match drains s !! d with
      | Some dr =>
          if d_fired dr && ended (d_join_set dr) s then Some (set_drains (delete d (drains s)) s)
          else None
      | None => None
      end
  | LDrainGrace d =>
      match drains s !! d with
      | Some dr =>
          if d_fired dr then Some (set_drains (delete d (drains s)) (abort (d_join_set dr) s))
          else None
      | None => None
      end
  | LAcquired =>
      match phase s with
      | Draining =>
          if (permit_total s <=? connection_limit s)%N
          then Some (set_phase Joining None (set_limit (connection_limit s - permit_total s) s))
          else None
      | _ => None
      end
  | LJoined =>
      match phase s with
      | Joining =>
          if ended (join_set s) s
          then Some (set_phase Returned None (set_join_set ∅ (release (permit_total s) s)))
          else None
      | _ => None
      end
  | LGrace =>
      match phase s with
      | Draining => Some (set_phase Returned None (set_join_set ∅ (abort (join_set s) s)))
      | _ => None
      end
  | LDropFuture =>
      let gone s := set_phase Dropped None (set_join_set ∅ (fire (current_cancel s) s)) in
      match phase s with
      | Accepting => Some (gone (drop_accept_fut s))
      | Draining => Some (gone s)
      | Joining => Some (gone (release (permit_total s) s))
      | Returned | Dropped => None
      end
  end.

Definition step (s s' : Listening) : Prop := ∃ l, apply l s = Some s'.
Definition reachable (max_connections : N) (s : Listening) : Prop := rtc step (bind max_connections) s.

(** ** The invariant *)

(** The permits that nobody in [tasks] or [sessions] holds. *)
Definition reserved (s : Listening) : N :=
  match phase s with
  | Accepting => held s
  | Joining => permit_total s
  | _ => 0
  end.

(** Where a task belongs: the current generation, a drain, or nowhere once [run_until] is dropped. *)
Definition current (s : Listening) (t : nat) (task : Task) : Prop :=
  t ∈ join_set s ∧ t_flag task = current_shutdown_flag s ∧ t_cancel task = current_cancel s.
Definition in_drain (s : Listening) (t : nat) (task : Task) (dr : Drain) : Prop :=
  (t ∉ join_set s) ∧ t ∈ d_join_set dr ∧ flags s !! t_flag task = Some true
  ∧ t_flag task ≠ current_shutdown_flag s.
Definition seated (s : Listening) (t : nat) (task : Task) : Prop :=
  current s t task ∨ (∃ d dr, drains s !! d = Some dr ∧ in_drain s t task dr) ∨ phase s = Dropped.

Definition stopped (s : Listening) : bool := bool_decide (phase s ≠ Accepting).

(** A cancellation that has fired, will when its drain starts, or belongs to the generation now. *)
Definition told (s : Listening) (c : nat) : Prop :=
  c = current_cancel s
  ∨ (∃ d dr, drains s !! d = Some dr ∧ d_cancel dr = c ∧ d_fired dr = false)
  ∨ cancels s !! c = Some true.

(** [n] permits are in the hands of the code that runs, and the current flag is [fl]. *)
Record inv (count n : N) (fl : bool) (s : Listening) : Prop := {
  inv_permits : (connection_limit s + reserved s + n + N.of_nat (size (tasks s))
                 + N.of_nat (size (sessions s)) = count)%N;
  inv_total : permit_total s = N.min count u32_max;
  inv_tasks_fresh : ∀ t task, tasks s !! t = Some task → t < next s;
  inv_sessions_fresh : ∀ t task, sessions s !! t = Some task → t < next s ∧ tasks s !! t = None;
  inv_join_fresh : ∀ t, t ∈ join_set s → t < next s;
  inv_drains_fresh : ∀ d dr, drains s !! d = Some dr →
    d < next s ∧ (∀ t, t ∈ d_join_set dr → t < next s);
  inv_drains_cancel : ∀ d dr, drains s !! d = Some dr →
    is_Some (cancels s !! d_cancel dr) ∧ d_cancel dr ≠ current_cancel s;
  inv_flag_fresh : current_shutdown_flag s < next s;
  inv_cancel_fresh : current_cancel s < next s;
  inv_flags_fresh : ∀ l b, flags s !! l = Some b → l < next s;
  inv_cancels_fresh : ∀ l b, cancels s !! l = Some b → l < next s;
  inv_flag : phase s ≠ Dropped → flags s !! current_shutdown_flag s = Some fl;
  inv_cancel : cancels s !! current_cancel s = Some (stopped s);
  inv_accept : phase s ≠ Accepting → accept_fut s = AfAcquire;
  inv_listener : is_Some (listener s) ↔ phase s = Accepting;
  inv_seated : ∀ t task, tasks s !! t = Some task → seated s t task;
  inv_told : ∀ t task, tasks s !! t = Some task ∨ sessions s !! t = Some task →
    told s (t_cancel task);
}.

Lemma inv_set_limit count n n' fl k s :
  inv count n fl s → (connection_limit s + n = k + n')%N → inv count n' fl (set_limit k s).
Proof. intros [] Hk. split; cbn; auto. unfold reserved, held in *. cbn. lia. Qed.

Lemma inv_release count n k fl s : inv count (n + k) fl s → inv count n fl (release k s).
Proof. intros I. apply (inv_set_limit _ _ _ _ _ _ I). lia. Qed.

Lemma inv_set_accept count n n' fl a s :
  inv count n fl s → phase s = Accepting → (n + held s = n' + held (set_accept a s))%N →
  inv count n' fl (set_accept a s).
Proof.
  intros [] Hp Hn. split; cbn; auto; try congruence.
  unfold reserved in *. cbn. rewrite Hp in *. lia.
Qed.

Lemma inv_set_join_set count n fl js s :
  inv count n fl s → (∀ t task, tasks s !! t = Some task → t ∈ join_set s → t ∈ js) →
  js ⊆ join_set s → inv count n fl (set_join_set js s).
Proof.
  intros [] Hin Hsub. split; cbn; auto.
  intros t task Ht. destruct (inv_seated0 t task Ht) as [[H1 H2]|[(d & dr & Hd & H1 & H2)|?]].
  - left. split; [by eapply Hin|done].
  - right; left. exists d, dr. split; [done|]. split; [cbn; set_solver|done].
  - by right; right.
Qed.

Lemma inv_reap count n fl s : inv count n fl s → inv count n fl (reap s).
Proof.
  intros I. apply inv_set_join_set; [done| |set_solver].
  intros t task Ht Hj. apply elem_of_intersection. split; [done|]. by apply elem_of_dom_2 in Ht.
Qed.

(** Tasks may end and become sessions; the permits of the others come into hand. *)
Lemma inv_set_tasks count n k fl ts ss s :
  inv count n fl s → ts ⊆ tasks s →
  (∀ t task, ss !! t = Some task →
    (tasks s !! t = Some task ∨ sessions s !! t = Some task) ∧ ts !! t = None) →
  (N.of_nat (size ts) + N.of_nat (size ss) + k
   = N.of_nat (size (tasks s)) + N.of_nat (size (sessions s)))%N →
  inv count (n + k) fl (set_tasks ts ss s).
Proof.
  intros [] Hts Hss Hk.
  assert (Hold : ∀ t task, ts !! t = Some task → tasks s !! t = Some task).
  { intros t task Ht. by eapply lookup_weaken. }
  split; cbn; auto.
  - unfold reserved, held in *. cbn. lia.
  - eauto.
  - intros t task Ht. destruct (Hss t task Ht) as [[Hs|Hs] Hn]; [eauto|].
    by destruct (inv_sessions_fresh0 t task Hs).
  - intros t task Ht. apply Hold, inv_seated0 in Ht. destruct Ht as [?|[(d & dr & ?)|?]]; [by left|right; left; by exists d, dr|by right; right].
  - intros t task Ht. assert (Ho : tasks s !! t = Some task ∨ sessions s !! t = Some task).
    { destruct Ht as [Ht|Ht]; [auto|]. by apply Hss. }
    by apply inv_told0 in Ho.
Qed.

Lemma inv_spawn count n fl peer s :
  inv count (n + 1) fl s → phase s = Accepting → inv count n fl (spawn peer s).
Proof.
  intros [] Hp.
  assert (Hnew : tasks s !! next s = None).
  { destruct (tasks s !! next s) eqn:E; [|done]. apply inv_tasks_fresh0 in E. lia. }
  split; cbn; auto; try lia.
  - rewrite map_size_insert_None by done. unfold reserved, held in *. cbn. lia.
  - intros t task [[<- _]|[_ Ht]]%lookup_insert_Some; [lia|]. apply inv_tasks_fresh0 in Ht. lia.
  - intros t task Ht. destruct (inv_sessions_fresh0 t task Ht). split; [lia|].
    rewrite lookup_insert_ne; [done|lia].
  - intros t Ht. apply elem_of_union in Ht as [->%elem_of_singleton|Ht]; [lia|].
    apply inv_join_fresh0 in Ht. lia.
  - intros d dr Hd. destruct (inv_drains_fresh0 d dr Hd) as [H1 H2]. split; [lia|].
    intros t Ht. specialize (H2 t Ht). lia.
  - intros l b Hl. apply inv_flags_fresh0 in Hl. lia.
  - intros l b Hl. apply inv_cancels_fresh0 in Hl. lia.
  - intros t task [[<- <-]|[Hne Ht]]%lookup_insert_Some.
    { left. unfold current. cbn. set_solver. }
    apply inv_tasks_fresh0 in Ht as Hlt.
    destruct (inv_seated0 t task Ht) as [[H1 H2]|[(d & dr & Hd & H1 & H2)|?]].
    + left. unfold current. cbn. set_solver.
    + right; left. exists d, dr. unfold in_drain in *. cbn. set_solver.
    + by right; right.
  - intros t task [[[<- <-]|[Hne Ht]]%lookup_insert_Some|Ht].
    + by left.
    + apply (inv_told0 t). auto.
    + apply (inv_told0 t). auto.
Qed.

Lemma inv_spawn_all count n fl peers s :
  inv count (n + N.of_nat (length peers)) fl s → phase s = Accepting →
  inv count n fl (spawn_all peers s) ∧ phase (spawn_all peers s) = Accepting.
Proof.
  revert n s. induction peers as [|peer peers IH]; intros n s I Hp; cbn in *.
  { by rewrite N.add_0_r in I. }
  apply IH; [|done]. apply inv_spawn; [|done]. by replace (n + N.of_nat (length peers) + 1)%N
    with (n + N.of_nat (S (length peers)))%N by lia.
Qed.

Lemma drain_listener_backlog_spec max backlog s :
  ∃ peers, drain_listener_backlog max backlog s
    = (peers, set_limit (connection_limit s - N.of_nat (length peers)) s)
    ∧ (N.of_nat (length peers) <= connection_limit s)%N ∧ length peers ≤ max.
Proof.
  revert backlog s. induction max as [|max IH]; intros backlog s; cbn.
  { exists []. rewrite N.sub_0_r. split; [by destruct s|split; cbn; lia]. }
  destruct (N.eqb_spec (connection_limit s) 0) as [E|E].
  { exists []. rewrite N.sub_0_r. split; [by destruct s|split; cbn; lia]. }
  destruct backlog as [|[|peer|] backlog];
    try (exists []; rewrite N.sub_0_r; split; [by destruct s|split; cbn; lia]).
  destruct (IH backlog (set_limit (connection_limit s - 1) s)) as (peers & -> & H1 & H2).
  exists (peer :: peers). cbn in *. split; [|lia]. f_equal. unfold set_limit at 1. cbn.
  unfold set_limit. f_equal. lia.
Qed.

Lemma inv_set_flag count n fl s :
  inv count n fl s → phase s ≠ Dropped → inv count n true (set_flag (current_shutdown_flag s) s).
Proof.
  intros [] Hp. split; cbn; auto.
  - intros l b [[<- _]|[_ Hl]]%lookup_insert_Some; [done|by eapply inv_flags_fresh0].
  - intros _. apply lookup_insert_eq.
  - intros t task Ht. destruct (inv_seated0 t task Ht) as [?|[(d & dr & Hd & H1 & H2 & H3 & H4)|?]];
      [by left| |by right; right].
    right; left. exists d, dr. split; [done|]. split; [done|]. split; [done|]. split; [|done].
    cbn. by rewrite lookup_insert_ne.
Qed.

Lemma inv_new_generation count n l s :
  inv count n true s → phase s = Accepting → inv count n false (new_generation l s).
Proof.
  intros [] Hp.
  assert (Hdr : drains s !! next s = None).
  { destruct (drains s !! next s) as [dr|] eqn:E; [|done]. apply inv_drains_fresh0 in E as [? _]. lia. }
  split; cbn; auto; try lia.
  - intros t task Ht. apply inv_tasks_fresh0 in Ht. lia.
  - intros t task Ht. destruct (inv_sessions_fresh0 t task Ht). split; [lia|done].
  - set_solver.
  - intros d dr [[<- <-]|[_ Hd]]%lookup_insert_Some; cbn.
    + split; [lia|]. intros t Ht. apply inv_join_fresh0 in Ht. lia.
    + destruct (inv_drains_fresh0 d dr Hd) as [H1 H2]. split; [lia|].
      intros t Ht. specialize (H2 t Ht). lia.
  - intros d dr Hd. rewrite lookup_insert_is_Some'.
    apply lookup_insert_Some in Hd as [[<- <-]|[_ Hd]]; cbn.
    + split; [right; by eexists|lia].
    + destruct (inv_drains_cancel0 d dr Hd) as [[b H1] H2]. split; [right; by eexists|].
      apply inv_cancels_fresh0 in H1. lia.
  - intros k b [[<- _]|[_ Hl]]%lookup_insert_Some; [lia|]. apply inv_flags_fresh0 in Hl. lia.
  - intros k b [[<- _]|[_ Hl]]%lookup_insert_Some; [lia|]. apply inv_cancels_fresh0 in Hl. lia.
  - intros _. apply lookup_insert_eq.
  - rewrite lookup_insert_eq. unfold stopped. cbn. by rewrite Hp.
  - split; [done|]. eauto.
  - intros t task Ht. right; left.
    assert (Hf : ∀ b, flags s !! t_flag task = Some b →
      <[S (next s):=false]> (flags s) !! t_flag task = Some b ∧ t_flag task ≠ S (next s)).
    { intros b Hb. apply inv_flags_fresh0 in Hb as ?. rewrite lookup_insert_ne by lia. split; [done|lia]. }
    destruct (inv_seated0 t task Ht) as [(H1 & H2 & H3)|[(d & dr & Hd & H1 & H2 & H3 & H4)|?]];
      [| |congruence].
    + eexists _, _. split; [apply lookup_insert_eq|]. unfold in_drain. cbn. split; [set_solver|].
      split; [done|]. apply Hf. rewrite H2. apply inv_flag0. congruence.
    + exists d, dr. split; [cbn; rewrite lookup_insert_ne; [done|congruence]|]. unfold in_drain. cbn.
      split; [set_solver|]. split; [done|]. by apply Hf.
  - intros t task Ht. destruct (inv_told0 t task Ht) as [H1|[(d & dr & Hd & H1)|H1]].
    + right; left. eexists _, _. split; [apply lookup_insert_eq|]. done.
    + right; left. exists d, dr. split; [cbn; rewrite lookup_insert_ne; [done|congruence]|done].
    + right; right. cbn. rewrite lookup_insert_ne; [done|]. apply inv_cancels_fresh0 in H1. lia.
Qed.

Lemma inv_fire count n fl c s :
  inv count n fl s → (∃ b, cancels s !! c = Some b) → (c = current_cancel s → stopped s = true) →
  inv count n fl (fire c s).
Proof.
  intros [] [b Hb] Hc. split; cbn; auto.
  - intros d dr Hd. rewrite lookup_insert_is_Some'. split; [right|]; by eapply inv_drains_cancel0.
  - intros k b' [[<- _]|[_ Hl]]%lookup_insert_Some; by eapply inv_cancels_fresh0.
  - unfold stopped. cbn. fold (stopped s).
    destruct (decide (c = current_cancel s)) as [->|Hn]; [by rewrite lookup_insert_eq, Hc|].
    by rewrite lookup_insert_ne.
  - intros t task Ht. destruct (inv_told0 t task Ht) as [H1|[H1|H1]]; [by left|by right; left|].
    right; right. cbn. destruct (decide (c = t_cancel task)) as [->|Hn]; [apply lookup_insert_eq|].
    by rewrite lookup_insert_ne.
Qed.

Lemma inv_drop_accept count n fl s :
  inv count n fl s → phase s = Accepting → inv count n fl (drop_accept_fut s).
Proof.
  intros [] Hp. split; cbn; auto. unfold reserved, held in *. cbn in *. rewrite Hp in *.
  destruct (accept_fut s); cbn; lia.
Qed.

Lemma inv_poll_listener count fl r s :
  inv count (1 - held s) fl s → phase s = Accepting →
  let (s', o) := poll_listener r s in
  phase s' = Accepting ∧ inv count (match o with Some (Some _) => 1 | _ => 0 end) fl s'.
Proof.
  intros I Hp. unfold poll_listener. destruct (ready_accept r); (split; [done|]).
  - apply (inv_set_accept _ _ _ _ _ _ I); [done|]. unfold held. cbn. destruct (accept_fut s); lia.
  - apply (inv_set_accept _ _ _ _ _ _ I); [done|]. unfold held. cbn. destruct (accept_fut s); lia.
  - destruct I. split; cbn; auto; try congruence. unfold reserved, held in *. cbn. rewrite Hp in *.
    destruct (accept_fut s); lia.
Qed.

Lemma inv_race count fl r s :
  inv count 0 fl s → phase s = Accepting →
  let (s', o) := race_shutdown_or_accept r s in
  phase s' = Accepting
  ∧ inv count (match o with Some (RCompleted (Some _)) => 1 | _ => 0 end) fl s'.
Proof.
  intros I Hp. unfold race_shutdown_or_accept.
  destruct (ready_shutdown r); [split; [done|by apply inv_drop_accept]|].
  destruct (ready_rebind r) as [[l backlog]|]; [split; [done|by apply inv_drop_accept]|].
  assert (Hpoll : let (s', o) := poll_accept_fut r s in
    phase s' = Accepting ∧ inv count (match o with Some (Some _) => 1 | _ => 0 end) fl s').
  { unfold poll_accept_fut. destruct (accept_fut s) eqn:Ea.
    - destruct (N.eqb_spec (connection_limit s) 0); [done|]. apply inv_poll_listener; [|done].
      apply (inv_set_limit _ _ _ _ _ _ I). unfold held. cbn. rewrite Ea. lia.
    - apply inv_poll_listener; [|done]. by replace (1 - held s)%N with 0%N by (unfold held; rewrite Ea; lia).
    - destruct (ready_slept r); [|done]. split; [done|].
      apply (inv_set_accept _ _ _ _ _ _ I); [done|]. unfold held. cbn. rewrite Ea. lia. }
  destruct (poll_accept_fut r s) as [s' [[peer|]|]]; done.
Qed.

Lemma inv_on_shutdown count s :
  inv count 0 false s → phase s = Accepting → accept_fut s = AfAcquire →
  inv count 0 true (on_shutdown s).
Proof.
  intros I Hp Ha. apply inv_set_flag in I; [|congruence]. destruct I. split; cbn in *; auto; try congruence.
  - unfold reserved, held in *. cbn in *. rewrite Hp, Ha in *. lia.
  - intros d dr Hd. rewrite lookup_insert_is_Some'. split; [right|]; by eapply inv_drains_cancel0.
  - intros k b [[<- _]|[_ Hl]]%lookup_insert_Some; [done|by eapply inv_cancels_fresh0].
  - intros _. apply inv_flag0. congruence.
  - apply lookup_insert_eq.
  - rewrite Hp in *. split; [|done]. by intros [? ?].
  - intros t task Ht. destruct (inv_seated0 t task Ht) as [?|[?|?]]; [by left|by right; left|cbn in *; congruence].
  - intros t task Ht. destruct (inv_told0 t task Ht) as [H1|[H1|H1]]; [by left|by right; left|].
    right; right. cbn in *. destruct (decide (current_cancel s = t_cancel task)) as [->|Hn].
    + apply lookup_insert_eq.
    + by rewrite lookup_insert_ne.
Qed.

Lemma inv_on_rebind count l backlog s :
  inv count 0 false s → phase s = Accepting →
  phase (on_rebind l backlog s) = Accepting ∧ inv count 0 false (on_rebind l backlog s).
Proof.
  intros I Hp. unfold on_rebind. apply inv_set_flag in I; [|congruence].
  destruct (drain_listener_backlog_spec REBIND_BACKLOG_DRAIN_LIMIT backlog
    (set_flag (current_shutdown_flag s) s)) as (peers & -> & H1 & _). cbn in H1.
  destruct (inv_spawn_all count 0 true peers
    (set_limit (connection_limit s - N.of_nat (length peers)) (set_flag (current_shutdown_flag s) s)))
    as [I' Hp']; [|done|split; [done|by apply inv_new_generation]].
  apply (inv_set_limit _ _ _ _ _ _ I). cbn. lia.
Qed.

Lemma turn_phase count r s :
  inv count 0 false s → phase s = Accepting → phase (turn r s) = Accepting ∨ phase (turn r s) = Draining.
Proof.
  intros I Hp. apply inv_reap in I. unfold turn.
  assert (Hr := inv_race count false r (reap s) I Hp).
  destruct (race_shutdown_or_accept r (reap s)) as [s' o]. destruct Hr as [Hp' I'].
  destruct o as [[|l backlog|[peer|]]|]; cbn [on_raced]; [by right| |by left..].
  left. exact (proj1 (inv_on_rebind count l backlog s' I' Hp')).
Qed.

Lemma inv_turn count r s :
  inv count 0 false s → phase s = Accepting → inv count 0 (stopped (turn r s)) (turn r s).
Proof.
  intros I Hp. apply inv_reap in I. unfold turn.
  assert (Hr := inv_race count false r (reap s) I Hp).
  destruct (race_shutdown_or_accept r (reap s)) as [s' o] eqn:E. destruct Hr as [Hp' I'].
  assert (Hs : ∀ s, phase s = Accepting → stopped s = false).
  { intros s0 H0. unfold stopped. by rewrite H0. }
  destruct o as [[|l backlog|[peer|]]|]; cbn [on_raced].
  - apply inv_on_shutdown; [done..|]. unfold race_shutdown_or_accept in E.
    destruct (ready_shutdown r); [by simplify_eq|]. destruct (ready_rebind r) as [[]|]; [done|].
    by destruct (poll_accept_fut r (reap s)) as [? [?|]].
  - destruct (inv_on_rebind count l backlog s' I' Hp') as [Hph ?]. by rewrite (Hs _ Hph).
  - rewrite Hs by done. by apply inv_spawn.
  - by rewrite Hs.
  - by rewrite Hs.
Qed.

Lemma ended_gone js s t task : ended js s = true → tasks s !! t = Some task → t ∉ js.
Proof.
  unfold ended. rewrite bool_decide_eq_true. intros E Ht Hj. apply elem_of_dom_2 in Ht. set_solver.
Qed.

Lemma inv_abort count fl js s : inv count 0 fl s → inv count 0 fl (abort js s).
Proof.
  intros I. unfold abort. apply inv_release.
  apply (inv_set_tasks _ _ _ _ _ _ _ I); [apply map_filter_subseteq| |].
  - intros t task Ht. split; [by right|].
    apply map_lookup_filter_None. left. by apply (inv_sessions_fresh _ _ _ _ I) in Ht as [_ ?].
  - rewrite (N.add_comm _ (N.of_nat (size (sessions s)))), <- N.add_assoc, N.add_comm. f_equal.
    rewrite <- Nat2N.inj_add. f_equal. rewrite <- map_size_disj_union by
      (apply map_disjoint_sym, map_disjoint_filter_complement).
    by rewrite map_union_comm, map_filter_union_complement by
      (apply map_disjoint_sym, map_disjoint_filter_complement).
Qed.

Lemma inv_set_drains count fl ds s :
  inv count 0 fl s →
  (∀ d dr, ds !! d = Some dr → ∃ dr', drains s !! d = Some dr'
     ∧ d_join_set dr = d_join_set dr' ∧ d_cancel dr = d_cancel dr') →
  (∀ d dr, drains s !! d = Some dr →
     (∃ dr', ds !! d = Some dr' ∧ d_join_set dr' = d_join_set dr
        ∧ (d_cancel dr' = d_cancel dr ∧ d_fired dr' = d_fired dr ∨ cancels s !! d_cancel dr = Some true))
     ∨ d_fired dr = true ∧ ∀ t task, tasks s !! t = Some task → t ∉ d_join_set dr) →
  inv count 0 fl (set_drains ds s).
Proof.
  intros [] Hds Hold. split; cbn; auto.
  - intros d dr Hd. destruct (Hds d dr Hd) as (dr' & H1 & -> & _). by eapply inv_drains_fresh0.
  - intros d dr Hd. destruct (Hds d dr Hd) as (dr' & H1 & _ & ->). by eapply inv_drains_cancel0.
  - intros t task Ht. destruct (inv_seated0 t task Ht) as [?|[(d & dr & Hd & H1 & H2 & H3)|?]];
      [by left| |by right; right]. right; left.
    destruct (Hold d dr Hd) as [(dr' & Hd' & Hj & _)|[_ Hn]]; [|by destruct (Hn t task Ht)].
    exists d, dr'. split; [done|]. unfold in_drain. cbn. by rewrite Hj.
  - intros t task Ht. destruct (inv_told0 t task Ht) as [H1|[(d & dr & Hd & H1 & H2)|H1]];
      [by left| |by right; right].
    destruct (Hold d dr Hd) as [(dr' & Hd' & _ & [[H3 H4]|H3])|[Hf _]]; [| |congruence].
    + right; left. exists d, dr'. cbn. by rewrite H3, H4.
    + right; right. cbn. congruence.
Qed.

Lemma inv_drain_delete count fl d dr s :
  inv count 0 fl s → drains s !! d = Some dr → d_fired dr = true →
  (∀ t task, tasks s !! t = Some task → t ∉ d_join_set dr) →
  inv count 0 fl (set_drains (delete d (drains s)) s).
Proof.
  intros I Hd Hf Hn. apply inv_set_drains; [done| |].
  - intros d' dr' [_ H]%lookup_delete_Some. eauto.
  - intros d' dr' H. destruct (decide (d = d')) as [<-|Hne]; [right; by simplify_eq|].
    left. exists dr'. rewrite lookup_delete_ne by done. auto.
Qed.

Lemma inv_drain_fire count fl d js c s :
  inv count 0 fl s → drains s !! d = Some {| d_join_set := js; d_cancel := c; d_fired := false |} →
  inv count 0 fl (set_drains (<[ d := {| d_join_set := js; d_cancel := c; d_fired := true |} ]> (drains s))
    (fire c s)).
Proof.
  intros I Hd. destruct (inv_drains_cancel _ _ _ _ I d _ Hd) as [[b Hb] Hne].
  apply inv_set_drains.
  - apply inv_fire; [done|by exists b|done].
  - intros d' dr' [[<- <-]|[_ H]]%lookup_insert_Some; eauto.
  - intros d' dr' H. left. destruct (decide (d = d')) as [<-|Hd'].
    + eexists. split; [apply lookup_insert_eq|]. cbn in H. simplify_eq. split; [done|]. right.
      apply lookup_insert_eq.
    + exists dr'. rewrite lookup_insert_ne by done. auto.
Qed.

(** Leaving the loop: reserved permits come back, the cancellation of the generation fires, and
    the tasks that remain are in drains unless the future was dropped. *)
Definition leave (p : Phase) (s : Listening) : Listening :=
  set_phase p None (set_join_set ∅ (fire (current_cancel s)
    (set_accept AfAcquire (release (reserved s) s)))).

Lemma inv_leave count fl p s :
  inv count 0 fl s → (p = Returned ∧ phase s ≠ Dropped ∧ ∀ t task, tasks s !! t = Some task → t ∉ join_set s)
    ∨ p = Dropped → inv count 0 fl (leave p s).
Proof.
  intros [] Hp. assert (Hpa : p ≠ Accepting ∧ p ≠ Joining) by (destruct Hp as [[-> _]| ->]; done).
  assert (stopped (leave p s) = true) as Hst.
  { unfold stopped. cbn. apply bool_decide_eq_true_2, Hpa. }
  split; try (rewrite Hst); cbn; auto.
  - assert (reserved (leave p s) = 0%N) as -> by (unfold reserved; cbn; by destruct p, Hpa). lia.
  - set_solver.
  - intros d dr Hd. rewrite lookup_insert_is_Some'. split; [right|]; by eapply inv_drains_cancel0.
  - intros k b [[<- _]|[_ Hl]]%lookup_insert_Some; [done|by eapply inv_cancels_fresh0].
  - intros Hn. apply inv_flag0. by destruct Hp as [(_ & ? & _)| ->].
  - apply lookup_insert_eq.
  - split; [intros [? ?]; done|]. intros ->. by destruct Hpa.
  - intros t task Ht. destruct Hp as [(-> & Hnd & Hn)| ->]; [|by right; right].
    destruct (inv_seated0 t task Ht) as [[H1 _]|[(d & dr & Hd & H1 & H2)|?]]; [by destruct (Hn t task Ht)| |done].
    right; left. exists d, dr. split; [done|]. split; [cbn; set_solver|done].
  - intros t task Ht. destruct (inv_told0 t task Ht) as [H1|[H1|H1]]; [by left|by right; left|].
    right; right. cbn. destruct (decide (current_cancel s = t_cancel task)) as [->|Hn].
    + apply lookup_insert_eq.
    + by rewrite lookup_insert_ne.
Qed.

Lemma fire_id count fl s :
  inv count 0 fl s → stopped s = true → fire (current_cancel s) s = s.
Proof.
  intros I Hs. assert (Hc := inv_cancel _ _ _ _ I). rewrite Hs in Hc.
  destruct s. unfold fire. cbn in *. by rewrite insert_id.
Qed.

Lemma leave_stopped count fl p s :
  inv count 0 fl s → stopped s = true →
  leave p s = set_phase p None (set_join_set ∅ (release (reserved s) s)).
Proof.
  intros I Hs. unfold leave. f_equal. f_equal.
  assert (Ha := inv_accept _ _ _ _ I). assert (Hc := inv_cancel _ _ _ _ I). rewrite Hs in Hc.
  unfold stopped in Hs. apply bool_decide_eq_true in Hs. specialize (Ha Hs).
  destruct s. cbn in *. subst. unfold fire, set_accept, release, set_limit. cbn. by rewrite insert_id.
Qed.

Lemma leave_none count fl p s :
  inv count 0 fl s → stopped s = true → reserved s = 0%N →
  leave p s = set_phase p None (set_join_set ∅ s).
Proof.
  intros I Hs Hr. rewrite (leave_stopped _ _ _ _ I Hs), Hr. unfold release. rewrite N.add_0_r. by destruct s.
Qed.

Lemma inv_dropped count n fl fl' s : inv count n fl s → phase s = Dropped → inv count n fl' s.
Proof. intros [] Hp. split; auto. intros Hn. by destruct Hn. Qed.

(** The tasks that are not connections of the accept loop: none of them changes the phase. *)
Lemma inv_task_step count l s s' :
  inv count 0 (stopped s) s → apply l s = Some s' →
  match l with LTurn _ | LAcquired | LJoined | LGrace | LDropFuture => False | _ => True end →
  inv count 0 (stopped s') s' ∧ phase s' = phase s.
Proof.
  intros I E Hl. destruct l as [r|t|t|t|d|d|d| | | |]; try done; cbn [apply] in E.
  - destruct (tasks s !! t) as [task|] eqn:Et; [|done]. injection E as <-. split; [|done].
    apply inv_release, inv_set_tasks; [done|apply delete_subseteq| |].
    + intros u task' Hu. split; [by right|]. apply lookup_delete_None. right.
      by apply (inv_sessions_fresh _ _ _ _ I) in Hu as [_ ?].
    + assert (size (tasks s) ≠ 0) by (apply map_size_ne_0_lookup; eauto).
      rewrite map_size_delete_Some by (by eexists). lia.
  - destruct (tasks s !! t) as [task|] eqn:Et; [|done]. injection E as <-. split; [|done].
    apply (inv_set_tasks _ 0 0); [done|apply delete_subseteq| |].
    + intros u task' [[<- <-]|[Hne Hu]]%lookup_insert_Some.
      * split; [by left|apply lookup_delete_eq].
      * split; [by right|]. apply lookup_delete_None. right.
        by apply (inv_sessions_fresh _ _ _ _ I) in Hu as [_ ?].
    + assert (Hns : sessions s !! t = None).
      { destruct (sessions s !! t) eqn:Es; [|done]. apply (inv_sessions_fresh _ _ _ _ I) in Es as [_ ?]. congruence. }
      assert (size (tasks s) ≠ 0) by (apply map_size_ne_0_lookup; eauto).
      rewrite map_size_insert_None by done. rewrite map_size_delete_Some by (by eexists). lia.
  - destruct (sessions s !! t) as [task|] eqn:Et; [|done]. injection E as <-. split; [|done].
    apply inv_release, inv_set_tasks; [done|done| |].
    + intros u task' [_ Hu]%lookup_delete_Some. split; [by right|].
      by apply (inv_sessions_fresh _ _ _ _ I) in Hu as [_ ?].
    + assert (size (sessions s) ≠ 0) by (apply map_size_ne_0_lookup; eauto).
      rewrite map_size_delete_Some by (by eexists). lia.
  - destruct (drains s !! d) as [[js c []]|] eqn:Ed; [done| |done]. injection E as <-. split; [|done].
    by apply inv_drain_fire.
  - destruct (drains s !! d) as [dr|] eqn:Ed; [|done]. destruct (d_fired dr) eqn:Ef; [|done].
    destruct (ended _ _) eqn:Ee; [|done]. injection E as <-. split; [|done].
    apply (inv_drain_delete _ _ _ dr); [done..|]. intros u task'. by apply ended_gone.
  - destruct (drains s !! d) as [dr|] eqn:Ed; [|done]. destruct (d_fired dr) eqn:Ef; [|done].
    injection E as <-. split; [|done]. apply (inv_drain_delete _ _ d dr (abort (d_join_set dr) s)); [by apply inv_abort|done..|].
    intros u task' Hu. by apply map_lookup_filter_Some in Hu as [_ ?].
Qed.

Lemma stopped_phase s : phase s ≠ Accepting → stopped s = true.
Proof. intros H. by apply bool_decide_eq_true_2. Qed.

Lemma inv_acquired count s :
  inv count 0 (stopped s) s → phase s = Draining → (permit_total s <= connection_limit s)%N →
  inv count 0 true (set_phase Joining None (set_limit (connection_limit s - permit_total s) s)).
Proof.
  intros I Hp Hle. rewrite stopped_phase in I by congruence.
  assert (Hst : stopped s = true) by (apply stopped_phase; congruence).
  destruct I. rewrite Hst in *. split; cbn; auto; try congruence.
  - unfold reserved in *. cbn. rewrite Hp in *. lia.
  - intros _. apply inv_flag0. congruence.
  - intros _. apply inv_accept0. congruence.
  - split; [intros [? ?]; done|done].
  - intros t task Ht. destruct (inv_seated0 t task Ht) as [?|[?|?]]; [by left|by right; left|congruence].
Qed.

Lemma inv_phase_step count l s s' :
  inv count 0 (stopped s) s → apply l s = Some s' →
  match l with LTurn _ | LAcquired | LJoined | LGrace | LDropFuture => True | _ => False end →
  inv count 0 (stopped s') s'.
Proof.
  intros I E Hl. destruct l; try done; cbn [apply] in E.
  - destruct (phase s) eqn:Hp; try done. injection E as <-. apply inv_turn; [|done].
    unfold stopped in I. by rewrite Hp in I.
  - destruct (phase s) eqn:Hp; try done. destruct (N.leb_spec (permit_total s) (connection_limit s)); [|done].
    injection E as <-. by apply inv_acquired.
  - destruct (phase s) eqn:Hp; try done. destruct (ended _ _) eqn:Ee; [|done]. injection E as <-.
    assert (Hst : stopped s = true) by (apply stopped_phase; congruence). rewrite Hst in I.
    assert (reserved s = permit_total s) as <- by (unfold reserved; by rewrite Hp).
    rewrite <- (leave_stopped _ _ _ _ I Hst). apply inv_leave; [done|]. left. split; [done|].
    split; [congruence|]. intros t task. by apply ended_gone.
  - destruct (phase s) eqn:Hp; try done. injection E as <-.
    assert (Hst : stopped s = true) by (apply stopped_phase; congruence). rewrite Hst in I.
    apply (inv_abort _ _ (join_set s)) in I.
    rewrite <- (leave_none _ _ _ _ I) by (unfold stopped, reserved in *; cbn; by rewrite ?Hp in *).
    apply inv_leave; [done|]. left. split; [done|]. split; [cbn; congruence|].
    intros t task Ht. by apply map_lookup_filter_Some in Ht as [_ ?].
  - assert (Hleave : inv count 0 true (leave Dropped s)).
    { apply (inv_dropped _ _ (stopped s)); [|done]. apply inv_leave; [done|by right]. }
    assert (Hst : phase s ≠ Accepting → stopped s = true) by apply stopped_phase.
    destruct (phase s) eqn:Hp; try done; injection E as <-.
    + unfold leave, reserved in Hleave. by rewrite Hp in Hleave.
    + rewrite Hst in I by done. rewrite (fire_id _ _ s I) by (by apply Hst).
      by rewrite (leave_none _ _ _ _ I) in Hleave by (unfold reserved; rewrite ?Hp; auto).
    + rewrite Hst in I by done. rewrite (leave_stopped _ _ _ _ I) in Hleave by (by apply Hst).
      unfold reserved in Hleave. rewrite Hp in Hleave.
      change (fire (current_cancel s) (release (permit_total s) s))
        with (release (permit_total s) (fire (current_cancel s) s)).
      by rewrite (fire_id _ _ s I) by (by apply Hst).
Qed.

Lemma inv_bind max : inv (permit_count max) 0 false (bind max).
Proof.
  split; cbn; auto; try (intros ? ? H; rewrite lookup_empty in H; done).
  - unfold reserved, held. cbn. rewrite !map_size_empty. lia.
  - set_solver.
  - intros l b [<- _]%lookup_singleton_Some. lia.
  - intros l b [<- _]%lookup_singleton_Some. lia.
  - split; eauto.
  - intros t task [H|H]; by rewrite lookup_empty in H.
Qed.

Lemma inv_reachable max s : reachable max s → inv (permit_count max) 0 (stopped s) s.
Proof.
  intros H. unfold reachable in H. remember (bind max) as s0 eqn:E0.
  assert (I : inv (permit_count max) 0 (stopped s0) s0) by (subst; apply inv_bind).
  clear E0. induction H as [s|s1 s2 s3 [l E] _ IH]; [done|]. apply IH.
  destruct l; first [by eapply inv_phase_step|by eapply inv_task_step].
Qed.

(** ** What the listener promises *)

(** The connections and sessions alive. *)
Definition alive (s : Listening) : N := (N.of_nat (size (tasks s)) + N.of_nat (size (sessions s)))%N.

(** C15: In every state a server reaches, however connections arrive, end, upgrade, are drained,
    rebound or aborted, each permit of the semaphore is either available, reserved by the accept
    future or the final drain, or held by exactly one live connection or upgraded session: none is
    lost or duplicated, so at most [max_connections] (at least one) are alive, and while fewer are,
    [AfAcquire] never waits for a permit. *)
Theorem connection_permits_conserved max s :
  reachable max s →
  (connection_limit s + reserved s + alive s = permit_count max)%N
  ∧ (alive s <= N.max max 1)%N
  ∧ (phase s = Accepting → (alive s < N.max max 1)%N → accept_fut s = AfAccept ∨ (0 < connection_limit s)%N).
Proof.
  intros H. assert (E := inv_permits _ _ _ _ (inv_reachable max s H)). unfold alive.
  unfold permit_count in *. split; [lia|]. split; [lia|]. intros Hp Ha. unfold reserved, held in E.
  rewrite Hp in E. destruct (accept_fut s); [right; lia|by left|right; lia].
Qed.

(** In every state a server reaches, the shutdown flag a live connection sees is raised exactly
    if the server is stopping or its listener was replaced after the connection was accepted (the
    connection is then in a drain), and the cancellation that a connection or upgraded session
    listens to has fired, or fires as soon as a pending drain starts, or belongs to the generation
    that is still accepting. *)
Theorem generation_signals max s t task :
  reachable max s →
  (tasks s !! t = Some task → phase s ≠ Dropped →
    (flags s !! t_flag task = Some true
      ∧ (phase s = Accepting → (t ∉ join_set s) ∧ ∃ d dr, drains s !! d = Some dr ∧ t ∈ d_join_set dr))
    ∨ (flags s !! t_flag task = Some false ∧ phase s = Accepting ∧ t ∈ join_set s))
  ∧ (tasks s !! t = Some task ∨ sessions s !! t = Some task →
    cancels s !! t_cancel task = Some true
    ∨ (∃ d dr, drains s !! d = Some dr ∧ d_cancel dr = t_cancel task ∧ d_fired dr = false)
    ∨ (t_cancel task = current_cancel s ∧ phase s = Accepting)).
Proof.
  intros H. assert (I := inv_reachable max s H). split.
  - intros Ht Hd.
    destruct (inv_seated _ _ _ _ I t task Ht) as [(H1 & H2 & _)|[(d & dr & Hdr & H1 & H2 & H3 & _)|?]]; [| |done].
    + rewrite H2, (inv_flag _ _ _ _ I Hd). unfold stopped. case_bool_decide as Hp.
      * left. split; [done|]. congruence.
      * right. split; [done|]. split; [|done]. by destruct (phase s).
    + left. split; [done|]. intros _. split; [done|]. by exists d, dr.
  - intros Ht. destruct (inv_told _ _ _ _ I t task Ht) as [->|[?|?]]; [|by right; left|by left].
    rewrite (inv_cancel _ _ _ _ I). unfold stopped. case_bool_decide as Hp; [by left|].
    right; right. split; [done|]. by destruct (phase s).
Qed.

Lemma stopping_step s s' :
  step s s' → phase s ≠ Accepting →
  phase s' ≠ Accepting ∧ dom (tasks s') ⊆ dom (tasks s)
  ∧ dom (sessions s') ⊆ dom (tasks s) ∪ dom (sessions s).
Proof.
  intros [l E] Hp. assert (Hab : ∀ js, dom (tasks (abort js s)) ⊆ dom (tasks s)).
  { intros js. apply dom_filter_subseteq. }
  destruct l as [r|t|t|t|d|d|d| | | |]; cbn [apply] in E.
  - by destruct (phase s).
  - destruct (tasks s !! t) eqn:Et; [|done]. injection E as <-. cbn. rewrite dom_delete_L. set_solver.
  - destruct (tasks s !! t) eqn:Et; [|done]. injection E as <-. cbn. apply elem_of_dom_2 in Et.
    rewrite dom_delete_L, dom_insert_L. set_solver.
  - destruct (sessions s !! t) eqn:Et; [|done]. injection E as <-. cbn. rewrite dom_delete_L. set_solver.
  - destruct (drains s !! d) as [[js c []]|] eqn:Ed; [done| |done]. injection E as <-. cbn. set_solver.
  - destruct (drains s !! d) as [dr|]; [|done]. destruct (_ && _); [|done]. injection E as <-. cbn. set_solver.
  - destruct (drains s !! d) as [dr|]; [|done]. destruct (d_fired dr); [|done]. injection E as <-.
    specialize (Hab (d_join_set dr)). cbn in *. set_solver.
  - destruct (phase s); try done. destruct (_ <=? _)%N; [|done]. injection E as <-. cbn. set_solver.
  - destruct (phase s); try done. destruct (ended _ _); [|done]. injection E as <-. cbn. set_solver.
  - destruct (phase s); try done. injection E as <-. specialize (Hab (join_set s)). cbn in *. set_solver.
  - destruct (phase s); try done; injection E as <-; cbn; set_solver.
Qed.

Lemma returned_join_set max s : reachable max s → phase s = Returned → join_set s = ∅.
Proof.
  intros H. unfold reachable in H. remember (bind max) as s0 eqn:E0.
  assert (R : phase s0 = Returned → join_set s0 = ∅) by (subst; done).
  assert (I : inv (permit_count max) 0 (stopped s0) s0) by (subst; apply inv_bind).
  clear E0. induction H as [s|s1 s2 s3 [l E] _ IH]; [done|].
  assert (I2 : inv (permit_count max) 0 (stopped s2) s2).
  { destruct l; first [by eapply inv_phase_step|by eapply inv_task_step]. }
  apply IH; [|done]. clear IH.
  destruct l as [r|t|t|t|d|d|d| | | |]; cbn [apply] in E.
  - destruct (phase s1) eqn:Hp; try done. injection E as <-. intros Hr.
    unfold stopped in I. rewrite Hp in I. destruct (turn_phase _ r s1 I Hp); congruence.
  - destruct (tasks s1 !! t); [|done]. by injection E as <-.
  - destruct (tasks s1 !! t); [|done]. by injection E as <-.
  - destruct (sessions s1 !! t); [|done]. by injection E as <-.
  - destruct (drains s1 !! d) as [[js c []]|]; [done| |done]. by injection E as <-.
  - destruct (drains s1 !! d) as [dr|]; [|done]. destruct (_ && _); [|done]. by injection E as <-.
  - destruct (drains s1 !! d) as [dr|]; [|done]. destruct (d_fired dr); [|done]. by injection E as <-.
  - destruct (phase s1); try done. destruct (_ <=? _)%N; [|done]. by injection E as <-.
  - destruct (phase s1); try done. destruct (ended _ _); [|done]. by injection E as <-.
  - destruct (phase s1); try done. by injection E as <-.
  - destruct (phase s1); try done; by injection E as <-.
Qed.

(** ** A run *)

Fixpoint run (ls : list Label) (s : Listening) : option Listening :=
  match ls with
  | [] => Some s
  | l :: ls => apply l s ≫= run ls
  end.

Lemma run_reach ls s s' : run ls s = Some s' → rtc step s s'.
Proof.
  revert s. induction ls as [|l ls IH]; intros s E; cbn in E; [by injection E as <-|].
  destruct (apply l s) as [s1|] eqn:E1; [|done]. apply (rtc_l _ _ s1); [by exists l|]. by apply IH.
Qed.

Definition local (port : N) : SocketAddr := ([127; 0; 0; 1]%N, port).
Definition ready (a : AcceptPoll) : Ready :=
  {| ready_shutdown := false; ready_rebind := None; ready_accept := a; ready_slept := false |}.
Definition demo_rebind : Ready :=
  {| ready_shutdown := false; ready_rebind := Some (7, [AReady (local 3); AReady (local 4)]);
     ready_accept := APending; ready_slept := false |}.
Definition demo_shutdown : Ready :=
  {| ready_shutdown := true; ready_rebind := None; ready_accept := AReady (local 5);
     ready_slept := false |}.

(** Two connections, one of them upgraded; a rebind that finds two more, of which one has a
    permit; then a connection of the new generation. *)
Definition demo_labels : list Label :=
  [LTurn (ready (AReady (local 1))); LTurn (ready (AReady (local 2))); LUpgrade 4;
   LTurn (ready APending); LTurn demo_rebind; LDrainFire 6; LFinish 3; LTurn (ready AError)].
Definition demo_listening : Listening := default (bind 3) (run demo_labels (bind 3)).
Definition demo_stopping : list Label := [LFinish 5; LDrainEnd 6; LSessionEnd 4; LTurn demo_shutdown].
Definition demo_drained : Listening :=
  default (bind 3) (run (demo_labels ++ demo_stopping ++ [LAcquired]) (bind 3)).

Lemma demo_reachable : reachable 3 demo_listening.
Proof. apply (run_reach demo_labels). by vm_compute. Qed.
Lemma demo_drained_reachable : reachable 3 demo_drained.
Proof. apply (run_reach (demo_labels ++ demo_stopping ++ [LAcquired])). by vm_compute. Qed.

Lemma connection_permits_conserved_witness :
  (alive demo_listening <= 3)%N ∧ alive demo_listening = 2%N.
Proof.
  split; [|by vm_compute]. exact (proj1 (proj2 (connection_permits_conserved 3 _ demo_reachable))).
Defined.

Lemma generation_signals_witness :
  tasks demo_listening !! 5 = Some {| t_peer := local 3; t_flag := 0; t_cancel := 1 |}
  ∧ (cancels demo_listening !! 1 = Some true
     ∨ (∃ d dr, drains demo_listening !! d = Some dr ∧ d_cancel dr = 1 ∧ d_fired dr = false)
     ∨ (1 = current_cancel demo_listening ∧ phase demo_listening = Accepting)).
Proof.
  split; [by vm_compute|].
  apply (proj2 (generation_signals 3 demo_listening 5 {| t_peer := local 3; t_flag := 0; t_cancel := 1 |}
    demo_reachable)). left. by vm_compute.
Defined.
