(* ===== verification/ListenerTime.v ===== *)
(** * [core::server]: the shutdown of the listener against the clock

    The polls of the future of [run_until]: the accept loop of Listener.v, the wait of the final drain
    for all permits under [tokio::time::timeout], and what follows either end of it.  The timer of
    the timeout is set once, when the wait begins, and is looked at by every poll that finds permits
    missing.  The other tasks take their steps between the polls. *)

From stdpp Require Import relations.
From S2P Require Import Prelude Text Utf8 Extensions Request Response Gate ServerConfig Server Listener.

(** ** The timeout *)

(** The deadline of [tokio::time::timeout(d, _)] made at [now]: [d] later, if that is an [Instant]. *)
Class Timeout := {
  timeout_deadline : Duration → Duration → Duration;
  timeout_deadline_exact now d : (now + d <= instant_max)%N → timeout_deadline now d = (now + d)%N;
}.

Section run_until.
Context {TT : Timeout}.









(** ** Polls are steps of the listener *)






(** ** The drain *)








End run_until.

(** ** A shutdown with a connection that does not end *)

(** Thirty years, as [Instant::far_future] of tokio, where the sum is not representable. *)
#[local, refine] Instance far_timeout : Timeout :=
  {| timeout_deadline now d := default (now + from_secs (86400 * 365 * 30))%N (checked_add now d) |}.
Proof. intros now d H. unfold checked_add. by rewrite (proj2 (N.leb_le _ _) H). Defined.

