(* ===== verification/WsPattern.v ===== *)
(** * [plugin-websocket::pattern]: path patterns of WebSocket endpoints

    A pattern without braces is a path compared as a whole; one with braces is parsed into
    segments.  The plugin has a parser and matcher of its own; they are shown to be those of the
    router ([RoutePattern]), without its wildcards and with limits on the number and the length
    of segments.  The names of this file shadow those of [RoutePattern]. *)

From S2P Require Import Prelude Text Utf8 RoutePattern.

Definition MAX_PATTERN_SEGMENTS : nat := 32.
Definition MAX_SEGMENT_BYTES : nat := 256.

Inductive PathPatternError :=
| MissingLeadingSlash
| EmptyParamName
| InvalidParamName (name : bytes)
| MixedSegment (seg : bytes)
| DuplicateParamName (name : bytes)
| EmptySegment
| TooManySegments
| SegmentTooLong.
#[export] Instance PathPatternError_eq_dec : EqDecision PathPatternError.
Proof. solve_decision. Defined.

Inductive Segment :=
| Literal (l : bytes)
| Param (name : bytes).

(** [PatternKind], the only field of [PathPattern]. *)
Inductive PathPattern :=
| Exact (path : bytes)
| Segments (segments : list Segment).

(** One round of the loop of [parse]. *)
Definition parse_segment (seen : list bytes) (raw : bytes) : result (list bytes * Segment) PathPatternError :=
  if bool_decide (raw = []) then Err EmptySegment
  else if MAX_SEGMENT_BYTES <? length raw then Err SegmentTooLong
  else if starts_with [x7b] raw && ends_with [x7d] raw && (2 <=? length raw) then
    let name := slice raw (Range 1 (length raw - 1)) in
    if bool_decide (name = []) then Err EmptyParamName
    else if negb (forallb is_name_byte name) then Err (InvalidParamName name)
    else if existsb (str_eqb name) seen then Err (DuplicateParamName name)
    else Ok (seen ++ [name], Param name)
  else if contains x7b raw || contains x7d raw then Err (MixedSegment raw)
  else Ok (seen, Literal raw).

Fixpoint parse_segments (seen : list bytes) (raws : list bytes) : result (list Segment) PathPatternError :=
  match raws with
  | [] => Ok []
  | raw :: raws =>
      let? (seen, seg) := parse_segment seen raw in
      let? segs := parse_segments seen raws in
      Ok (seg :: segs)
  end.

Definition parse (pattern : bytes) : result PathPattern PathPatternError :=
  if negb (contains x7b pattern) && negb (contains x7d pattern) then Ok (Exact pattern)
  else if negb (starts_with [x2f] pattern) then Err MissingLeadingSlash
  else
    let raw_segments := split x2f (default pattern (strip_prefix [x2f] pattern)) in
    if MAX_PATTERN_SEGMENTS <? length raw_segments then Err TooManySegments
    else
      let? segments := parse_segments [] raw_segments in
      Ok (Segments segments).

Definition is_safe_segment_value (value : bytes) : bool :=
  negb (bool_decide (value = [])) && negb (str_eqb value (lit ".")) && negb (str_eqb value (lit ".."))
  && negb (contains x3f value) && negb (contains x23 value)
  && (length value <=? MAX_SEGMENT_BYTES).

(** The loop over the segments; what is left of the target must be nothing. *)
Fixpoint match_values (segments : list Segment) (target_iter : list bytes) (params : PathParams) :
    option PathParams :=
  match segments with
  | [] => match target_iter with [] => Some params | _ => None end
  | segment :: segments =>
      match target_iter with
      | [] => None
      | value :: target_iter =>
          match segment with
          | Literal l => if negb (str_eqb l value) then None else match_values segments target_iter params
          | Param name =>
              if negb (is_safe_segment_value value) then None
              else match_values segments target_iter (params ++ [(name, value)])
          end
      end
  end.

Definition match_segments (segments : list Segment) (path : bytes) : option PathParams :=
  let! stripped := strip_prefix [x2f] path else None in
  match_values segments (split x2f stripped) [].

Definition match_path (self : PathPattern) (path : bytes) : option PathParams :=
  match self with
  | Exact exact => if str_eqb path exact then Some [] else None
  | Segments segments => match_segments segments path
  end.

(** ** The same patterns in the router *)

Definition to_route (s : Segment) : RoutePattern.Segment :=
  match s with
  | Literal l => RoutePattern.Literal l
  | Param name => RoutePattern.Param name
  end.

Definition short (v : bytes) : Prop := length v ≤ MAX_SEGMENT_BYTES.

Lemma safe_value v :
  is_safe_segment_value v = true ↔ RoutePattern.is_safe_segment_value v = true ∧ short v.
Proof. unfold is_safe_segment_value. rewrite andb_true_iff, Nat.leb_le. done. Qed.

Lemma to_route_inv seg : RoutePattern.seg_ok seg → is_wild seg = false → ∃ s, to_route s = seg.
Proof. destruct seg as [l|n|n]; [by exists (Literal l)|by exists (Param n)|done]. Qed.

Lemma to_route_not_wild s : is_wild (to_route s) = false.
Proof. by destruct s. Qed.

#[export] Instance to_route_inj : Inj (=) (=) to_route.
Proof. intros [?|?] [?|?] [= ->]; done. Qed.

(** A segment is accepted here exactly if the router accepts it as a segment that is not the last
    (so not as a wildcard) and it is short. *)
Lemma parse_segment_route seen raw seen' s :
  contains x2f raw = false →
  parse_segment seen raw = Ok (seen', s) ↔
  RoutePattern.parse_segment false seen raw = Ok (seen', to_route s) ∧ short raw.
Proof.
  intros Hs. unfold parse_segment, RoutePattern.parse_segment, short. case_bool_decide; [naive_solver|].
  destruct (Nat.ltb_spec MAX_SEGMENT_BYTES (length raw)) as [Hl|Hl]; [split; [done|]; intros [_ ?]; lia|].
  destruct (_ && _) eqn:E.
  - apply braces_inv in E as [name ->]. rewrite braces_slice.
    destruct (strip_prefix [x2a] name) as [rest|] eqn:Ew.
    + apply strip_prefix_Some in Ew as ->. split.
      * case_bool_decide; [done|]. change (forallb is_name_byte ([x2a] ++ rest)) with false. done.
      * intros [H' _]. repeat (case_first_in H'; [done|]). done.
    + repeat (case_first; [naive_solver|]). destruct s; naive_solver.
  - destruct (_ || _); [naive_solver|]. destruct s; naive_solver.
Qed.

Lemma wild_last_to_route segs : wild_last (to_route <$> segs).
Proof. induction segs as [|s segs IH]; [done|]. split; [by destruct s|done]. Qed.

Lemma ws_parse_segments_Ok seen raws segs :
  Forall (λ r, contains x2f r = false) raws →
  parse_segments seen raws = Ok segs ↔
  Forall RoutePattern.seg_ok (to_route <$> segs) ∧ raws = render_segment <$> (to_route <$> segs)
  ∧ NoDup (omap seg_name (to_route <$> segs))
  ∧ (∀ n, n ∈ omap seg_name (to_route <$> segs) → n ∉ seen) ∧ Forall short raws.
Proof.
  intros Hr. revert seen segs. induction Hr as [|raw raws Hraw _ IH]; intros seen segs; cbn [parse_segments].
  - split.
    + intros [= <-]. split_and!; try constructor. set_solver.
    + intros (_ & E & _). symmetry in E. apply fmap_nil_inv, fmap_nil_inv in E as ->. done.
  - split.
    + intros ((s1 & seg) & Hseg & H)%rbind_Ok. apply rbind_Ok in H as (segs' & Hsegs & [= <-]).
      apply parse_segment_route in Hseg as [Hseg Hsh]; [|done].
      apply RoutePattern.parse_segment_Ok in Hseg as (Hok & Hrd & -> & Hnew & _); [|done].
      apply IH in Hsegs as (H1 & H2 & H3 & H4 & H5). rewrite fmap_cons. cbn [omap list_omap].
      split_and!; [by constructor|by rewrite fmap_cons, <- H2, <- Hrd| | |by constructor].
      * destruct (seg_name (to_route seg)) as [n|] eqn:En; [|done]. constructor; [|done].
        intros Hin. apply (H4 n Hin). set_solver.
      * intros n Hin. destruct (seg_name (to_route seg)) as [m|] eqn:En; [|set_solver].
        apply elem_of_cons in Hin as [->|Hin]; [by apply Hnew|]. specialize (H4 n Hin). set_solver.
    + intros (HF & E & Hnd & Hnew & Hsh). destruct segs as [|seg segs]; [done|]. rewrite fmap_cons in *.
      injection E as -> ->. apply Forall_cons in HF as [Hok HF]. apply Forall_cons in Hsh as [Hsh1 Hsh].
      cbn [omap list_omap] in *.
      rewrite (proj2 (parse_segment_route seen _ (seen ++ option_list (seg_name (to_route seg))) seg Hraw)).
      * cbn [rbind]. rewrite (proj2 (IH (seen ++ option_list (seg_name (to_route seg))) segs)); [done|].
        destruct (seg_name (to_route seg)) as [n|] eqn:En; cbn [option_list].
        -- apply NoDup_cons in Hnd as [Hn Hnd]. split_and!; try done. set_solver.
        -- rewrite app_nil_r. by split_and!.
      * split; [|done]. apply RoutePattern.parse_segment_Ok; [done|].
        split_and!; try done; [intros n Hn; apply Hnew; rewrite Hn; by left|by destruct seg].
Qed.

Definition shorts (ps : PathParams) : Prop := Forall (λ p, short p.2) ps.

Lemma match_values_spec segs vs acc params :
  match_values segs vs acc = Some params ↔
  ∃ ps, params = acc ++ ps ∧ prefix_match (to_route <$> segs) vs ps ∧ shorts ps.
Proof.
  revert vs acc. induction segs as [|seg segs IH]; intros vs acc; cbn [match_values].
  - rewrite fmap_nil. split.
    + destruct vs; [|done]. intros [= ->]. exists []. rewrite app_nil_r. split_and!; constructor.
    + intros (ps & -> & H & _). inversion H. by rewrite app_nil_r.
  - rewrite fmap_cons. destruct vs as [|v vs].
    { split; [done|]. intros (ps & _ & H & _). destruct seg; inversion H. }
    destruct seg as [l|n]; cbn [to_route].
    + destruct (str_eqb l v) eqn:E; cbn [negb].
      * apply str_eqb_eq in E as ->. rewrite IH. split; intros (ps & -> & H & Hs); exists ps;
          (split; [done|split; [|done]]); [by constructor|by inversion H].
      * split; [done|]. intros (ps & _ & H & _). inversion H; subst. by rewrite str_eqb_refl in E.
    + destruct (is_safe_segment_value v) eqn:E; cbn [negb].
      * apply safe_value in E as [E Hv]. rewrite IH. split.
        -- intros (ps & -> & H & Hs). exists ((n, v) :: ps). rewrite <- (assoc_L (++)).
           split_and!; [done|by constructor|by constructor].
        -- intros (ps & -> & H & Hs). inversion H as [| |? ? ? ? ps' ? H']; subst.
           exists ps'. rewrite <- (assoc_L (++)). by inversion Hs.
      * split; [done|]. intros (ps & _ & H & Hs). inversion H as [| |? ? ? ? ps' Hv H']; subst.
        inversion Hs; subst. rewrite (proj2 (safe_value v)) in E; done.
Qed.

Lemma no_wildcard_match segs ts path params :
  RoutePattern.match_segments (to_route <$> segs) ts path = Some params ↔ prefix_match (to_route <$> segs) ts params.
Proof.
  assert (match last (to_route <$> segs) with Some (Wildcard name) => Some name | _ => None end = None) as Hw.
  { rewrite fmap_last. destruct (last segs) as [[]|]; done. }
  unfold RoutePattern.match_segments. rewrite Hw. cbn -[match_prefix]. rewrite firstn_all.
  destruct (Nat.eqb_spec (length (to_route <$> segs)) (length ts)) as [El|El]; cbn [negb].
  - rewrite take_ge by lia. destruct (match_prefix _ _ _) as [p|] eqn:E.
    + apply match_prefix_spec in E as (ps & -> & Hm); [|done]. split; [by intros [= <-]|].
      intros Hm'. f_equal. cbn. assert (match_prefix (to_route <$> segs) ts [] = Some ps) as E1
        by (apply match_prefix_spec; [done|by exists ps]).
      assert (match_prefix (to_route <$> segs) ts [] = Some params) as E2
        by (apply match_prefix_spec; [done|by exists params]). congruence.
    + split; [done|]. intros Hm. assert (match_prefix (to_route <$> segs) ts [] = Some params) as E2
        by (apply match_prefix_spec; [done|by exists params]). congruence.
  - split; [done|]. by intros ?%prefix_match_length.
Qed.

Lemma match_segments_route segs path params :
  Forall RoutePattern.seg_ok (to_route <$> segs) → segs ≠ [] →
  match_segments segs path = Some params ↔
  ∃ ts, request_target_segments path = Some ts
    ∧ RoutePattern.match_segments (to_route <$> segs) ts path = Some params ∧ shorts params.
Proof.
  intros Hok Hne. unfold match_segments, request_target_segments.
  destruct (strip_prefix [x2f] path) as [r|]; [|naive_solver].
  rewrite match_values_spec. setoid_rewrite no_wildcard_match. cbn [app].
  case_bool_decide as Hr; [subst r|naive_solver].
  destruct segs as [|seg segs]; [done|]. rewrite fmap_cons in *.
  assert (∀ ps, ¬ prefix_match (to_route seg :: (to_route <$> segs)) [] ps) as Hnil.
  { intros ps H. inversion H. }
  assert (∀ ps, ¬ prefix_match (to_route seg :: (to_route <$> segs)) (split x2f []) ps) as Hsplit.
  { intros ps H%prefix_match_parts; [|done]. cbn in H. by inversion H. }
  split; [by intros (ps & -> & H & _); destruct (Hsplit ps)|].
  intros (ts & [= <-] & H & _). by destruct (Hnil params).
Qed.

Lemma render_no_slash segs :
  Forall RoutePattern.seg_ok segs → Forall (λ r, contains x2f r = false) (render_segment <$> segs).
Proof.
  intros HF. apply Forall_fmap. eapply Forall_impl; [exact HF|]. intros s Hs.
  by apply render_segment_no_slash.
Qed.

(** Braces are in a pattern exactly if it has a parameter. *)
Lemma render_braces segs :
  Forall RoutePattern.seg_ok segs →
  (contains x7b (render_segments segs) = true ↔ omap seg_name segs ≠ [])
  ∧ (contains x7d (render_segments segs) = true → omap seg_name segs ≠ []).
Proof.
  intros HF. unfold render_segments. rewrite render_segments_app. cbn [app].
  induction HF as [|seg segs Hok _ [IH1 IH2]]; [done|]. rewrite fmap_cons. cbn [concat omap list_omap].
  rewrite !contains_app. destruct seg as [l|n|n]; cbn [seg_name render_segment].
  - destruct Hok as (_ & _ & H1 & H2).
    change (contains x7b (x2f :: l)) with (contains x7b l). change (contains x7d (x2f :: l)) with (contains x7d l).
    rewrite H1, H2. cbn [orb]. done.
  - split; [|done]. split; [done|]. intros _.
    change (contains x7b (x2f :: lit "{" ++ n ++ lit "}")) with true. done.
  - split; [|done]. split; [done|]. intros _.
    change (contains x7b (x2f :: lit "{*" ++ n ++ lit "}")) with true. done.
Qed.

Lemma parse_Ok pattern pat :
  parse pattern = Ok pat ↔
  (pat = Exact pattern ∧ contains x7b pattern = false ∧ contains x7d pattern = false)
  ∨ (∃ segs, pat = Segments segs ∧ RoutePattern.parse_pattern pattern = Ok (to_route <$> segs)
       ∧ length segs ≤ MAX_PATTERN_SEGMENTS ∧ Forall short (render_segment <$> (to_route <$> segs))).
Proof.
  unfold parse. setoid_rewrite parse_pattern_Ok.
  destruct (negb (contains x7b pattern) && negb (contains x7d pattern)) eqn:Eb.
  { apply andb_true_iff in Eb as [Eb1%negb_true_iff Eb2%negb_true_iff]. split.
    - intros [= <-]. by left.
    - intros [(-> & _)|(segs & -> & [Hok ->] & _)]; [done|]. destruct (po_param _ Hok).
      destruct (omap seg_name (to_route <$> segs)) eqn:E; [done|].
      destruct (render_braces _ (po_segs _ Hok)) as [[_ Hb] _].
      rewrite Hb in Eb1 by (by rewrite E). done. }
  assert (¬ (contains x7b pattern = false ∧ contains x7d pattern = false)) as Hbr.
  { intros [H1 H2]. by rewrite H1, H2 in Eb. }
  destruct (starts_with [x2f] pattern) eqn:Es; cbn [negb].
  2:{ split; [done|]. intros [(_ & ?)|(segs & -> & [Hok ->] & _)]; [done|].
      destruct segs as [|seg segs]; [by destruct (po_param _ Hok)|].
      rewrite fmap_cons, render_segments_join in Es. apply not_true_iff_false in Es. destruct Es.
      apply starts_with_spec. by eexists. }
  apply starts_with_spec in Es as [r ->]. rewrite strip_prefix_app. change (default ([x2f] ++ r) (Some r)) with r.
  destruct (Nat.ltb_spec MAX_PATTERN_SEGMENTS (length (split x2f r))) as [Hl|Hl].
  - split; [done|]. intros [(_ & Hb)|(segs & -> & [Hok E] & Hlen & _)]; [by destruct (Hbr Hb)|].
    destruct segs as [|seg segs]; [by destruct (po_param _ Hok)|].
    assert (r = join [x2f] (render_segment <$> (to_route <$> seg :: segs))) as ->.
    { rewrite fmap_cons, render_segments_join in E. by injection E. }
    rewrite split_join in Hl; [rewrite !length_fmap in Hl; cbn [length] in *; lia|done|].
    exact (render_no_slash _ (po_segs _ Hok)).
  - split.
    + intros (segs & H & [= <-])%rbind_Ok. right. exists segs.
      apply ws_parse_segments_Ok in H as (H1 & H2 & H3 & _ & H5); [|apply split_no_sep].
      assert (segs ≠ []) as Hne.
      { intros ->. by apply (split_not_nil x2f r). }
      assert ([x2f] ++ r = render_segments (to_route <$> segs)) as E.
      { destruct segs as [|seg segs]; [done|]. rewrite fmap_cons, render_segments_join.
        rewrite <- fmap_cons, <- H2. by rewrite join_split. }
      split; [done|]. split; [split; [|done]|split; [rewrite H2, !length_fmap in Hl; done|by rewrite <- H2]].
      split; [done|done| |apply wild_last_to_route].
      rewrite E in Hbr. intros En. apply Hbr. destruct (render_braces _ H1) as [[Hb1 _] Hb2].
      split; apply not_true_iff_false; [by intros ?%Hb1|by intros ?%Hb2].
    + intros [(_ & Hb)|(segs & -> & [[H1 H2 H3 _] E] & Hlen & Hsh)]; [by destruct (Hbr Hb)|].
      destruct segs as [|seg segs]; [done|].
      assert (r = join [x2f] (render_segment <$> (to_route <$> seg :: segs))) as ->.
      { rewrite fmap_cons, render_segments_join in E. by injection E. }
      rewrite split_join; [|done|].
      * rewrite (proj2 (ws_parse_segments_Ok [] _ (seg :: segs) (render_no_slash _ H1))); [done|]. split_and!; try done. set_solver.
      * by apply render_no_slash.
Qed.

(** The endpoint patterns of the WebSocket plugin are the route patterns of the router, through
    a parser and a matcher of their own.  A text without braces is that path.  Any other text is
    accepted exactly if the router accepts it as a pattern without wildcard, of at most 32
    segments of at most 256 bytes, with the same segments; and it matches a path exactly if the
    router's matcher does, with the same parameters, and no value is longer than 256 bytes. *)
Theorem ws_pattern_is_route_pattern pattern :
  (∀ pat, parse pattern = Ok pat ↔
    (pat = Exact pattern ∧ contains x7b pattern = false ∧ contains x7d pattern = false)
    ∨ (∃ segs, pat = Segments segs ∧ RoutePattern.parse_pattern pattern = Ok (to_route <$> segs)
         ∧ length segs ≤ MAX_PATTERN_SEGMENTS ∧ Forall short (render_segment <$> (to_route <$> segs))))
  ∧ (∀ path params, match_path (Exact pattern) path = Some params ↔ path = pattern ∧ params = [])
  ∧ (∀ segs path params, parse pattern = Ok (Segments segs) →
      match_path (Segments segs) path = Some params ↔
      ∃ ts, request_target_segments path = Some ts
        ∧ RoutePattern.match_segments (to_route <$> segs) ts path = Some params ∧ shorts params).
Proof.
  split; [intros pat; apply parse_Ok|]. split.
  - intros path params. cbn. destruct (str_eqb path pattern) eqn:E.
    + apply str_eqb_eq in E. naive_solver.
    + split; [done|]. intros [-> _]. by rewrite str_eqb_refl in E.
  - intros segs path params H. apply parse_Ok in H as [(? & _)|(segs' & [= <-] & Hp & _)]; [done|].
    apply parse_pattern_Ok in Hp as [Hok _]. apply match_segments_route; [apply Hok|].
    intros ->. by destruct (po_param _ Hok).
Qed.

Lemma ws_pattern_demo :
  match parse (lit "/ws/{room}/chat") with
  | Ok pat => match_path pat (lit "/ws/r1/chat") = Some [(lit "room", lit "r1")]
      ∧ match_path pat (lit "/ws/../chat") = None ∧ match_path pat (lit "/ws/r1/chat/") = None
  | Err _ => False
  end ∧ parse (lit "/ws/{*rest}") = Err (InvalidParamName (lit "*rest")).
Proof. by vm_compute. Qed.
