(* ===== verification/WsChannel.v ===== *)
(** * [plugin-websocket::handler]: the outbound channel of a session

    [WsSender] is shared by any number of tasks and by the session that reads the other end.
    Its state is what they share: the slots and the queue of the bounded channel, the
    [CloseState] under its mutex, and the two watch signals.  A call is a task that advances by
    one atomic step at a time (a lock, a poll), so that every interleaving is a run. *)

From stdpp Require Import relations.
From S2P Require Import Prelude Text Utf8.

Inductive WsMessage :=
| Text (t : bytes)
| Binary (b : bytes).
#[export] Instance WsMessage_eq_dec : EqDecision WsMessage.
Proof. solve_decision. Defined.

Inductive OutboundItem :=
| Message (msg : WsMessage)
| Close (code : N) (reason : bytes).
#[export] Instance OutboundItem_eq_dec : EqDecision OutboundItem.
Proof. solve_decision. Defined.

Inductive WsSendError := SendClosed.
Inductive WsTrySendError :=
| TryFull (msg : WsMessage)
| TryClosed (msg : WsMessage).
Inductive WsCloseError :=
| InvalidCode
| ReasonTooLong
| CloseClosed.

Definition DEFAULT_OUTBOUND_CAPACITY : N := 8.
Definition MAX_CLOSE_REASON_BYTES : N := 123.

Definition in_codes (lo hi code : N) : bool := ((lo <=? code) && (code <=? hi))%N.

Definition is_sendable_close_code (code : N) : bool :=
  in_codes 1000 1003 code || in_codes 1007 1009 code || in_codes 1011 1014 code
  || in_codes 3000 4999 code.

(** ** Calls *)

Inductive Operation :=
| OpSend (msg : WsMessage)
| OpTrySend (msg : WsMessage)
| OpClose (code : N) (reason : bytes).

Inductive Outcome :=
| OutSend (r : result unit WsSendError)
| OutTrySend (r : result unit WsTrySendError)
| OutClose (r : result unit WsCloseError).

(** Where a call is: before its first look at the channel, waiting for a slot, with a slot in
    hand, after a [Full], after the commit of a close, or about to return. *)
Inductive Stage :=
| AtEntry
| AtReserve
| AtPermit
| AtFull
| AtSignal
| AtEnd (r : Outcome).

Record Call := { c_op : Operation; c_stage : Stage }.

Record Channel := {
  ch_slots : N;
  ch_queue : list OutboundItem;
  ch_rx_closed : bool;
  closing : bool;
  pending_close_requests : N;
  close_request_signal : bool;
  closed_signal : bool;
  ch_calls : gmap nat Call;
  (** The calls that returned.  What was committed, by whom; what the session took out; what it
      dropped. *)
  ch_results : gmap nat (Operation * Outcome);
  ch_log : list (nat * OutboundItem);
  ch_received : list OutboundItem;
  ch_dropped : list OutboundItem;
}.

(** [channel(capacity)]. *)
Definition channel (capacity : N) : Channel :=
  {| ch_slots := N.max capacity 1; ch_queue := []; ch_rx_closed := false; closing := false;
     pending_close_requests := 0; close_request_signal := false; closed_signal := false;
     ch_calls := ∅; ch_results := ∅; ch_log := []; ch_received := []; ch_dropped := [] |}.

(** ** Updates *)

Definition set_stage (id : nat) (call : Call) (st : Stage) (s : Channel) : Channel :=
  {| ch_slots := ch_slots s; ch_queue := ch_queue s; ch_rx_closed := ch_rx_closed s;
     closing := closing s; pending_close_requests := pending_close_requests s;
     close_request_signal := close_request_signal s; closed_signal := closed_signal s;
     ch_calls := <[ id := {| c_op := c_op call; c_stage := st |} ]> (ch_calls s);
     ch_results := ch_results s; ch_log := ch_log s; ch_received := ch_received s;
     ch_dropped := ch_dropped s |}.
Definition set_slots (n : N) (s : Channel) : Channel :=
  {| ch_slots := n; ch_queue := ch_queue s; ch_rx_closed := ch_rx_closed s;
     closing := closing s; pending_close_requests := pending_close_requests s;
     close_request_signal := close_request_signal s; closed_signal := closed_signal s;
     ch_calls := ch_calls s; ch_results := ch_results s; ch_log := ch_log s;
     ch_received := ch_received s; ch_dropped := ch_dropped s |}.
Definition set_requests (pending : N) (signal : bool) (s : Channel) : Channel :=
  {| ch_slots := ch_slots s; ch_queue := ch_queue s; ch_rx_closed := ch_rx_closed s;
     closing := closing s; pending_close_requests := pending; close_request_signal := signal;
     closed_signal := closed_signal s; ch_calls := ch_calls s; ch_results := ch_results s;
     ch_log := ch_log s; ch_received := ch_received s; ch_dropped := ch_dropped s |}.
Definition set_closing (c sig : bool) (s : Channel) : Channel :=
  {| ch_slots := ch_slots s; ch_queue := ch_queue s; ch_rx_closed := ch_rx_closed s;
     closing := c; pending_close_requests := pending_close_requests s;
     close_request_signal := close_request_signal s; closed_signal := sig;
     ch_calls := ch_calls s; ch_results := ch_results s; ch_log := ch_log s;
     ch_received := ch_received s; ch_dropped := ch_dropped s |}.
Definition enqueue (id : nat) (item : OutboundItem) (s : Channel) : Channel :=
  {| ch_slots := ch_slots s; ch_queue := ch_queue s ++ [item]; ch_rx_closed := ch_rx_closed s;
     closing := closing s; pending_close_requests := pending_close_requests s;
     close_request_signal := close_request_signal s; closed_signal := closed_signal s;
     ch_calls := ch_calls s; ch_results := ch_results s; ch_log := ch_log s ++ [(id, item)];
     ch_received := ch_received s; ch_dropped := ch_dropped s |}.
Definition set_calls (cs : gmap nat Call) (rs : gmap nat (Operation * Outcome)) (s : Channel) : Channel :=
  {| ch_slots := ch_slots s; ch_queue := ch_queue s; ch_rx_closed := ch_rx_closed s;
     closing := closing s; pending_close_requests := pending_close_requests s;
     close_request_signal := close_request_signal s; closed_signal := closed_signal s;
     ch_calls := cs; ch_results := rs; ch_log := ch_log s;
     ch_received := ch_received s; ch_dropped := ch_dropped s |}.
Definition set_rx (closed : bool) (q received dropped : list OutboundItem) (s : Channel) : Channel :=
  {| ch_slots := ch_slots s; ch_queue := q; ch_rx_closed := closed;
     closing := closing s; pending_close_requests := pending_close_requests s;
     close_request_signal := close_request_signal s; closed_signal := closed_signal s;
     ch_calls := ch_calls s; ch_results := ch_results s; ch_log := ch_log s;
     ch_received := received; ch_dropped := dropped |}.

(** ** The operations *)

Definition is_close (op : Operation) : bool := match op with OpClose _ _ => true | _ => false end.
Definition item_of (op : Operation) : OutboundItem :=
  match op with
  | OpSend msg | OpTrySend msg => Message msg
  | OpClose code reason => Close code reason
  end.
Definition success (op : Operation) : Outcome :=
  match op with
  | OpSend _ => OutSend (Ok tt)
  | OpTrySend _ => OutTrySend (Ok tt)
  | OpClose _ _ => OutClose (Ok tt)
  end.
(** The error of a session that is closed. *)
Definition closed_error (op : Operation) : Outcome :=
  match op with
  | OpSend _ => OutSend (Err SendClosed)
  | OpTrySend msg => OutTrySend (Err (TryClosed msg))
  | OpClose _ _ => OutClose (Err CloseClosed)
  end.

(** [CloseRequest::new]: under the lock, with the signal. *)
Definition close_request_new (s : Channel) : Channel := set_requests (pending_close_requests s + 1) true s.
(** [impl Drop for CloseRequest]. *)
Definition close_request_drop (s : Channel) : Channel :=
  let pending := (pending_close_requests s - 1)%N in
  set_requests pending ((0 <? pending)%N || closing s) s.
Definition drop_request (op : Operation) (s : Channel) : Channel :=
  if is_close op then close_request_drop s else s.

(** The call begins; a close validates its arguments first. *)
Definition begin_call (id : nat) (op : Operation) (s : Channel) : Channel :=
  let start := {| c_op := op; c_stage := AtEntry |} in
  match op with
  | OpClose code reason =>
      if negb (is_sendable_close_code code)
      then set_calls (ch_calls s) (<[ id := (op, OutClose (Err InvalidCode)) ]> (ch_results s)) s
      else if (MAX_CLOSE_REASON_BYTES <? len reason)%N
      then set_calls (ch_calls s) (<[ id := (op, OutClose (Err ReasonTooLong)) ]> (ch_results s)) s
      else set_calls (<[ id := start ]> (ch_calls s)) (ch_results s) (close_request_new s)
  | _ => set_calls (<[ id := start ]> (ch_calls s)) (ch_results s) s
  end.

(** [reserve_or_closed] looks at the closed signal before it waits, and at every poll before it
    looks at the channel; [None] is pending.  [try_reserve] does not wait. *)
Definition reserve_entry (id : nat) (call : Call) (s : Channel) : Channel :=
  match c_op call with
  | OpTrySend msg =>
      if ch_rx_closed s then set_stage id call (AtEnd (OutTrySend (Err (TryClosed msg)))) s
      else if (ch_slots s =? 0)%N then set_stage id call AtFull s
      else set_stage id call AtPermit (set_slots (ch_slots s - 1) s)
  | op =>
      if closed_signal s then set_stage id call (AtEnd (closed_error op)) s
      else set_stage id call AtReserve s
  end.

Definition reserve_poll (id : nat) (call : Call) (s : Channel) : option Channel :=
  if closed_signal s || ch_rx_closed s then Some (set_stage id call (AtEnd (closed_error (c_op call))) s)
  else if (ch_slots s =? 0)%N then None
  else Some (set_stage id call AtPermit (set_slots (ch_slots s - 1) s)).

(** [commit_with]: under the lock, an item enters the queue unless the channel is closing, and a
    close makes it closing. *)
Definition commit_with (id : nat) (call : Call) (s : Channel) : Channel :=
  if closing s
  then set_stage id call (AtEnd (closed_error (c_op call))) (set_slots (ch_slots s + 1) s)
  else
    let closing_after := is_close (c_op call) in
    let s := enqueue id (item_of (c_op call)) (set_closing closing_after (closed_signal s) s) in
    set_stage id call (if closing_after then AtSignal else AtEnd (success (c_op call))) s.

(** The [Full] branch of [try_send]. *)
Definition full_error (op : Operation) (closing : bool) : Outcome :=
  match op with
  | OpTrySend msg => OutTrySend (Err (if closing then TryClosed msg else TryFull msg))
  | op => closed_error op
  end.

Definition call_step (id : nat) (call : Call) (s : Channel) : option Channel :=
  match c_stage call with
  | AtEntry => Some (reserve_entry id call s)
  | AtReserve => reserve_poll id call s
  | AtPermit => Some (commit_with id call s)
  | AtFull => Some (set_stage id call (AtEnd (full_error (c_op call) (closing s))) s)
  | AtSignal => Some (set_stage id call (AtEnd (success (c_op call))) (set_closing (closing s) true s))
  | AtEnd r =>
      Some (set_calls (delete id (ch_calls s)) (<[ id := (c_op call, r) ]> (ch_results s))
              (drop_request (c_op call) s))
  end.

(** The future of a call is dropped where it waits. *)
Definition abandon (id : nat) (call : Call) (s : Channel) : option Channel :=
  match c_stage call with
  | AtReserve => Some (set_calls (delete id (ch_calls s)) (ch_results s) (drop_request (c_op call) s))
  | _ => None
  end.

(** ** The session's end *)

Definition recv (s : Channel) : option Channel :=
  match ch_queue s with
  | item :: q =>
      Some (set_slots (ch_slots s + 1) (set_rx (ch_rx_closed s) q (ch_received s ++ [item]) (ch_dropped s) s))
  | [] => None
  end.

(** [seal_for_session] takes the lock, then signals. *)
Definition seal (s : Channel) : Channel := set_closing true (closed_signal s) s.
Definition seal_signal (s : Channel) : Channel := set_closing (closing s) true s.

(** [rx.close()] and the drop of [rx], both after a seal. *)
Definition rx_close (s : Channel) : Channel := set_rx true (ch_queue s) (ch_received s) (ch_dropped s) s.
Definition rx_drop (s : Channel) : Channel :=
  set_slots (ch_slots s + len (ch_queue s))
    (set_rx true [] (ch_received s) (ch_dropped s ++ ch_queue s) s).

Inductive Label :=
| LBegin (id : nat) (op : Operation)
| LStep (id : nat)
| LAbandon (id : nat)
| LRecv
| LSeal
| LSealSignal
| LRxClose
| LRxDrop.

Definition apply (l : Label) (s : Channel) : option Channel :=
  match l with
  | LBegin id op =>
      if bool_decide (is_Some (ch_calls s !! id) ∨ is_Some (ch_results s !! id) ∨ id ∈ (ch_log s).*1)
      then None else Some (begin_call id op s)
  | LStep id => ch_calls s !! id ≫= λ call, call_step id call s
  | LAbandon id => ch_calls s !! id ≫= λ call, abandon id call s
  | LRecv => recv s
  | LSeal => Some (seal s)
  | LSealSignal => if closing s then Some (seal_signal s) else None
  | LRxClose => if closing s then Some (rx_close s) else None
  | LRxDrop => if closing s then Some (rx_drop s) else None
  end.

Definition step (s s' : Channel) : Prop := ∃ l, apply l s = Some s'.
Definition reachable (capacity : N) (s : Channel) : Prop := rtc step (channel capacity) s.

(** [close_committed] and [is_closed]. *)
Definition close_committed (s : Channel) : bool := closing s.
Definition is_closed (s : Channel) : bool := closing s || ch_rx_closed s.

(** ** Counting calls *)

Definition count (f : Call → bool) (m : gmap nat Call) : N := N.of_nat (size (filter (λ p, f p.2 = true) m)).
Definition b2n (b : bool) : N := if b then 1 else 0.

Lemma count_insert f m id c : m !! id = None → count f (<[ id := c ]> m) = (count f m + b2n (f c))%N.
Proof.
  intros Hn. unfold count. destruct (f c) eqn:E; cbn [b2n].
  - rewrite map_filter_insert_True by done. rewrite map_size_insert_None; [lia|].
    apply map_lookup_filter_None. by left.
  - rewrite map_filter_insert_False by (cbn; congruence). rewrite delete_id by done. lia.
Qed.

Lemma count_delete f m id c : m !! id = Some c → (count f (delete id m) + b2n (f c))%N = count f m.
Proof.
  intros Hs. rewrite <- (insert_delete_id m id c Hs) at 2. rewrite count_insert; [done|].
  apply lookup_delete_eq.
Qed.

Lemma count_update f m id c c' :
  m !! id = Some c → (count f (<[ id := c' ]> m) + b2n (f c) = count f m + b2n (f c'))%N.
Proof.
  intros Hs. rewrite <- (insert_delete_eq m id c'), count_insert by apply lookup_delete_eq.
  rewrite <- (count_delete f m id c Hs). lia.
Qed.

Lemma count_empty f : count f ∅ = 0%N.
Proof. unfold count. by rewrite map_filter_empty, map_size_empty. Qed.

Lemma count_pos f m id c : m !! id = Some c → f c = true → (0 < count f m)%N.
Proof. intros Hs Hf. rewrite <- (count_delete f m id c Hs), Hf. cbn. lia. Qed.

(** ** The invariant *)

Definition holds_slot (c : Call) : bool := match c_stage c with AtPermit => true | _ => false end.
Definition requests (c : Call) : bool := is_close (c_op c).

Definition is_ok (r : Outcome) : bool :=
  match r with OutSend (Ok _) | OutTrySend (Ok _) | OutClose (Ok _) => true | _ => false end.

(** The outcomes of an operation. *)
Definition matches (op : Operation) (r : Outcome) : Prop :=
  match op, r with
  | OpSend _, OutSend _ | OpClose _ _, OutClose _ => True
  | OpTrySend msg, OutTrySend r => match r with Ok _ => True | Err (TryFull m | TryClosed m) => m = msg end
  | _, _ => False
  end.

Definition is_close_item (i : OutboundItem) : bool := match i with Close _ _ => true | _ => false end.

(** What the stage of a call says about the log. *)
Definition stage_ok (s : Channel) (id : nat) (c : Call) : Prop :=
  match c_stage c with
  | AtSignal => is_close (c_op c) = true ∧ (id, item_of (c_op c)) ∈ ch_log s
  | AtEnd r => matches (c_op c) r
      ∧ (if is_ok r then (id, item_of (c_op c)) ∈ ch_log s else id ∉ (ch_log s).*1)
  | AtFull => ∃ msg, c_op c = OpTrySend msg ∧ id ∉ (ch_log s).*1
  | AtReserve => (∀ msg, c_op c ≠ OpTrySend msg) ∧ id ∉ (ch_log s).*1
  | AtEntry | AtPermit => id ∉ (ch_log s).*1
  end.

Record inv (capacity : N) (s : Channel) : Prop := {
  inv_slots : (ch_slots s + count holds_slot (ch_calls s) + len (ch_queue s) = N.max capacity 1)%N;
  inv_pending : pending_close_requests s = count requests (ch_calls s);
  inv_signal_on : (0 < pending_close_requests s)%N → close_request_signal s = true;
  inv_signal_off : close_request_signal s = true → (0 < pending_close_requests s)%N ∨ closing s = true;
  inv_committed : existsb is_close_item (ch_log s).*2 = true → close_request_signal s = true ∧ closing s = true;
  inv_closed : closed_signal s = true → closing s = true;
  inv_rx : ch_rx_closed s = true → closing s = true;
  inv_last : ∀ l1 x l2, (ch_log s).*2 = l1 ++ x :: l2 → is_close_item x = true → l2 = [];
  inv_ids : NoDup (ch_log s).*1;
  inv_results : ∀ id p, ch_results s !! id = Some p →
    ch_calls s !! id = None ∧ stage_ok s id {| c_op := p.1; c_stage := AtEnd p.2 |};
  inv_calls : ∀ id c, ch_calls s !! id = Some c → stage_ok s id c;
  inv_fifo : (ch_log s).*2 = ch_received s ++ ch_dropped s ++ ch_queue s;
  inv_dropped : ch_dropped s ≠ [] → ch_queue s = [] ∧ closing s = true;
}.

Lemma inv_channel capacity : inv capacity (channel capacity).
Proof.
  split; cbn; rewrite ?count_empty; try done; try lia.
  - change (len (@nil OutboundItem)) with 0%N. lia.
  - intros l1 x l2 E. by destruct l1.
  - constructor.
Qed.

Definition move (id : nat) (call : Call) (st : Stage) (slots : N) (s : Channel) : Channel :=
  set_stage id call st (set_slots slots s).

Lemma set_slots_id s : set_slots (ch_slots s) s = s.
Proof. by destruct s. Qed.

(** A call goes to another stage, with or without the slot it had. *)
Lemma inv_move capacity id call st slots s :
  inv capacity s → ch_calls s !! id = Some call →
  (slots + b2n (holds_slot {| c_op := c_op call; c_stage := st |}) = ch_slots s + b2n (holds_slot call))%N →
  stage_ok s id {| c_op := c_op call; c_stage := st |} → inv capacity (move id call st slots s).
Proof.
  intros [] Hc Hs Hok. set (call' := {| c_op := c_op call; c_stage := st |}) in *.
  pose proof (count_update holds_slot _ _ _ call' Hc) as E1.
  pose proof (count_update requests _ _ _ call' Hc) as E2.
  change (requests call') with (requests call) in E2.
  unfold move. split; cbn; fold call'; auto; try lia.
  - intros id' r Hr. destruct (inv_results0 id' r Hr) as [H1 H2]. split; [|done].
    rewrite lookup_insert_ne; [done|congruence].
  - intros id' c [[<- <-]|[_ Hc']]%lookup_insert_Some; [done|]. by apply inv_calls0.
Qed.

Lemma inv_set_stage capacity id call st s :
  inv capacity s → ch_calls s !! id = Some call →
  holds_slot {| c_op := c_op call; c_stage := st |} = holds_slot call →
  stage_ok s id {| c_op := c_op call; c_stage := st |} → inv capacity (set_stage id call st s).
Proof.
  intros I Hc Hs Hok. rewrite <- (set_slots_id s) at 1. apply inv_move; [done..| |done]. by rewrite Hs.
Qed.

(** What a stage needs of the log does not depend on the rest of the channel. *)
Lemma stage_ok_log s s' id c : ch_log s' = ch_log s → stage_ok s id c → stage_ok s' id c.
Proof. unfold stage_ok. by intros ->. Qed.

Lemma closed_error_ok op : is_ok (closed_error op) = false ∧ matches op (closed_error op).
Proof. by destruct op. Qed.
Lemma success_ok op : is_ok (success op) = true ∧ matches op (success op).
Proof. by destruct op. Qed.

Lemma closed_end_ok s id call :
  id ∉ (ch_log s).*1 → stage_ok s id {| c_op := c_op call; c_stage := AtEnd (closed_error (c_op call)) |}.
Proof. intros H. unfold stage_ok. cbn. destruct (closed_error_ok (c_op call)) as [-> ?]. done. Qed.

Lemma inv_reserve_entry capacity id call s :
  inv capacity s → ch_calls s !! id = Some call → c_stage call = AtEntry →
  inv capacity (reserve_entry id call s).
Proof.
  intros I Hc Hst. pose proof (inv_calls _ _ I id call Hc) as Hok. unfold stage_ok in Hok. rewrite Hst in Hok.
  assert (holds_slot call = false) as Hh by (unfold holds_slot; by rewrite Hst).
  assert (∀ op, c_op call = op → (∀ msg, op ≠ OpTrySend msg) →
    inv capacity (if closed_signal s then set_stage id call (AtEnd (closed_error op)) s
                  else set_stage id call AtReserve s)) as Hwait.
  { intros op <- Hne. destruct (closed_signal s);
      (apply inv_set_stage; [done|done|by rewrite Hh|]); [by apply closed_end_ok|done]. }
  unfold reserve_entry. destruct (c_op call) as [msg|msg|code reason] eqn:Eop; [by apply Hwait| |by apply Hwait].
  destruct (ch_rx_closed s).
  { apply inv_set_stage; [done|done|by rewrite Hh|]. unfold stage_ok. cbn. by rewrite Eop. }
  destruct (N.eqb_spec (ch_slots s) 0).
  - apply inv_set_stage; [done|done|by rewrite Hh|]. unfold stage_ok. cbn. rewrite Eop. by exists msg.
  - apply inv_move; [done|done| |done]. rewrite Hh. cbn. lia.
Qed.

Lemma inv_reserve_poll capacity id call s s' :
  inv capacity s → ch_calls s !! id = Some call → c_stage call = AtReserve →
  reserve_poll id call s = Some s' → inv capacity s'.
Proof.
  intros I Hc Hst E. pose proof (inv_calls _ _ I id call Hc) as Hok. unfold stage_ok in Hok. rewrite Hst in Hok.
  assert (holds_slot call = false) as Hh by (unfold holds_slot; by rewrite Hst).
  unfold reserve_poll in E. destruct (_ || _).
  - injection E as <-. apply inv_set_stage; [done|done|by rewrite Hh|]. apply closed_end_ok, Hok.
  - destruct (N.eqb_spec (ch_slots s) 0); [done|]. injection E as <-.
    apply inv_move; [done|done| |apply Hok]. rewrite Hh. cbn. lia.
Qed.

Lemma stage_ok_other s s' id id' c item :
  ch_log s' = ch_log s ++ [(id, item)] → id' ≠ id → stage_ok s id' c → stage_ok s' id' c.
Proof.
  intros E Hne. unfold stage_ok. rewrite E, fmap_app. cbn [fmap list_fmap fst].
  assert (id' ∉ (ch_log s).*1 → id' ∉ (ch_log s).*1 ++ [id]) as Hn by set_solver.
  destruct (c_stage c) as [| | | | |r]; [done|naive_solver|done|naive_solver|set_solver|].
  destruct (is_ok r); intros [? ?]; (split; [done|]); [set_solver|auto].
Qed.

Lemma inv_commit_with capacity id call s :
  inv capacity s → ch_calls s !! id = Some call → c_stage call = AtPermit →
  inv capacity (commit_with id call s).
Proof.
  intros I Hc Hst. pose proof (inv_calls _ _ I id call Hc) as Hok. unfold stage_ok in Hok. rewrite Hst in Hok.
  assert (holds_slot call = true) as Hh by (unfold holds_slot; by rewrite Hst).
  unfold commit_with. destruct (closing s) eqn:Ec.
  { apply inv_move; [done|done|rewrite Hh; cbn; lia|]. by apply closed_end_ok. }
  set (st := if is_close (c_op call) then AtSignal else AtEnd (success (c_op call))).
  set (s1 := enqueue id (item_of (c_op call)) (set_closing (is_close (c_op call)) (closed_signal s) s)).
  set (call' := {| c_op := c_op call; c_stage := st |}).
  assert (holds_slot call' = false) as Hh' by (unfold call', st, holds_slot; cbn; by destruct (is_close _)).
  pose proof (count_update holds_slot _ _ _ call' Hc) as E1.
  pose proof (count_update requests _ _ _ call' Hc) as E2.
  change (requests call') with (requests call) in E2. rewrite Hh, Hh' in E1. cbn [b2n] in E1.
  assert (is_close_item (item_of (c_op call)) = is_close (c_op call)) as Hit by (by destruct (c_op call)).
  assert (existsb is_close_item (ch_log s).*2 = false) as Hno.
  { apply not_true_iff_false. intros H. apply (inv_committed _ _ I) in H as [_ ?]. congruence. }
  destruct I. split; cbn; fold call'; auto; try lia.
  - unfold len in *. rewrite length_app. cbn. lia.
  - intros Hs. destruct (inv_signal_off0 Hs) as [?|?]; [by left|congruence].
  - rewrite fmap_app, existsb_app, Hno. cbn [fmap list_fmap existsb orb snd]. rewrite Hit, orb_false_r.
    intros Hcl. split; [|done]. apply inv_signal_on0. rewrite inv_pending0. by apply (count_pos _ _ id call).
  - intros H. rewrite inv_closed0 in Ec by done. done.
  - intros H. rewrite inv_rx0 in Ec by done. done.
  - intros l1 x l2. rewrite fmap_app. cbn [fmap list_fmap snd]. intros E Hx.
    destruct l2 as [|y l2 _] using rev_ind; [done|]. exfalso.
    rewrite app_comm_cons, (assoc_L (++)) in E. apply app_inj_tail in E as [E _].
    apply not_true_iff_false in Hno. apply Hno. rewrite E, existsb_app. cbn. rewrite Hx. by rewrite orb_true_r.
  - rewrite fmap_app. apply NoDup_app. split; [done|]. split; [set_solver|apply NoDup_singleton].
  - intros id' r Hr. destruct (inv_results0 id' r Hr) as [H1 H2].
    assert (id' ≠ id) as Hne by congruence. rewrite lookup_insert_ne by done. split; [done|].
    exact (stage_ok_other s s1 id id' _ (item_of (c_op call)) eq_refl Hne H2).
  - intros id' c [[<- <-]|[Hne Hc']]%lookup_insert_Some.
    + unfold stage_ok, call', st. cbn. destruct (is_close (c_op call)) eqn:Ecl; cbn [c_stage].
      * split; [done|set_solver].
      * destruct (success_ok (c_op call)) as [-> ?]. split; [done|set_solver].
    + exact (stage_ok_other s s1 id id' _ (item_of (c_op call)) eq_refl (not_eq_sym Hne) (inv_calls0 id' c Hc')).
  - by rewrite fmap_app, inv_fifo0, !(assoc_L (++)).
  - intros Hd. destruct (inv_dropped0 Hd) as [_ ?]. congruence.
Qed.

(** Changes that only close further keep the invariant. *)
Lemma inv_set_closing capacity sig s :
  inv capacity s → (closed_signal s = true → sig = true) → inv capacity (set_closing true sig s).
Proof.
  intros [] Hs. split; cbn; auto.
  - intros H. by destruct (inv_committed0 H).
  - intros H. by destruct (inv_dropped0 H).
Qed.

(** A call leaves: with a result, or abandoned. *)
Lemma inv_call_leave capacity id call rs s :
  inv capacity s → ch_calls s !! id = Some call → holds_slot call = false →
  (rs = ch_results s ∨ ∃ r, rs = <[ id := (c_op call, r) ]> (ch_results s) ∧ c_stage call = AtEnd r) →
  inv capacity (set_calls (delete id (ch_calls s)) rs (drop_request (c_op call) s)).
Proof.
  intros I Hc Hh Hrs. pose proof (count_delete holds_slot _ _ _ Hc) as E1. rewrite Hh in E1. cbn in E1.
  pose proof (count_delete requests _ _ _ Hc) as E2. unfold requests at 2 in E2.
  assert (inv_calls' : ∀ id' c, delete id (ch_calls s) !! id' = Some c → stage_ok s id' c).
  { intros id' c [_ H]%lookup_delete_Some. by apply (inv_calls _ _ I). }
  assert (inv_results' : ∀ id' p, rs !! id' = Some p →
    delete id (ch_calls s) !! id' = None ∧ stage_ok s id' {| c_op := p.1; c_stage := AtEnd p.2 |}).
  { intros id' p Hp.
    assert (∀ p, ch_results s !! id' = Some p →
      delete id (ch_calls s) !! id' = None ∧ stage_ok s id' {| c_op := p.1; c_stage := AtEnd p.2 |}) as Hold.
    { intros p' H. destruct (inv_results _ _ I id' p' H). split; [|done]. apply lookup_delete_None. by right. }
    destruct Hrs as [->|(r0 & -> & H0)]; [by apply Hold|].
    apply lookup_insert_Some in Hp as [[<- <-]|[Hne Hp]]; [|by apply Hold]. split; [apply lookup_delete_eq|].
    pose proof (inv_calls _ _ I id call Hc) as Hok.
    assert (call = {| c_op := c_op call; c_stage := AtEnd r0 |}) as E0 by (rewrite <- H0; by destruct call).
    rewrite E0 in Hok. exact Hok. }
  destruct I. unfold drop_request, close_request_drop in *. destruct (is_close (c_op call)); cbn [b2n] in E2.
  - split; cbn; auto; try lia.
    + intros H. apply N.ltb_lt in H. by rewrite H.
    + intros [?%N.ltb_lt|?]%orb_true_iff; auto.
    + intros H. destruct (inv_committed0 H) as [_ Hcl]. rewrite Hcl. by rewrite orb_true_r.
  - split; cbn; auto; lia.
Qed.

Lemma inv_begin_call capacity id op s :
  inv capacity s → ch_calls s !! id = None → ch_results s !! id = None → id ∉ (ch_log s).*1 →
  inv capacity (begin_call id op s).
Proof.
  intros I Hc Hr Hl.
  assert (∀ r, is_ok r = false → matches op r →
    inv capacity (set_calls (ch_calls s) (<[ id := (op, r) ]> (ch_results s)) s)) as Hrej.
  { intros r Hk Hm. destruct I. split; cbn; auto.
    intros id' r' [[<- <-]|[Hne H]]%lookup_insert_Some; [|exact (inv_results0 _ _ H)].
    split; [done|]. unfold stage_ok. cbn. by rewrite Hk. }
  pose proof (count_insert holds_slot _ id {| c_op := op; c_stage := AtEntry |} Hc) as E1.
  pose proof (count_insert requests _ id {| c_op := op; c_stage := AtEntry |} Hc) as E2.
  assert (Hcalls : ∀ id' c, <[ id := {| c_op := op; c_stage := AtEntry |} ]> (ch_calls s) !! id' = Some c → stage_ok s id' c).
  { intros id' c [[<- <-]|[_ H]]%lookup_insert_Some; [done|by apply (inv_calls _ _ I)]. }
  assert (Hres : ∀ id' p, ch_results s !! id' = Some p →
    <[ id := {| c_op := op; c_stage := AtEntry |} ]> (ch_calls s) !! id' = None
    ∧ stage_ok s id' {| c_op := p.1; c_stage := AtEnd p.2 |}).
  { intros id' r H. destruct (inv_results _ _ I id' r H). split; [|done].
    rewrite lookup_insert_ne; [done|congruence]. }
  unfold begin_call. destruct op as [msg|msg|code reason].
  - destruct I. split; cbn in *; auto; lia.
  - destruct I. split; cbn in *; auto; lia.
  - destruct (is_sendable_close_code code); cbn [negb]; [|by apply Hrej].
    destruct (_ <? _)%N; [by apply Hrej|]. destruct I. split; cbn in *; auto; try lia.
    intros H. by destruct (inv_committed0 H).
Qed.

Lemma inv_recv capacity s s' : inv capacity s → recv s = Some s' → inv capacity s'.
Proof.
  unfold recv. intros [] E. destruct (ch_queue s) as [|item q] eqn:Eq; [done|]. injection E as <-.
  unfold len in *. cbn [length] in *.
  split; cbn; auto; try (unfold len; lia).
  - rewrite inv_fifo0. destruct (ch_dropped s) as [|d ds] eqn:Ed; [by rewrite <- (assoc_L (++))|].
    by destruct (inv_dropped0 ltac:(done)).
  - intros H. by destruct (inv_dropped0 H).
Qed.

Lemma inv_rx_drop capacity s : inv capacity s → closing s = true → inv capacity (rx_drop s).
Proof.
  intros [] Hc. split; cbn; auto.
  - unfold len in *. cbn. lia.
  - by rewrite app_nil_r, inv_fifo0, !(assoc_L (++)).
Qed.

Lemma inv_apply capacity l s s' : inv capacity s → apply l s = Some s' → inv capacity s'.
Proof.
  intros I E. destruct l as [id op|id|id| | | | |]; cbn [apply] in E.
  - case_bool_decide as Hb; [done|]. injection E as <-.
    apply inv_begin_call; [done|..]; [apply eq_None_not_Some|apply eq_None_not_Some|]; naive_solver.
  - destruct (ch_calls s !! id) as [call|] eqn:Hc; [|done]. cbn in E.
    pose proof (inv_calls _ _ I id call Hc) as Hok. unfold stage_ok in Hok.
    assert (∀ st, c_stage call = st → holds_slot call = match st with AtPermit => true | _ => false end) as Hh.
    { intros st <-. done. }
    unfold call_step in E. destruct (c_stage call) as [| | | | |r] eqn:Hst; specialize (Hh _ eq_refl).
    + injection E as <-. by apply inv_reserve_entry.
    + by eapply inv_reserve_poll.
    + injection E as <-. by apply inv_commit_with.
    + injection E as <-. apply inv_set_stage; [done|done|by rewrite Hh|].
      destruct Hok as (msg & Eop & Hn). unfold stage_ok. cbn. rewrite Eop. by destruct (closing s).
    + injection E as <-. destruct Hok as [Hcl Hin].
      assert (closing s = true) as Hclosing.
      { apply (inv_committed _ _ I). apply existsb_exists. exists (item_of (c_op call)).
        split; [|by destruct (c_op call)]. apply list_elem_of_In, list_elem_of_fmap. by exists (id, item_of (c_op call)). }
      rewrite Hclosing. apply inv_set_stage; [by apply inv_set_closing|done|by rewrite Hh|].
      unfold stage_ok. cbn. destruct (success_ok (c_op call)) as [-> ?]. done.
    + injection E as <-. apply inv_call_leave; [done..|]. right. by exists r.
  - destruct (ch_calls s !! id) as [call|] eqn:Hc; [|done]. cbn in E. unfold abandon in E.
    destruct (c_stage call) eqn:Hst; try done. injection E as <-.
    apply inv_call_leave; [done|done|unfold holds_slot; by rewrite Hst|by left].
  - by eapply inv_recv.
  - injection E as <-. by apply inv_set_closing.
  - destruct (closing s) eqn:Hc; [|done]. injection E as <-. unfold seal_signal. rewrite Hc. by apply inv_set_closing.
  - destruct (closing s) eqn:Hc; [|done]. injection E as <-. by destruct I; split.
  - destruct (closing s) eqn:Hc; [|done]. injection E as <-. by apply inv_rx_drop.
Qed.

Lemma channel_inv capacity s : reachable capacity s → inv capacity s.
Proof.
  intros H. unfold reachable in H. remember (channel capacity) as s0 eqn:E0.
  assert (inv capacity s0) as I by (subst; apply inv_channel). clear E0.
  induction H as [|s1 s2 s3 [l E] _ IH]; [done|]. apply IH. by eapply inv_apply.
Qed.

(** ** What the channel promises *)

Lemma closing_step s s' : step s s' → closing s = true → closing s' = true ∧ ch_log s' = ch_log s.
Proof.
  intros [l E] Hc. destruct l as [id op|id|id| | | | |]; cbn [apply] in E.
  - case_bool_decide; [done|]. injection E as <-. unfold begin_call.
    destruct op as [| |code reason]; [done..|]. by repeat case_match.
  - destruct (ch_calls s !! id) as [call|]; [|done]. cbn in E. unfold call_step in E.
    destruct (c_stage call); [| | | | |]; try (injection E as <-).
    + unfold reserve_entry. by repeat case_match.
    + unfold reserve_poll in E. by repeat case_match; simplify_eq.
    + unfold commit_with. by rewrite Hc.
    + done.
    + done.
    + unfold drop_request. by case_match.
  - destruct (ch_calls s !! id) as [call|]; [|done]. cbn in E. unfold abandon in E.
    destruct (c_stage call); try done. injection E as <-. unfold drop_request. by case_match.
  - unfold recv in E. destruct (ch_queue s); [done|]. by injection E as <-.
  - by injection E as <-.
  - rewrite Hc in E. by injection E as <-.
  - rewrite Hc in E. by injection E as <-.
  - rewrite Hc in E. by injection E as <-.
Qed.

(** C23: Whatever the interleaving of senders, closers and the session: what was committed arrives
    in the order of the commits, each item once, unless the receiver is dropped, which it is only
    after the channel is sealed; a call returns [Ok] exactly if its own item was committed, and an
    error, which hands the message of a [try_send] back, exactly if nothing of it was; at most one
    close is ever committed and nothing after it; and from the seal on nothing is committed. *)
Theorem outbound_channel_faithful capacity s :
  reachable capacity s →
  (ch_log s).*2 = ch_received s ++ ch_dropped s ++ ch_queue s
  ∧ (ch_dropped s ≠ [] → closing s = true)
  ∧ NoDup (ch_log s).*1
  ∧ (∀ id op r, ch_results s !! id = Some (op, r) →
      matches op r ∧ if is_ok r then (id, item_of op) ∈ ch_log s else id ∉ (ch_log s).*1)
  ∧ (∀ l1 code reason l2, (ch_log s).*2 = l1 ++ Close code reason :: l2 → l2 = [])
  ∧ (closing s = true → ∀ s', rtc step s s' → ch_log s' = ch_log s).
Proof.
  intros H. pose proof (channel_inv capacity s H) as I. split_and!.
  - apply I.
  - intros Hd. by destruct (inv_dropped _ _ I Hd).
  - apply I.
  - intros id op r Hr. by destruct (inv_results _ _ I id (op, r) Hr).
  - intros l1 code reason l2 E. by apply (inv_last _ _ I l1 (Close code reason) l2).
  - intros Hc s' Hs. clear H I. induction Hs as [|s1 s2 s3 H12 _ IH]; [done|].
    destruct (closing_step _ _ H12 Hc) as [Hc2 <-]. by apply IH.
Qed.

(** The channel is bounded and its close request signal is exact.  Free slots, slots in the hands
    of senders and queued items always make up the capacity, so that the queue is never longer;
    the signal that bounds the writes of the session is up while a close waits for its slot and
    for good once one is committed, and it is down again when all waiting closes gave up, unless
    the channel is sealed. *)
Theorem outbound_channel_bounded capacity s :
  reachable capacity s →
  (ch_slots s + count holds_slot (ch_calls s) + len (ch_queue s) = N.max capacity 1)%N
  ∧ (len (ch_queue s) <= N.max capacity 1)%N
  ∧ pending_close_requests s = count requests (ch_calls s)
  ∧ (∀ id call, ch_calls s !! id = Some call → is_close (c_op call) = true → close_request_signal s = true)
  ∧ (∀ id code reason, (id, Close code reason) ∈ ch_log s → close_request_signal s = true)
  ∧ (close_request_signal s = true → (0 < count requests (ch_calls s))%N ∨ closing s = true).
Proof.
  intros H. pose proof (channel_inv capacity s H) as I. pose proof (inv_slots _ _ I) as E.
  split_and!; [done|lia|apply I| | |rewrite <- (inv_pending _ _ I); apply I].
  - intros id call Hc Hcl. apply (inv_signal_on _ _ I). rewrite (inv_pending _ _ I).
    by apply (count_pos _ _ id call).
  - intros id code reason Hin. apply (inv_committed _ _ I). apply existsb_exists.
    exists (Close code reason). split; [|done]. apply list_elem_of_In, list_elem_of_fmap.
    by exists (id, Close code reason).
Qed.

(** ** A run *)

Fixpoint run (ls : list Label) (s : Channel) : option Channel :=
  match ls with
  | [] => Some s
  | l :: ls => apply l s ≫= run ls
  end.

Lemma channel_run_reach ls s s' : run ls s = Some s' → rtc step s s'.
Proof.
  revert s. induction ls as [|l ls IH]; intros s E; cbn in E; [by injection E as <-|].
  destruct (apply l s) as [s1|] eqn:E1; [|done]. apply (rtc_l _ _ s1); [by exists l|]. by apply IH.
Qed.

(** One slot: a message is queued, a close waits, a [try_send] finds the queue full; when the
    session has taken the message, the close is committed. *)
Definition demo_labels : list Label :=
  [LBegin 0 (OpSend (Text (lit "a"))); LStep 0; LStep 0; LStep 0; LBegin 1 (OpClose 1000 (lit "bye")); LStep 1;
   LBegin 2 (OpTrySend (Text (lit "b"))); LStep 2; LStep 2; LStep 2; LBegin 3 (OpClose 1005 []); LRecv;
   LStep 0; LStep 1; LStep 1].
Definition demo_channel : Channel := default (channel 1) (run demo_labels (channel 1)).

Lemma demo_channel_state :
  ch_queue demo_channel = [Close 1000 (lit "bye")] ∧ ch_received demo_channel = [Message (Text (lit "a"))]
  ∧ ch_results demo_channel !! 2 = Some (OpTrySend (Text (lit "b")), OutTrySend (Err (TryFull (Text (lit "b")))))
  ∧ ch_results demo_channel !! 3 = Some (OpClose 1005 [], OutClose (Err InvalidCode))
  ∧ closing demo_channel = true ∧ close_request_signal demo_channel = true.
Proof. by vm_compute. Qed.

Lemma demo_channel_reachable : reachable 1 demo_channel.
Proof. apply (channel_run_reach demo_labels). by vm_compute. Qed.

Lemma outbound_channel_faithful_witness :
  (ch_log demo_channel).*2 = [Message (Text (lit "a")); Close 1000 (lit "bye")]
  ∧ ∀ s', rtc step demo_channel s' → ch_log s' = ch_log demo_channel.
Proof.
  split; [by vm_compute|].
  destruct (outbound_channel_faithful 1 demo_channel demo_channel_reachable) as (_ & _ & _ & _ & _ & H).
  apply H. by vm_compute.
Defined.

Lemma outbound_channel_bounded_witness :
  (len (ch_queue demo_channel) <= 1)%N ∧ pending_close_requests demo_channel = 1%N.
Proof.
  split; [|by vm_compute].
  exact (proj1 (proj2 (outbound_channel_bounded 1 demo_channel demo_channel_reachable))).
Defined.
