(* ===== verification/WsConfig.v ===== *)
(** * [plugin-websocket]: configuration, handlers and contexts

    The settings of an endpoint with their builder, the handler an application implements as a
    record of functions, and what a handler learns about the connection.  The invariant
    [config_wf] of the settings that only the builder can change is kept by every builder. *)

From S2P Require Import Prelude Text Utf8 Extensions Request Response Gate ServerConfig.
From S2P Require Import RoutePattern WsPattern WsChannel.

Definition DEFAULT_IDLE_TIMEOUT : Duration := from_secs 60.
Definition DEFAULT_CLOSE_GRACE : Duration := from_secs 10.
Definition MAX_OUTBOUND_CAPACITY : N := 4096.
Definition MAX_CONTEXT_HEADER_VALUE_BYTES : N := 1024.
Definition MAX_CONTEXT_QUERY_BYTES : N := 2048.

Record PingKeepalive := { ping_interval_ : Duration; pong_timeout_ : Duration }.

Inductive OutboundCapacityError := CapZero | CapTooLarge.
Inductive PingIntervalError := ZeroInterval | ZeroPongTimeout.

Inductive FailureKind := FailIo | FailProtocol | FailHandler.
Inductive CloseReason :=
| ClientClose
| ReasonEof
| IdleTimeout
| Cancelled
| HandlerClose
| MessageTooLarge
| Failed (kind : FailureKind)
| SenderClose
| PongTimeout.

(** What a handler answers to a message. *)
Inductive WsOutcome :=
| Reply (messages : list WsMessage)
| CloseOutcome.

(** [WsHandlerError] wraps an error of the application. *)
Definition WsHandlerError : Type := bytes.

Section config.
Context {AT : AnyTypes}.

(** ** Contexts *)

(** [ConnRequestInfo]: what of the upgrade request outlives it. *)
Record ConnRequestInfo := {
  info_peer_addr : option SocketAddr;
  info_host : option bytes;
  info_origin : option bytes;
  info_user_agent : option bytes;
  info_query : option bytes;
  info_extensions : RequestExtensions;
}.

Definition bounded_header_value (head : RequestHead) (name : bytes) : option bytes :=
  opt_filter (λ v, (len v <=? MAX_CONTEXT_HEADER_VALUE_BYTES)%N) (header head name).

Definition from_head (head : RequestHead) (peer_addr : option SocketAddr) : ConnRequestInfo :=
  {| info_peer_addr := peer_addr;
     info_host := bounded_header_value head (lit "host");
     info_origin := bounded_header_value head (lit "origin");
     info_user_agent := bounded_header_value head (lit "user-agent");
     info_query := opt_filter (λ q, (len q <=? MAX_CONTEXT_QUERY_BYTES)%N) (query head);
     info_extensions := extensions head |}.

(** [WsConnContext], and [WsOpenContext] which has the same fields; the sender is the channel. *)
Record WsConnContext := {
  conn_id : N;
  conn_params : list (bytes * bytes);
  conn_info : ConnRequestInfo;
}.

Definition conn_param (name : bytes) (self : WsConnContext) : option bytes :=
  snd <$> List.find (λ p, str_eqb p.1 name) (conn_params self).

(** [WsConnId::next]: a 64-bit counter that wraps around. *)
Definition conn_id_next (counter : N) : N * N := (counter, ((counter + 1) mod 2 ^ 64)%N).

(** [WsHandshakeContext]. *)
Record WsHandshakeContext := {
  hs_head : RequestHead;
  hs_params : PathParams;
  hs_peer_addr : option SocketAddr;
}.

(** [WsHandshakeContext::header]: only a header that occurs once. *)
Definition hs_header (name : bytes) (self : WsHandshakeContext) : option bytes :=
  match snd <$> List.filter (λ kv, eq_ignore_ascii_case kv.1 name) (headers (hs_head self)) with
  | [first] => Some first
  | _ => None
  end.

Definition hs_param (name : bytes) (self : WsHandshakeContext) : option bytes :=
  params_get name (hs_params self).

(** ** Handlers *)

(** [trait WsMessageHandler]: the answer to the [k]-th message of a session, in any time. *)
Record WsMessageHandler := {
  handler_name : bytes;
  on_message : nat → WsConnContext → WsMessage → result WsOutcome WsHandlerError;
}.

(** [EchoHandler], the default. *)
Definition echo_handler : WsMessageHandler :=
  {| handler_name := lit "echo"; on_message _ _ msg := Ok (Reply [msg]) |}.

(** ** [WebSocketConfig] *)

Record WsConfig := {
  ws_path : bytes;
  max_message_size : N;
  max_frame_size : N;
  idle_timeout : option Duration;
  close_grace : Duration;
  ws_handler : WsMessageHandler;
  ws_pattern : option PathPattern;
  outbound_capacity : N;
  ws_ping : option PingKeepalive;
  handshake_check : option (WsHandshakeContext → result unit Response);
}.

(** [impl Default]. *)
Definition ws_default : WsConfig :=
  {| ws_path := lit "/ws"; max_message_size := 1024 * 1024; max_frame_size := 256 * 1024;
     idle_timeout := Some DEFAULT_IDLE_TIMEOUT; close_grace := DEFAULT_CLOSE_GRACE;
     ws_handler := echo_handler; ws_pattern := None;
     outbound_capacity := DEFAULT_OUTBOUND_CAPACITY; ws_ping := None; handshake_check := None |}.

Definition set_route (path : bytes) (pattern : option PathPattern) (self : WsConfig) : WsConfig :=
  {| ws_path := path; max_message_size := max_message_size self;
     max_frame_size := max_frame_size self; idle_timeout := idle_timeout self;
     close_grace := close_grace self; ws_handler := ws_handler self; ws_pattern := pattern;
     outbound_capacity := outbound_capacity self; ws_ping := ws_ping self;
     handshake_check := handshake_check self |}.

Definition with_path (path : bytes) (self : WsConfig) : WsConfig := set_route path None self.

Definition with_path_pattern (pattern : bytes) (self : WsConfig) : result WsConfig PathPatternError :=
  let? parsed := parse pattern in
  Ok (set_route pattern (Some parsed) self).

Definition with_max_message_size (n : N) (self : WsConfig) : WsConfig :=
  {| ws_path := ws_path self; max_message_size := n;
     max_frame_size := max_frame_size self; idle_timeout := idle_timeout self;
     close_grace := close_grace self; ws_handler := ws_handler self; ws_pattern := ws_pattern self;
     outbound_capacity := outbound_capacity self; ws_ping := ws_ping self;
     handshake_check := handshake_check self |}.

Definition with_max_frame_size (n : N) (self : WsConfig) : WsConfig :=
  {| ws_path := ws_path self; max_message_size := max_message_size self;
     max_frame_size := n; idle_timeout := idle_timeout self;
     close_grace := close_grace self; ws_handler := ws_handler self; ws_pattern := ws_pattern self;
     outbound_capacity := outbound_capacity self; ws_ping := ws_ping self;
     handshake_check := handshake_check self |}.

Definition set_idle_timeout (t : option Duration) (self : WsConfig) : WsConfig :=
  {| ws_path := ws_path self; max_message_size := max_message_size self;
     max_frame_size := max_frame_size self; idle_timeout := t;
     close_grace := close_grace self; ws_handler := ws_handler self; ws_pattern := ws_pattern self;
     outbound_capacity := outbound_capacity self; ws_ping := ws_ping self;
     handshake_check := handshake_check self |}.
Definition with_idle_timeout (t : Duration) (self : WsConfig) : WsConfig := set_idle_timeout (Some t) self.
Definition without_idle_timeout (self : WsConfig) : WsConfig := set_idle_timeout None self.

Definition with_close_grace (d : Duration) (self : WsConfig) : WsConfig :=
  {| ws_path := ws_path self; max_message_size := max_message_size self;
     max_frame_size := max_frame_size self; idle_timeout := idle_timeout self;
     close_grace := d; ws_handler := ws_handler self; ws_pattern := ws_pattern self;
     outbound_capacity := outbound_capacity self; ws_ping := ws_ping self;
     handshake_check := handshake_check self |}.

Definition with_handler (h : WsMessageHandler) (self : WsConfig) : WsConfig :=
  {| ws_path := ws_path self; max_message_size := max_message_size self;
     max_frame_size := max_frame_size self; idle_timeout := idle_timeout self;
     close_grace := close_grace self; ws_handler := h; ws_pattern := ws_pattern self;
     outbound_capacity := outbound_capacity self; ws_ping := ws_ping self;
     handshake_check := handshake_check self |}.

Definition with_outbound_capacity (capacity : N) (self : WsConfig) : result WsConfig OutboundCapacityError :=
  if (capacity =? 0)%N then Err CapZero
  else if (MAX_OUTBOUND_CAPACITY <? capacity)%N then Err CapTooLarge
  else Ok
    {| ws_path := ws_path self; max_message_size := max_message_size self;
       max_frame_size := max_frame_size self; idle_timeout := idle_timeout self;
       close_grace := close_grace self; ws_handler := ws_handler self; ws_pattern := ws_pattern self;
       outbound_capacity := capacity; ws_ping := ws_ping self;
       handshake_check := handshake_check self |}.

Definition set_ping (p : option PingKeepalive) (self : WsConfig) : WsConfig :=
  {| ws_path := ws_path self; max_message_size := max_message_size self;
     max_frame_size := max_frame_size self; idle_timeout := idle_timeout self;
     close_grace := close_grace self; ws_handler := ws_handler self; ws_pattern := ws_pattern self;
     outbound_capacity := outbound_capacity self; ws_ping := p;
     handshake_check := handshake_check self |}.

Definition with_ping_interval (interval pong_timeout : Duration) (self : WsConfig) :
    result WsConfig PingIntervalError :=
  if (interval =? 0)%N then Err ZeroInterval
  else if (pong_timeout =? 0)%N then Err ZeroPongTimeout
  else Ok (set_ping (Some {| ping_interval_ := interval; pong_timeout_ := pong_timeout |}) self).
Definition without_ping_interval (self : WsConfig) : WsConfig := set_ping None self.

Definition set_handshake_check (c : option (WsHandshakeContext → result unit Response)) (self : WsConfig) : WsConfig :=
  {| ws_path := ws_path self; max_message_size := max_message_size self;
     max_frame_size := max_frame_size self; idle_timeout := idle_timeout self;
     close_grace := close_grace self; ws_handler := ws_handler self; ws_pattern := ws_pattern self;
     outbound_capacity := outbound_capacity self; ws_ping := ws_ping self; handshake_check := c |}.
Definition with_handshake_check (c : WsHandshakeContext → result unit Response) (self : WsConfig) : WsConfig :=
  set_handshake_check (Some c) self.
Definition without_handshake_check (self : WsConfig) : WsConfig := set_handshake_check None self.

Definition ping_interval (self : WsConfig) : option Duration := ping_interval_ <$> ws_ping self.
Definition pong_timeout (self : WsConfig) : option Duration := pong_timeout_ <$> ws_ping self.

(** ** The invariant *)

(** What only the builder can change: the capacity is positive and bounded, a keepalive has
    positive times, and a pattern is the parse of some text. *)
Record config_wf (self : WsConfig) : Prop := {
  wf_capacity : (1 <= outbound_capacity self <= MAX_OUTBOUND_CAPACITY)%N;
  wf_ping : ∀ p, ws_ping self = Some p → (0 < ping_interval_ p ∧ 0 < pong_timeout_ p)%N;
  wf_pattern : ∀ p, ws_pattern self = Some p → ∃ text, parse text = Ok p;
}.

(** The programs that build a configuration.  The public fields can be set to anything. *)
Inductive builds : WsConfig → Prop :=
| b_default : builds ws_default
| b_path p self : builds self → builds (with_path p self)
| b_path_pattern p self c : builds self → with_path_pattern p self = Ok c → builds c
| b_public path mm mf it cg self :
    builds self →
    builds (with_close_grace cg (set_idle_timeout it (with_max_frame_size mf (with_max_message_size mm
      (set_route path (ws_pattern self) self)))))
| b_handler h self : builds self → builds (with_handler h self)
| b_outbound n self c : builds self → with_outbound_capacity n self = Ok c → builds c
| b_ping i t self c : builds self → with_ping_interval i t self = Ok c → builds c
| b_no_ping self : builds self → builds (without_ping_interval self)
| b_check c self : builds self → builds (with_handshake_check c self)
| b_no_check self : builds self → builds (without_handshake_check self).

Lemma builds_wf self : builds self → config_wf self.
Proof.
  induction 1 as [|p self _ []|p self c _ [] E|path mm mf it cg self _ []|h self _ []|n self c _ [] E
    |i t self c _ [] E|self _ []|c self _ []|self _ []].
  - split; cbn; [done|done|done].
  - by split.
  - apply rbind_Ok in E as (pat & E & [= <-]). split; cbn; [done|done|]. intros p' [= <-]. by exists p.
  - by split.
  - by split.
  - unfold with_outbound_capacity in E. destruct (N.eqb_spec n 0); [done|].
    destruct (N.ltb_spec MAX_OUTBOUND_CAPACITY n); [done|]. injection E as <-. split; cbn; [lia|done|done].
  - unfold with_ping_interval in E. destruct (N.eqb_spec i 0); [done|]. destruct (N.eqb_spec t 0); [done|].
    injection E as <-. split; cbn; [done| |done]. intros p' [= <-]. cbn. lia.
  - by split.
  - by split.
  - by split.
Qed.

(** Every configuration that a program can build has an outbound capacity between 1 and 4096,
    which is the number of slots of the channel made from it, a keepalive with positive times or
    none, and a path pattern that some text parses to; and the builders refuse exactly the values
    outside of these bounds. *)
Theorem ws_config_bounds self :
  builds self →
  config_wf self
  ∧ ch_slots (channel (outbound_capacity self)) = outbound_capacity self
  ∧ (∀ n, (∃ c, with_outbound_capacity n self = Ok c) ↔ (1 <= n <= MAX_OUTBOUND_CAPACITY)%N)
  ∧ (∀ i t, (∃ c, with_ping_interval i t self = Ok c) ↔ (0 < i ∧ 0 < t)%N)
  ∧ (∀ p, (∃ c, with_path_pattern p self = Ok c) ↔ ∃ pat, parse p = Ok pat).
Proof.
  intros H%builds_wf. split; [done|]. split; [destruct H as [? _ _]; cbn; lia|]. split_and!.
  - intros n. unfold with_outbound_capacity, MAX_OUTBOUND_CAPACITY.
    destruct (N.eqb_spec n 0); [split; [by intros [? ?]|lia]|].
    destruct (N.ltb_spec 4096 n); [split; [by intros [? ?]|lia]|]. split; [lia|by eexists].
  - intros i t. unfold with_ping_interval.
    destruct (N.eqb_spec i 0); [split; [by intros [? ?]|lia]|].
    destruct (N.eqb_spec t 0); [split; [by intros [? ?]|lia]|]. split; [lia|by eexists].
  - intros p. unfold with_path_pattern. destruct (parse p) as [pat|e].
    + split; intros _; by eexists.
    + by split; intros [? ?].
Qed.

End config.

Section witness.
#[local] Existing Instance demo_types.

Lemma ws_config_bounds_witness :
  ∃ c, with_outbound_capacity 64 ws_default = Ok c ∧ ch_slots (channel (outbound_capacity c)) = 64%N.
Proof.
  destruct (with_outbound_capacity 64 ws_default) as [c|] eqn:E; [|discriminate].
  exists c. split; [done|].
  destruct (ws_config_bounds c (b_outbound 64 ws_default c b_default E)) as (_ & -> & _).
  by injection E as <-.
Defined.
End witness.
