(* ===== verification/WsHandshake.v ===== *)
(** * [plugin-websocket]: matching, handshake and the start of a session

    [matches] is what the core asks before it hands a connection over, [validate] the rules of
    RFC 6455 on the request, and [handle_upgrade_with_peer_addr] everything up to the first byte
    of the session: it answers 101 only to a handshake that is valid and that the check of the
    endpoint accepted, and opens a session only when the whole 101 has been written.  The key
    derivation (SHA-1 and base64, in tungstenite) is the parameter class [AcceptKey]. *)

From S2P Require Import Prelude Text Utf8 Radix Extensions Request RequestSpec Response ResponseSpec Gate ServerConfig.
From S2P Require Import RoutePattern WsPattern WsChannel WsConfig.

Class AcceptKey := { derive_accept_key : bytes → bytes }.

Inductive WsError :=
| InvalidHandshake (reason : bytes)
| UnsupportedVersion
| WsIo
| WsProtocol
| WsHandler (err : WsHandlerError).

Section handshake.
Context {AT : AnyTypes} {AK : AcceptKey}.

(** ** Matching *)

Definition match_config_path (head : RequestHead) (config : WsConfig) : option PathParams :=
  let path := default (target head) (List.hd_error (split x3f (target head))) in
  match ws_pattern config with
  | Some pattern => match_path pattern path
  | None => if str_eqb path (ws_path config) then Some [] else None
  end.

Definition header_is_websocket (head : RequestHead) : bool :=
  match header head (lit "upgrade") with
  | Some v => eq_ignore_ascii_case v (lit "websocket")
  | None => false
  end.

Definition matches (head : RequestHead) (config : WsConfig) : bool :=
  bool_decide (is_Some (match_config_path head config)) && str_eqb (method head) (lit "GET")
  && header_is_websocket head.

(** ** Validation *)

Definition connection_contains_upgrade (head : RequestHead) : bool :=
  existsb (λ token, eq_ignore_ascii_case (trim token) (lit "upgrade"))
    (concat ((λ kv : bytes * bytes, split x2c kv.2) <$>
      List.filter (λ kv, eq_ignore_ascii_case kv.1 (lit "connection")) (headers head))).

Definition is_key_byte (b : byte) : bool := is_ascii_alphanumeric b || beqb b x2b || beqb b x2f || beqb b x3d.

Definition is_valid_base64_key (key : bytes) : bool := (len key =? 24)%N && forallb is_key_byte key.

(** The [accept_key] of [ValidatedHandshake]. *)
Definition validate (head : RequestHead) : result bytes WsError :=
  if negb (str_eqb (method head) (lit "GET")) then Err (InvalidHandshake (lit "method must be GET"))
  else if negb (bool_decide (version head = Http11))
  then Err (InvalidHandshake (lit "version must be HTTP/1.1"))
  else if negb (header_is_websocket head) then Err (InvalidHandshake (lit "missing Upgrade: websocket"))
  else if negb (connection_contains_upgrade head)
  then Err (InvalidHandshake (lit "Connection header must contain 'upgrade'"))
  else if negb (bool_decide (header head (lit "sec-websocket-version") = Some (lit "13")))
  then Err UnsupportedVersion
  else
    match header head (lit "sec-websocket-key") with
    | None => Err (InvalidHandshake (lit "missing Sec-WebSocket-Key"))
    | Some key =>
        if negb (is_valid_base64_key key) then Err (InvalidHandshake (lit "invalid Sec-WebSocket-Key"))
        else Ok (derive_accept_key key)
    end.

(** ** Responses *)

Definition serialize_101 (accept_key : bytes) : bytes :=
  lit "HTTP/1.1 101 Switching Protocols" ++ CRLF ++ lit "Upgrade: websocket" ++ CRLF
  ++ lit "Connection: Upgrade" ++ CRLF ++ lit "Sec-WebSocket-Accept: " ++ accept_key ++ CRLF ++ CRLF.

Definition serialize_400 : bytes :=
  lit "HTTP/1.1 400 Bad Request" ++ CRLF ++ lit "Connection: close" ++ CRLF
  ++ lit "Content-Length: 0" ++ CRLF ++ CRLF.

Definition serialize_426 : bytes :=
  lit "HTTP/1.1 426 Upgrade Required" ++ CRLF ++ lit "Sec-WebSocket-Version: 13" ++ CRLF
  ++ lit "Connection: close" ++ CRLF ++ lit "Content-Length: 0" ++ CRLF ++ CRLF.

(** A response that does not pass for a success or an upgrade. *)
Definition rejection_status (st : N) : bool :=
  ((300 <=? st) && (st <? 600))%N && negb (is_bodyless_status st).

Definition normalize_rejection (response : Response) : Response :=
  if rejection_status (status response) then response else response_empty 400.

(** ** The upgrade *)

(** How a write that races the cancellation ends; [n] bytes are on the wire if it does not
    complete. *)
Inductive WriteEnd :=
| WriteDone
| WriteCancelled (n : nat)
| WriteFailed (n : nat).

(** What was written, and whether the cancellation won. *)
Definition write_racing_cancel (w : WriteEnd) (data : bytes) : bytes * result bool WsError :=
  match w with
  | WriteDone => (data, Ok false)
  | WriteCancelled n => (take (Nat.min n (length data - 1)) data, Ok true)
  | WriteFailed n => (take (Nat.min n (length data - 1)) data, Err WsIo)
  end.

(** Refused or given up, or handed to [run_session] after [on_open]. *)
Inductive Upgrade :=
| NotOpened (r : result unit WsError)
| Opened (ctx : WsConnContext).

(** One answer is written, then the result, unless the write fails. *)
Definition refuse (w : WriteEnd) (data : bytes) (r : result unit WsError) : bytes * Upgrade :=
  let (out, written) := write_racing_cancel w data in
  (out, NotOpened (match written with Err e => Err e | Ok _ => r end)).

Definition handle_upgrade_with_peer_addr (already_cancelled : bool) (w : WriteEnd) (next_conn_id : N)
    (head : RequestHead) (config : WsConfig) (peer_addr : option SocketAddr) : bytes * Upgrade :=
  if already_cancelled then ([], NotOpened (Ok tt))
  else
    match validate head with
    | Err UnsupportedVersion => refuse w serialize_426 (Err UnsupportedVersion)
    | Err (InvalidHandshake reason) => refuse w serialize_400 (Err (InvalidHandshake reason))
    | Err err => ([], NotOpened (Err err))
    | Ok accept_key =>
        let matched_params := default [] (match_config_path head config) in
        let ctx := {| hs_head := head; hs_params := matched_params; hs_peer_addr := peer_addr |} in
        match (λ check, check ctx) <$> handshake_check config with
        | Some (Err rejection) => refuse w (serialize false (normalize_rejection rejection)) (Ok tt)
        | _ =>
            match write_racing_cancel w (serialize_101 accept_key) with
            | (out, Err e) => (out, NotOpened (Err e))
            | (out, Ok true) => (out, NotOpened (Ok tt))
            | (out, Ok false) =>
                (out, Opened {| conn_id := (conn_id_next next_conn_id).1; conn_params := matched_params;
                                conn_info := from_head head peer_addr |})
            end
        end
    end.

Definition handle_upgrade (already_cancelled : bool) (w : WriteEnd) (next_conn_id : N)
    (head : RequestHead) (config : WsConfig) : bytes * Upgrade :=
  handle_upgrade_with_peer_addr already_cancelled w next_conn_id head config None.

(** ** Specification *)

(** The requirements of RFC 6455, section 4.2.1, on the request. *)
Record handshake_ok (head : RequestHead) (key : bytes) : Prop := {
  hs_method : method head = lit "GET";
  hs_version : version head = Http11;
  hs_upgrade : ∃ v, header head (lit "upgrade") = Some v ∧ eq_ignore_ascii_case v (lit "websocket") = true;
  hs_connection : ∃ name value token, (name, value) ∈ headers head
    ∧ eq_ignore_ascii_case name (lit "connection") = true
    ∧ token ∈ split x2c value ∧ eq_ignore_ascii_case (trim token) (lit "upgrade") = true;
  hs_ws_version : header head (lit "sec-websocket-version") = Some (lit "13");
  hs_key : header head (lit "sec-websocket-key") = Some key;
  hs_key_shape : length key = 24 ∧ Forall (λ b, is_key_byte b = true) key;
}.

Lemma header_is_websocket_spec head :
  header_is_websocket head = true ↔
  ∃ v, header head (lit "upgrade") = Some v ∧ eq_ignore_ascii_case v (lit "websocket") = true.
Proof. unfold header_is_websocket. destruct (header head (lit "upgrade")); naive_solver. Qed.

Lemma connection_contains_upgrade_spec head :
  connection_contains_upgrade head = true ↔
  ∃ name value token, (name, value) ∈ headers head
    ∧ eq_ignore_ascii_case name (lit "connection") = true
    ∧ token ∈ split x2c value ∧ eq_ignore_ascii_case (trim token) (lit "upgrade") = true.
Proof.
  unfold connection_contains_upgrade. rewrite existsb_exists. split.
  - intros (token & (ts & Hts & Hin)%in_concat & Ht).
    apply list_elem_of_In, list_elem_of_fmap in Hts as ([name value] & -> & Hn).
    apply list_elem_of_In, filter_In in Hn as [Hn Hc]. exists name, value, token.
    by rewrite !list_elem_of_In.
  - intros (name & value & token & Hin & Hn & Hts & Ht). exists token. split; [|done].
    apply in_concat. exists (split x2c value). rewrite <- list_elem_of_In. split; [|by apply list_elem_of_In].
    apply list_elem_of_fmap. exists (name, value). split; [done|].
    apply list_elem_of_In, filter_In. split; [by apply list_elem_of_In|done].
Qed.

Lemma is_valid_base64_key_spec key :
  is_valid_base64_key key = true ↔ length key = 24 ∧ Forall (λ b, is_key_byte b = true) key.
Proof. unfold is_valid_base64_key, len. rewrite andb_true_iff, N.eqb_eq, forallb_Forall. intuition lia. Qed.

Lemma handshake_validate_Ok head accept :
  validate head = Ok accept ↔ ∃ key, handshake_ok head key ∧ accept = derive_accept_key key.
Proof.
  unfold validate. split.
  - intros H. repeat (case_first_in H; [done|]). bool_to_prop.
    apply str_eqb_eq in Heqb. apply header_is_websocket_spec in Heqb1.
    apply connection_contains_upgrade_spec in Heqb2.
    destruct (header head (lit "sec-websocket-key")) as [key|] eqn:Ek; [|done].
    destruct (is_valid_base64_key key) eqn:Ev; [|done]. injection H as <-.
    apply is_valid_base64_key_spec in Ev. exists key. by split.
  - intros (key & [H1 H2 H3%header_is_websocket_spec H4%connection_contains_upgrade_spec H5 H6
      H7%is_valid_base64_key_spec] & ->).
    by rewrite H1, H2, H3, H4, H5, H6, H7.
Qed.

(** ** What a client can read *)

(** The bytes announce an informational status, as 101 is. *)
Definition informational (out : bytes) : Prop := ∃ z, out = lit "HTTP/1.1 1" ++ z.

Lemma serialize_status ka r :
  (status r ≤ u64_max)%N → ∃ z, serialize ka r = lit "HTTP/1.1 " ++ to_decimal (status r) ++ z.
Proof.
  intros Hs. unfold serialize, serialize_into. cbv zeta. rewrite (write_decimal_to_decimal _ _ Hs).
  rewrite write_fields_app. unfold write_decimal.
  destruct ka; cbn [negb]; rewrite <- !(assoc_L (++)); by eexists.
Qed.

Lemma rejection_first_digit n :
  rejection_status n = true → ∃ d z, to_decimal n = d :: z ∧ d ≠ x31.
Proof.
  intros H. assert (n ∈ N.of_nat <$> seq 300 300) as Hin.
  { unfold rejection_status in H. bool_to_prop. apply list_elem_of_fmap. exists (N.to_nat n).
    split; [lia|]. apply elem_of_seq. lia. }
  assert (forallb (λ n, match to_decimal n with d :: _ => negb (beqb d x31) | [] => false end)
    (N.of_nat <$> seq 300 300) = true) as Hall by (by vm_compute).
  apply forallb_Forall in Hall. rewrite Forall_forall in Hall. specialize (Hall n Hin). cbn beta in Hall.
  destruct (to_decimal n) as [|d z]; [done|]. exists d, z. split; [done|].
  apply negb_true_iff, beqb_neq in Hall. done.
Qed.

(** The answers that refuse an upgrade. *)
Inductive refusal : bytes → Prop :=
| refusal_400 : refusal serialize_400
| refusal_426 : refusal serialize_426
| refusal_check r : rejection_status (status r) = true → refusal (serialize false r).

Lemma normalize_rejection_refusal r : refusal (serialize false (normalize_rejection r)).
Proof.
  unfold normalize_rejection. destruct (rejection_status (status r)) eqn:E; by apply refusal_check.
Qed.

Lemma refusal_prefix out z : refusal (out ++ z) → ¬ informational out.
Proof.
  intros H [y ->]. remember ((lit "HTTP/1.1 1" ++ y) ++ z) as data eqn:E. destruct H as [| |r Hr].
  - unfold serialize_400 in E. by simplify_list_eq.
  - unfold serialize_426 in E. by simplify_list_eq.
  - assert (status r ≤ u64_max)%N as Hs.
    { unfold rejection_status in Hr. bool_to_prop. unfold u64_max. lia. }
    destruct (serialize_status false r Hs) as [y' E']. rewrite E' in E.
    destruct (rejection_first_digit _ Hr) as (d & z' & Ed & Hd). rewrite Ed in E.
    change (lit "HTTP/1.1 1") with (lit "HTTP/1.1 " ++ [x31]) in E. rewrite <- !(assoc_L (++)) in E.
    apply app_inv_head in E. by injection E as ->.
Qed.

Lemma write_racing_cancel_prefix w data :
  data ≠ [] →
  let (out, r) := write_racing_cancel w data in
  match r with
  | Ok false => w = WriteDone ∧ out = data
  | _ => w ≠ WriteDone ∧ ∃ z, z ≠ [] ∧ out ++ z = data
  end.
Proof.
  intros Hne.
  assert (∀ n, ∃ z, z ≠ [] ∧ take (Nat.min n (length data - 1)) data ++ z = data) as Hcut.
  { intros n. exists (drop (Nat.min n (length data - 1)) data). split; [|apply take_drop].
    intros E. apply (f_equal length) in E. rewrite length_drop in E. destruct data; [done|cbn in E; lia]. }
  destruct w as [|n|n]; cbn; [done| |]; (split; [done|apply Hcut]).
Qed.

Lemma refuse_spec w data r :
  refusal data → ∃ out r', refuse w data r = (out, NotOpened r') ∧ (∃ z, refusal (out ++ z)).
Proof.
  intros Hr. assert (data ≠ []) as Hne.
  { intros ->. inversion Hr as [| |r0 _ E]. unfold serialize, serialize_into in E. cbv zeta in E.
    apply app_eq_nil in E as [E _]. by apply app_eq_nil in E as [_ E]. }
  unfold refuse. pose proof (write_racing_cancel_prefix w data Hne) as H.
  destruct (write_racing_cancel w data) as [out written]. eexists out, _. split; [done|].
  destruct written as [[|]|]; destruct H as [_ H].
  - destruct H as (z & _ & <-). by exists z.
  - subst out. exists []. by rewrite app_nil_r.
  - destruct H as (z & _ & <-). by exists z.
Qed.

(** The handshake is valid and the check of the endpoint accepts it. *)
Definition accepted (head : RequestHead) (config : WsConfig) (peer_addr : option SocketAddr) (key : bytes) : Prop :=
  handshake_ok head key
  ∧ ∀ check, handshake_check config = Some check →
      check {| hs_head := head; hs_params := default [] (match_config_path head config);
               hs_peer_addr := peer_addr |} = Ok tt.

(** What is on the wire, and what the session that is opened knows. *)
Definition upgrade_answer (head : RequestHead) (config : WsConfig) (peer : option SocketAddr)
    (out : bytes) (u : Upgrade) : Prop :=
  match u with
  | Opened ctx =>
      (∃ key, accepted head config peer key ∧ out = serialize_101 (derive_accept_key key))
      ∧ conn_params ctx = default [] (match_config_path head config)
      ∧ conn_info ctx = from_head head peer
  | NotOpened _ =>
      (¬ informational out ∧ (out = [] ∨ ∃ z, refusal (out ++ z)))
      ∨ (∃ key z, accepted head config peer key ∧ z ≠ [] ∧ out ++ z = serialize_101 (derive_accept_key key))
  end.

Lemma refuse_answer w head config peer data r :
  refusal data → ∃ out r', refuse w data r = (out, NotOpened r')
    ∧ upgrade_answer head config peer out (NotOpened r').
Proof.
  intros (out & r' & -> & z & Hz)%(refuse_spec w data r). exists out, r'. split; [done|]. left.
  split; [by eapply refusal_prefix|]. right. by exists z.
Qed.

(** C24: The upgrade is sound and complete.  A session is opened exactly if the upgrade was not
    cancelled, the request is a valid handshake of RFC 6455, the check of the endpoint accepted
    it and the whole 101 response with the key of that request was written; the session sees the
    parameters of the path and the bounded headers of the request.  In every other case a client
    reads no informational status at all (nothing, a refusal with a 3xx to 5xx status, or a part
    of one), unless the handshake was valid and accepted and the writing of 101 was cut short. *)
Theorem ws_upgrade_sound cancelled w next head config peer :
  let (out, u) := handle_upgrade_with_peer_addr cancelled w next head config peer in
  ((∃ ctx, u = Opened ctx) ↔ cancelled = false ∧ w = WriteDone ∧ ∃ key, accepted head config peer key)
  ∧ upgrade_answer head config peer out u.
Proof.
  unfold handle_upgrade_with_peer_addr. destruct cancelled.
  { split; [naive_solver|]. left. split; [by intros [? ?]|by left]. }
  assert (∀ data r, refusal data → ¬ (∃ key, accepted head config peer key) →
    let (out, u) := refuse w data r in
    ((∃ ctx, u = Opened ctx) ↔ false = false ∧ w = WriteDone ∧ ∃ key, accepted head config peer key)
    ∧ upgrade_answer head config peer out u) as Href.
  { intros data r Hd Hn. destruct (refuse_answer w head config peer data r Hd) as (out & r' & -> & ?).
    split; [|done]. split; [by intros [? ?]|]. naive_solver. }
  destruct (validate head) as [accept|err] eqn:Ev.
  - apply handshake_validate_Ok in Ev as (key & Hk & ->).
    set (ctx := {| hs_head := head; hs_params := _; hs_peer_addr := peer |}).
    assert (∀ check, handshake_check config = Some check → check ctx ≠ Ok tt →
      ¬ (∃ key, accepted head config peer key)) as Hrej.
    { intros check Hc Hne (key' & _ & Ha). by apply Hne, Ha. }
    assert (Hopen : accepted head config peer key →
      let (out, u) := match write_racing_cancel w (serialize_101 (derive_accept_key key)) with
        | (out, Err e) => (out, NotOpened (Err e))
        | (out, Ok true) => (out, NotOpened (Ok tt))
        | (out, Ok false) =>
            (out, Opened {| conn_id := (conn_id_next next).1;
                            conn_params := default [] (match_config_path head config);
                            conn_info := from_head head peer |})
        end in
      ((∃ ctx, u = Opened ctx) ↔ false = false ∧ w = WriteDone ∧ ∃ key, accepted head config peer key)
      ∧ upgrade_answer head config peer out u).
    { intros Ha. pose proof (write_racing_cancel_prefix w (serialize_101 (derive_accept_key key)) ltac:(done)) as H.
      destruct (write_racing_cancel w _) as [out [[|]|]]; destruct H as [Hw H].
      - split; [naive_solver|]. right. destruct H as (z & Hz & E). by exists key, z.
      - split; [|split; [by exists key|done]]. split; [|by eexists]. intros _. split; [done|]. split; [done|]. by exists key.
      - split; [naive_solver|]. right. destruct H as (z & Hz & E). by exists key, z. }
    destruct (handshake_check config) as [check|] eqn:Hc; cbn [fmap option_fmap option_map].
    + destruct (check ctx) as [[]|rejection] eqn:Er.
      * apply Hopen. split; [done|]. intros c' Hc'. rewrite Hc in Hc'. by injection Hc' as <-.
      * apply Href; [apply normalize_rejection_refusal|]. apply (Hrej check); congruence.
    + apply Hopen. split; [done|]. intros c' Hc'. congruence.
  - assert (¬ ∃ key, accepted head config peer key) as Hn.
    { intros (key & Hk & _). assert (validate head = Ok (derive_accept_key key)) by (apply handshake_validate_Ok; by exists key).
      congruence. }
    destruct err as [reason| | | |err]; [apply Href; [constructor|done]|apply Href; [constructor|done]|..];
      (split; [naive_solver|left; split; [by intros [? ?]|by left]]).
Qed.

End handshake.

Section demo.
#[local] Existing Instance demo_types.
#[local] Existing Instance naive_memmem.
#[local] Instance plain_key : AcceptKey := {| derive_accept_key key := lit "accept:" ++ key |}.

Definition demo_upgrade (path key : bytes) : bytes :=
  lit "GET " ++ path ++ lit " HTTP/1.1" ++ CRLF ++ lit "Upgrade: websocket" ++ CRLF
  ++ lit "Connection: keep-alive" ++ CRLF ++ lit "Connection: x, Upgrade" ++ CRLF
  ++ lit "Sec-WebSocket-Version: 13" ++ CRLF ++ lit "Sec-WebSocket-Key: " ++ key ++ CRLF ++ CRLF.

Definition demo_answer (config : WsConfig) (input : bytes) : option (bool * (bytes * Upgrade)) :=
  match parse_request_head input with
  | Ok (Complete head _) =>
      Some (matches head config, handle_upgrade false WriteDone 7 head config)
  | _ => None
  end.

Lemma demo_handshake :
  match with_path_pattern (lit "/ws/{room}") ws_default with
  | Ok config =>
      (∃ info, demo_answer config (demo_upgrade (lit "/ws/a?x=1") (lit "dGhlIHNhbXBsZSBub25jZQ=="))
        = Some (true, (serialize_101 (lit "accept:dGhlIHNhbXBsZSBub25jZQ=="),
            Opened {| conn_id := 7; conn_params := [(lit "room", lit "a")]; conn_info := info |})))
      ∧ demo_answer config (demo_upgrade (lit "/ws/a") (lit "short"))
        = Some (true, (serialize_400, NotOpened (Err (InvalidHandshake (lit "invalid Sec-WebSocket-Key")))))
      ∧ (fst <$> demo_answer config (demo_upgrade (lit "/ws/..") (lit "dGhlIHNhbXBsZSBub25jZQ=="))) = Some false
  | Err _ => False
  end.
Proof. vm_compute. split; [by eexists|by split]. Qed.
End demo.
