(* ===== verification/WsSession.v ===== *)
(** * [plugin-websocket::session]: the session

    [run_session] as a process with a control point per [await], beside the outbound channel it
    shares with the senders: one poll of the session is one step, in which the races of the code
    are decided by their priority.  What a third-party future is ready with (a frame, a write
    that completed, the handler's answer) comes with the label; cancellation, timers, the queue
    and the signal of the channel are read from the state, where a clock runs.  The frames handed
    to tungstenite, the handler calls and the calls of [on_close] are recorded. *)

From stdpp Require Import relations.
From S2P Require Import Prelude Text Utf8 Extensions Request Response Gate ServerConfig Server.
From S2P Require Import RoutePattern WsPattern WsChannel WsConfig WsHandshake.

Definition Instant : Type := N.

(** ** tungstenite *)

Record CloseFrame := { cf_code : N; cf_reason : bytes }.

Inductive Frame :=
| FText (t : bytes)
| FBinary (b : bytes)
| FPing (payload : bytes)
| FPong (payload : bytes)
| FClose (frame : option CloseFrame)
| FRaw.

Inductive TgError :=
| TgCapacity
| TgIo
| TgReset
| TgSendAfterClosing
| TgConnectionClosed
| TgAlreadyClosed
| TgOther.

Definition to_tungstenite_message (msg : WsMessage) : Frame :=
  match msg with Text t => FText t | Binary b => FBinary b end.

(** [CloseCode::from] is the identity on the wire. *)
Definition to_close_frame (code : N) (reason : bytes) : CloseFrame := {| cf_code := code; cf_reason := reason |}.

(** ** Deadlines *)

(** The bisection of [checked_deadline]: the largest duration that can be added, up to a second;
    [fuel] bounds the halvings. *)
Fixpoint bisect (fuel : nat) (now lo hi : Duration) : Duration :=
  match fuel with
  | O => lo
  | S fuel =>
      if (from_secs 1 <? hi - lo)%N then
        let mid := (lo + (hi - lo) / 2)%N in
        match checked_add now mid with
        | Some _ => bisect fuel now mid hi
        | None => bisect fuel now lo mid
        end
      else lo
  end.

Definition checked_deadline (now : Instant) (duration : Duration) : Instant :=
  match checked_add now duration with
  | Some deadline => deadline
  | None => default now (checked_add now (bisect (S (N.size_nat duration)) now 0%N duration))
  end.

(** ** Keepalive *)

Inductive TimerKind := Idle | PongDeadline | PingDue.

Record PendingPing := { pp_deadline : Instant; pp_payload : bytes }.

Record Keepalive := {
  ka_interval : Duration;
  ka_pong_timeout : Duration;
  next_ping_at : Instant;
  ka_pending : option PendingPing;
  next_seq : N;
}.

Definition keepalive_new (now : Instant) (p : PingKeepalive) : Keepalive :=
  {| ka_interval := ping_interval_ p; ka_pong_timeout := pong_timeout_ p;
     next_ping_at := checked_deadline now (ping_interval_ p); ka_pending := None; next_seq := 0 |}.

Definition timer_leg (self : Keepalive) : Instant * TimerKind :=
  match ka_pending self with
  | Some p => (pp_deadline p, PongDeadline)
  | None => (next_ping_at self, PingDue)
  end.

(** [u64::to_be_bytes]. *)
Definition be_bytes (n : N) : bytes := (λ i, byte_of (n / 2 ^ (8 * N.of_nat i))) <$> [7; 6; 5; 4; 3; 2; 1; 0].

Definition next_payload (self : Keepalive) : bytes * Keepalive :=
  (be_bytes (next_seq self),
   {| ka_interval := ka_interval self; ka_pong_timeout := ka_pong_timeout self;
      next_ping_at := next_ping_at self; ka_pending := ka_pending self;
      next_seq := ((next_seq self + 1) mod 2 ^ 64)%N |}).

(** After a ping was sent. *)
Definition ping_sent (now : Instant) (payload : bytes) (self : Keepalive) : Keepalive :=
  {| ka_interval := ka_interval self; ka_pong_timeout := ka_pong_timeout self;
     next_ping_at := checked_deadline now (ka_interval self);
     ka_pending := Some {| pp_deadline := checked_deadline now (ka_pong_timeout self); pp_payload := payload |};
     next_seq := next_seq self |}.

(** A pong with the payload of the pending ping answers it. *)
Definition pong_received (payload : bytes) (self : Keepalive) : Keepalive :=
  match ka_pending self with
  | Some p =>
      if str_eqb (pp_payload p) payload then
        {| ka_interval := ka_interval self; ka_pong_timeout := ka_pong_timeout self;
           next_ping_at := next_ping_at self; ka_pending := None; next_seq := next_seq self |}
      else self
  | None => self
  end.

(** ** Failures *)

Definition recv_reason (err : TgError) : CloseReason :=
  match err with
  | TgCapacity => MessageTooLarge
  | TgIo => Failed FailIo
  | TgReset => ReasonEof
  | _ => Failed FailProtocol
  end.

Definition send_reason (err : TgError) : CloseReason :=
  match err with TgIo => Failed FailIo | _ => Failed FailProtocol end.

(** [SessionFailure], and the pair a session ends with. *)
Definition Ending : Type := CloseReason * result unit WsError.
Definition failure_recv (err : TgError) : Ending := (recv_reason err, Err WsProtocol).
Definition failure_send (err : TgError) : Ending := (send_reason err, Err WsProtocol).
Definition failure_handler (err : WsHandlerError) : Ending := (Failed FailHandler, Err (WsHandler err)).
Definition close_grace_expired : Ending := (SenderClose, Ok tt).
Definition pong_timeout_expired : Ending := (PongTimeout, Ok tt).

(** ** Control points *)

(** What goes on after a frame was sent: the select of the loop, the loop, the handler's drain,
    the drain before a reply, the drain to a committed close, or the rest of a reply. *)
Inductive Cont :=
| KPing (payload : bytes)
| KLoop
| KHandler
| KDrainBefore (budget : nat) (messages : list WsMessage)
| KDrainToClose (messages : list WsMessage)
| KReply (messages : list WsMessage).

(** Why the queue is flushed. *)
Inductive FlushFor :=
| ForClose
| ForError (err : WsHandlerError).

Inductive PC :=
(** [run_session_inner] was called. *)
| PStart
(** The top of the loop, and its select. *)
| PTop
| PSelect
(** [send_bounded]: the deadline that [close.expired()] sleeps to and the one of [stall], once
    they are polled. *)
| PSend (frame : Frame) (expires stalls : option Instant) (k : Cont)
(** [run_handler_with_outbound_drain], waiting; [drain_before_reply]; [apply_outcome]. *)
| PHandler
| PDrainBefore (budget : nat) (messages : list WsMessage)
| PApplyReply (messages : list WsMessage)
| PDrainToClose (messages : list WsMessage)
| PReply (messages : list WsMessage)
(** [flush_outbound] between and in its sends, and the close of the handler. *)
| PFlush (for_ : FlushFor) (deadline : Instant) (grace_deadline : Instant)
| PFlushSend (frame : Frame) (for_ : FlushFor) (deadline : Instant) (grace_deadline : Instant)
| PHandlerClose (deadline : Instant)
(** [close_and_drain]: closing, then reading to the end. *)
| PClosing (reason : CloseReason) (frame : option CloseFrame) (deadline : Instant)
| PDraining (reason : CloseReason) (deadline : Instant)
(** [handle_message_too_big]: closing, shutting down, lingering. *)
| PBigClose (ending : Ending) (deadline : Instant)
| PBigShutdown (ending : Ending) (deadline : Instant)
| PBigLinger (ending : Ending) (deadline linger_deadline read_until : Instant)
(** [run_session_inner] has returned; [run_session] has; or the task panicked. *)
| PEnding (ending : Ending)
| PReturned (ending : Ending)
| PPanicked.

(** A frame handed to tungstenite, by whom. *)
Inductive Origin := ByQueue | ByReply | ByKeepalive | ByClose.

Record Session := {
  chan : Channel;
  clock : Instant;
  cancelled : bool;
  pc : PC;
  keepalive : option Keepalive;
  idle_deadline : option Instant;
  prefer_outbound : bool;
  (** Is [outbound.rx] still there? *)
  rx : bool;
  (** The deadline of [CloseBound]. *)
  close_deadline : option Instant;
  (** Frames handed to tungstenite, and how many of them it has written. *)
  frames : list (Origin * Frame);
  written : nat;
  handled : list WsMessage;
  closed : list CloseReason;
}.

(** What the future a control point waits for is ready with. *)
Inductive Polled :=
| Pending
| RdNext (m : option (result Frame TgError))
| RdSent (r : result unit TgError)
| RdHandler (r : result WsOutcome WsHandlerError)
| RdShutdown
| RdRead (open : bool).

(** ** Updates *)

Definition goto (p : PC) (s : Session) : Session :=
  {| chan := chan s; clock := clock s; cancelled := cancelled s; pc := p; keepalive := keepalive s;
     idle_deadline := idle_deadline s; prefer_outbound := prefer_outbound s; rx := rx s;
     close_deadline := close_deadline s; frames := frames s; written := written s;
     handled := handled s; closed := closed s |}.
Definition set_chan (c : Channel) (s : Session) : Session :=
  {| chan := c; clock := clock s; cancelled := cancelled s; pc := pc s; keepalive := keepalive s;
     idle_deadline := idle_deadline s; prefer_outbound := prefer_outbound s; rx := rx s;
     close_deadline := close_deadline s; frames := frames s; written := written s;
     handled := handled s; closed := closed s |}.
Definition set_time (now : Instant) (c : bool) (s : Session) : Session :=
  {| chan := chan s; clock := now; cancelled := c; pc := pc s; keepalive := keepalive s;
     idle_deadline := idle_deadline s; prefer_outbound := prefer_outbound s; rx := rx s;
     close_deadline := close_deadline s; frames := frames s; written := written s;
     handled := handled s; closed := closed s |}.
Definition set_keepalive (ka : option Keepalive) (s : Session) : Session :=
  {| chan := chan s; clock := clock s; cancelled := cancelled s; pc := pc s; keepalive := ka;
     idle_deadline := idle_deadline s; prefer_outbound := prefer_outbound s; rx := rx s;
     close_deadline := close_deadline s; frames := frames s; written := written s;
     handled := handled s; closed := closed s |}.
Definition set_idle_deadline (d : option Instant) (s : Session) : Session :=
  {| chan := chan s; clock := clock s; cancelled := cancelled s; pc := pc s; keepalive := keepalive s;
     idle_deadline := d; prefer_outbound := prefer_outbound s; rx := rx s;
     close_deadline := close_deadline s; frames := frames s; written := written s;
     handled := handled s; closed := closed s |}.
Definition set_prefer (b : bool) (s : Session) : Session :=
  {| chan := chan s; clock := clock s; cancelled := cancelled s; pc := pc s; keepalive := keepalive s;
     idle_deadline := idle_deadline s; prefer_outbound := b; rx := rx s;
     close_deadline := close_deadline s; frames := frames s; written := written s;
     handled := handled s; closed := closed s |}.
Definition set_rx_gone (s : Session) : Session :=
  {| chan := chan s; clock := clock s; cancelled := cancelled s; pc := pc s; keepalive := keepalive s;
     idle_deadline := idle_deadline s; prefer_outbound := prefer_outbound s; rx := false;
     close_deadline := close_deadline s; frames := frames s; written := written s;
     handled := handled s; closed := closed s |}.
Definition set_close_deadline (d : option Instant) (s : Session) : Session :=
  {| chan := chan s; clock := clock s; cancelled := cancelled s; pc := pc s; keepalive := keepalive s;
     idle_deadline := idle_deadline s; prefer_outbound := prefer_outbound s; rx := rx s;
     close_deadline := d; frames := frames s; written := written s;
     handled := handled s; closed := closed s |}.
Definition hand_over (o : Origin) (f : Frame) (s : Session) : Session :=
  {| chan := chan s; clock := clock s; cancelled := cancelled s; pc := pc s; keepalive := keepalive s;
     idle_deadline := idle_deadline s; prefer_outbound := prefer_outbound s; rx := rx s;
     close_deadline := close_deadline s; frames := frames s ++ [(o, f)]; written := written s;
     handled := handled s; closed := closed s |}.
Definition wrote_frame (s : Session) : Session :=
  {| chan := chan s; clock := clock s; cancelled := cancelled s; pc := pc s; keepalive := keepalive s;
     idle_deadline := idle_deadline s; prefer_outbound := prefer_outbound s; rx := rx s;
     close_deadline := close_deadline s; frames := frames s; written := S (written s);
     handled := handled s; closed := closed s |}.
Definition call_handler (m : WsMessage) (s : Session) : Session :=
  {| chan := chan s; clock := clock s; cancelled := cancelled s; pc := pc s; keepalive := keepalive s;
     idle_deadline := idle_deadline s; prefer_outbound := prefer_outbound s; rx := rx s;
     close_deadline := close_deadline s; frames := frames s; written := written s;
     handled := handled s ++ [m]; closed := closed s |}.
Definition call_on_close (r : CloseReason) (s : Session) : Session :=
  {| chan := chan s; clock := clock s; cancelled := cancelled s; pc := pc s; keepalive := keepalive s;
     idle_deadline := idle_deadline s; prefer_outbound := prefer_outbound s; rx := rx s;
     close_deadline := close_deadline s; frames := frames s; written := written s;
     handled := handled s; closed := closed s ++ [r] |}.

(** ** The guard of the outbound channel *)

Definition seal_session (s : Session) : Session := set_chan (seal_signal (seal (chan s))) s.

(** [OutboundGuard::release]: seal, then drop the receiver. *)
Definition release (s : Session) : Session :=
  let s := seal_session s in
  if rx s then set_rx_gone (set_chan (rx_drop (chan s)) s) else s.

(** A panic unwinds: the guard seals and the receiver is dropped. *)
Definition panic (s : Session) : Session := goto PPanicked (release s).

(** [Instant::now() + d], which panics when it overflows. *)
Definition now_plus (d : Duration) (k : Instant → Session) (s : Session) : Session :=
  match checked_add (clock s) d with
  | Some deadline => k deadline
  | None => panic s
  end.

(** [run_session_inner] returns: the guard is dropped. *)
Definition finish (e : Ending) (s : Session) : Session := goto (PEnding e) (release s).

Section session.
Context {AT : AnyTypes}.
Context (config : WsConfig).

(** [CloseBound::observe], with what follows. *)
Definition observe (k : option Instant → Session → Session) (s : Session) : Session :=
  if close_request_signal (chan s) then
    match close_deadline s with
    | Some d => k (Some d) s
    | None => now_plus (close_grace config) (λ d, k (Some d) (set_close_deadline (Some d) s)) s
    end
  else k None (set_close_deadline None s).

(** [CloseBound::deadline]. *)
Definition deadline (k : Instant → Session → Session) (s : Session) : Session :=
  observe (λ o s, match o with
                  | Some d => k d s
                  | None => now_plus (close_grace config) (λ d, k d s) s
                  end) s.

(** ** Closing *)

Definition close_and_drain (reason : CloseReason) (frame : option CloseFrame) (dl : Instant) (s : Session) : Session :=
  goto (PClosing reason frame dl) (hand_over ByClose (FClose frame) s).

Definition close_normally (reason : CloseReason) (s : Session) : Session :=
  now_plus (close_grace config) (λ d, close_and_drain reason None d s) s.

Definition handle_cancellation (s : Session) : Session :=
  now_plus (close_grace config)
    (λ d, close_and_drain Cancelled (Some {| cf_code := 1001; cf_reason := lit "going away" |}) d s) s.

Definition on_cancelled (s : Session) : Session := handle_cancellation (release s).

(** A close of a sender reached the session; its deadline is taken before the release. *)
Definition sender_close (code : N) (reason : bytes) (dl : Instant) (s : Session) : Session :=
  close_and_drain SenderClose (Some (to_close_frame code reason)) dl (release s).
Definition on_sender_close (code : N) (reason : bytes) (s : Session) : Session :=
  deadline (λ dl, sender_close code reason dl) s.

Definition handle_message_too_big (e : Ending) (s : Session) : Session :=
  deadline (λ dl s,
    let s := release s in
    goto (PBigClose e dl)
      (hand_over ByClose (FClose (Some {| cf_code := 1009; cf_reason := lit "message too big" |})) s)) s.

(** ** Sending *)

Definition send_bounded (o : Origin) (frame : Frame) (k : Cont) (s : Session) : Session :=
  goto (PSend frame None None k) (hand_over o frame s).

(** [rx.try_recv()]: an item, or nothing now, or nothing ever. *)
Inductive TryRecv :=
| TrItem (item : OutboundItem)
| TrEmpty
| TrDisconnected.

Definition try_recv (s : Session) : TryRecv * Session :=
  match recv (chan s), ch_queue (chan s) with
  | Some c, item :: _ => (TrItem item, set_chan c s)
  | _, _ => (if ch_rx_closed (chan s) && (count holds_slot (ch_calls (chan s)) =? 0)%N
             then TrDisconnected else TrEmpty, s)
  end.

(** ** The loop *)

(** The top: a ping if one is due, else the select. *)
Definition enter_select (s : Session) : Session :=
  goto PSelect (if rx s then set_prefer (negb (prefer_outbound s)) s else s).

Definition loop_top (s : Session) : Session :=
  match keepalive s with
  | Some ka =>
      match ka_pending ka with
      | None =>
          if (next_ping_at ka <=? clock s)%N then
            let (payload, ka) := next_payload ka in
            send_bounded ByKeepalive (FPing payload) (KPing payload) (set_keepalive (Some ka) s)
          else enter_select s
      | Some _ => enter_select s
      end
  | None => enter_select s
  end.

(** The earlier of the two timers, the idle one on a tie. *)
Definition select_timer (s : Session) : option (Instant * TimerKind) :=
  match (λ d, (d, Idle)) <$> idle_deadline s, timer_leg <$> keepalive s with
  | Some a, Some b => Some (if (a.1 <=? b.1)%N then a else b)
  | Some a, None => Some a
  | None, o => o
  end.

(** A message was handled or answered: the idle deadline is renewed. *)
Definition end_of_message (s : Session) : Session :=
  match idle_timeout config with
  | Some d => now_plus d (λ dl, goto PTop (set_idle_deadline (Some dl) s)) s
  | None => goto PTop (set_idle_deadline None s)
  end.

Definition on_timer (kind : TimerKind) (s : Session) : Session :=
  match kind with
  | Idle => close_normally IdleTimeout (release s)
  | PongDeadline => close_normally PongTimeout (release s)
  | PingDue => goto PTop s
  end.

Definition on_message_frame (m : option (result Frame TgError)) (s : Session) : Session :=
  match m with
  | None => finish (ReasonEof, Ok tt) s
  | Some (Err err) =>
      match recv_reason err with
      | MessageTooLarge => handle_message_too_big (failure_recv err) s
      | _ => finish (failure_recv err) s
      end
  | Some (Ok (FText t)) => goto PHandler (call_handler (Text t) s)
  | Some (Ok (FBinary b)) => goto PHandler (call_handler (Binary b) s)
  | Some (Ok (FClose _)) => finish (ClientClose, Ok tt) s
  | Some (Ok (FPing _ | FRaw)) => end_of_message s
  | Some (Ok (FPong payload)) => end_of_message (set_keepalive (pong_received payload <$> keepalive s) s)
  end.

(** What the outbound queue has for a select, if it is ready. *)
Definition on_outbound (o : TryRecv) (k : Cont) (again : PC) (s : Session) : option Session :=
  match o with
  | TrItem (Message msg) => Some (send_bounded ByQueue (to_tungstenite_message msg) k s)
  | TrItem (Close code reason) => Some (on_sender_close code reason s)
  | TrDisconnected => Some (goto again (release s))
  | TrEmpty => None
  end.

(** [race_cancel(cancel, race2_alternating(prefer, inbound, rx.recv()))], or without the queue. *)
Definition poll_inbound (w : Polled) (s : Session) : option Session :=
  match w with
  | RdNext m => Some (on_message_frame m s)
  | _ =>
      match select_timer s with
      | Some (dl, kind) => if (dl <=? clock s)%N then Some (on_timer kind s) else None
      | None => None
      end
  end.
Definition poll_outbound (s : Session) : option Session :=
  if rx s then let (o, s) := try_recv s in on_outbound o KLoop PTop s else None.

Definition first_of (a b : option Session) : option Session := match a with Some x => Some x | None => b end.

Definition poll_select (w : Polled) (s : Session) : option Session :=
  if cancelled s then Some (on_cancelled s)
  else if rx s && prefer_outbound s then first_of (poll_outbound s) (poll_inbound w s)
  else first_of (poll_inbound w s) (poll_outbound s).

(** ** Sends *)

(** What follows a frame that was sent. *)
Definition after_send (k : Cont) (s : Session) : Session :=
  match k with
  | KPing payload => enter_select (set_keepalive (ping_sent (clock s) payload <$> keepalive s) s)
  | KLoop => goto PTop s
  | KHandler => goto PHandler s
  | KDrainBefore budget ms => goto (PDrainBefore budget ms) s
  | KDrainToClose ms => goto (PDrainToClose ms) s
  | KReply ms => goto (PReply ms) s
  end.

Definition elapsed (o : option Instant) (s : Session) : bool :=
  match o with Some d => (d <=? clock s)%N | None => false end.

(** [CloseBound::expired]: the sleep first, then a look at the signal, which may have changed. *)
Definition poll_expired (expires : option Instant) (k : option Instant → Session → Session) (s : Session) : Session :=
  if elapsed expires s then finish close_grace_expired s
  else observe (λ o s, if elapsed o s then finish close_grace_expired s else k o s) s.

(** [stall]: a sleep that begins when it is polled first; one that overflows does not end. *)
Definition poll_stall (frame : Frame) (k : Cont) (stalls expires : option Instant) (s : Session) : Session :=
  match ws_ping config with
  | None => goto (PSend frame expires None k) s
  | Some p =>
      let stalls := match stalls with Some d => Some d | None => checked_add (clock s) (pong_timeout_ p) end in
      if elapsed stalls s then finish pong_timeout_expired s else goto (PSend frame expires stalls k) s
  end.

Definition poll_send (frame : Frame) (expires stalls : option Instant) (k : Cont) (w : Polled) (s : Session) : Session :=
  if cancelled s then on_cancelled s
  else match w with
       | RdSent (Ok _) => after_send k (wrote_frame s)
       | RdSent (Err err) => finish (failure_send err) s
       | _ => poll_expired expires (poll_stall frame k stalls) s
       end.

(** ** The handler *)

Definition flush_done (for_ : FlushFor) (grace_deadline : Instant) (s : Session) : Session :=
  match for_ with
  | ForClose => goto (PHandlerClose grace_deadline) (hand_over ByClose (FClose None) s)
  | ForError err => finish (failure_handler err) s
  end.
Definition flush_failed (for_ : FlushFor) (err : TgError) (s : Session) : Session :=
  match for_ with
  | ForClose => finish (failure_send err) s
  | ForError herr => finish (failure_handler herr) s
  end.
Definition flush_timed_out (for_ : FlushFor) (s : Session) : Session :=
  match for_ with
  | ForClose => finish (HandlerClose, Ok tt) s
  | ForError err => finish (failure_handler err) s
  end.

(** [flush_outbound] up to its loop. *)
Definition flush_outbound (for_ : FlushFor) (grace_deadline : Instant) (s : Session) : Session :=
  observe (λ o s,
    let dl := match o with Some d => N.min d grace_deadline | None => grace_deadline end in
    let s := seal_session s in
    if rx s then goto (PFlush for_ dl grace_deadline) (set_chan (rx_close (chan s)) s)
    else flush_done for_ grace_deadline s) s.

Definition flush_next (for_ : FlushFor) (dl grace_deadline : Instant) (s : Session) : Session :=
  let (o, s) := try_recv s in
  match o with
  | TrItem (Message msg) =>
      let frame := to_tungstenite_message msg in
      goto (PFlushSend frame for_ dl grace_deadline) (hand_over ByQueue frame s)
  | TrItem (Close code reason) => sender_close code reason dl s
  | TrEmpty | TrDisconnected => flush_done for_ grace_deadline s
  end.

Definition poll_flush_send (for_ : FlushFor) (dl grace_deadline : Instant) (w : Polled) (s : Session) : Session :=
  if cancelled s then on_cancelled s
  else match w with
       | RdSent (Ok _) => goto (PFlush for_ dl grace_deadline) (wrote_frame s)
       | RdSent (Err err) => flush_failed for_ err s
       | _ => if (dl <=? clock s)%N then flush_timed_out for_ s else s
       end.

Definition poll_handler_close (dl : Instant) (w : Polled) (s : Session) : Session :=
  if cancelled s then on_cancelled s
  else match w with
       | RdSent (Ok _) => finish (HandlerClose, Ok tt) (wrote_frame s)
       | RdSent (Err err) => finish (failure_send err) s
       | _ => if (dl <=? clock s)%N then finish (HandlerClose, Ok tt) s else s
       end.

Definition handler_done (r : result WsOutcome WsHandlerError) (s : Session) : Session :=
  match r with
  | Ok (Reply messages) => goto (PDrainBefore (N.to_nat (outbound_capacity config)) messages) s
  | Ok CloseOutcome => now_plus (close_grace config) (λ d, flush_outbound ForClose d s) s
  | Err err => now_plus (close_grace config) (λ d, flush_outbound (ForError err) d s) s
  end.

Definition poll_handler (w : Polled) (s : Session) : option Session :=
  if cancelled s then Some (on_cancelled s)
  else match w with
       | RdHandler r => Some (handler_done r s)
       | _ => if rx s then let (o, s) := try_recv s in on_outbound o KHandler PHandler s else None
       end.

(** After [drain_before_reply]. *)
Definition before_apply (messages : list WsMessage) (s : Session) : Session :=
  now_plus (close_grace config) (λ _, goto (PApplyReply messages) s) s.

Definition drain_before_reply (budget : nat) (messages : list WsMessage) (s : Session) : Session :=
  match budget with
  | O => before_apply messages s
  | S budget =>
      if rx s then
        let (o, s) := try_recv s in
        match o with
        | TrItem (Message msg) => send_bounded ByQueue (to_tungstenite_message msg) (KDrainBefore budget messages) s
        | TrItem (Close code reason) => on_sender_close code reason s
        | TrEmpty => before_apply messages s
        | TrDisconnected => before_apply messages (release s)
        end
      else before_apply messages s
  end.

(** [drain_to_close], with its [debug_assert!]. *)
Definition drain_to_close (messages : list WsMessage) (s : Session) : Session :=
  if rx s then
    let (o, s) := try_recv s in
    match o with
    | TrItem (Message msg) => send_bounded ByQueue (to_tungstenite_message msg) (KDrainToClose messages) s
    | TrItem (Close code reason) => on_sender_close code reason s
    | TrEmpty => if close_committed (chan s) then panic s else goto (PReply messages) s
    | TrDisconnected => goto (PReply messages) (release s)
    end
  else goto (PReply messages) s.

Definition apply_reply (messages : list WsMessage) (s : Session) : Session :=
  goto (if close_committed (chan s) then PDrainToClose messages else PReply messages) s.

Definition reply (messages : list WsMessage) (s : Session) : Session :=
  match messages with
  | [] => end_of_message s
  | m :: ms => send_bounded ByReply (to_tungstenite_message m) (KReply ms) s
  end.

(** ** The end of a connection *)

Definition at_end (reason : CloseReason) (r : result unit WsError) (s : Session) : Session := finish (reason, r) s.

(** [ws.close(close_frame)] in [close_and_drain]. *)
Definition poll_closing (reason : CloseReason) (dl : Instant) (w : Polled) (s : Session) : Session :=
  match w with
  | RdSent (Ok _) => goto (PDraining reason dl) (wrote_frame s)
  | RdSent (Err TgSendAfterClosing) => goto (PDraining reason dl) s
  | RdSent (Err (TgConnectionClosed | TgAlreadyClosed)) => at_end reason (Ok tt) s
  | RdSent (Err _) => at_end reason (Err WsProtocol) s
  | _ => if (dl <=? clock s)%N then at_end reason (Ok tt) s else s
  end.

Definition poll_draining (reason : CloseReason) (dl : Instant) (w : Polled) (s : Session) : Session :=
  match w with
  | RdNext (Some (Ok _)) => s
  | RdNext (Some (Err (TgConnectionClosed | TgAlreadyClosed)) | None) => at_end reason (Ok tt) s
  | RdNext (Some (Err _)) => at_end reason (Err WsProtocol) s
  | _ => if (dl <=? clock s)%N then at_end reason (Ok tt) s else s
  end.

Definition LINGER_IDLE : Duration := from_secs 2.
Definition LINGER_TOTAL : Duration := from_secs 3.

(** The next read of the linger loop. *)
Definition linger (e : Ending) (dl linger_deadline : Instant) (s : Session) : Session :=
  now_plus LINGER_IDLE (λ d, goto (PBigLinger e dl linger_deadline (N.min d linger_deadline)) s) s.

Definition poll_big_close (e : Ending) (dl : Instant) (w : Polled) (s : Session) : Session :=
  match w with
  | RdSent (Ok _) => goto (PBigShutdown e dl) (wrote_frame s)
  | RdSent (Err _) => goto (PBigShutdown e dl) s
  | _ => if (dl <=? clock s)%N then finish e s else s
  end.

Definition poll_big_shutdown (e : Ending) (dl : Instant) (w : Polled) (s : Session) : Session :=
  match w with
  | RdShutdown => now_plus LINGER_TOTAL (λ d, linger e dl (N.min dl d) s) s
  | _ => if (dl <=? clock s)%N then finish e s else s
  end.

Definition poll_big_linger (e : Ending) (dl linger_deadline read_until : Instant) (w : Polled) (s : Session) : Session :=
  match w with
  | RdRead true => if (linger_deadline <=? clock s)%N then finish e s else linger e dl linger_deadline s
  | RdRead false => finish e s
  | _ => if (read_until <=? clock s)%N || (dl <=? clock s)%N then finish e s else s
  end.

(** ** The process *)

(** [run_session_inner] up to the loop. *)
Definition start (s : Session) : Session :=
  let begin s := goto PTop (set_keepalive (keepalive_new (clock s) <$> ws_ping config) s) in
  match idle_timeout config with
  | Some d => now_plus d (λ dl, begin (set_idle_deadline (Some dl) s)) s
  | None => begin s
  end.

Definition poll (w : Polled) (s : Session) : Session :=
  match pc s with
  | PStart => start s
  | PTop => loop_top s
  | PSelect => default s (poll_select w s)
  | PSend frame expires stalls k => poll_send frame expires stalls k w s
  | PHandler => default s (poll_handler w s)
  | PDrainBefore budget messages => drain_before_reply budget messages s
  | PApplyReply messages => apply_reply messages s
  | PDrainToClose messages => drain_to_close messages s
  | PReply messages => reply messages s
  | PFlush for_ dl grace => flush_next for_ dl grace s
  | PFlushSend _ for_ dl grace => poll_flush_send for_ dl grace w s
  | PHandlerClose dl => poll_handler_close dl w s
  | PClosing reason _ dl => poll_closing reason dl w s
  | PDraining reason dl => poll_draining reason dl w s
  | PBigClose e dl => poll_big_close e dl w s
  | PBigShutdown e dl => poll_big_shutdown e dl w s
  | PBigLinger e dl ld ru => poll_big_linger e dl ld ru w s
  (** [run_session]: [on_close], then the result. *)
  | PEnding e => goto (PReturned e) (call_on_close e.1 s)
  | PReturned _ | PPanicked => s
  end.

(** A step of a sender, of the clock, of the server's cancellation, or of the session. *)
Inductive SLabel :=
| SChan (l : Label)
| STick (d : Duration)
| SCancel
| SPoll (w : Polled).

Definition sender_label (l : Label) : bool :=
  match l with LBegin _ _ | LStep _ | LAbandon _ => true | _ => false end.

Definition session_apply (l : SLabel) (s : Session) : option Session :=
  match l with
  | SChan l => if sender_label l then (λ c, set_chan c s) <$> apply l (chan s) else None
  | STick d => (λ now, set_time now (cancelled s) s) <$> checked_add (clock s) d
  | SCancel => Some (set_time (clock s) true s)
  | SPoll w => Some (poll w s)
  end.

(** The session of a connection that was accepted at [now]. *)
Definition session_init (now : Instant) : Session :=
  {| chan := channel (outbound_capacity config); clock := now; cancelled := false; pc := PStart;
     keepalive := None; idle_deadline := None; prefer_outbound := false; rx := true;
     close_deadline := None; frames := []; written := 0; handled := []; closed := [] |}.

Definition session_step (s s' : Session) : Prop := ∃ l, session_apply l s = Some s'.
Definition session_reachable (now : Instant) (s : Session) : Prop := rtc session_step (session_init now) s.

Fixpoint session_run (ls : list SLabel) (s : Session) : option Session :=
  match ls with
  | [] => Some s
  | l :: ls => session_apply l s ≫= session_run ls
  end.
Definition polls (ws : list Polled) (s : Session) : Session := fold_left (λ s w, poll w s) ws s.

End session.
