(* ===== verification/WsSessionSpec.v ===== *)
(** * What a session guarantees

    The invariant [wf] of the session process of WsSession, which says for each control point what
    was received from the queue, handed to tungstenite and reported, and which deadlines hold; it
    is kept by every step.  The theorems on the frames, the end and the panics of a session are read
    off it; that a cancelled session ends in time takes a rank that its polls bring to the closing
    phase, and a deadline ([due]) that no step moves. *)

From stdpp Require Import relations.
From S2P Require Import Prelude Text Utf8 Extensions Request Response Gate ServerConfig Server.
From S2P Require Import RoutePattern WsPattern WsChannel WsConfig WsHandshake WsSession.

(** ** [checked_deadline] *)

Lemma checked_add_Some now d x : checked_add now d = Some x → x = (now + d)%N ∧ (x <= instant_max)%N.
Proof. unfold checked_add. destruct (N.leb_spec (now + d) instant_max); [|done]. by intros [= <-]. Qed.

Lemma checked_add_None now d : checked_add now d = None → (instant_max < now + d)%N.
Proof. unfold checked_add. destruct (N.leb_spec (now + d) instant_max); [done|lia]. Qed.

(** The bisection keeps [lo] addable and [hi] not, and halves what is between them. *)
Lemma bisect_spec fuel now lo hi :
  (now + lo <= instant_max)%N → (instant_max < now + hi)%N → (hi - lo <= 2 ^ N.of_nat fuel)%N →
  ∃ r, bisect fuel now lo hi = r ∧ (now + r <= instant_max)%N ∧ (instant_max < now + r + from_secs 1)%N.
Proof.
  revert lo hi. induction fuel as [|fuel IH]; intros lo hi Hlo Hhi Hf; cbn [bisect].
  { exists lo. change (2 ^ N.of_nat 0)%N with 1%N in Hf. assert (from_secs 1 = 1000000000)%N as E1 by done. lia. }
  destruct (N.ltb_spec (from_secs 1) (hi - lo)) as [Hl|Hl]; [|exists lo; split_and!; [done|done|lia]].
  rewrite Nat2N.inj_succ, N.pow_succ_r' in Hf. set (mid := (lo + (hi - lo) / 2)%N).
  pose proof (N.div_mod (hi - lo) 2 ltac:(done)) as Hd. pose proof (N.mod_lt (hi - lo) 2 ltac:(done)) as Hm.
  assert (from_secs 1 = 1000000000)%N as E1 by done.
  destruct (checked_add now mid) eqn:E.
  - apply checked_add_Some in E as [-> ?]. apply IH; [done..|]. unfold mid. lia.
  - apply checked_add_None in E. apply IH; [done..|]. unfold mid.
    rewrite (N.add_comm lo), N.add_sub. by apply N.Div0.div_le_upper_bound.
Qed.

Lemma size_nat_bound n : (n < 2 ^ N.of_nat (S (N.size_nat n)))%N.
Proof.
  destruct n as [|p]; [done|]. cbn [N.size_nat].
  rewrite Nat2N.inj_succ, N.pow_succ_r'. enough (N.pos p < 2 ^ N.of_nat (Pos.size_nat p))%N by lia.
  induction p as [p IH|p IH|]; cbn [Pos.size_nat]; rewrite ?Nat2N.inj_succ, ?N.pow_succ_r'; [lia|lia|done].
Qed.

(** The deadline of a keepalive never panics and never lies in the past: it is the exact sum
    when the clock can represent it, and otherwise the furthest representable instant to within a
    second, for every duration that a configuration can hold. *)
Theorem checked_deadline_exact now duration :
  (now <= instant_max)%N →
  (now <= checked_deadline now duration <= instant_max)%N
  ∧ ((now + duration <= instant_max)%N → checked_deadline now duration = (now + duration)%N)
  ∧ ((instant_max < now + duration)%N → (instant_max < checked_deadline now duration + from_secs 1)%N).
Proof.
  intros Hn. unfold checked_deadline. destruct (checked_add now duration) as [x|] eqn:E.
  - apply checked_add_Some in E as [-> ?]. lia.
  - apply checked_add_None in E.
    destruct (bisect_spec (S (N.size_nat duration)) now 0 duration) as (r & -> & H1 & H2); [lia|done| |].
    { pose proof (size_nat_bound duration). lia. }
    unfold checked_add. destruct (N.leb_spec (now + r) instant_max); [|lia]. cbn. lia.
Qed.

Lemma checked_deadline_exact_witness :
  (1000 <= checked_deadline 1000 (from_secs (2 ^ 64 - 1)) <= instant_max)%N.
Proof. refine (proj1 (checked_deadline_exact 1000 (from_secs (2 ^ 64 - 1)) _)). by vm_compute. Defined.

(** ** What the invariant speaks of *)

Definition data (f : Origin * Frame) : bool := match f.2 with FClose _ => false | _ => true end.

(** The frames that came from the queue, and the messages among items. *)
Definition from_queue (l : list (Origin * Frame)) : list Frame :=
  omap (λ p, match p.1 with ByQueue => Some p.2 | _ => None end) l.
Definition messages (l : list OutboundItem) : list Frame :=
  omap (λ i, match i with Message m => Some (to_tungstenite_message m) | Close _ _ => None end) l.

Definition sealed (c : Channel) : Prop := closing c = true ∧ closed_signal c = true.
(** The session has not sealed: a channel that is closing has a committed close. *)
Definition unsealed (c : Channel) : Prop :=
  ch_rx_closed c = false ∧ ch_dropped c = []
  ∧ (closing c = true → existsb is_close_item (ch_log c).*2 = true).

(** What [on_close] and the caller are told agree. *)
Definition ending_ok (e : Ending) : Prop :=
  match e.1, e.2 with
  | (ClientClose | HandlerClose), Ok _ => True
  | (ReasonEof | IdleTimeout | Cancelled | SenderClose | PongTimeout), (Ok _ | Err WsProtocol) => True
  | (MessageTooLarge | Failed (FailIo | FailProtocol)), Err WsProtocol => True
  | Failed FailHandler, Err (WsHandler _) => True
  | _, _ => False
  end.
(** The reasons of a session that closes by the handshake. *)
Definition closes (r : CloseReason) : Prop :=
  match r with IdleTimeout | Cancelled | SenderClose | PongTimeout => True | _ => False end.

Lemma recv_ok err : ending_ok (failure_recv err).
Proof. by destruct err. Qed.
Lemma send_ok err : ending_ok (failure_send err).
Proof. by destruct err. Qed.
Lemma closes_ok r : closes r → ending_ok (r, Ok tt) ∧ ending_ok (r, Err WsProtocol).
Proof. by destruct r. Qed.
#[local] Hint Resolve recv_ok send_ok : core.

(** A sender's step as the session sees it. *)
Lemma sender_step l c c' :
  sender_label l = true → apply l c = Some c' →
  ch_received c' = ch_received c ∧ ch_dropped c' = ch_dropped c ∧ (sealed c → sealed c') ∧ (closing c = true → closing c' = true)
  ∧ (unsealed c → unsealed c').
Proof.
  intros Hl E. destruct l as [id op|id|id| | | | |]; try done; cbn [apply] in E.
  - case_bool_decide; [done|]. injection E as <-. unfold begin_call.
    destruct op as [| |code reason]; [done..|]. by repeat case_match.
  - destruct (ch_calls c !! id) as [call|]; [|done]. cbn in E. unfold call_step in E.
    destruct (c_stage call); [| | | | |]; try (injection E as <-).
    + unfold reserve_entry. by repeat case_match.
    + unfold reserve_poll in E. by repeat case_match; simplify_eq.
    + unfold commit_with. destruct (closing c) eqn:Ec; [done|].
      split; [done|]. unfold sealed, unsealed. cbn. rewrite Ec. split_and!; [done|by intros [? _]|done|].
      intros (H1 & H2 & H3). split_and!; [done..|]. intros Hc. rewrite fmap_app, existsb_app. cbn.
      destruct (c_op call); try done. by rewrite orb_true_r.
    + done.
    + unfold sealed, unsealed. cbn. naive_solver.
    + unfold drop_request. by case_match.
  - destruct (ch_calls c !! id) as [call|]; [|done]. cbn in E. unfold abandon in E.
    destruct (c_stage call); try done. injection E as <-. unfold drop_request. by case_match.
Qed.

Section spec.
Context {AT : AnyTypes} (config : WsConfig).

Definition longest : Duration :=
  N.max (default 0%N (idle_timeout config)) (N.max (close_grace config) LINGER_TOTAL).

Definition bounded (d : Instant) (s : Session) : Prop := (d <= clock s + close_grace config)%N.
Definition overflow (s : Session) : Prop := (instant_max < clock s + longest)%N.

(** The frames: data, then at most [n] closes. *)
Definition shape (n : nat) (s : Session) : Prop :=
  ∃ ds cs, frames s = ds ++ cs ∧ forallb data ds = true ∧ forallb (λ f, negb (data f)) cs = true
           ∧ (length cs <= n)%nat.

Definition core (s : Session) : Prop :=
  reachable (outbound_capacity config) (chan s) ∧ (clock s <= instant_max)%N
  ∧ from_queue (frames s) = messages (ch_received (chan s))
  ∧ (∀ d, close_deadline s = Some d → bounded d s).

(** Enough to panic from. *)
Definition calm (s : Session) : Prop := core s ∧ shape 2 s ∧ closed s = [].

Definition no_close (s : Session) : Prop := existsb is_close_item (ch_received (chan s)) = false.

(** Enough to finish from. *)
Definition pre (n : nat) (s : Session) : Prop := core s ∧ shape n s ∧ closed s = [] ∧ no_close s.

Definition live (s : Session) : Prop := pre 0 s ∧ rx s = true ∧ unsealed (chan s).
Definition flushing (s : Session) : Prop := pre 0 s ∧ rx s = true ∧ sealed (chan s) ∧ ch_dropped (chan s) = [].

(** A close that was taken from the queue is the last frame, and all before it was written. *)
Definition close_last (s : Session) : Prop :=
  ∀ code reason, Close code reason ∈ ch_received (chan s) →
    ∃ ds, frames s = ds ++ [(ByClose, FClose (Some (to_close_frame code reason)))]
          ∧ forallb data ds = true ∧ (length ds <= written s)%nat
          ∧ messages (ch_log (chan s)).*2 = from_queue ds.

Definition over (s : Session) : Prop :=
  core s ∧ shape 2 s ∧ rx s = false ∧ sealed (chan s) ∧ close_last s.

Definition settled (s : Session) : Prop := written s = length (frames s).
Definition sending (s : Session) : Prop := S (written s) = length (frames s).

Definition wf (s : Session) : Prop :=
  match pc s with
  | PStart | PTop | PSelect | PHandler | PDrainBefore _ _ | PApplyReply _ | PReply _ => live s ∧ settled s
  | PDrainToClose _ => live s ∧ settled s ∧ closing (chan s) = true
  | PSend _ _ _ k =>
      live s ∧ sending s ∧ match k with KDrainToClose _ => closing (chan s) = true | _ => True end
  | PFlush _ dl grace => flushing s ∧ settled s ∧ bounded dl s ∧ bounded grace s
  | PFlushSend _ _ dl grace => flushing s ∧ sending s ∧ bounded dl s ∧ bounded grace s
  | PHandlerClose dl => pre 1 s ∧ sealed (chan s) ∧ bounded dl s
  | PClosing reason _ dl | PDraining reason dl => over s ∧ closed s = [] ∧ bounded dl s ∧ closes reason
  | PBigClose e dl | PBigShutdown e dl | PBigLinger e dl _ _ =>
      over s ∧ closed s = [] ∧ bounded dl s ∧ ending_ok e
  | PEnding e => over s ∧ closed s = [] ∧ ending_ok e
  | PReturned e => over s ∧ closed s = [e.1] ∧ ending_ok e
  | PPanicked => core s ∧ shape 2 s ∧ rx s = false ∧ sealed (chan s) ∧ closed s = [] ∧ overflow s
  end.

(** ** Shapes *)

Lemma shape_le n m s : (n <= m)%nat → shape n s → shape m s.
Proof. intros H (ds & cs & E & ? & ? & ?). exists ds, cs. split_and!; [done..|lia]. Qed.

Lemma shape_data s : shape 0 s → forallb data (frames s) = true.
Proof. intros (ds & [|? ?] & E & ? & ? & H); [|cbn in H; lia]. by rewrite E, app_nil_r. Qed.

Lemma shape_hand_data o f s : data (o, f) = true → shape 0 s → shape 0 (hand_over o f s).
Proof.
  intros Hf H%shape_data. exists (frames s ++ [(o, f)]), []. rewrite app_nil_r. split_and!; [done| |done|done].
  rewrite forallb_app, H. cbn. by rewrite Hf.
Qed.

Lemma shape_hand_close n f s : shape n s → shape (S n) (hand_over ByClose (FClose f) s).
Proof.
  intros (ds & cs & E & H1 & H2 & H3). exists ds, (cs ++ [(ByClose, FClose f)]). split_and!.
  - cbn. by rewrite E, (assoc_L (++)).
  - done.
  - by rewrite forallb_app, H2.
  - rewrite length_app. cbn. lia.
Qed.

Lemma pre_le n m s : (n <= m)%nat → pre n s → pre m s.
Proof. intros H (? & ?%(shape_le n m) & ? & ?); [|done]. by split_and!. Qed.

Lemma pre_calm n s : (n <= 2)%nat → pre n s → calm s.
Proof. intros H (? & ?%(shape_le n 2) & ? & ?); [|done]. by split_and!. Qed.

Lemma from_queue_other o f l : o ≠ ByQueue → from_queue (l ++ [(o, f)]) = from_queue l.
Proof. intros H. unfold from_queue. rewrite omap_app. cbn. destruct o; [done|..]; by rewrite app_nil_r. Qed.

Lemma core_hand_over o f s : o ≠ ByQueue → core s → core (hand_over o f s).
Proof. intros Ho (? & ? & E & ?). split_and!; [done|done| |done]. cbn. by rewrite from_queue_other. Qed.

Lemma data_message m : data (ByQueue, to_tungstenite_message m) = true.
Proof. by destruct m. Qed.

(** ** The channel *)

Lemma chan_reach s l c : core s → WsChannel.apply l (chan s) = Some c → ch_received c = ch_received (chan s) →
  core (set_chan c s).
Proof.
  intros (H1 & H2 & H3 & H4) E Er. split_and!; [|done| |done].
  - apply (rtc_r _ (chan s)); [done|by exists l].
  - cbn. by rewrite Er.
Qed.

Lemma seal_core s : core s → core (seal_session s).
Proof.
  intros H. unfold seal_session.
  apply (chan_reach _ LSeal (seal (chan s))) in H; [|done|done].
  by apply (chan_reach _ LSealSignal (seal_signal (seal (chan s)))) in H.
Qed.

Lemma release_core s : core s → core (release s).
Proof.
  intros H%seal_core. unfold release. destruct (rx _); [|done].
  by apply (chan_reach _ LRxDrop (rx_drop (chan (seal_session s)))) in H.
Qed.

Lemma release_frames s :
  frames (release s) = frames s ∧ closed (release s) = closed s ∧ written (release s) = written s
  ∧ clock (release s) = clock s ∧ rx (release s) = false ∧ sealed (chan (release s))
  ∧ ch_received (chan (release s)) = ch_received (chan s) ∧ ch_log (chan (release s)) = ch_log (chan s).
Proof. unfold release. by destruct (rx (seal_session s)) eqn:E. Qed.

Lemma release_shape n s : shape n s → shape n (release s).
Proof. unfold shape. by destruct (release_frames s) as (-> & _). Qed.

(** ** The ends *)

Lemma no_close_last s : no_close s → close_last s.
Proof.
  intros H code reason Hin. exfalso. apply not_true_iff_false in H. apply H, existsb_exists.
  exists (Close code reason). split; [by apply list_elem_of_In|done].
Qed.

Lemma pre_over n s : (n <= 2)%nat → pre n s → over (release s) ∧ closed (release s) = [].
Proof.
  intros Hn (Hc & Hs%(shape_le n 2) & Hcl & Hno); [|done].
  pose proof (release_frames s) as (? & ? & ? & ? & ? & ? & E & _). split; [|congruence].
  split_and!; [by apply release_core|by apply release_shape|done|done|].
  apply no_close_last. unfold no_close. by rewrite E.
Qed.

Lemma finish_wf n e s : (n <= 2)%nat → pre n s → ending_ok e → wf (finish e s).
Proof. intros Hn H He. by destruct (pre_over n s Hn H). Qed.

(** A session that is over already. *)
Lemma over_finish e s : over s → closed s = [] → ending_ok e → wf (finish e s).
Proof.
  intros (Hc & Hs & Hr & Hse & Hl) Hcl He. unfold wf. cbn.
  pose proof (release_frames s) as (E1 & E2 & E3 & ? & ? & ? & E4 & E5). split_and!; [|congruence|done].
  split_and!; [by apply release_core|by apply release_shape|done|done|].
  unfold close_last in *. cbn. rewrite E1, E3, E4, E5. exact Hl.
Qed.

Lemma panic_wf s : calm s → overflow s → wf (panic s).
Proof.
  intros (Hc & Hs & Hcl) Ho. pose proof (release_frames s) as (E1 & E2 & E3 & E4 & ? & ? & E5 & _).
  unfold wf. cbn. split_and!; [by apply release_core|by apply release_shape|done|done|congruence|].
  unfold overflow in *. cbn. by rewrite E4.
Qed.

Lemma now_plus_wf d k s :
  calm s → (d <= longest)%N → ((clock s + d <= instant_max)%N → wf (k (clock s + d)%N)) → wf (now_plus d k s).
Proof.
  intros Hc Hd Hk. unfold now_plus. destruct (checked_add (clock s) d) as [x|] eqn:E.
  - apply checked_add_Some in E as [-> ?]. by apply Hk.
  - apply checked_add_None in E. apply panic_wf; [done|]. unfold overflow. lia.
Qed.

Lemma grace_longest : (close_grace config <= longest)%N.
Proof. unfold longest. lia. Qed.
Lemma idle_longest d : idle_timeout config = Some d → (d <= longest)%N.
Proof. unfold longest. intros ->. cbn. lia. Qed.
Lemma linger_longest : (LINGER_IDLE <= longest)%N ∧ (LINGER_TOTAL <= longest)%N.
Proof. unfold longest. assert (LINGER_IDLE <= LINGER_TOTAL)%N by done. lia. Qed.
#[local] Hint Resolve grace_longest idle_longest : core.

Lemma bounded_grace s : bounded (clock s + close_grace config)%N s.
Proof. unfold bounded. lia. Qed.

Lemma core_deadline o s : core s → (∀ d, o = Some d → bounded d s) → core (set_close_deadline o s).
Proof. intros (H1 & H2 & H3 & H4) H. by split_and!. Qed.

Lemma calm_deadline o s : calm s → (∀ d, o = Some d → bounded d s) → calm (set_close_deadline o s).
Proof. intros (H1 & H2 & H3) H. split_and!; [by apply core_deadline|done|done]. Qed.

Lemma set_close_deadline_id s : set_close_deadline (close_deadline s) s = s.
Proof. by destruct s. Qed.

Lemma observe_wf k s :
  calm s → (∀ o, (∀ d, o = Some d → bounded d s) → wf (k o (set_close_deadline o s))) → wf (observe config k s).
Proof.
  intros Hc Hk. unfold observe. destruct (close_request_signal (chan s)); [|by apply Hk].
  destruct (close_deadline s) as [d|] eqn:E.
  - rewrite <- (set_close_deadline_id s), E at 1. apply Hk. intros ? [= <-].
    destruct Hc as ((_ & _ & _ & Hb) & _). by apply Hb.
  - apply now_plus_wf; [done|auto|]. intros _. apply Hk. intros ? [= <-]. apply bounded_grace.
Qed.

Lemma deadline_wf k s :
  calm s →
  (∀ d o, bounded d s → (∀ d, o = Some d → bounded d s) → wf (k d (set_close_deadline o s))) →
  wf (deadline config k s).
Proof.
  intros Hc Hk. unfold deadline. apply observe_wf; [done|]. intros [d|] Ho; [by apply Hk; auto|].
  apply now_plus_wf; [by apply calm_deadline|auto|]. intros _. apply Hk; [apply (bounded_grace s)|done].
Qed.

(** ** Closing *)

Lemma closing_wf n reason frame dl s :
  (n <= 1)%nat → pre n s → rx s = false → sealed (chan s) → bounded dl s → closes reason →
  wf (close_and_drain reason frame dl s).
Proof.
  intros Hn (Hc & Hs & Hcl & Hno) Hr Hse Hb Hcs. split_and!; [|done..]. split_and!; [|..|done|done|].
  - by apply core_hand_over.
  - by apply (shape_le (S n)), shape_hand_close; [lia|].
  - by apply no_close_last.
Qed.

Lemma pre_release n s : pre n s → pre n (release s).
Proof.
  intros (Hc & Hs & Hcl & Hno). pose proof (release_frames s) as (? & ? & ? & ? & ? & ? & E & _).
  split_and!; [by apply release_core|by apply release_shape|congruence|by unfold no_close; rewrite E].
Qed.

Lemma bounded_release d s : bounded d s → bounded d (release s).
Proof. unfold bounded. by destruct (release_frames s) as (_ & _ & _ & -> & _). Qed.

(** Release, then close by the handshake within the grace period. *)
Lemma released_closing n reason frame s :
  (n <= 1)%nat → pre n s → closes reason →
  wf (now_plus (close_grace config) (λ d, close_and_drain reason frame d (release s)) (release s)).
Proof.
  intros Hn Hp Hcs. pose proof (release_frames s) as (? & ? & ? & ? & ? & ? & _).
  apply now_plus_wf; [apply (pre_calm n); [lia|by apply pre_release]|auto|]. intros _.
  apply (closing_wf n); [done|by apply pre_release|done|done|apply bounded_grace|done].
Qed.

Lemma on_cancelled_wf n s : (n <= 1)%nat → pre n s → wf (on_cancelled config s).
Proof. intros Hn Hp. by apply (released_closing n). Qed.

(** The close of a sender was taken from the queue. *)
Definition taken (code : N) (reason : bytes) (s : Session) : Prop :=
  core s ∧ shape 0 s ∧ closed s = [] ∧ settled s ∧ messages (ch_log (chan s)).*2 = from_queue (frames s)
  ∧ (∀ code' reason', Close code' reason' ∈ ch_received (chan s) → code' = code ∧ reason' = reason).

Lemma taken_calm code reason s : taken code reason s → calm s.
Proof. intros (? & ?%(shape_le 0 2) & ? & _); [|lia]. by split_and!. Qed.

Lemma sender_close_wf code reason dl s : taken code reason s → bounded dl s → wf (sender_close code reason dl s).
Proof.
  intros (Hc & Hs & Hcl & Hset & Hlog & Honly) Hb.
  pose proof (release_frames s) as (E1 & E2 & E3 & E4 & ? & ? & E5 & E6).
  unfold sender_close, close_and_drain, wf. cbn. unfold bounded. cbn. rewrite E2, E4. split_and!; [|done..].
  split_and!; [|..|done|done|].
  - by apply core_hand_over, release_core.
  - apply (shape_le 1); [lia|]. by apply shape_hand_close, release_shape.
  - intros code' reason'. cbn. rewrite E1, E3, E5, E6. intros [-> ->]%Honly. exists (frames s).
    split_and!; [done|by apply shape_data|by rewrite Hset|done].
Qed.

Lemma on_sender_close_wf code reason s : taken code reason s → wf (on_sender_close config code reason s).
Proof.
  intros Ht. apply deadline_wf; [by eapply taken_calm|]. intros d o Hd Ho. apply sender_close_wf; [|done].
  destruct Ht as (? & ?). split; [by apply core_deadline|done].
Qed.

(** ** Receiving *)

(** What [try_recv] finds while the receiver is there and nothing was dropped. *)
Definition received_next (item : OutboundItem) (s s' : Session) : Prop :=
  ∃ c, recv (chan s) = Some c ∧ ch_queue (chan s) = item :: ch_queue c ∧ s' = set_chan c s.

Lemma try_recv_cases s :
  (∃ item s', try_recv s = (TrItem item, s') ∧ received_next item s s')
  ∨ (ch_queue (chan s) = [] ∧ (try_recv s = (TrEmpty, s) ∨ try_recv s = (TrDisconnected, s) ∧ ch_rx_closed (chan s) = true)).
Proof.
  unfold try_recv, received_next, recv. destruct (ch_queue (chan s)) as [|item q] eqn:E.
  - right. split; [done|]. destruct (ch_rx_closed _ && _) eqn:E'; [|by left].
    apply andb_true_iff in E' as [? _]. by right.
  - left. eexists item, _. split; [reflexivity|]. eexists. by split_and!.
Qed.

Lemma recv_fields item s s' :
  received_next item s s' →
  chan s' = set_slots (ch_slots (chan s) + 1) (set_rx (ch_rx_closed (chan s)) (ch_queue (chan s')) (ch_received (chan s) ++ [item])
              (ch_dropped (chan s)) (chan s)).
Proof. intros (c & E & Hq & ->). unfold recv in E. rewrite Hq in E. by injection E as <-. Qed.

Lemma messages_app l1 l2 : messages (l1 ++ l2) = messages l1 ++ messages l2.
Proof. unfold messages. by rewrite omap_app. Qed.

(** A message that is taken is handed over. *)
Lemma take_message m s s' :
  pre 0 s → received_next (Message m) s s' →
  pre 0 (hand_over ByQueue (to_tungstenite_message m) s').
Proof.
  intros ((H1 & H2 & H3 & H4) & Hs & Hcl & Hno) Hr. pose proof (recv_fields _ _ _ Hr) as E.
  destruct Hr as (c & Er & Hq & ->). cbn in E. split_and!.
  - split_and!; [|done| |done].
    + apply (rtc_r _ (chan s)); [done|by exists LRecv].
    + cbn. rewrite E. cbn. rewrite messages_app. unfold from_queue. rewrite omap_app. cbn. f_equal. exact H3.
  - apply shape_hand_data; [apply data_message|done].
  - done.
  - unfold no_close. cbn. rewrite E. cbn. rewrite existsb_app. unfold no_close in Hno. by rewrite Hno.
Qed.

Lemma unsealed_recv item s s' : received_next item s s' → unsealed (chan s) → unsealed (chan s').
Proof. intros Hr. rewrite (recv_fields _ _ _ Hr). done. Qed.
Lemma sealed_recv item s s' : received_next item s s' → sealed (chan s) → sealed (chan s').
Proof. intros Hr. rewrite (recv_fields _ _ _ Hr). done. Qed.

(** A close that is taken is the last item of the log. *)
Lemma take_close code reason s s' :
  pre 0 s → settled s → ch_dropped (chan s) = [] → received_next (Close code reason) s s' → taken code reason s'.
Proof.
  intros ((H1 & H2 & H3 & H4) & Hs & Hcl & Hno) Hset Hd Hr. pose proof (recv_fields _ _ _ Hr) as E.
  destruct Hr as (c & Er & Hq & ->). cbn in E. pose proof (channel_inv _ _ H1) as I.
  assert ((ch_log (chan s)).*2 = ch_received (chan s) ++ [Close code reason]) as Hlog.
  { rewrite (inv_fifo _ _ I), Hd, Hq. cbn [app]. do 2 f_equal.
    apply (inv_last _ _ I (ch_received (chan s)) (Close code reason)); [|done].
    by rewrite (inv_fifo _ _ I), Hd, Hq. }
  split_and!; [split_and!; [|done| |done]|done|done|done| |].
  - apply (rtc_r _ (chan s)); [done|by exists LRecv].
  - cbn. rewrite E. cbn. rewrite messages_app. cbn. by rewrite app_nil_r.
  - cbn. rewrite E. cbn. rewrite Hlog, messages_app. cbn. by rewrite app_nil_r.
  - intros code' reason'. cbn. rewrite E. cbn. intros [Hin|Hin]%elem_of_app.
    + exfalso. apply not_true_iff_false in Hno. apply Hno, existsb_exists. exists (Close code' reason').
      split; [by apply list_elem_of_In|done].
    + apply list_elem_of_singleton in Hin. by injection Hin.
Qed.

(** ** The loop and the handler *)

Definition cont_ok (k : Cont) (s : Session) : Prop :=
  match k with KDrainToClose _ => closing (chan s) = true | _ => True end.

Lemma settled_hand o f s : settled s → sending (hand_over o f s).
Proof. unfold settled, sending. intros E. cbn. rewrite length_app, E. cbn. lia. Qed.

Lemma pre_hand o f s : o ≠ ByQueue → data (o, f) = true → pre 0 s → pre 0 (hand_over o f s).
Proof. intros Ho Hf (? & ? & ? & ?). split_and!; [by apply core_hand_over|by apply shape_hand_data|done|done]. Qed.

Lemma send_bounded_wf o f k s :
  o ≠ ByQueue → data (o, f) = true → live s → settled s → cont_ok k s → wf (send_bounded o f k s).
Proof.
  intros Ho Hf (Hp & Hr & Hu) Hs Hk. split_and!; [|by apply settled_hand|by destruct k].
  split_and!; [by apply pre_hand|done|done].
Qed.

Lemma live_try_recv s :
  live s → settled s →
  (∃ m s', try_recv s = (TrItem (Message m), s')
     ∧ ∀ k, cont_ok k s → wf (send_bounded ByQueue (to_tungstenite_message m) k s'))
  ∨ (∃ code reason s', try_recv s = (TrItem (Close code reason), s') ∧ wf (on_sender_close config code reason s'))
  ∨ try_recv s = (TrEmpty, s) ∧ ch_queue (chan s) = [].
Proof.
  intros (Hp & Hr & Hu) Hs.
  destruct (try_recv_cases s) as [([m|code reason] & s' & E & Hn)|(Hq & [E|[E Hc]])].
  - left. exists m, s'. split; [done|]. intros k Hk.
    pose proof (take_message _ _ _ Hp Hn) as Hp'. pose proof (unsealed_recv _ _ _ Hn Hu) as Hu'.
    pose proof (recv_fields _ _ _ Hn) as Ec. destruct Hn as (c & _ & _ & ->).
    split_and!; [by split_and!|by apply settled_hand|]. destruct k; try done. cbn in Ec. cbn. by rewrite Ec.
  - right. left. exists code, reason, s'. split; [done|]. apply on_sender_close_wf.
    apply (take_close code reason s); [done|done|apply Hu|done].
  - right. right. done.
  - destruct Hu as (? & _). congruence.
Qed.

Lemma live_calm s : live s → calm s.
Proof. intros (? & _). by apply (pre_calm 0); [lia|]. Qed.
Lemma live_finish e s : live s → ending_ok e → wf (finish e s).
Proof. intros (? & _). by apply (finish_wf 0); [lia|]. Qed.
Lemma live_cancelled s : live s → wf (on_cancelled config s).
Proof. intros (? & _). by apply (on_cancelled_wf 0); [lia|]. Qed.
#[local] Hint Resolve live_calm live_finish live_cancelled : core.

Lemma enter_select_wf s : live s → settled s → wf (enter_select s).
Proof. intros Hl Hs. unfold enter_select. by destruct (rx s). Qed.

Lemma loop_top_wf s : live s → settled s → wf (loop_top s).
Proof.
  intros Hl Hs. unfold loop_top. destruct (keepalive s) as [ka|]; [|by apply enter_select_wf].
  destruct (ka_pending ka); [by apply enter_select_wf|].
  destruct (_ <=? _)%N; [|by apply enter_select_wf]. by apply send_bounded_wf.
Qed.

Lemma end_of_message_wf s : live s → settled s → wf (end_of_message config s).
Proof.
  intros Hl Hs. unfold end_of_message. destruct (idle_timeout config) as [d|] eqn:E; [|done].
  apply now_plus_wf; [auto|by apply idle_longest|done].
Qed.

Lemma on_timer_wf kind s : live s → settled s → wf (on_timer config kind s).
Proof. intros Hl Hs. destruct kind; [| |done]; apply (released_closing 0); (lia || apply Hl || done). Qed.

Lemma big_wf e s : live s → ending_ok e → wf (handle_message_too_big config e s).
Proof.
  intros Hl He. apply deadline_wf; [auto|]. intros d o Hd Ho.
  assert (pre 0 (set_close_deadline o s)) as Hp.
  { destruct Hl as ((Hc & ? & ? & ?) & _). split_and!; [by apply core_deadline|done..]. }
  pose proof (release_frames (set_close_deadline o s)) as (_ & Hcl & _ & Hk & Hr & Hse & E & _).
  apply pre_release in Hp as (Hc & Hs & Hcl' & Hno). split_and!; [|done|by apply bounded_release|done].
  split_and!; [by apply core_hand_over| |done|done|by apply no_close_last].
  apply (shape_le 1); [lia|]. by apply shape_hand_close.
Qed.

Lemma on_message_frame_wf m s : live s → settled s → wf (on_message_frame config m s).
Proof.
  intros Hl Hs. unfold on_message_frame. destruct m as [[f|err]|].
  - destruct f; [done|done|by apply end_of_message_wf| |by apply live_finish|by apply end_of_message_wf].
    by apply end_of_message_wf.
  - pose proof (live_finish _ _ Hl (recv_ok err)). destruct (recv_reason err); [done..|by apply big_wf|done|done|done].
  - by apply live_finish.
Qed.

Lemma poll_inbound_wf w s s' : live s → settled s → poll_inbound config w s = Some s' → wf s'.
Proof.
  intros Hl Hs E. unfold poll_inbound in E.
  assert (∀ o, match o with Some (dl, kind) => if (dl <=? clock s)%N then Some (on_timer config kind s) else None
                          | None => None end = Some s' → wf s') as Ht.
  { intros [[dl kind]|]; [|done]. destruct (_ <=? _)%N; [|done]. intros [= <-]. by apply on_timer_wf. }
  destruct w; try (by eapply Ht). injection E as <-. by apply on_message_frame_wf.
Qed.

(** A control point that receives from the queue. *)
Lemma on_outbound_wf k again s s' :
  live s → settled s → cont_ok k s →
  (let (o, s) := try_recv s in on_outbound config o k again s) = Some s' → wf s'.
Proof.
  intros Hl Hs Hk E.
  destruct (live_try_recv s Hl Hs) as [(m & s1 & E1 & H)|[(code & reason & s1 & E1 & H)|[E1 _]]];
    rewrite E1 in E; cbn in E; [| |done]; injection E as <-; [by apply H|done].
Qed.

Lemma poll_select_wf w s : live s → settled s → wf s → wf (default s (poll_select config w s)).
Proof.
  intros Hl Hs Hw. unfold poll_select. destruct (cancelled s); [by apply live_cancelled|].
  assert (∀ x, poll_outbound config s = Some x → wf x) as Ho.
  { intros x E. unfold poll_outbound in E. destruct (rx s); [|done]. by apply (on_outbound_wf KLoop PTop s). }
  pose proof (λ x, poll_inbound_wf w s x Hl Hs) as Hi. unfold first_of.
  destruct (poll_outbound config s) as [x|], (poll_inbound config w s) as [y|], (rx s && prefer_outbound s); cbn; auto.
Qed.

Lemma after_send_wf k s : live s → sending s → cont_ok k s → wf (after_send k (wrote_frame s)).
Proof.
  intros Hl Hs Hk. assert (live (wrote_frame s) ∧ settled (wrote_frame s)) as [Hl' Hs'] by done.
  destruct k; try done. by apply enter_select_wf.
Qed.

Lemma poll_send_wf frame expires stalls k w s :
  live s → sending s → cont_ok k s → wf (poll_send config frame expires stalls k w s).
Proof.
  intros Hl Hs Hk. unfold poll_send. destruct (cancelled s); [auto|].
  assert (wf (poll_expired config expires (poll_stall config frame k stalls) s)) as He.
  { unfold poll_expired. destruct (elapsed expires s); [by apply live_finish|].
    apply observe_wf; [auto|]. intros o Ho.
    assert (live (set_close_deadline o s)) as Hl'.
    { destruct Hl as ((Hc & ? & ? & ?) & ?). split; [|done]. split_and!; [by apply core_deadline|done..]. }
    destruct (elapsed o _); [by apply live_finish|]. unfold poll_stall.
    destruct (ws_ping config); [|by split_and!]. case_match; by (apply live_finish || split_and!). }
  destruct w as [| |[|err]| | |]; try done; [by apply after_send_wf|by apply live_finish].
Qed.

Lemma flush_done_wf for_ grace s :
  pre 0 s → sealed (chan s) → bounded grace s → wf (flush_done for_ grace s).
Proof.
  intros Hp Hse Hb. destruct for_; cbn [flush_done].
  - split_and!; [|done|done]. destruct Hp as (Hc & Hs & ? & ?).
    split_and!; [by apply core_hand_over|by apply shape_hand_close|done|done].
  - by apply (finish_wf 0); [lia| |].
Qed.

Lemma flush_outbound_wf for_ grace s : live s → settled s → bounded grace s → wf (flush_outbound config for_ grace s).
Proof.
  intros Hl Hs Hb. apply observe_wf; [auto|]. intros o Ho.
  destruct Hl as ((Hc & Hsh & Hcl & Hno) & Hr & Hu).
  assert (core (seal_session (set_close_deadline o s))) as Hc' by (by apply seal_core, core_deadline).
  cbn. rewrite Hr. split_and!; [|done| |done].
  - destruct Hu as (_ & Hd & _). split_and!; [|done|done|done]. split_and!; [|done|done|done].
    by apply (chan_reach _ LRxClose (rx_close (chan (seal_session (set_close_deadline o s))))) in Hc'.
  - unfold bounded in *. cbn. destruct o as [d|]; [|done]. specialize (Ho d eq_refl). unfold bounded in Ho. lia.
Qed.

Lemma flush_next_wf for_ dl grace s :
  flushing s → settled s → bounded dl s → bounded grace s → wf (flush_next for_ dl grace s).
Proof.
  intros (Hp & Hr & Hse & Hd) Hs Hdl Hg. unfold flush_next.
  assert (wf (flush_done for_ grace s)) as Hdone by by apply flush_done_wf.
  destruct (try_recv_cases s) as [([m|code reason] & s' & -> & Hn)|(_ & [-> |[-> _]])]; [| |done|done].
  - pose proof (take_message _ _ _ Hp Hn) as Hp'. pose proof (sealed_recv _ _ _ Hn Hse) as Hse'.
    pose proof (recv_fields _ _ _ Hn) as Ec. destruct Hn as (c & _ & _ & ->).
    split_and!; [|by apply settled_hand|done|done]. split_and!; [done|done|done|]. cbn in *. by rewrite Ec.
  - pose proof (take_close _ _ _ _ Hp Hs Hd Hn) as Ht. destruct Hn as (c & _ & _ & ->).
    by apply sender_close_wf.
Qed.

Lemma flush_ends_wf for_ s : flushing s → wf (flush_timed_out for_ s) ∧ ∀ err, wf (flush_failed for_ err s).
Proof. intros (Hp & _). destruct for_; split; intros; (apply (finish_wf 0); [lia|done|auto; done]). Qed.

Lemma poll_flush_send_wf f for_ dl grace w s :
  flushing s → sending s → bounded dl s → bounded grace s → pc s = PFlushSend f for_ dl grace →
  wf (poll_flush_send config for_ dl grace w s).
Proof.
  intros Hf Hs Hdl Hg Epc. unfold poll_flush_send.
  destruct (cancelled s); [apply (on_cancelled_wf 0); [lia|apply Hf]|].
  assert (wf (if (dl <=? clock s)%N then flush_timed_out for_ s else s)) as Hw.
  { destruct (_ <=? _)%N; [by apply flush_ends_wf|]. unfold wf. by rewrite Epc. }
  destruct w as [| |[|err]| | |]; try done. by apply flush_ends_wf.
Qed.

Lemma poll_handler_close_wf dl w s :
  wf s → pc s = PHandlerClose dl → wf (poll_handler_close config dl w s).
Proof.
  intros Hw Epc. assert (pre 1 s ∧ sealed (chan s) ∧ bounded dl s) as (Hp & Hse & Hb) by (by unfold wf in Hw; rewrite Epc in Hw).
  unfold poll_handler_close. destruct (cancelled s); [by apply (on_cancelled_wf 1)|].
  assert (wf (if (dl <=? clock s)%N then finish (HandlerClose, Ok tt) s else s)) as H.
  { destruct (_ <=? _)%N; [|done]. apply (finish_wf 1); [lia|done|done]. }
  destruct w as [| |[|err]| | |]; try done; (apply (finish_wf 1); [lia|done|]); [done|auto].
Qed.

Lemma handler_done_wf r s : live s → settled s → wf (handler_done config r s).
Proof.
  intros Hl Hs. destruct r as [[ms|]|err]; cbn [handler_done]; [done|..];
    (apply now_plus_wf; [auto..|]; intros _; apply flush_outbound_wf; [done|done|apply bounded_grace]).
Qed.

Lemma poll_handler_wf w s : live s → settled s → wf s → wf (default s (poll_handler config w s)).
Proof.
  intros Hl Hs Hw. unfold poll_handler. destruct (cancelled s); [cbn; auto|].
  assert (wf (default s (if rx s then let (o, s) := try_recv s in on_outbound config o KHandler PHandler s else None))) as Ho.
  { destruct (rx s); [|done]. destruct (let (o, s) := try_recv s in on_outbound config o KHandler PHandler s) as [x|] eqn:E; [|done]. cbn.
    by apply (on_outbound_wf KHandler PHandler s). }
  destruct w; try done. by apply handler_done_wf.
Qed.

Lemma before_apply_wf ms s : live s → settled s → wf (before_apply config ms s).
Proof. intros Hl Hs. apply now_plus_wf; [auto|auto|done]. Qed.

Lemma drain_before_reply_wf n ms s : live s → settled s → wf (drain_before_reply config n ms s).
Proof.
  intros Hl Hs. destruct n as [|n]; cbn [drain_before_reply]; [by apply before_apply_wf|].
  destruct (rx s); [|by apply before_apply_wf].
  destruct (live_try_recv s Hl Hs) as [(m & s1 & -> & H)|[(code & reason & s1 & -> & H)|[-> _]]];
    [by apply H|done|by apply before_apply_wf].
Qed.

(** The queue of a channel with a committed close does not run empty before the close. *)
Lemma drain_to_close_wf ms s : live s → settled s → closing (chan s) = true → wf (drain_to_close config ms s).
Proof.
  intros Hl Hs Hcl. unfold drain_to_close. destruct (rx s) eqn:Hr; [|done].
  destruct (live_try_recv s Hl Hs) as [(m & s1 & -> & H)|[(code & reason & s1 & -> & H)|[_ Hq]]];
    [by apply H|done|exfalso].
  destruct Hl as (((Hc & _) & _ & _ & Hno) & _ & _ & Hd & Hco). specialize (Hco Hcl).
  rewrite (inv_fifo _ _ (channel_inv _ _ Hc)), Hd, Hq, !app_nil_r in Hco. unfold no_close in Hno. congruence.
Qed.

Lemma reply_wf ms s : live s → settled s → wf (reply config ms s).
Proof.
  intros Hl Hs. destruct ms as [|m ms]; [by apply end_of_message_wf|].
  apply send_bounded_wf; [done|by destruct m|done..].
Qed.

(** ** The end of a connection *)

Lemma over_wrote s : over s → over (wrote_frame s).
Proof.
  intros (Hc & Hs & Hr & Hse & Hl). split_and!; [done..|]. intros code reason H.
  destruct (Hl code reason H) as (ds & ? & ? & ? & ?). exists ds. split_and!; [done..| |done]. cbn. lia.
Qed.

Lemma over_calm s : over s → closed s = [] → calm s.
Proof. by intros (? & ? & _). Qed.

Lemma linger_wf e dl ld s : over s → closed s = [] → bounded dl s → ending_ok e → wf (linger e dl ld s).
Proof. intros Ho Hcl Hb He. apply now_plus_wf; [by apply over_calm|apply linger_longest|done]. Qed.

Lemma poll_end_wf w s :
  wf s → match pc s with PClosing _ _ _ | PDraining _ _ | PBigClose _ _ | PBigShutdown _ _ | PBigLinger _ _ _ _ => True
                    | _ => False end → wf (poll config w s).
Proof.
  intros Hw Hpc. unfold poll. pose proof Hw as Hw'. unfold wf in Hw'. destruct (pc s) eqn:Epc; try done.
  - destruct Hw' as (Ho & Hcl & Hb & Hcs). destruct (closes_ok _ Hcs).
    unfold poll_closing, at_end. pose proof (over_wrote s Ho).
    destruct w as [| |[|[]]| | |]; repeat case_match; done || by apply over_finish.
  - destruct Hw' as (Ho & Hcl & Hb & Hcs). destruct (closes_ok _ Hcs).
    unfold poll_draining, at_end. repeat case_match; done || by apply over_finish.
  - destruct Hw' as (Ho & Hcl & Hb & He). pose proof (over_wrote s Ho).
    unfold poll_big_close. destruct w as [| |[|[]]| | |]; repeat case_match; done || by apply over_finish.
  - destruct Hw' as (Ho & Hcl & Hb & He). unfold poll_big_shutdown.
    destruct w; try (case_match; [by apply over_finish|done]).
    apply now_plus_wf; [by apply over_calm|apply linger_longest|]. intros _. by apply linger_wf.
  - destruct Hw' as (Ho & Hcl & Hb & He). unfold poll_big_linger.
    repeat case_match; done || (by apply over_finish) || by apply linger_wf.
Qed.

Lemma start_wf s : live s → settled s → wf (start config s).
Proof.
  intros Hl Hs. unfold start. destruct (idle_timeout config) as [d|] eqn:E; [|done].
  apply now_plus_wf; [auto|by apply idle_longest|done].
Qed.

(** ** Every step keeps the invariant *)

Lemma poll_wf w s : wf s → wf (poll config w s).
Proof.
  intros Hw. pose proof Hw as Hw'. unfold wf in Hw'. unfold poll. destruct (pc s) eqn:Epc.
  - destruct Hw'. by apply start_wf.
  - destruct Hw'. by apply loop_top_wf.
  - destruct Hw'. by apply poll_select_wf.
  - destruct Hw' as (? & ? & ?). by apply poll_send_wf.
  - destruct Hw'. by apply poll_handler_wf.
  - destruct Hw'. by apply drain_before_reply_wf.
  - destruct Hw'. unfold apply_reply, close_committed. by destruct (closing (chan s)) eqn:E.
  - destruct Hw' as (? & ? & ?). by apply drain_to_close_wf.
  - destruct Hw'. by apply reply_wf.
  - destruct Hw' as (? & ? & ? & ?). by apply flush_next_wf.
  - destruct Hw' as (? & ? & ? & ?). by eapply poll_flush_send_wf.
  - by apply poll_handler_close_wf.
  - pose proof (poll_end_wf w s Hw) as H. unfold poll in H. rewrite Epc in H. by apply H.
  - pose proof (poll_end_wf w s Hw) as H. unfold poll in H. rewrite Epc in H. by apply H.
  - pose proof (poll_end_wf w s Hw) as H. unfold poll in H. rewrite Epc in H. by apply H.
  - pose proof (poll_end_wf w s Hw) as H. unfold poll in H. rewrite Epc in H. by apply H.
  - pose proof (poll_end_wf w s Hw) as H. unfold poll in H. rewrite Epc in H. by apply H.
  - destruct Hw' as (? & Hcl & ?). unfold wf. cbn. by rewrite Hcl.
  - done.
  - done.
Qed.

(** Lifts the parts of the invariant one by one. *)
Ltac lift_wf :=
  repeat match goal with H : _ ∧ _ |- _ => destruct H end; repeat match goal with |- _ ∧ _ => split end; auto.

(** What holds at every control point. *)
Lemma wf_facts s : wf s → core s ∧ shape 2 s ∧ (clock s <= instant_max)%N.
Proof.
  intros Hw. assert (core s ∧ ∃ n, (n <= 2)%nat ∧ shape n s) as [Hc (n & Hn & Hs)].
  { unfold wf, live, flushing, over, pre in Hw.
    destruct (pc s); repeat match goal with H : _ ∧ _ |- _ => destruct H end; (split; [done|]);
      ((by exists 0%nat; split; [lia|]) || (by exists 1%nat; split; [lia|]) || by exists 2%nat). }
  split_and!; [done|by apply (shape_le n)|apply Hc].
Qed.

(** The senders, the clock and the cancellation. *)
Lemma chan_wf l c s : wf s → sender_label l = true → WsChannel.apply l (chan s) = Some c → wf (set_chan c s).
Proof.
  intros Hw Hl E. destruct (sender_step l _ _ Hl E) as (Er & Ed & Hse & Hcl & Hu).
  assert (core s → core (set_chan c s)) as Hc by (intros H; by apply (chan_reach _ l)).
  assert (∀ n, pre n s → pre n (set_chan c s)) as Hp.
  { intros n (? & ? & ? & ?). split_and!; [auto|done|done|unfold no_close; cbn; by rewrite Er]. }
  assert (live s → live (set_chan c s)) as Hli by (intros (? & ? & ?); split_and!; [auto|done|by apply Hu]).
  assert (flushing s → flushing (set_chan c s)) as Hfl.
  { intros (? & ? & ? & ?). split; [auto|]. split; [done|]. split; [auto|cbn; congruence]. }
  assert (over s → over (set_chan c s)) as Hov.
  { intros (? & ? & ? & Hs & H). split; [auto|]. split; [done|]. split; [done|]. split; [auto|].
    unfold close_last. cbn. rewrite Er. destruct Hs as [Hs _].
    destruct (closing_step _ _ (ex_intro _ l E) Hs) as [_ ->]. exact H. }
  unfold wf in *. cbn. destruct (pc s) as [| | | ? ? ? k| | | | | | | | | | | | | | | |] eqn:Epc; lift_wf.
  by destruct k; auto.
Qed.

Lemma time_wf now c s : wf s → (clock s <= now)%N → (now <= instant_max)%N → wf (set_time now c s).
Proof.
  intros Hw Hle Hmax.
  assert (∀ d, bounded d s → bounded d (set_time now c s)) as Hb by (unfold bounded; cbn; lia).
  assert (core s → core (set_time now c s)) as Hc.
  { intros (? & ? & ? & H). split_and!; [done|done|done|]. intros d Hd. by apply Hb, H. }
  assert (∀ n, pre n s → pre n (set_time now c s)) as Hp by (intros n (? & ? & ? & ?); split_and!; auto).
  assert (live s → live (set_time now c s)) as Hli by (intros (? & ? & ?); split_and!; auto).
  assert (flushing s → flushing (set_time now c s)) as Hfl by (intros (? & ?); split; auto).
  assert (over s → over (set_time now c s)) as Hov by (intros (? & ?); split; auto).
  assert (overflow s → overflow (set_time now c s)) as Hof by (unfold overflow; cbn; lia).
  unfold wf in *. cbn. destruct (pc s); lift_wf.
Qed.

Lemma session_init_wf now : (now <= instant_max)%N → wf (session_init config now).
Proof.
  intros H. split; [|done]. split; [|done]. split_and!; [|by exists [], []|done|done].
  split_and!; [apply rtc_refl|done|done|done].
Qed.

Lemma session_apply_wf l s s' : wf s → session_apply config l s = Some s' → wf s'.
Proof.
  intros Hw E. destruct l as [l|d| |w]; cbn in E.
  - destruct (sender_label l) eqn:Hl; [|done]. destruct (WsChannel.apply l (chan s)) as [c|] eqn:Ec; [|done].
    injection E as <-. by eapply chan_wf.
  - destruct (checked_add (clock s) d) as [now|] eqn:Ed; [|done]. injection E as <-.
    apply checked_add_Some in Ed as [-> ?]. apply time_wf; [done|lia|done].
  - injection E as <-. apply time_wf; [done|lia|]. apply wf_facts, Hw.
  - injection E as <-. by apply poll_wf.
Qed.

Lemma session_wf now s : (now <= instant_max)%N → session_reachable config now s → wf s.
Proof.
  intros Hn H. unfold session_reachable in H. remember (session_init config now) as s0 eqn:E0.
  assert (wf s0) as I by (subst; by apply session_init_wf). clear E0.
  induction H as [|s1 s2 s3 [l E] _ IH]; [done|]. apply IH. by eapply session_apply_wf.
Qed.

(** ** Theorems *)

Lemma wf_close_last s : wf s → pc s ≠ PPanicked → close_last s.
Proof.
  intros Hw Hp. unfold wf, live, flushing, over, pre in Hw.
  destruct (pc s); repeat match goal with H : _ ∧ _ |- _ => destruct H end; by (done || apply no_close_last).
Qed.

(** C18: The frames of a session, whatever its peer, its handler and its senders do.  Its data frames
    come before any close and at most two closes are ever handed over (the second one, which
    tungstenite refuses, after a cancellation during the handler's own close); what senders
    committed was handed over in the order of the commits with no message lost or repeated, up to
    what still waits in the queue or was dropped at the end; and when the close of a sender is
    reached, every message committed before it has been written, its frame is the last one and it
    carries the code and the reason that were asked for. *)
Theorem session_frames now s :
  (now <= instant_max)%N → session_reachable config now s →
  (∃ ds cs, frames s = ds ++ cs ∧ forallb data ds = true ∧ forallb (λ f, negb (data f)) cs = true
            ∧ (length cs <= 2)%nat)
  ∧ messages (ch_log (chan s)).*2
    = from_queue (frames s) ++ messages (ch_dropped (chan s)) ++ messages (ch_queue (chan s))
  ∧ (pc s ≠ PPanicked → ∀ code reason, Close code reason ∈ ch_received (chan s) →
       ∃ ds, frames s = ds ++ [(ByClose, FClose (Some (to_close_frame code reason)))]
             ∧ forallb data ds = true ∧ (length ds <= written s)%nat
             ∧ messages (ch_log (chan s)).*2 = from_queue ds).
Proof.
  intros Hn Hr. pose proof (session_wf now s Hn Hr) as Hw. destruct (wf_facts s Hw) as ((Hc & _ & Hq & _) & Hs & _).
  split_and!; [done| |].
  - by rewrite (inv_fifo _ _ (channel_inv _ _ Hc)), !messages_app, Hq.
  - intros Hp. by apply wf_close_last.
Qed.

(** C20: A session that returns has called [on_close] exactly once, with the reason that agrees with
    the result it returns, and until then it has not called it; its channel is sealed and the
    receiver is gone, so that nothing is committed any more. *)
Theorem session_outcome now s :
  (now <= instant_max)%N → session_reachable config now s →
  ((∀ e, pc s ≠ PReturned e) → closed s = [])
  ∧ ∀ reason r, pc s = PReturned (reason, r) →
      closed s = [reason] ∧ ending_ok (reason, r)
      ∧ rx s = false ∧ is_closed (chan s) = true ∧ closed_signal (chan s) = true
      ∧ ∀ l c, WsChannel.apply l (chan s) = Some c → ch_log c = ch_log (chan s).
Proof.
  intros Hn Hr. pose proof (session_wf now s Hn Hr) as Hw. split.
  - intros Hp. unfold wf, live, flushing, pre in Hw.
    destruct (pc s) as [| | | | | | | | | | | | | | | | | |e|];
      repeat match goal with H : _ ∧ _ |- _ => destruct H end; try done. by destruct (Hp e).
  - intros reason r E. unfold wf in Hw. rewrite E in Hw. destruct Hw as ((_ & _ & Hx & [Hc Hs] & _) & Hcl & He).
    split_and!; [done..| | |]; [unfold is_closed; by rewrite Hc|done|].
    intros l c El. by destruct (closing_step _ _ (ex_intro _ l El) Hc).
Qed.

(** *** Termination *)

(** How many polls a cancelled session is from its closing phase. *)
Definition cancel_rank (p : PC) : nat :=
  match p with
  | PDrainBefore _ _ => 6
  | PApplyReply _ => 5
  | PDrainToClose _ => 4
  | PReply _ | PStart => 3
  | PTop | PFlush _ _ _ => 2
  | PSelect | PSend _ _ _ _ | PHandler | PFlushSend _ _ _ _ | PHandlerClose _ => 1
  | _ => 0
  end.

Definition rank (s : Session) : nat := cancel_rank (pc s).

Lemma now_plus_rank n d k s : (∀ x, rank (k x) <= n)%nat → (rank (now_plus d k s) <= n)%nat.
Proof. intros H. unfold now_plus. destruct (checked_add _ _); [apply H|unfold rank; cbn; lia]. Qed.

Lemma observe_rank n k s : (∀ o s, rank (k o s) <= n)%nat → (rank (observe config k s) <= n)%nat.
Proof.
  intros H. unfold observe. destruct (close_request_signal _); [|apply H].
  destruct (close_deadline s); [apply H|]. apply now_plus_rank. auto.
Qed.

Lemma deadline_rank n k s : (∀ d s, rank (k d s) <= n)%nat → (rank (deadline config k s) <= n)%nat.
Proof. intros H. apply observe_rank. intros [d|] s'; [apply H|]. apply now_plus_rank. auto. Qed.

Lemma on_cancelled_rank s : (rank (on_cancelled config s) <= 0)%nat.
Proof. by apply now_plus_rank. Qed.
Lemma on_sender_close_rank code reason s : (rank (on_sender_close config code reason s) <= 0)%nat.
Proof. by apply deadline_rank. Qed.
Lemma flush_done_rank for_ d s : (rank (flush_done for_ d s) <= 1)%nat.
Proof. destruct for_; unfold rank; cbn; lia. Qed.

(** In every state that the invariant allows, a poll of a cancelled session brings it nearer. *)
Lemma cancel_rank_step w s : cancelled s = true → (rank (poll config w s) <= pred (rank s))%nat.
Proof.
  intros Hc. unfold poll. unfold rank at 2. destruct (pc s) eqn:Epc; cbn [cancel_rank pred].
  - unfold start. destruct (idle_timeout config); [apply now_plus_rank; intros x|]; unfold rank; cbn; lia.
  - unfold loop_top, enter_select. destruct (keepalive s) as [ka|]; [destruct (ka_pending ka)|];
      repeat case_match; unfold rank; cbn; lia.
  - unfold poll_select. rewrite Hc. apply on_cancelled_rank.
  - unfold poll_send. rewrite Hc. apply on_cancelled_rank.
  - unfold poll_handler. rewrite Hc. apply on_cancelled_rank.
  - assert (∀ s, rank (before_apply config messages0 s) <= 5)%nat as Hb by (intros; by apply now_plus_rank).
    unfold drain_before_reply. destruct budget as [|n]; [apply Hb|]. destruct (rx s); [|apply Hb].
    destruct (try_recv s) as [[[m|code reason]| |] s']; try apply Hb; [unfold rank; cbn; lia|].
    etrans; [apply on_sender_close_rank|lia].
  - unfold apply_reply, rank. cbn. destruct (close_committed _); cbn; lia.
  - unfold drain_to_close. destruct (rx s); [|done].
    destruct (try_recv s) as [[[m|code reason]| |] s']; [unfold rank; cbn; lia| | |unfold rank; cbn; lia].
    + etrans; [apply on_sender_close_rank|lia].
    + destruct (close_committed _); unfold rank; cbn; lia.
  - destruct messages0 as [|m ms]; [|unfold rank; cbn; lia]. cbn. unfold end_of_message.
    destruct (idle_timeout config); [by apply now_plus_rank|done].
  - unfold flush_next. destruct (try_recv s) as [[[m|code reason]| |] s']; try apply flush_done_rank;
      unfold rank; cbn; lia.
  - unfold poll_flush_send. rewrite Hc. apply on_cancelled_rank.
  - unfold poll_handler_close. rewrite Hc. apply on_cancelled_rank.
  - unfold poll_closing, at_end. repeat case_match; unfold rank; cbn; rewrite ?Epc; cbn; lia.
  - unfold poll_draining, at_end. repeat case_match; unfold rank; cbn; rewrite ?Epc; cbn; lia.
  - unfold poll_big_close. repeat case_match; unfold rank; cbn; rewrite ?Epc; cbn; lia.
  - assert (∀ e dl ld s, rank (linger e dl ld s) <= 0)%nat by (intros; by apply now_plus_rank).
    unfold poll_big_shutdown. destruct w; try (apply now_plus_rank; auto);
      repeat case_match; unfold rank; cbn; rewrite ?Epc; cbn; lia.
  - assert (∀ e dl ld s, rank (linger e dl ld s) <= 0)%nat by (intros; by apply now_plus_rank).
    unfold poll_big_linger. repeat case_match; auto; unfold rank; cbn; rewrite ?Epc; cbn; lia.
  - done.
  - unfold rank. rewrite Epc. cbn. lia.
  - unfold rank. rewrite Epc. cbn. lia.
Qed.

(** A poll changes neither the clock nor the cancellation. *)
Definition env (s : Session) : Instant * bool := (clock s, cancelled s).

Lemma release_env s : env (release s) = env s.
Proof. unfold release. by destruct (rx _). Qed.
Lemma now_plus_env d k s e : env s = e → (∀ x, env (k x) = e) → env (now_plus d k s) = e.
Proof. intros <- H. unfold now_plus. destruct (checked_add _ _); [apply H|apply release_env]. Qed.
Lemma observe_env k s e : env s = e → (∀ o s, env s = e → env (k o s) = e) → env (observe config k s) = e.
Proof.
  intros He H. unfold observe. destruct (close_request_signal _); [|by apply H].
  destruct (close_deadline s); [by apply H|]. apply now_plus_env; [done|]. intros x. by apply H.
Qed.
Lemma deadline_env k s e : env s = e → (∀ d s, env s = e → env (k d s) = e) → env (deadline config k s) = e.
Proof.
  intros He H. apply observe_env; [done|]. intros [d|] s' Hs'; [by apply H|]. apply now_plus_env; [done|auto].
Qed.
Lemma on_cancelled_env s : env (on_cancelled config s) = env s.
Proof. apply now_plus_env; [apply release_env|]. intros x. apply release_env. Qed.
Lemma on_sender_close_env code reason s : env (on_sender_close config code reason s) = env s.
Proof. apply deadline_env; [done|]. intros d s' <-. apply release_env. Qed.
Lemma try_recv_env s : env (try_recv s).2 = env s.
Proof. unfold try_recv. by destruct (recv (chan s)), (ch_queue (chan s)). Qed.
Lemma finish_env e s : env (finish e s) = env s.
Proof. apply release_env. Qed.
Lemma end_of_message_env s : env (end_of_message config s) = env s.
Proof. unfold end_of_message. destruct (idle_timeout config); [by apply now_plus_env|done]. Qed.
Lemma flush_done_env for_ d s : env (flush_done for_ d s) = env s.
Proof. destruct for_; [done|apply finish_env]. Qed.
Lemma flush_ends_env for_ s : env (flush_timed_out for_ s) = env s ∧ ∀ err, env (flush_failed for_ err s) = env s.
Proof. destruct for_; split; intros; apply finish_env. Qed.
Lemma linger_env e dl ld s : env (linger e dl ld s) = env s.
Proof. by apply now_plus_env. Qed.
Lemma released_env s d reason f : env s = env (release s) →
  env (now_plus d (λ x, close_and_drain reason f x (release s)) (release s)) = env s.
Proof. intros E. by apply now_plus_env. Qed.

Lemma on_outbound_env k again s x :
  (let (o, s1) := try_recv s in on_outbound config o k again s1) = Some x → env x = env s.
Proof.
  pose proof (try_recv_env s) as E. destruct (try_recv s) as [[[m|code reason]| |] s1]; cbn in *; intros [= <-].
  - done.
  - by rewrite on_sender_close_env.
  - rewrite <- E. apply release_env.
Qed.

Lemma loop_top_env s : env (loop_top s) = env s.
Proof. unfold loop_top, enter_select. repeat case_match; done. Qed.

Lemma on_timer_env kind s : env (on_timer config kind s) = env s.
Proof. destruct kind; [| |done]; apply released_env, eq_sym, release_env. Qed.

Lemma on_message_frame_env m s : env (on_message_frame config m s) = env s.
Proof.
  unfold on_message_frame. repeat case_match; try apply finish_env; try done; try apply end_of_message_env.
  - by rewrite end_of_message_env.
  - apply deadline_env; [done|]. intros d s' <-. apply release_env.
Qed.

Lemma poll_inbound_env w s x : poll_inbound config w s = Some x → env x = env s.
Proof.
  unfold poll_inbound. intros E. repeat case_match; simplify_eq; apply on_timer_env || apply on_message_frame_env.
Qed.

Lemma poll_select_env w s : env (default s (poll_select config w s)) = env s.
Proof.
  unfold poll_select, first_of. destruct (cancelled s); [apply on_cancelled_env|].
  assert (∀ x, poll_outbound config s = Some x → env x = env s) as Ho.
  { intros x E. unfold poll_outbound in E. destruct (rx s); [|done]. by apply (on_outbound_env KLoop PTop). }
  pose proof (poll_inbound_env w s) as Hi.
  destruct (poll_outbound config s), (poll_inbound config w s), (rx s && prefer_outbound s); cbn; auto.
Qed.

Lemma poll_send_env frame expires stalls k w s : env (poll_send config frame expires stalls k w s) = env s.
Proof.
  unfold poll_send. destruct (cancelled s); [apply on_cancelled_env|].
  assert (env (poll_expired config expires (poll_stall config frame k stalls) s) = env s) as He.
  { unfold poll_expired. destruct (elapsed expires s); [apply finish_env|]. apply observe_env; [done|].
    intros o s' E. destruct (elapsed o s'); [by rewrite finish_env|]. unfold poll_stall.
    destruct (ws_ping config); [|done]. case_match; by rewrite ?finish_env. }
  destruct w as [| |[|err]| | |]; try done; [|apply finish_env].
  destruct k; try done. cbn. unfold enter_select. by case_match.
Qed.

Lemma poll_handler_env w s : env (default s (poll_handler config w s)) = env s.
Proof.
  unfold poll_handler. destruct (cancelled s); [apply on_cancelled_env|].
  assert (env (default s (if rx s then let (o, s) := try_recv s in on_outbound config o KHandler PHandler s else None)) = env s) as Ho.
  { destruct (rx s); [|done].
    destruct (let (o, s) := try_recv s in on_outbound config o KHandler PHandler s) as [x|] eqn:E; [|done].
    by apply (on_outbound_env KHandler PHandler). }
  destruct w; try done. cbn. destruct r as [[ms|]|err]; [done|..]; (apply now_plus_env; [done|]; intros x;
    apply observe_env; [done|]; intros o s' <-; cbn; destruct (rx s'); [done|done || (etrans; [apply finish_env|done])]).
Qed.

Lemma drains_env s :
  (∀ n ms, env (drain_before_reply config n ms s) = env s) ∧ (∀ ms, env (drain_to_close config ms s) = env s)
  ∧ ∀ for_ dl d, env (flush_next for_ dl d s) = env s.
Proof.
  assert (∀ ms s, env (before_apply config ms s) = env s) as Hb by (intros; by apply now_plus_env).
  pose proof (try_recv_env s) as E. unfold drain_before_reply, drain_to_close, flush_next.
  split_and!; intros; [destruct n; [apply Hb|]|..]; (try (destruct (rx s); [|done || apply Hb]));
    destruct (try_recv s) as [[[m|code reason]| |] s1]; cbn in *; rewrite ?Hb, ?on_sender_close_env, ?flush_done_env;
    rewrite <- ?E; try done; try apply release_env.
  destruct (close_committed (chan s1)); [apply release_env|done].
Qed.

Lemma poll_env w s : env (poll config w s) = env s.
Proof.
  unfold poll. destruct (pc s) eqn:Epc; try done.
  - unfold start. destruct (idle_timeout config); [by apply now_plus_env|done].
  - apply loop_top_env.
  - apply poll_select_env.
  - apply poll_send_env.
  - apply poll_handler_env.
  - apply drains_env.
  - apply drains_env.
  - destruct messages0; [apply end_of_message_env|done].
  - apply drains_env.
  - unfold poll_flush_send. destruct (flush_ends_env for_ s).
    repeat case_match; try done; apply on_cancelled_env || auto.
  - unfold poll_handler_close. repeat case_match; try done; rewrite ?finish_env; done || apply on_cancelled_env.
  - unfold poll_closing, at_end. repeat case_match; by rewrite ?finish_env.
  - unfold poll_draining, at_end. repeat case_match; by rewrite ?finish_env.
  - unfold poll_big_close. repeat case_match; by rewrite ?finish_env.
  - unfold poll_big_shutdown. repeat case_match; rewrite ?finish_env; try done.
    apply now_plus_env; [done|]. intros x. apply linger_env.
  - unfold poll_big_linger. repeat case_match; rewrite ?finish_env, ?linger_env; done.
Qed.

(** [due t]: the session is closing with a deadline of at most [t], or is over. *)
Definition due (t : Instant) (s : Session) : Prop :=
  match pc s with
  | PClosing _ _ dl | PDraining _ dl | PBigClose _ dl | PBigShutdown _ dl | PBigLinger _ dl _ _ => (dl <= t)%N
  | PEnding _ | PReturned _ | PPanicked => True
  | _ => False
  end.

Lemma now_plus_due t d k s : (∀ x, due t (k x)) → due t (now_plus d k s).
Proof. intros H. unfold now_plus. by destruct (checked_add _ _). Qed.

(** The closing phase begins within the grace period, *)
Lemma closing_due s : wf s → rank s = 0%nat → due (clock s + close_grace config)%N s.
Proof.
  unfold wf, rank, due, bounded. intros Hw Hr. destruct (pc s); try done; by destruct Hw as (_ & _ & Hb & _).
Qed.

(** and its deadline is never moved, whatever the peer sends. *)
Lemma poll_due t w s : due t s → due t (poll config w s).
Proof.
  assert (∀ e dl ld s0, (dl <= t)%N → due t (linger e dl ld s0)) as Hl.
  { intros e dl ld s0 H. by apply now_plus_due. }
  unfold due at 1, poll. intros Hd. destruct (pc s) as [| | | | | | | | | | | |reason o dl|reason dl|e dl|e dl|e dl ld ru|e|e|] eqn:Epc; try done.
  - unfold poll_closing, at_end. repeat case_match; try done; unfold due; cbn; by rewrite Epc.
  - unfold poll_draining, at_end. repeat case_match; try done; unfold due; cbn; by rewrite Epc.
  - unfold poll_big_close. repeat case_match; try done; unfold due; cbn; by rewrite Epc.
  - unfold poll_big_shutdown. destruct w; try (case_match; [done|unfold due; by rewrite Epc]).
    apply now_plus_due. intros x. by apply Hl.
  - unfold poll_big_linger. repeat case_match; try done; by apply Hl || (unfold due; by rewrite Epc).
  - unfold due. by rewrite Epc.
  - unfold due. by rewrite Epc.
Qed.

(** *** Runs of a session that is cancelled *)

Definition is_poll (l : SLabel) : bool := match l with SPoll _ => true | _ => false end.
Definition poll_count (ls : list SLabel) : nat := length (List.filter is_poll ls).

(** Does the code wait at this control point?  What is between two of these runs in one go. *)
Definition awaits (p : PC) : bool :=
  match p with
  | PSelect | PSend _ _ _ _ | PHandler | PFlushSend _ _ _ _ | PHandlerClose _
  | PClosing _ _ _ | PDraining _ _ | PBigClose _ _ | PBigShutdown _ _ | PBigLinger _ _ _ _ => true
  | _ => false
  end.
Definition polls_to_close (p : PC) : nat := if awaits p then 1 else 6.

Lemma rank_bound s : (rank s <= polls_to_close (pc s))%nat.
Proof. unfold rank, polls_to_close. destruct (pc s); cbn; lia. Qed.

(** What is not a poll leaves the control point alone. *)
Lemma session_apply_pc l s s' : session_apply config l s = Some s' → is_poll l = false → pc s' = pc s.
Proof.
  intros E Hl. destruct l as [l|d| |w]; cbn in E; [| | |done].
  - destruct (sender_label l); [|done]. destruct (WsChannel.apply l (chan s)); [|done]. by injection E as <-.
  - destruct (checked_add (clock s) d); [|done]. by injection E as <-.
  - by injection E as <-.
Qed.

Lemma session_apply_cancelled l s s' : session_apply config l s = Some s' → cancelled s = true → cancelled s' = true.
Proof.
  intros E Hc. destruct l as [l|d| |w]; cbn in E.
  - destruct (sender_label l); [|done]. destruct (WsChannel.apply l (chan s)); [|done]. by injection E as <-.
  - destruct (checked_add (clock s) d); [|done]. by injection E as <-.
  - by injection E as <-.
  - injection E as <-. pose proof (poll_env w s) as He. unfold env in He. congruence.
Qed.

Lemma session_apply_rank l s s' :
  session_apply config l s = Some s' → cancelled s = true →
  (rank s' <= rank s - poll_count [l])%nat.
Proof.
  intros E Hc. destruct (is_poll l) eqn:Hl.
  - destruct l as [| | |w]; try done. injection E as <-. pose proof (cancel_rank_step w s Hc). cbn. lia.
  - unfold rank. rewrite (session_apply_pc l s s' E Hl). unfold poll_count. cbn. rewrite Hl. cbn. lia.
Qed.

Lemma session_apply_due t l s s' : session_apply config l s = Some s' → due t s → due t s'.
Proof.
  intros E Hd. destruct (is_poll l) eqn:Hl.
  - destruct l as [| | |w]; try done. injection E as <-. by apply poll_due.
  - unfold due. by rewrite (session_apply_pc l s s' E Hl).
Qed.

Lemma poll_count_cons l ls : poll_count (l :: ls) = (poll_count [l] + poll_count ls)%nat.
Proof. by destruct l. Qed.

Lemma session_run_cancelled ls s s' :
  session_run config ls s = Some s' → wf s → cancelled s = true →
  wf s' ∧ cancelled s' = true ∧ (rank s' <= rank s - poll_count ls)%nat ∧ ∀ t, due t s → due t s'.
Proof.
  revert s. induction ls as [|l ls IH]; intros s E Hw Hc; cbn in E.
  { injection E as <-. split_and!; [done..|cbn; lia|done]. }
  destruct (session_apply config l s) as [s1|] eqn:E1; [|done].
  destruct (IH s1 E) as (? & ? & H1 & H2); [by eapply session_apply_wf|by eapply session_apply_cancelled|].
  pose proof (session_apply_rank l s s1 E1 Hc). rewrite poll_count_cons.
  split_and!; [done..|lia|]. intros t Ht. by eapply H2, session_apply_due.
Qed.

(** A session whose deadline has passed returns: the next poll that finds nothing ready ends it. *)
Lemma past_deadline_returns t w s :
  wf s → due t s → pc s ≠ PPanicked → (t <= clock s)%N →
  ∃ reason r, let s' := polls config [Pending; w] s in pc s' = PReturned (reason, r) ∧ closed s' = [reason].
Proof.
  intros Hw Hd Hp Ht.
  assert (∃ e, poll config Pending s = finish e s ∨ pc s = PEnding e ∨ pc s = PReturned e) as (e & He).
  { assert (∀ e dl s', (dl <= t)%N → (if (dl <=? clock s)%N then finish e s else s') = finish e s) as Hf.
    { intros e dl s' Hb. destruct (N.leb_spec dl (clock s)); [done|lia]. }
    unfold due in Hd. unfold poll.
    destruct (pc s) as [| | | | | | | | | | | |? ? dl|? dl|? dl|? dl|? dl ? ru|e|e|]; try done;
      [| | | | |exists e; auto|exists e; auto]; eexists; left; try by apply Hf.
    cbn. destruct (_ <=? _)%N; [done|]. by apply Hf. }
  assert (pc (polls config [Pending; w] s) = PReturned e) as E.
  { unfold polls. cbn [fold_left]. destruct He as [-> |[He|He]]; [done|..]; unfold poll; by rewrite He, ?He. }
  destruct e as [reason r].
  exists reason, r. split; [done|].
  assert (wf (polls config [Pending; w] s)) as H by by repeat apply poll_wf.
  unfold wf in H. rewrite E in H. apply H.
Qed.

(** The two together: [s1] is the session after the polls that follow its cancellation, [s2] any
    later state of it. *)
Lemma cancelled_session_returns s ls1 s1 ls2 s2 w :
  wf s → cancelled s = true →
  session_run config ls1 s = Some s1 → (polls_to_close (pc s) <= poll_count ls1)%nat →
  session_run config ls2 s1 = Some s2 →
  (pc s2 = PPanicked ∧ overflow s2)
  ∨ pc s2 ≠ PPanicked
    ∧ ((clock s1 + close_grace config <= clock s2)%N →
        ∃ reason r, let s3 := polls config [Pending; w] s2 in pc s3 = PReturned (reason, r) ∧ closed s3 = [reason]).
Proof.
  intros Hw Hc E1 Hn E2. pose proof (rank_bound s).
  destruct (session_run_cancelled ls1 s s1 E1 Hw Hc) as (Hw1 & Hc1 & Hr & _).
  destruct (session_run_cancelled ls2 s1 s2 E2 Hw1 Hc1) as (Hw2 & _ & _ & Hd).
  assert (pc s2 = PPanicked ∨ pc s2 ≠ PPanicked) as [E|E] by (destruct (pc s2); (by left) || by right).
  - left. unfold wf in Hw2. rewrite E in Hw2. split; [done|apply Hw2].
  - right. split; [done|]. intros Ht. eapply past_deadline_returns; [done|apply Hd, closing_due; [done|lia]|done|exact Ht].
Qed.

(** C21: A session that is cancelled comes to its end, within the grace period measured from the
    cancellation.  Take any run of the session, its senders and the clock from there on, in which the
    peer sends what it likes and the handler answers what it likes.  Where the session waits, the
    first poll that follows the cancellation begins its closing phase; elsewhere the next six do,
    which wait for nothing.  Let [s1] be the session then, and [s2] the session at any later time,
    after any number of frames that the peer sent to keep it: once the clock is the grace period
    past [s1], the first poll that finds nothing to read or write ends the session, and the next one
    returns, after [on_close] was called, once.  The deadline is never renewed.  The only other end
    is a panic of an addition that the clock cannot represent. *)
Theorem session_returns now s ls1 s1 ls2 s2 w :
  (now <= instant_max)%N → session_reachable config now s → cancelled s = true →
  session_run config ls1 s = Some s1 → (polls_to_close (pc s) <= poll_count ls1)%nat →
  session_run config ls2 s1 = Some s2 →
  (pc s2 = PPanicked ∧ overflow s2)
  ∨ pc s2 ≠ PPanicked
    ∧ ((clock s1 + close_grace config <= clock s2)%N →
        ∃ reason r, let s3 := polls config [Pending; w] s2 in pc s3 = PReturned (reason, r) ∧ closed s3 = [reason]).
Proof. intros Hn Hr. apply cancelled_session_returns. by eapply session_wf. Qed.

(** C22: A session panics only where an addition to the clock overflows: the assertion of
    [drain_to_close] never fails, and with timeouts that fit it never happens.  It does panic for an
    idle timeout that does not fit, which the builder accepts, and then [on_close] is not called,
    ever. *)
Theorem session_panics_exactly_on_overflow now s :
  (now <= instant_max)%N → session_reachable config now s →
  (pc s = PPanicked → (instant_max < clock s + longest)%N ∧ closed s = [])
  ∧ (∀ d w, pc s = PStart → idle_timeout config = Some d → (instant_max < clock s + d)%N →
       pc (poll config w s) = PPanicked
       ∧ ∀ ls s', session_run config ls (poll config w s) = Some s' → closed s' = []).
Proof.
  intros Hn Hr. pose proof (session_wf now s Hn Hr) as Hw. split.
  - intros E. unfold wf in Hw. rewrite E in Hw. split; apply Hw.
  - intros d w E Hd Ho. assert (pc (poll config w s) = PPanicked) as Hp.
    { unfold poll. rewrite E. unfold start, now_plus, checked_add. rewrite Hd.
      destruct (N.leb_spec (clock s + d) instant_max); [lia|done]. }
    split; [done|]. intros ls s'. pose proof (poll_wf w s Hw) as Hw'. revert Hp Hw'. generalize (poll config w s).
    induction ls as [|l ls IH]; intros s0 Hp Hw0 Er; cbn in Er.
    { injection Er as <-. unfold wf in Hw0. rewrite Hp in Hw0. apply Hw0. }
    destruct (session_apply config l s0) as [s1|] eqn:E1; [|done]. apply (IH s1); [|by eapply session_apply_wf|done].
    destruct l as [l|t| |w']; cbn in E1.
    + destruct (sender_label l); [|done]. destruct (WsChannel.apply l (chan s0)); [|done]. by injection E1 as <-.
    + destruct (checked_add (clock s0) t); [|done]. by injection E1 as <-.
    + by injection E1 as <-.
    + injection E1 as <-. unfold poll. by rewrite Hp.
Qed.

End spec.

(** ** Runs *)

Lemma session_run_reach {AT : AnyTypes} config ls s s' :
  session_run config ls s = Some s' → rtc (session_step config) s s'.
Proof.
  revert s. induction ls as [|l ls IH]; intros s E; cbn in E; [by injection E as <-|].
  destruct (session_apply config l s) as [s1|] eqn:E1; [|done]. apply (rtc_l _ _ s1); [by exists l|]. by apply IH.
Qed.

Section witness.
#[local] Existing Instance demo_types.

(** A message of the peer is echoed while a sender queues a message and a close. *)
Definition demo_session_labels : list SLabel :=
  [SPoll Pending; SPoll Pending; SPoll (RdNext (Some (Ok (FText (lit "hi")))));
   SChan (LBegin 0 (OpSend (Text (lit "a")))); SChan (LStep 0); SChan (LStep 0); SChan (LStep 0);
   SPoll (RdHandler (Ok (Reply [Text (lit "hi")])));
   SChan (LBegin 1 (OpClose 1000 (lit "bye"))); SChan (LStep 1); SChan (LStep 1); SChan (LStep 1);
   STick (from_secs 1); SPoll Pending; SPoll (RdSent (Ok tt)); SPoll Pending].
Definition demo_session : Session :=
  default (session_init ws_default 0%N) (session_run ws_default demo_session_labels (session_init ws_default 0%N)).

Definition demo_returned : Session :=
  polls ws_default [RdSent (Ok tt); RdNext None; Pending] demo_session.

Lemma demo_session_state :
  frames demo_session = [(ByQueue, FText (lit "a")); (ByClose, FClose (Some (to_close_frame 1000 (lit "bye"))))]
  ∧ handled demo_session = [Text (lit "hi")]
  ∧ pc demo_session = PClosing SenderClose (Some (to_close_frame 1000 (lit "bye"))) (from_secs 11)
  ∧ pc demo_returned = PReturned (SenderClose, Ok tt).
Proof. by vm_compute. Qed.

Lemma demo_session_reachable : session_reachable ws_default 0%N demo_session.
Proof. apply (session_run_reach ws_default demo_session_labels). by vm_compute. Qed.

Lemma demo_returned_reachable : session_reachable ws_default 0%N demo_returned.
Proof.
  apply (session_run_reach ws_default (demo_session_labels ++ [SPoll (RdSent (Ok tt)); SPoll (RdNext None); SPoll Pending])).
  by vm_compute.
Qed.

Lemma demo_clock : (0 <= instant_max)%N.
Proof. by vm_compute. Qed.

Lemma session_frames_witness :
  ∃ ds, frames demo_session = ds ++ [(ByClose, FClose (Some (to_close_frame 1000 (lit "bye"))))]
        ∧ messages (ch_log (chan demo_session)).*2 = from_queue ds.
Proof.
  destruct (session_frames ws_default 0%N demo_session demo_clock demo_session_reachable) as (_ & _ & H).
  assert (pc demo_session ≠ PPanicked) as Hp by by rewrite (proj1 (proj2 (proj2 demo_session_state))).
  destruct (H Hp 1000%N (lit "bye")) as (ds & E & _ & _ & El);
    [|exists ds; exact (conj E El)].
  assert (ch_received (chan demo_session) = [Message (Text (lit "a")); Close 1000 (lit "bye")]) as -> by by vm_compute.
  apply list_elem_of_In. right. left. reflexivity.
Defined.

Lemma session_outcome_witness : closed demo_returned = [SenderClose] ∧ is_closed (chan demo_returned) = true.
Proof.
  destruct (session_outcome ws_default 0%N demo_returned demo_clock demo_returned_reachable) as (_ & H).
  destruct (H SenderClose (Ok tt)) as (E & _ & _ & Ec & _); [by vm_compute|exact (conj E Ec)].
Defined.

(** A write stalls, and the server shuts down. *)
Definition demo_cancelled_labels : list SLabel :=
  [SPoll Pending; SPoll Pending; SPoll (RdNext (Some (Ok (FText (lit "hi")))));
   SPoll (RdHandler (Ok (Reply [Text (lit "hi")]))); SPoll Pending; SPoll Pending; SPoll Pending; SPoll Pending; SCancel].
Definition demo_cancelled : Session :=
  default (session_init ws_default 0%N) (session_run ws_default demo_cancelled_labels (session_init ws_default 0%N)).

(** The cancellation is seen, then the peer reads nothing for four seconds, and then it sends a frame
    every three seconds instead of closing. *)
Definition demo_notice : list SLabel := [SPoll Pending].
Definition demo_chatty : list SLabel :=
  [SPoll Pending; STick (from_secs 4); SPoll (RdSent (Ok tt)); STick (from_secs 3);
   SPoll (RdNext (Some (Ok (FText (lit "a"))))); STick (from_secs 3); SPoll (RdNext (Some (Ok (FText (lit "b")))))].
Definition demo_noticed : Session := default demo_cancelled (session_run ws_default demo_notice demo_cancelled).
Definition demo_overdue : Session := default demo_cancelled (session_run ws_default demo_chatty demo_noticed).

Lemma session_returns_witness :
  frames demo_cancelled = [(ByReply, FText (lit "hi"))] ∧ pc demo_overdue = PDraining Cancelled (from_secs 10)
  ∧ ∃ reason r, pc (polls ws_default [Pending; Pending] demo_overdue) = PReturned (reason, r).
Proof.
  split; [by vm_compute|]. split; [by vm_compute|].
  destruct (session_returns ws_default 0%N demo_cancelled demo_notice demo_noticed demo_chatty demo_overdue Pending)
    as [[H _]|[_ H]].
  - by vm_compute.
  - apply (session_run_reach ws_default demo_cancelled_labels). by vm_compute.
  - by vm_compute.
  - by vm_compute.
  - apply Nat.leb_le. by vm_compute.
  - by vm_compute.
  - exfalso. by vm_compute in H.
  - destruct H as (reason & r & E & _); [by vm_compute|]. exists reason, r. exact E.
Defined.

(** [Duration::MAX] as the idle timeout. *)
Definition endless : WsConfig := with_idle_timeout (from_secs (2 ^ 64 - 1)) ws_default.

Lemma session_panics_exactly_on_overflow_witness :
  pc (poll endless Pending (session_init endless 0%N)) = PPanicked.
Proof.
  destruct (session_panics_exactly_on_overflow endless 0%N (session_init endless 0%N)) as [_ H].
  - by vm_compute.
  - apply rtc_refl.
  - by apply (H (from_secs (2 ^ 64 - 1)) Pending).
Defined.

End witness.
