(* ===== verification/Static.v ===== *)
(** * [plugin-static]: files below a root

    The configuration with its checks, the media types, and [try_handle_static], which maps the
    path of a request to segments, refuses unsafe ones, and reads a file after [canonicalize] when
    the result is still below the root.  What [std::fs] answers is a record of functions, one per
    system call, so that the file system may change between them; [Tree] is a file system with
    directories, files and symbolic links whose paths are resolved as by realpath(3). *)

From S2P Require Import Prelude Text Utf8 Extensions Request Response ResponseSpec.

(** ** Media types *)

Definition TABLE : list (bytes * bytes) :=
  [(lit "html", lit "text/html; charset=utf-8"); (lit "htm", lit "text/html; charset=utf-8");
   (lit "css", lit "text/css; charset=utf-8"); (lit "js", lit "text/javascript; charset=utf-8");
   (lit "mjs", lit "text/javascript; charset=utf-8"); (lit "json", lit "application/json");
   (lit "map", lit "application/json"); (lit "webmanifest", lit "application/manifest+json");
   (lit "xml", lit "application/xml"); (lit "txt", lit "text/plain; charset=utf-8");
   (lit "md", lit "text/markdown; charset=utf-8"); (lit "svg", lit "image/svg+xml");
   (lit "png", lit "image/png"); (lit "jpg", lit "image/jpeg"); (lit "jpeg", lit "image/jpeg");
   (lit "gif", lit "image/gif"); (lit "webp", lit "image/webp"); (lit "avif", lit "image/avif");
   (lit "ico", lit "image/x-icon"); (lit "wasm", lit "application/wasm"); (lit "woff", lit "font/woff");
   (lit "woff2", lit "font/woff2"); (lit "ttf", lit "font/ttf"); (lit "otf", lit "font/otf");
   (lit "pdf", lit "application/pdf"); (lit "mp3", lit "audio/mpeg"); (lit "wav", lit "audio/wav");
   (lit "ogg", lit "audio/ogg"); (lit "mp4", lit "video/mp4"); (lit "webm", lit "video/webm")].

Definition DEFAULT_CONTENT_TYPE : bytes := lit "application/octet-stream".

Definition find_type (ext : bytes) (table : list (bytes * bytes)) : option bytes :=
  snd <$> List.find (λ kv, str_eqb kv.1 ext) table.

(** [rsplit('.').next()]. *)
Definition content_type_for_extension (file_name : bytes) (overrides : list (bytes * bytes)) : bytes :=
  let ext := List.last (split x2e file_name) [] in
  if str_eqb ext file_name then DEFAULT_CONTENT_TYPE
  else
    let ext_lower := str_to_ascii_lowercase ext in
    match find_type ext_lower overrides with
    | Some v => v
    | None => default DEFAULT_CONTENT_TYPE (find_type ext_lower TABLE)
    end.

(** ** The file system *)

(** An absolute path without [.] and [..]: its names. *)
Definition Path : Type := list bytes.

Record Metadata := { md_is_dir : bool; md_is_file : bool; md_len : N }.

(** [canonicalize], [metadata] and [read] of [std::fs]; errors are not told apart. *)
Record FileSystem := {
  canonicalize : Path → option Path;
  metadata : Path → option Metadata;
  read : Path → option bytes;
}.

(** [Path::starts_with] and [strip_prefix]. *)
Fixpoint strip_path (root p : Path) : option Path :=
  match root, p with
  | [], _ => Some p
  | r :: root, x :: p => if str_eqb r x then strip_path root p else None
  | _ :: _, [] => None
  end.

(** ** Configuration *)

Definition DEFAULT_MAX_FILE_BYTES : N := 8 * 1024 * 1024.

Inductive StaticConfigError := InvalidMount | RootNotAccessible | RootNotADirectory | InvalidMimeMapping.

Record StaticFilesConfig := {
  mount : bytes;
  root : Path;
  max_file_bytes : N;
  mime_overrides : list (bytes * bytes);
  fallthrough_on_miss : bool;
}.

(** [StaticFilesConfigBuilder] has the same fields. *)
Definition builder (mount : bytes) (root : Path) : StaticFilesConfig :=
  {| mount := mount; root := root; max_file_bytes := DEFAULT_MAX_FILE_BYTES; mime_overrides := [];
     fallthrough_on_miss := false |}.

Definition set_max_file_bytes (max : N) (self : StaticFilesConfig) : StaticFilesConfig :=
  {| mount := mount self; root := root self; max_file_bytes := max;
     mime_overrides := mime_overrides self; fallthrough_on_miss := fallthrough_on_miss self |}.
Definition mime (ext content_type : bytes) (self : StaticFilesConfig) : StaticFilesConfig :=
  {| mount := mount self; root := root self; max_file_bytes := max_file_bytes self;
     mime_overrides := mime_overrides self ++ [(ext, content_type)];
     fallthrough_on_miss := fallthrough_on_miss self |}.
Definition set_fallthrough_on_miss (enabled : bool) (self : StaticFilesConfig) : StaticFilesConfig :=
  {| mount := mount self; root := root self; max_file_bytes := max_file_bytes self;
     mime_overrides := mime_overrides self; fallthrough_on_miss := enabled |}.

(** [b < 0x20 || b == 0x7f]. *)
Definition is_ctl (b : byte) : bool := in_range 0 31 b || beqb b x7f.

Fixpoint validate_mime_overrides (raw normalized : list (bytes * bytes)) :
    result (list (bytes * bytes)) StaticConfigError :=
  match raw with
  | [] => Ok normalized
  | (ext, content_type) :: raw =>
      let ext := default ext (strip_prefix [x2e] ext) in
      if bool_decide (ext = []) || contains x2e ext || contains x2f ext || contains x5c ext
         || contains x00 ext || existsb is_ctl ext then Err InvalidMimeMapping
      else if bool_decide (content_type = []) || existsb is_ctl content_type then Err InvalidMimeMapping
      else
        let ext_lower := str_to_ascii_lowercase ext in
        let normalized := List.filter (λ kv, negb (str_eqb kv.1 ext_lower)) normalized in
        validate_mime_overrides raw (normalized ++ [(ext_lower, content_type)])
  end.

Definition validate_mount (mount : bytes) : result bytes StaticConfigError :=
  if bool_decide (mount = []) || negb (starts_with [x2f] mount) then Err InvalidMount
  else if negb (str_eqb mount (lit "/")) && ends_with [x2f] mount then Err InvalidMount
  else if bool_decide (is_Some (find_sub (lit "//") mount)) then Err InvalidMount
  else if contains x3f mount || contains x23 mount then Err InvalidMount
  else if existsb is_ctl mount then Err InvalidMount
  else Ok mount.

Definition build (fs : FileSystem) (self : StaticFilesConfig) : result StaticFilesConfig StaticConfigError :=
  let? mount := validate_mount (mount self) in
  let? root := ok_or (canonicalize fs (root self)) RootNotAccessible in
  if negb (bool_decide (md_is_dir <$> metadata fs root = Some true)) then Err RootNotADirectory
  else
    let? mime_overrides := validate_mime_overrides (mime_overrides self) [] in
    Ok {| mount := mount; root := root; max_file_bytes := max_file_bytes self;
          mime_overrides := mime_overrides; fallthrough_on_miss := fallthrough_on_miss self |}.

(** ** Requests *)

Definition strip_mount (path mount : bytes) : option bytes :=
  if str_eqb mount (lit "/") then strip_prefix [x2f] path
  else if str_eqb path mount then Some []
  else strip_prefix mount path ≫= strip_prefix [x2f].

Definition is_safe_segment (segment : bytes) : bool :=
  negb (bool_decide (segment = [])) && negb (str_eqb segment (lit ".")) && negb (str_eqb segment (lit ".."))
  && negb (starts_with [x2e] segment) && negb (contains x00 segment) && negb (contains x5c segment)
  && negb (contains x3a segment).

Definition is_safe_segment_relaxed (segment : bytes) : bool :=
  negb (bool_decide (segment = [])) && negb (str_eqb segment (lit ".")) && negb (str_eqb segment (lit ".."))
  && negb (starts_with [x2e] segment) && negb (contains x3a segment).

(** The names of a canonical path are [Component::Normal]; [to_str] is [None] for bytes that are
    not UTF-8. *)
Definition resolved_path_is_safe (root resolved : Path) : bool :=
  match strip_path root resolved with
  | None => false
  | Some remainder => forallb (λ name, utf8_valid name && is_safe_segment_relaxed name) remainder
  end.

Definition below (root p : Path) : bool := bool_decide (is_Some (strip_path root p)).

(** [fs k] is the file system as the [k]-th call meets it. *)
Definition resolve_and_read (fs : nat → FileSystem) (root : Path) (segments : list bytes) (dir_request : bool)
    (max_file_bytes : N) (mime_overrides : list (bytes * bytes)) : option (bytes * bytes) :=
  let candidate := root ++ segments in
  let! canonical := canonicalize (fs 0) candidate else None in
  if negb (below root canonical) then None
  else if negb (resolved_path_is_safe root canonical) then None
  else
    let! md := metadata (fs 1) canonical else None in
    if dir_request && negb (md_is_dir md) then None
    else
      let! final_path :=
        (if md_is_dir md then
           let! index_canonical := canonicalize (fs 2) (canonical ++ [lit "index.html"]) else None in
           if negb (below root index_canonical) then None
           else if negb (resolved_path_is_safe root index_canonical) then None
           else Some index_canonical
         else if md_is_file md then Some canonical
         else None) else None in
      let! final_md := metadata (fs 3) final_path else None in
      if negb (md_is_file final_md) || (max_file_bytes <? md_len final_md)%N then None
      else
        let! content := read (fs 4) final_path else None in
        if (max_file_bytes <? len content)%N then None
        else
          let file_name := match List.last final_path [] with name => if utf8_valid name then name else [] end in
          Some (content, content_type_for_extension file_name mime_overrides).

Definition try_add_header (response : Response) (name value : bytes) : Response :=
  match with_header name value response with Ok r => r | Err _ => response end.

Section handler.
Context {AT : AnyTypes}.

(** [joined]: did the blocking task return (and not panic)? *)
Definition try_handle_static (fs : nat → FileSystem) (joined : bool) (head : RequestHead)
    (config : StaticFilesConfig) : option Response :=
  if negb (eq_ignore_ascii_case (method head) (lit "GET")) then None
  else
    let! tail := strip_mount (path head) (mount config) else None in
    let miss := if fallthrough_on_miss config then None else Some (response_empty 404) in
    let (tail, dir_request) :=
      match strip_suffix [x2f] tail with Some stripped => (stripped, true) | None => (tail, false) end in
    if dir_request && bool_decide (tail = []) then miss
    else
      let segments := if bool_decide (tail = []) then [] else split x2f tail in
      if negb (forallb is_safe_segment segments) then miss
      else if negb joined then miss
      else
        match resolve_and_read fs (root config) segments dir_request (max_file_bytes config)
                (mime_overrides config) with
        | None => miss
        | Some (content, content_type) =>
            Some (try_add_header (with_content_type content_type (response_new 200 content))
                    (lit "X-Content-Type-Options") (lit "nosniff"))
        end.
End handler.

(** ** A file system with symbolic links *)

Inductive LinkComp := Up | Down (name : bytes).

Inductive Entry :=
| EFile (content : bytes)
| EDir
| ELink (absolute : bool) (target : list LinkComp).

(** What is at a path whose parents are directories; the root [[]] is a directory. *)
Definition Tree : Type := Path → option Entry.

(** The limit of Linux on the links followed in one resolution. *)
Definition MAX_LINKS : nat := 40.

Fixpoint resolve (tree : Tree) (links : nat) : Path → list LinkComp → option Path :=
  fix go (cur : Path) (rest : list LinkComp) {struct rest} : option Path :=
    match rest with
    | [] => Some cur
    | Up :: rest => go (removelast cur) rest
    | Down name :: rest =>
        match tree (cur ++ [name]) with
        | None => None
        | Some EDir => go (cur ++ [name]) rest
        | Some (EFile _) => match rest with [] => Some (cur ++ [name]) | _ => None end
        | Some (ELink absolute target) =>
            match links with
            | O => None
            | S links => resolve tree links (if absolute then [] else cur) (target ++ rest)
            end
        end
    end.

Definition realpath (tree : Tree) (p : Path) : option Path := resolve tree MAX_LINKS [] (Down <$> p).

Definition entry (tree : Tree) (p : Path) : option Entry :=
  let! q := realpath tree p else None in
  match q with [] => Some EDir | _ => tree q end.

Definition tree_fs (tree : Tree) : FileSystem :=
  {| canonicalize := realpath tree;
     metadata p :=
       match entry tree p with
       | Some (EFile content) => Some {| md_is_dir := false; md_is_file := true; md_len := len content |}
       | Some EDir => Some {| md_is_dir := true; md_is_file := false; md_len := 0 |}
       | _ => None
       end;
     read p := match entry tree p with Some (EFile content) => Some content | _ => None end |}.
