(* ===== verification/StaticSpec.v ===== *)
(** * What the static file plugin serves

    Whatever the file system does, only paths below the root are read, and every response can be
    serialised safely; on a file system at rest ([Tree]) exactly the regular files that a chain of
    real directories and safe names leads to are served. *)

From S2P Require Import Prelude Text Utf8 Extensions Request RequestSpec Response ResponseSpec Static.

(** ** Paths *)

Lemma strip_path_Some root p rem : strip_path root p = Some rem ↔ p = root ++ rem.
Proof.
  revert p. induction root as [|r root IH]; intros p; cbn.
  - naive_solver.
  - destruct p as [|x p]; [naive_solver|]. destruct (str_eqb r x) eqn:E.
    + apply str_eqb_eq in E as ->. rewrite IH. naive_solver.
    + split; [done|]. intros [= -> ->]. by rewrite str_eqb_refl in E.
Qed.

Lemma below_spec root p : below root p = true ↔ ∃ rem, p = root ++ rem.
Proof.
  unfold below. rewrite bool_decide_eq_true. split.
  - intros [rem H%strip_path_Some]. by exists rem.
  - intros [rem H%strip_path_Some]. by exists rem.
Qed.

(** A name that may occur in a path that is served. *)
Definition safe_name (n : bytes) : Prop := utf8_valid n = true ∧ is_safe_segment_relaxed n = true.

Lemma safe_name_not_hidden n : safe_name n → n ≠ [] ∧ starts_with [x2e] n = false ∧ contains x3a n = false.
Proof. intros [_ H]. unfold is_safe_segment_relaxed in H. by bool_to_prop. Qed.

Lemma resolved_path_is_safe_spec root p :
  resolved_path_is_safe root p = true ↔ ∃ rem, p = root ++ rem ∧ Forall safe_name rem.
Proof.
  unfold resolved_path_is_safe. split.
  - destruct (strip_path root p) as [rem|] eqn:E; [|done]. apply strip_path_Some in E as ->.
    intros H. exists rem. split; [done|]. apply forallb_Forall in H. eapply Forall_impl; [exact H|].
    intros n Hn. by apply andb_true_iff in Hn.
  - intros (rem & E%strip_path_Some & H). rewrite E. apply forallb_Forall. eapply Forall_impl; [exact H|].
    intros n Hn. by apply andb_true_iff.
Qed.

Lemma safe_segment_relaxed n : is_safe_segment n = true → is_safe_segment_relaxed n = true.
Proof. unfold is_safe_segment, is_safe_segment_relaxed. rewrite !andb_true_iff. tauto. Qed.

(** ** Reading *)

(** A file was found: its path is canonical, below the root and safe. *)
Record reads (fs : nat → FileSystem) (root : Path) (segments : list bytes) (dir_request : bool) (max : N)
    (rem : Path) (content : bytes) : Prop := {
  rd_read : read (fs 4) (root ++ rem) = Some content;
  rd_safe : Forall safe_name rem;
  rd_len : (len content <= max)%N;
  rd_file : md_is_file <$> metadata (fs 3) (root ++ rem) = Some true;
  rd_canonical :
    (dir_request = false ∧ canonicalize (fs 0) (root ++ segments) = Some (root ++ rem))
    ∨ ∃ dir, canonicalize (fs 0) (root ++ segments) = Some (root ++ dir)
             ∧ canonicalize (fs 2) (root ++ dir ++ [lit "index.html"]) = Some (root ++ rem);
}.

Lemma resolve_and_read_Some fs root segments dir_request max overrides content ct :
  resolve_and_read fs root segments dir_request max overrides = Some (content, ct) →
  ∃ rem name, reads fs root segments dir_request max rem content
              ∧ ct = content_type_for_extension name overrides.
Proof.
  unfold resolve_and_read. intros H. cbv zeta in H.
  destruct (canonicalize (fs 0) (root ++ segments)) as [p|] eqn:Ec; [|done].
  case_first_in H; [done|]. destruct (resolved_path_is_safe root p) eqn:Es; [|done]. cbn [negb] in H.
  apply resolved_path_is_safe_spec in Es as (d & -> & Hd).
  destruct (metadata (fs 1) (root ++ d)) as [md|]; [|done].
  destruct (dir_request && negb (md_is_dir md)) eqn:Edir; [done|].
  assert (∀ rem, Forall safe_name rem →
    (dir_request = false ∧ root ++ d = root ++ rem
     ∨ canonicalize (fs 2) (root ++ d ++ [lit "index.html"]) = Some (root ++ rem)) →
    (let! final_md := metadata (fs 3) (root ++ rem) else None in
     if negb (md_is_file final_md) || (max <? md_len final_md)%N then None
     else let! c := read (fs 4) (root ++ rem) else None in
       if (max <? len c)%N then None
       else
         let file_name := let name := List.last (root ++ rem) [] in if utf8_valid name then name else [] in
         Some (c, content_type_for_extension file_name overrides)) = Some (content, ct) →
    ∃ rem name, reads fs root segments dir_request max rem content
                ∧ ct = content_type_for_extension name overrides) as Hend.
  { intros rem Hrem Hc E. destruct (metadata (fs 3) (root ++ rem)) as [fm|] eqn:Em; [|done].
    case_first_in E; [done|]. bool_to_prop. destruct (read (fs 4) (root ++ rem)) as [c|] eqn:Er; [|done].
    destruct (N.ltb_spec max (len c)); [done|]. injection E as <- <-. exists rem. eexists. split; [|done].
    split; [done|done|lia| |].
    - rewrite Em. cbn. by f_equal.
    - destruct Hc as [[-> E]|E]; [left; by rewrite Ec, E|right; by exists d]. }
  destruct (md_is_dir md) eqn:Ed.
  - rewrite <- (assoc_L (++)) in H.
    destruct (canonicalize (fs 2) (root ++ d ++ [lit "index.html"])) as [q|] eqn:Ei; [|done].
    destruct (negb (below root q)); [done|]. destruct (resolved_path_is_safe root q) eqn:Es; [|done]. cbn [negb] in H.
    apply resolved_path_is_safe_spec in Es as (rem & -> & Hrem). apply (Hend rem Hrem); [by right|exact H].
  - destruct (md_is_file md); [|done]. apply (Hend d Hd); [left|exact H]. split; [|done].
    rewrite andb_true_r in Edir. by destruct dir_request.
Qed.

(** ** Configuration *)

(** A value that cannot break a header line. *)
Definition table_ok (t : list (bytes * bytes)) : Prop := Forall (λ kv, existsb is_ctl kv.2 = false) t.

Record mount_ok (m : bytes) : Prop := {
  mo_slash : starts_with [x2f] m = true;
  mo_end : m = lit "/" ∨ ends_with [x2f] m = false;
  mo_double : find_sub (lit "//") m = None;
  mo_delim : contains x3f m = false ∧ contains x23 m = false;
}.

Lemma validate_mount_Ok m m' : validate_mount m = Ok m' → m' = m ∧ mount_ok m.
Proof.
  unfold validate_mount. intros H. repeat (case_first_in H; [done|]). bool_to_prop. injection H as <-.
  split; [done|]. split; [done| |by apply eq_None_not_Some|done].
  destruct (str_eqb m (lit "/")) eqn:E; [left; by apply str_eqb_eq|right]. cbn in *. done.
Qed.

Lemma validate_mime_Ok raw acc t : validate_mime_overrides raw acc = Ok t → table_ok acc → table_ok t.
Proof.
  revert acc. induction raw as [|[ext ct] raw IH]; intros acc H Hacc; cbn in H; [by injection H as <-|].
  repeat (case_first_in H; [done|]). bool_to_prop. apply IH in H; [done|].
  apply Forall_app. split; [|by constructor]. apply Forall_forall. intros kv Hin.
  apply list_elem_of_In, filter_In in Hin as [Hin _]. unfold table_ok in Hacc. rewrite Forall_forall in Hacc.
  by apply Hacc, list_elem_of_In.
Qed.

Record config_ok (config : StaticFilesConfig) : Prop := {
  co_mount : mount_ok (mount config);
  co_table : table_ok (mime_overrides config);
}.

Lemma build_Ok fs b config :
  build fs b = Ok config →
  config_ok config ∧ canonicalize fs (root b) = Some (root config)
  ∧ (md_is_dir <$> metadata fs (root config)) = Some true.
Proof.
  unfold build. intros (m & Hm & H)%rbind_Ok. apply validate_mount_Ok in Hm as [-> Hm].
  apply rbind_Ok in H as (r & Hr & H). apply ok_or_Ok in Hr. case_first_in H; [done|]. bool_to_prop.
  apply rbind_Ok in H as (t & Ht & H). injection H as <-. apply validate_mime_Ok in Ht; [|constructor].
  split; [by split|]. split; [done|]. cbn. done.
Qed.

Lemma find_type_ok ext t v : table_ok t → find_type ext t = Some v → existsb is_ctl v = false.
Proof.
  unfold find_type. intros Ht. destruct (List.find _ t) as [kv|] eqn:E; [|done]. intros [= <-].
  apply find_some in E as [Hin _]. unfold table_ok in Ht. rewrite Forall_forall in Ht.
  by apply Ht, list_elem_of_In.
Qed.

Lemma content_type_ok name t : table_ok t → existsb is_ctl (content_type_for_extension name t) = false.
Proof.
  intros Ht. unfold content_type_for_extension. destruct (str_eqb _ _); [done|].
  destruct (find_type _ t) as [v|] eqn:E; [by eapply find_type_ok|].
  destruct (find_type _ TABLE) as [v|] eqn:E'; [|done]. cbn. eapply find_type_ok; [|exact E'].
  unfold table_ok, TABLE. repeat constructor.
Qed.

(** ** Requests *)

(** The path of a request below the mount: the segments, and a slash at the end or not. *)
Definition mount_path (mount : bytes) (segments : list bytes) (slash : bool) : bytes :=
  (if str_eqb mount (lit "/") then [] else mount)
  ++ concat ((λ s, x2f :: s) <$> segments) ++ (if slash then [x2f] else []).

Lemma join_slash (x : bytes) l : concat ((λ s : bytes, x2f :: s) <$> x :: l) = x2f :: join [x2f] (x :: l).
Proof.
  revert x. induction l as [|y l IH]; intros x; [cbn; by rewrite app_nil_r|].
  rewrite fmap_cons. cbn [concat]. rewrite IH, join_cons. done.
Qed.

Lemma strip_mount_tail m tail : mount_ok m →
  strip_mount ((if str_eqb m (lit "/") then [] else m) ++ x2f :: tail) m = Some tail.
Proof.
  intros Hm. unfold strip_mount. destruct (str_eqb m (lit "/")) eqn:E; [done|].
  destruct (str_eqb (m ++ x2f :: tail) m) eqn:E'.
  - apply str_eqb_eq, (f_equal length) in E'. rewrite length_app in E'. cbn in E'. lia.
  - rewrite strip_prefix_app. exact (strip_prefix_app [x2f] tail).
Qed.

(** [strip_mount] cuts at a segment boundary only. *)
Lemma strip_mount_Some path m tail : mount_ok m →
  strip_mount path m = Some tail →
  path = (if str_eqb m (lit "/") then [] else m) ++ x2f :: tail ∨ (path = m ∧ tail = [] ∧ m ≠ lit "/").
Proof.
  intros Hm. unfold strip_mount. destruct (str_eqb m (lit "/")) eqn:E.
  - intros ->%strip_prefix_Some. by left.
  - destruct (str_eqb path m) eqn:E'.
    + intros [= <-]. right. apply str_eqb_eq in E'. split_and!; [done..|]. intros ->. by rewrite str_eqb_refl in E.
    + destruct (strip_prefix m path) as [r|] eqn:Er; [|done]. apply strip_prefix_Some in Er as ->.
      intros H. apply (strip_prefix_Some [x2f] r) in H as ->. by left.
Qed.

Section handler.
Context {AT : AnyTypes}.

Definition is_get (head : RequestHead) : bool := eq_ignore_ascii_case (method head) (lit "GET").

(** The answer to a file. *)
Definition file_response (content ct : bytes) : Response :=
  push_header (lit "X-Content-Type-Options") (lit "nosniff") (with_content_type ct (response_new 200 content)).

Lemma nosniff r : try_add_header r (lit "X-Content-Type-Options") (lit "nosniff")
  = push_header (lit "X-Content-Type-Options") (lit "nosniff") r.
Proof. done. Qed.

(** The segments of a request and whether it ends with a slash, as the handler finds them. *)
Definition request_parts (tail : bytes) : list bytes * bool :=
  let (tail, dir_request) :=
    match strip_suffix [x2f] tail with Some stripped => (stripped, true) | None => (tail, false) end in
  (if bool_decide (tail = []) then [] else split x2f tail, dir_request).

(** The path that the parts of a request spell. *)
Definition spells (m : bytes) (segments : list bytes) (dir_request : bool) (path : bytes) : Prop :=
  path = mount_path m segments dir_request
  ∨ segments = [] ∧ dir_request = false ∧ (path = m ∨ path = mount_path m [] true).

Lemma request_parts_spells m path tail segments dir_request : mount_ok m →
  strip_mount path m = Some tail → request_parts tail = (segments, dir_request) →
  dir_request && bool_decide (segments = []) = false → spells m segments dir_request path.
Proof.
  intros Hm Hs%strip_mount_Some E Hne; [|done]. unfold request_parts in E.
  assert (∀ t slash, tail = t ++ (if slash : bool then [x2f] else []) →
    (if bool_decide (t = []) then [] else split x2f t, slash) = (segments, dir_request) →
    spells m segments dir_request path) as H.
  { clear E. intros t slash -> [= <- <-]. destruct (decide (t = [])) as [->|Ht].
    - destruct slash; [done|]. right. split_and!; [done..|].
      destruct Hs as [->|(-> & _)]; [by right|by left].
    - destruct Hs as [->|(-> & Ht' & _)]; [|by apply app_eq_nil in Ht' as [? _]].
      left. rewrite bool_decide_false by done. unfold mount_path. destruct (split x2f t) as [|x l] eqn:Ex; [by apply split_not_nil in Ex|].
      rewrite join_slash, <- Ex, join_split. done. }
  destruct (strip_suffix [x2f] tail) as [t|] eqn:Et.
  - apply strip_suffix_Some in Et. by apply (H t true).
  - apply (H tail false); [by rewrite app_nil_r|done].
Qed.

(** The handler in terms of the parts of the request. *)
Lemma try_handle_static_eq fs joined head config tail segments dir_request :
  is_get head = true → strip_mount (path head) (mount config) = Some tail →
  request_parts tail = (segments, dir_request) →
  try_handle_static fs joined head config =
    let miss := if fallthrough_on_miss config then None else Some (response_empty 404) in
    if (dir_request && bool_decide (segments = [])) || negb (forallb is_safe_segment segments) || negb joined then miss
    else match resolve_and_read fs (root config) segments dir_request (max_file_bytes config) (mime_overrides config) with
         | None => miss
         | Some (content, ct) => Some (file_response content ct)
         end.
Proof.
  intros Hg Hs Hp. unfold try_handle_static. unfold is_get in Hg. rewrite Hg, Hs. cbn [negb].
  unfold request_parts in Hp.
  destruct (strip_suffix [x2f] tail) as [t|] eqn:Et; injection Hp as <- <-; cbn [andb orb].
  - case_bool_decide as Ht; [subst t; done|]. rewrite bool_decide_false by apply split_not_nil. cbn [orb].
    destruct (forallb _ _), joined; cbn [negb orb]; done.
  - destruct (forallb _ _), joined; cbn [negb orb]; done.
Qed.

Lemma file_response_built content ct : existsb is_ctl ct = false → utf8_valid ct = true → response_built (file_response content ct).
Proof.
  intros Hct Hu. apply (built_header (lit "X-Content-Type-Options") (lit "nosniff") (with_content_type ct (response_new 200 content)));
    [done|by apply with_header_Ok|].
  apply built_content_type; [|apply built_response]. split; [|done].
  apply existsb_false_Forall. apply existsb_false_Forall in Hct. eapply Forall_impl; [exact Hct|].
  intros b Hb. by_bytes b.
Qed.

Lemma content_type_utf8 name t :
  (∀ kv, kv ∈ t → utf8_valid kv.2 = true) → utf8_valid (content_type_for_extension name t) = true.
Proof.
  intros Ht. unfold content_type_for_extension. destruct (str_eqb _ _); [done|].
  assert (∀ ext v t, (∀ kv, kv ∈ t → utf8_valid kv.2 = true) → find_type ext t = Some v → utf8_valid v = true) as Hf.
  { intros ext v t' H E. unfold find_type in E. destruct (List.find _ t') as [kv|] eqn:E'; [|done].
    injection E as <-. apply find_some in E' as [Hin _]. by apply H, list_elem_of_In. }
  destruct (find_type _ t) as [v|] eqn:E; [by eapply Hf|].
  destruct (find_type _ TABLE) as [v|] eqn:E'; [|done]. cbn. eapply Hf; [|exact E'].
  apply Forall_forall. unfold TABLE. by repeat constructor.
Qed.

(** C25: The static file plugin never leaves its root.  Whatever the request, and whatever the file
    system answers to each call (it may change between them), the plugin answers nothing, an empty
    404, or a 200 whose body is what was read at a path below the root: a path that
    [canonicalize] returned for the segments of the request or for an [index.html] in it, with no
    hidden name in it, for a GET below the mount, and not longer than the limit.  Its content type
    is one of the table or of the configuration, so that the answer cannot be split, and it
    forbids sniffing. *)
Theorem static_confined fs fs0 b joined head config r :
  build fs0 b = Ok config →
  (∀ kv, kv ∈ mime_overrides config → utf8_valid kv.2 = true) →
  try_handle_static fs joined head config = Some r →
  response_built r ∧ is_get head = true
  ∧ (r = response_empty 404 ∧ fallthrough_on_miss config = false
     ∨ ∃ segments dir_request rem content name,
         spells (mount config) segments dir_request (path head)
         ∧ reads fs (root config) segments dir_request (max_file_bytes config) rem content
         ∧ r = file_response content (content_type_for_extension name (mime_overrides config))).
Proof.
  intros ([Hm Ht] & _)%build_Ok Hu H.
  assert (is_get head = true) as Hg.
  { unfold try_handle_static in H. unfold is_get. by destruct (eq_ignore_ascii_case _ _). }
  destruct (strip_mount (path head) (mount config)) as [tail|] eqn:Hs.
  2: { unfold try_handle_static in H. unfold is_get in Hg. rewrite Hg, Hs in H. done. }
  destruct (request_parts tail) as [segments dir_request] eqn:Hp.
  rewrite (try_handle_static_eq _ _ _ _ _ _ _ Hg Hs Hp) in H. cbv zeta in H.
  assert ((if fallthrough_on_miss config then None else Some (response_empty 404)) = Some r →
    r = response_empty 404 ∧ fallthrough_on_miss config = false) as Hmiss.
  { destruct (fallthrough_on_miss config); [done|]. by intros [= <-]. }
  assert (r = response_empty 404 → response_built r) as Hb by (intros ->; apply built_response).
  destruct (_ || _) eqn:E in H; [naive_solver|]. bool_to_prop.
  destruct (resolve_and_read fs (root config) segments dir_request (max_file_bytes config) (mime_overrides config))
    as [[content ct]|] eqn:Er; [|naive_solver]. injection H as <-.
  apply resolve_and_read_Some in Er as (rem & name & Hr & ->). split_and!; [|done|].
  - apply file_response_built; [by apply content_type_ok|by apply content_type_utf8].
  - right. exists segments, dir_request, rem, content, name. split_and!; [|done|done].
    by eapply request_parts_spells.
Qed.
End handler.

(** ** File systems with symbolic links *)

(** A chain of directories, none of them a link. *)
Definition real_dir (tree : Tree) (p : Path) : Prop := ∀ q n r, p = q ++ n :: r → tree (q ++ [n]) = Some EDir.
Definition real_file (tree : Tree) (p : Path) (content : bytes) : Prop :=
  ∃ d n, p = d ++ [n] ∧ real_dir tree d ∧ tree p = Some (EFile content).
Definition real (tree : Tree) (p : Path) : Prop := real_dir tree p ∨ ∃ content, real_file tree p content.

Lemma real_dir_nil tree : real_dir tree [].
Proof. intros q n r E. by destruct q. Qed.

Lemma real_dir_snoc tree p n : real_dir tree p → tree (p ++ [n]) = Some EDir → real_dir tree (p ++ [n]).
Proof.
  intros Hp Hn q m r E. destruct r as [|x r _] using rev_ind.
  - by apply app_inj_tail in E as [-> ->].
  - rewrite app_comm_cons, (assoc_L (++)) in E. apply app_inj_tail in E as [-> _]. by apply (Hp q m r).
Qed.

Lemma real_dir_prefix tree p r : real_dir tree (p ++ r) → real_dir tree p.
Proof. intros H q n r' ->. apply (H q n (r' ++ r)). by rewrite <- (assoc_L (++)). Qed.

Lemma real_dir_removelast tree p : real_dir tree p → real_dir tree (removelast p).
Proof.
  intros H. destruct p as [|n p _] using rev_ind; [done|]. rewrite removelast_last.
  by apply (real_dir_prefix _ _ [n]).
Qed.

Lemma resolve_cons tree links cur c rest :
  resolve tree links cur (c :: rest) =
    match c with
    | Up => resolve tree links (removelast cur) rest
    | Down name =>
        match tree (cur ++ [name]) with
        | None => None
        | Some EDir => resolve tree links (cur ++ [name]) rest
        | Some (EFile _) => match rest with [] => Some (cur ++ [name]) | _ => None end
        | Some (ELink absolute target) =>
            match links with
            | O => None
            | S links => resolve tree links (if absolute then [] else cur) (target ++ rest)
            end
        end
    end.
Proof. by destruct links. Qed.

(** What [canonicalize] returns contains no link. *)
Lemma resolve_real tree links cur rest p :
  real_dir tree cur → resolve tree links cur rest = Some p → real tree p.
Proof.
  revert cur rest. induction links as [|links IHl]; intros cur rest; revert cur;
    (induction rest as [|c rest IH]; intros cur Hc E; [injection E as <-; by left|]);
    rewrite resolve_cons in E; (destruct c as [|name]; [by apply (IH (removelast cur)), E; apply real_dir_removelast|]);
    destruct (tree (cur ++ [name])) as [[content| |absolute target]|] eqn:En; try done.
  all: try (apply (IH (cur ++ [name])); [by apply real_dir_snoc|done]).
  all: try (destruct rest; [|done]; injection E as <-; right; exists content, cur, name; by split_and!).
  apply (IHl (if absolute then [] else cur) (target ++ rest)); [|done].
  destruct absolute; [apply real_dir_nil|done].
Qed.

Lemma realpath_real tree p q : realpath tree p = Some q → real tree q.
Proof. apply resolve_real, real_dir_nil. Qed.

(** A path without links is its own [canonicalize]. *)
Lemma resolve_fixed tree links cur rest :
  real tree (cur ++ rest) → resolve tree links cur (Down <$> rest) = Some (cur ++ rest).
Proof.
  revert cur. induction rest as [|n rest IH]; intros cur H.
  { rewrite app_nil_r. by destruct links. }
  cbn [fmap list_fmap]. rewrite resolve_cons. destruct H as [H|(content & d & m & E & Hd & Ht)].
  - rewrite (H cur n rest eq_refl). rewrite (assoc_L (++) cur [n] rest : cur ++ n :: rest = _).
    apply IH. left. by rewrite <- (assoc_L (++)).
  - destruct rest as [|x rest _] using rev_ind.
    + by rewrite Ht.
    + assert (d = cur ++ n :: rest) as ->.
      { rewrite app_comm_cons, (assoc_L (++)) in E. by apply app_inj_tail in E as [-> _]. }
      rewrite (Hd cur n rest eq_refl).
      rewrite (assoc_L (++) cur [n] (rest ++ [x]) : cur ++ n :: rest ++ [x] = _). apply IH. right.
      exists content, (cur ++ n :: rest), m. rewrite <- (assoc_L (++)). by split_and!.
Qed.

Lemma realpath_fixed tree p : real tree p → realpath tree p = Some p.
Proof. intros H. by apply (resolve_fixed tree MAX_LINKS [] p). Qed.

Lemma real_file_inj tree p c c' : real_file tree p c → real_file tree p c' → c = c'.
Proof. intros (? & ? & _ & _ & H) (? & ? & _ & _ & H'). congruence. Qed.

Lemma entry_file tree p content : real_file tree p content → entry tree p = Some (EFile content).
Proof.
  intros H. unfold entry. rewrite realpath_fixed by (right; by exists content).
  destruct H as (d & n & -> & _ & Ht). by destruct d.
Qed.

Lemma entry_dir tree p : real_dir tree p → entry tree p = Some EDir.
Proof.
  intros H. unfold entry. rewrite realpath_fixed by by left. destruct p as [|x p _] using rev_ind; [done|].
  pose proof (H p x [] eq_refl) as E. by destruct p.
Qed.

(** A regular file that is read at a canonical path. *)
Lemma read_real tree p content : real tree p → read (tree_fs tree) p = Some content → real_file tree p content.
Proof.
  intros [H|(c & H)] E; cbn in E.
  - by rewrite entry_dir in E.
  - rewrite (entry_file _ _ _ H) in E. by injection E as <-.
Qed.

Definition file_name (p : Path) : bytes := let name := List.last p [] in if utf8_valid name then name else [].

Lemma below_app root rem : below root (root ++ rem) = true.
Proof. apply below_spec. by exists rem. Qed.
Lemma safe_app root rem : Forall safe_name rem → resolved_path_is_safe root (root ++ rem) = true.
Proof. intros H. apply resolved_path_is_safe_spec. by exists rem. Qed.

(** The file that a path below the root stands for: itself, or the index of a directory. *)
Definition stands_for (tree : Tree) (root rem : Path) (dir_request : bool) (file : Path) (content : bytes) : Prop :=
  real_file tree (root ++ file) content
  ∧ (dir_request = false ∧ file = rem ∨ real_dir tree (root ++ rem) ∧ file = rem ++ [lit "index.html"]).

Lemma resolve_and_read_tree tree root rem dir_request max overrides file content :
  stands_for tree root rem dir_request file content → Forall safe_name rem → (len content <= max)%N →
  resolve_and_read (λ _, tree_fs tree) root rem dir_request max overrides
  = Some (content, content_type_for_extension (file_name (root ++ file)) overrides).
Proof.
  intros [Hf Hcase] Hsafe Hlen. unfold resolve_and_read. cbn [canonicalize metadata read tree_fs].
  assert (∀ p c, real_file tree p c → realpath tree p = Some p) as Hreal.
  { intros p c H. apply realpath_fixed. right. by exists c. }
  destruct Hcase as [[-> ->]|[Hd ->]].
  - rewrite (Hreal _ _ Hf), below_app, safe_app, (entry_file _ _ _ Hf) by done.
    cbn [negb md_is_dir md_is_file md_len andb orb]. rewrite !(entry_file _ _ _ Hf).
    cbn [negb md_is_file md_len orb]. rewrite !(proj2 (N.ltb_ge _ _)) by done. done.
  - rewrite (realpath_fixed _ _ (or_introl Hd)), below_app, safe_app, (entry_dir _ _ Hd) by done.
    cbn [md_is_dir negb]. rewrite andb_false_r, <- (assoc_L (++)), (Hreal _ _ Hf), below_app.
    rewrite safe_app by (apply Forall_app; by split; [|repeat constructor]).
    cbn [negb]. rewrite !(entry_file _ _ _ Hf). cbn [negb md_is_file md_len orb]. rewrite !(proj2 (N.ltb_ge _ _)) by done. done.
Qed.

(** A segment of a path that can be asked for. *)
Definition plain_segment (s : bytes) : Prop :=
  is_safe_segment s = true ∧ contains x2f s = false ∧ utf8_valid s = true.

Lemma plain_not_nil s : plain_segment s → s ≠ [].
Proof. intros [H _] ->. vm_compute in H. done. Qed.

Lemma plain_safe s : plain_segment s → safe_name s.
Proof. intros (H & _ & Hu). split; [done|]. by apply safe_segment_relaxed. Qed.

Lemma split_slash_end t : ∃ h l, split x2f (t ++ [x2f]) = h :: l ++ [[]].
Proof.
  induction t as [|c t (h & l & IH)]; [by exists [], []|]. cbn. rewrite IH.
  destruct (beqb c x2f); [by exists [], (h :: l)|by exists (c :: h), l].
Qed.

Lemma join_no_slash_end l : Forall plain_segment l → l ≠ [] → strip_suffix [x2f] (join [x2f] l) = None.
Proof.
  intros Hl Hn. destruct (strip_suffix [x2f] (join [x2f] l)) as [t|] eqn:E; [exfalso|done].
  apply strip_suffix_Some, (f_equal (split x2f)) in E.
  rewrite split_join in E; [|done|eapply Forall_impl; [exact Hl|]; intros s Hs; apply Hs].
  destruct (split_slash_end t) as (h & l' & E'). rewrite E, E', app_comm_cons in Hl.
  apply Forall_app in Hl as [_ Hl]. apply (proj1 (Forall_singleton _ _)), plain_not_nil in Hl. done.
Qed.

Lemma join_not_nil l : Forall plain_segment l → l ≠ [] → join [x2f] l ≠ [].
Proof.
  destruct l as [|x l]; [done|]. intros [Hx _]%Forall_cons _ E. destruct x as [|c x]; [by apply plain_not_nil in Hx|].
  by destruct l.
Qed.

(** The parts of a request are what its path spells. *)
Lemma spells_parts m path segments dir_request :
  mount_ok m → path ≠ [] → Forall plain_segment segments → spells m segments dir_request path →
  ∃ tail dir, strip_mount path m = Some tail ∧ request_parts tail = (segments, dir)
              ∧ dir = dir_request && negb (bool_decide (segments = [])).
Proof.
  intros Hm Hp Hs Hsp.
  assert (path = m ∨ path = (if str_eqb m (lit "/") then [] else m) ++ [x2f] →
    strip_mount path m = Some []) as Hroot.
  { intros [->|E]; [|subst; by apply strip_mount_tail]. unfold strip_mount. destruct (str_eqb m (lit "/")) eqn:E.
    - by apply str_eqb_eq in E as ->.
    - by rewrite str_eqb_refl. }
  destruct segments as [|x l].
  - exists [], false. rewrite andb_false_r. split_and!; [|done|done]. apply Hroot.
    destruct Hsp as [->|(_ & _ & H)]; [|exact H]. unfold mount_path in *. cbn in *.
    destruct dir_request; [by right|left]. rewrite app_nil_r in *. revert Hp. by destruct (str_eqb m _).
  - destruct Hsp as [->|(? & _)]; [|done]. unfold mount_path in *. rewrite join_slash in *.
    exists (join [x2f] (x :: l) ++ (if dir_request then [x2f] else [])), dir_request.
    split_and!; [by apply strip_mount_tail| |by rewrite andb_true_r].
    unfold request_parts. pose proof (join_not_nil _ Hs ltac:(done)) as Hj.
    assert (split x2f (join [x2f] (x :: l)) = x :: l) as Hsplit.
    { apply split_join; [done|]. eapply Forall_impl; [exact Hs|]. intros s H. apply H. }
    destruct dir_request.
    + rewrite (proj2 (strip_suffix_Some [x2f] _ _) eq_refl). by rewrite bool_decide_false, Hsplit.
    + rewrite app_nil_r, join_no_slash_end by done. by rewrite bool_decide_false, Hsplit.
Qed.

Section tree.
Context {AT : AnyTypes}.

(** C26: On a file system at rest, with any symbolic links, the plugin serves exactly files below its
    root.  A 200 has the content of a regular file whose path is the root and safe names, and no
    component of which is a link, so that no link leads out of the root; and every such file that is
    not too large is served under the path that spells its names, with the index of a directory
    under the path of the directory, with or without a slash at the end. *)
Theorem static_serves_tree tree b head config :
  build (tree_fs tree) b = Ok config → is_get head = true → path head ≠ [] →
  let answer := try_handle_static (λ _, tree_fs tree) true head config in
  (∀ r, answer = Some r → status r = 200%N →
     ∃ rem content, real_file tree (root config ++ rem) content ∧ Forall safe_name rem ∧ r_body r = content)
  ∧ (∀ rem slash file content,
       Forall plain_segment rem → spells (mount config) rem slash (path head) →
       stands_for tree (root config) rem (slash && negb (bool_decide (rem = []))) file content →
       (len content <= max_file_bytes config)%N →
       answer = Some (file_response content
                  (content_type_for_extension (file_name (root config ++ file)) (mime_overrides config)))).
Proof.
  intros Hb Hg Hp answer. apply build_Ok in Hb as ([Hm Ht] & _). split.
  - intros r H Hst. subst answer.
    destruct (strip_mount (path head) (mount config)) as [tail|] eqn:Hs.
    2: { unfold try_handle_static in H. unfold is_get in Hg. rewrite Hg, Hs in H. done. }
    destruct (request_parts tail) as [segments dir_request] eqn:Hparts.
    rewrite (try_handle_static_eq _ _ _ _ _ _ _ Hg Hs Hparts) in H. cbv zeta in H.
    assert ((if fallthrough_on_miss config then None else Some (response_empty 404)) ≠ Some r) as Hmiss.
    { destruct (fallthrough_on_miss config); [done|]. intros [= <-]. done. }
    destruct (_ || _) in H; [done|].
    destruct (resolve_and_read (λ _, tree_fs tree) (root config) segments dir_request (max_file_bytes config)
      (mime_overrides config)) as [[content ct]|] eqn:Er; [|done]. injection H as <-.
    apply resolve_and_read_Some in Er as (rem & name & [Hr Hsafe _ _ Hc] & _). exists rem, content.
    split_and!; [|done|done]. apply read_real; [|done]. cbn in Hc.
    destruct Hc as [[_ H]|(dir & _ & H)]; by eapply realpath_real.
  - intros rem slash file content Hrem Hsp Hf Hlen. subst answer.
    destruct (spells_parts _ _ _ _ Hm Hp Hrem Hsp) as (tail & dir & Hs & Hparts & Edir).
    rewrite (try_handle_static_eq _ _ _ _ _ _ _ Hg Hs Hparts). cbv zeta.
    rewrite <- Edir in Hf. rewrite (resolve_and_read_tree _ _ _ _ _ _ _ _ Hf) by
      (done || (eapply Forall_impl; [exact Hrem|]; apply plain_safe)).
    assert (forallb is_safe_segment rem = true) as ->.
    { apply forallb_Forall. eapply Forall_impl; [exact Hrem|]. intros s H. apply H. }
    assert (dir && bool_decide (rem = []) = false) as ->; [|done].
    rewrite Edir. by destruct slash, (bool_decide (rem = [])).
Qed.
End tree.

(** ** A file system *)

Section witness.
#[local] Existing Instance demo_types.

(** [/srv/www] with two files, a link to one of its directories and a link out of it. *)
Definition demo_entries : list (Path * Entry) :=
  [([lit "srv"], EDir); ([lit "srv"; lit "www"], EDir); ([lit "etc"], EDir);
   ([lit "etc"; lit "passwd"], EFile (lit "root"));
   ([lit "srv"; lit "www"; lit "index.html"], EFile (lit "<p>"));
   ([lit "srv"; lit "www"; lit "a"], EDir);
   ([lit "srv"; lit "www"; lit "a"; lit "b.TXT"], EFile (lit "text"));
   ([lit "srv"; lit "www"; lit "up"], ELink false [Up; Down (lit "www"); Down (lit "a")]);
   ([lit "srv"; lit "www"; lit "evil"], ELink true [Down (lit "etc")])].
Definition demo_tree : Tree := λ p, snd <$> List.find (λ e, bool_decide (e.1 = p)) demo_entries.

Definition demo_builder : StaticFilesConfig := builder (lit "/static") [lit "srv"; lit "www"].
Definition demo_config : StaticFilesConfig :=
  match build (tree_fs demo_tree) demo_builder with Ok c => c | Err _ => demo_builder end.
Definition demo_get (path : bytes) : RequestHead :=
  head_of {| a_method := lit "GET"; a_target := path; a_version := Http11; a_fields := [] |}.
Definition demo_static (path : bytes) : option (N * bytes * option bytes) :=
  (λ r, (status r, r_body r, content_type r)) <$>
    try_handle_static (λ _, tree_fs demo_tree) true (demo_get path) demo_config.

Lemma demo_build : build (tree_fs demo_tree) demo_builder = Ok demo_config.
Proof. by vm_compute. Qed.

(** The links are followed, but not out of the root; dot segments do not reach the file system. *)
Lemma demo_static_answers :
  demo_static (lit "/static/a/b.TXT") = Some (200%N, lit "text", Some (lit "text/plain; charset=utf-8"))
  ∧ demo_static (lit "/static/up/b.TXT?x") = Some (200%N, lit "text", Some (lit "text/plain; charset=utf-8"))
  ∧ demo_static (lit "/static/") = Some (200%N, lit "<p>", Some (lit "text/html; charset=utf-8"))
  ∧ demo_static (lit "/static/evil/passwd") = Some (404%N, [], None)
  ∧ demo_static (lit "/static/../../etc/passwd") = Some (404%N, [], None)
  ∧ demo_static (lit "/static/a/b.TXT/") = Some (404%N, [], None)
  ∧ demo_static (lit "/staticfoo") = None.
Proof. by vm_compute. Qed.

Lemma static_confined_witness :
  ∃ r rem content, try_handle_static (λ _, tree_fs demo_tree) true (demo_get (lit "/static/up/b.TXT")) demo_config = Some r
    ∧ response_built r ∧ r_body r = content ∧ Forall safe_name rem
    ∧ read (tree_fs demo_tree) (root demo_config ++ rem) = Some content.
Proof.
  destruct (try_handle_static (λ _, tree_fs demo_tree) true (demo_get (lit "/static/up/b.TXT")) demo_config)
    as [r|] eqn:E; [|by vm_compute in E].
  destruct (static_confined (λ _, tree_fs demo_tree) (tree_fs demo_tree) demo_builder true
    (demo_get (lit "/static/up/b.TXT")) demo_config r demo_build) as (Hb & _ & H).
  - intros kv Hin. by apply elem_of_nil in Hin.
  - exact E.
  - destruct H as [[-> _]|(segments & dir & rem & content & name & _ & [Hr Hs _ _ _] & ->)]; [by vm_compute in E|].
    exists (file_response content (content_type_for_extension name (mime_overrides demo_config))), rem, content.
    exact (conj eq_refl (conj Hb (conj eq_refl (conj Hs Hr)))).
Defined.

Lemma demo_stands :
  stands_for demo_tree (root demo_config) [lit "a"; lit "b.TXT"] false [lit "a"; lit "b.TXT"] (lit "text").
Proof.
  split; [|by left]. exists [lit "srv"; lit "www"; lit "a"], (lit "b.TXT"). split_and!; [by vm_compute| |by vm_compute].
  apply (real_dir_snoc _ [_; _]); [|by vm_compute]. apply (real_dir_snoc _ [_]); [|by vm_compute].
  apply (real_dir_snoc _ []); [apply real_dir_nil|by vm_compute].
Qed.

Lemma static_serves_tree_witness :
  try_handle_static (λ _, tree_fs demo_tree) true (demo_get (lit "/static/a/b.TXT")) demo_config
  = Some (file_response (lit "text") (lit "text/plain; charset=utf-8")).
Proof.
  destruct (static_serves_tree demo_tree demo_builder (demo_get (lit "/static/a/b.TXT")) demo_config demo_build)
    as [_ H]; [by vm_compute|by vm_compute|].
  apply (H [lit "a"; lit "b.TXT"] false [lit "a"; lit "b.TXT"] (lit "text")).
  - repeat constructor.
  - left. by vm_compute.
  - exact demo_stands.
  - by vm_compute.
Defined.
End witness.
