(* ===== verification/Jwt.v ===== *)
(** * [plugin-jwt]: policies, key sets and the verification of tokens

    What an application requires of a token ([policy.rs]), how a JWKS document becomes a set of
    verification keys ([jwks.rs]) and [verify_inner] ([verify.rs]).  The base64 and serde_json
    crates, and ring for signatures and digests, are the parameter class [JwtCrates]: it gives the
    structures that serde derives, before the conversions and checks of the source. *)

From S2P Require Import Prelude Text Utf8 Radix Extensions Request Response Gate ServerConfig.

Definition as_secs (d : Duration) : N := (d / 1000000000)%N.
Definition saturating_add (a b : N) : N := N.min (a + b) u64_max.

(** ** [policy.rs] *)

Definition MAX_CLOCK_SKEW : Duration := from_secs 300.
Definition MAX_CLAIM_VALUE_LEN : N := 1024.
Definition MAX_AUDIENCES : nat := 16.

Inductive PolicyError :=
| EmptyIssuer
| EmptyAudience
| TooManyAudiences
| ClaimValueTooLong
| NoAllowedAlgorithms
| ClockSkewTooLarge.

Definition check_claim_value (value : bytes) : result unit PolicyError :=
  if (MAX_CLAIM_VALUE_LEN <? len value)%N then Err ClaimValueTooLong else Ok tt.

(** [Issuer], [Audiences] and [AllowedAlgorithms] are what they wrap. *)
Definition Issuer_new (value : bytes) : result bytes PolicyError :=
  if bool_decide (value = []) then Err EmptyIssuer
  else let? _ := check_claim_value value in Ok value.

Fixpoint Audiences_loop (values out : list bytes) : result (list bytes) PolicyError :=
  match values with
  | [] => if bool_decide (out = []) then Err EmptyAudience else Ok out
  | v :: values =>
      if bool_decide (v = []) then Err EmptyAudience
      else
        let? _ := check_claim_value v in
        if existsb (str_eqb v) out then Audiences_loop values out
        else if MAX_AUDIENCES <=? length out then Err TooManyAudiences
        else Audiences_loop values (out ++ [v])
  end.
Definition Audiences_new (values : list bytes) : result (list bytes) PolicyError := Audiences_loop values [].

Inductive Algorithm := Rs256 | Es256.
#[export] Instance Algorithm_eq_dec : EqDecision Algorithm.
Proof. solve_decision. Defined.

Definition as_jose_name (self : Algorithm) : bytes :=
  match self with Rs256 => lit "RS256" | Es256 => lit "ES256" end.
Definition from_jose_name (name : bytes) : option Algorithm :=
  if str_eqb name (lit "RS256") then Some Rs256
  else if str_eqb name (lit "ES256") then Some Es256
  else None.

Definition AllowedAlgorithms_new (algs : list Algorithm) : result (list Algorithm) PolicyError :=
  let out := fold_left (λ out a, if bool_decide (a ∈ out) then out else out ++ [a]) algs [] in
  if bool_decide (out = []) then Err NoAllowedAlgorithms else Ok out.

Inductive TokenType := AccessToken.
Definition matches_header (self : TokenType) (typ : bytes) : bool :=
  match self with
  | AccessToken => eq_ignore_ascii_case typ (lit "at+jwt") || eq_ignore_ascii_case typ (lit "application/at+jwt")
  end.

Record JwtPolicy := {
  issuer : bytes;
  audiences : list bytes;
  algorithms : list Algorithm;
  token_type : TokenType;
  clock_skew : Duration;
}.

Definition JwtPolicy_new (issuer : bytes) (audiences : list bytes) (algorithms : list Algorithm)
    (token_type : TokenType) : JwtPolicy :=
  {| issuer := issuer; audiences := audiences; algorithms := algorithms; token_type := token_type;
     clock_skew := 0%N |}.

Definition with_clock_skew (skew : Duration) (self : JwtPolicy) : result JwtPolicy PolicyError :=
  if (MAX_CLOCK_SKEW <? skew)%N then Err ClockSkewTooLarge
  else Ok {| issuer := issuer self; audiences := audiences self; algorithms := algorithms self;
             token_type := token_type self; clock_skew := skew |}.

(** ** What the crates give *)

(** [RawJwk]: texts, and whether a private component occurs. *)
Record RawJwk := {
  j_kty : option bytes;
  j_kid : option bytes;
  j_alg : option bytes;
  j_use : option bytes;
  j_crv : option bytes;
  j_n : option bytes;
  j_e : option bytes;
  j_x : option bytes;
  j_y : option bytes;
  j_d : bool;
  j_p : bool;
  j_q : bool;
  j_dp : bool;
  j_dq : bool;
  j_qi : bool;
  j_oth : bool;
  j_k : bool;
}.

(** [RawHeader]; [crit] is whether the field occurs. *)
Record RawHeader := { h_alg : bytes; h_kid : option bytes; h_typ : option bytes; h_crit : bool }.

(** The value of [aud] before [AudClaim]. *)
Inductive RawAud := AudString (s : bytes) | AudArray (l : list bytes).
(** The value of [cnf] before [lenient_cnf]: an object with a text [jkt], or anything else. *)
Inductive RawCnf := CnfJkt (jkt : bytes) | CnfOther.

Record RawClaims := {
  r_iss : option bytes;
  r_sub : option bytes;
  r_aud : option RawAud;
  r_exp : option N;
  r_nbf : option N;
  r_iat : option N;
  r_jti : option bytes;
  r_client_id : option bytes;
  r_scope : option bytes;
  r_cnf : option RawCnf;
}.

(** [JwkFields] of a DPoP proof ([dpop/key.rs]); [ProofJwk] wraps it. *)
Record JwkFields := {
  f_kty : option bytes;
  f_alg : option bytes;
  f_use : option bytes;
  f_crv : option bytes;
  f_n : option bytes;
  f_e : option bytes;
  f_x : option bytes;
  f_y : option bytes;
  f_d : bool;
  f_p : bool;
  f_q : bool;
  f_dp : bool;
  f_dq : bool;
  f_qi : bool;
  f_oth : bool;
  f_k : bool;
}.

(** [RawProofHeader] and [RawProofClaims] ([dpop.rs]). *)
Record RawProofHeader := {
  ph_alg : option bytes;
  ph_typ : option bytes;
  ph_crit : bool;
  ph_jwk : option JwkFields;
}.
Record RawProofClaims := {
  pc_jti : option bytes;
  pc_htm : option bytes;
  pc_htu : option bytes;
  pc_iat : option N;
  pc_ath : option bytes;
}.

(** [b64_decode] and [b64_encode] are the engine [URL_SAFE_NO_PAD]. *)
Class JwtCrates := {
  b64_decode : bytes → option bytes;
  b64_encode : bytes → bytes;
  json_jwks : bytes → option (list RawJwk);
  json_header : bytes → option RawHeader;
  json_claims : bytes → option RawClaims;
  Extra : Type;
  json_extra : bytes → option Extra;
  json_proof_header : bytes → option RawProofHeader;
  json_proof_claims : bytes → option RawProofClaims;
  json_proof_jwk : bytes → option JwkFields;
  rsa_verify : bytes → bytes → bytes → bytes → bool;
  ecdsa_verify : bytes → bytes → bytes → bool;
  sha256 : bytes → bytes;
}.

(** ** [jwks.rs] *)

Definition MAX_JWKS_DOC_LEN : N := 64 * 1024.
Definition MAX_KEYS : nat := 32.
Definition MAX_KEYS_PER_KID : nat := 3.
Definition MAX_KID_LEN : N := 256.
Definition MAX_RSA_N_LEN : N := 1024.
Definition MAX_RSA_E_LEN : N := 8.
Definition EC_P256_COORD_LEN : N := 32.

Inductive JwksError :=
| DocumentTooLarge
| InvalidJson
| TooManyKeys
| TooManyKeysForKeyId
| MissingKeyId
| KeyIdTooLong
| MissingAlgorithm
| KeyAlgorithmMismatch
| UnsupportedCurve
| ForbiddenAlgorithm
| SymmetricKey
| PrivateKeyMaterial
| MissingKeyComponent
| InvalidKeyEncoding
| KeyTooLarge
| InvalidKeyLength
| DuplicateKey
| NoUsableKeys.

Inductive KeyMaterial :=
| Rsa (n e : bytes)
| EcP256 (point : bytes).
#[export] Instance KeyMaterial_eq_dec : EqDecision KeyMaterial.
Proof. solve_decision. Defined.

Record Jwk := { kid : bytes; alg : Algorithm; material : KeyMaterial }.
#[export] Instance Jwk_eq_dec : EqDecision Jwk.
Proof. solve_decision. Defined.

Record KeySet := { keys : list Jwk; skipped : nat }.
Definition KeySet_empty : KeySet := {| keys := []; skipped := 0 |}.

Definition keys_for (kid_ : bytes) (self : KeySet) : list Jwk := List.filter (λ k, str_eqb (kid k) kid_) (keys self).

Definition SKIPPABLE_RSA_ALGS : list bytes :=
  [lit "RS384"; lit "RS512"; lit "PS256"; lit "PS384"; lit "PS512"; lit "RSA1_5"; lit "RSA-OAEP"; lit "RSA-OAEP-256"].
Definition SKIPPABLE_EC_ALGS : list bytes :=
  [lit "ECDH-ES"; lit "ECDH-ES+A128KW"; lit "ECDH-ES+A192KW"; lit "ECDH-ES+A256KW"].

Definition encoded_cap (n : N) : N := (n * 4 / 3 + 4)%N.

Section jwt.
Context {JC : JwtCrates}.

Definition decode_rsa (s : option bytes) (max : N) : result bytes JwksError :=
  let? s := ok_or s MissingKeyComponent in
  if (encoded_cap max + 8 <? len s)%N then Err KeyTooLarge
  else
    let? decoded := ok_or (b64_decode s) InvalidKeyEncoding in
    let trimmed := trim_start_matches (beqb x00) decoded in
    if bool_decide (trimmed = []) then Err InvalidKeyEncoding
    else if (max <? len trimmed)%N then Err KeyTooLarge
    else Ok trimmed.

Definition decode_coord (s : option bytes) : result bytes JwksError :=
  let? s := ok_or s MissingKeyComponent in
  if (encoded_cap EC_P256_COORD_LEN <? len s)%N then Err InvalidKeyLength
  else
    let? decoded := ok_or (b64_decode s) InvalidKeyEncoding in
    if (len decoded =? EC_P256_COORD_LEN)%N then Ok decoded else Err InvalidKeyLength.

(** The checks of [classify] on the combination of [alg], [kty] and [crv]. *)
Definition required_kty (a : bytes) : option (list bytes) :=
  if starts_with (lit "RS") a || starts_with (lit "PS") a || starts_with (lit "RSA") a then Some [lit "RSA"]
  else if starts_with (lit "ECDH-ES") a then Some [lit "EC"; lit "OKP"]
  else if starts_with (lit "ES") a then Some [lit "EC"]
  else None.

Definition required_crv (a : bytes) : option bytes :=
  if str_eqb a (lit "ES256") then Some (lit "P-256")
  else if str_eqb a (lit "ES384") then Some (lit "P-384")
  else if str_eqb a (lit "ES512") then Some (lit "P-521")
  else None.

Definition check_alg (a kty : bytes) (crv : option bytes) : result unit JwksError :=
  if match required_kty a with Some req => negb (existsb (str_eqb kty) req) | None => false end
  then Err KeyAlgorithmMismatch
  else
    match required_crv a with
    | Some rc =>
        if str_eqb kty (lit "EC") && negb (bool_decide (crv = Some rc))
        then Err (if str_eqb a (lit "ES256") then UnsupportedCurve else KeyAlgorithmMismatch)
        else Ok tt
    | None => Ok tt
    end.

Definition forbidden_alg (a : bytes) : bool :=
  eq_ignore_ascii_case a (lit "none")
  || str_eqb a (lit "HS256") || str_eqb a (lit "HS384") || str_eqb a (lit "HS512").

Definition has_private (raw : RawJwk) : bool :=
  j_d raw || j_p raw || j_q raw || j_dp raw || j_dq raw || j_qi raw || j_oth raw || j_k raw.

Definition on_alg (raw : RawJwk) (p : bytes → bool) : bool :=
  match j_alg raw with Some a => p a | None => false end.

Definition classify (raw : RawJwk) : result (option Jwk) JwksError :=
  let? kty := ok_or (j_kty raw) InvalidJson in
  if str_eqb kty (lit "oct") then Err SymmetricKey
  else if on_alg raw forbidden_alg then Err ForbiddenAlgorithm
  else if has_private raw then Err PrivateKeyMaterial
  else
    let? _ := match j_alg raw with Some a => check_alg a kty (j_crv raw) | None => Ok tt end in
    if match j_use raw with Some u => negb (str_eqb u (lit "sig")) | None => false end then Ok None
    else
      let is_rsa := str_eqb kty (lit "RSA") in
      let is_ec := str_eqb kty (lit "EC") in
      if is_ec && negb (bool_decide (is_Some (j_crv raw))) then Err UnsupportedCurve
      else if negb (is_rsa || (is_ec && bool_decide (j_crv raw = Some (lit "P-256")))) then Ok None
      else
        let (algorithm, skippable) := if is_rsa then (Rs256, SKIPPABLE_RSA_ALGS) else (Es256, SKIPPABLE_EC_ALGS) in
        if on_alg raw (λ a, negb (str_eqb a (as_jose_name algorithm)) && existsb (str_eqb a) skippable) then Ok None
        else
          let? kid := ok_or (opt_filter (λ k, negb (bool_decide (k = []))) (j_kid raw)) MissingKeyId in
          if (MAX_KID_LEN <? len kid)%N then Err KeyIdTooLong
          else
            let? a := ok_or (j_alg raw) MissingAlgorithm in
            if negb (str_eqb a (as_jose_name algorithm)) then Err KeyAlgorithmMismatch
            else if is_rsa then
              let? n := decode_rsa (j_n raw) MAX_RSA_N_LEN in
              let? e := decode_rsa (j_e raw) MAX_RSA_E_LEN in
              Ok (Some {| kid := kid; alg := algorithm; material := Rsa n e |})
            else
              let? x := decode_coord (j_x raw) in
              let? y := decode_coord (j_y raw) in
              Ok (Some {| kid := kid; alg := algorithm; material := EcP256 ([x04] ++ x ++ y) |}).

(** The loop over the entries: the keys and how many were skipped. *)
Fixpoint classify_all (raws : list RawJwk) (keys : list Jwk) (skipped : nat) :
    result (list Jwk * nat) JwksError :=
  match raws with
  | [] => Ok (keys, skipped)
  | raw :: raws =>
      let? o := classify raw in
      match o with
      | Some jwk => classify_all raws (keys ++ [jwk]) skipped
      | None => classify_all raws keys (S skipped)
      end
  end.

(** The loop over the keys: [before] is [keys[..i]]. *)
Fixpoint check_keys (keys before rest : list Jwk) : result unit JwksError :=
  match rest with
  | [] => Ok tt
  | a :: rest =>
      if MAX_KEYS_PER_KID <? length (List.filter (λ b, str_eqb (kid b) (kid a)) keys) then Err TooManyKeysForKeyId
      else if existsb (λ b, bool_decide (b = a)) before then Err DuplicateKey
      else check_keys keys (before ++ [a]) rest
  end.

Definition from_json (json : bytes) : result KeySet JwksError :=
  if (MAX_JWKS_DOC_LEN <? len json)%N then Err DocumentTooLarge
  else
    let? raws := ok_or (json_jwks json) InvalidJson in
    let? (keys, skipped) := classify_all raws [] 0 in
    if MAX_KEYS <? length keys then Err TooManyKeys
    else
      let? _ := check_keys keys [] keys in
      if (0 <? length raws) && bool_decide (keys = []) then Err NoUsableKeys
      else Ok {| keys := keys; skipped := skipped |}.

(** ** [verify.rs] *)

(** The errors of [dpop.rs], which a token error can carry. *)
Inductive DpopError :=
| MissingProof
| DTooLong
| DMalformed
| DInvalidType
| DAlgorithmNotAllowed
| DCriticalHeader
| MissingJwk
| DPrivateKeyMaterial
| UnsupportedKey
| DKeyAlgorithmMismatch
| InvalidKey
| DInvalidSignature
| DMissingClaim
| InvalidJti
| MethodMismatch
| UriMismatch
| AccessTokenHashMismatch
| IssuedAtOutOfWindow
| InvalidRequestTarget
| Replayed
| ReplayStoreFull
| MultipleProofs
| ThumbprintMismatch
| BoundTokenAsBearer
| UnboundToken.

Definition is_token_side (self : DpopError) : bool :=
  match self with BoundTokenAsBearer | UnboundToken => true | _ => false end.

Definition MAX_TOKEN_LEN : N := 8192.
Definition MAX_TOKEN_AUDIENCES : nat := 16.

Inductive VerifyError :=
| MissingToken
| TooLong
| Malformed
| AlgorithmNotAllowed
| VMissingKeyId
| UnknownKeyId
| VKeyAlgorithmMismatch
| InvalidSignature
| CriticalHeader
| InvalidType
| IssuerMismatch
| AudienceMismatch
| Expired
| NotYetValid
| MissingClaim
| InvalidExtraClaims
| Dpop (e : DpopError).

Inductive Confirmation := Absent | Jkt (jkt : bytes) | Unusable.

Record Claims := {
  iss : bytes;
  sub : option bytes;
  aud : list bytes;
  exp : N;
  nbf : option N;
  iat : option N;
  jti : option bytes;
  client_id : option bytes;
  scope : option bytes;
  cnf : Confirmation;
  extra : Extra;
}.

(** [u8::is_ascii_whitespace]. *)
Definition is_json_space (b : byte) : bool := existsb (beqb b) [x20; x09; x0a; x0c; x0d].
Definition require_json_object (b : bytes) : result unit VerifyError :=
  match trim_start_matches is_json_space b with
  | c :: _ => if beqb c x7b then Ok tt else Err Malformed
  | [] => Err Malformed
  end.

Definition lenient_cnf (v : option RawCnf) : Confirmation :=
  match v with None => Absent | Some (CnfJkt jkt) => Jkt jkt | Some CnfOther => Unusable end.

(** [AudClaim::deserialize]. *)
Definition aud_claim (v : RawAud) : option (list bytes) :=
  match v with
  | AudString s => Some [s]
  | AudArray l => if length l <=? MAX_TOKEN_AUDIENCES then Some l else None
  end.

(** [serde_json::from_slice::<RawClaims>], with the claims for [aud]. *)
Definition parse_claims (payload : bytes) : option (RawClaims * option (list bytes)) :=
  let! raw := json_claims payload else None in
  match r_aud raw with
  | None => Some (raw, None)
  | Some v => (λ a, (raw, Some a)) <$> aud_claim v
  end.

Definition b64 (s : bytes) : result bytes VerifyError := ok_or (b64_decode s) Malformed.

Definition signature_ok (alg : Algorithm) (material : KeyMaterial) (msg sig : bytes) : bool :=
  match alg, material with
  | Rs256, Rsa n e => rsa_verify n e msg sig
  | Es256, EcP256 point => ecdsa_verify point msg sig
  | _, _ => false
  end.

(** The time checks, which the cache repeats. *)
Definition check_times (now leeway exp : N) (nbf : option N) : result unit VerifyError :=
  if (exp <=? now - leeway)%N then Err Expired
  else
    match nbf with
    | Some nbf => if (saturating_add now leeway <? nbf)%N then Err NotYetValid else Ok tt
    | None => Ok tt
    end.

(** The claims of a token whose signature is verified. *)
Definition verify_claims (header : RawHeader) (p : bytes) (policy : JwtPolicy) (now_unix : N) :
    result Claims VerifyError :=
  if negb (match h_typ header with Some t => matches_header (token_type policy) t | None => false end)
  then Err InvalidType
  else
    let? payload := b64 p in
    let? _ := require_json_object payload in
    let? (raw, raw_aud) := ok_or (parse_claims payload) Malformed in
    let? iss := ok_or (r_iss raw) MissingClaim in
    if negb (str_eqb iss (issuer policy)) then Err IssuerMismatch
    else
      let? aud := ok_or raw_aud MissingClaim in
      if negb (existsb (λ a, existsb (str_eqb a) (audiences policy)) aud) then Err AudienceMismatch
      else
        let? exp := ok_or (r_exp raw) MissingClaim in
        let? _ := check_times now_unix (as_secs (clock_skew policy)) exp (r_nbf raw) in
        let? extra := ok_or (json_extra payload) InvalidExtraClaims in
        Ok {| iss := iss; sub := r_sub raw; aud := aud; exp := exp; nbf := r_nbf raw; iat := r_iat raw;
              jti := r_jti raw; client_id := r_client_id raw; scope := r_scope raw;
              cnf := lenient_cnf (r_cnf raw); extra := extra |}.

(** An error, and the key identifier that [on_unknown_kid] was called with. *)
Definition plain (e : VerifyError) : VerifyError * option bytes := (e, None).

Definition verify_inner (token : bytes) (keys : KeySet) (policy : JwtPolicy) (now_unix : N) :
    result Claims (VerifyError * option bytes) :=
  if bool_decide (token = []) then Err (plain MissingToken)
  else if (MAX_TOKEN_LEN <? len token)%N then Err (plain TooLong)
  else
    match split x2e token with
    | [h; p; s] =>
        if bool_decide (h = []) || bool_decide (p = []) || bool_decide (s = []) then Err (plain Malformed)
        else
          let? header_bytes := map_err plain (b64 h) in
          let? _ := map_err plain (require_json_object header_bytes) in
          let? header := ok_or (json_header header_bytes) (plain Malformed) in
          if h_crit header then Err (plain CriticalHeader)
          else
            let? alg_ := ok_or (opt_filter (λ a, bool_decide (a ∈ algorithms policy)) (from_jose_name (h_alg header)))
                           (plain AlgorithmNotAllowed) in
            let? kid :=
              match h_kid header with
              | None => Err (plain VMissingKeyId)
              | Some k =>
                  if bool_decide (k = []) then Err (plain VMissingKeyId)
                  else if (MAX_KID_LEN <? len k)%N then Err (plain Malformed)
                  else Ok k
              end in
            let with_kid := keys_for kid keys in
            let candidates := List.filter (λ k, bool_decide (alg k = alg_)) with_kid in
            if bool_decide (candidates = []) then
              if bool_decide (with_kid = []) then Err (UnknownKeyId, Some kid) else Err (plain VKeyAlgorithmMismatch)
            else
              let? sig := map_err plain (b64 s) in
              let msg := take (length h + 1 + length p) token in
              if negb (existsb (λ k, signature_ok alg_ (material k) msg sig) candidates)
              then Err (plain InvalidSignature)
              else map_err plain (verify_claims header p policy now_unix)
    | _ => Err (plain Malformed)
    end.

Definition verify (token : bytes) (keys : KeySet) (policy : JwtPolicy) (now_unix : N) : result Claims VerifyError :=
  map_err fst (verify_inner token keys policy now_unix).

End jwt.
