(* ===== verification/JwtSpec.v ===== *)
(** * Which tokens and keys are accepted

    [verify] accepts exactly the tokens that satisfy the policy and carry a signature of a key of
    the set; nothing about the claims of a token is looked at, or told, before its signature
    is verified.  The form of public keys is defined here as well; JwksSpec.v says which documents
    are key sets. *)

From S2P Require Import Prelude Text Utf8 Radix Extensions Request Response Gate ServerConfig Jwt.

Section spec.
Context {JC : JwtCrates}.

(** ** Tokens *)

Lemma split_three sep (t a b c : bytes) :
  split sep t = [a; b; c] ↔
  t = a ++ sep :: b ++ sep :: c ∧ contains sep a = false ∧ contains sep b = false ∧ contains sep c = false.
Proof.
  split.
  - intros E. pose proof (join_split sep t) as Hj. pose proof (split_no_sep sep t) as Hn. rewrite E in Hj, Hn.
    apply Forall_cons in Hn as [Ha Hn]. apply Forall_cons in Hn as [Hb Hn]. apply Forall_cons in Hn as [Hc _].
    split_and!; [by rewrite <- Hj|done..].
  - intros (-> & Ha & Hb & Hc). by rewrite !split_app_sep, split_no_occ.
Qed.

(** A token in compact form whose header is acceptable and whose signature one of the keys verifies. *)
Record signed (token : bytes) (ks : KeySet) (policy : JwtPolicy) (header : RawHeader) (h p s : bytes) : Prop := {
  sg_len : (len token <= MAX_TOKEN_LEN)%N;
  sg_parts : token = h ++ x2e :: p ++ x2e :: s;
  sg_dots : contains x2e h = false ∧ contains x2e p = false ∧ contains x2e s = false;
  sg_nonempty : h ≠ [] ∧ p ≠ [] ∧ s ≠ [];
  sg_header : ∃ b, b64_decode h = Some b ∧ require_json_object b = Ok tt ∧ json_header b = Some header;
  sg_crit : h_crit header = false;
  sg_key : ∃ a k key sig,
    from_jose_name (h_alg header) = Some a ∧ a ∈ algorithms policy
    ∧ h_kid header = Some k ∧ k ≠ [] ∧ (len k <= MAX_KID_LEN)%N
    ∧ key ∈ keys ks ∧ kid key = k ∧ alg key = a
    ∧ b64_decode s = Some sig ∧ signature_ok a (material key) (h ++ x2e :: p) sig = true;
}.

(** What a verified token must claim. *)
Record claims_ok (header : RawHeader) (p : bytes) (policy : JwtPolicy) (now : N) (c : Claims) : Prop := {
  cl_typ : ∃ t, h_typ header = Some t ∧ matches_header (token_type policy) t = true;
  cl_payload : ∃ payload raw v,
    b64_decode p = Some payload ∧ require_json_object payload = Ok tt
    ∧ json_claims payload = Some raw ∧ r_aud raw = Some v ∧ aud_claim v = Some (aud c)
    ∧ r_iss raw = Some (iss c) ∧ r_exp raw = Some (exp c) ∧ nbf c = r_nbf raw
    ∧ sub c = r_sub raw ∧ iat c = r_iat raw ∧ jti c = r_jti raw ∧ client_id c = r_client_id raw
    ∧ scope c = r_scope raw ∧ cnf c = lenient_cnf (r_cnf raw) ∧ json_extra payload = Some (extra c);
  cl_iss : iss c = issuer policy;
  cl_aud : ∃ a, a ∈ aud c ∧ a ∈ audiences policy;
  cl_exp : (now - as_secs (clock_skew policy) < exp c)%N;
  cl_nbf : ∀ n, nbf c = Some n → (n <= saturating_add now (as_secs (clock_skew policy)))%N;
}.

Lemma existsb_str (l : list bytes) a : existsb (str_eqb a) l = true ↔ a ∈ l.
Proof.
  rewrite existsb_exists. split.
  - intros (x & Hin & ->%str_eqb_eq). by apply list_elem_of_In.
  - intros H. exists a. split; [by apply list_elem_of_In|apply str_eqb_refl].
Qed.

Lemma audience_ok (l m : list bytes) :
  existsb (λ a, existsb (str_eqb a) m) l = true ↔ ∃ a, a ∈ l ∧ a ∈ m.
Proof.
  rewrite existsb_exists. split.
  - intros (a & Hin & H%existsb_str). exists a. by rewrite list_elem_of_In.
  - intros (a & Hin & H%existsb_str). exists a. by rewrite <- list_elem_of_In.
Qed.

Lemma check_times_Ok now leeway e n :
  check_times now leeway e n = Ok tt ↔ (now - leeway < e)%N ∧ ∀ x, n = Some x → (x <= saturating_add now leeway)%N.
Proof.
  unfold check_times. destruct (N.leb_spec e (now - leeway)); [split; [done|lia]|].
  destruct n as [x|]; [|naive_solver]. destruct (N.ltb_spec (saturating_add now leeway) x).
  - split; [done|]. intros [_ Hx]. specialize (Hx x eq_refl). lia.
  - split; [|done]. intros _. split; [done|]. by intros ? [= <-].
Qed.

(** Of an acceptable payload only the times are looked at anew. *)
Lemma verify_claims_eval header p policy now now' c :
  claims_ok header p policy now' c →
  verify_claims header p policy now =
    rbind (check_times now (as_secs (clock_skew policy)) (exp c) (nbf c)) (λ _, Ok c).
Proof.
  intros [(t & Et & Em) (payload & raw & v & Hp & Ho & Hr & Ha & Hv & Hi & He & Hn & H1 & H2 & H3 & H4 & H5 & H6 & Hx)
    Hiss Haud _ _]. unfold verify_claims. rewrite Et, Em. cbn [negb]. unfold b64. rewrite Hp. cbn. rewrite Ho. cbn.
  unfold parse_claims. rewrite Hr, Ha, Hv. cbn. rewrite Hi. cbn. rewrite Hiss, str_eqb_refl. cbn.
  rewrite (proj2 (audience_ok _ _) Haud). cbn. rewrite He. cbn. rewrite <- Hn.
  destruct (check_times _ _ _ _) as [[]|]; cbn; [|done]. rewrite Hx. cbn. destruct c. cbn in *. by subst.
Qed.

Lemma verify_claims_Ok header p policy now c :
  verify_claims header p policy now = Ok c ↔ claims_ok header p policy now c.
Proof.
  split.
  - unfold verify_claims. intros H. case_first_in H; [done|]. apply negb_false_iff in Heqb.
    destruct (h_typ header) as [t|] eqn:Et; [|done].
    apply rbind_Ok in H as (payload & Hp%ok_or_Ok & H). apply rbind_Ok in H as ([] & Ho & H).
    apply rbind_Ok in H as ([raw raw_aud] & Hr%ok_or_Ok & H). apply rbind_Ok in H as (i & Hi%ok_or_Ok & H).
    case_first_in H; [done|]. apply negb_false_iff, str_eqb_eq in Heqb0 as ->.
    apply rbind_Ok in H as (a & Ha%ok_or_Ok & H). case_first_in H; [done|].
    apply negb_false_iff, audience_ok in Heqb0. apply rbind_Ok in H as (e & He%ok_or_Ok & H).
    apply rbind_Ok in H as ([] & [Hexp Hnbf]%check_times_Ok & H).
    apply rbind_Ok in H as (x & Hx%ok_or_Ok & H). injection H as <-.
    unfold parse_claims in Hr. destruct (json_claims payload) as [raw'|] eqn:Ej; [|done].
    destruct (r_aud raw') as [v|] eqn:Ea; [|by simplify_eq]. destruct (aud_claim v) as [a'|] eqn:Ev; [|done].
    cbn in Hr. simplify_eq. split; cbn; [by exists t| |done|done|done|done].
    exists payload, raw, v. by split_and!.
  - intros H. rewrite (verify_claims_eval _ _ _ now now c H). destruct H as [_ _ _ _ Hexp Hnbf].
    by rewrite (proj2 (check_times_Ok _ _ _ _) (conj Hexp Hnbf)).
Qed.

(** The errors that a token can have before its signature is verified. *)
Definition before_signature (e : VerifyError) : bool :=
  match e with
  | MissingToken | TooLong | Malformed | AlgorithmNotAllowed | VMissingKeyId | UnknownKeyId
  | VKeyAlgorithmMismatch | InvalidSignature | CriticalHeader => true
  | _ => false
  end.

Lemma candidate_elem ks k a x :
  x ∈ List.filter (λ x, bool_decide (alg x = a)) (keys_for k ks) ↔ x ∈ keys ks ∧ kid x = k ∧ alg x = a.
Proof.
  unfold keys_for. rewrite !list_elem_of_In, !filter_In, str_eqb_eq, bool_decide_eq_true. tauto.
Qed.

Lemma take_msg (h p s : bytes) : take (length h + 1 + length p) (h ++ x2e :: p ++ x2e :: s) = h ++ x2e :: p.
Proof.
  replace (h ++ x2e :: p ++ x2e :: s) with ((h ++ x2e :: p) ++ x2e :: s) by (rewrite <- app_assoc; done).
  apply take_app_length'. rewrite length_app. cbn. lia.
Qed.

Lemma verify_inner_signed token ks policy header h p s now :
  signed token ks policy header h p s →
  verify_inner token ks policy now = map_err plain (verify_claims header p policy now).
Proof.
  intros [Hlen Ht (Hh & Hp & Hs) (Nh & Np & Ns) (b & Hb & Ho & Hj) Hc
    (a & k & key & sig & Ha & Hin & Hk & Nk & Lk & Hkey & Hkid & Halg & Hsig & Hok)].
  unfold verify_inner. rewrite bool_decide_false by (rewrite Ht; by destruct h).
  rewrite (proj2 (N.ltb_ge _ _) Hlen), (proj2 (split_three x2e token h p s)) by done.
  rewrite !bool_decide_false by done. cbn [orb]. unfold b64 at 1. rewrite Hb. cbn. rewrite Ho. cbn. rewrite Hj. cbn.
  rewrite Hc, Ha. cbn. rewrite bool_decide_true by done. cbn. rewrite Hk, bool_decide_false by done.
  rewrite (proj2 (N.ltb_ge _ _) Lk). cbn.
  pose proof (proj2 (candidate_elem ks k a key) (conj Hkey (conj Hkid Halg))) as Hcand.
  rewrite bool_decide_false by (intros E; rewrite E in Hcand; inversion Hcand).
  unfold b64 at 1. rewrite Hsig. cbn.
  replace (existsb _ _) with true; [done|]. symmetry. apply existsb_exists. exists key.
  split; [by apply list_elem_of_In|]. by rewrite Ht, take_msg.
Qed.

Lemma require_json_object_Err b e : require_json_object b = Err e → e = Malformed.
Proof.
  unfold require_json_object. destruct (trim_start_matches _ b) as [|c l]; [congruence|].
  destruct (beqb c x7b); congruence.
Qed.

Lemma early (P : Prop) (x : VerifyError * option bytes) :
  before_signature x.1 = true →
  P ∨ ∃ e o, before_signature e = true ∧ ∀ now : N, (Err x : result Claims _) = Err (e, o).
Proof. intros H. right. by exists x.1, x.2; destruct x. Qed.

(** Either a key signed the token or the verification ends before it looks at the claims. *)
Lemma verify_inner_cases token ks policy :
  (∃ header h p s, signed token ks policy header h p s)
  ∨ ∃ e o, before_signature e = true ∧ ∀ now, verify_inner token ks policy now = Err (e, o).
Proof.
  unfold verify_inner. destruct (bool_decide_reflect (token = [])); [by apply early|].
  destruct (N.ltb_spec MAX_TOKEN_LEN (len token)); [by apply early|].
  destruct (split x2e token) as [|h [|p [|s [|]]]] eqn:Esp; [by apply early..| |by apply early].
  apply split_three in Esp as (Et & Hd).
  destruct (bool_decide_reflect (h = [])); [by apply early|].
  destruct (bool_decide_reflect (p = [])); [by apply early|].
  destruct (bool_decide_reflect (s = [])); [by apply early|]. cbn [orb].
  unfold b64 at 1. destruct (b64_decode h) as [b|] eqn:Eb; [|by apply early]. cbn.
  destruct (require_json_object b) as [[]|e'] eqn:Eo; cbn.
  2:{ rewrite (require_json_object_Err _ _ Eo). by apply early. }
  destruct (json_header b) as [header|] eqn:Ej; [|by apply early]. cbn.
  destruct (h_crit header) eqn:Ec; [by apply early|].
  destruct (from_jose_name (h_alg header)) as [a|] eqn:Ea; [|by apply early]. cbn.
  destruct (bool_decide_reflect (a ∈ algorithms policy)); [|by apply early]. cbn.
  destruct (h_kid header) as [k|] eqn:Ek; [|by apply early].
  destruct (bool_decide_reflect (k = [])); [by apply early|].
  destruct (N.ltb_spec MAX_KID_LEN (len k)); [by apply early|]. cbn.
  destruct (bool_decide (List.filter (λ x, bool_decide (alg x = a)) (keys_for k ks) = [])).
  { destruct (bool_decide_reflect (keys_for k ks = [])); by apply early. }
  unfold b64 at 1. destruct (b64_decode s) as [sig|] eqn:Es; [|by apply early]. cbn.
  destruct (existsb _ _) eqn:Ex; [|by apply early].
  left. exists header, h, p, s. apply existsb_exists in Ex as (key & Hin & Hok).
  apply list_elem_of_In, candidate_elem in Hin as (? & ? & ?). rewrite Et, take_msg in Hok.
  split; [done|done|done|done|by exists b|done|]. by exists a, k, key, sig.
Qed.

(** C27: [verify] accepts exactly the tokens of at most 8192 bytes in compact form whose header
    names, without [crit], an algorithm that the policy allows and the identifier of a key of the
    set for that algorithm which verifies the signature over the first two parts, and whose
    claims satisfy the policy: type, issuer, audience, expiry and not-before up to the clock
    skew. What it returns are the claims of that payload. *)
Theorem verify_accepts token ks policy now c :
  verify token ks policy now = Ok c
  ↔ ∃ header h p s, signed token ks policy header h p s ∧ claims_ok header p policy now c.
Proof.
  unfold verify. split.
  - intros H. destruct (verify_inner_cases token ks policy) as [(header & h & p & s & Hs)|(e & o & _ & Hi)].
    + rewrite (verify_inner_signed _ _ _ _ _ _ _ _ Hs) in H. exists header, h, p, s. split; [done|].
      apply verify_claims_Ok. by destruct (verify_claims _ _ _ _).
    + by rewrite Hi in H.
  - intros (header & h & p & s & Hs & Hc%verify_claims_Ok). by rewrite (verify_inner_signed _ _ _ _ _ _ _ _ Hs), Hc.
Qed.

Lemma check_times_Err now leeway e n r :
  check_times now leeway e n = Err r → r = Expired ∨ r = NotYetValid.
Proof. unfold check_times. repeat case_match; naive_solver. Qed.

(** A token that was accepted once is only refused for its times, with the same key set. *)
Lemma verify_again token ks policy now now' c :
  verify token ks policy now' = Ok c →
  verify token ks policy now = rbind (check_times now (as_secs (clock_skew policy)) (exp c) (nbf c)) (λ _, Ok c).
Proof.
  unfold verify. intros H. destruct (verify_inner_cases token ks policy) as [(header & h & p & s & Hs)|(e & o & _ & Hi)];
    [|by rewrite Hi in H].
  rewrite (verify_inner_signed _ _ _ _ _ _ _ now' Hs) in H. rewrite (verify_inner_signed _ _ _ _ _ _ _ now Hs).
  destruct (verify_claims header p policy now') as [c'|] eqn:E; [|done]. injection H as ->.
  apply verify_claims_Ok in E. rewrite (verify_claims_eval _ _ _ now now' c E). by destruct (check_times _ _ _ _).
Qed.

Lemma verify_claims_after header p policy now e :
  verify_claims header p policy now = Err e → e = Malformed ∨ before_signature e = false.
Proof.
  unfold verify_claims, b64. intros H. case_first_in H; [by simplify_eq; right|].
  apply rbind_Err in H as [[_ ->]%ok_or_Err|(payload & _ & H)]; [by left|].
  apply rbind_Err in H as [->%require_json_object_Err|([] & _ & H)]; [by left|].
  apply rbind_Err in H as [[_ ->]%ok_or_Err|([raw ra] & _ & H)]; [by left|]. right.
  apply rbind_Err in H as [[_ ->]%ok_or_Err|(i & _ & H)]; [done|]. case_first_in H; [by simplify_eq|].
  apply rbind_Err in H as [[_ ->]%ok_or_Err|(a & _ & H)]; [done|]. case_first_in H; [by simplify_eq|].
  apply rbind_Err in H as [[_ ->]%ok_or_Err|(x & _ & H)]; [done|].
  apply rbind_Err in H as [[-> | ->]%check_times_Err|([] & _ & H)]; [done..|].
  by apply rbind_Err in H as [[_ ->]%ok_or_Err|(y & _ & H)].
Qed.

(** C28: What is wrong with the claims of a token (its type, issuer, audience, times, a missing or
    an undecodable claim) is told only when a key of the set has verified its signature: every
    other refused token gets one of the errors about its form, header, key or signature, and the
    same one at every time. Only an unknown key identifier is reported to the caller. *)
Theorem verify_refuses token ks policy now e o :
  verify_inner token ks policy now = Err (e, o) →
  ((∃ header h p s, signed token ks policy header h p s) ∧ o = None ∧ (e = Malformed ∨ before_signature e = false)
   ∨ before_signature e = true ∧ ∀ now', verify_inner token ks policy now' = Err (e, o))
  ∧ (o ≠ None → e = UnknownKeyId).
Proof.
  intros H. assert (o ≠ None → e = UnknownKeyId) as Ho.
  { unfold verify_inner, plain in H. intros No. repeat (case_match; simplify_eq; try done).
    all: unfold rbind, map_err, ok_or in *; repeat (case_match; simplify_eq; try done). }
  split; [|done].
  destruct (verify_inner_cases token ks policy) as [(header & h & p & s & Hs)|(e' & o' & He & Hi)].
  - left. rewrite (verify_inner_signed _ _ _ _ _ _ _ _ Hs) in H.
    destruct (verify_claims header p policy now) as [|e'] eqn:Ev; [done|]. injection H as <- <-.
    split_and!; [by exists header, h, p, s|done|by eapply verify_claims_after].
  - right. rewrite Hi in H. injection H as <- <-. done.
Qed.

(** ** Key sets *)

(** The big-endian magnitude of a positive number, without leading zeros. *)
Definition magnitude (max : N) (n : bytes) : Prop :=
  (len n <= max)%N ∧ ∃ b n', n = b :: n' ∧ b ≠ x00.

Definition fit_material (a : Algorithm) (m : KeyMaterial) : Prop :=
  match a, m with
  | Rs256, Rsa n e => magnitude MAX_RSA_N_LEN n ∧ magnitude MAX_RSA_E_LEN e
  | Es256, EcP256 point => ∃ x y, point = x04 :: x ++ y ∧ len x = EC_P256_COORD_LEN ∧ len y = EC_P256_COORD_LEN
  | _, _ => False
  end.

End spec.

(** ** Instances *)

Definition demo_raw_jwk : RawJwk :=
  {| j_kty := Some (lit "EC"); j_kid := Some (lit "k1"); j_alg := Some (lit "ES256"); j_use := Some (lit "sig");
     j_crv := Some (lit "P-256"); j_n := None; j_e := None; j_x := Some (replicate 32 x01);
     j_y := Some (replicate 32 x02); j_d := false; j_p := false; j_q := false; j_dp := false; j_dq := false;
     j_qi := false; j_oth := false; j_k := false |}.
Definition demo_raw_claims : RawClaims :=
  {| r_iss := Some (lit "https://issuer"); r_sub := Some (lit "alice"); r_aud := Some (AudString (lit "api"));
     r_exp := Some 1000%N; r_nbf := None; r_iat := None; r_jti := None; r_client_id := None; r_scope := None;
     r_cnf := None |}.

Definition demo_jwk_fields : JwkFields :=
  {| f_kty := Some (lit "EC"); f_alg := None; f_use := None; f_crv := Some (lit "P-256"); f_n := None; f_e := None;
     f_x := Some (replicate 32 x01); f_y := Some (replicate 32 x02); f_d := false; f_p := false; f_q := false;
     f_dp := false; f_dq := false; f_qi := false; f_oth := false; f_k := false |}.

(** Crates that decode a text to itself, know one document of each kind and sign with [sig]. *)
Definition demo_crates : JwtCrates := {|
  b64_decode := Some;
  b64_encode := id;
  json_jwks s := if str_eqb s (lit "{jwks}") then Some [demo_raw_jwk] else None;
  json_header s :=
    if str_eqb s (lit "{es}")
    then Some {| h_alg := lit "ES256"; h_kid := Some (lit "k1"); h_typ := Some (lit "at+jwt"); h_crit := false |}
    else None;
  json_claims s := if str_eqb s (lit "{ok}") then Some demo_raw_claims else None;
  Extra := unit;
  json_extra _ := Some tt;
  json_proof_header s :=
    if str_eqb s (lit "{dp}")
    then Some {| ph_alg := Some (lit "ES256"); ph_typ := Some (lit "dpop+jwt"); ph_crit := false; ph_jwk := Some demo_jwk_fields |}
    else None;
  json_proof_claims s :=
    if str_eqb s (lit "{pc}")
    then Some {| pc_jti := Some (lit "j1"); pc_htm := Some (lit "GET"); pc_htu := Some (lit "https://api/x");
                 pc_iat := Some 40%N; pc_ath := Some (lit "tok") |}
    else None;
  json_proof_jwk _ := None;
  rsa_verify _ _ _ _ := false;
  ecdsa_verify _ _ sig := str_eqb sig (lit "sig");
  sha256 := id;
|}.

Definition demo_policy : JwtPolicy := JwtPolicy_new (lit "https://issuer") [lit "api"] [Es256] AccessToken.
Definition demo_keys : KeySet :=
  {| keys := [{| kid := lit "k1"; alg := Es256; material := EcP256 (x04 :: replicate 32 x01 ++ replicate 32 x02) |}];
     skipped := 0 |}.
Definition demo_claims : Claims (JC := demo_crates) :=
  @Build_Claims demo_crates (lit "https://issuer") (Some (lit "alice")) [lit "api"] 1000%N None None None None None Absent
    (tt : @Extra demo_crates).

Example demo_verify :
  verify (JC := demo_crates) (lit "{es}.{ok}.sig") demo_keys demo_policy 999 = Ok demo_claims
  ∧ verify (JC := demo_crates) (lit "{es}.{ok}.sig") demo_keys demo_policy 1000 = Err Expired
  ∧ verify (JC := demo_crates) (lit "{es}.{ok}.bad") demo_keys demo_policy 1000 = Err InvalidSignature.
Proof. repeat split; vm_compute; reflexivity. Qed.

Lemma verify_refuses_witness :
  verify_inner (JC := demo_crates) (lit "{es}.{ok}.bad") demo_keys demo_policy 0 = Err (InvalidSignature, None)
  ∧ ((∃ header h p s, signed (JC := demo_crates) (lit "{es}.{ok}.bad") demo_keys demo_policy header h p s)
       ∧ None = @None bytes ∧ (InvalidSignature = Malformed ∨ before_signature InvalidSignature = false)
     ∨ before_signature InvalidSignature = true
       ∧ ∀ now', verify_inner (JC := demo_crates) (lit "{es}.{ok}.bad") demo_keys demo_policy now'
           = Err (InvalidSignature, None))
  ∧ (None ≠ @None bytes → InvalidSignature = UnknownKeyId).
Proof.
  assert (verify_inner (JC := demo_crates) (lit "{es}.{ok}.bad") demo_keys demo_policy 0 = Err (InvalidSignature, None))
    as H by (vm_compute; reflexivity).
  exact (conj H (verify_refuses (JC := demo_crates) _ _ _ _ _ _ H)).
Defined.
