(* ===== verification/JwksSpec.v ===== *)
(** * Which documents are key sets

    A declarative reading of the entries of a JWKS document: what a public entry is, which algorithm
    may name which type and curve, for which algorithm of the policy an entry is a key, and which
    material its members determine.  [classify] decides it, and [from_json] accepts exactly the
    documents that read so within the limits. *)

From S2P Require Import Prelude Text Utf8 Radix Extensions Request Response Gate ServerConfig Jwt JwtSpec.

Section spec.
Context {JC : JwtCrates}.

(** ** Entries *)

(** No member of a private or symmetric key, no symmetric type, no algorithm that signs without one
    or with a shared secret. *)
Record public_entry (raw : RawJwk) : Prop := {
  pe_members : j_d raw = false ∧ j_p raw = false ∧ j_q raw = false ∧ j_dp raw = false ∧ j_dq raw = false
    ∧ j_qi raw = false ∧ j_oth raw = false ∧ j_k raw = false;
  pe_kty : j_kty raw ≠ Some (lit "oct");
  pe_alg : ∀ a, j_alg raw = Some a →
    eq_ignore_ascii_case a (lit "none") = false ∧ a ∉ [lit "HS256"; lit "HS384"; lit "HS512"];
}.

(** The families of algorithms with the types of keys they are for, and the curves of ECDSA. *)
Record alg_fits (a kty : bytes) (crv : option bytes) : Prop := {
  af_rsa : ∀ r, a = lit "RS" ++ r ∨ a = lit "PS" ++ r → kty = lit "RSA";
  af_ecdh : ∀ r, a = lit "ECDH-ES" ++ r → kty = lit "EC" ∨ kty = lit "OKP";
  af_ecdsa : ∀ r, a = lit "ES" ++ r → kty = lit "EC";
  af_p256 : a = lit "ES256" → crv = Some (lit "P-256");
  af_p384 : a = lit "ES384" → crv = Some (lit "P-384");
  af_p521 : a = lit "ES512" → crv = Some (lit "P-521");
}.

Definition kty_of (a : Algorithm) : bytes := match a with Rs256 => lit "RSA" | Es256 => lit "EC" end.
(** What else a key of the type of an algorithm can be for, without making the document faulty. *)
Definition other_algs (a : Algorithm) : list bytes :=
  match a with
  | Rs256 => [lit "RS384"; lit "RS512"; lit "PS256"; lit "PS384"; lit "PS512"; lit "RSA1_5"; lit "RSA-OAEP"; lit "RSA-OAEP-256"]
  | Es256 => [lit "ECDH-ES"; lit "ECDH-ES+A128KW"; lit "ECDH-ES+A192KW"; lit "ECDH-ES+A256KW"]
  end.

(** An entry that has to be a key for [a]. *)
Record supported (raw : RawJwk) (a : Algorithm) : Prop := {
  su_kty : j_kty raw = Some (kty_of a);
  su_crv : a = Es256 → j_crv raw = Some (lit "P-256");
  su_use : j_use raw = None ∨ j_use raw = Some (lit "sig");
  su_alg : ∀ b, j_alg raw = Some b → b ∉ other_algs a;
}.

(** The numbers of an RSA key, without the zeros in front of them, and the coordinates of a point. *)
Definition rsa_integer (s : option bytes) (max : N) (n : bytes) : Prop :=
  ∃ t z, s = Some t ∧ (len t <= encoded_cap max + 8)%N ∧ b64_decode t = Some (replicate z x00 ++ n) ∧ magnitude max n.
Definition coordinate (s : option bytes) (c : bytes) : Prop :=
  ∃ t, s = Some t ∧ (len t <= encoded_cap EC_P256_COORD_LEN)%N ∧ b64_decode t = Some c ∧ len c = EC_P256_COORD_LEN.

Definition material_of (raw : RawJwk) (a : Algorithm) (m : KeyMaterial) : Prop :=
  match a, m with
  | Rs256, Rsa n e => rsa_integer (j_n raw) MAX_RSA_N_LEN n ∧ rsa_integer (j_e raw) MAX_RSA_E_LEN e
  | Es256, EcP256 point => ∃ x y, point = x04 :: x ++ y ∧ coordinate (j_x raw) x ∧ coordinate (j_y raw) y
  | _, _ => False
  end.

Record key_of (raw : RawJwk) (a : Algorithm) (k : Jwk) : Prop := {
  ko_kid : j_kid raw = Some (kid k) ∧ kid k ≠ [] ∧ (len (kid k) <= MAX_KID_LEN)%N;
  ko_alg : j_alg raw = Some (as_jose_name a) ∧ alg k = a;
  ko_material : material_of raw a (material k);
}.

(** What an entry of an accepted document is: a key, or nothing that is of use here. *)
Inductive entry (raw : RawJwk) : option Jwk → Prop :=
| entry_key kty a k :
    public_entry raw → j_kty raw = Some kty → (∀ b, j_alg raw = Some b → alg_fits b kty (j_crv raw)) →
    supported raw a → key_of raw a k → entry raw (Some k)
| entry_skipped kty :
    public_entry raw → j_kty raw = Some kty → (∀ b, j_alg raw = Some b → alg_fits b kty (j_crv raw)) →
    (kty = lit "EC" → (j_use raw = None ∨ j_use raw = Some (lit "sig")) → is_Some (j_crv raw)) →
    (∀ a, ¬ supported raw a) → entry raw None.

(** ** The parts of [classify] *)

Lemma forbidden_alg_spec a :
  forbidden_alg a = false ↔ eq_ignore_ascii_case a (lit "none") = false ∧ a ∉ [lit "HS256"; lit "HS384"; lit "HS512"].
Proof.
  unfold forbidden_alg. rewrite !orb_false_iff, !not_elem_of_cons. setoid_rewrite elem_of_nil.
  unfold str_eqb. rewrite !bool_decide_eq_false. tauto.
Qed.

Lemma on_alg_false raw p : on_alg raw p = false ↔ ∀ a, j_alg raw = Some a → p a = false.
Proof. unfold on_alg. destruct (j_alg raw); naive_solver. Qed.

Lemma public_entry_spec raw :
  public_entry raw ↔ j_kty raw ≠ Some (lit "oct") ∧ on_alg raw forbidden_alg = false ∧ has_private raw = false.
Proof.
  rewrite on_alg_false. unfold has_private. rewrite !orb_false_iff. setoid_rewrite forbidden_alg_spec.
  split; [intros [? ? ?]; tauto|]. intros (? & ? & ?). split; tauto.
Qed.

Lemma existsb_str_false (l : list bytes) a : existsb (str_eqb a) l = false ↔ a ∉ l.
Proof. rewrite <- not_true_iff_false, existsb_str. done. Qed.

(** Whether the type of a key is among those that its algorithm needs. *)
Lemma required_kty_spec a kty :
  match required_kty a with Some req => negb (existsb (str_eqb kty) req) | None => false end = false ↔
  (∀ r, a = lit "RS" ++ r ∨ a = lit "PS" ++ r → kty = lit "RSA")
  ∧ (∀ r, a = lit "ECDH-ES" ++ r → kty = lit "EC" ∨ kty = lit "OKP")
  ∧ (∀ r, a = lit "ES" ++ r → kty = lit "EC").
Proof.
  assert (∀ p, starts_with p a = false → ∀ r, a ≠ p ++ r) as Hno.
  { intros p E r ->. assert (starts_with p (p ++ r) = true) by (apply starts_with_spec; by exists r). congruence. }
  unfold required_kty. destruct (starts_with (lit "RS") a || starts_with (lit "PS") a || starts_with (lit "RSA") a) eqn:E1.
  - assert (∃ r, a = lit "RS" ++ r ∨ a = lit "PS" ++ r) as (r & Hr).
    { apply orb_prop in E1 as [[[r ->]%starts_with_spec|[r ->]%starts_with_spec]%orb_prop|[r ->]%starts_with_spec]; eauto. }
    rewrite negb_false_iff, existsb_str, list_elem_of_singleton. clear E1 Hno. split.
    + intros ->. split_and!; [done| |]; intros r' ->; by destruct Hr.
    + intros (H & _). by apply (H r).
  - apply orb_false_elim in E1 as [[N1 N2]%orb_false_elim _]. pose proof (Hno _ N1) as H1. pose proof (Hno _ N2) as H2.
    destruct (starts_with (lit "ECDH-ES") a) eqn:E2; [|destruct (starts_with (lit "ES") a) eqn:E3].
    + apply starts_with_spec in E2 as [r Hr]. rewrite negb_false_iff, existsb_str, !elem_of_cons. setoid_rewrite elem_of_nil.
      clear Hno. split.
      * intros H. split_and!; [naive_solver|naive_solver|]. intros r' ->. done.
      * intros (_ & H & _). destruct (H r Hr); auto.
    + apply starts_with_spec in E3 as [r Hr]. rewrite negb_false_iff, existsb_str, list_elem_of_singleton.
      pose proof (Hno _ E2). clear Hno. naive_solver.
    + pose proof (Hno _ E2). pose proof (Hno _ E3). clear Hno. naive_solver.
Qed.

Lemma check_alg_Ok a kty crv : check_alg a kty crv = Ok tt ↔ alg_fits a kty crv.
Proof.
  unfold check_alg. destruct (match required_kty a with Some _ => _ | None => _ end) eqn:E.
  { split; [done|]. intros [H1 H2 H3 _ _ _]. by rewrite (proj2 (required_kty_spec a kty) (conj H1 (conj H2 H3))) in E. }
  apply required_kty_spec in E as (H1 & H2 & H3).
  assert (∀ n, a = lit "ES" ++ n → str_eqb kty (lit "EC") = true) as Hec by (intros n Hn; by apply str_eqb_eq, (H3 n)).
  assert (∀ n c, a = lit "ES" ++ n →
    (str_eqb kty (lit "EC") && negb (bool_decide (crv = Some c))) = false ↔ crv = Some c) as Hcrv.
  { intros n c Hn. rewrite (Hec n Hn). cbn [andb]. by rewrite negb_false_iff, bool_decide_eq_true. }
  unfold required_crv. destruct (str_eqb a (lit "ES256")) eqn:E1; [|destruct (str_eqb a (lit "ES384")) eqn:E2;
    [|destruct (str_eqb a (lit "ES512")) eqn:E3]].
  - apply str_eqb_eq in E1 as ->. specialize (Hcrv (lit "256") (lit "P-256") eq_refl).
    destruct (_ && _); (split; [intros H|intros [_ _ _ H _ _]]).
    + done.
    + by specialize (proj2 Hcrv (H eq_refl)).
    + split; try done. intros _. by apply Hcrv.
    + done.
  - apply str_eqb_eq in E2 as ->. specialize (Hcrv (lit "384") (lit "P-384") eq_refl).
    destruct (_ && _); (split; [intros H|intros [_ _ _ _ H _]]).
    + done.
    + by specialize (proj2 Hcrv (H eq_refl)).
    + split; try done. intros _. by apply Hcrv.
    + done.
  - apply str_eqb_eq in E3 as ->. specialize (Hcrv (lit "512") (lit "P-521") eq_refl).
    destruct (_ && _); (split; [intros H|intros [_ _ _ _ _ H]]).
    + done.
    + by specialize (proj2 Hcrv (H eq_refl)).
    + split; try done. intros _. by apply Hcrv.
    + done.
  - split; [|done]. intros _.
    split; try done; intros ->; by rewrite str_eqb_refl in *.
Qed.

Lemma trim_zeros (l : bytes) : ∃ z, l = replicate z x00 ++ trim_start_matches (beqb x00) l.
Proof.
  induction l as [|c l [z IH]]; [by exists 0|]. cbn [trim_start_matches]. destruct (beqb x00 c) eqn:E; [|by exists 0].
  apply beqb_eq in E as <-. exists (S z). cbn. by f_equal.
Qed.

Lemma trim_start_head (l t : bytes) b : trim_start_matches (beqb x00) l = b :: t → b ≠ x00.
Proof.
  induction l as [|c l IH]; cbn; [done|]. destruct (beqb x00 c) eqn:E; [done|].
  intros [= -> _] ->. by rewrite beqb_refl in E.
Qed.

Lemma decode_rsa_Ok s max n : decode_rsa s max = Ok n ↔ rsa_integer s max n.
Proof.
  unfold decode_rsa, rsa_integer. split.
  - intros (t & ->%ok_or_Ok & H)%rbind_Ok. case_first_in H; [done|].
    apply rbind_Ok in H as (d & Hd%ok_or_Ok & H). cbv zeta in H. do 2 (case_first_in H; [done|]). bool_to_prop.
    injection H as <-. destruct (trim_zeros d) as [z Hz]. exists t, z. rewrite <- Hz. split_and!; [done..|]. split; [done|].
    destruct (trim_start_matches (beqb x00) d) as [|b n'] eqn:E; [done|]. exists b, n'. split; [done|]. by eapply trim_start_head.
  - intros (t & z & -> & Hl & Hd & Hm & b & n' & -> & Hb). cbn. rewrite (proj2 (N.ltb_ge _ _) Hl), Hd. cbn.
    rewrite trim_start_matches_app, trim_start_matches_head.
    + by rewrite (proj2 (N.ltb_ge _ _) Hm).
    + apply beqb_neq. congruence.
    + apply Forall_replicate, beqb_refl.
Qed.

Lemma decode_coord_Ok s c : decode_coord s = Ok c ↔ coordinate s c.
Proof.
  unfold decode_coord, coordinate. split.
  - intros (t & ->%ok_or_Ok & H)%rbind_Ok. case_first_in H; [done|].
    apply rbind_Ok in H as (d & Hd%ok_or_Ok & H). case_first_in H; [|done]. bool_to_prop. injection H as <-. by exists t.
  - intros (t & -> & Hl & Hd & Hc). cbn. rewrite (proj2 (N.ltb_ge _ _) Hl), Hd. cbn. by rewrite (proj2 (N.eqb_eq _ _) Hc).
Qed.

(** [classify] by its parts: the entry as a key for an algorithm, and by its type. *)
Definition classify_key (raw : RawJwk) (a : Algorithm) : result (option Jwk) JwksError :=
  if on_alg raw (λ b, negb (str_eqb b (as_jose_name a)) && existsb (str_eqb b) (other_algs a)) then Ok None
  else
    let? kid := ok_or (opt_filter (λ k, negb (bool_decide (k = []))) (j_kid raw)) MissingKeyId in
    if (MAX_KID_LEN <? len kid)%N then Err KeyIdTooLong
    else
      let? b := ok_or (j_alg raw) MissingAlgorithm in
      if negb (str_eqb b (as_jose_name a)) then Err KeyAlgorithmMismatch
      else match a with
           | Rs256 =>
               let? n := decode_rsa (j_n raw) MAX_RSA_N_LEN in
               let? e := decode_rsa (j_e raw) MAX_RSA_E_LEN in
               Ok (Some {| kid := kid; alg := Rs256; material := Rsa n e |})
           | Es256 =>
               let? x := decode_coord (j_x raw) in
               let? y := decode_coord (j_y raw) in
               Ok (Some {| kid := kid; alg := Es256; material := EcP256 ([x04] ++ x ++ y) |})
           end.

Definition classify_type (raw : RawJwk) (kty : bytes) : result (option Jwk) JwksError :=
  if match j_use raw with Some u => negb (str_eqb u (lit "sig")) | None => false end then Ok None
  else if str_eqb kty (lit "EC") && negb (bool_decide (is_Some (j_crv raw))) then Err UnsupportedCurve
  else if str_eqb kty (lit "RSA") then classify_key raw Rs256
  else if str_eqb kty (lit "EC") && bool_decide (j_crv raw = Some (lit "P-256")) then classify_key raw Es256
  else Ok None.

Lemma classify_parts raw o :
  classify raw = Ok o ↔
  ∃ kty, public_entry raw ∧ j_kty raw = Some kty ∧ (∀ b, j_alg raw = Some b → alg_fits b kty (j_crv raw))
         ∧ classify_type raw kty = Ok o.
Proof.
  assert (∀ kty, (if match j_use raw with Some u => negb (str_eqb u (lit "sig")) | None => false end then Ok None
    else
      let is_rsa := str_eqb kty (lit "RSA") in
      let is_ec := str_eqb kty (lit "EC") in
      if is_ec && negb (bool_decide (is_Some (j_crv raw))) then Err UnsupportedCurve
      else if negb (is_rsa || (is_ec && bool_decide (j_crv raw = Some (lit "P-256")))) then Ok None
      else
        let (algorithm, skippable) := if is_rsa then (Rs256, SKIPPABLE_RSA_ALGS) else (Es256, SKIPPABLE_EC_ALGS) in
        if on_alg raw (λ a, negb (str_eqb a (as_jose_name algorithm)) && existsb (str_eqb a) skippable) then Ok None
        else
          let? kid := ok_or (opt_filter (λ k, negb (bool_decide (k = []))) (j_kid raw)) MissingKeyId in
          if (MAX_KID_LEN <? len kid)%N then Err KeyIdTooLong
          else
            let? a := ok_or (j_alg raw) MissingAlgorithm in
            if negb (str_eqb a (as_jose_name algorithm)) then Err KeyAlgorithmMismatch
            else if is_rsa then
              let? n := decode_rsa (j_n raw) MAX_RSA_N_LEN in
              let? e := decode_rsa (j_e raw) MAX_RSA_E_LEN in
              Ok (Some {| kid := kid; alg := algorithm; material := Rsa n e |})
            else
              let? x := decode_coord (j_x raw) in
              let? y := decode_coord (j_y raw) in
              Ok (Some {| kid := kid; alg := algorithm; material := EcP256 ([x04] ++ x ++ y) |}))
    = classify_type raw kty) as Htype.
  { intros kty. unfold classify_type. destruct (match j_use raw with Some _ => _ | None => _ end); [done|]. cbv zeta.
    destruct (str_eqb kty (lit "EC") && negb _); [done|].
    destruct (str_eqb kty (lit "RSA")); [done|]. cbn [orb]. by destruct (_ && _). }
  unfold classify. rewrite rbind_Ok. setoid_rewrite public_entry_spec. split.
  - intros (kty & Hk%ok_or_Ok & H). destruct (str_eqb kty (lit "oct")) eqn:Eoct; [done|].
    destruct (on_alg raw forbidden_alg); [done|]. destruct (has_private raw); [done|].
    apply rbind_Ok in H as ([] & Ha & H).
    exists kty. split; [|split; [done|split; [|exact (eq_trans (eq_sym (Htype kty)) H)]]].
    + split_and!; [|done..]. rewrite Hk. intros [= ->]. by rewrite str_eqb_refl in *.
    + intros b Hb. rewrite Hb in Ha. by apply check_alg_Ok.
  - intros (kty & (Hoct & Hf & Hp) & Hk & Hfit & H). exists kty. split; [by apply ok_or_Ok|].
    destruct (str_eqb kty (lit "oct")) eqn:E; [apply str_eqb_eq in E as ->; by destruct (Hoct Hk)|]. rewrite Hf, Hp.
    apply rbind_Ok. exists tt. split; [|exact (eq_trans (Htype kty) H)]. destruct (j_alg raw) as [b|]; [|done].
    by apply check_alg_Ok, Hfit.
Qed.

Lemma jose_not_other a : as_jose_name a ∉ other_algs a.
Proof. rewrite <- existsb_str. by destruct a. Qed.

Lemma not_skipped raw a :
  on_alg raw (λ b, negb (str_eqb b (as_jose_name a)) && existsb (str_eqb b) (other_algs a)) = false ↔
  ∀ b, j_alg raw = Some b → b ∉ other_algs a.
Proof.
  rewrite on_alg_false. split; intros H b Hb; specialize (H b Hb).
  - apply andb_false_iff in H as [->%negb_false_iff%str_eqb_eq|H]; [apply jose_not_other|by apply existsb_str_false].
  - apply existsb_str_false in H as ->. apply andb_false_r.
Qed.

Lemma classify_key_Ok raw a o :
  classify_key raw a = Ok o ↔
  o = None ∧ (¬ ∀ b, j_alg raw = Some b → b ∉ other_algs a)
  ∨ (∀ b, j_alg raw = Some b → b ∉ other_algs a) ∧ ∃ k, o = Some k ∧ key_of raw a k.
Proof.
  unfold classify_key. rewrite <- not_skipped.
  destruct (on_alg raw _); [split; [intros [= <-]; by left|by intros [[-> _]|[? _]]]|]. split.
  - intros H. right. split; [done|]. apply rbind_Ok in H as (i & [Hi Ni%negb_true_iff%bool_decide_eq_false]%ok_or_Ok%opt_filter_Some & H).
    case_first_in H; [done|]. apply rbind_Ok in H as (b & Hb%ok_or_Ok & H). case_first_in H; [done|]. bool_to_prop.
    assert (b = as_jose_name a) as -> by by apply str_eqb_eq. destruct a.
    + apply rbind_Ok in H as (n & Hn%decode_rsa_Ok & H). apply rbind_Ok in H as (e & He%decode_rsa_Ok & H). injection H as <-.
      eexists. split; [done|]. by split; cbn.
    + apply rbind_Ok in H as (x & Hx%decode_coord_Ok & H). apply rbind_Ok in H as (y & Hy%decode_coord_Ok & H). injection H as <-.
      eexists. split; [done|]. split; cbn; [done..|]. by exists x, y.
  - intros [[_ []]|(_ & k & -> & [(Hk & Nk & Lk) [Ha Hal] Hm])]; [done|]. apply rbind_Ok. exists (kid k).
    split; [apply ok_or_Ok, opt_filter_Some; split; [done|by apply negb_true_iff, bool_decide_eq_false]|].
    rewrite (proj2 (N.ltb_ge _ _) Lk), Ha. cbn [rbind ok_or]. rewrite str_eqb_refl. cbn [negb].
    destruct k as [i al m]. cbn in *. subst al. destruct a, m as [n e|point]; cbn in Hm; try done.
    + destruct Hm as [->%decode_rsa_Ok ->%decode_rsa_Ok]. done.
    + destruct Hm as (x & y & -> & ->%decode_coord_Ok & ->%decode_coord_Ok). done.
Qed.

(** [classify] decides what an entry is. *)
Lemma classify_entry raw o : classify raw = Ok o ↔ entry raw o.
Proof.
  rewrite classify_parts. unfold classify_type.
  assert (match j_use raw with Some u => negb (str_eqb u (lit "sig")) | None => false end = false ↔
    (j_use raw = None ∨ j_use raw = Some (lit "sig"))) as Huse.
  { destruct (j_use raw) as [u|]; [|by split; auto]. rewrite negb_false_iff, str_eqb_eq. naive_solver. }
  split.
  - intros (kty & Hpub & Hk & Hfit & H). destruct (match j_use raw with Some _ => _ | None => _ end).
    { injection H as <-. apply (entry_skipped _ kty); [done..| |].
      - by intros _ H%Huse.
      - by intros a [_ _ H%Huse _]. }
    pose proof (proj1 Huse eq_refl) as Hu. clear Huse. destruct (str_eqb kty (lit "EC") && negb _) eqn:Ec; [done|].
    assert (kty = lit "EC" → is_Some (j_crv raw)) as Hcrv.
    { intros ->. rewrite str_eqb_refl in Ec. by apply negb_false_iff, bool_decide_eq_true in Ec. }
    destruct (str_eqb kty (lit "RSA")) eqn:Er; [apply str_eqb_eq in Er as ->|destruct (_ && bool_decide (_ = Some _)) eqn:Ee].
    + apply classify_key_Ok in H as [[-> Ho]|[Ho (k & -> & Hkey)]].
      * apply (entry_skipped _ (lit "RSA")); [done..|]. intros a [Hka _ _ Hal]. rewrite Hk in Hka. by destruct a.
      * by apply (entry_key _ (lit "RSA") Rs256).
    + apply andb_prop in Ee as [->%str_eqb_eq Hp%bool_decide_eq_true].
      apply classify_key_Ok in H as [[-> Ho]|[Ho (k & -> & Hkey)]].
      * apply (entry_skipped _ (lit "EC")); [done..| |]; [by rewrite Hp|].
        intros a [Hka _ _ Hal]. rewrite Hk in Hka. by destruct a.
      * by apply (entry_key _ (lit "EC") Es256).
    + injection H as <-. apply (entry_skipped _ kty); [done..|auto|]. intros a [Hka Hca _ _]. rewrite Hk in Hka.
      injection Hka as ->. destruct a; [by rewrite str_eqb_refl in Er|]. rewrite Hca, str_eqb_refl, bool_decide_true in Ee; done.
  - intros [kty a k Hpub Hk Hfit [Hka Hca Hu%Huse Hal] Hkey|kty Hpub Hk Hfit Hcrv Hno]; exists kty; (split_and!; [done..|]).
    + rewrite Hu. rewrite Hk in Hka. injection Hka as ->.
      assert (classify_key raw a = Ok (Some k)) as Hc by (apply classify_key_Ok; right; eauto).
      destruct a; [exact Hc|]. cbn [kty_of]. rewrite str_eqb_refl, Hca, !bool_decide_true by done. exact Hc.
    + destruct (match j_use raw with Some _ => _ | None => _ end); [done|]. pose proof (proj1 Huse eq_refl) as Hu. clear Huse.
      assert (∀ a, j_kty raw = Some (kty_of a) → (a = Es256 → j_crv raw = Some (lit "P-256")) → classify_key raw a = Ok None) as Hc.
      { intros a Hka Hca. apply classify_key_Ok. left. split; [done|]. intros Hal. by apply (Hno a). }
      destruct (str_eqb kty (lit "EC")) eqn:Ee.
      * apply str_eqb_eq in Ee as ->. rewrite bool_decide_true by auto. cbn [negb andb]. change (str_eqb (lit "EC") (lit "RSA")) with false.
        destruct (bool_decide_reflect (j_crv raw = Some (lit "P-256"))) as [Hp|]; [exact (Hc Es256 Hk (λ _, Hp))|done].
      * cbn [andb]. destruct (str_eqb kty (lit "RSA")) eqn:Er; [|done]. apply str_eqb_eq in Er as ->. by apply Hc.
Qed.

(** ** Documents *)

Lemma classify_all_Ok raws ks n ks' n' :
  classify_all raws ks n = Ok (ks', n') ↔
  ∃ os, Forall2 (λ raw o, classify raw = Ok o) raws os
        ∧ ks' = ks ++ omap id os ∧ n' + length ks' = n + length ks + length raws.
Proof.
  revert ks n. induction raws as [|raw raws IH]; intros ks n; cbn.
  - split; [intros [= <- <-]; exists []; cbn; rewrite app_nil_r; split_and!; [done..|lia]|].
    intros (os & ->%Forall2_nil_inv_l & -> & H). cbn in *. rewrite app_nil_r in *. f_equal. f_equal. lia.
  - split.
    + intros (o & Ho & H)%rbind_Ok. destruct o as [k|]; apply IH in H as (os & Hos & -> & E).
      * exists (Some k :: os). split_and!; [by constructor|cbn; by rewrite <- app_assoc|].
        rewrite !length_app in *. cbn in *. lia.
      * exists (None :: os). split_and!; [by constructor|done|lia].
    + intros (os & (o & os' & Ho & Hos & ->)%Forall2_cons_inv_l & -> & E). rewrite Ho. cbn.
      destruct o as [k|]; apply IH; exists os'; (split; [done|]); cbn in *.
      * rewrite <- app_assoc. split; [done|]. rewrite !length_app in *. cbn in *. lia.
      * split; [done|lia].
Qed.

Lemma check_keys_Ok ks before rest :
  check_keys ks before rest = Ok tt ↔
  Forall (λ a, length (List.filter (λ b, str_eqb (kid b) (kid a)) ks) ≤ MAX_KEYS_PER_KID) rest
  ∧ NoDup rest ∧ ∀ a, a ∈ rest → a ∉ before.
Proof.
  revert before. induction rest as [|a rest IH]; intros before; cbn [check_keys].
  - split; [intros _|done]. split_and!; [constructor..|]. intros a H. inversion H.
  - rewrite Forall_cons, NoDup_cons. destruct (Nat.ltb_spec MAX_KEYS_PER_KID (length (List.filter (λ b, str_eqb (kid b) (kid a)) ks))).
    { split; [done|]. intros ([? _] & _). lia. }
    destruct (existsb _ before) eqn:E.
    + split; [done|]. intros (_ & _ & Hn). apply existsb_exists in E as (b & Hin%list_elem_of_In & ->%bool_decide_eq_true).
      by destruct (Hn a (list_elem_of_here _ _)).
    + assert (a ∉ before) as Hna.
      { intros Hin%list_elem_of_In. rewrite (proj2 (existsb_exists _ _)) in E; [done|]. exists a. by rewrite bool_decide_true. }
      rewrite IH. setoid_rewrite elem_of_app. setoid_rewrite elem_of_cons. setoid_rewrite elem_of_nil.
      split; [intros (? & ? & Hd)|intros ([_ ?] & [Hnr ?] & Hd)].
      * split_and!; try done; [|naive_solver]. intros Hin. by destruct (Hd a Hin); auto.
      * split_and!; try done. intros b Hb [Hin|[->|[]]]; [|done]. by destruct (Hd b); auto.
Qed.

Lemma keys_per_kid (ks : list Jwk) :
  Forall (λ a, length (List.filter (λ b, str_eqb (kid b) (kid a)) ks) ≤ MAX_KEYS_PER_KID) ks ↔
  ∀ k, length (List.filter (λ b, str_eqb (kid b) k) ks) ≤ MAX_KEYS_PER_KID.
Proof.
  rewrite Forall_forall. split; [|auto]. intros H k. destruct (List.filter _ ks) as [|a l] eqn:E; [cbn; lia|]. rewrite <- E.
  assert (In a (List.filter (λ b, str_eqb (kid b) k) ks)) as Hin by (rewrite E; by left).
  apply filter_In in Hin as [Hin%list_elem_of_In <-%str_eqb_eq]. by apply H.
Qed.

(** C29: A JWKS document gives a key set if and only if it is at most 64 KiB of JSON in which every
    entry is public (none of the eight private or symmetric members, not of type [oct], not for
    [none] or [HS*]), names an algorithm that fits its type and curve, if any, and either is not
    supported (another use, type, curve, or a known algorithm of its type that is not implemented) or
    is a key for its algorithm. The key set then has, in the order of the document, one key for every
    supported entry and none for the others, which are counted: its identifier, the algorithm it
    names, and exactly the numbers or coordinates that its members encode. There are at most 32 keys, at
    most 3 of an identifier, no key twice, and none at all only for a document without entries. *)
Theorem from_json_key_set json ks :
  from_json json = Ok ks ↔
  (len json <= MAX_JWKS_DOC_LEN)%N
  ∧ (∃ raws os, json_jwks json = Some raws ∧ Forall2 entry raws os
       ∧ keys ks = omap id os ∧ skipped ks + length (keys ks) = length raws ∧ (keys ks = [] → raws = []))
  ∧ length (keys ks) ≤ MAX_KEYS ∧ NoDup (keys ks) ∧ ∀ k, length (keys_for k ks) ≤ MAX_KEYS_PER_KID.
Proof.
  assert (∀ raws os, Forall2 (λ raw o, classify raw = Ok o) raws os ↔ Forall2 entry raws os) as Hent.
  { intros. split; (intros H; eapply Forall2_impl; [exact H|]; intros; by apply classify_entry). }
  unfold from_json, keys_for. split.
  - intros H. case_first_in H; [done|]. bool_to_prop. split; [done|].
    apply rbind_Ok in H as (raws & Hr%ok_or_Ok & H). apply rbind_Ok in H as ([ks' n] & Hc & H).
    apply classify_all_Ok in Hc as (os & Hos%Hent & -> & Hn). cbn [app] in *. case_first_in H; [done|]. bool_to_prop.
    apply rbind_Ok in H as ([] & (Hkid & Hnd & _)%check_keys_Ok & H). pose proof (proj1 (keys_per_kid _) Hkid).
    case_first_in H; [done|]. injection H as <-. cbn.
    split_and!; [|done..]. exists raws, os. split_and!; [done..|cbn in *; lia|].
    intros E. rewrite E, bool_decide_true, andb_true_r in Heqb1 by done. by destruct raws.
  - intros (Hl & (raws & os & Hr & Hos%Hent & Hks & Hn & Hne) & Hmax & Hnd & Hkid%keys_per_kid).
    destruct ks as [ks n]. cbn [keys skipped] in *. rewrite (proj2 (N.ltb_ge _ _) Hl).
    apply rbind_Ok. exists raws. split; [by apply ok_or_Ok|]. apply rbind_Ok. exists (ks, n). split.
    { apply classify_all_Ok. exists os. split_and!; [done..|cbn; lia]. }
    rewrite (proj2 (Nat.ltb_ge _ _) Hmax). apply rbind_Ok. exists tt. split.
    { apply check_keys_Ok. split_and!; [done..|]. intros a _ Hin. by apply elem_of_nil in Hin. }
    destruct (bool_decide_reflect (ks = [])) as [E|]; [|by rewrite andb_false_r]. by rewrite (Hne E).
Qed.

End spec.

(** ** An instance *)

Lemma from_json_demo : from_json (JC := demo_crates) (lit "{jwks}") = Ok demo_keys.
Proof. vm_compute. reflexivity. Qed.

(** The demo document has one entry, which is a key for ES256. *)
Example demo_entry : entry (JC := demo_crates) demo_raw_jwk (keys demo_keys !! 0).
Proof. apply classify_entry. vm_compute. reflexivity. Qed.
