(* ===== verification/Dpop.v ===== *)
(** * [plugin-jwt], feature [dpop]: proofs of possession

    The configuration ([dpop/config.rs]), the keys of proofs and their thumbprints
    ([dpop/key.rs]), the expected URI and its normal form ([dpop/origin.rs]), the verification of
    a proof ([dpop.rs]) and the store that refuses a second use of a proof ([dpop/replay.rs]). *)

From S2P Require Import Prelude Text Utf8 Radix Extensions Request Response Gate ServerConfig Jwt.

(** ** [dpop.rs], [dpop/config.rs]: limits and configuration *)

Definition MAX_PROOF_LEN : N := MAX_TOKEN_LEN.
Definition MAX_JTI_LEN : N := 256.
Definition DEFAULT_IAT_PAST : Duration := from_secs 60.
Definition MAX_IAT_PAST : Duration := from_secs 300.
Definition DEFAULT_IAT_FUTURE : Duration := from_secs 5.
Definition MAX_IAT_FUTURE : Duration := from_secs 60.
Definition DEFAULT_REPLAY_CAPACITY : N := 131072.
Definition MAX_REPLAY_CAPACITY : N := 4194304.

Inductive DpopConfigError :=
| IatPastZero
| IatPastTooLarge
| IatFutureTooLarge
| ReplayCapacityZero
| ReplayCapacityTooLarge.

Record IatWindow := { past : Duration; future : Duration }.
Definition IatWindow_new (past future : Duration) : result IatWindow DpopConfigError :=
  if (as_secs past =? 0)%N then Err IatPastZero
  else if (MAX_IAT_PAST <? past)%N then Err IatPastTooLarge
  else if (MAX_IAT_FUTURE <? future)%N then Err IatFutureTooLarge
  else Ok {| past := past; future := future |}.
Definition IatWindow_default : IatWindow := {| past := DEFAULT_IAT_PAST; future := DEFAULT_IAT_FUTURE |}.

Inductive DpopMode := Required | AllowUnboundBearer.
#[export] Instance DpopMode_eq_dec : EqDecision DpopMode.
Proof. solve_decision. Defined.

(** [PublicOrigin] and [ExpectedHtu] are the texts that they wrap. *)
Record DpopConfig := {
  mode : DpopMode;
  origin : bytes;
  algs : list Algorithm;
  window : IatWindow;
  replay_capacity : option N;
}.
Definition DpopConfig_new (mode : DpopMode) (origin : bytes) (algs : list Algorithm) : DpopConfig :=
  {| mode := mode; origin := origin; algs := algs; window := IatWindow_default; replay_capacity := None |}.
Definition with_iat_window (window : IatWindow) (self : DpopConfig) : DpopConfig :=
  {| mode := mode self; origin := origin self; algs := algs self; window := window;
     replay_capacity := replay_capacity self |}.
Definition with_replay_capacity (capacity : N) (self : DpopConfig) : result DpopConfig DpopConfigError :=
  if (capacity =? 0)%N then Err ReplayCapacityZero
  else if (MAX_REPLAY_CAPACITY <? capacity)%N then Err ReplayCapacityTooLarge
  else Ok {| mode := mode self; origin := origin self; algs := algs self; window := window self;
             replay_capacity := Some capacity |}.

(** ** [dpop/origin.rs] *)

Definition MAX_ORIGIN_LEN : N := 512.
Definition MAX_HTU_LEN : N := 4096.

Inductive OriginError :=
| OTooLong
| InvalidScheme
| InvalidHost
| InvalidPort
| UserInfo
| PathNotAllowed
| QueryOrFragment.

(** [s.split_once(needle)] for a text. *)
Definition split_once_str (needle s : bytes) : option (bytes * bytes) :=
  match find_sub needle s with
  | Some i => Some (take i s, drop (i + length needle) s)
  | None => None
  end.

(** [s.split_at(s.find(p).unwrap_or(s.len()))]. *)
Fixpoint split_at_first (p : byte → bool) (s : bytes) : bytes * bytes :=
  match s with
  | [] => ([], [])
  | c :: s' => if p c then ([], s) else let '(a, b) := split_at_first p s' in (c :: a, b)
  end.

(** [s.rsplit_once(c)]. *)
Definition rsplit_once (c : byte) (s : bytes) : option (bytes * bytes) :=
  match split_once c (reverse s) with
  | Some (b, a) => Some (reverse a, reverse b)
  | None => None
  end.

Definition ends_authority (b : byte) : bool := existsb (beqb b) [x2f; x3f; x23].

(** The branch for an address in brackets: the host and the text of the port. *)
Definition bracket_host (authority : bytes) : result (bytes * option bytes) OriginError :=
  let? close := ok_or (position (beqb x5d) authority) InvalidHost in
  let inner := drop 1 (take close authority) in
  let ok := negb (bool_decide (inner = [])) && contains x3a inner
    && forallb (λ b, is_ascii_hexdigit b || beqb b x3a || beqb b x2e) inner in
  if negb ok then Err InvalidHost
  else
    let tail := drop (S close) authority in
    let? port := match tail with
      | [] => Ok None
      | t => let? p := ok_or (strip_prefix [x3a] t) InvalidHost in Ok (Some p)
      end in
    Ok (str_to_ascii_lowercase (take (S close) authority), port).

Definition named_host (authority : bytes) : result (bytes * option bytes) OriginError :=
  let '(h, p) := match rsplit_once x3a authority with Some (h, p) => (h, Some p) | None => (authority, None) end in
  let ok := negb (bool_decide (h = [])) && (len h <=? 253)%N
    && forallb (λ b, is_ascii_alphanumeric b || beqb b x2e || beqb b x2d) h in
  if negb ok then Err InvalidHost else Ok (str_to_ascii_lowercase h, p).

(** The port to write, if it is not the one of the scheme. *)
Definition parse_port (default_port : N) (port_str : option bytes) : result (option N) OriginError :=
  match port_str with
  | None => Ok None
  | Some p =>
      if bool_decide (p = []) || (5 <? len p)%N || negb (forallb is_ascii_digit p) then Err InvalidPort
      else
        let? n := ok_or (parse_uint u16_max p) InvalidPort in
        if (n =? 0)%N then Err InvalidPort else Ok (if (n =? default_port)%N then None else Some n)
  end.

Definition SCHEME_SEP : bytes := lit "://".
Definition format_origin (scheme host : bytes) (port : option N) : bytes :=
  scheme ++ SCHEME_SEP ++ host ++ match port with Some n => x3a :: to_decimal n | None => [] end.

Definition parse_origin (s : bytes) : result (bytes * bytes) OriginError :=
  let? (scheme, after) := ok_or (split_once_str SCHEME_SEP s) InvalidScheme in
  let? (scheme, default_port) :=
    if eq_ignore_ascii_case scheme (lit "https") then Ok (lit "https", 443%N)
    else if eq_ignore_ascii_case scheme (lit "http") then Ok (lit "http", 80%N)
    else Err InvalidScheme in
  let '(authority, rest) := split_at_first ends_authority after in
  if contains x40 authority then Err UserInfo
  else
    let? (host, port_str) := if starts_with [x5b] authority then bracket_host authority else named_host authority in
    let? port := parse_port default_port port_str in
    Ok (format_origin scheme host port, rest).

Definition to_ascii_uppercase (b : byte) : byte := if is_ascii_lowercase b then byte_of (bv b - 32) else b.

(** The copying loop of [normalize_path]. *)
Fixpoint normalize_bytes (s : bytes) : option bytes :=
  match s with
  | [] => Some []
  | b :: s' =>
      if negb (in_range 33 126 b) || beqb b x5c then None
      else if beqb b x25 then
        match s' with
        | h1 :: h2 :: s'' =>
            if negb (is_ascii_hexdigit h1) || negb (is_ascii_hexdigit h2) then None
            else (λ o, x25 :: to_ascii_uppercase h1 :: to_ascii_uppercase h2 :: o) <$> normalize_bytes s''
        | _ => None
        end
      else cons b <$> normalize_bytes s'
  end.

(** [seg.replace("%2E", ".")]. *)
Fixpoint replace_2e (s : bytes) : bytes :=
  match s with
  | [] => []
  | b :: s' =>
      match s' with
      | b2 :: b3 :: s'' =>
          if beqb b x25 && beqb b2 x32 && beqb b3 x45 then x2e :: replace_2e s'' else b :: replace_2e s'
      | _ => b :: replace_2e s'
      end
  end.

Definition is_dots (seg : bytes) : bool := let dots := replace_2e seg in str_eqb dots [x2e] || str_eqb dots [x2e; x2e].

Definition normalize_path (path : bytes) : option bytes :=
  match path with
  | [] => Some [x2f]
  | c :: _ =>
      if negb (beqb c x2f) then None
      else
        let! out := normalize_bytes path else None in
        if existsb is_dots (split x2f out) then None else Some out
  end.

Definition PublicOrigin_new (origin : bytes) : result bytes OriginError :=
  if (MAX_ORIGIN_LEN <? len origin)%N then Err OTooLong
  else
    let? (normalized, rest) := parse_origin origin in
    if str_eqb rest [] || str_eqb rest [x2f] then Ok normalized
    else if contains x3f rest || contains x23 rest then Err QueryOrFragment
    else Err PathNotAllowed.

Definition expected_htu (path self : bytes) : result bytes DpopError :=
  if negb (starts_with [x2f] path) || contains x3f path || contains x23 path then Err InvalidRequestTarget
  else
    let? path := ok_or (normalize_path path) InvalidRequestTarget in
    let full := self ++ path in
    if (MAX_HTU_LEN <? len full)%N then Err InvalidRequestTarget else Ok full.

(** [split(c).next().unwrap_or("")]. *)
Definition before_first (c : byte) (s : bytes) : bytes := default [] (head (split c s)).

Definition normalize_proof_htu (htu : bytes) : option bytes :=
  if (MAX_HTU_LEN <? len htu)%N then None
  else
    match parse_origin htu with
    | Err _ => None
    | Ok (origin, rest) =>
        let! path := normalize_path (before_first x3f (before_first x23 rest)) else None in
        Some (origin ++ path)
    end.

(** ** [dpop/key.rs] *)

Definition EC_COORD_LEN : N := 32.
Definition RSA_N_MIN : N := 256.
Definition RSA_N_MAX : N := 1024.
Definition RSA_E_MAX : N := 8.

(** [JwkThumbprint] is the text that it wraps. *)
Record ProofKey := { pk_material : KeyMaterial; pk_thumbprint : bytes }.

Record VerifiedProof := { thumbprint : bytes; jti : bytes; iat : N }.

Record ProofContext := {
  method : bytes;
  htu : bytes;
  access_token : bytes;
  ctx_algs : list Algorithm;
  ctx_window : IatWindow;
}.

Section dpop.
Context {JC : JwtCrates}.

Definition thumbprint_of (canonical_json : bytes) : bytes := b64_encode (sha256 canonical_json).

Definition canonical_int (s : option bytes) (min max : N) : result bytes DpopError :=
  let? s := ok_or s InvalidKey in
  if (encoded_cap max <? len s)%N then Err InvalidKey
  else
    let? b := ok_or (b64_decode s) InvalidKey in
    if (len b <? min)%N || (max <? len b)%N || bool_decide (head b = Some x00) then Err InvalidKey else Ok b.

Definition fixed_coord (s : option bytes) : result bytes DpopError :=
  let? s := ok_or s InvalidKey in
  if (encoded_cap EC_COORD_LEN <? len s)%N then Err InvalidKey
  else
    let? b := ok_or (b64_decode s) InvalidKey in
    if (len b =? EC_COORD_LEN)%N then Ok b else Err InvalidKey.

Definition jwk_has_private (j : JwkFields) : bool :=
  f_d j || f_p j || f_q j || f_dp j || f_dq j || f_qi j || f_oth j || f_k j.

Definition QUOTE : bytes := [x22].
Definition rsa_json (n e : bytes) : bytes :=
  [x7b] ++ QUOTE ++ lit "e" ++ QUOTE ++ lit ":" ++ QUOTE ++ b64_encode e ++ QUOTE ++ lit "," ++ QUOTE ++ lit "kty" ++ QUOTE
    ++ lit ":" ++ QUOTE ++ lit "RSA" ++ QUOTE ++ lit "," ++ QUOTE ++ lit "n" ++ QUOTE ++ lit ":" ++ QUOTE
    ++ b64_encode n ++ QUOTE ++ [x7d].
Definition ec_json (x y : bytes) : bytes :=
  [x7b] ++ QUOTE ++ lit "crv" ++ QUOTE ++ lit ":" ++ QUOTE ++ lit "P-256" ++ QUOTE ++ lit "," ++ QUOTE ++ lit "kty" ++ QUOTE
    ++ lit ":" ++ QUOTE ++ lit "EC" ++ QUOTE ++ lit "," ++ QUOTE ++ lit "x" ++ QUOTE ++ lit ":" ++ QUOTE
    ++ b64_encode x ++ QUOTE ++ lit "," ++ QUOTE ++ lit "y" ++ QUOTE ++ lit ":" ++ QUOTE ++ b64_encode y ++ QUOTE ++ [x7d].

Definition build_proof_key (j : JwkFields) (header_alg : option Algorithm) : result ProofKey DpopError :=
  if jwk_has_private j then Err DPrivateKeyMaterial
  else
    let? kty := ok_or (f_kty j) UnsupportedKey in
    let? key_alg :=
      if str_eqb kty (lit "RSA") then Ok Rs256
      else if str_eqb kty (lit "EC") then Ok Es256
      else Err UnsupportedKey in
    if match header_alg with Some a => negb (bool_decide (a = key_alg)) | None => false end
    then Err DKeyAlgorithmMismatch
    else if match f_alg j with Some a => negb (str_eqb a (as_jose_name key_alg)) | None => false end
    then Err DKeyAlgorithmMismatch
    else if match f_use j with Some u => negb (str_eqb u (lit "sig")) | None => false end
    then Err UnsupportedKey
    else
      match key_alg with
      | Rs256 =>
          let? n := canonical_int (f_n j) RSA_N_MIN RSA_N_MAX in
          let? e := canonical_int (f_e j) 1 RSA_E_MAX in
          Ok {| pk_material := Rsa n e; pk_thumbprint := thumbprint_of (rsa_json n e) |}
      | Es256 =>
          if negb (bool_decide (f_crv j = Some (lit "P-256"))) then Err UnsupportedKey
          else
            let? x := fixed_coord (f_x j) in
            let? y := fixed_coord (f_y j) in
            Ok {| pk_material := EcP256 ([x04] ++ x ++ y); pk_thumbprint := thumbprint_of (ec_json x y) |}
      end.

Definition jwk_thumbprint (jwk_json : bytes) : result bytes DpopError :=
  if (MAX_PROOF_LEN <? len jwk_json)%N then Err DTooLong
  else
    let? jwk := ok_or (json_proof_jwk jwk_json) DMalformed in
    let? k := build_proof_key jwk None in
    Ok (pk_thumbprint k).

(** ** [dpop.rs]: verification *)

Definition dpop_b64 (s : bytes) : result bytes DpopError := ok_or (b64_decode s) DMalformed.
Definition dpop_require_json_object (b : bytes) : result unit DpopError :=
  match trim_start_matches is_json_space b with
  | c :: _ => if beqb c x7b then Ok tt else Err DMalformed
  | [] => Err DMalformed
  end.

Definition TYP_PREFIX : bytes := lit "application/".
Definition typ_is_dpop (typ : bytes) : bool :=
  let t := if (len TYP_PREFIX <=? len typ)%N && eq_ignore_ascii_case (take (length TYP_PREFIX) typ) TYP_PREFIX
           then drop (length TYP_PREFIX) typ else typ in
  eq_ignore_ascii_case t (lit "dpop+jwt").

(** The checks on the claims of a proof whose signature is verified. *)
Definition check_proof_claims (p : bytes) (tp : bytes) (ctx : ProofContext) (now_unix : N) :
    result VerifiedProof DpopError :=
  let? payload := dpop_b64 p in
  let? _ := dpop_require_json_object payload in
  let? claims := ok_or (json_proof_claims payload) DMalformed in
  match pc_jti claims, pc_htm claims, pc_htu claims, pc_iat claims, pc_ath claims with
  | Some jti, Some htm, Some htu_, Some iat, Some ath =>
      if bool_decide (jti = []) || (MAX_JTI_LEN <? len jti)%N then Err InvalidJti
      else if negb (str_eqb htm (method ctx)) then Err MethodMismatch
      else if negb (bool_decide (normalize_proof_htu htu_ = Some (htu ctx))) then Err UriMismatch
      else
        let lo := (now_unix - as_secs (past (ctx_window ctx)))%N in
        let hi := saturating_add now_unix (as_secs (future (ctx_window ctx))) in
        if (iat <? lo)%N || (hi <? iat)%N then Err IssuedAtOutOfWindow
        else if negb (str_eqb ath (b64_encode (sha256 (access_token ctx)))) then Err AccessTokenHashMismatch
        else Ok {| thumbprint := tp; jti := jti; iat := iat |}
  | _, _, _, _, _ => Err DMissingClaim
  end.

Definition verify_proof (proof : bytes) (ctx : ProofContext) (now_unix : N) : result VerifiedProof DpopError :=
  if bool_decide (proof = []) then Err MissingProof
  else if (MAX_PROOF_LEN <? len proof)%N then Err DTooLong
  else
    match split x2e proof with
    | [h; p; s] =>
        if bool_decide (h = []) || bool_decide (p = []) || bool_decide (s = []) then Err DMalformed
        else
          let? header_bytes := dpop_b64 h in
          let? _ := dpop_require_json_object header_bytes in
          let? header := ok_or (json_proof_header header_bytes) DMalformed in
          if ph_crit header then Err DCriticalHeader
          else if negb (match ph_typ header with Some t => typ_is_dpop t | None => false end) then Err DInvalidType
          else
            let? alg :=
              ok_or (opt_filter (λ a, bool_decide (a ∈ ctx_algs ctx)) (ph_alg header ≫= from_jose_name))
                DAlgorithmNotAllowed in
            let? jwk := ok_or (ph_jwk header) MissingJwk in
            let? proof_key := build_proof_key jwk (Some alg) in
            let? sig := dpop_b64 s in
            let msg := take (length h + 1 + length p) proof in
            if negb (signature_ok alg (pk_material proof_key) msg sig) then Err DInvalidSignature
            else check_proof_claims p (pk_thumbprint proof_key) ctx now_unix
    | _ => Err DMalformed
    end.

(** ** [dpop/replay.rs] *)

(** [Ord] on keys: the lexicographic order of their bytes. *)
Fixpoint key_leb (a b : bytes) : bool :=
  match a, b with
  | [], _ => true
  | _ :: _, [] => false
  | x :: a, y :: b => (bv x <? bv y)%N || (beqb x y && key_leb a b)
  end.
Definition entry_leb (a b : N * bytes) : bool := (a.1 <? b.1)%N || ((a.1 =? b.1)%N && key_leb a.2 b.2).

(** [BinaryHeap<Reverse<(u64, Key)>>], as the sequence in which it pops its elements. *)
Fixpoint heap_push (x : N * bytes) (heap : list (N * bytes)) : list (N * bytes) :=
  match heap with
  | [] => [x]
  | y :: heap' => if entry_leb x y then x :: heap else y :: heap_push x heap'
  end.

Record ReplayState := { rmap : gmap bytes N; heap : list (N * bytes) }.
Record ReplayStore := { rstate : ReplayState; past_secs : N; capacity : N }.

Definition ReplayStore_new (window : IatWindow) : ReplayStore :=
  {| rstate := {| rmap := ∅; heap := [] |}; past_secs := as_secs (past window); capacity := DEFAULT_REPLAY_CAPACITY |}.
Definition ReplayStore_with_capacity (window : IatWindow) (capacity : N) : result ReplayStore DpopConfigError :=
  if (capacity =? 0)%N then Err ReplayCapacityZero
  else if (MAX_REPLAY_CAPACITY <? capacity)%N then Err ReplayCapacityTooLarge
  else Ok {| rstate := rstate (ReplayStore_new window); past_secs := past_secs (ReplayStore_new window);
             capacity := capacity |}.

(** The loop that removes what has expired. *)
Fixpoint evict (now_unix : N) (m : gmap bytes N) (heap : list (N * bytes)) : ReplayState :=
  match heap with
  | [] => {| rmap := m; heap := [] |}
  | (exp, k) :: heap' =>
      if (now_unix <=? exp)%N then {| rmap := m; heap := heap |}
      else evict now_unix (if bool_decide (m !! k = Some exp) then delete k m else m) heap'
  end.

Definition set_rstate (st : ReplayState) (self : ReplayStore) : ReplayStore :=
  {| rstate := st; past_secs := past_secs self; capacity := capacity self |}.

Definition register_key (key : bytes) (iat now_unix : N) (self : ReplayStore) : result unit DpopError * ReplayStore :=
  let expiry := saturating_add iat (past_secs self) in
  let st := evict now_unix (rmap (rstate self)) (heap (rstate self)) in
  if bool_decide (is_Some (rmap st !! key)) then (Err Replayed, set_rstate st self)
  else if (capacity self <=? N.of_nat (size (rmap st)))%N then (Err ReplayStoreFull, set_rstate st self)
  else (Ok tt, set_rstate {| rmap := <[key := expiry]> (rmap st); heap := heap_push (expiry, key) (heap st) |} self).

Definition replay_key (thumbprint jti : bytes) : bytes := sha256 (thumbprint ++ jti).

Definition register (proof : VerifiedProof) (now_unix : N) (self : ReplayStore) : result unit DpopError * ReplayStore :=
  register_key (replay_key (thumbprint proof) (jti proof)) (iat proof) now_unix self.

End dpop.
