(* ===== verification/DpopSpec.v ===== *)
(** * What a proof of possession guarantees

    The replay store behaves as a map from keys to expiry times, a proof is accepted twice only
    if a request in between came with a later clock, past the end of its validity, an accepted proof satisfies RFC 9449's checks, and the
    expected URI is the normal form of itself, without dot segments. *)

From Stdlib Require Import Sorted.
From S2P Require Import Prelude Text Utf8 Radix Extensions Request Response Gate ServerConfig Jwt JwtSpec Dpop.

(** ** The replay store *)

Definition swap_entry (p : bytes * N) : N * bytes := (p.2, p.1).

(** The heap holds the entries of the map, earliest expiry first. *)
Definition indexed (m : gmap bytes N) (h : list (N * bytes)) : Prop :=
  h ≡ₚ swap_entry <$> map_to_list m ∧ StronglySorted (λ a b, (a.1 <= b.1)%N) h.

Definition replay_wf (self : ReplayStore) : Prop :=
  indexed (rmap (rstate self)) (heap (rstate self))
  ∧ (N.of_nat (size (rmap (rstate self))) <= capacity self)%N.

(** What the store promises: a map without its expired entries, with room for [cap]. *)
Definition unexpired (now : N) (m : gmap bytes N) : gmap bytes N := filter (λ p, (now <= p.2)%N) m.
Definition spec_register (cap past : N) (key : bytes) (iat now : N) (m : gmap bytes N) :
    result unit DpopError * gmap bytes N :=
  let m := unexpired now m in
  if bool_decide (is_Some (m !! key)) then (Err Replayed, m)
  else if (cap <=? N.of_nat (size m))%N then (Err ReplayStoreFull, m)
  else (Ok tt, <[key := saturating_add iat past]> m).

Lemma heap_push_perm x h : heap_push x h ≡ₚ x :: h.
Proof.
  induction h as [|y h IH]; cbn; [done|]. destruct (entry_leb x y); [done|]. rewrite IH. apply perm_swap.
Qed.

Lemma heap_push_sorted x h :
  StronglySorted (λ a b, (a.1 <= b.1)%N) h → StronglySorted (λ a b, (a.1 <= b.1)%N) (heap_push x h).
Proof.
  induction 1 as [|y h Hs IH Hy]; cbn; [repeat constructor|].
  unfold entry_leb. destruct (N.ltb_spec x.1 y.1); cbn.
  { constructor; [by constructor|]. constructor; [lia|]. eapply Forall_impl; [exact Hy|]. cbn. intros ? ?. lia. }
  destruct (N.eqb_spec x.1 y.1) as [E|Ne]; cbn; [destruct (key_leb x.2 y.2)|].
  { constructor; [by constructor|]. constructor; [lia|]. eapply Forall_impl; [exact Hy|]. cbn. intros ? ?. lia. }
  all: constructor; [done|]. all: rewrite heap_push_perm; constructor; [lia|done].
Qed.

Lemma indexed_elem m h e k : indexed m h → (e, k) ∈ h ↔ m !! k = Some e.
Proof.
  intros [Hp _]. rewrite Hp, list_elem_of_fmap. split.
  - by intros ([k' e'] & [= -> ->] & H%elem_of_map_to_list).
  - intros H. exists (k, e). by rewrite elem_of_map_to_list.
Qed.

Lemma indexed_delete m e k h : indexed m ((e, k) :: h) → m !! k = Some e ∧ indexed (delete k m) h.
Proof.
  intros Hi. assert (m !! k = Some e) as E by (apply (indexed_elem _ _ _ _ Hi); left). split; [done|].
  destruct Hi as [Hp Hs]. split; [|by inversion Hs].
  rewrite <- (insert_delete_id m k e E), map_to_list_insert in Hp by apply lookup_delete_eq.
  by apply Permutation_cons_inv in Hp.
Qed.

Lemma indexed_insert m k e h : indexed m h → m !! k = None → indexed (<[k := e]> m) (heap_push (e, k) h).
Proof.
  intros [Hp Hs] E. split; [|by apply heap_push_sorted]. by rewrite heap_push_perm, map_to_list_insert, Hp.
Qed.

Lemma evict_unexpired now m h :
  indexed m h → rmap (evict now m h) = unexpired now m ∧ indexed (unexpired now m) (heap (evict now m h)).
Proof.
  unfold unexpired. revert m. induction h as [|[e k] h IH]; intros m Hi; cbn.
  - destruct Hi as [Hp _]. symmetry in Hp. apply Permutation_nil_r, fmap_nil_inv, map_to_list_empty_iff in Hp as ->.
    rewrite map_filter_empty. split; [done|]. split; [|constructor]. by rewrite map_to_list_empty.
  - destruct (N.leb_spec now e); cbn.
    + rewrite map_filter_id; [done|]. intros k' e' E. apply (indexed_elem _ _ _ _ Hi) in E.
      destruct Hi as [_ Hs]. inversion Hs as [|? ? _ Hall]; subst. cbn in *.
      apply elem_of_cons in E as [[= -> ->]|E]; [done|]. rewrite Forall_forall in Hall. specialize (Hall _ E). cbn in *. lia.
    + apply indexed_delete in Hi as [E Hi]. rewrite bool_decide_true by done.
      destruct (IH _ Hi) as [-> Hi']. assert (filter (λ p : bytes * N, (now <= p.2)%N) (delete k m)
        = filter (λ p : bytes * N, (now <= p.2)%N) m) as Ef; [|by rewrite <- Ef].
      rewrite map_filter_delete, delete_id; [done|]. apply map_lookup_filter_None. right. intros e' E'. cbn.
      simplify_eq. lia.
Qed.

Lemma size_unexpired now m : size (unexpired now m) ≤ size m.
Proof. apply map_subseteq_size, map_filter_subseteq. Qed.

Lemma register_key_refines key iat now self :
  replay_wf self →
  let r := register_key key iat now self in
  let s := spec_register (capacity self) (past_secs self) key iat now (rmap (rstate self)) in
  r.1 = s.1 ∧ rmap (rstate r.2) = s.2 ∧ replay_wf r.2
  ∧ past_secs r.2 = past_secs self ∧ capacity r.2 = capacity self.
Proof.
  intros [Hi Hsz]. cbv zeta. unfold register_key, spec_register, replay_wf.
  destruct (evict_unexpired now _ _ Hi) as [E Hi']. cbv zeta. rewrite <- E in Hi'.
  pose proof (size_unexpired now (rmap (rstate self))) as Hs. rewrite <- E in Hs. rewrite <- E.
  set (st := evict now _ _) in *.
  destruct (bool_decide_reflect (is_Some (rmap st !! key))) as [|Hn]; [split_and!; cbn; done || lia|].
  destruct (N.leb_spec (capacity self) (N.of_nat (size (rmap st)))); [split_and!; cbn; done || lia|].
  apply eq_None_not_Some in Hn. split_and!; try done; [by apply indexed_insert|].
  cbn. rewrite map_size_insert_None by done. lia.
Qed.

(** The replay store, whose heap is emptied lazily, is a map from keys to expiry times: every
    call first forgets exactly the keys whose expiry has passed, then refuses a key that it
    still holds, refuses a new key when it is full, and otherwise records it with its expiry
    (the issue time plus the window, saturating). It never holds more than its capacity. *)
Theorem replay_store_refines key iat now self :
  replay_wf self →
  let r := register_key key iat now self in
  let s := spec_register (capacity self) (past_secs self) key iat now (rmap (rstate self)) in
  r.1 = s.1 ∧ rmap (rstate r.2) = s.2 ∧ replay_wf r.2
  ∧ past_secs r.2 = past_secs self ∧ capacity r.2 = capacity self.
Proof. apply register_key_refines. Qed.

Lemma replay_wf_new window : replay_wf (ReplayStore_new window).
Proof. split; [split; [done|constructor]|]. cbn. unfold DEFAULT_REPLAY_CAPACITY. rewrite map_size_empty. lia. Qed.

(** Calls, by whatever requests, one after the other: the store is behind a mutex. *)
Fixpoint register_all (calls : list (bytes * N * N)) (self : ReplayStore) : ReplayStore :=
  match calls with
  | [] => self
  | (key, iat, now) :: calls => register_all calls (register_key key iat now self).2
  end.

Lemma register_held key iat now self k e :
  replay_wf self → rmap (rstate self) !! k = Some e → (now <= e)%N →
  rmap (rstate (register_key key iat now self).2) !! k = Some e
  ∧ (key = k → (register_key key iat now self).1 = Err Replayed).
Proof.
  intros Hwf Hk Hnow. destruct (register_key_refines key iat now self Hwf) as (-> & -> & _).
  assert (unexpired now (rmap (rstate self)) !! k = Some e) as Hu.
  { apply map_lookup_filter_Some. by split. }
  unfold spec_register. cbv zeta. destruct (bool_decide_reflect (is_Some (unexpired now (rmap (rstate self)) !! key))) as [|Hn].
  { by split. }
  assert (key ≠ k) as Nk by (intros ->; by rewrite Hu in Hn; destruct Hn). split; [|done].
  destruct (_ <=? _)%N; [done|]. cbn. by rewrite lookup_insert_ne.
Qed.

Lemma register_all_held calls self k e :
  replay_wf self → rmap (rstate self) !! k = Some e → Forall (λ c, (c.2 <= e)%N) calls →
  replay_wf (register_all calls self) ∧ rmap (rstate (register_all calls self)) !! k = Some e
  ∧ past_secs (register_all calls self) = past_secs self.
Proof.
  intros Hwf Hk Hc. revert self Hwf Hk. induction Hc as [|[[key iat] now] calls Hnow _ IH]; intros self Hwf Hk; [done|].
  cbn [register_all]. destruct (register_key_refines key iat now self Hwf) as (_ & _ & Hwf' & <- & _).
  apply IH; [done|]. by apply register_held.
Qed.

Lemma register_fresh key iat now self :
  replay_wf self → (register_key key iat now self).1 = Ok tt →
  rmap (rstate (register_key key iat now self).2) !! key = Some (saturating_add iat (past_secs self)).
Proof.
  intros Hwf. destruct (register_key_refines key iat now self Hwf) as (-> & -> & _).
  unfold spec_register. cbv zeta. case_bool_decide; [done|]. destruct (_ <=? _)%N; [done|]. intros _.
  cbn. by rewrite lookup_insert_eq.
Qed.

Lemma register_other key iat now self k :
  replay_wf self → key ≠ k →
  rmap (rstate (register_key key iat now self).2) !! k = unexpired now (rmap (rstate self)) !! k.
Proof.
  intros Hwf Hne. destruct (register_key_refines key iat now self Hwf) as (_ & -> & _). unfold spec_register. cbv zeta.
  case_bool_decide; [done|]. destruct (_ <=? _)%N; [done|]. cbn. by rewrite lookup_insert_ne.
Qed.

(** Calls for other keys keep an entry exactly as long as none of them has a clock past its expiry. *)
Lemma register_all_other calls self k e :
  replay_wf self → rmap (rstate self) !! k = Some e → Forall (λ c, c.1.1 ≠ k) calls →
  replay_wf (register_all calls self)
  ∧ (rmap (rstate (register_all calls self)) !! k = None ↔ ¬ Forall (λ c, (c.2 <= e)%N) calls).
Proof.
  intros Hwf Hk Hne. revert self Hwf Hk. induction Hne as [|[[key iat] now] calls Hkey Hcalls IH]; intros self Hwf Hk.
  { cbn. rewrite Hk. split; [done|]. split; [done|]. intros H. by destruct H. }
  cbn [register_all fst] in *. pose proof (register_other key iat now self k Hwf Hkey) as Ho.
  destruct (register_key_refines key iat now self Hwf) as (_ & _ & Hwf' & _). set (s1 := (register_key key iat now self).2) in *.
  rewrite Forall_cons. cbn [snd]. destruct (decide (now <= e)%N) as [Hle|Hgt].
  - assert (unexpired now (rmap (rstate self)) !! k = Some e) as Hu by by apply map_lookup_filter_Some.
    rewrite Hu in Ho. destruct (IH s1 Hwf' Ho) as [Hw Hi]. split; [done|]. rewrite Hi. naive_solver.
  - assert (unexpired now (rmap (rstate self)) !! k = None) as Hu.
    { apply map_lookup_filter_None. right. intros e' He'. cbn. simplify_eq. lia. }
    rewrite Hu in Ho. clear IH Hu Hk Hwf. enough (replay_wf (register_all calls s1) ∧ rmap (rstate (register_all calls s1)) !! k = None)
      as [Hw Hn] by (split; [done|]; split; [intros _ [? _]; lia|done]).
    clearbody s1. revert s1 Hwf' Ho. induction Hcalls as [|[[key' iat'] now'] calls Hkey' _ IH]; intros s1 Hwf' Ho; [done|].
    cbn [register_all fst] in *. destruct (register_key_refines key' iat' now' s1 Hwf') as (_ & _ & Hw & _).
    apply IH; [done|]. rewrite register_other by done. apply map_lookup_filter_None. by left.
Qed.

Lemma register_replayed key iat now self :
  replay_wf self →
  (register_key key iat now self).1 = Err Replayed ↔ is_Some (unexpired now (rmap (rstate self)) !! key).
Proof.
  intros Hwf. destruct (register_key_refines key iat now self Hwf) as (-> & _). unfold spec_register. cbv zeta.
  case_bool_decide as H; [done|]. destruct (_ <=? _)%N; (split; [done|intros ?; by destruct H]).
Qed.

(** ** Proofs *)

Section dpop.
Context {JC : JwtCrates}.

(** What the checks of the claims of a proof require. *)
Record proof_claims_ok (p : bytes) (ctx : ProofContext) (now : N) (v : VerifiedProof) : Prop := {
  po_payload : ∃ payload c u, b64_decode p = Some payload ∧ json_proof_claims payload = Some c
    ∧ pc_jti c = Some (jti v) ∧ pc_iat c = Some (iat v)
    ∧ pc_htm c = Some (method ctx) ∧ pc_htu c = Some u ∧ normalize_proof_htu u = Some (htu ctx)
    ∧ pc_ath c = Some (b64_encode (sha256 (access_token ctx)));
  po_jti : jti v ≠ [] ∧ (len (jti v) <= MAX_JTI_LEN)%N;
  po_iat : (now - as_secs (past (ctx_window ctx)) <= iat v <= saturating_add now (as_secs (future (ctx_window ctx))))%N;
}.

Lemma check_proof_claims_Ok p tp ctx now v :
  check_proof_claims p tp ctx now = Ok v → proof_claims_ok p ctx now v ∧ thumbprint v = tp.
Proof.
  unfold check_proof_claims, dpop_b64. intros (payload & Hp%ok_or_Ok & H)%rbind_Ok.
  apply rbind_Ok in H as (_ & _ & H). apply rbind_Ok in H as (c & Hc%ok_or_Ok & H).
  destruct (pc_jti c) as [j|] eqn:E1; [|done]. destruct (pc_htm c) as [m|] eqn:E2; [|done].
  destruct (pc_htu c) as [u|] eqn:E3; [|done]. destruct (pc_iat c) as [t|] eqn:E4; [|done].
  destruct (pc_ath c) as [a|] eqn:E5; [|done]. cbv zeta in H.
  do 5 (case_first_in H; [done|]). injection H as <-. bool_to_prop.
  repeat match goal with H : str_eqb _ _ = true |- _ => apply str_eqb_eq in H; subst end.
  split; [|done]. split; cbn; [|done|lia]. exists payload, c, u. by split_and!.
Qed.

(** A proof that one of the allowed algorithms and the key in its own header verify. *)
Record proof_signed (proof : bytes) (ctx : ProofContext) (tp p : bytes) : Prop := {
  ps_len : (len proof <= MAX_PROOF_LEN)%N;
  ps_key : ∃ h s b header t jwk a key sig,
    split x2e proof = [h; p; s] ∧ proof = h ++ x2e :: p ++ x2e :: s
    ∧ b64_decode h = Some b ∧ json_proof_header b = Some header ∧ ph_crit header = false
    ∧ ph_typ header = Some t ∧ typ_is_dpop t = true ∧ ph_jwk header = Some jwk
    ∧ ph_alg header = Some (as_jose_name a) ∧ a ∈ ctx_algs ctx
    ∧ jwk_has_private jwk = false ∧ fit_material a (pk_material key) ∧ build_proof_key jwk (Some a) = Ok key
    ∧ b64_decode s = Some sig ∧ signature_ok a (pk_material key) (h ++ x2e :: p) sig = true
    ∧ tp = pk_thumbprint key;
}.

Lemma from_jose_name_Some s a : from_jose_name s = Some a → s = as_jose_name a.
Proof.
  unfold from_jose_name. destruct (str_eqb s (lit "RS256")) eqn:E; [apply str_eqb_eq in E; by intros [= <-]|].
  destruct (str_eqb s (lit "ES256")) eqn:E'; [apply str_eqb_eq in E'; by intros [= <-]|done].
Qed.

#[local] Instance as_jose_name_inj : Inj (=) (=) as_jose_name.
Proof. by intros [] []. Qed.

Lemma canonical_int_Ok s min max n :
  (1 <= min)%N → canonical_int s min max = Ok n → (min <= len n)%N ∧ magnitude max n.
Proof.
  unfold canonical_int. intros Hmin (t & _ & H)%rbind_Ok. case_first_in H; [done|].
  apply rbind_Ok in H as (b & _ & H). case_first_in H; [done|]. injection H as <-. bool_to_prop.
  split; [done|]. split; [done|]. destruct b as [|x b]; [unfold len in H; cbn in H; lia|]. exists x, b. split; [done|]. by intros ->.
Qed.

Lemma fixed_coord_Ok s n : fixed_coord s = Ok n → len n = EC_COORD_LEN.
Proof.
  unfold fixed_coord. intros (t & _ & H)%rbind_Ok. case_first_in H; [done|].
  apply rbind_Ok in H as (b & _ & H). case_first_in H; [|done]. injection H as <-. by bool_to_prop.
Qed.

Lemma build_proof_key_Ok j a key :
  build_proof_key j (Some a) = Ok key → jwk_has_private j = false ∧ fit_material a (pk_material key).
Proof.
  unfold build_proof_key. intros H. case_first_in H; [done|]. split; [done|].
  apply rbind_Ok in H as (kty & _ & H). apply rbind_Ok in H as (ka & _ & H).
  case_first_in H; [done|]. do 2 (destruct (match _ with Some _ => _ | None => _ end); [done|]).
  apply negb_false_iff, bool_decide_eq_true in Heqb0 as <-. destruct a.
  - apply rbind_Ok in H as (n & Hn & H). apply rbind_Ok in H as (e & He & H). injection H as <-. cbn.
    split; [by apply canonical_int_Ok in Hn as [_ ?]|by apply canonical_int_Ok in He as [_ ?]].
  - case_first_in H; [done|]. apply rbind_Ok in H as (x & Hx%fixed_coord_Ok & H).
    apply rbind_Ok in H as (y & Hy%fixed_coord_Ok & H). injection H as <-. by exists x, y.
Qed.

Lemma verify_proof_Ok proof ctx now v :
  verify_proof proof ctx now = Ok v → ∃ p, proof_signed proof ctx (thumbprint v) p ∧ proof_claims_ok p ctx now v.
Proof.
  unfold verify_proof. intros H. case_first_in H; [done|]. case_first_in H; [done|].
  destruct (split x2e proof) as [|h [|p [|s [|]]]] eqn:Esp; try done.
  pose proof (proj1 (split_three _ _ _ _ _) Esp) as (Et & _). case_first_in H; [done|].
  apply rbind_Ok in H as (b & Hb%ok_or_Ok & H). apply rbind_Ok in H as (_ & _ & H).
  apply rbind_Ok in H as (header & Hh%ok_or_Ok & H). case_first_in H; [done|].
  destruct (ph_typ header) as [t|] eqn:Etyp; [|done]. case_first_in H; [done|].
  apply rbind_Ok in H as (a & [Ha Hin]%ok_or_Ok%opt_filter_Some & H).
  apply rbind_Ok in H as (jwk & Hj%ok_or_Ok & H). apply rbind_Ok in H as (key & Hk & H).
  apply rbind_Ok in H as (sig & Hs%ok_or_Ok & H). cbv zeta in H. case_first_in H; [done|].
  apply check_proof_claims_Ok in H as [Hc Htp]. bool_to_prop. rewrite Et, take_msg in Heqb4.
  apply bind_Some in Ha as (an & Han & ->%from_jose_name_Some).
  exists p. split; [|done]. split; [done|].
  exists h, s, b, header, t, jwk, a, key, sig. destruct (build_proof_key_Ok _ _ _ Hk). by split_and!.
Qed.

(** An accepted DPoP proof has the form and type of one, is signed with an allowed algorithm
    by the public key in its own header, whose thumbprint is returned, and its claims name
    the method and, in normal form, the URI of the request, the hash of the access token, a
    bounded identifier and an issue time inside the window around the clock. *)
Theorem verify_proof_sound proof ctx now v :
  verify_proof proof ctx now = Ok v → ∃ p, proof_signed proof ctx (thumbprint v) p ∧ proof_claims_ok p ctx now v.
Proof. apply verify_proof_Ok. Qed.

(** The result depends on the proof alone. *)
Lemma verify_proof_same proof ctx ctx' now now' v v' :
  verify_proof proof ctx now = Ok v → verify_proof proof ctx' now' = Ok v' → v = v'.
Proof.
  intros (p & [_ (h & s & b & hd & t & jwk & a & key & sig & Esp & _ & Hb & Hh & _ & _ & _ & Hj & Ha & _ & _ & _ & Hk & _ & _ & Ht)]
    & [(pl & c & u & Hp & Hc & Hjti & Hiat & _) _ _])%verify_proof_Ok
    (p' & [_ (h' & s' & b' & hd' & t' & jwk' & a' & key' & sig' & Esp' & _ & Hb' & Hh' & _ & _ & _ & Hj' & Ha' & _ & _ & _ & Hk' & _ & _ & Ht')]
    & [(pl' & c' & u' & Hp' & Hc' & Hjti' & Hiat' & _) _ _])%verify_proof_Ok.
  assert (a = a') as <- by (apply (inj as_jose_name); congruence). simplify_eq. destruct v, v'. cbn in *. simplify_eq. congruence.
Qed.

(** C32: Once the proof of a request has been verified and registered, a second use of the same
    proof that still verifies is refused as a replay, unless a request in between registered with a
    clock that was later than the clock of the second use and past the last second in which the proof
    is valid; so it is refused whenever the clocks do not go back, whatever is registered in between.
    That condition is exact: if no request in between uses the same key and identifier, the second
    use is refused as a replay if and only if no clock in between was past that second. *)
Theorem no_proof_accepted_twice proof ctx1 ctx2 now1 now2 v1 v2 between self :
  replay_wf self →
  verify_proof proof ctx1 now1 = Ok v1 → (register v1 now1 self).1 = Ok tt →
  verify_proof proof ctx2 now2 = Ok v2 → as_secs (past (ctx_window ctx2)) = past_secs self → (now2 <= u64_max)%N →
  let last_valid := saturating_add (iat v1) (past_secs self) in
  let second := (register v2 now2 (register_all between (register v1 now1 self).2)).1 in
  (second = Err Replayed ∨ Exists (λ c, (now2 < c.2)%N ∧ (last_valid < c.2)%N) between)
  ∧ (Forall (λ c, c.1.1 ≠ replay_key (thumbprint v1) (jti v1)) between →
     second = Err Replayed ↔ Forall (λ c, (c.2 <= last_valid)%N) between).
Proof.
  intros Hwf H1 Hr H2 Hpast Hmax. cbv zeta. pose proof (verify_proof_same _ _ _ _ _ _ _ H1 H2) as <-.
  apply verify_proof_Ok in H2 as (p & _ & [_ _ Hiat]). unfold register in *.
  set (key := replay_key (thumbprint v1) (jti v1)) in *. rewrite Hpast in Hiat.
  pose proof (register_fresh _ _ _ _ Hwf Hr) as Hk.
  destruct (register_key_refines key (iat v1) now1 self Hwf) as (_ & _ & Hwf' & _).
  set (e := saturating_add (iat v1) (past_secs self)) in *.
  assert (now2 <= e)%N as Hle by (unfold e, saturating_add; lia). split.
  - destruct (decide (Forall (λ c : bytes * N * N, (c.2 <= e)%N) between)) as [Hc|Hc].
    + left. destruct (register_all_held between _ _ _ Hwf' Hk Hc) as (Hwf2 & Hk2 & _).
      exact (proj2 (register_held key (iat v1) now2 _ _ _ Hwf2 Hk2 Hle) eq_refl).
    + right. apply not_Forall_Exists in Hc; [|intros; apply _]. eapply Exists_impl; [exact Hc|]. cbn. lia.
  - intros Hne. destruct (register_all_other between _ _ _ Hwf' Hk Hne) as [Hwf2 Hi].
    rewrite register_replayed by done. split.
    + intros [e' He']. apply dec_stable. intros Hc. apply Hi in Hc. apply map_lookup_filter_Some in He' as [He' _]. congruence.
    + intros Hc. destruct (register_all_held between _ _ _ Hwf' Hk Hc) as (_ & Hk2 & _). exists e.
      by apply map_lookup_filter_Some.
Qed.

(** The remaining case on concrete values: a later clock evicts the proof, and a request that read
    its clock before the second changed still finds it in its window. *)
Lemma replay_needs_monotone_clock :
  let store := ReplayStore_new IatWindow_default in
  let s1 := (register_key (lit "a") 40 90 store).2 in
  let s2 := (register_key (lit "b") 100 101 s1).2 in
  (register_key (lit "a") 40 90 store).1 = Ok tt
  ∧ (100 - as_secs (past IatWindow_default) <= 40)%N ∧ (register_key (lit "a") 40 100 s2).1 = Ok tt.
Proof. vm_compute. by split_and!. Qed.

End dpop.

(** ** Instances *)

Definition demo_ctx : ProofContext :=
  {| method := lit "GET"; htu := lit "https://api/x"; access_token := lit "tok"; ctx_algs := [Es256];
     ctx_window := IatWindow_default |}.
Definition demo_thumbprint : bytes := thumbprint_of (JC := demo_crates) (ec_json (JC := demo_crates) (replicate 32 x01) (replicate 32 x02)).
Definition demo_proof : VerifiedProof := {| thumbprint := demo_thumbprint; jti := lit "j1"; iat := 40 |}.

Lemma demo_proof_verifies now :
  now = 90%N ∨ now = 95%N → verify_proof (JC := demo_crates) (lit "{dp}.{pc}.sig") demo_ctx now = Ok demo_proof.
Proof. intros [-> | ->]; vm_compute; reflexivity. Qed.

Lemma verify_proof_sound_witness :
  verify_proof (JC := demo_crates) (lit "{dp}.{pc}.sig") demo_ctx 90 = Ok demo_proof
  ∧ ∃ p, proof_signed (JC := demo_crates) (lit "{dp}.{pc}.sig") demo_ctx (thumbprint demo_proof) p
         ∧ proof_claims_ok (JC := demo_crates) p demo_ctx 90 demo_proof.
Proof.
  pose proof (demo_proof_verifies 90 (or_introl eq_refl)) as H.
  exact (conj H (verify_proof_sound (JC := demo_crates) _ _ _ _ H)).
Defined.

Lemma replay_store_refines_witness :
  replay_wf (ReplayStore_new IatWindow_default)
  ∧ (let r := register_key (lit "a") 40 90 (ReplayStore_new IatWindow_default) in
     let s := spec_register 131072 60 (lit "a") 40 90 ∅ in
     r.1 = s.1 ∧ rmap (rstate r.2) = s.2 ∧ replay_wf r.2 ∧ past_secs r.2 = 60%N ∧ capacity r.2 = 131072%N).
Proof.
  exact (conj (replay_wf_new IatWindow_default)
           (replay_store_refines (lit "a") 40 90 _ (replay_wf_new IatWindow_default))).
Defined.

Lemma no_proof_accepted_twice_witness :
  (register (JC := demo_crates) demo_proof 90 (ReplayStore_new IatWindow_default)).1 = Ok tt
  ∧ (register (JC := demo_crates) demo_proof 95
      (register_all [(lit "b", 90, 92)%N] (register (JC := demo_crates) demo_proof 90 (ReplayStore_new IatWindow_default)).2)).1
    = Err Replayed.
Proof.
  assert ((register (JC := demo_crates) demo_proof 90 (ReplayStore_new IatWindow_default)).1 = Ok tt) as Hr
    by (vm_compute; reflexivity).
  split; [exact Hr|].
  refine (proj2 (proj2 (no_proof_accepted_twice (JC := demo_crates) (lit "{dp}.{pc}.sig") demo_ctx demo_ctx 90 95 demo_proof demo_proof
    [(lit "b", 90, 92)%N] _ (replay_wf_new IatWindow_default) _ Hr _ _ _) _) _).
  - exact (demo_proof_verifies 90 (or_introl eq_refl)).
  - exact (demo_proof_verifies 95 (or_intror eq_refl)).
  - reflexivity.
  - vm_compute. discriminate.
  - constructor; [vm_compute; discriminate|constructor].
  - constructor; [vm_compute; discriminate|constructor].
Defined.
