(* ===== verification/OriginSpec.v ===== *)
(** * Public origins and expected URIs are normal forms

    What [parse_origin] and [normalize_path] produce they leave as it is, so the URI that an
    authenticator expects is accepted in a proof; and no path in normal form has a dot segment. *)

From S2P Require Import Prelude Text Utf8 Radix Extensions Request Response Gate ServerConfig Jwt Dpop.

(** ** Paths *)

Lemma is_hex_upper b : is_ascii_hexdigit b = true →
  is_ascii_hexdigit (to_ascii_uppercase b) = true ∧ to_ascii_uppercase (to_ascii_uppercase b) = to_ascii_uppercase b
  ∧ in_range 33 126 (to_ascii_uppercase b) = true ∧ to_ascii_uppercase b ≠ x5c ∧ to_ascii_uppercase b ≠ x25
  ∧ to_ascii_uppercase b ≠ x3f ∧ to_ascii_uppercase b ≠ x23 ∧ to_ascii_uppercase b ≠ x2f.
Proof. by destruct b. Qed.

(** One step of the copying loop. *)
Inductive normal_bytes : bytes → bytes → Prop :=
| nb_nil : normal_bytes [] []
| nb_byte b s o : in_range 33 126 b = true → b ≠ x5c → b ≠ x25 → normal_bytes s o → normal_bytes (b :: s) (b :: o)
| nb_escape h1 h2 s o : is_ascii_hexdigit h1 = true → is_ascii_hexdigit h2 = true → normal_bytes s o →
    normal_bytes (x25 :: h1 :: h2 :: s) (x25 :: to_ascii_uppercase h1 :: to_ascii_uppercase h2 :: o).

Lemma normalize_bytes_Some s o : normalize_bytes s = Some o ↔ normal_bytes s o.
Proof.
  split.
  - revert o. induction s as [s IH] using (induction_ltof1 _ (@length byte)). unfold ltof in IH. intros o H.
    destruct s as [|b s]; cbn in H; [injection H as <-; constructor|].
    destruct (_ || _) eqn:E; [done|]. apply orb_false_elim in E as [E1%negb_false_iff E2%beqb_neq].
    destruct (beqb b x25) eqn:E3.
    + apply beqb_eq in E3 as ->. destruct s as [|h1 [|h2 s]]; [done..|].
      destruct (_ || _) eqn:E; [done|]. apply orb_false_elim in E as [H1%negb_false_iff H2%negb_false_iff].
      apply fmap_Some in H as (o' & H & ->). constructor; [done..|]. apply IH; [cbn; lia|done].
    + apply fmap_Some in H as (o' & H & ->). apply beqb_neq in E3. constructor; [done..|]. apply IH; [cbn; lia|done].
  - induction 1 as [|b s o H1 H2 H3 _ IH|h1 h2 s o H1 H2 _ IH]; cbn [normalize_bytes]; [done| |].
    + apply beqb_neq in H2, H3. by rewrite H1, H2, H3, IH.
    + rewrite H1, H2. cbn. by rewrite IH.
Qed.

Lemma normal_bytes_idem s o : normal_bytes s o → normal_bytes o o.
Proof.
  induction 1 as [|b s o H1 H2 H3 _ IH|h1 h2 s o H1 H2 _ IH]; [constructor|by constructor|].
  destruct (is_hex_upper _ H1) as (U1 & E1 & _). destruct (is_hex_upper _ H2) as (U2 & E2 & _).
  rewrite <- E1 at 2. rewrite <- E2 at 2. by constructor.
Qed.

Lemma normal_bytes_absent c s o : (c = x3f ∨ c = x23) → normal_bytes s o → contains c s = false → contains c o = false.
Proof.
  intros Hc. rewrite !contains_false. induction 1 as [|b s o H1 H2 H3 _ IH|h1 h2 s o H1 H2 _ IH]; [done| |].
  - intros [Hb Hs]%Forall_cons. constructor; auto.
  - intros (_ & (_ & (_ & Hs)%Forall_cons)%Forall_cons)%Forall_cons.
    destruct (is_hex_upper _ H1) as (_ & _ & _ & _ & _ & A1 & A2 & _).
    destruct (is_hex_upper _ H2) as (_ & _ & _ & _ & _ & B1 & B2 & _).
    repeat constructor; [by destruct Hc as [-> | ->]..|auto].
Qed.

(** A path in normal form, as it leaves [normalize_path]. *)
Record normal_path (o : bytes) : Prop := {
  np_slash : starts_with [x2f] o = true;
  np_bytes : normal_bytes o o;
  np_dots : Forall (λ seg, is_dots seg = false) (split x2f o);
}.

Lemma starts_slash s : starts_with [x2f] s = true ↔ ∃ t, s = x2f :: t.
Proof. rewrite starts_with_spec. done. Qed.

Lemma normalize_path_Some p o :
  normalize_path p = Some o →
  normal_path o ∧ (p = [] ∧ o = [x2f] ∨ starts_with [x2f] p = true ∧ normal_bytes p o).
Proof.
  unfold normalize_path. destruct p as [|c p].
  { intros [= <-]. split; [|by left]. split; [done| |by repeat constructor].
    by apply (nb_byte x2f [] []); [..|constructor]. }
  destruct (beqb c x2f) eqn:Ec; [|done]. cbn [negb]. apply beqb_eq in Ec as ->.
  destruct (normalize_bytes (x2f :: p)) as [o'|] eqn:E; [|done]. apply normalize_bytes_Some in E.
  destruct (existsb _ _) eqn:Ed; [done|]. intros [= <-].
  split; [|right; split; [by apply starts_slash; exists p|done]]. split.
  - apply starts_slash. inversion E; subst; by eexists.
  - by eapply normal_bytes_idem.
  - apply List.Forall_forall. intros seg Hin. destruct (is_dots seg) eqn:E'; [|done].
    rewrite (proj2 (existsb_exists _ _)) in Ed; [done|by exists seg].
Qed.

Lemma normalize_path_normal o : normal_path o → normalize_path o = Some o.
Proof.
  intros [(t & ->)%starts_slash Hb Hd]. unfold normalize_path. rewrite beqb_refl. cbn [negb].
  apply normalize_bytes_Some in Hb. rewrite Hb.
  destruct (existsb _ _) eqn:E; [|done]. apply existsb_exists in E as (seg & Hin & Hs).
  rewrite List.Forall_forall in Hd. by rewrite Hd in Hs.
Qed.

(** ** Origins *)

Lemma split_at_first_app p a t :
  Forall (λ c, p c = false) a → (∀ c t', t = c :: t' → p c = true) → split_at_first p (a ++ t) = (a, t).
Proof.
  intros Ha Ht. induction Ha as [|c a Hc Ha IH]; cbn; [|by rewrite Hc, IH].
  destruct t as [|c t]; [done|]. cbn. by rewrite (Ht c t).
Qed.

Lemma split_at_first_eq p s a t :
  split_at_first p s = (a, t) → s = a ++ t ∧ Forall (λ c, p c = false) a ∧ (∀ c t', t = c :: t' → p c = true).
Proof.
  revert a t. induction s as [|c s IH]; intros a t; cbn; [by intros [= <- <-]|].
  destruct (p c) eqn:E; [intros [= <- <-]; split_and!; [done..|]; by intros ?? [= <- _]|].
  destruct (split_at_first p s) as [a' t'] eqn:Es. intros [= <- <-]. destruct (IH a' t' eq_refl) as (-> & Ha & Ht).
  split_and!; [done|by constructor|done].
Qed.

Lemma digits_rev_length fuel k n : (n < 10 ^ N.of_nat (S k))%N → length (digits_rev fuel 10 n) ≤ S k.
Proof.
  revert k n. induction fuel as [|fuel IH]; intros k n Hn; cbn [digits_rev length]; [lia|].
  destruct (N.eqb_spec (n / 10) 0) as [|Hq]; [cbn; lia|]. destruct k as [|k].
  { destruct Hq. apply N.div_small. done. }
  assert (n / 10 < 10 ^ N.of_nat (S k))%N as Hlt; [|specialize (IH k _ Hlt); lia].
  apply N.Div0.div_lt_upper_bound. rewrite <- N.pow_succ_r'. by replace (N.succ _) with (N.of_nat (S (S k))) by lia.
Qed.

Lemma to_decimal_u16 n : (n <= u16_max)%N → (len (to_decimal n) <= 5)%N.
Proof.
  intros Hn. unfold len, to_decimal, to_radix. rewrite length_reverse.
  pose proof (digits_rev_length (S (N.to_nat (N.log2 n))) 4 n) as H. unfold u16_max in Hn.
  change (10 ^ N.of_nat 5)%N with 100000%N in H. lia.
Qed.

(** The text of a port after its host, and what [parse_port] makes of it. *)
Definition port_text (port : option N) : bytes := match port with Some n => x3a :: to_decimal n | None => [] end.
Definition port_ok (default_port : N) (port : option N) : Prop :=
  match port with Some n => n ≠ 0%N ∧ n ≠ default_port ∧ (n <= u16_max)%N | None => True end.

Lemma parse_digits_le radix max acc s v : (acc <= max)%N → parse_digits radix max acc s = Some v → (v <= max)%N.
Proof.
  revert acc. induction s as [|c s IH]; intros acc Hacc; cbn; [intros [= <-]; lia|].
  destruct (to_digit radix c) as [d|]; [|done]. destruct (N.ltb_spec max (acc * radix)); [done|].
  destruct (N.ltb_spec max (acc * radix + d)); [done|]. by apply IH.
Qed.

Lemma parse_uint_le max s v : parse_uint max s = Some v → (v <= max)%N.
Proof.
  unfold parse_uint, from_str_radix. intros H.
  destruct s as [|c [|d s]]; [done|..]; destruct (beqb c x2b); try done; eapply parse_digits_le in H; try done; lia.
Qed.

Lemma parse_port_ok d s port : parse_port d s = Ok port → port_ok d port.
Proof.
  unfold parse_port. destruct s as [p|]; [|by intros [= <-]]. intros H. case_first_in H; [done|].
  apply rbind_Ok in H as (n & Hn%ok_or_Ok & H). case_first_in H; [done|]. injection H as <-.
  destruct (N.eqb_spec n d); [done|]. cbn. bool_to_prop. split_and!; [done..|]. by eapply parse_uint_le.
Qed.

Lemma parse_port_text d port :
  port_ok d port → parse_port d (match port with Some n => Some (to_decimal n) | None => None end) = Ok port.
Proof.
  destruct port as [n|]; [|done]. intros (Hz & Hd & Hn). unfold parse_port.
  rewrite bool_decide_false by apply to_radix_not_nil. rewrite to_decimal_digits.
  rewrite (proj2 (N.ltb_ge _ _) (to_decimal_u16 n Hn)). cbn [orb negb].
  rewrite (parse_to_decimal u16_max n Hn). cbn. by rewrite (proj2 (N.eqb_neq _ _) Hz), (proj2 (N.eqb_neq _ _) Hd).
Qed.

Definition bracket_char (b : byte) : bool := is_ascii_hexdigit b || beqb b x3a || beqb b x2e.
Definition name_char (b : byte) : bool := is_ascii_alphanumeric b || beqb b x2e || beqb b x2d.

Definition normal_host (host : bytes) : Prop :=
  (∃ inner, host = x5b :: inner ++ [x5d] ∧ inner ≠ [] ∧ contains x3a inner = true
     ∧ forallb bracket_char inner = true ∧ str_to_ascii_lowercase inner = inner)
  ∨ (host ≠ [] ∧ (len host <= 253)%N ∧ forallb name_char host = true ∧ str_to_ascii_lowercase host = host).

Definition normal_origin (o : bytes) : Prop :=
  ∃ scheme d host port, (scheme = lit "https" ∧ d = 443%N ∨ scheme = lit "http" ∧ d = 80%N)
    ∧ normal_host host ∧ port_ok d port ∧ o = format_origin scheme host port.

(** What may follow an authority. *)
Definition tail_ok (t : bytes) : Prop := ∀ c t', t = c :: t' → ends_authority c = true.

Lemma lower_idem s : str_to_ascii_lowercase (str_to_ascii_lowercase s) = str_to_ascii_lowercase s.
Proof. unfold str_to_ascii_lowercase. rewrite <- list_fmap_compose. apply list_fmap_ext. intros _ x _. by destruct x. Qed.

Lemma lower_forallb p s :
  (∀ b, p b = true → p (to_ascii_lowercase b) = true) → forallb p s = true → forallb p (str_to_ascii_lowercase s) = true.
Proof.
  intros Hp. rewrite !forallb_forall. intros Hs x. unfold str_to_ascii_lowercase.
  intros (y & -> & Hy)%list_elem_of_In%list_elem_of_fmap. apply Hp, Hs. by apply list_elem_of_In.
Qed.

Lemma bracket_host_normal a host port :
  starts_with [x5b] a = true → bracket_host a = Ok (host, port) → normal_host host.
Proof.
  intros (t & ->)%starts_with_spec. unfold bracket_host. intros (i & Hi%ok_or_Ok & H)%rbind_Ok.
  destruct (negb _) eqn:Hok; [done|]. apply rbind_Ok in H as (p & _ & H). injection H as <- <-. left.
  apply position_Some in Hi as (l1 & x & l2 & E & <- & Hx%beqb_eq & Hl). subst x.
  destruct l1 as [|y l1]; [done|]. cbn [app] in E. injection E as <- ->.
  cbn [length take drop app] in Hok. rewrite take_app_length in Hok. bool_to_prop.
  exists (str_to_ascii_lowercase l1). split_and!.
  - cbn [length app]. assert (take (S (length l1)) (l1 ++ x5d :: l2) = l1 ++ [x5d]) as ->.
    { rewrite cons_middle, (assoc_L (++)). apply take_app_length'. rewrite length_app. cbn. lia. }
    unfold str_to_ascii_lowercase. by rewrite fmap_app.
  - by destruct l1.
  - apply contains_spec. apply contains_spec in H1. unfold str_to_ascii_lowercase. apply list_elem_of_fmap. by exists x3a.
  - apply lower_forallb; [by intros []|done].
  - apply lower_idem.
Qed.

Lemma named_host_normal a host port : named_host a = Ok (host, port) → normal_host host.
Proof.
  unfold named_host. destruct (match rsplit_once x3a a with Some _ => _ | None => _ end) as [h p].
  intros H. case_first_in H; [done|]. injection H as <- <-. right. bool_to_prop.
  unfold len, str_to_ascii_lowercase in *. rewrite length_fmap. split_and!; [by destruct h|done| |apply lower_idem].
  apply lower_forallb; [by intros []|done].
Qed.

Lemma parse_origin_normal s o rest : parse_origin s = Ok (o, rest) → normal_origin o ∧ tail_ok rest.
Proof.
  unfold parse_origin. intros ([sch after] & _ & H)%rbind_Ok. apply rbind_Ok in H as ([sc d] & Hsc & H).
  destruct (split_at_first _ _) as [au re] eqn:Es. apply split_at_first_eq in Es as (_ & _ & Ht).
  case_first_in H; [done|]. apply rbind_Ok in H as ([host port] & Hh & H).
  apply rbind_Ok in H as (p & Hp%parse_port_ok & H). injection H as <- <-. split; [|done].
  exists sc, d, host, p. split_and!; [| |done|done].
  - case_first_in Hsc; [injection Hsc as <- <-; by left|]. case_first_in Hsc; [injection Hsc as <- <-; by right|done].
  - case_first_in Hh; [by eapply bracket_host_normal|by eapply named_host_normal].
Qed.

Lemma Forall_of_forallb (p q : byte → bool) s :
  (∀ b, p b = true → q b = false) → forallb p s = true → Forall (λ b, q b = false) s.
Proof.
  intros Hpq. rewrite forallb_forall, List.Forall_forall. intros H b Hb. apply Hpq. by apply H.
Qed.

Lemma port_text_absent (q : byte → bool) port :
  q x3a = false → (∀ b, is_ascii_digit b = true → q b = false) → Forall (λ b, q b = false) (port_text port).
Proof.
  intros Hc Hd. destruct port as [n|]; [|constructor]. constructor; [done|].
  eapply Forall_of_forallb; [exact Hd|apply to_decimal_digits].
Qed.

Lemma normal_host_absent (q : byte → bool) host :
  q x5b = false → q x5d = false → (∀ b, bracket_char b = true → q b = false) → (∀ b, name_char b = true → q b = false) →
  normal_host host → Forall (λ b, q b = false) host.
Proof.
  intros H1 H2 H3 H4 [(inner & -> & _ & _ & Hc & _)|(_ & _ & Hc & _)].
  - constructor; [done|]. apply Forall_app. split; [exact (Forall_of_forallb _ _ _ H3 Hc)|by repeat constructor].
  - exact (Forall_of_forallb _ _ _ H4 Hc).
Qed.

Lemma contains_Forall c s : Forall (λ b, beqb c b = false) s → contains c s = false.
Proof. intros H. apply contains_false. eapply Forall_impl; [exact H|]. cbn. intros b Hb ->. by rewrite beqb_refl in Hb. Qed.

Lemma contains_reverse c s : contains c (reverse s) = contains c s.
Proof.
  destruct (contains c s) eqn:E.
  - apply contains_spec. apply contains_spec in E. by apply elem_of_reverse.
  - apply contains_false. apply contains_false in E. by apply Forall_reverse.
Qed.

Lemma rsplit_once_Some c s a b : rsplit_once c s = Some (a, b) ↔ s = a ++ c :: b ∧ contains c b = false.
Proof.
  unfold rsplit_once. destruct (split_once c (reverse s)) as [[b' a']|] eqn:E.
  - apply split_once_Some in E as [E Hb]. split.
    + intros [= <- <-]. rewrite contains_reverse. split; [|done].
      rewrite <- (reverse_involutive s), E, reverse_app, reverse_cons, <- (assoc_L (++)). done.
    + intros [-> Hc]. assert (split_once c (reverse (a ++ c :: b)) = Some (reverse b, reverse a)) as E2.
      { apply split_once_Some. rewrite contains_reverse, reverse_app, reverse_cons, <- (assoc_L (++)). done. }
      assert (split_once c (reverse (a ++ c :: b)) = Some (b', a')) as E3 by by apply split_once_Some.
      rewrite E2 in E3. injection E3 as <- <-. by rewrite !reverse_involutive.
  - split; [done|]. intros [-> _]. apply split_once_None in E.
    rewrite contains_reverse, contains_app in E. cbn in E. by rewrite beqb_refl, orb_true_r in E.
Qed.

Definition port_str (port : option N) : option bytes := match port with Some n => Some (to_decimal n) | None => None end.

Lemma digits_no_colon n : contains x3a (to_decimal n) = false.
Proof. apply contains_Forall. eapply Forall_of_forallb; [|apply to_decimal_digits]. by intros []. Qed.

Lemma named_host_text host port :
  host ≠ [] → (len host <= 253)%N → forallb name_char host = true → str_to_ascii_lowercase host = host →
  named_host (host ++ port_text port) = Ok (host, port_str port).
Proof.
  intros Hn Hl Hc Hlow. unfold named_host.
  assert (contains x3a host = false) as Hno.
  { apply contains_Forall. eapply Forall_of_forallb; [|exact Hc]. by intros []. }
  assert (match rsplit_once x3a (host ++ port_text port) with Some (h, p) => (h, Some p) | None => (host ++ port_text port, None) end
    = (host, port_str port)) as ->.
  { destruct port as [n|]; cbn [port_text port_str].
    - by rewrite (proj2 (rsplit_once_Some x3a _ host (to_decimal n))) by (split; [done|apply digits_no_colon]).
    - rewrite app_nil_r. destruct (rsplit_once x3a host) as [[a b]|] eqn:E; [|done].
      apply rsplit_once_Some in E as [-> _]. rewrite contains_app in Hno. cbn in Hno. by rewrite orb_true_r in Hno. }
  rewrite bool_decide_false by done. rewrite (proj2 (N.leb_le _ _) Hl). cbn [negb andb].
  change (forallb (λ b, is_ascii_alphanumeric b || beqb b x2e || beqb b x2d) host) with (forallb name_char host).
  by rewrite Hc, Hlow.
Qed.

Lemma bracket_host_text inner port :
  inner ≠ [] → contains x3a inner = true → forallb bracket_char inner = true → str_to_ascii_lowercase inner = inner →
  bracket_host ((x5b :: inner ++ [x5d]) ++ port_text port) = Ok (x5b :: inner ++ [x5d], port_str port).
Proof.
  intros Hn Hcol Hc Hlow. unfold bracket_host.
  assert ((x5b :: inner ++ [x5d]) ++ port_text port = (x5b :: inner) ++ x5d :: port_text port) as ->.
  { cbn. by rewrite <- (assoc_L (++)). }
  rewrite position_app_cons; [|constructor; [done|]; eapply Forall_of_forallb; [|exact Hc]; by intros []|done].
  cbn [ok_or rbind]. cbv zeta. rewrite take_app_length. cbn [drop]. rewrite !drop_0, bool_decide_false by done. rewrite Hcol. cbn [negb andb].
  change (forallb _ inner) with (forallb bracket_char inner). rewrite Hc. cbn [negb].
  assert (drop (S (length (x5b :: inner))) ((x5b :: inner) ++ x5d :: port_text port) = port_text port) as ->.
  { rewrite cons_middle, (assoc_L (++)). apply drop_app_length'. rewrite length_app. cbn. lia. }
  assert (take (S (length (x5b :: inner))) ((x5b :: inner) ++ x5d :: port_text port) = x5b :: inner ++ [x5d]) as ->.
  { rewrite cons_middle, (assoc_L (++)). apply take_app_length'. cbn. rewrite length_app. cbn. lia. }
  assert (str_to_ascii_lowercase (x5b :: inner ++ [x5d]) = x5b :: inner ++ [x5d]) as ->.
  { unfold str_to_ascii_lowercase in *. cbn. by rewrite fmap_app, Hlow. }
  by destruct port.
Qed.

Lemma parse_origin_text o t : normal_origin o → tail_ok t → parse_origin (o ++ t) = Ok (o, t).
Proof.
  intros (sc & d & host & port & Hsc & Hh & Hp & ->) Ht. unfold parse_origin, format_origin, split_once_str.
  fold (port_text port). rewrite <- !(assoc_L (++)).
  assert (contains x3a sc = false) as Hno by (by destruct Hsc as [[-> _]|[-> _]]).
  change SCHEME_SEP with (x3a :: [x2f; x2f]). rewrite find_sub_first by done.
  rewrite take_app_length. cbn [ok_or rbind].
  rewrite (assoc_L (++) sc), drop_app_length' by (rewrite length_app; done).
  assert (∀ A (k : bytes * N → result A OriginError), rbind (if eq_ignore_ascii_case sc (lit "https") then Ok (lit "https", 443%N)
    else if eq_ignore_ascii_case sc (lit "http") then Ok (lit "http", 80%N) else Err InvalidScheme) k = k (sc, d)) as Hk.
  { intros A k. destruct Hsc as [[-> ->]|[-> ->]]; reflexivity. }
  rewrite Hk, (assoc_L (++) host), split_at_first_app; [|..|done].
  2:{ apply Forall_app. split; [|by apply port_text_absent; [|by intros []]].
      apply normal_host_absent; [done..|by intros []|by intros []|done]. }
  rewrite contains_app, (contains_Forall x40 host), (contains_Forall x40 (port_text port));
    [|by apply port_text_absent; [|by intros []]
     |apply normal_host_absent; [done..|by intros []|by intros []|done]].
  cbn [orb].
  assert ((if starts_with [x5b] (host ++ port_text port) then bracket_host (host ++ port_text port)
    else named_host (host ++ port_text port)) = Ok (host, port_str port)) as ->.
  { destruct Hh as [(inner & -> & Hn & Hcol & Hc & Hlow)|(Hn & Hl & Hc & Hlow)].
    - by apply bracket_host_text.
    - destruct (starts_with [x5b] _) eqn:E; [|by apply named_host_text].
      apply starts_with_spec in E as (r & E). destruct host as [|c host]; [done|]. injection E as -> _. done. }
  cbn [rbind]. unfold port_str. by rewrite (parse_port_text d port Hp).
Qed.

Lemma before_first_absent c s : contains c s = false → before_first c s = s.
Proof. intros H. unfold before_first. by rewrite split_no_occ. Qed.

(** The URI that an authenticator expects of a proof is its own normal form: it is the public
    origin, lower case and without the default port, and the path with upper-case escapes and
    without a dot segment, plain or escaped; and a proof that names it is accepted by the
    comparison, whatever the origin was configured as and the request target was. *)
Theorem expected_htu_normal origin self path h :
  PublicOrigin_new origin = Ok self → expected_htu path self = Ok h →
  (∃ p, h = self ++ p ∧ normal_path p ∧ normal_bytes path p) ∧ normal_origin self
  ∧ normalize_proof_htu h = Some h.
Proof.
  unfold PublicOrigin_new, expected_htu. intros Ho H. case_first_in Ho; [done|].
  apply rbind_Ok in Ho as ([n rest] & [Hno _]%parse_origin_normal & Ho).
  assert (n = self) as -> by (repeat case_match; congruence).
  destruct (negb _ || _ || _) eqn:E; [done|]. apply rbind_Ok in H as (p & Hp%ok_or_Ok & H). cbv zeta in H.
  case_first_in H; [done|]. injection H as <-. bool_to_prop.
  apply normalize_path_Some in Hp as [Hn [[-> _]|[_ Hb]]].
  { match goal with H : starts_with _ [] = true |- _ => by apply starts_slash in H as (? & ?) end. }
  split_and!; [by exists p|done|]. unfold normalize_proof_htu. rewrite (proj2 (N.ltb_ge _ _)) by done.
  destruct Hn as [Hs Hbb Hd]. assert (normal_path p) as Hn by done. apply starts_slash in Hs as (t & Ep).
  rewrite parse_origin_text; [|done|rewrite Ep; by intros ?? [= <- _]].
  assert (contains x23 p = false) as H23 by (eapply normal_bytes_absent; [by right|exact Hb|done]).
  assert (contains x3f p = false) as H3f by (eapply normal_bytes_absent; [by left|exact Hb|done]).
  by rewrite (before_first_absent x23 p), (before_first_absent x3f p), normalize_path_normal.
Qed.

Lemma expected_htu_normal_witness :
  PublicOrigin_new (lit "HTTPS://Api.Example:443/") = Ok (lit "https://api.example")
  ∧ expected_htu (lit "/a%2fb") (lit "https://api.example") = Ok (lit "https://api.example/a%2Fb")
  ∧ (∃ p, lit "https://api.example/a%2Fb" = lit "https://api.example" ++ p ∧ normal_path p ∧ normal_bytes (lit "/a%2fb") p)
  ∧ normal_origin (lit "https://api.example")
  ∧ normalize_proof_htu (lit "https://api.example/a%2Fb") = Some (lit "https://api.example/a%2Fb").
Proof.
  assert (PublicOrigin_new (lit "HTTPS://Api.Example:443/") = Ok (lit "https://api.example")) as H1 by (vm_compute; reflexivity).
  assert (expected_htu (lit "/a%2fb") (lit "https://api.example") = Ok (lit "https://api.example/a%2Fb")) as H2
    by (vm_compute; reflexivity).
  exact (conj H1 (conj H2 (expected_htu_normal _ _ _ _ H1 H2))).
Defined.

Example normalize_path_refuses :
  normalize_path (lit "/a/%2e%2e/b") = None ∧ normalize_path (lit "/a/.") = None ∧ normalize_path (lit "/a\b") = None
  ∧ normalize_path (lit "/..a") = Some (lit "/..a").
Proof. vm_compute. auto. Qed.
