(* ===== verification/JwtAuth.v ===== *)
(** * [plugin-jwt]: the authenticator and the gate

    [auth.rs], [notify.rs], [gate.rs] and [SharedKeySet] of [jwks.rs].  Calls of
    [authenticate_at] run concurrently on the shared state: [step] makes the next access of a
    call to it (a lock section or an atomic operation) with the local work that follows. *)

From S2P Require Import Prelude Text Utf8 Radix Extensions Request Response Error Gate ServerConfig Jwt Dpop.

Section auth.
Context {AT : AnyTypes} {JC : JwtCrates}.

(** ** Credentials *)

Definition CACHE_CAPACITY : nat := 1024.

(** [value[i..].trim_start_matches(' ')]. *)
Definition skip_spaces (s : bytes) : bytes := trim_start_matches (beqb x20) s.

Definition authorization (head : RequestHead) : option (bytes * bytes) :=
  match List.filter (λ '(n, _), eq_ignore_ascii_case n (lit "authorization")) (headers head) with
  | [(_, value)] =>
      let! scheme_end := position (beqb x20) value else None in
      let token := skip_spaces (drop scheme_end value) in
      if bool_decide (token = []) then None else Some (take scheme_end value, token)
  | _ => None
  end.

Definition bearer_token (head : RequestHead) : option bytes :=
  let! (scheme, token) := authorization head else None in
  if eq_ignore_ascii_case scheme (lit "bearer") then Some token else None.

Inductive Scheme := Bearer | DpopScheme.
#[export] Instance Scheme_eq_dec : EqDecision Scheme.
Proof. solve_decision. Defined.

Definition credentials (head : RequestHead) : option (Scheme * bytes) :=
  let! (scheme, token) := authorization head else None in
  if eq_ignore_ascii_case scheme (lit "bearer") then Some (Bearer, token)
  else if eq_ignore_ascii_case scheme (lit "dpop") then Some (DpopScheme, token)
  else None.

(** ** [notify.rs] *)

Definition DEFAULT_UNKNOWN_KEY_MIN_INTERVAL : Duration := from_secs 10.

(** [AtomicU64::fetch_add]: wrapping. *)
Definition wrapping_succ (n : N) : N := ((n + 1) mod 2 ^ 64)%N.

Record NotifyThrottle := { next_allowed_unix : N; suppressed : N; interval_secs : N }.
Definition NotifyThrottle_new (interval : Duration) : NotifyThrottle :=
  {| next_allowed_unix := 0; suppressed := 0; interval_secs := as_secs interval |}.

(** The tests of [try_acquire] before its compare-and-exchange, on the value [next] that was loaded. *)
Definition try_acquire_refused (next now_unix : N) (self : NotifyThrottle) : bool :=
  (next =? u64_max)%N && (0 <? interval_secs self)%N || (now_unix <? next)%N.

(** The compare-and-exchange: whether it succeeds. *)
Definition try_acquire_cas (next now_unix : N) (self : NotifyThrottle) : bool * NotifyThrottle :=
  if (next_allowed_unix self =? next)%N
  then (true, {| next_allowed_unix := saturating_add now_unix (interval_secs self);
                 suppressed := suppressed self; interval_secs := interval_secs self |})
  else (false, self).

Definition suppress (self : NotifyThrottle) : NotifyThrottle :=
  {| next_allowed_unix := next_allowed_unix self; suppressed := wrapping_succ (suppressed self);
     interval_secs := interval_secs self |}.
Definition swap_suppressed (self : NotifyThrottle) : N * NotifyThrottle :=
  (suppressed self, {| next_allowed_unix := next_allowed_unix self; suppressed := 0; interval_secs := interval_secs self |}).

(** ** [TokenCache] *)

Definition cache_key (token : bytes) : bytes := sha256 token.

(** [verified_against]: an [Arc<KeySet>], here its index among the sets published so far. *)
Record Entry := { e_claims : Claims; verified_against : nat }.
Record CacheState := { map : gmap bytes Entry; order : list bytes }.
Definition TokenCache_new : CacheState := {| map := ∅; order := [] |}.

Inductive Lookup := Hit (c : Claims) | Invalid (e : VerifyError) | Miss.

Definition cache_get (key : bytes) (current : nat) (now leeway : N) (self : CacheState) : Lookup :=
  match map self !! key with
  | None => Miss
  | Some entry =>
      if negb (verified_against entry =? current) then Miss
      else
        let c := e_claims entry in
        if (exp c <=? now - leeway)%N then Invalid Expired
        else
          match nbf c with
          | Some nbf => if (saturating_add now leeway <? nbf)%N then Invalid NotYetValid else Hit c
          | None => Hit c
          end
  end.

Definition cache_remove (key : bytes) (self : CacheState) : CacheState :=
  match map self !! key with
  | Some _ => {| map := delete key (map self); order := List.filter (λ k, negb (bool_decide (k = key))) (order self) |}
  | None => self
  end.

(** The loop that removes the oldest entries. *)
Fixpoint evict_oldest (map : gmap bytes Entry) (order : list bytes) : CacheState :=
  if CACHE_CAPACITY <=? size map then
    match order with
    | [] => {| map := map; order := [] |}
    | oldest :: order => evict_oldest (delete oldest map) order
    end
  else {| map := map; order := order |}.

Definition cache_insert (key : bytes) (claims : Claims) (keys : nat) (now leeway : N) (self : CacheState) : CacheState :=
  let entry := {| e_claims := claims; verified_against := keys |} in
  match map self !! key with
  | Some _ => {| map := <[key := entry]> (map self); order := order self |}
  | None =>
      let g :=
        if CACHE_CAPACITY <=? size (map self) then
          let map' := filter (λ p : bytes * Entry, (now - leeway < exp (e_claims p.2))%N) (map self) in
          let order' := List.filter (λ k, bool_decide (is_Some (map' !! k))) (order self) in
          evict_oldest map' order'
        else self in
      {| map := <[key := entry]> (map g); order := order g ++ [key] |}
  end.

(** ** The shared state *)

(** What never changes in [Inner]: whether there are a notifier and a refresh trigger, and DPoP. *)
Record AuthConfig := {
  policy : JwtPolicy;
  notifier : bool;
  refresh_trigger : bool;
  dpop : option DpopConfig;
}.

(** What the calls do to the outside: fire the refresh trigger, and call the notifier. *)
Inductive Effect := Fired | Notified (kid : bytes) (suppressed : N).

Record World := {
  published : list KeySet;
  current : nat;
  cache : CacheState;
  throttle : NotifyThrottle;
  hits : N;
  misses : N;
  replay : ReplayStore;
  effects : list Effect;
}.

(** [build]: [SharedKeySet::new(keys)] is the first set. *)
Definition build_replay (cfg : AuthConfig) : ReplayStore :=
  match dpop cfg with
  | Some config =>
      match replay_capacity config with
      | Some c =>
          match ReplayStore_with_capacity (window config) c with
          | Ok r => r
          | Err _ => ReplayStore_new (window config)
          end
      | None => ReplayStore_new (window config)
      end
  | None => ReplayStore_new IatWindow_default
  end.
Definition build (cfg : AuthConfig) (min_interval : Duration) (keys : KeySet) : World :=
  {| published := [keys]; current := 0; cache := TokenCache_new; throttle := NotifyThrottle_new min_interval;
     hits := 0; misses := 0; replay := build_replay cfg; effects := [] |}.

Definition set_cache (c : CacheState) (w : World) : World :=
  {| published := published w; current := current w; cache := c; throttle := throttle w; hits := hits w;
     misses := misses w; replay := replay w; effects := effects w |}.
Definition set_throttle (t : NotifyThrottle) (w : World) : World :=
  {| published := published w; current := current w; cache := cache w; throttle := t; hits := hits w;
     misses := misses w; replay := replay w; effects := effects w |}.
Definition set_counts (h m : N) (w : World) : World :=
  {| published := published w; current := current w; cache := cache w; throttle := throttle w; hits := h;
     misses := m; replay := replay w; effects := effects w |}.
Definition set_replay (r : ReplayStore) (w : World) : World :=
  {| published := published w; current := current w; cache := cache w; throttle := throttle w; hits := hits w;
     misses := misses w; replay := r; effects := effects w |}.
Definition add_effect (e : Effect) (w : World) : World :=
  {| published := published w; current := current w; cache := cache w; throttle := throttle w; hits := hits w;
     misses := misses w; replay := replay w; effects := effects w ++ [e] |}.

(** [SharedKeySet::set] and [snapshot]. *)
Definition set_keys (ks : KeySet) (w : World) : World :=
  {| published := published w ++ [ks]; current := length (published w); cache := cache w; throttle := throttle w;
     hits := hits w; misses := misses w; replay := replay w; effects := effects w |}.
Definition snapshot (w : World) : nat := current w.

(** The value behind an [Arc]. *)
Definition deref (w : World) (arc : nat) : KeySet := default KeySet_empty (published w !! arc).

(** ** A call of [authenticate_at] *)

(** A call that has its credentials. *)
Record Call := { scheme : Scheme; token : bytes; snap : nat }.

Inductive Pc :=
| AtStart
| AtGet (c : Call)
| AtHit (c : Call) (claims : Claims)
| AtRemoveInvalid (c : Call) (e : VerifyError)
| AtRemove (c : Call)
| AtVerify (c : Call)
| AtFire (c : Call) (r : result Claims VerifyError) (kid : bytes)
| AtLoad (c : Call) (r : result Claims VerifyError) (kid : bytes)
| AtCas (c : Call) (r : result Claims VerifyError) (kid : bytes) (next : N)
| AtSuppress (c : Call) (r : result Claims VerifyError)
| AtSwap (c : Call) (r : result Claims VerifyError) (kid : bytes)
| AtInsert (c : Call) (claims : Claims)
| AtRegister (c : Call) (claims : Claims) (proof : VerifiedProof)
| Returned (r : result Claims VerifyError).

Definition is_thumbprint_shape (s : bytes) : bool :=
  (len s =? 43)%N && forallb (λ b, is_ascii_alphanumeric b || beqb b x2d || beqb b x5f) s.

Definition dpop_err {A} (r : result A DpopError) : result A VerifyError := map_err Dpop r.

(** [authenticate_dpop] between the verified token and the replay store: whether the claims are
    returned at once, or a proof is to be registered. *)
Definition check_binding (d : DpopConfig) (head : RequestHead) (now_unix : N) (scheme : Scheme) (token : bytes)
    (claims : Claims) : result (option VerifiedProof) VerifyError :=
  let? jkt :=
    match cnf claims with
    | Absent => Ok None
    | Jkt j => if is_thumbprint_shape j then Ok (Some j) else Err Malformed
    | Unusable => Err Malformed
    end in
  match scheme, jkt, mode d with
  | Bearer, Some _, _ => Err (Dpop BoundTokenAsBearer)
  | Bearer, None, AllowUnboundBearer => Ok None
  | Bearer, None, Required | DpopScheme, None, _ => Err (Dpop UnboundToken)
  | DpopScheme, Some jkt, _ =>
      match List.filter (λ '(n, _), eq_ignore_ascii_case n (lit "dpop")) (headers head) with
      | [] => Err (Dpop MissingProof)
      | [(_, proof)] =>
          let? htu := dpop_err (expected_htu (path head) (origin d)) in
          let ctx := {| method := Request.method head; htu := htu; access_token := token; ctx_algs := algs d;
                        ctx_window := window d |} in
          let? verified := dpop_err (verify_proof proof ctx now_unix) in
          if negb (str_eqb (thumbprint verified) jkt) then Err (Dpop ThumbprintMismatch) else Ok (Some verified)
      | _ => Err (Dpop MultipleProofs)
      end
  end.

(** After [verify_token_cached]: the end of the call without DPoP, the checks of the binding with it. *)
Definition after_token (cfg : AuthConfig) (head : RequestHead) (now_unix : N) (c : Call) (r : result Claims VerifyError) : Pc :=
  match r, dpop cfg with
  | Ok claims, Some d =>
      match check_binding d head now_unix (scheme c) (token c) claims with
      | Ok None => Returned (Ok claims)
      | Ok (Some proof) => AtRegister c claims proof
      | Err e => Returned (Err e)
      end
  | r, _ => Returned r
  end.

(** After the notification: [result?], then the insertion. *)
Definition after_notify (cfg : AuthConfig) (head : RequestHead) (now_unix : N) (c : Call) (r : result Claims VerifyError) : Pc :=
  match r with Ok claims => AtInsert c claims | Err e => after_token cfg head now_unix c (Err e) end.
Definition notify_or (cfg : AuthConfig) (head : RequestHead) (now_unix : N) (c : Call) (r : result Claims VerifyError)
    (unknown : option bytes) : Pc :=
  match unknown with
  | Some kid =>
      if notifier cfg then (if (now_unix =? u64_max)%N then AtSuppress c r else AtLoad c r kid)
      else after_notify cfg head now_unix c r
  | None => after_notify cfg head now_unix c r
  end.

Definition request_credentials (cfg : AuthConfig) (head : RequestHead) : option (Scheme * bytes) :=
  match dpop cfg with
  | Some _ => credentials head
  | None => (λ t, (Bearer, t)) <$> bearer_token head
  end.

(** The next access to the shared state. *)
Definition step (cfg : AuthConfig) (head : RequestHead) (now_unix : N) (w : World) (pc : Pc) : World * Pc :=
  let leeway := as_secs (clock_skew (policy cfg)) in
  match pc with
  | AtStart =>
      match request_credentials cfg head with
      | None => (w, Returned (Err MissingToken))
      | Some (s, t) => (w, AtGet {| scheme := s; token := t; snap := snapshot w |})
      end
  | AtGet c =>
      match cache_get (cache_key (token c)) (snap c) now_unix leeway (cache w) with
      | Hit claims => (w, AtHit c claims)
      | Invalid e => (w, AtRemoveInvalid c e)
      | Miss => (w, AtRemove c)
      end
  | AtHit c claims => (set_counts (wrapping_succ (hits w)) (misses w) w, after_token cfg head now_unix c (Ok claims))
  | AtRemoveInvalid c e => (set_cache (cache_remove (cache_key (token c)) (cache w)) w, after_token cfg head now_unix c (Err e))
  | AtRemove c => (set_cache (cache_remove (cache_key (token c)) (cache w)) w, AtVerify c)
  | AtVerify c =>
      let w := set_counts (hits w) (wrapping_succ (misses w)) w in
      match verify_inner (token c) (deref w (snap c)) (policy cfg) now_unix with
      | Ok claims => (w, after_notify cfg head now_unix c (Ok claims))
      | Err (e, Some kid) =>
          if refresh_trigger cfg then (w, AtFire c (Err e) kid)
          else (w, notify_or cfg head now_unix c (Err e) (Some kid))
      | Err (e, None) => (w, notify_or cfg head now_unix c (Err e) None)
      end
  | AtFire c r kid => (add_effect Fired w, notify_or cfg head now_unix c r (Some kid))
  | AtLoad c r kid =>
      let next := next_allowed_unix (throttle w) in
      if try_acquire_refused next now_unix (throttle w) then (w, AtSuppress c r) else (w, AtCas c r kid next)
  | AtCas c r kid next =>
      let '(ok, t) := try_acquire_cas next now_unix (throttle w) in
      (set_throttle t w, if ok then AtSwap c r kid else AtSuppress c r)
  | AtSuppress c r => (set_throttle (suppress (throttle w)) w, after_notify cfg head now_unix c r)
  | AtSwap c r kid =>
      let '(n, t) := swap_suppressed (throttle w) in
      (add_effect (Notified kid n) (set_throttle t w), after_notify cfg head now_unix c r)
  | AtInsert c claims =>
      (set_cache (cache_insert (cache_key (token c)) claims (snap c) now_unix leeway (cache w)) w,
       after_token cfg head now_unix c (Ok claims))
  | AtRegister c claims proof =>
      let '(r, s) := register proof now_unix (replay w) in
      (set_replay s w, Returned (match r with Ok _ => Ok claims | Err e => Err (Dpop e) end))
  | Returned r => (w, Returned r)
  end.

(** A call that nothing interrupts; a call makes at most ten accesses. *)
Fixpoint run_call (fuel : nat) (cfg : AuthConfig) (head : RequestHead) (now_unix : N) (w : World) (pc : Pc) :
    World * option (result Claims VerifyError) :=
  match pc, fuel with
  | Returned r, _ => (w, Some r)
  | _, O => (w, None)
  | _, S fuel => let '(w, pc) := step cfg head now_unix w pc in run_call fuel cfg head now_unix w pc
  end.
Definition CALL_FUEL : nat := 10.
Definition authenticate_at (cfg : AuthConfig) (head : RequestHead) (now_unix : N) (w : World) :
    World * option (result Claims VerifyError) :=
  run_call CALL_FUEL cfg head now_unix w AtStart.

(** ** Responses *)

Definition BODY_INVALID_TOKEN : bytes :=
  [x7b] ++ QUOTE ++ lit "error" ++ QUOTE ++ lit ":" ++ QUOTE ++ lit "invalid_token" ++ QUOTE ++ [x7d].
Definition BODY_INVALID_DPOP_PROOF : bytes :=
  [x7b] ++ QUOTE ++ lit "error" ++ QUOTE ++ lit ":" ++ QUOTE ++ lit "invalid_dpop_proof" ++ QUOTE ++ [x7d].
Definition CHALLENGE_BEARER_NO_TOKEN : bytes := lit "Bearer".
Definition error_param (code : bytes) : bytes := lit "error=" ++ QUOTE ++ code ++ QUOTE.
Definition CHALLENGE_BEARER_INVALID : bytes := lit "Bearer " ++ error_param (lit "invalid_token").

Fixpoint add_challenges (base r : Response) (challenges : list bytes) : Response :=
  match challenges with
  | [] => r
  | c :: challenges =>
      match with_header (lit "WWW-Authenticate") c r with
      | Ok next => add_challenges base next challenges
      | Err _ => base
      end
  end.
Definition unauthorized (body : bytes) (challenges : list bytes) : Response :=
  let base := with_content_type (lit "application/json") (response_new 401 body) in
  add_challenges base base challenges.

Definition allows_bearer (d : DpopConfig) : bool := bool_decide (mode d = AllowUnboundBearer).
Definition challenge_algs (d : DpopConfig) : bytes :=
  join [x20] (as_jose_name <$> List.filter (λ a, bool_decide (a ∈ algs d)) [Es256; Rs256]).

Definition dpop_unauthorized (d : DpopConfig) (head : RequestHead) (err : VerifyError) : Response :=
  let '(code, on_dpop) :=
    match err with
    | MissingToken => (None, true)
    | Dpop e => if is_token_side e then (Some (lit "invalid_token"), true) else (Some (lit "invalid_dpop_proof"), true)
    | _ =>
        let bearer := match credentials head with Some (Bearer, _) => true | _ => false end in
        (Some (lit "invalid_token"), negb (bearer && allows_bearer d))
    end in
  let dpop_line :=
    match code, on_dpop with
    | Some c, true => lit "DPoP " ++ error_param c ++ lit ", algs=" ++ QUOTE ++ challenge_algs d ++ QUOTE
    | _, _ => lit "DPoP algs=" ++ QUOTE ++ challenge_algs d ++ QUOTE
    end in
  let bearer_line :=
    match code, on_dpop with
    | Some c, false => lit "Bearer " ++ error_param c
    | _, _ => lit "Bearer"
    end in
  let body := match err with Dpop e => if is_token_side e then BODY_INVALID_TOKEN else BODY_INVALID_DPOP_PROOF
                           | _ => BODY_INVALID_TOKEN end in
  if allows_bearer d then unauthorized body [dpop_line; bearer_line] else unauthorized body [dpop_line].

Definition unauthorized_response (cfg : AuthConfig) (head : RequestHead) (err : VerifyError) : Response :=
  match dpop cfg with
  | Some d => dpop_unauthorized d head err
  | None =>
      unauthorized BODY_INVALID_TOKEN
        [match err with MissingToken => CHALLENGE_BEARER_NO_TOKEN | _ => CHALLENGE_BEARER_INVALID end]
  end.

(** ** [gate.rs] *)

(** [GateVerified], as a type of the extensions. *)
Class GateVerifiedType := {
  gate_verified : TypeId;
  GateVerified_new : Claims → Any gate_verified;
  gv_claims : Any gate_verified → Claims;
  gv_claims_new : ∀ c, gv_claims (GateVerified_new c) = c;
}.
Context {GV : GateVerifiedType}.

(** [JwtGate::check] once [authenticate] has returned. *)
Definition jwt_gate_outcome (cfg : AuthConfig) (head : RequestHead) (extensions : RequestExtensions)
    (r : result Claims VerifyError) : GateOutcome * RequestExtensions :=
  match r with
  | Ok claims =>
      match ext_insert gate_verified (GateVerified_new claims) extensions with
      | (e, Ok _) => (Allow, e)
      | (e, Err _) => (Reject (error_response 500 (lit "internal_error")), e)
      end
  | Err e => (Reject (unauthorized_response cfg head e), extensions)
  end.

(** [JwtGate::verified]; [None] is [NotAdmitted]. *)
Definition verified (head : RequestHead) : option Claims := gv_claims <$> ext_get gate_verified (extensions head).

End auth.
