(* ===== verification/JwtAuthSpec.v ===== *)
(** * Concurrent authentication with a cache

    Any number of calls run interleaved, while the key set is replaced at any time.  The cache is
    never seen: every call returns what the verification of its token against a key set that
    was current during the call gives.  The cache stays within its capacity, every call ends
    after a bounded number of its own steps, and the gate admits exactly the verified. *)

From S2P Require Import Prelude Text Utf8 Radix Extensions Request Response Error Gate ServerConfig Jwt JwtSpec Dpop JwtAuth.

Section auth.
Context {AT : AnyTypes} {JC : JwtCrates}.
Context (cfg : AuthConfig).

#[local] Abbreviation leeway := (as_secs (clock_skew (policy cfg))).

(** ** The reference: no cache, no concurrency *)

(** The claims of the request's token, and the proof that must not have been used before. *)
Definition auth_spec (head : RequestHead) (now : N) (ks : KeySet) : result (Claims * option VerifiedProof) VerifyError :=
  match request_credentials cfg head with
  | None => Err MissingToken
  | Some (s, t) =>
      let? claims := verify t ks (policy cfg) now in
      match dpop cfg with
      | None => Ok (claims, None)
      | Some d => let? o := check_binding d head now s t claims in Ok (claims, o)
      end
  end.

(** What a call may return when the reference says [x]: the replay store has the last word. *)
Definition outcome (x : result (Claims * option VerifiedProof) VerifyError) (r : result Claims VerifyError) : Prop :=
  match x with
  | Err e => r = Err e
  | Ok (c, None) => r = Ok c
  | Ok (c, Some _) => r = Ok c ∨ r = Err (Dpop Replayed) ∨ r = Err (Dpop ReplayStoreFull)
  end.

(** ** The system *)

Record Thread := { t_head : RequestHead; t_now : N; t_from : nat; t_pc : Pc }.
Definition set_pc (pc : Pc) (t : Thread) : Thread :=
  {| t_head := t_head t; t_now := t_now t; t_from := t_from t; t_pc := pc |}.

Inductive sys_step : World * list Thread → World * list Thread → Prop :=
| sys_keys w pool ks : sys_step (w, pool) (set_keys ks w, pool)
| sys_call w pool head now :
    sys_step (w, pool) (w, pool ++ [{| t_head := head; t_now := now; t_from := current w; t_pc := AtStart |}])
| sys_run w pool i t w' pc :
    pool !! i = Some t → step cfg (t_head t) (t_now t) w (t_pc t) = (w', pc) →
    sys_step (w, pool) (w', <[i := set_pc pc t]> pool).

Definition sys_init (interval : Duration) (keys : KeySet) : World * list Thread := (build cfg interval keys, []).

(** The tokens that have been presented. *)
Definition presented (pool : list Thread) (token : bytes) : Prop :=
  ∃ t s, t ∈ pool ∧ request_credentials cfg (t_head t) = Some (s, token).
(** No two of them have the same digest. *)
Definition collision_free (pool : list Thread) : Prop :=
  ∀ t1 t2, presented pool t1 → presented pool t2 → sha256 t1 = sha256 t2 → t1 = t2.

(** ** The cache *)

Record cache_wf (c : CacheState) : Prop := {
  cw_order : ∀ k, k ∈ order c ↔ is_Some (map c !! k);
  cw_nodup : NoDup (order c);
  cw_size : size (map c) ≤ CACHE_CAPACITY;
}.

Lemma cache_remove_lookup key c k e : map (cache_remove key c) !! k = Some e → map c !! k = Some e.
Proof.
  unfold cache_remove. destruct (map c !! key); [|done]. cbn. by intros [_ ?]%lookup_delete_Some.
Qed.

Lemma NoDup_filter_bool {A} (p : A → bool) l : NoDup l → NoDup (List.filter p l).
Proof. rewrite !NoDup_ListNoDup. apply List.NoDup_filter. Qed.

Lemma elem_of_filter_bool {A} (p : A → bool) l x : x ∈ List.filter p l ↔ x ∈ l ∧ p x = true.
Proof. by rewrite !list_elem_of_In, filter_In. Qed.

Lemma cache_remove_wf key c : cache_wf c → cache_wf (cache_remove key c).
Proof.
  intros [Ho Hn Hs]. unfold cache_remove. destruct (map c !! key) eqn:E; [|done]. split; cbn.
  - intros k. rewrite elem_of_filter_bool, Ho, lookup_delete_is_Some, negb_true_iff, bool_decide_eq_false.
    naive_solver.
  - by apply NoDup_filter_bool.
  - rewrite map_size_delete_Some by done. lia.
Qed.

Lemma evict_oldest_lookup m o k e : map (evict_oldest m o) !! k = Some e → m !! k = Some e.
Proof.
  revert m. induction o as [|x o IH]; intros m; cbn [evict_oldest]; destruct (_ <=? _); cbn; try done.
  by intros [_ ?]%IH%lookup_delete_Some.
Qed.

Lemma evict_oldest_wf m o :
  (∀ k, k ∈ o ↔ is_Some (m !! k)) → NoDup o →
  cache_wf (evict_oldest m o) ∧ size (map (evict_oldest m o)) < CACHE_CAPACITY.
Proof.
  revert m. induction o as [|x o IH]; intros m Ho Hn; cbn [evict_oldest];
    destruct (Nat.leb_spec CACHE_CAPACITY (size m)) as [Hc|Hc].
  - exfalso. assert (m = ∅) as ->; [|rewrite map_size_empty in Hc; unfold CACHE_CAPACITY in Hc; lia].
    apply map_empty. intros k. destruct (m !! k) eqn:E; [|done].
    assert (k ∈ []) as H by (apply Ho; by rewrite E). inversion H.
  - split; [|done]. split; cbn; [done|done|lia].
  - apply NoDup_cons in Hn as [Hx Hn]. apply IH; [|done]. intros k. rewrite lookup_delete_is_Some, <- Ho, elem_of_cons.
    split; [|naive_solver]. intros Hk. split; [|by right]. by intros ->.
  - split; [|done]. split; cbn; [done|done|lia].
Qed.

(** The cache before the new entry is added. *)
Definition make_room (now : N) (c : CacheState) : CacheState :=
  if CACHE_CAPACITY <=? size (map c) then
    let map' := filter (λ p : bytes * Entry, (now - leeway < exp (e_claims p.2))%N) (map c) in
    evict_oldest map' (List.filter (λ k, bool_decide (is_Some (map' !! k))) (order c))
  else c.

Lemma make_room_lookup now c k e : map (make_room now c) !! k = Some e → map c !! k = Some e.
Proof.
  unfold make_room. destruct (_ <=? _); [|done]. by intros [? _]%evict_oldest_lookup%map_lookup_filter_Some.
Qed.

Lemma make_room_wf now c : cache_wf c → cache_wf (make_room now c) ∧ size (map (make_room now c)) < CACHE_CAPACITY.
Proof.
  intros [Ho Hn Hs]. unfold make_room. destruct (Nat.leb_spec CACHE_CAPACITY (size (map c))); [|done].
  apply evict_oldest_wf; [|by apply NoDup_filter_bool]. intros k.
  rewrite elem_of_filter_bool, bool_decide_eq_true, Ho. split; [by intros []|]. intros Hk. split; [|done].
  destruct Hk as [e [Hk _]%map_lookup_filter_Some]. by exists e.
Qed.

Lemma cache_insert_lookup key cl arc now c k e :
  map (cache_insert key cl arc now leeway c) !! k = Some e →
  (k = key ∧ e = {| e_claims := cl; verified_against := arc |}) ∨ map c !! k = Some e.
Proof.
  unfold cache_insert. fold (make_room now c). destruct (map c !! key) eqn:E; cbn.
  - intros [[-> <-]|[_ ?]]%lookup_insert_Some; auto.
  - intros [[-> <-]|[_ ?%make_room_lookup]]%lookup_insert_Some; auto.
Qed.

Lemma cache_insert_wf key cl arc now c : cache_wf c → cache_wf (cache_insert key cl arc now leeway c).
Proof.
  intros Hwf. unfold cache_insert. fold (make_room now c). destruct (map c !! key) eqn:E.
  - destruct Hwf as [Ho Hn Hs]. split; cbn; [|done|by rewrite map_size_insert_Some by done].
    intros k. rewrite Ho, lookup_insert_is_Some'. split; [by right|]. intros [->|?]; [by exists e|done].
  - destruct (make_room_wf now c Hwf) as [[Ho Hn Hs] Hlt]. split; cbn.
    + intros k. rewrite elem_of_app, list_elem_of_singleton, Ho, lookup_insert_is_Some'. naive_solver.
    + apply NoDup_app. split_and!; [done| |by apply NoDup_singleton]. intros k Hk%Ho ->%list_elem_of_singleton.
      destruct Hk as [e Hk%make_room_lookup]. congruence.
    + assert (map (make_room now c) !! key = None) as En.
      { destruct (map (make_room now c) !! key) as [e|] eqn:E'; [|done]. apply make_room_lookup in E'. congruence. }
      rewrite map_size_insert_None by done. lia.
Qed.

Lemma cache_get_found key arc now c :
  match cache_get key arc now leeway c with
  | Miss => True
  | Hit cl => ∃ e, map c !! key = Some e ∧ verified_against e = arc ∧ e_claims e = cl
                   ∧ check_times now leeway (exp cl) (nbf cl) = Ok tt
  | Invalid x => ∃ e, map c !! key = Some e ∧ verified_against e = arc
                   ∧ check_times now leeway (exp (e_claims e)) (nbf (e_claims e)) = Err x
  end.
Proof.
  unfold cache_get. destruct (map c !! key) as [e|] eqn:E; [|done].
  destruct (Nat.eqb_spec (verified_against e) arc) as [Ea|]; [|done]. cbn [negb].
  unfold check_times. destruct (exp (e_claims e) <=? now - leeway)%N eqn:E1; [by exists e; rewrite E1|].
  destruct (nbf (e_claims e)) as [n|] eqn:E2; [destruct (saturating_add now leeway <? n)%N eqn:E3|].
  all: exists e; rewrite ?E1, ?E2, ?E3; done.
Qed.

(** ** The invariant *)

Definition call_ok (w : World) (t : Thread) (c : Call) : Prop :=
  request_credentials cfg (t_head t) = Some (scheme c, token c) ∧ t_from t ≤ snap c < length (published w).
Definition verified_as (w : World) (t : Thread) (c : Call) (r : result Claims VerifyError) : Prop :=
  call_ok w t c ∧ verify (token c) (deref w (snap c)) (policy cfg) (t_now t) = r.

Definition pc_ok (w : World) (t : Thread) : Prop :=
  match t_pc t with
  | AtStart => True
  | AtGet c | AtRemove c | AtVerify c => call_ok w t c
  | AtHit c cl | AtInsert c cl => verified_as w t c (Ok cl)
  | AtRemoveInvalid c e => verified_as w t c (Err e)
  | AtFire c r _ | AtLoad c r _ | AtCas c r _ _ | AtSuppress c r | AtSwap c r _ => verified_as w t c r
  | AtRegister c cl pf => call_ok w t c ∧ auth_spec (t_head t) (t_now t) (deref w (snap c)) = Ok (cl, Some pf)
  | Returned r =>
      ∃ i ks, t_from t ≤ i ∧ published w !! i = Some ks ∧ outcome (auth_spec (t_head t) (t_now t) ks) r
  end.

Definition cache_ok (w : World) (pool : list Thread) : Prop :=
  ∀ k e, map (cache w) !! k = Some e →
    ∃ token now, presented pool token ∧ k = sha256 token ∧ verified_against e < length (published w)
      ∧ verify token (deref w (verified_against e)) (policy cfg) now = Ok (e_claims e).

Record sys_ok (w : World) (pool : list Thread) : Prop := {
  so_current : S (current w) = length (published w);
  so_threads : ∀ t, t ∈ pool → t_from t ≤ current w ∧ pc_ok w t;
  so_cache : cache_ok w pool;
}.

Lemma after_token_ok w t c r pc :
  verified_as w t c r → after_token cfg (t_head t) (t_now t) c r = pc → pc_ok w (set_pc pc t).
Proof.
  intros [[Hc [Hf Hl]] Hv] <-. unfold pc_ok. cbn [t_pc set_pc t_head t_now t_from].
  assert (∃ ks, published w !! snap c = Some ks) as [ks Hks] by by apply lookup_lt_is_Some.
  assert (deref w (snap c) = ks) as Hd by (unfold deref; by rewrite Hks). rewrite Hd in Hv.
  unfold after_token. destruct r as [cl|e].
  - destruct (dpop cfg) as [d|] eqn:Ed.
    + destruct (check_binding d (t_head t) (t_now t) (scheme c) (token c) cl) as [[pf|]|e] eqn:Eb.
      * split; [done|]. rewrite Hd. unfold auth_spec. rewrite Hc, Hv, Ed. cbn. by rewrite Eb.
      * exists (snap c), ks. split_and!; [done..|]. unfold auth_spec. rewrite Hc, Hv, Ed. cbn. by rewrite Eb.
      * exists (snap c), ks. split_and!; [done..|]. unfold auth_spec. rewrite Hc, Hv, Ed. cbn. by rewrite Eb.
    + exists (snap c), ks. split_and!; [done..|]. unfold auth_spec. by rewrite Hc, Hv, Ed.
  - exists (snap c), ks. split_and!; [done..|]. unfold auth_spec. by rewrite Hc, Hv.
Qed.

Lemma after_notify_ok w t c r pc :
  verified_as w t c r → after_notify cfg (t_head t) (t_now t) c r = pc → pc_ok w (set_pc pc t).
Proof.
  intros Hv <-. unfold after_notify. destruct r as [cl|e]; [done|]. by eapply after_token_ok.
Qed.

Lemma notify_or_ok w t c r kid pc :
  verified_as w t c r → notify_or cfg (t_head t) (t_now t) c r kid = pc → pc_ok w (set_pc pc t).
Proof.
  intros Hv <-. unfold notify_or. destruct kid as [k|]; [|by eapply after_notify_ok].
  destruct (notifier cfg); [|by eapply after_notify_ok]. by destruct (t_now t =? u64_max)%N.
Qed.

(** The steps only touch the published sets by adding to them. *)
Lemma step_published head now w pc w' pc' :
  step cfg head now w pc = (w', pc') → published w' = published w ∧ current w' = current w.
Proof.
  intros H. destruct pc; cbn in H; unfold request_credentials in H;
    repeat (case_match; simplify_eq; cbn; try done); naive_solver.
Qed.

Lemma register_errors pf now s e s' : register pf now s = (Err e, s') → e = Replayed ∨ e = ReplayStoreFull.
Proof. unfold register, register_key. intros H. repeat case_match; simplify_eq; auto. Qed.

(** Nothing that was published changes. *)
Lemma deref_prefix w w' i : published w `prefix_of` published w' → i < length (published w) → deref w' i = deref w i.
Proof.
  intros [l E] [ks Hi]%lookup_lt_is_Some. unfold deref. rewrite E, lookup_app_l, Hi; [done|]. by eapply lookup_lt_Some.
Qed.

Lemma call_ok_prefix w w' t c :
  published w `prefix_of` published w' → call_ok w t c → call_ok w' t c ∧ deref w' (snap c) = deref w (snap c).
Proof.
  intros Hp (Hc & Hf & Hl). pose proof (prefix_length _ _ Hp). split; [split_and!; [done..|lia]|by apply deref_prefix].
Qed.

Lemma pc_ok_prefix w w' t : published w `prefix_of` published w' → pc_ok w t → pc_ok w' t.
Proof.
  intros Hp. assert (∀ c r, verified_as w t c r → verified_as w' t c r) as Hv.
  { intros c r [Hc Hv]. destruct (call_ok_prefix _ _ _ _ Hp Hc) as [Hc' Hd]. split; [done|by rewrite Hd]. }
  unfold pc_ok. destruct (t_pc t); try done; try apply Hv; try (intros Hc; exact (proj1 (call_ok_prefix _ _ _ _ Hp Hc))).
  - intros [Hc Ha]. destruct (call_ok_prefix _ _ _ _ Hp Hc) as [Hc' Hd]. split; [done|by rewrite Hd].
  - intros (i & ks & ? & Hi & ?). exists i, ks. split_and!; [done| |done]. by eapply prefix_lookup_Some.
Qed.

Lemma cache_ok_sub w w' pool pool' :
  published w `prefix_of` published w' → (∀ k e, map (cache w') !! k = Some e → map (cache w) !! k = Some e) →
  (∀ t, presented pool t → presented pool' t) → cache_ok w pool → cache_ok w' pool'.
Proof.
  intros Hp Hm Hpool H k e Hk%Hm. destruct (H k e Hk) as (tok & now & Hpr & -> & Hl & Hv).
  pose proof (prefix_length _ _ Hp). exists tok, now. split_and!; [by apply Hpool|done|lia|]. by rewrite (deref_prefix w w').
Qed.

(** What a lookup finds is what the verification would give. *)
Lemma cache_get_ok w pool t c :
  cache_ok w pool → collision_free pool → t ∈ pool → call_ok w t c →
  match cache_get (cache_key (token c)) (snap c) (t_now t) leeway (cache w) with
  | Hit cl => verified_as w t c (Ok cl)
  | Invalid e => verified_as w t c (Err e)
  | Miss => True
  end.
Proof.
  intros Hca Hcf Ht Hc. pose proof (cache_get_found (cache_key (token c)) (snap c) (t_now t) (cache w)) as H.
  destruct (cache_get _ _ _ _ _) as [cl|x|]; [| |done].
  all: destruct H as (e & Hk & Ha & H); destruct (Hca _ _ Hk) as (tok & now & Hpr & Hs & Hl & Hv).
  all: assert (tok = token c) as -> by
    (symmetry; apply Hcf; [exists t, (scheme c); split; [done|apply Hc]|done|exact Hs]).
  all: rewrite Ha in *; split; [done|]; rewrite (verify_again _ _ _ (t_now t) _ _ Hv).
  - by destruct H as [-> ->].
  - by rewrite H.
Qed.

Lemma step_ok w pool t w' pc :
  cache_ok w pool → collision_free pool → S (current w) = length (published w) → t_from t ≤ current w → t ∈ pool →
  pc_ok w t → step cfg (t_head t) (t_now t) w (t_pc t) = (w', pc) →
  pc_ok w (set_pc pc t) ∧ cache_ok w' pool.
Proof.
  intros Hca Hcf Hcur Hfrom Hin Hok Hstep.
  assert (∀ w2, published w2 = published w → map (cache w2) = map (cache w) → cache_ok w2 pool) as Hsame.
  { intros w2 E1 E2. apply (cache_ok_sub w w2 pool pool); [by rewrite E1|by rewrite E2|done|done]. }
  assert (∀ w2 c, published w2 = published w → cache w2 = cache_remove (cache_key (token c)) (cache w) → cache_ok w2 pool) as Hrem.
  { intros w2 c E1 E2. apply (cache_ok_sub w w2 pool pool); [by rewrite E1| |done|done]. rewrite E2. intros ??. apply cache_remove_lookup. }
  unfold pc_ok in Hok. destruct (t_pc t) as [|c|c cl|c e|c|c|c r k|c r k|c r k n|c r|c r k|c cl|c cl pf|r] eqn:Epc; cbn [step] in Hstep.
  - destruct (request_credentials cfg (t_head t)) as [[s tok]|] eqn:Ecr; injection Hstep as <- <-; (split; [|done]).
    + split; [done|]. cbn. unfold snapshot. lia.
    + destruct (published w !! current w) as [ks|] eqn:Eks; [|apply lookup_ge_None in Eks; lia].
      exists (current w), ks. split_and!; [done..|]. unfold auth_spec. cbn. by rewrite Ecr.
  - pose proof (cache_get_ok w pool t c Hca Hcf Hin Hok) as Hg.
    destruct (cache_get _ _ _ _ _) as [cl|e|]; by injection Hstep as <- <-.
  - injection Hstep as <- E. split; [exact (after_token_ok _ _ _ _ _ Hok E)|by apply Hsame].
  - injection Hstep as <- E. split; [exact (after_token_ok _ _ _ _ _ Hok E)|by eapply Hrem].
  - injection Hstep as <- <-. split; [done|by eapply Hrem].
  - cbv zeta in Hstep. assert (verified_as w t c (verify (token c) (deref w (snap c)) (policy cfg) (t_now t))) as Hv by done.
    unfold verify in Hv. change (deref (set_counts _ _ w) (snap c)) with (deref w (snap c)) in Hstep.
    destruct (verify_inner _ _ _ _) as [cl|[e [k|]]]; cbn in Hv.
    + injection Hstep as <- E. split; [exact (after_notify_ok _ _ _ _ _ Hv E)|by apply Hsame].
    + destruct (refresh_trigger cfg); injection Hstep as <- E; (split; [|by apply Hsame]).
      * by rewrite <- E.
      * exact (notify_or_ok _ _ _ _ (Some k) _ Hv E).
    + injection Hstep as <- E. split; [exact (notify_or_ok _ _ _ _ None _ Hv E)|by apply Hsame].
  - injection Hstep as <- E. split; [exact (notify_or_ok _ _ _ _ (Some k) _ Hok E)|by apply Hsame].
  - cbv zeta in Hstep. destruct (try_acquire_refused _ _ _); injection Hstep as <- <-; (split; [done|by apply Hsame]).
  - destruct (try_acquire_cas _ _ _) as [[] t']; injection Hstep as <- <-; (split; [done|by apply Hsame]).
  - injection Hstep as <- E. split; [exact (after_notify_ok _ _ _ _ _ Hok E)|by apply Hsame].
  - destruct (swap_suppressed _) as [m t']; injection Hstep as <- E. split; [exact (after_notify_ok _ _ _ _ _ Hok E)|by apply Hsame].
  - injection Hstep as <- E. split; [exact (after_token_ok _ _ _ _ _ Hok E)|].
    intros k e [[-> ->]|Hk]%cache_insert_lookup; [|by apply Hca].
    destruct Hok as [[Hc Hsn] Hv]. exists (token c), (t_now t). split_and!; [by exists t, (scheme c)|done|cbn; lia|done].
  - destruct (register _ _ _) as [r s'] eqn:Er. injection Hstep as <- <-. split; [|by apply Hsame].
    destruct Hok as [[Hc [Hf Hl]] Ha]. apply lookup_lt_is_Some in Hl as [ks Hks].
    exists (snap c), ks. split_and!; [done..|]. cbn. unfold deref in Ha. rewrite Hks in Ha. cbn in Ha. rewrite Ha. cbn.
    destruct r as [[]|e]; [by left|]. right. by apply register_errors in Er as [-> | ->]; auto.
  - injection Hstep as <- <-. done.
Qed.

(** ** Reachable states *)

Lemma presented_mono st st' tok : sys_step st st' → presented st.2 tok → presented st'.2 tok.
Proof.
  intros Hst (t & s & Hin & Hc). destruct Hst as [w pool ks|w pool head now|w pool i t' w' pc Hi Hs]; cbn in *.
  - by exists t, s.
  - exists t, s. split; [|done]. apply elem_of_app. by left.
  - apply list_elem_of_lookup in Hin as [j Hj]. destruct (decide (i = j)) as [<-|Hne].
    + rewrite Hi in Hj. injection Hj as ->. exists (set_pc pc t), s. split; [|done]. apply list_elem_of_lookup. exists i.
      rewrite list_lookup_insert_eq; [done|]. by eapply lookup_lt_Some.
    + exists t, s. split; [|done]. apply list_elem_of_lookup. exists j. by rewrite list_lookup_insert_ne.
Qed.

Lemma sys_step_ok st st' :
  sys_step st st' → collision_free st.2 → sys_ok st.1 st.2 → sys_ok st'.1 st'.2.
Proof.
  intros Hst Hcf [Hcur Hth Hca]. pose proof (λ tok, presented_mono st st' tok Hst) as Hmono.
  destruct Hst as [w pool ks|w pool head now|w pool i t w' pc Hi Hs]; cbn in *.
  - assert (published w `prefix_of` published (set_keys ks w)) as Hp by by eexists.
    split; [cbn; rewrite length_app; cbn; lia| |by eapply cache_ok_sub].
    intros t Ht. destruct (Hth t Ht) as [Hf Hok]. split; [cbn; lia|by eapply pc_ok_prefix].
  - split; [done| |by eapply cache_ok_sub]. intros t [Ht|Ht]%elem_of_app; [by apply Hth|].
    apply list_elem_of_singleton in Ht as ->. done.
  - destruct (step_published _ _ _ _ _ _ Hs) as [Hpub Hc]. pose proof (list_elem_of_lookup_2 _ _ _ Hi) as Ht.
    destruct (Hth t Ht) as [Hf Hok]. destruct (step_ok w pool t w' pc) as [Hok' Hca']; [done..|].
    split; [by rewrite Hpub, Hc| |by eapply cache_ok_sub].
    intros u [j Hj]%list_elem_of_lookup. rewrite Hc. assert (published w `prefix_of` published w') as Hp by by rewrite Hpub.
    apply list_lookup_insert_Some in Hj as [(-> & <- & _)|[_ Hj]].
    + split; [done|by eapply pc_ok_prefix].
    + destruct (Hth u) as [? ?]; [by eapply list_elem_of_lookup_2|]. split; [done|by eapply pc_ok_prefix].
Qed.

Lemma sys_reach_ok interval keys st :
  rtc sys_step (sys_init interval keys) st → collision_free st.2 → sys_ok st.1 st.2.
Proof.
  intros Hr. revert st Hr. refine (rtc_ind_r _ _ _ _); [|intros st st' _ Hst IH].
  - intros _. split; cbn; [done|by intros t Ht%elem_of_nil|by intros k e].
  - intros Hcf. eapply sys_step_ok; [exact Hst|..].
    + intros t1 t2 H1 H2. apply Hcf; by eapply presented_mono.
    + apply IH. intros t1 t2 H1 H2. apply Hcf; by eapply presented_mono.
Qed.

(** C30: The token cache is never seen. However the calls interleave and whenever the key set is
    replaced, a call returns what the credentials, the verification of the token and the checks of
    its binding give without a cache, at the clock of the call and against a key set that was
    current at some moment between its start and now; only a proof of possession can then still
    be refused by the replay store. The only assumption is that no two of the tokens that were
    presented have the same SHA-256 digest. *)
Theorem cache_transparent interval keys w pool t r :
  rtc sys_step (sys_init interval keys) (w, pool) → collision_free pool → t ∈ pool → t_pc t = Returned r →
  ∃ i ks, t_from t ≤ i ≤ current w ∧ published w !! i = Some ks
    ∧ outcome (auth_spec (t_head t) (t_now t) ks) r.
Proof.
  intros Hr Hcf Ht Hpc. destruct (sys_reach_ok _ _ _ Hr Hcf) as [Hcur Hth _]. cbn in *.
  destruct (Hth t Ht) as [_ Hok]. unfold pc_ok in Hok. rewrite Hpc in Hok. destruct Hok as (i & ks & Hf & Hi & Ho).
  exists i, ks. apply lookup_lt_Some in Hi as Hl. split_and!; [done|lia|done|done].
Qed.

Lemma step_cache_wf head now w pc w' pc' :
  step cfg head now w pc = (w', pc') → cache_wf (cache w) → cache_wf (cache w').
Proof.
  intros H Hwf. destruct pc; cbn in H; unfold request_credentials in H;
    repeat (case_match; simplify_eq; cbn; try done).
  all: try (injection H as <- <-; cbn); first [done|by apply cache_remove_wf|by apply cache_insert_wf].
Qed.

(** In every reachable state the token cache holds at most 1024 entries, and its queue of keys
    names exactly the keys of the map, each once, so that an eviction always removes an entry. *)
Theorem cache_bounded interval keys st :
  rtc sys_step (sys_init interval keys) st → cache_wf (cache st.1).
Proof.
  revert st. refine (rtc_ind_r _ _ _ _); [|intros st st' _ Hst IH].
  - split; cbn; [|constructor|rewrite map_size_empty; lia]. intros k. rewrite elem_of_nil, lookup_empty.
    split; [done|by intros []].
  - destruct Hst as [| |w pool i t w' pc Hi Hs]; [done..|]. by eapply step_cache_wf.
Qed.

(** ** Calls return *)

(** A bound on the accesses that a call still makes. *)
Definition steps_left (pc : Pc) : nat :=
  match pc with
  | AtStart => 10
  | AtGet _ => 9
  | AtRemove _ => 8
  | AtVerify _ => 7
  | AtFire _ _ _ => 6
  | AtLoad _ _ _ => 5
  | AtCas _ _ _ _ => 4
  | AtSuppress _ _ | AtSwap _ _ _ => 3
  | AtHit _ _ | AtRemoveInvalid _ _ | AtInsert _ _ => 2
  | AtRegister _ _ _ => 1
  | Returned _ => 0
  end.

Lemma after_token_left head now c r : steps_left (after_token cfg head now c r) ≤ 1.
Proof. unfold after_token. repeat case_match; cbn; lia. Qed.
Lemma after_notify_left head now c r : steps_left (after_notify cfg head now c r) ≤ 2.
Proof. unfold after_notify. destruct r; [done|]. cbn. lia. Qed.
Lemma notify_or_left head now c r k : steps_left (notify_or cfg head now c r k) ≤ 5.
Proof.
  pose proof (after_notify_left head now c r). unfold notify_or. destruct k; [|lia].
  destruct (notifier cfg); [|lia]. destruct (now =? u64_max)%N; cbn; lia.
Qed.

Lemma step_left head now w pc : steps_left (step cfg head now w pc).2 ≤ pred (steps_left pc).
Proof.
  destruct pc as [|c|c cl|c e|c|c|c r k|c r k|c r k n|c r|c r k|c cl|c cl pf|r]; cbn [step].
  all: try pose proof (after_token_left head now c (Ok cl)); try pose proof (after_token_left head now c (Err e));
    try pose proof (after_notify_left head now c r).
  all: try pose proof (notify_or_left head now c r (Some k)).
  all: try (cbn [snd steps_left pred]; lia).
  - destruct (request_credentials cfg head) as [[]|]; cbn; lia.
  - destruct (cache_get _ _ _ _ _); cbn; lia.
  - cbv zeta. destruct (verify_inner _ _ _ _) as [cl|[e [k|]]]; cbn [snd].
    + pose proof (after_notify_left head now c (Ok cl)). cbn [snd steps_left pred] in *. lia.
    + pose proof (notify_or_left head now c (Err e) (Some k)). destruct (refresh_trigger cfg); cbn [snd steps_left pred] in *; lia.
    + pose proof (notify_or_left head now c (Err e) None). cbn [snd steps_left pred] in *; lia.
  - cbv zeta. destruct (try_acquire_refused _ _ _); cbn; lia.
  - destruct (try_acquire_cas _ _ _) as [[] ?]; cbn; lia.
  - destruct (swap_suppressed _); cbn [snd steps_left pred] in *; lia.
  - destruct (register _ _ _) as [[] ?]; cbn; lia.
Qed.

(** The program counters of a call that finds these states at its steps, whatever others did. *)
Fixpoint run_against (head : RequestHead) (now : N) (ws : list World) (pc : Pc) : Pc :=
  match ws with [] => pc | w :: ws => run_against head now ws (step cfg head now w pc).2 end.

Lemma run_against_left head now ws pc : steps_left (run_against head now ws pc) ≤ steps_left pc - length ws.
Proof.
  revert pc. induction ws as [|w ws IH]; intros pc; cbn [run_against length]; [lia|].
  specialize (IH (step cfg head now w pc).2). pose proof (step_left head now w pc). lia.
Qed.

Lemma steps_left_0 pc : steps_left pc = 0 → ∃ r, pc = Returned r.
Proof. destruct pc; try done. by eexists. Qed.

Lemma run_call_left fuel head now w pc :
  steps_left pc ≤ fuel → ∃ w' r, run_call fuel cfg head now w pc = (w', Some r).
Proof.
  revert w pc. induction fuel as [|fuel IH]; intros w pc Hle.
  - destruct (steps_left_0 pc) as [r ->]; [lia|]. by exists w, r.
  - destruct (decide (steps_left pc = 0)) as [[r ->]%steps_left_0|Hn]; [by exists w, r|].
    destruct (IH (step cfg head now w pc).1 (step cfg head now w pc).2) as (w' & r & H).
    { pose proof (step_left head now w pc). lia. }
    exists w', r. destruct pc; try done; cbn [run_call]; by destruct (step cfg head now w _).
Qed.

(** Authentication is wait-free: whatever other calls and replacements of the key set do
    between its steps, a call has returned after ten accesses to the shared state, and one that
    runs alone returns within that fuel. No retry depends on another call. *)
Theorem authenticate_returns head now ws w :
  (CALL_FUEL ≤ length ws → ∃ r, run_against head now ws AtStart = Returned r)
  ∧ ∃ w' r, authenticate_at cfg head now w = (w', Some r).
Proof.
  split; [|by apply run_call_left]. intros Hl. apply steps_left_0.
  pose proof (run_against_left head now ws AtStart). unfold CALL_FUEL in Hl. cbn [steps_left] in *. lia.
Qed.

End auth.

(** ** The gate *)

Section gate.
Context {AT : AnyTypes} {JC : JwtCrates} {GV : GateVerifiedType}.

Definition valid_value (v : bytes) : Prop := existsb forbidden_value_byte v = false.

Lemma valid_value_app a b : valid_value a → valid_value b → valid_value (a ++ b).
Proof. unfold valid_value. rewrite existsb_app. by intros -> ->. Qed.

Definition with_challenges (challenges : list bytes) (r : Response) : Response :=
  {| status := status r; r_body := r_body r; content_type := content_type r; allow := allow r;
     extra_headers := extra_headers r ++ ((λ c, (lit "WWW-Authenticate", c)) <$> challenges) |}.

Lemma add_challenges_valid base r cs : Forall valid_value cs → add_challenges base r cs = with_challenges cs r.
Proof.
  intros H. revert r. induction H as [|c cs Hc _ IH]; intros r; cbn [add_challenges].
  - unfold with_challenges. cbn. rewrite app_nil_r. by destruct r.
  - unfold with_header. change (bool_decide (lit "WWW-Authenticate" = []) || negb (forallb is_tchar (lit "WWW-Authenticate"))) with false.
    rewrite Hc. change (existsb (eq_ignore_ascii_case (lit "WWW-Authenticate")) RESERVED) with false. cbv iota.
    rewrite IH. unfold with_challenges, push_header. cbn. by rewrite <- (assoc_L (++)).
Qed.

Lemma challenge_algs_valid d : valid_value (challenge_algs d).
Proof. unfold challenge_algs. cbn. by destruct (bool_decide (Es256 ∈ algs d)), (bool_decide (Rs256 ∈ algs d)). Qed.

Lemma error_param_valid c : valid_value c → valid_value (error_param c).
Proof. intros H. unfold error_param. by repeat apply valid_value_app. Qed.

Lemma quoted_algs_valid d : valid_value (QUOTE ++ challenge_algs d ++ QUOTE).
Proof. apply valid_value_app; [done|]. apply valid_value_app; [apply challenge_algs_valid|done]. Qed.

(** The schemes that a client may use next, the one for proofs first. *)
Definition offered (cfg : AuthConfig) : list bytes :=
  match dpop cfg with
  | None => [lit "Bearer"]
  | Some d => lit "DPoP" :: (if allows_bearer d then [lit "Bearer"] else [])
  end.

Definition challenge_for (scheme c : bytes) : Prop := valid_value c ∧ starts_with scheme c = true.

Lemma starts_with_app s t : starts_with s (s ++ t) = true.
Proof. apply starts_with_spec. by exists t. Qed.

Lemma unauthorized_response_is cfg head e :
  ∃ body challenges, (body = BODY_INVALID_TOKEN ∨ body = BODY_INVALID_DPOP_PROOF)
    ∧ Forall2 challenge_for (offered cfg) challenges
    ∧ unauthorized_response cfg head e
      = with_challenges challenges (with_content_type (lit "application/json") (response_new 401 body)).
Proof.
  assert (∀ body cs l, (body = BODY_INVALID_TOKEN ∨ body = BODY_INVALID_DPOP_PROOF) → Forall2 challenge_for l cs →
    ∃ b c, (b = BODY_INVALID_TOKEN ∨ b = BODY_INVALID_DPOP_PROOF) ∧ Forall2 challenge_for l c
      ∧ unauthorized body cs = with_challenges c (with_content_type (lit "application/json") (response_new 401 b))) as Hu.
  { intros body cs l Hb Hc. exists body, cs. split_and!; [done..|]. apply add_challenges_valid.
    apply Forall_forall. intros c [i Hi]%list_elem_of_lookup. by destruct (Forall2_lookup_r _ _ _ _ _ Hc Hi) as (? & _ & ? & _). }
  unfold unauthorized_response, offered. destruct (dpop cfg) as [d|].
  - unfold dpop_unauthorized. destruct (match e with MissingToken => _ | _ => _ end) as [code on] eqn:Ecode.
    assert (∀ c, code = Some c → valid_value c) as Hcode.
    { intros c ->. repeat case_match; simplify_eq; reflexivity. }
    assert (challenge_for (lit "DPoP") (match code, on with
      | Some c, true => lit "DPoP " ++ error_param c ++ lit ", algs=" ++ QUOTE ++ challenge_algs d ++ QUOTE
      | _, _ => lit "DPoP algs=" ++ QUOTE ++ challenge_algs d ++ QUOTE end)) as H1.
    { pose proof (quoted_algs_valid d) as Hq.
      destruct code as [c|], on; (split; [|apply starts_with_spec; by eexists]);
        (apply valid_value_app; [reflexivity|]); [|exact Hq..].
      apply valid_value_app; [exact (error_param_valid c (Hcode c eq_refl))|].
      apply valid_value_app; [reflexivity|exact Hq]. }
    assert (challenge_for (lit "Bearer") (match code, on with
      | Some c, false => lit "Bearer " ++ error_param c | _, _ => lit "Bearer" end)) as H2.
    { destruct code as [c|], on; (split; [|apply starts_with_spec; by eexists]); try reflexivity.
      apply valid_value_app; [reflexivity|]. exact (error_param_valid c (Hcode c eq_refl)). }
    cbv zeta. destruct (allows_bearer d); apply Hu.
    2: constructor; [exact H1|constructor; [exact H2|constructor]].
    3: constructor; [exact H1|constructor].
    all: destruct e; try (by left); destruct (is_token_side e); auto.
  - apply Hu; [by left|]. constructor; [|constructor]. destruct e; done.
Qed.

(** C31: The gate admits a request exactly when its authentication succeeded, and what a handler
    then reads from it are the claims of that authentication; a value that is already there is
    not overwritten but answered with 500. A refused request is answered with 401, a JSON body
    and one well-formed challenge for each scheme that the configuration accepts, the one for
    proofs first, and nothing is stored. *)
Theorem jwt_gate_admits cfg head e r :
  let '(o, e') := jwt_gate_outcome cfg head e r in
  match r with
  | Ok c =>
      (ext_get gate_verified e = None →
         o = Allow ∧ verified (set_extensions e' head) = Some c
         ∧ ∀ u, u ≠ gate_verified → ext_get u e' = ext_get u e)
      ∧ (is_Some (ext_get gate_verified e) → o = Reject (error_response 500 (lit "internal_error")) ∧ e' = e)
  | Err _ =>
      e' = e ∧ ∃ body challenges, (body = BODY_INVALID_TOKEN ∨ body = BODY_INVALID_DPOP_PROOF)
        ∧ Forall2 challenge_for (offered cfg) challenges
        ∧ o = Reject (with_challenges challenges (with_content_type (lit "application/json") (response_new 401 body)))
  end.
Proof.
  unfold jwt_gate_outcome. destruct r as [c|err].
  - destruct (ext_get gate_verified e) as [v|] eqn:Hg.
    + rewrite (insert_taken _ _ _ v Hg). split; [done|by intros _].
    + rewrite insert_fresh by done. split; [|by intros []]. intros _. split; [done|]. split.
      * unfold verified. cbn [extensions set_extensions]. rewrite get_snoc, Hg, downcast_eq. cbn. by rewrite gv_claims_new.
      * intros u Hu. rewrite get_snoc. destruct (ext_get u e); [done|]. unfold downcast. cbn.
        destruct (decide (gate_verified = u)); [congruence|done].
  - split; [done|]. destruct (unauthorized_response_is cfg head err) as (b & cs & Hb & Hc & ->). by exists b, cs.
Qed.
End gate.

(** ** Instances *)

(** A schedule, and where it leads. *)
Inductive Cmd := CKeys (ks : KeySet) | CCall (head : RequestHead (AT := demo_types)) (now : N) | CRun (i : nat).
#[local] Existing Instance demo_types.
#[local] Existing Instance demo_crates.

Definition sys_exec1 (cfg : AuthConfig) (st : World * list Thread) (c : Cmd) : World * list Thread :=
  match c with
  | CKeys ks => (set_keys ks st.1, st.2)
  | CCall head now => (st.1, st.2 ++ [{| t_head := head; t_now := now; t_from := current st.1; t_pc := AtStart |}])
  | CRun i =>
      match st.2 !! i with
      | Some t => let '(w, pc) := step cfg (t_head t) (t_now t) st.1 (t_pc t) in (w, <[i := set_pc pc t]> st.2)
      | None => st
      end
  end.

Lemma sys_exec_reach cfg cmds st : rtc (sys_step cfg) st (fold_left (sys_exec1 cfg) cmds st).
Proof.
  revert st. induction cmds as [|c cmds IH]; intros [w pool]; [done|]. cbn [fold_left].
  transitivity (sys_exec1 cfg (w, pool) c); [|apply IH]. destruct c as [ks|head now|i]; cbn.
  - apply rtc_once. constructor.
  - apply rtc_once. constructor.
  - destruct (pool !! i) as [t|] eqn:E; [|done]. destruct (step _ _ _ _ _) as [w' pc] eqn:Es. apply rtc_once.
    by econstructor.
Qed.

Definition demo_cfg : AuthConfig :=
  {| policy := demo_policy; notifier := true; refresh_trigger := false; dpop := None |}.
Definition demo_head (token : bytes) : RequestHead :=
  let k := lit "Authorization" in
  let v := lit "Bearer " ++ token in
  {| buf := k ++ v; method_r := Range 0 0; target_r := Range 0 0; version := Http11;
     headers_r := [(Range 0 (length k), Range (length k) (length k + length v))]; extensions := ext_new |}.

(** Two requests with the same token, the second served from the cache, then an empty key set. *)
Definition demo_schedule : list Cmd :=
  [CCall (demo_head (lit "{es}.{ok}.sig")) 10] ++ replicate 5 (CRun 0)
    ++ [CCall (demo_head (lit "{es}.{ok}.sig")) 20; CRun 1; CRun 1; CKeys KeySet_empty; CRun 1]
    ++ [CCall (demo_head (lit "{es}.{ok}.sig")) 30] ++ replicate 7 (CRun 2).
Definition demo_state : World * list Thread := fold_left (sys_exec1 demo_cfg) demo_schedule (sys_init demo_cfg (from_secs 10) demo_keys).

Example demo_schedule_ends :
  (t_pc <$> demo_state.2) = [Returned (Ok demo_claims); Returned (Ok demo_claims); Returned (Err UnknownKeyId)]
  ∧ hits demo_state.1 = 1%N ∧ effects demo_state.1 = [Notified (lit "k1") 0].
Proof. repeat split; vm_compute; reflexivity. Qed.

Lemma demo_reach : rtc (sys_step demo_cfg) (sys_init demo_cfg (from_secs 10) demo_keys) demo_state.
Proof. apply sys_exec_reach. Qed.

Lemma demo_collision_free : collision_free demo_cfg demo_state.2.
Proof. intros t1 t2 _ _. exact id. Qed.

Definition demo_thread : Thread :=
  {| t_head := demo_head (lit "{es}.{ok}.sig"); t_now := 20; t_from := 0; t_pc := Returned (Ok demo_claims) |}.

Lemma cache_transparent_witness :
  demo_thread ∈ demo_state.2
  ∧ ∃ i ks, 0 ≤ i ≤ current demo_state.1 ∧ published demo_state.1 !! i = Some ks
      ∧ outcome (auth_spec demo_cfg (t_head demo_thread) 20 ks) (Ok demo_claims).
Proof.
  assert (demo_state.2 !! 1 = Some demo_thread) as E by (vm_compute; reflexivity).
  pose proof (list_elem_of_lookup_2 _ _ _ E) as Hin. split; [exact Hin|].
  refine (cache_transparent demo_cfg (from_secs 10) demo_keys demo_state.1 demo_state.2 demo_thread (Ok demo_claims) _ _ Hin eq_refl).
  - rewrite <- surjective_pairing. exact demo_reach.
  - exact demo_collision_free.
Defined.

Lemma cache_bounded_witness :
  rtc (sys_step demo_cfg) (sys_init demo_cfg (from_secs 10) demo_keys) demo_state ∧ cache_wf (cache demo_state.1).
Proof. exact (conj demo_reach (cache_bounded demo_cfg _ _ _ demo_reach)). Defined.

(** A type of the extensions for the claims. *)
Definition gate_types : AnyTypes := {| TypeId := unit; Any := λ _, Claims |}.
Definition demo_gate_verified : GateVerifiedType (AT := gate_types) :=
  {| gate_verified := (tt : @TypeId gate_types); GateVerified_new := λ c, c; gv_claims := λ c, c; gv_claims_new := λ _, eq_refl |}.

Example demo_gate (head : RequestHead (AT := gate_types)) :
  let '(o, e) := jwt_gate_outcome (AT := gate_types) (GV := demo_gate_verified) demo_cfg head ext_new (Ok demo_claims) in
  o = Allow ∧ verified (AT := gate_types) (GV := demo_gate_verified) (set_extensions e head) = Some demo_claims.
Proof. by split. Qed.

Lemma authenticate_returns_witness :
  (∃ r, run_against demo_cfg (demo_head (lit "t")) 5 (replicate 10 demo_state.1) AtStart = Returned r)
  ∧ ∃ w' r, authenticate_at demo_cfg (demo_head (lit "t")) 5 demo_state.1 = (w', Some r).
Proof.
  destruct (authenticate_returns demo_cfg (demo_head (lit "t")) 5 (replicate 10 demo_state.1) demo_state.1) as [H1 H2].
  split; [apply H1; cbn; unfold CALL_FUEL; lia|exact H2].
Defined.
