(* ===== verification/JwtRefresh.v ===== *)
(** * [plugin-jwt], feature [jwks-refresh]: the refresh task

    [refresh.rs] (the configuration) and [refresh/task.rs] (the task that fetches the key set
    again, clears it when it is too old, and its handle and trigger).  The task is a state machine
    whose [turn] is one pass of its loop: what it polled, and what it did with that.  Others only
    raise flags, which a turn reads once.  Instants are nanoseconds. *)

From S2P Require Import Prelude Text Utf8 Radix Extensions Request Response Gate ServerConfig Jwt.

(** ** [refresh.rs] *)

Definition DEFAULT_REFRESH_MIN_INTERVAL : Duration := from_secs 10.
Definition DEFAULT_FETCH_TIMEOUT : Duration := from_secs 5.
Definition MAX_REFRESH_PERIOD : Duration := from_secs (24 * 60 * 60).
Definition MAX_REFRESH_MIN_INTERVAL : Duration := from_secs (60 * 60).
Definition MAX_FETCH_TIMEOUT : Duration := from_secs 60.
Definition MAX_STALE_LIMIT : Duration := from_secs (30 * 24 * 60 * 60).

Inductive RefreshConfigError :=
| ZeroPeriod
| PeriodTooLarge
| ZeroMinInterval
| MinIntervalTooLarge
| ZeroFetchTimeout
| FetchTimeoutTooLarge
| ZeroMaxStale
| MaxStaleTooLarge
| MinIntervalExceedsPeriod
| FetchTimeoutExceedsMinInterval
| MaxStaleTooShort.

Record RefreshConfig := {
  period : Duration;
  min_interval : Duration;
  fetch_timeout : Duration;
  max_stale : option Duration;
}.

(** [RefreshConfigBuilder] has the fields of [RefreshConfig], not yet checked. *)
Definition builder (period : Duration) : RefreshConfig :=
  {| period := period; min_interval := DEFAULT_REFRESH_MIN_INTERVAL; fetch_timeout := DEFAULT_FETCH_TIMEOUT;
     max_stale := None |}.
Definition set_min_interval (v : Duration) (self : RefreshConfig) : RefreshConfig :=
  {| period := period self; min_interval := v; fetch_timeout := fetch_timeout self; max_stale := max_stale self |}.
Definition set_fetch_timeout (v : Duration) (self : RefreshConfig) : RefreshConfig :=
  {| period := period self; min_interval := min_interval self; fetch_timeout := v; max_stale := max_stale self |}.
Definition set_max_stale (v : Duration) (self : RefreshConfig) : RefreshConfig :=
  {| period := period self; min_interval := min_interval self; fetch_timeout := fetch_timeout self; max_stale := Some v |}.

Definition check_range (v max : Duration) (zero large : RefreshConfigError) : result unit RefreshConfigError :=
  if (v =? 0)%N then Err zero else if (max <? v)%N then Err large else Ok tt.

(** The largest [Duration], at which [checked_add] fails. *)
Definition MAX_DURATION : Duration := (u64_max * 1000000000 + 999999999)%N.
Definition duration_checked_add (a b : Duration) : option Duration :=
  if (a + b <=? MAX_DURATION)%N then Some (a + b)%N else None.

Definition refresh_build (self : RefreshConfig) : result RefreshConfig RefreshConfigError :=
  let? _ := check_range (period self) MAX_REFRESH_PERIOD ZeroPeriod PeriodTooLarge in
  let? _ := check_range (min_interval self) MAX_REFRESH_MIN_INTERVAL ZeroMinInterval MinIntervalTooLarge in
  let? _ := check_range (fetch_timeout self) MAX_FETCH_TIMEOUT ZeroFetchTimeout FetchTimeoutTooLarge in
  let? _ := match max_stale self with
    | Some s => check_range s MAX_STALE_LIMIT ZeroMaxStale MaxStaleTooLarge
    | None => Ok tt
    end in
  if (period self <? min_interval self)%N then Err MinIntervalExceedsPeriod
  else if (min_interval self <? fetch_timeout self)%N then Err FetchTimeoutExceedsMinInterval
  else
    let? _ := match max_stale self with
      | Some s =>
          let? need := ok_or (duration_checked_add (period self) (fetch_timeout self)) MaxStaleTooShort in
          if (s <? need)%N then Err MaxStaleTooShort else Ok tt
      | None => Ok tt
      end in
    Ok self.

(** [JwksResponse] and [FetchError]: what the application's [JwksFetcher] gives. *)
Record JwksResponse := { jr_body : bytes; max_age : option Duration }.
Inductive FetchError := Transport | Status | FTooLarge | Other.

(** ** [refresh/task.rs] *)

Inductive RefreshFailure := Fetch (e : FetchError) | Timeout | Parse (e : JwksError) | Panicked.
Inductive RefreshEvent := Updated (keys skipped : nat) | Failed (f : RefreshFailure) | Cleared.

Record RefreshStatus := {
  last_success : option N;
  consecutive_failures : N;
  cleared : bool;
  s_stopped : bool;
}.

(** [Shared]; a [Notify] is whether it holds a permit. *)
Record Shared := {
  stopped : bool;
  stop : bool;
  wake : bool;
  status : RefreshStatus;
}.

(** Where the task is: before its first poll, in [wait_phase], in [fetch_once], or returned. *)
Inductive Phase :=
| NotStarted
| Waiting
| Fetching (fetch_start timeout_at : N)
| Ended.

Record Task := {
  phase : Phase;
  next_due : N;
  next_allowed : N;
  stale_deadline : option N;
  shared : Shared;
  rkeys : KeySet;
  events : list RefreshEvent;
  fetch_starts : list N;
}.

(** What the fetch future is when it is polled. *)
Inductive FetchPoll := FPending | FReady (r : result JwksResponse FetchError) | FPanicked.

(** What one pass finds: the clock, which timers are ready, whether [fetch()] panics when it is
    called, and the fetch future. *)
Record Poll := {
  now : N;
  stale_ready : bool;
  due_ready : bool;
  call_panics : bool;
  fetched : FetchPoll;
  elapsed : bool;
}.

Definition Shared_new : Shared :=
  {| stopped := false; stop := false; wake := false;
     status := {| last_success := None; consecutive_failures := 0; cleared := false; s_stopped := false |} |}.
Definition with_observer (keys : KeySet) : Task :=
  {| phase := NotStarted; next_due := 0; next_allowed := 0; stale_deadline := None; shared := Shared_new; rkeys := keys;
     events := []; fetch_starts := [] |}.

Definition set_phase (p : Phase) (t : Task) : Task :=
  {| phase := p; next_due := next_due t; next_allowed := next_allowed t; stale_deadline := stale_deadline t;
     shared := shared t; rkeys := rkeys t; events := events t; fetch_starts := fetch_starts t |}.
Definition set_due (due : N) (t : Task) : Task :=
  {| phase := phase t; next_due := due; next_allowed := next_allowed t; stale_deadline := stale_deadline t;
     shared := shared t; rkeys := rkeys t; events := events t; fetch_starts := fetch_starts t |}.
Definition set_stale (d : option N) (t : Task) : Task :=
  {| phase := phase t; next_due := next_due t; next_allowed := next_allowed t; stale_deadline := d;
     shared := shared t; rkeys := rkeys t; events := events t; fetch_starts := fetch_starts t |}.
Definition set_shared (s : Shared) (t : Task) : Task :=
  {| phase := phase t; next_due := next_due t; next_allowed := next_allowed t; stale_deadline := stale_deadline t;
     shared := s; rkeys := rkeys t; events := events t; fetch_starts := fetch_starts t |}.
Definition set_rkeys (ks : KeySet) (t : Task) : Task :=
  {| phase := phase t; next_due := next_due t; next_allowed := next_allowed t; stale_deadline := stale_deadline t;
     shared := shared t; rkeys := ks; events := events t; fetch_starts := fetch_starts t |}.
Definition notify (ev : RefreshEvent) (t : Task) : Task :=
  {| phase := phase t; next_due := next_due t; next_allowed := next_allowed t; stale_deadline := stale_deadline t;
     shared := shared t; rkeys := rkeys t; events := events t ++ [ev]; fetch_starts := fetch_starts t |}.
(** [next_allowed = fetch_start + floor] when a fetch starts. *)
Definition begin_fetch (cfg : RefreshConfig) (fetch_start : N) (t : Task) : Task :=
  {| phase := phase t; next_due := next_due t; next_allowed := (fetch_start + min_interval cfg)%N;
     stale_deadline := stale_deadline t; shared := shared t; rkeys := rkeys t; events := events t;
     fetch_starts := fetch_starts t ++ [fetch_start] |}.

Definition update (f : RefreshStatus → RefreshStatus) (s : Shared) : Shared :=
  {| stopped := stopped s; stop := stop s; wake := wake s; status := f (status s) |}.
Definition mark_stopped (s : Shared) : Shared :=
  {| stopped := true; stop := stop s; wake := wake s;
     status := {| last_success := last_success (status s); consecutive_failures := consecutive_failures (status s);
                  cleared := cleared (status s); s_stopped := true |} |}.

(** [RefreshHandle::shutdown] and [RefreshTrigger::fire], by others. *)
Definition shutdown (t : Task) : Task :=
  let s := mark_stopped (shared t) in
  set_shared {| stopped := stopped s; stop := true; wake := wake s; status := status s |} t.
Definition fire_trigger (t : Task) : Task :=
  let s := shared t in
  if stopped s then t else set_shared {| stopped := stopped s; stop := stop s; wake := true; status := status s |} t.

Definition clear_keys (t : Task) : Task :=
  notify Cleared
    (set_shared (update (λ s, {| last_success := last_success s; consecutive_failures := consecutive_failures s;
                                 cleared := true; s_stopped := s_stopped s |}) (shared t))
      (set_rkeys KeySet_empty t)).

Section refresh.
Context {JC : JwtCrates}.

Definition u32_saturating_succ (n : N) : N := N.min (n + 1) u32_max.

(** The arms of [run] after [fetch_once]. *)
Definition finish_fetch (cfg : RefreshConfig) (fetch_start : N) (outcome : result JwksResponse RefreshFailure) (t : Task) : Task :=
  let parsed :=
    let? resp := outcome in
    let? set := map_err Parse (from_json (jr_body resp)) in
    Ok (set, max_age resp) in
  let t := set_phase Waiting t in
  match parsed with
  | Ok (set, max_age) =>
      let t := set_rkeys set t in
      let t := set_stale ((λ s, (fetch_start + s)%N) <$> max_stale cfg) t in
      let t := set_shared (update (λ s, {| last_success := Some fetch_start; consecutive_failures := 0; cleared := false;
                                           s_stopped := s_stopped s |}) (shared t)) t in
      let wait := N.max (N.min (period cfg) (default (period cfg) max_age)) (min_interval cfg) in
      notify (Updated (length (keys set)) (skipped set)) (set_due (fetch_start + wait)%N t)
  | Err f =>
      let t := set_shared (update (λ s, {| last_success := last_success s;
                                           consecutive_failures := u32_saturating_succ (consecutive_failures s);
                                           cleared := cleared s; s_stopped := s_stopped s |}) (shared t)) t in
      notify (Failed f) (set_due (fetch_start + min_interval cfg)%N t)
  end.

(** [break], then [mark_stopped]; the permit of [stop] may have been taken. *)
Definition end_task (t : Task) : Task := set_phase Ended (set_shared (mark_stopped (shared t)) t).

Definition take_wake (t : Task) : Task :=
  let s := shared t in set_shared {| stopped := stopped s; stop := stop s; wake := false; status := status s |} t.

Definition stale_due (p : Poll) (t : Task) : bool := bool_decide (is_Some (stale_deadline t)) && stale_ready p.

Definition turn (cfg : RefreshConfig) (p : Poll) (t : Task) : Task :=
  match phase t with
  | NotStarted =>
      if stopped (shared t) then end_task t
      else
        set_phase Waiting
          {| phase := phase t; next_due := now p; next_allowed := now p;
             stale_deadline := (λ s, (now p + s)%N) <$> max_stale cfg; shared := shared t; rkeys := rkeys t;
             events := events t; fetch_starts := fetch_starts t |}
  | Waiting =>
      if stopped (shared t) || stop (shared t) then end_task t
      else if stale_due p t then clear_keys (set_stale None t)
      else if due_ready p then
        let t := begin_fetch cfg (now p) t in
        if call_panics p then finish_fetch cfg (now p) (Err Panicked) t
        else set_phase (Fetching (now p) (now p + fetch_timeout cfg)%N) t
      else if wake (shared t) then set_due (N.min (next_due t) (now p)) (take_wake t)
      else t
  | Fetching fetch_start _ =>
      if stopped (shared t) || stop (shared t) then end_task t
      else
        match fetched p with
        | FReady (Ok resp) => finish_fetch cfg fetch_start (Ok resp) t
        | FReady (Err e) => finish_fetch cfg fetch_start (Err (Fetch e)) t
        | FPanicked => finish_fetch cfg fetch_start (Err Panicked) t
        | FPending =>
            if elapsed p then finish_fetch cfg fetch_start (Err Timeout) t
            else if stale_due p t then clear_keys (set_stale None t)
            else t
        end
  | Ended => t
  end.

End refresh.
