(* ===== verification/JwtRefreshSpec.v ===== *)
(** * What the refresh task guarantees

    For every schedule of polls, triggers and shutdowns, with timers that fire at most [slack]
    late: fetches are at least the minimal interval and at most the period apart, keys older
    than the limit are not kept, and only checked key sets are published. *)

From S2P Require Import Prelude Text Utf8 Radix Extensions Request Response Gate ServerConfig Jwt JwtSpec JwtRefresh.

(** The configurations that [build] accepts. *)
Record config_ok (cfg : RefreshConfig) : Prop := {
  co_period : (0 < period cfg <= MAX_REFRESH_PERIOD)%N;
  co_interval : (0 < min_interval cfg <= MAX_REFRESH_MIN_INTERVAL)%N;
  co_timeout : (0 < fetch_timeout cfg <= MAX_FETCH_TIMEOUT)%N;
  co_stale : ∀ s, max_stale cfg = Some s → (0 < s <= MAX_STALE_LIMIT)%N ∧ (period cfg + fetch_timeout cfg <= s)%N;
  co_order : (fetch_timeout cfg <= min_interval cfg <= period cfg)%N;
}.

Lemma check_range_Ok v max z l : check_range v max z l = Ok tt ↔ (0 < v <= max)%N.
Proof.
  unfold check_range. destruct (N.eqb_spec v 0); [split; [done|lia]|].
  destruct (N.ltb_spec max v); split; try done; lia.
Qed.

Lemma refresh_build_Ok b cfg : refresh_build b = Ok cfg ↔ b = cfg ∧ config_ok cfg.
Proof.
  unfold refresh_build. split.
  - intros ([] & H1%check_range_Ok & H)%rbind_Ok. apply rbind_Ok in H as ([] & H2%check_range_Ok & H).
    apply rbind_Ok in H as ([] & H3%check_range_Ok & H). apply rbind_Ok in H as ([] & H4 & H).
    case_first_in H; [done|]. case_first_in H; [done|]. bool_to_prop. apply rbind_Ok in H as ([] & H5 & H).
    injection H as <-. split; [done|]. split; [done..| |done]. intros s E. rewrite E in *.
    apply check_range_Ok in H4. split; [done|]. apply rbind_Ok in H5 as (need & Hn & H5).
    unfold duration_checked_add in Hn. destruct (_ <=? MAX_DURATION)%N; [|done]. cbn in Hn. injection Hn as <-.
    case_first_in H5; [done|]. by bool_to_prop.
  - intros [-> [H1 H2 H3 H4 H5]]. rewrite !(proj2 (check_range_Ok _ _ _ _)) by done. cbn [rbind].
    assert (match max_stale cfg with Some s => check_range s MAX_STALE_LIMIT ZeroMaxStale MaxStaleTooLarge | None => Ok tt end
      = Ok tt) as ->.
    { destruct (max_stale cfg) as [s|]; [|done]. by apply check_range_Ok, (H4 s). }
    cbn [rbind]. rewrite (proj2 (N.ltb_ge _ _)) by lia. rewrite (proj2 (N.ltb_ge _ _)) by lia.
    destruct (max_stale cfg) as [s|]; [|done]. destruct (H4 s eq_refl) as [Hs Hle].
    unfold duration_checked_add. rewrite (proj2 (N.leb_le _ _)).
    + cbn [ok_or rbind]. by rewrite (proj2 (N.ltb_ge _ _)) by lia.
    + unfold MAX_DURATION, u64_max. unfold MAX_REFRESH_PERIOD, MAX_FETCH_TIMEOUT, from_secs in *. lia.
Qed.

Section refresh.
Context {JC : JwtCrates}.
Context (cfg : RefreshConfig) (Hcfg : config_ok cfg).
(** The first poll's clock, and how late a timer may fire. *)
Context (began slack : N).

Definition due_at (t : Task) : N := N.max (next_due t) (next_allowed t).

(** A timer is never early and at most [slack] late. *)
Definition timer (ready : bool) (at_ now : N) : Prop :=
  (ready = true → (at_ <= now)%N) ∧ ((at_ + slack <= now)%N → ready = true).

Record honest (p : Poll) (t : Task) : Prop := {
  ho_start : phase t = NotStarted → now p = began;
  ho_stale : ∀ d, stale_deadline t = Some d → timer (stale_ready p) d (now p);
  ho_due : phase t = Waiting → timer (due_ready p) (due_at t) (now p);
  ho_elapsed : ∀ s d, phase t = Fetching s d → timer (elapsed p) d (now p);
}.

(** The clock of the last poll, and the task. *)
Inductive rstep : N * Task → N * Task → Prop :=
| r_turn c t p : (c <= now p)%N → honest p t → rstep (c, t) (now p, turn cfg p t)
| r_shutdown c t : rstep (c, t) (c, shutdown t)
| r_fire c t : rstep (c, t) (c, fire_trigger t).

(** The pass finds nothing to do: the task sleeps. *)
Definition idle (p : Poll) (t : Task) : Prop :=
  stopped (shared t) = false ∧ stop (shared t) = false ∧ stale_due p t = false
  ∧ match phase t with
    | Waiting => due_ready p = false ∧ wake (shared t) = false
    | Fetching _ _ => fetched p = FPending ∧ elapsed p = false
    | _ => False
    end.

(** The start of the last fetch, and of the fetch that gave the present keys. *)
Definition last_attempt (t : Task) : N := default began (last (fetch_starts t)).
Definition born (t : Task) : N := default began (last_success (status (shared t))).

Definition spaced (l : list N) : Prop :=
  ∀ i a b, l !! i = Some a → l !! S i = Some b → (a + min_interval cfg <= b)%N.

Definition active (t : Task) : Prop := phase t = Waiting ∨ ∃ s d, phase t = Fetching s d.

Record refresh_inv (init : KeySet) (c : N) (t : Task) : Prop := {
  ri_spaced : spaced (fetch_starts t);
  ri_keys : rkeys t = init ∨ rkeys t = KeySet_empty ∨ ∃ json, from_json json = Ok (rkeys t);
  ri_fresh_start : phase t = NotStarted → fetch_starts t = [] ∧ last_success (status (shared t)) = None;
  ri_clock : active t → (last_attempt t <= c)%N;
  ri_allowed : active t → next_allowed t = (if bool_decide (fetch_starts t = []) then began else last_attempt t + min_interval cfg)%N;
  ri_due : active t → (next_due t <= (if bool_decide (fetch_starts t = []) then began else last_attempt t + period cfg))%N;
  ri_fetching : ∀ s d, phase t = Fetching s d → last (fetch_starts t) = Some s ∧ d = (s + fetch_timeout cfg)%N;
  ri_stale : active t → match max_stale cfg with
    | Some m => stale_deadline t = Some (born t + m)%N ∨ stale_deadline t = None ∧ rkeys t = KeySet_empty
    | None => stale_deadline t = None
    end;
}.

Lemma spaced_snoc l x : spaced l → (∀ a, last l = Some a → (a + min_interval cfg <= x)%N) → spaced (l ++ [x]).
Proof.
  intros Hs Hl i a b Ha Hb. destruct (decide (S i < length l)) as [Hi|Hi].
  - rewrite lookup_app_l in Ha, Hb by lia. by eapply Hs.
  - assert (i < length (l ++ [x])) as Hlt by (by eapply lookup_lt_Some). apply lookup_lt_Some in Hb as Hlt'.
    rewrite length_app in *. cbn in *. rewrite lookup_app_r in Hb by lia. rewrite lookup_app_l in Ha by lia.
    replace (S i - length l) with 0 in Hb by lia. injection Hb as <-. apply Hl. rewrite last_lookup.
    by replace (pred (length l)) with i by lia.
Qed.

Lemma inv_init init : refresh_inv init 0 (with_observer init).
Proof.
  split; cbn; try done; try (by left); try (intros [?|(? & ? & ?)]; done).
Qed.

Lemma last_snoc_attempt t x l : fetch_starts t = l ++ [x] → last_attempt t = x.
Proof. intros H. unfold last_attempt. by rewrite H, last_snoc. Qed.

Lemma finish_fetch_inv init c fs outcome t :
  (fs <= c)%N → last (fetch_starts t) = Some fs → next_allowed t = (fs + min_interval cfg)%N →
  spaced (fetch_starts t) → (rkeys t = init ∨ rkeys t = KeySet_empty ∨ ∃ json, from_json json = Ok (rkeys t)) →
  match max_stale cfg with
  | Some m => stale_deadline t = Some (born t + m)%N ∨ stale_deadline t = None ∧ rkeys t = KeySet_empty
  | None => stale_deadline t = None
  end →
  refresh_inv init c (finish_fetch cfg fs outcome t) ∧ phase (finish_fetch cfg fs outcome t) = Waiting.
Proof.
  intros Hc Hl Ha Hs Hk Hst. assert (fetch_starts t ≠ []) as Hne by (intros E; by rewrite E in Hl).
  destruct Hcfg as [_ _ _ _ Hord]. unfold finish_fetch.
  destruct (rbind outcome _) as [[set ma]|f] eqn:E; (split; [|done]); cbn.
  - assert (∃ json, from_json json = Ok set) as Hj.
    { apply rbind_Ok in E as (resp & _ & E). apply rbind_Ok in E as (set' & Hset%map_err_Ok & E).
      injection E as -> _. by eexists. }
    split; cbn; try done; unfold last_attempt; cbn; rewrite ?Hl, ?bool_decide_false by done; cbn; try done.
    + by right; right.
    + intros _. destruct ma as [a|]; cbn; lia.
    + intros _. destruct (max_stale cfg); [by left|done].
  - split; cbn; try done; unfold last_attempt; cbn; rewrite ?Hl, ?bool_decide_false by done; cbn; try done.
    intros _. lia.
Qed.

Lemma inv_clock init c c' t : (c <= c')%N → refresh_inv init c t → refresh_inv init c' t.
Proof. intros Hc [H1 H2 H3 H4 H5 H6 H7 H8]. split; try done. intros Ha. specialize (H4 Ha). lia. Qed.

Lemma inv_shared init c s t :
  last_success (status s) = last_success (status (shared t)) → refresh_inv init c t → refresh_inv init c (set_shared s t).
Proof. intros E [H1 H2 H3 H4 H5 H6 H7 H8]. split; cbn; try done; [by rewrite E|]. unfold born in *. cbn. by rewrite E. Qed.

Lemma inv_end init c t : refresh_inv init c t → refresh_inv init c (end_task t).
Proof. intros [H1 H2 _ _ _ _ _ _]. split; cbn; try done; by intros [?|(? & ? & ?)]. Qed.

Lemma inv_clear init c t : refresh_inv init c t → refresh_inv init c (clear_keys (set_stale None t)).
Proof.
  intros [H1 H2 H3 H4 H5 H6 H7 H8]. split; cbn; try done; [by right; left|]. intros _.
  destruct (max_stale cfg); [by right|done].
Qed.

Lemma inv_due init c d t : (d <= next_due t)%N → refresh_inv init c t → refresh_inv init c (set_due d t).
Proof.
  intros Hd [H1 H2 H3 H4 H5 H6 H7 H8]. split; cbn; try done. intros Ha. specialize (H6 Ha).
  unfold last_attempt in *. cbn. lia.
Qed.

Lemma inv_start init c p t :
  now p = began → phase t = NotStarted → refresh_inv init c t → (c <= now p)%N → stopped (shared t) = false →
  refresh_inv init (now p) (turn cfg p t).
Proof.
  intros Hb Hp [H1 H2 H3 _ _ _ _ _] Hc Hs. destruct (H3 Hp) as [Ef El]. unfold turn. rewrite Hp, Hs.
  split; cbn; try done; unfold last_attempt, born; cbn; rewrite ?Ef, ?El; cbn; intros _; try lia.
  rewrite Hb. destruct (max_stale cfg); [by left|done].
Qed.

Lemma begin_fetch_inv init c p t :
  phase t = Waiting → (due_at t <= now p)%N → (c <= now p)%N → refresh_inv init c t →
  (refresh_inv init (now p) (set_phase (Fetching (now p) (now p + fetch_timeout cfg)%N) (begin_fetch cfg (now p) t)))
  ∧ refresh_inv init (now p) (finish_fetch cfg (now p) (Err Panicked) (begin_fetch cfg (now p) t)).
Proof.
  intros Hp Hd Hc [H1 H2 H3 H4 H5 H6 H7 H8]. assert (active t) as Ha by by left.
  specialize (H4 Ha). specialize (H5 Ha). specialize (H8 Ha). unfold due_at in Hd.
  assert (spaced (fetch_starts t ++ [now p])) as Hs.
  { apply spaced_snoc; [done|]. intros a Hl. assert (fetch_starts t ≠ []) as Hne by (intros E; by rewrite E in Hl).
    rewrite bool_decide_false in H5 by done. unfold last_attempt in H5. rewrite Hl in H5. cbn in H5. lia. }
  split.
  - split; cbn; try done; unfold last_attempt; cbn; rewrite ?last_snoc, ?bool_decide_false by (by destruct (fetch_starts t)); cbn.
    + intros _. lia.
    + done.
    + intros _. specialize (H6 Ha). destruct Hcfg as [_ _ _ _ Ho]. unfold last_attempt in *.
      destruct (bool_decide _); lia.
    + by intros s d [= <- <-].
  - apply finish_fetch_inv; cbn; try done. by rewrite last_snoc.
Qed.

Lemma turn_inv init c p t :
  (c <= now p)%N → honest p t → refresh_inv init c t → refresh_inv init (now p) (turn cfg p t).
Proof.
  intros Hc Ho Hi. pose proof (inv_clock _ _ _ _ Hc Hi) as Hi'.
  destruct (phase t) as [| |fs at_|] eqn:Hp.
  - destruct (stopped (shared t)) eqn:Hs; [unfold turn; rewrite Hp, Hs; by apply inv_end|].
    eapply inv_start; [by apply (ho_start _ _ Ho)|done..].
  - unfold turn. rewrite Hp. destruct (stopped (shared t) || stop (shared t)); [by apply inv_end|].
    destruct (stale_due p t); [by apply inv_clear|]. destruct (due_ready p) eqn:Hd.
    + destruct (ho_due _ _ Ho Hp) as [Hdue _]. destruct (begin_fetch_inv init c p t Hp (Hdue Hd) Hc Hi) as [H1 H2].
      cbv zeta. by destruct (call_panics p).
    + destruct (wake (shared t)); [|done]. apply inv_due; [cbn; lia|]. by apply inv_shared.
  - assert (active t) as Ha by (right; by eexists _, _). destruct (ri_fetching _ _ _ Hi' _ _ Hp) as [Hl Hat].
    assert (fetch_starts t ≠ []) as Hne by (intros E; by rewrite E in Hl).
    assert (∀ o, refresh_inv init (now p) (finish_fetch cfg fs o t)) as Hf.
    { intros o. pose proof (ri_clock _ _ _ Hi' Ha) as Hcl. pose proof (ri_allowed _ _ _ Hi' Ha) as Hal.
      rewrite bool_decide_false in Hal by done. unfold last_attempt in Hcl, Hal. rewrite Hl in Hcl, Hal.
      apply finish_fetch_inv; try done; [apply Hi'|apply Hi'|by apply Hi']. }
    unfold turn. rewrite Hp. destruct (stopped (shared t) || stop (shared t)); [by apply inv_end|].
    destruct (fetched p) as [|[]|]; try apply Hf. destruct (elapsed p); [apply Hf|].
    destruct (stale_due p t); [by apply inv_clear|done].
  - unfold turn. by rewrite Hp.
Qed.

Lemma rstep_inv init st st' : rstep st st' → refresh_inv init st.1 st.2 → refresh_inv init st'.1 st'.2.
Proof.
  intros H Hi. destruct H as [c t p Hc Ho|c t|c t]; cbn in *.
  - by eapply turn_inv.
  - by apply inv_shared.
  - unfold fire_trigger. destruct (stopped (shared t)); [done|]. by apply inv_shared.
Qed.

Lemma reach_inv init st : rtc rstep (0%N, with_observer init) st → refresh_inv init st.1 st.2.
Proof. revert st. refine (rtc_ind_r _ _ _ _); [apply inv_init|]. intros st st' _ Hs. by apply rstep_inv. Qed.

(** C33: Fetches are neither too frequent nor too rare. However often the trigger fires and
    whether fetches succeed, fail, hang or panic, two starts are at least the minimal
    interval apart; and whenever the task sleeps, less than the period and the lateness of a
    timer has passed since the last start (since the first poll, before any). *)
Theorem refresh_attempts init c t p :
  rtc rstep (0%N, with_observer init) (c, t) → (c <= now p)%N → honest p t →
  spaced (fetch_starts t) ∧ (idle p t → (now p < last_attempt t + period cfg + slack)%N).
Proof.
  intros Hr Hc Ho. pose proof (reach_inv _ _ Hr) as Hi. cbn in Hi. split; [apply Hi|].
  intros (_ & _ & _ & Hidle). destruct Hcfg as [? _ _ _ Hord]. destruct (phase t) as [| |s d|] eqn:Hp; try done.
  - assert (active t) as Ha by by left. destruct (ho_due _ _ Ho Hp) as [_ Hd]. destruct Hidle as [Hn _]. rewrite Hn in Hd.
    pose proof (ri_allowed _ _ _ Hi Ha) as H1. pose proof (ri_due _ _ _ Hi Ha) as H2. unfold due_at in Hd.
    destruct (N.le_gt_cases (N.max (next_due t) (next_allowed t) + slack) (now p)) as [Hle|]; [by specialize (Hd Hle)|].
    unfold last_attempt in *. case_bool_decide as E; [rewrite E; cbn|]; lia.
  - destruct (ho_elapsed _ _ Ho s d Hp) as [_ Hd]. destruct Hidle as [_ Hn]. rewrite Hn in Hd.
    destruct (ri_fetching _ _ _ Hi s d Hp) as [Hl ->]. unfold last_attempt. rewrite Hl. cbn.
    destruct (N.le_gt_cases (s + fetch_timeout cfg + slack) (now p)) as [Hle|]; [by specialize (Hd Hle)|]. lia.
Qed.

(** Stale keys are not kept. Whenever the task sleeps, either it has cleared the key set or the
    set is younger than the limit plus the lateness of a timer, counted from the start of the
    fetch that gave it (from the first poll for the initial set); and the set is always the initial
    one, the empty one or one that passed every check of the parser. *)
Theorem refresh_freshness init c t p :
  rtc rstep (0%N, with_observer init) (c, t) → (c <= now p)%N → honest p t →
  (rkeys t = init ∨ rkeys t = KeySet_empty ∨ ∃ json, from_json json = Ok (rkeys t))
  ∧ (idle p t → ∀ m, max_stale cfg = Some m → rkeys t = KeySet_empty ∨ (now p < born t + m + slack)%N).
Proof.
  intros Hr Hc Ho. pose proof (reach_inv _ _ Hr) as Hi. cbn in Hi. split; [apply Hi|].
  intros (_ & _ & Hs & Hidle) m Em. assert (active t) as Ha.
  { destruct (phase t) as [| |s d|] eqn:Hp; try done; [by left|right; by eexists _, _]. }
  pose proof (ri_stale _ _ _ Hi Ha) as H. rewrite Em in H. destruct H as [Hd|[_ ?]]; [|by left]. right.
  destruct (ho_stale _ _ Ho _ Hd) as [_ Ht]. unfold stale_due in Hs. rewrite Hd in Hs. cbn in Hs. rewrite Hs in Ht.
  destruct (N.le_gt_cases (born t + m + slack) (now p)) as [Hle|]; [by specialize (Ht Hle)|done].
Qed.

(** A stopped task ends at its next pass, and then nothing changes the keys any more. *)
Lemma stopped_turn p t : stopped (shared t) = true → phase (turn cfg p t) = Ended ∧ rkeys (turn cfg p t) = rkeys t.
Proof. intros Hs. unfold turn. destruct (phase t) eqn:Hp; rewrite ?Hs; cbn; done. Qed.

Theorem shutdown_ends init c t c' t' :
  rtc rstep (0%N, with_observer init) (c, t) → rtc rstep (c, shutdown t) (c', t') → rkeys t' = rkeys t ∧ stopped (shared t') = true.
Proof.
  intros _. assert (∀ st, rtc rstep (c, shutdown t) st → rkeys st.2 = rkeys t ∧ stopped (shared st.2) = true) as H.
  { refine (rtc_ind_r _ _ _ _); [done|]. intros st st' _ Hst [IH1 IH2].
    destruct Hst as [d u p Hc Ho|d u|d u]; cbn in *.
    - destruct (stopped_turn p u IH2) as [Hp Hk]. rewrite Hk. split; [done|].
      unfold turn in *. destruct (phase u) eqn:E; rewrite ?IH2; done.
    - done.
    - unfold fire_trigger. by rewrite IH2. }
  intros Hr. apply (H _ Hr).
Qed.

End refresh.

(** ** Instances *)

#[local] Existing Instance demo_crates.

Definition demo_refresh : RefreshConfig :=
  {| period := from_secs 60; min_interval := from_secs 10; fetch_timeout := from_secs 5; max_stale := Some (from_secs 65) |}.
Definition demo_slack : N := 1000000.
(** The first poll, the pass that starts a fetch, and one that waits for it. *)
Definition demo_first (due : bool) : Poll :=
  {| now := 7; stale_ready := false; due_ready := due; call_panics := false; fetched := FPending; elapsed := false |}.
Definition demo_wait : Poll :=
  {| now := from_secs 1; stale_ready := false; due_ready := false; call_panics := false; fetched := FPending; elapsed := false |}.
Definition demo_started : Task := turn demo_refresh (demo_first false) (with_observer demo_keys).
Definition demo_fetching : Task := turn demo_refresh (demo_first true) demo_started.

Lemma demo_refresh_ok : config_ok demo_refresh.
Proof. apply (refresh_build_Ok demo_refresh). vm_compute. reflexivity. Qed.

Example demo_fetch_ends :
  let t := turn demo_refresh {| now := from_secs 2; stale_ready := false; due_ready := false; call_panics := false;
    fetched := FReady (Ok {| jr_body := lit "{jwks}"; max_age := Some (from_secs 1) |}); elapsed := false |} demo_fetching in
  phase t = Waiting ∧ rkeys t = demo_keys ∧ next_due t = (7 + from_secs 10)%N ∧ events t = [Updated 1 0].
Proof. vm_compute. auto. Qed.

Lemma demo_honest p t :
  (phase t = NotStarted → now p = 7%N) → stale_ready p = false → (now p < 7 + from_secs 5)%N →
  (phase t = Waiting → due_ready p = true ∧ due_at t = 7%N) → elapsed p = false →
  (∀ d, stale_deadline t = Some d → d = (7 + from_secs 65)%N) → (∀ s d, phase t = Fetching s d → d = (7 + from_secs 5)%N) →
  (7 <= now p)%N → honest 7 demo_slack p t.
Proof.
  intros H1 H2 H3 H4 H5 H6 H7 H8. split; [done|..]; unfold timer, demo_slack, from_secs in *.
  - intros d ->%H6. rewrite H2. split; [done|lia].
  - intros [-> ->]%H4. split; [done|done].
  - intros s d ->%H7. rewrite H5. split; [done|lia].
Qed.

Lemma demo_rreach :
  rtc (rstep demo_refresh 7 demo_slack) (0%N, with_observer demo_keys) (7%N, demo_fetching).
Proof.
  eapply rtc_l; [apply (r_turn _ _ _ 0 (with_observer demo_keys) (demo_first false)); [cbn; lia|]|].
  { apply demo_honest; cbn; try done; unfold from_secs; lia. }
  apply rtc_once. apply (r_turn _ _ _ 7 demo_started (demo_first true)); [cbn; lia|].
  apply demo_honest; cbn; try done; try (unfold from_secs; lia). by intros d [= <-].
Qed.

Lemma demo_wait_honest : honest 7 demo_slack demo_wait demo_fetching.
Proof.
  apply demo_honest; cbn; try done; try (unfold from_secs; lia); [by intros d [= <-]|by intros s d [= _ <-]].
Qed.

Lemma demo_idle : idle demo_wait demo_fetching.
Proof. by repeat split. Qed.

Lemma refresh_attempts_witness :
  idle demo_wait demo_fetching ∧ spaced demo_refresh (fetch_starts demo_fetching)
  ∧ (from_secs 1 < last_attempt 7 demo_fetching + from_secs 60 + demo_slack)%N.
Proof.
  destruct (refresh_attempts demo_refresh demo_refresh_ok 7 demo_slack demo_keys 7 demo_fetching demo_wait demo_rreach) as [H1 H2].
  - vm_compute. discriminate.
  - exact demo_wait_honest.
  - exact (conj demo_idle (conj H1 (H2 demo_idle))).
Defined.

Lemma refresh_freshness_witness :
  idle demo_wait demo_fetching
  ∧ (rkeys demo_fetching = KeySet_empty ∨ (from_secs 1 < born 7 demo_fetching + from_secs 65 + demo_slack)%N).
Proof.
  destruct (refresh_freshness demo_refresh demo_refresh_ok 7 demo_slack demo_keys 7 demo_fetching demo_wait demo_rreach) as [H1 H2].
  - vm_compute. discriminate.
  - exact demo_wait_honest.
  - exact (conj demo_idle (H2 demo_idle (from_secs 65) eq_refl)).
Defined.
