(* ===== verification/NetAddr.v ===== *)
(** * [std::net]: the text of a socket address

    [str::parse::<SocketAddr>], which plugin-webrtc applies to its bind addresses: the recursive
    descent parser of the standard library.  A reader takes a prefix of the text, or fails and
    consumes nothing. *)

From S2P Require Import Prelude Text Radix Gate.

#[local] Open Scope N_scope.

Definition reader (A : Type) : Type := bytes → option (A * bytes).

Definition read_given_char (c : byte) : reader unit := λ s, pair tt <$> strip_prefix [c] s.

(** The digits at the front of [s], their number and their value. *)
Fixpoint read_digits (radix : N) (count : nat) (value : N) (s : bytes) : nat * N * bytes :=
  match s with
  | c :: s' =>
      match to_digit radix c with
      | Some d => read_digits radix (S count) (value * radix + d) s'
      | None => (count, value, s)
      end
  | [] => (count, value, [])
  end.

(** [read_number] for an integer type of maximum [max]. *)
Definition read_number (radix max : N) (max_digits : option nat) (allow_zero_prefix : bool) : reader N := λ s,
  let has_leading_zero := match s with x30 :: _ => true | _ => false end in
  let '(count, value, rest) := read_digits radix 0 0 s in
  if (count =? 0)%nat then None
  else if match max_digits with Some m => (m <? count)%nat | None => false end then None
  else if negb allow_zero_prefix && has_leading_zero && (1 <? count)%nat then None
  else if max <? value then None
  else Some (value, rest).

(** [read_separator]: [sep] before every element but the first one. *)
Definition read_separator {A} (sep : byte) (first : bool) (inner : reader A) : reader A := λ s,
  if first then inner s
  else let! (_, rest) := read_given_char sep s else None in inner rest.

Fixpoint read_octets (n : nat) (first : bool) : reader (list N) := λ s,
  match n with
  | O => Some ([], s)
  | S n =>
      let! (v, rest) := read_separator x2e first (read_number 10 255 (Some 3%nat) false) s else None in
      let! (vs, rest) := read_octets n false rest else None in
      Some (v :: vs, rest)
  end.

Definition read_ipv4_addr : reader (list N) := read_octets 4 true.

(** [read_groups]: the groups read, and whether an IPv4 address ended them. *)
Fixpoint read_groups6 (limit : nat) (first : bool) (s : bytes) : list N * bool * bytes :=
  match limit with
  | O => ([], false, s)
  | S limit' =>
      match (if (1 <=? limit')%nat then read_separator x3a first read_ipv4_addr s else None) with
      | Some ([one; two; three; four], rest) => ([one * 256 + two; three * 256 + four], true, rest)
      | _ =>
          match read_separator x3a first (read_number 16 u16_max (Some 4%nat) true) s with
          | Some (v, rest) =>
              let '(vs, v4, rest) := read_groups6 limit' false rest in (v :: vs, v4, rest)
          | None => ([], false, s)
          end
      end
  end.

Definition read_ipv6_addr : reader (list N) := λ s,
  let '(head, head_ipv4, rest) := read_groups6 8 true s in
  if (length head =? 8)%nat then Some (head, rest)
  else if head_ipv4 : bool then None
  else
    let! (_, rest) := read_given_char x3a rest else None in
    let! (_, rest) := read_given_char x3a rest else None in
    let '(tail, _, rest) := read_groups6 (8 - (length head + 1)) true rest in
    Some (head ++ replicate (8 - length head - length tail) 0 ++ tail, rest).

Definition read_port : reader N := λ s,
  let! (_, rest) := read_given_char x3a s else None in read_number 10 u16_max None true rest.

Definition read_scope_id : reader N := λ s,
  let! (_, rest) := read_given_char x25 s else None in read_number 10 u32_max None true rest.

Definition read_socket_addr_v4 : reader SocketAddr := λ s,
  let! (ip, rest) := read_ipv4_addr s else None in
  let! (port, rest) := read_port rest else None in
  Some ((ip, port), rest).

Definition read_socket_addr_v6 : reader SocketAddr := λ s,
  let! (_, rest) := read_given_char x5b s else None in
  let! (ip, rest) := read_ipv6_addr rest else None in
  let rest := match read_scope_id rest with Some (_, rest) => rest | None => rest end in
  let! (_, rest) := read_given_char x5d rest else None in
  let! (port, rest) := read_port rest else None in
  Some ((ip, port), rest).

(** [str::parse::<SocketAddr>().ok()]. *)
Definition parse_socket_addr (s : bytes) : option SocketAddr :=
  match (match read_socket_addr_v4 s with Some r => Some r | None => read_socket_addr_v6 s end) with
  | Some (addr, []) => Some addr
  | _ => None
  end.

Example parse_socket_addr_v4 : parse_socket_addr (lit "127.0.0.1:8080") = Some ([127; 0; 0; 1], 8080).
Proof. vm_compute. reflexivity. Qed.
Example parse_socket_addr_v6 : parse_socket_addr (lit "[2001:db8::1%3]:0")
  = Some ([0x2001; 0xdb8; 0; 0; 0; 0; 0; 1], 0).
Proof. vm_compute. reflexivity. Qed.
Example parse_socket_addr_v4_in_v6 : parse_socket_addr (lit "[::ffff:1.2.3.4]:1")
  = Some ([0; 0; 0; 0; 0; 0xffff; 0x102; 0x304], 1).
Proof. vm_compute. reflexivity. Qed.
Example parse_socket_addr_bad :
  List.forallb (λ s, bool_decide (parse_socket_addr s = None))
    [lit "localhost:80"; lit "127.0.0.1"; lit "127.0.0.01:1"; lit "256.0.0.1:1"; lit "1.2.3.4:65536"; lit "[::1]";
     lit "::1:80"; lit "1.2.3.4:80 "] = true.
Proof. vm_compute. reflexivity. Qed.

(** ** An IPv4 address with a port is parsed back from its text *)

Definition no_digit_ahead (rest : bytes) : Prop :=
  match rest with c :: _ => to_digit 10 c = None | [] => True end.

Lemma read_digits_decimal s rest value count v :
  digits_value 10 value s = Some v → no_digit_ahead rest →
  read_digits 10 count value (s ++ rest) = ((count + length s)%nat, v, rest).
Proof.
  intros H Hrest. revert value count H. induction s as [|c s IH]; intros value count; cbn.
  { intros [= <-]. rewrite Nat.add_0_r. destruct rest; cbn in *; [done|by rewrite Hrest]. }
  destruct (to_digit 10 c) as [d|]; [|done]. intros H. rewrite (IH _ _ H). eq_by_lia.
Qed.

Lemma read_number_decimal max digits zero n rest :
  n ≤ max → no_digit_ahead rest →
  match digits with Some m => (length (to_decimal n) ≤ m)%nat | None => True end →
  zero = true ∨ (length (to_decimal n) ≤ 1)%nat ∨ hd_error (to_decimal n) ≠ Some x30 →
  read_number 10 max digits zero (to_decimal n ++ rest) = Some (n, rest).
Proof.
  intros Hmax Hrest Hdigits Hzero. unfold read_number.
  rewrite (read_digits_decimal _ _ _ _ _ (to_decimal_value n) Hrest).
  destruct (to_decimal n) as [|c s] eqn:Hn; [by destruct (to_radix_not_nil 10 n)|].
  cbn [Nat.add length Nat.eqb app].
  assert ((max <? n) = false) as -> by (apply N.ltb_ge; lia).
  assert (match digits with Some m => (m <? S (length s))%nat | None => false end = false) as ->.
  { destruct digits; [apply Nat.ltb_ge; simpl in *; lia|done]. }
  destruct zero; [done|]. destruct Hzero as [?|[H1|H0]]; [done| |].
  - assert ((1 <? S (length s))%nat = false) as -> by (apply Nat.ltb_ge; simpl in *; lia).
    by rewrite andb_false_r.
  - by destruct c.
Qed.

Definition octet_text_ok (n : N) : bool :=
  ((length (to_decimal n) <=? 3)%nat)
  && ((length (to_decimal n) <=? 1)%nat || negb (bool_decide (hd_error (to_decimal n) = Some x30))).

Lemma octet_text n : n ≤ 255 → octet_text_ok n = true.
Proof.
  intros H. assert (forallb (λ k, octet_text_ok (N.of_nat k)) (seq 0 256) = true) as Hall.
  { vm_compute. reflexivity. }
  rewrite forallb_forall in Hall. rewrite <- (N2Nat.id n). apply Hall, in_seq. lia.
Qed.

Lemma read_octet n rest :
  n ≤ 255 → no_digit_ahead rest →
  read_number 10 255 (Some 3%nat) false (to_decimal n ++ rest) = Some (n, rest).
Proof.
  intros H Hrest. pose proof (octet_text n H) as Hn. unfold octet_text_ok in Hn.
  apply andb_prop in Hn as [H3 H0]. apply Nat.leb_le in H3.
  apply read_number_decimal; [done..|]. right.
  apply orb_prop in H0 as [H0|H0]; bool_to_prop; auto.
Qed.

Definition ipv4_to_string (ip : list N) : bytes := join (lit ".") (to_decimal <$> ip).
Definition socket_addr_v4_to_string (addr : SocketAddr) : bytes :=
  ipv4_to_string addr.1 ++ lit ":" ++ to_decimal addr.2.

Lemma read_separator_dot {A} first (r : reader A) t :
  read_separator x2e first r ((if first : bool then [] else lit ".") ++ t) = r t.
Proof. by destruct first. Qed.

Lemma read_octets_join ip first rest :
  ip ≠ [] → Forall (λ n, n ≤ 255) ip → no_digit_ahead rest →
  read_octets (length ip) first ((if first : bool then [] else lit ".") ++ ipv4_to_string ip ++ rest) = Some (ip, rest).
Proof.
  intros Hne Hip Hrest. revert first. induction ip as [|n ip IH]; [done|]. intros first.
  apply Forall_cons in Hip as [Hn Hip]. cbn [length read_octets]. rewrite read_separator_dot.
  destruct ip as [|m ip].
  - change (ipv4_to_string [n]) with (to_decimal n). by rewrite (read_octet n rest Hn Hrest).
  - change (ipv4_to_string (n :: m :: ip)) with (to_decimal n ++ lit "." ++ ipv4_to_string (m :: ip)).
    rewrite <- !app_assoc, read_octet; [|done..]. cbv beta iota.
    specialize (IH ltac:(done) Hip false). cbv iota in IH. by rewrite IH.
Qed.

(** The address whose text it is. *)
Theorem parse_socket_addr_v4_roundtrip ip port :
  length ip = 4%nat → Forall (λ n, n ≤ 255) ip → port ≤ u16_max →
  parse_socket_addr (socket_addr_v4_to_string (ip, port)) = Some (ip, port).
Proof.
  intros Hlen Hip Hport. unfold parse_socket_addr, socket_addr_v4_to_string, read_socket_addr_v4, read_ipv4_addr.
  cbn [fst snd].
  pose proof (read_octets_join ip true (lit ":" ++ to_decimal port)) as H. rewrite Hlen in H.
  change ([] ++ ?x) with x in H. rewrite H; [|by destruct ip|done|done].
  unfold read_port. change (read_given_char x3a (lit ":" ++ to_decimal port)) with (Some (tt, to_decimal port)).
  pose proof (read_number_decimal u16_max None true port [] Hport I I (or_introl eq_refl)) as Hp.
  rewrite app_nil_r in Hp. cbv beta iota. by rewrite Hp.
Qed.
