(* ===== verification/WebRtc.v ===== *)
(** * [plugin-webrtc]: signalling and the registry of peer connections

    [config.rs] (the configuration and the registry that its clones share), [handler.rs] (the
    handler of [POST /rtc/offer] with its guard and its build task, the limit of data channels,
    the echo loop) and [drain.rs].  A call, its build task, the callbacks of a peer and a drain run
    concurrently: each is cut into steps at its locks and awaits, and an [Event] is one step of one of
    them, so that every interleaving is a list of events.  What the webrtc crate answers is part of
    the event.  A peer connection is its number in the order of creation. *)

From S2P Require Import Prelude Text Utf8 Radix Extensions Request Response Gate ServerConfig NetAddr.

#[local] Open Scope N_scope.

(** ** [config.rs] *)

Definition DEFAULT_MAX_OFFER_BYTES : N := 64 * 1024.
Definition DEFAULT_MAX_PEER_CONNECTIONS : N := 64.
Definition DEFAULT_DATA_CHANNEL_SEND_BUFFER_LIMIT : N := 1024 * 1024.
Definition DEFAULT_MAX_DATA_CHANNELS_PER_CONNECTION : N := 16.
Definition DEFAULT_SIGNALING_TIMEOUT : Duration := from_secs 10.

(** The fields of [WebRtcConfig] that its clones do not share. *)
Record WebRtcConfig := {
  max_offer_bytes : N;
  max_peer_connections : N;
  data_channel_send_buffer_limit : N;
  max_data_channels_per_connection : N;
  signaling_timeout : Duration;
  udp_bind_addrs : list bytes;
}.

Definition WebRtcConfig_default : WebRtcConfig :=
  {| max_offer_bytes := DEFAULT_MAX_OFFER_BYTES; max_peer_connections := DEFAULT_MAX_PEER_CONNECTIONS;
     data_channel_send_buffer_limit := DEFAULT_DATA_CHANNEL_SEND_BUFFER_LIMIT;
     max_data_channels_per_connection := DEFAULT_MAX_DATA_CHANNELS_PER_CONNECTION;
     signaling_timeout := DEFAULT_SIGNALING_TIMEOUT; udp_bind_addrs := [lit "0.0.0.0:0"] |}.

Definition with_max_offer_bytes (v : N) (self : WebRtcConfig) : WebRtcConfig :=
  {| max_offer_bytes := v; max_peer_connections := max_peer_connections self;
     data_channel_send_buffer_limit := data_channel_send_buffer_limit self;
     max_data_channels_per_connection := max_data_channels_per_connection self;
     signaling_timeout := signaling_timeout self; udp_bind_addrs := udp_bind_addrs self |}.
Definition with_max_peer_connections (v : N) (self : WebRtcConfig) : WebRtcConfig :=
  {| max_offer_bytes := max_offer_bytes self; max_peer_connections := v;
     data_channel_send_buffer_limit := data_channel_send_buffer_limit self;
     max_data_channels_per_connection := max_data_channels_per_connection self;
     signaling_timeout := signaling_timeout self; udp_bind_addrs := udp_bind_addrs self |}.
Definition with_data_channel_send_buffer_limit (v : N) (self : WebRtcConfig) : WebRtcConfig :=
  {| max_offer_bytes := max_offer_bytes self; max_peer_connections := max_peer_connections self;
     data_channel_send_buffer_limit := v;
     max_data_channels_per_connection := max_data_channels_per_connection self;
     signaling_timeout := signaling_timeout self; udp_bind_addrs := udp_bind_addrs self |}.
Definition with_max_data_channels_per_connection (v : N) (self : WebRtcConfig) : WebRtcConfig :=
  {| max_offer_bytes := max_offer_bytes self; max_peer_connections := max_peer_connections self;
     data_channel_send_buffer_limit := data_channel_send_buffer_limit self;
     max_data_channels_per_connection := v;
     signaling_timeout := signaling_timeout self; udp_bind_addrs := udp_bind_addrs self |}.
Definition with_signaling_timeout (v : Duration) (self : WebRtcConfig) : WebRtcConfig :=
  {| max_offer_bytes := max_offer_bytes self; max_peer_connections := max_peer_connections self;
     data_channel_send_buffer_limit := data_channel_send_buffer_limit self;
     max_data_channels_per_connection := max_data_channels_per_connection self;
     signaling_timeout := v; udp_bind_addrs := udp_bind_addrs self |}.
Definition with_udp_bind_addrs (v : list bytes) (self : WebRtcConfig) : WebRtcConfig :=
  {| max_offer_bytes := max_offer_bytes self; max_peer_connections := max_peer_connections self;
     data_channel_send_buffer_limit := data_channel_send_buffer_limit self;
     max_data_channels_per_connection := max_data_channels_per_connection self;
     signaling_timeout := signaling_timeout self; udp_bind_addrs := v |}.

Definition parsed_udp_bind_addrs (self : WebRtcConfig) : option (list SocketAddr) :=
  if bool_decide (udp_bind_addrs self = []) then None
  else mapM parse_socket_addr (udp_bind_addrs self).

Inductive RegistrySlot := Reserved | Active (pc : nat).

(** ** The states of a signalling *)

(** [PcState], shared by the guard and its build task. *)
Inductive PcState := Empty | Building | Abandoned | Held (pc : nat).

(** Where the future of [try_handle_rtc_offer] is once it holds a slot: in [complete_signaling]
    (before the parse, at [rx.await], at the five awaits on the connection, before and within
    [activate]), in [finish], in the drop of the guard, or over, with the response if there is one. *)
Inductive Stage :=
| AtParse (body : bytes)
| AtBuild
| AtSetRemote
| AtCreateAnswer
| AtSetLocal
| AtGather
| AtLocalDesc
| AtActivate (answer : bytes)
| AtActivateSlot (pc : nat) (answer : bytes)
| AtFinish (r : Response)
| AtClosing (r : Response)
| AtRelease (r : Response)
| AtDrop (r : option Response)
| AtDropRelease (pc : option nat) (r : option Response)
| Gone (r : option Response).

(** Where [run_build] is: not spawned, at [build.await], before [tx.send], at [pc.close().await] of
    an abandoned connection, before [release_slot] (with what it sends then, if anything), over. *)
Inductive BuildStage :=
| BNone
| BAwait
| BSend (r : result unit unit)
| BClosing
| BRelease (next : option (result unit unit))
| BDone.

Record Signaling := {
  slot_id : N;
  state : PcState;
  armed : bool;
  stage : Stage;
  build : BuildStage;
  (** What the oneshot channel of [build_owned] carries. *)
  sent : option (result unit unit);
}.

Definition SignalingGuard_new (slot_id : N) (body : bytes) : Signaling :=
  {| slot_id := slot_id; state := Empty; armed := true; stage := AtParse body; build := BNone; sent := None |}.

Definition set_stage (g : Stage) (s : Signaling) : Signaling :=
  {| slot_id := slot_id s; state := state s; armed := armed s; stage := g; build := build s; sent := sent s |}.
Definition set_state (p : PcState) (s : Signaling) : Signaling :=
  {| slot_id := slot_id s; state := p; armed := armed s; stage := stage s; build := build s; sent := sent s |}.
Definition disarm (s : Signaling) : Signaling :=
  {| slot_id := slot_id s; state := state s; armed := false; stage := stage s; build := build s; sent := sent s |}.
Definition set_build (b : BuildStage) (s : Signaling) : Signaling :=
  {| slot_id := slot_id s; state := state s; armed := armed s; stage := stage s; build := b; sent := sent s |}.
Definition set_sent (r : result unit unit) (s : Signaling) : Signaling :=
  {| slot_id := slot_id s; state := state s; armed := armed s; stage := stage s; build := build s; sent := Some r |}.

(** ** The shared state

    [signalings] has every call that got a slot, in that order; [next_pc] is the number of connections
    built; [closing] has the connections whose [close] was called or handed to a task, and [forgotten]
    those that [spawn_close] dropped because there was no runtime. *)
Record World := {
  config : WebRtcConfig;
  registry : list (N * RegistrySlot);
  next_slot_id : N;
  terminal_draining : bool;
  signalings : list Signaling;
  next_pc : nat;
  closing : list nat;
  forgotten : list nat;
}.

Definition init (cfg : WebRtcConfig) : World :=
  {| config := cfg; registry := []; next_slot_id := 0; terminal_draining := false; signalings := []; next_pc := 0;
     closing := []; forgotten := [] |}.

Definition set_registry (r : list (N * RegistrySlot)) (w : World) : World :=
  {| config := config w; registry := r; next_slot_id := next_slot_id w; terminal_draining := terminal_draining w;
     signalings := signalings w; next_pc := next_pc w; closing := closing w; forgotten := forgotten w |}.
Definition set_signaling (i : nat) (s : Signaling) (w : World) : World :=
  {| config := config w; registry := registry w; next_slot_id := next_slot_id w;
     terminal_draining := terminal_draining w; signalings := <[i := s]> (signalings w); next_pc := next_pc w;
     closing := closing w; forgotten := forgotten w |}.
Definition push_signaling (s : Signaling) (w : World) : World :=
  {| config := config w; registry := registry w; next_slot_id := next_slot_id w;
     terminal_draining := terminal_draining w; signalings := signalings w ++ [s]; next_pc := next_pc w;
     closing := closing w; forgotten := forgotten w |}.
Definition close (pcs : list nat) (w : World) : World :=
  {| config := config w; registry := registry w; next_slot_id := next_slot_id w;
     terminal_draining := terminal_draining w; signalings := signalings w; next_pc := next_pc w;
     closing := pcs ++ closing w; forgotten := forgotten w |}.
Definition forget (pc : nat) (w : World) : World :=
  {| config := config w; registry := registry w; next_slot_id := next_slot_id w;
     terminal_draining := terminal_draining w; signalings := signalings w; next_pc := next_pc w;
     closing := closing w; forgotten := pc :: forgotten w |}.
Definition count_pc (w : World) : World :=
  {| config := config w; registry := registry w; next_slot_id := next_slot_id w;
     terminal_draining := terminal_draining w; signalings := signalings w; next_pc := S (next_pc w);
     closing := closing w; forgotten := forgotten w |}.

(** [spawn_close], within a tokio runtime or not. *)
Definition spawn_close (runtime : bool) (pc : nat) (w : World) : World :=
  if runtime then close [pc] w else forget pc w.

Definition reserve_slot (w : World) : option (N * World) :=
  if max_peer_connections (config w) <=? len (registry w) then None
  else
    let id := next_slot_id w in
    Some (id,
      {| config := config w; registry := registry w ++ [(id, Reserved)]; next_slot_id := (id + 1) mod 2 ^ 64;
         terminal_draining := terminal_draining w; signalings := signalings w; next_pc := next_pc w;
         closing := closing w; forgotten := forgotten w |}).

(** [iter_mut().find(|(id, _)| *id == slot_id)], whose slot becomes [v]. *)
Fixpoint put_slot (slot_id : N) (v : RegistrySlot) (r : list (N * RegistrySlot)) : option (list (N * RegistrySlot)) :=
  match r with
  | [] => None
  | (id, slot) :: r =>
      if id =? slot_id then Some ((id, v) :: r)
      else cons (id, slot) <$> put_slot slot_id v r
  end.

Definition activate_slot (runtime : bool) (slot_id : N) (pc : nat) (w : World) : bool * World :=
  if terminal_draining w then
    (false, spawn_close runtime pc (set_registry (List.filter (λ e, negb (e.1 =? slot_id)) (registry w)) w))
  else
    match put_slot slot_id (Active pc) (registry w) with
    | Some r => (true, set_registry r w)
    | None => (false, spawn_close runtime pc w)
    end.

(** [iter().position(..)] and [remove]: what is removed, and the rest. *)
Fixpoint remove_slot (slot_id : N) (r : list (N * RegistrySlot)) : option (RegistrySlot * list (N * RegistrySlot)) :=
  match r with
  | [] => None
  | (id, slot) :: r =>
      if id =? slot_id then Some (slot, r)
      else let! (removed, r) := remove_slot slot_id r else None in Some (removed, (id, slot) :: r)
  end.

Definition release_slot (runtime : bool) (slot_id : N) (w : World) : World :=
  match remove_slot slot_id (registry w) with
  | Some (Active pc, r) => spawn_close runtime pc (set_registry r w)
  | Some (Reserved, r) => set_registry r w
  | None => w
  end.

Definition active_pc (e : N * RegistrySlot) : option nat :=
  match e.2 with Active pc => Some pc | Reserved => None end.
Definition is_reserved (e : N * RegistrySlot) : bool :=
  match e.2 with Active _ => false | Reserved => true end.

Definition take_active_peers (w : World) : list nat * World :=
  (omap active_pc (registry w), set_registry (List.filter is_reserved (registry w)) w).

Definition begin_terminal_drain (w : World) : World :=
  {| config := config w; registry := registry w; next_slot_id := next_slot_id w; terminal_draining := true;
     signalings := signalings w; next_pc := next_pc w; closing := closing w; forgotten := forgotten w |}.

(** ** [drain.rs]

    [close_active_peers] spawns one task per peer that closes it, in the same poll in which it takes
    them; then it only waits, at most [per_close_timeout] for each. *)
Definition close_active_peers (w : World) : World :=
  let '(peers, w) := take_active_peers w in close peers w.

(** ** [handler.rs] *)

Definition OFFER_PATH : bytes := lit "/rtc/offer".

(** [{"error":"<code>"}]. *)
Definition error_json (code : bytes) : bytes :=
  [x7b; x22] ++ lit "error" ++ [x22] ++ lit ":" ++ [x22] ++ code ++ [x22; x7d].
Definition error_response (status : N) (code : bytes) : Response :=
  with_content_type (lit "application/json") (response_new status (error_json code)).
Definition answer_response (answer : bytes) : Response :=
  with_content_type (lit "application/json") (response_new 200 answer).

(** serde_json with [RTCSessionDescription] of the webrtc crate. *)
Class WebRtcCrate := {
  Desc : Type;
  desc_from_slice : bytes → option Desc;
  desc_to_vec : Desc → option bytes;
}.

Section handler.
Context {AT : AnyTypes} {MM : Memmem} {WC : WebRtcCrate}.

(** [usize::MAX] of a 64-bit target bounds the declared length. *)
Definition check_offer (cfg : WebRtcConfig) (head : RequestHead) (body : bytes) : option Response :=
  match header head (lit "content-length") ≫= parse_uint u64_max with
  | None => Some (error_response 400 (lit "missing_content_length"))
  | Some declared_len =>
      if negb (declared_len =? len body) then Some (error_response 400 (lit "content_length_mismatch"))
      else if max_offer_bytes cfg <? len body then Some (error_response 413 (lit "offer_too_large"))
      else match parsed_udp_bind_addrs cfg with
           | None => Some (error_response 500 (lit "peer_connection_init_failed"))
           | Some _ => None
           end
  end.

(** The first part of [try_handle_rtc_offer]: not its path, a response, or a signalling that holds a
    slot. *)
Inductive Entry := NotHandled | Refused (r : Response) | Started (w : World).

Definition try_handle_rtc_offer (head : RequestHead) (body : bytes) (w : World) : Entry :=
  if negb (str_eqb (method head) (lit "POST")) || negb (str_eqb (target head) OFFER_PATH) then NotHandled
  else
    match check_offer (config w) head body with
    | Some r => Refused r
    | None =>
        match reserve_slot w with
        | None => Refused (error_response 503 (lit "peer_connection_limit_reached"))
        | Some (id, w) => Started (push_signaling (SignalingGuard_new id body) w)
        end
    end.

(** What an await of the call finds: success, an error, or a local description. *)
Inductive Answer := AOk | AErr | ADesc (d : option Desc).
(** What an await of the build task finds; a panic and a dropped task are the same to it. *)
Inductive BuildAnswer := BOk | BErr | BPanic.
Inductive RTCPeerConnectionState := PcNew | PcConnecting | PcConnected | PcDisconnected | PcFailed | PcClosed.

(** One step of the call [s], whose awaits are ready with [a]. *)
Definition complete_signaling (runtime : bool) (a : Answer) (s : Signaling) (w : World) : option (Signaling * World) :=
  let goto g := Some (set_stage g s, w) in
  let fail status code := goto (AtFinish (error_response status code)) in
  match stage s with
  | AtParse body =>
      match desc_from_slice body with
      | None => fail 400 (lit "invalid_offer_json")
      | Some _ =>
          if runtime then Some (set_stage AtBuild (set_build BAwait (set_state Building s)), w)
          else fail 500 (lit "peer_connection_init_failed")
      end
  | AtBuild =>
      match sent s, build s with
      | Some (Ok _), _ =>
          match state s with
          | Held _ => goto AtSetRemote
          | _ => fail 500 (lit "peer_connection_init_failed")
          end
      | Some (Err _), _ | None, BDone => fail 500 (lit "peer_connection_init_failed")
      | None, _ => None
      end
  | AtSetRemote =>
      match a with
      | AOk => goto AtCreateAnswer
      | _ => fail 400 (lit "invalid_remote_description")
      end
  | AtCreateAnswer =>
      match a with
      | AOk => goto AtSetLocal
      | _ => fail 500 (lit "create_answer_failed")
      end
  | AtSetLocal =>
      match a with
      | AOk => goto AtGather
      | _ => fail 500 (lit "set_local_description_failed")
      end
  | AtGather => goto AtLocalDesc
  | AtLocalDesc =>
      match a with
      | ADesc (Some d) =>
          match desc_to_vec d with
          | Some answer => goto (AtActivate answer)
          | None => fail 500 (lit "serialization_failed")
          end
      | _ => fail 500 (lit "local_description_missing")
      end
  (* [activate] *)
  | AtActivate answer =>
      match state s with
      | Held pc => Some (set_stage (AtActivateSlot pc answer) (disarm (set_state Empty s)), w)
      | _ => goto (AtDrop (Some (answer_response answer)))
      end
  | AtActivateSlot pc answer =>
      Some (set_stage (AtDrop (Some (answer_response answer))) s, (activate_slot runtime (slot_id s) pc w).2)
  (* [finish] *)
  | AtFinish r =>
      match state s with
      | Held pc => Some (set_stage (AtClosing r) s, close [pc] w)
      | _ => goto (AtRelease r)
      end
  | AtClosing r => goto (AtRelease r)
  | AtRelease r => Some (set_stage (AtDrop (Some r)) (disarm s), release_slot runtime (slot_id s) w)
  (* [Drop for SignalingGuard] *)
  | AtDrop r =>
      if negb (armed s) then goto (Gone r)
      else
        match state s with
        | Building => Some (set_stage (Gone r) (set_state Abandoned s), w)
        | Held pc => Some (set_stage (AtDropRelease (Some pc) r) (set_state Empty s), w)
        | Empty | Abandoned => Some (set_stage (AtDropRelease None r) (set_state Empty s), w)
        end
  | AtDropRelease pc r =>
      let w := release_slot runtime (slot_id s) w in
      Some (set_stage (Gone r) s, match pc with Some pc => spawn_close runtime pc w | None => w end)
  | Gone _ => None
  end.

(** The future is at an await, where [tokio::time::timeout] can drop it, and its owner too. *)
Definition at_await (s : Signaling) : bool :=
  match stage s with
  | AtBuild | AtSetRemote | AtCreateAnswer | AtSetLocal | AtGather | AtLocalDesc | AtClosing _ => true
  | _ => false
  end.

(** [within_signaling_deadline] when the timeout elapses, and a dropped call. *)
Definition within_signaling_deadline (s : Signaling) : Signaling :=
  set_stage (AtDrop (Some (error_response 504 (lit "signaling_timeout")))) s.
Definition drop_call (s : Signaling) : Signaling := set_stage (AtDrop None) s.

(** [PcState::Building] becomes [PcState::Empty], anything else stays. *)
Definition build_over (s : Signaling) : Signaling :=
  match state s with Building => set_state Empty s | _ => s end.

(** One step of the build task; [BRelease None] is the end of the drop of [BuildTaskCleanup], and of
    an abandoned build. *)
Definition run_build (runtime : bool) (b : BuildAnswer) (s : Signaling) (w : World) : option (Signaling * World) :=
  match build s with
  | BNone | BDone => None
  | BAwait =>
      match b with
      | BOk =>
          let pc := next_pc w in
          match state s with
          | Building => Some (set_build (BSend (Ok tt)) (set_state (Held pc) s), count_pc w)
          | _ => Some (set_build BClosing s, close [pc] (count_pc w))
          end
      | BErr => Some (set_build (BRelease (Some (Err tt))) (build_over s), w)
      | BPanic => Some (set_build (BRelease None) (build_over s), w)
      end
  | BClosing => Some (set_build (BRelease None) (build_over s), w)
  | BRelease next =>
      Some (set_build (match next with Some r => BSend r | None => BDone end) s, release_slot runtime (slot_id s) w)
  | BSend r => Some (set_build BDone (set_sent r s), w)
  end.

(** [SignalingHandler::on_connection_state_change]. *)
Definition on_connection_state_change (runtime : bool) (st : RTCPeerConnectionState) (s : Signaling) (w : World) : World :=
  match st with
  | PcClosed | PcFailed => release_slot runtime (slot_id s) w
  | _ => w
  end.

(** ** Events *)

Inductive Event :=
| Offer (head : RequestHead) (body : bytes)
| Advance (i : nat) (runtime : bool) (a : Answer)
| Deadline (i : nat)
| Cancel (i : nat)
| Build (i : nat) (runtime : bool) (b : BuildAnswer)
| PeerState (i : nat) (runtime : bool) (st : RTCPeerConnectionState)
| BeginDrain
| ClosePeers.

Definition with_signaling (i : nat) (k : Signaling → option (Signaling * World)) (w : World) : option World :=
  let! s := signalings w !! i else None in
  let! (s, w) := k s else None in
  Some (set_signaling i s w).

(** The world after an event; none if it cannot happen. *)
Definition step (e : Event) (w : World) : option World :=
  match e with
  | Offer head body =>
      match try_handle_rtc_offer head body w with
      | Started w => Some w
      | NotHandled | Refused _ => Some w
      end
  | Advance i runtime a => with_signaling i (λ s, complete_signaling runtime a s w) w
  | Deadline i => with_signaling i (λ s, if at_await s then Some (within_signaling_deadline s, w) else None) w
  | Cancel i => with_signaling i (λ s, if at_await s then Some (drop_call s, w) else None) w
  | Build i runtime b => with_signaling i (λ s, run_build runtime b s w) w
  | PeerState i runtime st =>
      let! s := signalings w !! i else None in
      match build s with
      | BNone => None
      | _ => Some (on_connection_state_change runtime st s w)
      end
  | BeginDrain => Some (begin_terminal_drain w)
  | ClosePeers => Some (close_active_peers w)
  end.

Fixpoint run (es : list Event) (w : World) : option World :=
  match es with
  | [] => Some w
  | e :: es => let! w := step e w else None in run es w
  end.

(** [drain_for_shutdown] without what happens in between. *)
Definition drain_for_shutdown (w : World) : World := close_active_peers (begin_terminal_drain w).

End handler.

(** ** [DataChannelLimiter] and the echo loop

    Every [on_data_channel] of a connection calls [try_acquire], and what was granted is given back
    when its echo task ends; the tasks run concurrently and meet at one atomic counter. *)

Definition USIZE_MAX : N := u64_max.

(** A caller of [try_acquire]: before its load, at the top of its loop with what it read, with a
    permit, refused, or after its permit was dropped. *)
Inductive AcquireStage := ALoad | ALoop (current : N) | AHolding | ARefused | AReleased.

Record DataChannelLimiter := { open_channels : N; max_channels : N; acquires : list AcquireStage }.

Definition DataChannelLimiter_new (max : N) : DataChannelLimiter :=
  {| open_channels := 0; max_channels := max; acquires := [] |}.

Definition set_acquire (i : nat) (st : AcquireStage) (self : DataChannelLimiter) : DataChannelLimiter :=
  {| open_channels := open_channels self; max_channels := max_channels self; acquires := <[i := st]> (acquires self) |}.
Definition set_open (n : N) (self : DataChannelLimiter) : DataChannelLimiter :=
  {| open_channels := n; max_channels := max_channels self; acquires := acquires self |}.

(** One pass of the loop; [compare_exchange_weak] may fail although the value is the expected one. *)
Definition try_acquire (i : nat) (current : N) (spurious : bool) (self : DataChannelLimiter) : DataChannelLimiter :=
  if negb (max_channels self =? 0) && (max_channels self <=? current) then set_acquire i ARefused self
  else if USIZE_MAX <=? current then set_acquire i ARefused self
  else if (open_channels self =? current) && negb spurious
       then set_acquire i AHolding (set_open (current + 1) self)
       else set_acquire i (ALoop (open_channels self)) self.

(** [Drop for DataChannelPermit]: [fetch_sub], which wraps. *)
Definition drop_permit (i : nat) (self : DataChannelLimiter) : DataChannelLimiter :=
  set_acquire i AReleased (set_open ((open_channels self + USIZE_MAX) mod 2 ^ 64) self).

Inductive ChannelEvent :=
| OnDataChannel
| AcquireStep (i : nat) (spurious : bool)
| EchoEnds (i : nat).

Definition channel_step (e : ChannelEvent) (self : DataChannelLimiter) : option DataChannelLimiter :=
  match e with
  | OnDataChannel =>
      Some {| open_channels := open_channels self; max_channels := max_channels self;
              acquires := acquires self ++ [ALoad] |}
  | AcquireStep i spurious =>
      match acquires self !! i with
      | Some ALoad => Some (set_acquire i (ALoop (open_channels self)) self)
      | Some (ALoop current) => Some (try_acquire i current spurious self)
      | _ => None
      end
  | EchoEnds i =>
      match acquires self !! i with
      | Some AHolding => Some (drop_permit i self)
      | _ => None
      end
  end.

Fixpoint channel_run (es : list ChannelEvent) (self : DataChannelLimiter) : option DataChannelLimiter :=
  match es with
  | [] => Some self
  | e :: es => let! self := channel_step e self else None in channel_run es self
  end.

Inductive DataChannelEvent := OnMessage (data : bytes) | OnClose | OtherEvent.

(** What [echo_loop] sends for what [poll] gives until it gives [None]. *)
Fixpoint echo_loop (events : list DataChannelEvent) : list bytes :=
  match events with
  | [] => []
  | OnMessage data :: events => data :: echo_loop events
  | OnClose :: _ => []
  | OtherEvent :: events => echo_loop events
  end.
