(* ===== verification/WebRtcInv.v ===== *)
(** * [plugin-webrtc]: the invariant of slots and connections

    One invariant over all interleavings of calls, build tasks, callbacks and drains: who owns a slot
    of the registry, who owns a connection, and which connections are being closed. *)

From S2P Require Import Prelude Text Utf8 Radix Extensions Request Response Gate ServerConfig NetAddr WebRtc.

Section spec.
Context {AT : AnyTypes} {MM : Memmem} {WC : WebRtcCrate}.

(** ** The registry *)

Definition not_slot (id : N) (e : N * RegistrySlot) : bool := negb (e.1 =? id)%N.
Definition actives (w : World) : list nat := omap active_pc (registry w).

(** [spawn_close] for several connections. *)
Definition spawn_closes (runtime : bool) (pcs : list nat) (w : World) : World := foldr (spawn_close runtime) w pcs.

Lemma filter_not_slot_absent id (r : list (N * RegistrySlot)) :
  id ∉ r.*1 → List.filter (not_slot id) r = r.
Proof.
  induction r as [|[k v] r IH]; [done|]. cbn. rewrite not_elem_of_cons. intros [Hk Hr].
  assert (not_slot id (k, v) = true) as -> by (unfold not_slot; cbn; apply negb_true_iff, N.eqb_neq; congruence).
  by rewrite (IH Hr).
Qed.

Lemma remove_slot_spec id r :
  NoDup r.*1 →
  match remove_slot id r with
  | Some (v, r') => (id, v) ∈ r ∧ r' = List.filter (not_slot id) r
  | None => id ∉ r.*1
  end.
Proof.
  induction r as [|[k v] r IH]; cbn; [by intros _ ?%elem_of_nil|]. intros [Hk Hr]%NoDup_cons.
  unfold not_slot at 1. cbn. destruct (k =? id)%N eqn:E; cbn.
  - apply N.eqb_eq in E as ->. split; [left|]. by rewrite filter_not_slot_absent.
  - apply N.eqb_neq in E. specialize (IH Hr). destruct (remove_slot id r) as [[u r']|]; cbn.
    + destruct IH as [Hu ->]. split; [by right|done].
    + rewrite not_elem_of_cons. by split.
Qed.

(** Releasing a slot removes it, and hands an active connection in it to a task that closes it. *)
Lemma release_slot_spec runtime id w :
  NoDup (registry w).*1 →
  release_slot runtime id w
  = spawn_closes runtime (omap active_pc (List.filter (λ e, e.1 =? id)%N (registry w)))
      (set_registry (List.filter (not_slot id) (registry w)) w).
Proof.
  intros Hnd. unfold release_slot. pose proof (remove_slot_spec id (registry w) Hnd) as H.
  assert (∀ v, (id, v) ∈ registry w → List.filter (λ e, e.1 =? id)%N (registry w) = [(id, v)]) as Hone.
  { clear H. induction (registry w) as [|[k u] r IH]; [by intros v ?%elem_of_nil|].
    cbn in *. apply NoDup_cons in Hnd as [Hk Hr]. intros v Hv. destruct (k =? id)%N eqn:E.
    - apply N.eqb_eq in E as ->. apply elem_of_cons in Hv as [[= <-]|Hv].
      + f_equal. clear -Hk. induction r as [|[k' u'] r IH]; [done|]. cbn in *.
        apply not_elem_of_cons in Hk as [Hk Hr]. destruct (k' =? id)%N eqn:E; [apply N.eqb_eq in E; congruence|auto].
      + destruct Hk. apply list_elem_of_fmap. by exists (id, v).
    - apply N.eqb_neq in E. apply elem_of_cons in Hv as [[= <- _]|Hv]; [done|auto]. }
  destruct (remove_slot id (registry w)) as [[v r']|].
  - destruct H as [Hv ->]. rewrite (Hone v Hv). by destruct v.
  - rewrite (filter_not_slot_absent id _ H).
    assert (List.filter (λ e, e.1 =? id)%N (registry w) = []) as ->.
    { clear -H. induction (registry w) as [|[k u] r IH]; [done|]. cbn in *.
      apply not_elem_of_cons in H as [Hk Hr]. destruct (k =? id)%N eqn:E; [apply N.eqb_eq in E; congruence|auto]. }
    by destruct w.
Qed.

Lemma put_slot_spec id v r :
  NoDup r.*1 →
  match put_slot id v r with
  | Some r' => id ∈ r.*1 ∧ r'.*1 = r.*1 ∧ ∀ e, e ∈ r' ↔ (e.1 = id ∧ e.2 = v) ∨ (e.1 ≠ id ∧ e ∈ r)
  | None => id ∉ r.*1
  end.
Proof.
  induction r as [|[k u] r IH]; cbn; [by intros _ ?%elem_of_nil|]. intros [Hk Hr]%NoDup_cons.
  destruct (k =? id)%N eqn:E; cbn.
  - apply N.eqb_eq in E as ->. split_and!; [left|done|]. intros [k' u']. cbn. rewrite !elem_of_cons.
    split.
    + intros [[= -> ->]|He]; [by left|]. right. split; [|by right].
      intros ->. apply Hk, list_elem_of_fmap. by exists (id, u').
    + intros [[-> ->]|[Hne [[= -> _]|He]]]; [by left|done|by right].
  - apply N.eqb_neq in E. specialize (IH Hr). destruct (put_slot id v r) as [r'|]; cbn.
    + destruct IH as (Hin & Hids & Hel). split_and!; [by right|by rewrite Hids|].
      intros [k' u']. cbn. rewrite !elem_of_cons, Hel. cbn. split.
      * intros [[= -> ->]|[?|[? ?]]]; [right; split; [done|by left]|by left|right; auto].
      * intros [?|[? [?|?]]]; auto.
    + rewrite not_elem_of_cons. by split.
Qed.

Lemma elem_of_filter_b {A} (f : A → bool) (l : list A) x : x ∈ List.filter f l ↔ x ∈ l ∧ f x = true.
Proof. rewrite !list_elem_of_In. apply filter_In. Qed.

Lemma filter_sublist_b {A} (f : A → bool) (l : list A) : List.filter f l `sublist_of` l.
Proof. induction l as [|x l IH]; cbn; [done|]. destruct (f x); by constructor. Qed.

Lemma elem_of_actives w pc : pc ∈ actives w ↔ ∃ id, (id, Active pc) ∈ registry w.
Proof.
  unfold actives. rewrite list_elem_of_omap. split.
  - intros ([id [|pc']] & He & H); [done|]. injection H as <-. by exists id.
  - intros [id He]. by exists (id, Active pc).
Qed.

Lemma spawn_closes_fields runtime pcs w :
  let w' := spawn_closes runtime pcs w in
  config w' = config w ∧ registry w' = registry w ∧ next_slot_id w' = next_slot_id w ∧ signalings w' = signalings w
  ∧ next_pc w' = next_pc w ∧ terminal_draining w' = terminal_draining w
  ∧ closing w' = (if runtime then pcs else []) ++ closing w
  ∧ forgotten w' = (if runtime then [] else pcs) ++ forgotten w.
Proof.
  unfold spawn_closes. induction pcs as [|pc pcs IH]; cbn; [by destruct runtime|].
  destruct IH as (? & ? & ? & ? & ? & ? & Hc & Hf).
  destruct runtime; cbn; rewrite Hc, Hf; split_and!; done.
Qed.
(** ** A signalling by itself *)

(** The connections that are reachable from the guard or its build task. *)
Definition owned (s : Signaling) : list nat :=
  match state s with Held pc => [pc] | _ => [] end
  ++ match stage s with AtActivateSlot pc _ => [pc] | AtDropRelease (Some pc) _ => [pc] | _ => [] end.

Definition build_idle (s : Signaling) : bool := match build s with BNone | BDone => true | _ => false end.

(** While the call waits for its build task, or was dropped then. *)
Definition build_agrees (s : Signaling) : bool :=
  match build s, state s with
  | BAwait, Building | BSend (Ok _), Held _ | BDone, Held _ => true
  | BRelease None, Empty | BRelease (Some (Err _)), Empty | BSend (Err _), Empty | BDone, Empty => true
  | _, _ => false
  end.

Definition held (s : Signaling) : bool := match state s with Held _ => true | _ => false end.
Definition empty (s : Signaling) : bool := match state s with Empty => true | _ => false end.
Definition build_done (s : Signaling) : bool := match build s with BDone => true | _ => false end.

(** How stage, state, guard and build task fit together. *)
Definition shape (s : Signaling) : bool :=
  match stage s with
  | AtParse _ => armed s && empty s && match build s with BNone => true | _ => false end
                 && match sent s with Some _ => false | None => true end
  | AtBuild => armed s && build_agrees s && match sent s with Some _ => build_done s | None => true end
  | AtSetRemote | AtCreateAnswer | AtSetLocal | AtGather | AtLocalDesc | AtActivate _ => armed s && held s && build_done s
  | AtActivateSlot _ _ => negb (armed s) && empty s && build_done s
  | AtFinish r => negb (status r =? 200)%N && armed s && build_idle s && (empty s || (held s && build_done s))
  | AtClosing r => negb (status r =? 200)%N && armed s && held s && build_done s
  | AtRelease r => negb (status r =? 200)%N && armed s && build_idle s && (empty s || (held s && build_done s))
  | AtDrop r => if armed s then build_agrees s && match r with Some r => negb (status r =? 200)%N | None => true end
                else build_idle s && (empty s || held s)
  | AtDropRelease _ r => armed s && empty s && match build s with BNone | BAwait | BClosing => false | _ => true end
                         && match r with Some r => negb (status r =? 200)%N | None => true end
  | Gone r =>
      if armed s then
        match r with Some r => negb (status r =? 200)%N | None => true end
        && match state s with
           | Abandoned => match build s with BNone | BSend (Ok _) | BRelease (Some (Ok _)) => false | _ => true end
           | Empty => match build s with BAwait | BClosing => false | _ => true end
           | _ => false
           end
      else build_idle s && (empty s || held s)
  end.

(** The signalling will still release or activate its slot. *)
Definition holds_slot (s : Signaling) : bool :=
  match stage s with
  | Gone _ => match state s, build s with Abandoned, (BAwait | BClosing | BRelease _) => true | _, _ => false end
  | AtDrop _ => armed s
  | _ => true
  end.

(** The call was answered 200, or is about to be. *)
Definition answered (s : Signaling) : bool :=
  match stage s with
  | AtDrop (Some r) | Gone (Some r) => negb (armed s) && (status r =? 200)%N
  | _ => false
  end.

(** [close] was not called on what the signalling owns; or it was. *)
Definition clean (s : Signaling) : bool :=
  match stage s with
  | AtClosing _ | AtRelease _ | AtDrop _ | AtDropRelease _ _ | Gone _ => false
  | _ => true
  end.
Definition dirty (s : Signaling) : bool :=
  match stage s with
  | AtClosing _ | AtRelease _ | Gone _ => true
  | AtDrop _ => negb (armed s)
  | _ => false
  end.

Definition entry_ok (v : RegistrySlot) (s : Signaling) : bool :=
  match v with Reserved => holds_slot s | Active _ => answered s end.

(** The call has ended and its build task too. *)
Definition over (s : Signaling) : bool := match stage s with Gone _ => build_idle s | _ => false end.

(** ** The invariant *)

Definition slots : N := 2 ^ 64.

Definition live (w : World) (pc : nat) : Prop :=
  (∃ i s, signalings w !! i = Some s ∧ pc ∈ owned s) ∨ pc ∈ actives w.

Record inv (w : World) : Prop := {
  inv_bound : (len (signalings w) ≤ slots)%N;
  inv_next : next_slot_id w = (len (signalings w) mod slots)%N;
  inv_slot : ∀ i s, signalings w !! i = Some s → slot_id s = N.of_nat i;
  inv_shape : ∀ i s, signalings w !! i = Some s → shape s = true;
  inv_ids : NoDup (registry w).*1;
  inv_len : (len (registry w) ≤ max_peer_connections (config w))%N;
  inv_entry : ∀ id v, (id, v) ∈ registry w → ∃ i s, signalings w !! i = Some s ∧ slot_id s = id ∧ entry_ok v s = true;
  inv_owner : ∀ i j s t pc, signalings w !! i = Some s → signalings w !! j = Some t → pc ∈ owned s → pc ∈ owned t → i = j;
  inv_apart : ∀ i s pc, signalings w !! i = Some s → pc ∈ owned s → pc ∉ actives w;
  inv_actives : NoDup (actives w);
  inv_old : ∀ pc, live w pc ∨ pc ∈ closing w ∨ pc ∈ forgotten w → pc < next_pc w;
  inv_all : ∀ pc, pc < next_pc w → live w pc ∨ pc ∈ closing w ∨ pc ∈ forgotten w;
  inv_open : ∀ pc, pc ∈ actives w → pc ∉ closing w;
  inv_clean : ∀ i s pc, signalings w !! i = Some s → clean s = true → pc ∈ owned s → pc ∉ closing w;
  inv_dirty : ∀ i s pc, signalings w !! i = Some s → dirty s = true → pc ∈ owned s → pc ∈ closing w;
}.

Lemma world_inv_init cfg : inv (init cfg).
Proof.
  split; try (cbn; intros; done); try (by constructor); try (cbn; lia).
  - apply N.le_0_l.
  - intros id v Hv. by apply elem_of_nil in Hv.
  - intros pc [[(? & ? & ? & _)|H]|[H|H]]; [done|by apply elem_of_nil in H..].
  - intros pc H. by apply elem_of_nil in H.
Qed.

(** Two signallings with the same slot are the same. *)
Lemma slot_inj w i j s t :
  inv w → signalings w !! i = Some s → signalings w !! j = Some t → slot_id s = slot_id t → i = j ∧ s = t.
Proof.
  intros H Hi Hj Heq. rewrite (inv_slot _ H _ _ Hi), (inv_slot _ H _ _ Hj) in Heq.
  assert (i = j) as -> by lia. split; congruence.
Qed.

Lemma entry_of w i s v :
  inv w → signalings w !! i = Some s → (slot_id s, v) ∈ registry w → entry_ok v s = true.
Proof.
  intros H Hi (j & t & Hj & Hid & Hok)%(inv_entry _ H). by destruct (slot_inj w j i t s H Hj Hi Hid) as [-> ->].
Qed.

(** An event that changes one signalling and at most removes entries and closes connections. *)
Record updated (i : nat) (s s' : Signaling) (w w' : World) : Prop := {
  up_sigs : signalings w' = <[i := s']> (signalings w);
  up_config : config w' = config w;
  up_next : next_slot_id w' = next_slot_id w;
  up_pc : next_pc w' = next_pc w;
  up_slot : slot_id s' = slot_id s;
  up_shape : shape s' = true;
  up_registry : registry w' `sublist_of` registry w;
  up_entry : ∀ v, (slot_id s, v) ∈ registry w' → entry_ok v s' = true;
  up_owned : ∀ pc, pc ∈ owned s' → pc ∈ owned s;
  up_kept : ∀ pc, pc ∈ owned s ∨ pc ∈ actives w → pc ∈ owned s' ∨ pc ∈ actives w' ∨ pc ∈ closing w' ∨ pc ∈ forgotten w';
  up_closing : ∀ pc, pc ∈ closing w → pc ∈ closing w';
  up_forgotten : ∀ pc, pc ∈ forgotten w → pc ∈ forgotten w';
  up_closed : ∀ pc, pc ∈ closing w' →
    pc ∈ closing w ∨ (pc ∈ owned s ∧ (clean s' = true → pc ∉ owned s')) ∨ (pc ∈ actives w ∧ pc ∉ actives w');
  up_forgot : ∀ pc, pc ∈ forgotten w' → pc ∈ forgotten w ∨ pc ∈ owned s ∨ pc ∈ actives w;
  up_clean : clean s' = true → owned s' = [] ∨ clean s = true;
  up_dirty : ∀ pc, dirty s' = true → pc ∈ owned s' → pc ∈ closing w';
}.

Lemma elem_of_insert i s' w w' j t :
  signalings w' = <[i := s']> (signalings w) → signalings w' !! j = Some t →
  (j = i ∧ t = s') ∨ (j ≠ i ∧ signalings w !! j = Some t).
Proof.
  intros -> H. destruct (decide (j = i)) as [->|Hne].
  - left. split; [done|]. apply list_lookup_insert_Some in H as [(_ & ? & _)|[? _]]; [congruence|done].
  - right. split; [done|]. by rewrite list_lookup_insert_ne in H.
Qed.

Lemma sublist_actives w w' : registry w' `sublist_of` registry w → actives w' `sublist_of` actives w.
Proof.
  unfold actives. induction 1 as [| x r1 r2 _ IH | x r1 r2 _ IH]; cbn; [constructor| |].
  - destruct (active_pc x); [by constructor|done].
  - destruct (active_pc x); [by constructor|done].
Qed.

Lemma sublist_ids (r r' : list (N * RegistrySlot)) : r' `sublist_of` r → r'.*1 `sublist_of` r.*1.
Proof. induction 1; cbn; by constructor. Qed.

Lemma inv_update i s s' w w' :
  inv w → signalings w !! i = Some s → updated i s s' w w' → inv w'.
Proof.
  intros H Hi U. pose proof (elem_of_insert i s' w w') as Hins.
  assert (∀ j t, signalings w' !! j = Some t → (j = i ∧ t = s') ∨ (j ≠ i ∧ signalings w !! j = Some t)) as Hat.
  { intros j t. apply Hins, U. }
  assert (∀ pc, pc ∈ actives w' → pc ∈ actives w) as Hact.
  { intros pc Hpc. eapply elem_of_sublist, sublist_actives, U. done. }
  assert (signalings w' !! i = Some s') as Hi'.
  { rewrite (up_sigs _ _ _ _ _ U). apply list_lookup_insert_eq. eapply lookup_lt_Some, Hi. }
  assert (∀ j t, j ≠ i → signalings w !! j = Some t → signalings w' !! j = Some t) as Hother.
  { intros j t Hne Hj. rewrite (up_sigs _ _ _ _ _ U). by rewrite list_lookup_insert_ne. }
  assert (len (signalings w') = len (signalings w)) as Hlen.
  { unfold len. by rewrite (up_sigs _ _ _ _ _ U), length_insert. }
  split.
  - rewrite Hlen. apply H.
  - rewrite Hlen, (up_next _ _ _ _ _ U). apply H.
  - intros j t [[-> ->]|[_ Hj]]%Hat; [rewrite (up_slot _ _ _ _ _ U)|]; by eapply inv_slot.
  - intros j t [[-> ->]|[_ Hj]]%Hat; [apply U|by eapply inv_shape].
  - eapply sublist_NoDup; [apply H|apply sublist_ids, U].
  - rewrite (up_config _ _ _ _ _ U). pose proof (inv_len _ H). pose proof (sublist_length _ _ (up_registry _ _ _ _ _ U)).
    unfold len in *. lia.
  - intros id v Hv. pose proof (elem_of_sublist _ _ _ Hv (up_registry _ _ _ _ _ U)) as Hv0.
    apply (inv_entry _ H) in Hv0 as (j & t & Hj & Hid & Hok). destruct (decide (j = i)) as [->|Hne].
    + exists i, s'. simplify_eq. split_and!; [done|apply U|]. by eapply up_entry.
    + exists j, t. auto.
  - intros j k t u pc [[-> ->]|[Hj Ht]]%Hat [[-> ->]|[Hk Hu]]%Hat H1 H2; try done.
    + apply (up_owned _ _ _ _ _ U) in H1. by eapply inv_owner.
    + apply (up_owned _ _ _ _ _ U) in H2. by eapply inv_owner.
    + by eapply inv_owner.
  - intros j t pc [[-> ->]|[Hj Ht]]%Hat H1 H2%Hact; [apply (up_owned _ _ _ _ _ U) in H1|]; by eapply inv_apart.
  - eapply sublist_NoDup; [apply H|apply sublist_actives, U].
  - intros pc Hpc. rewrite (up_pc _ _ _ _ _ U). apply (inv_old _ H).
    destruct Hpc as [[(j & t & Hj & Ht)|Ha]|[Hc|Hf]].
    + left; left. apply Hat in Hj as [[-> ->]|[_ Hj]]; [exists i, s; split; [done|by apply U]|by exists j, t].
    + left; right. auto.
    + apply (up_closed _ _ _ _ _ U) in Hc as [?|[[? _]|[? _]]]; [auto|left; left; by exists i, s|left; by right].
    + apply (up_forgot _ _ _ _ _ U) in Hf as [?|[?|?]]; [auto|left; left; by exists i, s|left; by right].
  - intros pc Hpc. rewrite (up_pc _ _ _ _ _ U) in Hpc.
    assert (pc ∈ owned s ∨ pc ∈ actives w → live w' pc ∨ pc ∈ closing w' ∨ pc ∈ forgotten w') as Hkept.
    { intros [?|[?|?]]%(up_kept _ _ _ _ _ U); [left; left; by exists i, s'|left; by right|by right]. }
    apply (inv_all _ H) in Hpc as [[(j & t & Hj & Ht)|Ha]|[Hc|Hf]]; [|auto|right; left; by apply U|right; right; by apply U].
    destruct (decide (j = i)) as [->|Hne]; [simplify_eq; auto|]. left; left. exists j, t. auto.
  - intros pc Ha Hc. apply (up_closed _ _ _ _ _ U) in Hc as [Hc|[[Ho _]|[_ Hn]]]; [|by eapply inv_apart; eauto|done].
    eapply inv_open; eauto.
  - intros j t pc [[-> ->]|[Hj Ht]]%Hat Hcl Ho Hc.
    + apply (up_closed _ _ _ _ _ U) in Hc as [Hc|[[_ Hn]|[Ha _]]]; [|by apply Hn| ].
      * destruct (up_clean _ _ _ _ _ U Hcl) as [Hnil|Hs]; [by rewrite Hnil in Ho; apply elem_of_nil in Ho|].
        eapply inv_clean; eauto. by apply U.
      * eapply inv_apart; eauto. by apply U.
    + apply (up_closed _ _ _ _ _ U) in Hc as [Hc|[[Ho' _]|[Ha _]]]; [by eapply inv_clean; eauto| |by eapply inv_apart; eauto].
      apply Hj. by eapply inv_owner; eauto.
  - intros j t pc [[-> ->]|[Hj Ht]]%Hat Hd Ho; [by eapply up_dirty|]. eapply up_closing, inv_dirty; eauto.
Qed.
(** ** Steps that leave the registry alone *)

Lemma inv_local i s s' pcs w :
  inv w → signalings w !! i = Some s →
  slot_id s' = slot_id s → shape s' = true →
  (holds_slot s = true → holds_slot s' = true) → (answered s = true → answered s' = true) →
  (∀ pc, pc ∈ owned s' → pc ∈ owned s) → (∀ pc, pc ∈ owned s → pc ∈ owned s' ∨ pc ∈ pcs) →
  (∀ pc, pc ∈ pcs → pc ∈ owned s) → pcs = [] ∨ clean s' = false →
  (clean s' = true → owned s' = [] ∨ clean s = true) →
  (dirty s' = true → owned s' = [] ∨ dirty s = true ∨ pcs = owned s') →
  inv (set_signaling i s' (close pcs w)).
Proof.
  intros H Hi Hslot Hshape Hholds Hans Ho Hkept Hpcs Hnew Hclean Hdirty.
  eapply inv_update; [exact H|exact Hi|]. split; try done.
  - intros v Hv. change (registry _) with (registry w) in Hv. apply (entry_of w i s) in Hv; [|done..].
    destruct v; cbn in *; auto.
  - intros pc [Hpc|Hpc]; [destruct (Hkept pc Hpc)|]; cbn; set_solver.
  - intros pc Hpc. cbn. set_solver.
  - intros pc Hpc. cbn in Hpc. apply elem_of_app in Hpc as [Hpc|Hpc]; [|by left].
    right; left. split; [auto|]. intros Hc. destruct Hnew as [->|?]; [by apply elem_of_nil in Hpc|congruence].
  - intros pc Hpc. by left.
  - intros pc Hd Hpc. cbn. apply elem_of_app. destruct (Hdirty Hd) as [Hnil|[Hds| ->]].
    + by rewrite Hnil in Hpc; apply elem_of_nil in Hpc.
    + right. eapply inv_dirty; eauto.
    + by left.
Qed.

Lemma inv_local0 i s s' w :
  inv w → signalings w !! i = Some s →
  slot_id s' = slot_id s → shape s' = true →
  (holds_slot s = true → holds_slot s' = true) → (answered s = true → answered s' = true) →
  (∀ pc, pc ∈ owned s' ↔ pc ∈ owned s) →
  (clean s' = true → owned s' = [] ∨ clean s = true) →
  (dirty s' = true → owned s' = [] ∨ dirty s = true) →
  inv (set_signaling i s' w).
Proof.
  intros H Hi Hslot Hshape Hholds Hans Ho Hc Hd.
  replace (set_signaling i s' w) with (set_signaling i s' (close [] w)) by (by destruct w).
  eapply inv_local; eauto; try set_solver.
Qed.

(** ** Steps that release the slot *)

Lemma active_once w id id' pc :
  NoDup (registry w).*1 → NoDup (actives w) →
  (id, Active pc) ∈ registry w → (id', Active pc) ∈ registry w → id = id'.
Proof.
  unfold actives. intros _. induction (registry w) as [|[k v] r IH]; [by intros _ ?%elem_of_nil|]. cbn.
  assert (∀ k', (k', Active pc) ∈ r → pc ∈ omap active_pc r) as Hin.
  { intros k' Hk. apply list_elem_of_omap. by exists (k', Active pc). }
  intros Hnd H1 H2. apply elem_of_cons in H1 as [H1|H1], H2 as [H2|H2]; simplify_eq/=; [done| | |].
  - apply NoDup_cons in Hnd as [Hn _]. destruct Hn. eauto.
  - apply NoDup_cons in Hnd as [Hn _]. destruct Hn. eauto.
  - apply IH; [|done..]. destruct v; cbn in Hnd; [done|by apply NoDup_cons in Hnd as [_ ?]].
Qed.

Lemma not_slot_ne id e : not_slot id e = true ↔ e.1 ≠ id.
Proof. unfold not_slot. by rewrite negb_true_iff, N.eqb_neq. Qed.

(** What a release hands to [spawn_close]. *)
Definition released (id : N) (w : World) : list nat :=
  omap active_pc (List.filter (λ e, e.1 =? id)%N (registry w)).

Lemma elem_of_released id w pc : pc ∈ released id w ↔ (id, Active pc) ∈ registry w.
Proof.
  unfold released. rewrite list_elem_of_omap. split.
  - intros ([k v] & He & Hv). apply elem_of_filter_b in He as [He Hk]. cbn in Hk. apply N.eqb_eq in Hk as ->.
    destruct v; [done|]. by injection Hv as ->.
  - intros He. exists (id, Active pc). split; [|done]. apply elem_of_filter_b. split; [done|]. apply N.eqb_refl.
Qed.

Lemma world_inv_release runtime i s s' pcs w :
  inv w → signalings w !! i = Some s →
  slot_id s' = slot_id s → shape s' = true →
  (∀ pc, pc ∈ owned s' → pc ∈ owned s) → (∀ pc, pc ∈ owned s → pc ∈ owned s' ∨ pc ∈ pcs) →
  (∀ pc, pc ∈ pcs → pc ∈ owned s) → pcs = [] ∨ clean s' = false →
  (clean s' = true → owned s' = [] ∨ clean s = true) →
  (dirty s' = true → owned s' = [] ∨ dirty s = true) →
  inv (set_signaling i s' (spawn_closes runtime pcs (release_slot runtime (slot_id s) w))).
Proof.
  intros H Hi Hslot Hshape Ho Hkept Hpcs Hnew Hclean Hdirty.
  rewrite (release_slot_spec _ _ _ (inv_ids _ H)). fold (released (slot_id s) w).
  set (w0 := set_registry _ w).
  pose proof (spawn_closes_fields runtime (released (slot_id s) w) w0) as (F1 & F2 & F3 & F4 & F5 & _ & F7 & F8).
  set (w1 := spawn_closes runtime (released _ w) w0) in *.
  pose proof (spawn_closes_fields runtime pcs w1) as (G1 & G2 & G3 & G4 & G5 & _ & G7 & G8).
  set (w2 := spawn_closes runtime pcs w1) in *.
  assert (∀ id v, (id, v) ∈ registry (set_signaling i s' w2) ↔ (id, v) ∈ registry w ∧ id ≠ slot_id s) as Hreg.
  { intros id v. change (registry (set_signaling i s' w2)) with (registry w2). rewrite G2, F2. subst w0. cbn [registry set_registry].
    by rewrite elem_of_filter_b, not_slot_ne. }
  assert (∀ pc, pc ∈ actives w → pc ∈ actives (set_signaling i s' w2) ∨ pc ∈ released (slot_id s) w) as Hact.
  { intros pc [id Hid]%elem_of_actives. destruct (decide (id = slot_id s)) as [->|Hne].
    - right. by apply elem_of_released.
    - left. apply elem_of_actives. exists id. by apply Hreg. }
  assert (∀ pc, pc ∈ closing (set_signaling i s' w2)
                ↔ (runtime = true ∧ (pc ∈ pcs ∨ pc ∈ released (slot_id s) w)) ∨ pc ∈ closing w) as Hclo.
  { intros pc. change (closing (set_signaling i s' w2)) with (closing w2). rewrite G7, F7. subst w0. cbn [closing set_registry].
    destruct runtime; set_solver. }
  assert (∀ pc, pc ∈ forgotten (set_signaling i s' w2)
                ↔ (runtime = false ∧ (pc ∈ pcs ∨ pc ∈ released (slot_id s) w)) ∨ pc ∈ forgotten w) as Hfor.
  { intros pc. change (forgotten (set_signaling i s' w2)) with (forgotten w2). rewrite G8, F8. subst w0. cbn [forgotten set_registry].
    destruct runtime; set_solver. }
  assert (∀ pc, pc ∈ pcs ∨ pc ∈ released (slot_id s) w →
                pc ∈ closing (set_signaling i s' w2) ∨ pc ∈ forgotten (set_signaling i s' w2)) as Hgone.
  { intros pc Hpc. rewrite Hclo, Hfor. destruct runtime; auto. }
  eapply inv_update; [exact H|exact Hi|]. split; try done.
  - cbn. by rewrite G4, F4.
  - cbn. by rewrite G1, F1.
  - cbn. by rewrite G3, F3.
  - cbn. by rewrite G5, F5.
  - change (registry (set_signaling i s' w2)) with (registry w2). rewrite G2, F2. apply filter_sublist_b.
  - intros v [_ Hv]%Hreg. done.
  - intros pc [Hpc|Hpc]; [destruct (Hkept pc Hpc)|destruct (Hact pc Hpc)]; auto 6.
  - intros pc Hpc. apply Hclo. by right.
  - intros pc Hpc. apply Hfor. by right.
  - intros pc [[_ [Hpc|Hpc]]|Hpc]%Hclo; [| |by left].
    + right; left. split; [auto|]. intros Hc. destruct Hnew as [->|?]; [by apply elem_of_nil in Hpc|congruence].
    + apply elem_of_released in Hpc. right; right. split; [apply elem_of_actives; eauto|].
      intros [id [Hid Hne]%Hreg]%elem_of_actives. apply Hne.
      eapply (active_once w); [apply H..|exact Hid|exact Hpc].
  - intros pc [[_ [Hpc|Hpc]]|Hpc]%Hfor; [auto| |by left].
    right; right. apply elem_of_released in Hpc. apply elem_of_actives. eauto.
  - intros pc Hd Hpc. apply Hclo. right. destruct (Hdirty Hd) as [Hnil|Hds].
    + by rewrite Hnil in Hpc; apply elem_of_nil in Hpc.
    + eapply inv_dirty; eauto.
Qed.

(** ** Activation *)

Lemma put_slot_actives id pc r r' :
  put_slot id (Active pc) r = Some r' → (∀ v, (id, v) ∈ r → v = Reserved) →
  omap active_pc r' ≡ₚ pc :: omap active_pc r.
Proof.
  revert r'. induction r as [|[k v] r IH]; cbn; [done|]. intros r' H Hv. destruct (k =? id)%N eqn:E.
  - apply N.eqb_eq in E as ->. injection H as <-. cbn. by rewrite (Hv v) by left.
  - destruct (put_slot id (Active pc) r) as [r1|]; cbn in H; [|done]. injection H as <-.
    assert (omap active_pc r1 ≡ₚ pc :: omap active_pc r) as IH1 by (apply IH; [done|]; intros; apply Hv; by right).
    cbn. destruct v; cbn; rewrite IH1; [done|]. apply Permutation_swap.
Qed.

Lemma put_slot_length id v r r' : put_slot id v r = Some r' → length r' = length r.
Proof.
  revert r'. induction r as [|[k u] r IH]; cbn; [done|]. intros r'. destruct (k =? id)%N; [by intros [= <-]|].
  destruct (put_slot id v r); cbn; [|done]. intros [= <-]. cbn. by rewrite (IH _ eq_refl).
Qed.

Lemma released_nil i s w :
  inv w → signalings w !! i = Some s → answered s = false → released (slot_id s) w = [].
Proof.
  intros H Hi Ha. apply elem_of_nil_inv. intros pc Hpc%elem_of_released.
  pose proof (entry_of w i s _ H Hi Hpc) as Hok. cbn in Hok. congruence.
Qed.

Lemma inv_activate_put i s pc answer r w :
  inv w → signalings w !! i = Some s → stage s = AtActivateSlot pc answer →
  put_slot (slot_id s) (Active pc) (registry w) = Some r →
  inv (set_signaling i (set_stage (AtDrop (Some (answer_response answer))) s) (set_registry r w)).
Proof.
  intros H Hi Hst Hput.
  pose proof (inv_shape _ H _ _ Hi) as Hshape. unfold shape in Hshape. rewrite Hst in Hshape.
  destruct s as [id state0 armed0 stage0 build0 sent0]; cbn in *; subst stage0.
  destruct armed0, state0, build0; try done.
  set (s := {| slot_id := id |}) in *. set (s' := set_stage _ s).
  assert (owned s = [pc]) as Hown by done.
  assert (∀ x, x ∉ owned s') as Hnone by (intros x; apply not_elem_of_nil).
  pose proof (put_slot_spec id (Active pc) _ (inv_ids _ H)) as Hspec. rewrite Hput in Hspec.
  destruct Hspec as (Hin & Hids & Hel).
  assert (∀ v, (id, v) ∈ registry w → v = Reserved) as Hres.
  { intros v Hv. pose proof (entry_of w i s v H Hi Hv) as Hok. by destruct v. }
  pose proof (put_slot_actives _ _ _ _ Hput Hres) as Hperm.
  set (w' := set_signaling i s' (set_registry r w)).
  assert (∀ x, x ∈ actives w' ↔ x = pc ∨ x ∈ actives w) as Hact.
  { intros x. change (actives w') with (omap active_pc r). by rewrite Hperm, elem_of_cons. }
  assert (∀ j t, signalings w' !! j = Some t → (j = i ∧ t = s') ∨ (j ≠ i ∧ signalings w !! j = Some t)) as Hat.
  { intros j t. by apply elem_of_insert. }
  assert (signalings w' !! i = Some s') as Hi'.
  { apply list_lookup_insert_eq. eapply lookup_lt_Some, Hi. }
  assert (pc ∉ closing w) as Hopen.
  { eapply (inv_clean _ H _ s); [exact Hi|done|rewrite Hown; by left]. }
  split.
  - cbn. unfold len. rewrite length_insert. apply H.
  - cbn. unfold len. rewrite length_insert. apply H.
  - intros j t [[-> ->]|[_ Hj]]%Hat; [change (slot_id s') with (slot_id s)|]; by eapply inv_slot.
  - intros j t [[-> ->]|[_ Hj]]%Hat; [done|by eapply inv_shape].
  - cbn. rewrite Hids. apply H.
  - cbn. unfold len. rewrite (put_slot_length _ _ _ _ Hput). apply H.
  - intros id' v' [[? ?]|[Hne Hv]]%Hel; cbn in *; subst.
    + exists i, s'. done.
    + apply (inv_entry _ H) in Hv as (j & t & Hj & Hid & Hok). exists j, t. split_and!; try done.
      change (signalings w') with (<[i := s']> (signalings w)). rewrite list_lookup_insert_ne; [done|].
      intros ->. simplify_eq.
  - intros j k t u x [[-> ->]|[Hj Ht]]%Hat [[-> ->]|[Hk Hu]]%Hat H1 H2; [done|by apply Hnone in H1|by apply Hnone in H2|by eapply inv_owner].
  - intros j t x [[-> ->]|[Hj Ht]]%Hat H1 [->|H2]%Hact; [by apply Hnone in H1..| |by eapply inv_apart].
    apply Hj. eapply (inv_owner _ H); [exact Ht|exact Hi|exact H1|]. rewrite Hown. by left.
  - change (actives w') with (omap active_pc r). rewrite Hperm. apply NoDup_cons. split; [|apply H].
    eapply (inv_apart _ H); [exact Hi|]. rewrite Hown. by left.
  - intros x Hx. apply (inv_old _ H). destruct Hx as [[(j & t & Hj & Ht)|Ha]|Hx]; [| |by right].
    + left; left. apply Hat in Hj as [[-> ->]|[_ Hj]]; [by apply Hnone in Ht|by exists j, t].
    + left. apply Hact in Ha as [->|Ha]; [left; exists i, s; split; [done|rewrite Hown; by left]|by right].
  - intros x Hx. apply (inv_all _ H) in Hx as [[(j & t & Hj & Ht)|Ha]|Hx]; [| |by right].
    + left. destruct (decide (j = i)) as [->|Hne].
      * simplify_eq. rewrite Hown in Ht. apply list_elem_of_singleton in Ht as ->. right. apply Hact. by left.
      * left. exists j, t. split; [|done]. cbn. by rewrite list_lookup_insert_ne.
    + left; right. apply Hact. by right.
  - intros x [->|Hx]%Hact; [done|by apply H].
  - intros j t x [[-> ->]|[Hj Ht]]%Hat; [done|exact (inv_clean _ H _ _ _ Ht)].
  - intros j t x [[-> ->]|[Hj Ht]]%Hat; [by intros _ ?%Hnone|exact (inv_dirty _ H _ _ _ Ht)].
Qed.

Lemma inv_activate runtime i s pc answer w :
  inv w → signalings w !! i = Some s → stage s = AtActivateSlot pc answer →
  inv (set_signaling i (set_stage (AtDrop (Some (answer_response answer))) s) (activate_slot runtime (slot_id s) pc w).2).
Proof.
  intros H Hi Hst.
  pose proof (inv_shape _ H _ _ Hi) as Hshape. unfold shape in Hshape. rewrite Hst in Hshape.
  assert (answered s = false) as Ha by (unfold answered; by rewrite Hst).
  pose proof (released_nil i s w H Hi Ha) as Hrel.
  assert (inv (set_signaling i (set_stage (AtDrop (Some (answer_response answer))) s)
                 (spawn_closes runtime [pc] (release_slot runtime (slot_id s) w)))) as Hgone.
  { eapply world_inv_release; [exact H|exact Hi|done|..].
    - destruct s as [? state0 armed0 ? build0 ?]; cbn in *. by destruct armed0, state0, build0.
    - intros x. unfold owned. cbn. rewrite Hst. set_solver.
    - intros x. unfold owned. cbn. rewrite Hst. set_solver.
    - intros x. unfold owned. rewrite Hst. set_solver.
    - by right.
    - done.
    - unfold owned. cbn. destruct s as [? state0 armed0 ? build0 ?]; cbn in *. destruct state0; auto.
      by destruct armed0. }
  rewrite (release_slot_spec _ _ _ (inv_ids _ H)) in Hgone. fold (released (slot_id s) w) in Hgone.
  rewrite Hrel in Hgone. cbn [spawn_closes foldr] in Hgone. unfold activate_slot.
  destruct (terminal_draining w); [exact Hgone|].
  destruct (put_slot _ _ _) as [r|] eqn:Hput; [by eapply inv_activate_put|].
  pose proof (put_slot_spec (slot_id s) (Active pc) _ (inv_ids _ H)) as Hspec. rewrite Hput in Hspec.
  rewrite (filter_not_slot_absent _ _ Hspec) in Hgone. by destruct w.
Qed.

(** ** New connections, new slots, and the drain *)

Lemma inv_count_close w : inv w → inv (close [next_pc w] (count_pc w)).
Proof.
  intros H. assert (∀ pc, live w pc → pc ≠ next_pc w) as Hlive.
  { intros pc Hpc ->. pose proof (inv_old _ H (next_pc w) (or_introl Hpc)). lia. }
  split; try apply H.
  - cbn. intros pc Hpc. assert (pc = next_pc w ∨ pc < next_pc w) as [|]; [|lia..].
    destruct Hpc as [Hl|[[->|Hc]%elem_of_cons|Hf]]; [|by left|..]; right; apply (inv_old _ H); auto.
  - cbn. intros pc Hpc. destruct (decide (pc = next_pc w)) as [->|Hne]; [right; left; left|].
    destruct (inv_all _ H pc) as [Hl|[Hc|Hf]]; [lia|by left|right; left; by right|by right; right].
  - cbn. intros pc Ha [->|Hc]%elem_of_cons; [|by eapply inv_open]. eapply Hlive; [by right|done].
  - cbn. intros i s pc Hi Hcl Ho [->|Hc]%elem_of_cons; [|by eapply inv_clean]. eapply Hlive; [left; by exists i, s|done].
  - cbn. intros i s pc Hi Hd Ho. right. by eapply inv_dirty.
Qed.

Lemma inv_build_held i s w :
  inv w → signalings w !! i = Some s → build s = BAwait → state s = Building →
  inv (set_signaling i (set_build (BSend (Ok tt)) (set_state (Held (next_pc w)) s)) (count_pc w)).
Proof.
  intros H Hi Hb Hst.
  pose proof (inv_shape _ H _ _ Hi) as Hshape.
  set (s' := set_build _ _).
  assert (∀ pc, live w pc → pc ≠ next_pc w) as Hlive.
  { intros pc Hpc ->. pose proof (inv_old _ H (next_pc w) (or_introl Hpc)). lia. }
  assert (owned s = [] ∧ owned s' = [next_pc w] ∧ shape s' = true ∧ dirty s' = false
          ∧ holds_slot s = true ∧ holds_slot s' = true ∧ answered s = false) as (Ho & Ho' & Hs' & Hd' & Hh & Hh' & Ha).
  { clear H Hi Hlive. destruct s as [id st ar sg bu se]. cbn in *. subst st bu s'.
    unfold shape in *. cbn in *. destruct sg, ar, se; try done; cbn in *; rewrite ?andb_false_r in Hshape; try done; split_and!; try done;
      by destruct r. }
  assert (∀ j t, signalings (set_signaling i s' (count_pc w)) !! j = Some t →
            (j = i ∧ t = s') ∨ (j ≠ i ∧ signalings w !! j = Some t)) as Hat.
  { intros j t. by apply elem_of_insert. }
  assert (signalings (set_signaling i s' (count_pc w)) !! i = Some s') as Hi'.
  { apply list_lookup_insert_eq. eapply lookup_lt_Some, Hi. }
  assert (∀ j t, j ≠ i → signalings w !! j = Some t → signalings (set_signaling i s' (count_pc w)) !! j = Some t) as Hother.
  { intros j t Hne Hj. cbn. by rewrite list_lookup_insert_ne. }
  assert (∀ pc, pc ∈ owned s' ↔ pc = next_pc w) as Hown by (intros pc; rewrite Ho'; apply list_elem_of_singleton).
  split; try apply H.
  - cbn. unfold len. rewrite length_insert. apply H.
  - cbn. unfold len. rewrite length_insert. apply H.
  - intros j t [[-> ->]|[_ Hj]]%Hat; [change (slot_id s') with (slot_id s)|]; by eapply inv_slot.
  - intros j t [[-> ->]|[_ Hj]]%Hat; [done|by eapply inv_shape].
  - intros id v Hv. apply (inv_entry _ H) in Hv as (j & t & Hj & Hid & Hok). destruct (decide (j = i)) as [->|Hne].
    + exists i, s'. simplify_eq. split_and!; [done..|]. destruct v; [done|]. cbn in Hok. congruence.
    + exists j, t. auto.
  - intros j k t u pc [[-> ->]|[Hj Ht]]%Hat [[-> ->]|[Hk Hu]]%Hat H1 H2; [done| | |by eapply inv_owner].
    + apply Hown in H1 as ->. exfalso. eapply Hlive; [left; by exists k, u|done].
    + apply Hown in H2 as ->. exfalso. eapply Hlive; [left; by exists j, t|done].
  - intros j t pc [[-> ->]|[Hj Ht]]%Hat H1 H2; [|by eapply (inv_apart _ H)].
    apply Hown in H1 as ->. eapply Hlive; [right; exact H2|done].
  - intros pc Hpc. cbn. assert (pc = next_pc w ∨ pc < next_pc w) as [|]; [|lia..].
    destruct Hpc as [[(j & t & [[-> ->]|[Hj Ht]]%Hat & Hpc)|Hpc]|Hpc].
    + left. by apply Hown.
    + right. apply (inv_old _ H). left; left. by exists j, t.
    + right. apply (inv_old _ H). left. by right.
    + right. apply (inv_old _ H). by right.
  - intros pc Hpc. cbn in Hpc. destruct (decide (pc = next_pc w)) as [->|Hne].
    + left; left. exists i, s'. split; [done|]. by apply Hown.
    + destruct (inv_all _ H pc) as [[(j & t & Hj & Ht)|Hact]|Hc]; [lia| |left; by right|by right].
      left; left. exists j, t. split; [|done]. apply Hother; [|done]. intros ->. simplify_eq.
      rewrite Ho in Ht. by apply elem_of_nil in Ht.
  - intros j t pc [[-> ->]|[Hj Ht]]%Hat Hc Hpc; [|by eapply (inv_clean _ H)].
    apply Hown in Hpc as ->. intros Hc'. pose proof (inv_old _ H (next_pc w) (or_intror (or_introl Hc'))). lia.
  - intros j t pc [[-> ->]|[Hj Ht]]%Hat Hc Hpc; [congruence|by eapply (inv_dirty _ H)].
Qed.

Lemma inv_reserve id body w w' :
  inv w → reserve_slot w = Some (id, w') → (len (signalings w) + 1 ≤ slots)%N →
  inv (push_signaling (SignalingGuard_new id body) w').
Proof.
  intros H Hres Hlen. unfold reserve_slot in Hres.
  destruct (max_peer_connections (config w) <=? len (registry w))%N eqn:Hmax; [done|].
  apply N.leb_gt in Hmax. injection Hres as Hid Hw. subst id w'.
  set (s := SignalingGuard_new _ _).
  assert (next_slot_id w = len (signalings w)) as Hnext.
  { rewrite (inv_next _ H). apply N.mod_small. lia. }
  match goal with |- inv ?x => set (w' := x) end.
  assert (∀ j t, signalings w' !! j = Some t ↔ signalings w !! j = Some t ∨ (j = length (signalings w) ∧ t = s)) as Hat.
  { intros j t. change (signalings w') with (signalings w ++ [s]). rewrite lookup_snoc_Some.
    split; [intros [[? ?]|[? ?]]; subst; auto|].
    intros [Hj|[-> ->]]; [left; split; [by eapply lookup_lt_Some|done]|by right]. }
  assert (actives w' = actives w) as Hact.
  { unfold actives. cbn. rewrite omap_app. cbn. by rewrite app_nil_r. }
  assert (∀ pc, pc ∉ owned s) as Hown by (intros pc; apply not_elem_of_nil).
  assert (∀ pc, live w' pc ↔ live w pc) as Hlive.
  { intros pc. unfold live. rewrite Hact. split; intros [(j & t & Hj & Ht)|Ha]; [|by right| |by right].
    - apply Hat in Hj as [Hj|[-> ->]]; [left; by exists j, t|by apply Hown in Ht].
    - left. exists j, t. split; [apply Hat; by left|done]. }
  split.
  - cbn. unfold len in *. rewrite length_app. cbn. unfold slots in *. lia.
  - cbn. rewrite Hnext. unfold len. rewrite length_app. cbn. f_equal. lia.
  - intros j t [Hj|[-> ->]]%Hat; [by eapply inv_slot|]. exact Hnext.
  - intros j t [Hj|[-> ->]]%Hat; [by eapply inv_shape|done].
  - cbn. rewrite fmap_app. apply NoDup_app. split_and!; [apply H| |apply NoDup_singleton].
    intros x ([k v] & -> & Hkv)%list_elem_of_fmap Hx. apply list_elem_of_singleton in Hx. cbn in Hx. subst k.
    apply (inv_entry _ H) in Hkv as (j & t & Hj & Hid & _). rewrite (inv_slot _ H _ _ Hj), Hnext in Hid.
    apply lookup_lt_Some in Hj. unfold len in Hid. lia.
  - cbn. unfold len in *. rewrite length_app. cbn. lia.
  - intros k v Hkv. cbn in Hkv. apply elem_of_app in Hkv as [Hkv|Hkv].
    + apply (inv_entry _ H) in Hkv as (j & t & Hj & ?). exists j, t. split; [apply Hat; by left|done].
    + apply list_elem_of_singleton in Hkv. injection Hkv as -> ->.
      exists (length (signalings w)), s. split_and!; [apply Hat; by right|done..].
  - intros j k t u pc [Hj|[-> ->]]%Hat [Hk|[-> ->]]%Hat H1 H2; try (by apply Hown in H1 || apply Hown in H2).
    by eapply inv_owner.
  - intros j t pc [Hj|[-> ->]]%Hat H1; [|by apply Hown in H1]. rewrite Hact. by eapply inv_apart.
  - rewrite Hact. apply H.
  - intros pc. rewrite Hlive. apply H.
  - intros pc. rewrite Hlive. apply H.
  - intros pc. rewrite Hact. apply H.
  - intros j t pc [Hj|[-> ->]]%Hat H1 H2; [by eapply (inv_clean _ H)|by apply Hown in H2].
  - intros j t pc [Hj|[-> ->]]%Hat H1 H2; [by eapply (inv_dirty _ H)|by apply Hown in H2].
Qed.

Lemma inv_close_peers w : inv w → inv (close_active_peers w).
Proof.
  intros H. unfold close_active_peers, take_active_peers. fold (actives w).
  match goal with |- inv ?x => set (w' := x) end.
  assert (∀ id v, (id, v) ∈ registry w' ↔ (id, v) ∈ registry w ∧ v = Reserved) as Hreg.
  { intros id v. cbn. rewrite elem_of_filter_b. destruct v; cbn; naive_solver. }
  assert (∀ pc, pc ∉ actives w') as Hact.
  { intros pc [id [_ Hid]%Hreg]%elem_of_actives. done. }
  assert (registry w' `sublist_of` registry w) as Hsub by apply filter_sublist_b.
  split; try apply H.
  - eapply sublist_NoDup; [apply H|apply sublist_ids, Hsub].
  - pose proof (sublist_length _ _ Hsub). pose proof (inv_len _ H). cbn in *. unfold len in *. lia.
  - intros id v [Hv _]%Hreg. by apply (inv_entry _ H).
  - intros i s pc _ _ ?%Hact. done.
  - eapply sublist_NoDup; [apply H|apply sublist_actives, Hsub].
  - intros pc Hpc. apply (inv_old _ H). destruct Hpc as [[Hl|?%Hact]|[Hc|Hf]]; [left; by left|done| |by right; right].
    cbn in Hc. apply elem_of_app in Hc as [Ha|Hc]; [left; by right|right; by left].
  - intros pc Hpc. apply (inv_all _ H) in Hpc as [[Hl|Ha]|[Hc|Hf]]; cbn; rewrite ?elem_of_app; auto.
    left. by left.
  - intros pc ?%Hact. done.
  - intros i s pc Hi Hc Ho Hcl. cbn in Hcl. apply elem_of_app in Hcl as [Ha|Hcl].
    + by eapply (inv_apart _ H).
    + by eapply (inv_clean _ H).
  - intros i s pc Hi Hd Ho. cbn. apply elem_of_app. right. by eapply (inv_dirty _ H).
Qed.

Lemma inv_drain w : inv w → inv (begin_terminal_drain w).
Proof. intros H. split; apply H. Qed.

End spec.

(** ** Every step *)

(** What its shape says of the fields of a signalling. *)
Ltac sig_fields Hshape :=
  unfold shape, build_agrees, build_idle, build_done, held, empty in Hshape;
  cbn in Hshape;
  repeat match type of Hshape with
  | context [match ?x with _ => _ end] => is_var x; destruct x; cbn in Hshape
  end;
  rewrite ?andb_true_r, ?andb_false_r in Hshape; try discriminate Hshape.

Ltac sig_side Hshape :=
  cbn; rewrite ?andb_true_r;
  first [done | exact Hshape | tauto | by left | by right | by right; left | by right; right | intros; cbn in *; set_solver].

Section steps.
Context {AT : AnyTypes} {MM : Memmem} {WC : WebRtcCrate}.

Lemma inv_complete runtime a i s s' w w1 :
  inv w → signalings w !! i = Some s → complete_signaling runtime a s w = Some (s', w1) → inv (set_signaling i s' w1).
Proof.
  intros H Hi Hc. pose proof (inv_shape _ H _ _ Hi) as Hshape.
  destruct s as [id st ar sg bu se]. unfold complete_signaling in Hc. cbn in Hc.
  destruct sg; destruct ar; sig_fields Hshape.
  all: repeat case_first_in Hc; simplify_eq Hc; intros; subst.
  all: first
    [ eapply inv_local0; [exact H|exact Hi|done|..]; sig_side Hshape
    | refine (inv_activate runtime i _ _ _ w H Hi _); reflexivity
    | eapply (inv_local i _ _ [_]); [exact H|exact Hi|done|..]; sig_side Hshape
    | refine (world_inv_release runtime i _ _ [] w H Hi _ _ _ _ _ _ _ _); [done|..]; sig_side Hshape
    | refine (world_inv_release runtime i _ _ [_] w H Hi _ _ _ _ _ _ _ _); [done|..]; sig_side Hshape ].
Qed.

Lemma inv_drop r i s w :
  inv w → signalings w !! i = Some s → at_await s = true →
  match r with Some r => (status r =? 200)%N = false | None => True end →
  inv (set_signaling i (set_stage (AtDrop r) s) w).
Proof.
  intros H Hi Ha Hr. pose proof (inv_shape _ H _ _ Hi) as Hshape.
  destruct s as [id st ar sg bu se]. unfold at_await in Ha. cbn in Ha.
  destruct sg; try discriminate Ha; destruct ar; sig_fields Hshape.
  all: eapply inv_local0; [exact H|exact Hi|done|..]; destruct r; cbn; rewrite ?Hr; sig_side Hshape.
Qed.

Lemma inv_run_build runtime b i s s' w w1 :
  inv w → signalings w !! i = Some s → run_build runtime b s w = Some (s', w1) → inv (set_signaling i s' w1).
Proof.
  intros H Hi Hc. pose proof (inv_shape _ H _ _ Hi) as Hshape.
  destruct s as [id st ar sg bu se]. unfold run_build, build_over in Hc. cbn in Hc.
  destruct bu; try discriminate Hc; repeat case_first_in Hc; simplify_eq Hc; intros; subst.
  all: try (by apply (inv_build_held i _ _ H Hi)).
  all: destruct sg; destruct ar; sig_fields Hshape.
  all: first
    [ refine (inv_local0 i _ _ _ H Hi _ _ _ _ _ _ _); [done|..]; sig_side Hshape
    | refine (inv_local0 i _ _ _ (inv_count_close _ H) Hi _ _ _ _ _ _ _); [done|..]; sig_side Hshape
    | refine (world_inv_release runtime i _ _ [] _ H Hi _ _ _ _ _ _ _ _); [done|..]; sig_side Hshape ].
Qed.

(** ** Runs *)

Lemma release_slot_sigs runtime id w : signalings (release_slot runtime id w) = signalings w.
Proof. unfold release_slot, spawn_close. repeat case_first; done. Qed.

Lemma on_state_sigs runtime st s w : signalings (on_connection_state_change runtime st s w) = signalings w.
Proof. destruct st; try done; apply release_slot_sigs. Qed.

Lemma with_signaling_Some i k w w' :
  with_signaling i k w = Some w' ↔
  ∃ s s' w1, signalings w !! i = Some s ∧ k s = Some (s', w1) ∧ w' = set_signaling i s' w1.
Proof.
  unfold with_signaling. destruct (signalings w !! i) as [s|]; [|naive_solver].
  destruct (k s) as [[s' w1]|] eqn:Hk; naive_solver.
Qed.

(** An offer either changes nothing or reserves a slot at the end of the registry. *)
Lemma step_offer head body w w' :
  step (Offer head body) w = Some w' →
  w' = w ∨ ∃ id w1, reserve_slot w = Some (id, w1) ∧ w' = push_signaling (SignalingGuard_new id body) w1.
Proof.
  cbn. unfold try_handle_rtc_offer. destruct (negb (str_eqb (method head) (lit "POST")) || _); [intros [= <-]; by left|].
  destruct (check_offer (config w) head body); [intros [= <-]; by left|].
  destruct (reserve_slot w) as [[id w1]|]; [|intros [= <-]; by left]. intros [= <-]. right. by exists id, w1.
Qed.

Lemma reserve_slot_Some w id w1 :
  reserve_slot w = Some (id, w1) →
  id = next_slot_id w ∧ registry w1 = registry w ++ [(id, Reserved)] ∧ config w1 = config w
  ∧ signalings w1 = signalings w ∧ forgotten w1 = forgotten w ∧ terminal_draining w1 = terminal_draining w.
Proof. unfold reserve_slot. destruct (_ <=? _)%N; [done|]. by intros [= <- <-]. Qed.

Lemma inv_step e w w' : inv w → step e w = Some w' → (len (signalings w') ≤ slots)%N → inv w'.
Proof.
  intros H Hstep Hlen. destruct e as [head body|i runtime a|i|i|i runtime b|i runtime st| |]; [|cbn in Hstep..].
  - apply step_offer in Hstep as [->|(id & w1 & Hres & ->)]; [done|].
    eapply inv_reserve; [exact H|exact Hres|]. apply reserve_slot_Some in Hres as (_ & _ & _ & Hsigs & _).
    cbn in Hlen. unfold len in *. rewrite length_app, Hsigs in Hlen. cbn in Hlen. lia.
  - apply with_signaling_Some in Hstep as (s & s' & w1 & Hi & Hk & ->). by eapply inv_complete.
  - apply with_signaling_Some in Hstep as (s & s' & w1 & Hi & Hk & ->).
    destruct (at_await s) eqn:Ha; [|done]. injection Hk as <- <-. by apply inv_drop.
  - apply with_signaling_Some in Hstep as (s & s' & w1 & Hi & Hk & ->).
    destruct (at_await s) eqn:Ha; [|done]. injection Hk as <- <-. by apply inv_drop.
  - apply with_signaling_Some in Hstep as (s & s' & w1 & Hi & Hk & ->). by eapply inv_run_build.
  - destruct (signalings w !! i) as [s|] eqn:Hi; [|done].
    assert (w' = on_connection_state_change runtime st s w) as -> by (destruct (build s); by simplify_eq).
    assert (inv (release_slot runtime (slot_id s) w)) as Hrel.
    { replace (release_slot _ _ _) with (set_signaling i s (spawn_closes runtime [] (release_slot runtime (slot_id s) w))).
      - eapply world_inv_release; eauto; [by eapply inv_shape|set_solver].
      - cbn. unfold set_signaling. rewrite release_slot_sigs, list_insert_id; [|done].
        rewrite <- (release_slot_sigs runtime (slot_id s) w). by destruct (release_slot runtime (slot_id s) w). }
    by destruct st.
  - injection Hstep as <-. by apply inv_drain.
  - injection Hstep as <-. by apply inv_close_peers.
Qed.

Lemma complete_sigs runtime a s w s' w1 : complete_signaling runtime a s w = Some (s', w1) → signalings w1 = signalings w.
Proof.
  intros H. unfold complete_signaling in H.
  repeat case_first_in H; simplify_eq; cbn; unfold spawn_close; rewrite ?release_slot_sigs; try done;
    unfold activate_slot, spawn_close; repeat case_first; cbn; rewrite ?release_slot_sigs; done.
Qed.

Lemma run_build_sigs runtime b s w s' w1 : run_build runtime b s w = Some (s', w1) → signalings w1 = signalings w.
Proof.
  intros H. unfold run_build in H.
  repeat case_first_in H; simplify_eq; cbn; rewrite ?release_slot_sigs; done.
Qed.

Lemma step_sigs e w w' :
  step e w = Some w' →
  match e with
  | Offer head body => signalings w' = signalings w ∨ ∃ id, signalings w' = signalings w ++ [SignalingGuard_new id body]
  | Advance i runtime a => ∃ s s' w1, signalings w !! i = Some s ∧ complete_signaling runtime a s w = Some (s', w1)
                                   ∧ signalings w' = <[i := s']> (signalings w)
  | Deadline i | Cancel i => ∃ s r, signalings w !! i = Some s ∧ at_await s = true
                                   ∧ signalings w' = <[i := set_stage (AtDrop r) s]> (signalings w)
  | Build i runtime b => ∃ s s' w1, signalings w !! i = Some s ∧ run_build runtime b s w = Some (s', w1)
                                 ∧ signalings w' = <[i := s']> (signalings w)
  | PeerState _ _ _ | BeginDrain | ClosePeers => signalings w' = signalings w
  end.
Proof.
  destruct e as [head body|i runtime a|i|i|i runtime b|i runtime st| |]; [|cbn..]; intros Hstep.
  - apply step_offer in Hstep as [->|(id & w1 & Hres & ->)]; [by left|]. right. exists id.
    apply reserve_slot_Some in Hres as (_ & _ & _ & Hsigs & _). cbn. by rewrite Hsigs.
  - apply with_signaling_Some in Hstep as (s & s' & w1 & Hi & Hk & ->). exists s, s', w1. split_and!; [done..|].
    cbn. by rewrite (complete_sigs _ _ _ _ _ _ Hk).
  - apply with_signaling_Some in Hstep as (s & s' & w1 & Hi & Hk & ->).
    destruct (at_await s) eqn:Ha; [|done]. injection Hk as <- <-. by eexists s, _.
  - apply with_signaling_Some in Hstep as (s & s' & w1 & Hi & Hk & ->).
    destruct (at_await s) eqn:Ha; [|done]. injection Hk as <- <-. by eexists s, _.
  - apply with_signaling_Some in Hstep as (s & s' & w1 & Hi & Hk & ->). exists s, s', w1. split_and!; [done..|].
    cbn. by rewrite (run_build_sigs _ _ _ _ _ _ Hk).
  - destruct (signalings w !! i) as [s|]; [|done].
    assert (w' = on_connection_state_change runtime st s w) as -> by (destruct (build s); by simplify_eq).
    apply on_state_sigs.
  - by injection Hstep as <-.
  - by injection Hstep as <-.
Qed.

Lemma step_len e w w' : step e w = Some w' → (len (signalings w) ≤ len (signalings w'))%N.
Proof.
  intros H%step_sigs. unfold len. destruct e; destruct_and?; repeat match goal with
    | H : ∃ _, _ |- _ => destruct H
    | H : _ ∧ _ |- _ => destruct H
    | H : _ ∨ _ |- _ => destruct H
    end; match goal with H : signalings w' = _ |- _ => rewrite H end; rewrite ?length_app, ?length_insert; lia.
Qed.

Lemma events_app es1 es2 w : run (es1 ++ es2) w = run es1 w ≫= run es2.
Proof.
  revert w. induction es1 as [|e es1 IH]; intros w; cbn; [done|]. destruct (step e w); [apply IH|done].
Qed.

Lemma run_len es w w' : run es w = Some w' → (len (signalings w) ≤ len (signalings w'))%N.
Proof.
  revert w. induction es as [|e es IH]; intros w; cbn; [intros [= ->]; lia|].
  destruct (step e w) as [w1|] eqn:Hs; [|done]. intros H%IH. pose proof (step_len _ _ _ Hs). lia.
Qed.

Lemma run_inv es w w' : inv w → run es w = Some w' → (len (signalings w') ≤ slots)%N → inv w'.
Proof.
  revert w. induction es as [|e es IH]; intros w H; cbn; [by intros [= <-]|].
  destruct (step e w) as [w1|] eqn:Hs; [|done]. intros Hrun Hlen. eapply IH; [|exact Hrun|done].
  eapply inv_step; eauto. pose proof (run_len _ _ _ Hrun). lia.
Qed.

(** An induction over the events of a run that keeps the invariant at hand. *)
Lemma run_keeps (P : World → Prop) (Q : Event → Prop) es w w' :
  (∀ e w w', inv w → inv w' → Q e → P w → step e w = Some w' → P w') →
  inv w → Forall Q es → P w → run es w = Some w' → (len (signalings w') ≤ slots)%N → P w'.
Proof.
  intros Hstep. revert w. induction es as [|e es IH]; intros w H HQ HP; cbn; [by intros [= <-]|].
  apply Forall_cons in HQ as [Hq HQ].
  destruct (step e w) as [w1|] eqn:Hs; [|done]. intros Hrun Hlen. pose proof (run_len _ _ _ Hrun).
  assert (inv w1) by (eapply inv_step; eauto; lia). eapply (IH w1); eauto.
Qed.

End steps.
