(* ===== verification/WebRtcSpec.v ===== *)
(** * [plugin-webrtc]: what the registry and the guard guarantee

    Under every interleaving: the registry is bounded and its peers are open and distinct; an
    answered peer is registered; no slot and no connection is leaked; nothing is registered after a
    drain; every signalling ends; and a connection never has too many data channels. *)

From S2P Require Import Prelude Text Utf8 Radix Extensions Request Response Gate ServerConfig NetAddr WebRtc WebRtcInv.

Section spec.
Context {AT : AnyTypes} {MM : Memmem} {WC : WebRtcCrate}.

(** ** The registry *)

Lemma release_config runtime id w : config (release_slot runtime id w) = config w.
Proof. unfold release_slot, spawn_close. repeat case_first; done. Qed.

Lemma complete_config runtime a s w s' w1 : complete_signaling runtime a s w = Some (s', w1) → config w1 = config w.
Proof.
  intros H. unfold complete_signaling in H.
  repeat case_first_in H; simplify_eq; cbn; unfold spawn_close; rewrite ?release_config; try done;
    unfold activate_slot, spawn_close; repeat case_first; cbn; rewrite ?release_config; done.
Qed.

Lemma step_config e w w' : step e w = Some w' → config w' = config w.
Proof.
  destruct e as [head body|i runtime a|i|i|i runtime b|i runtime st| |]; [|cbn..]; intros Hstep.
  - apply step_offer in Hstep as [->|(id & w1 & Hres & ->)]; [done|]. by apply reserve_slot_Some in Hres as (_ & _ & ? & _ & ? & _).
  - apply with_signaling_Some in Hstep as (s & s' & w1 & Hi & Hk & ->). cbn. by eapply complete_config.
  - apply with_signaling_Some in Hstep as (s & s' & w1 & Hi & Hk & ->). destruct (at_await s); by simplify_eq/=.
  - apply with_signaling_Some in Hstep as (s & s' & w1 & Hi & Hk & ->). destruct (at_await s); by simplify_eq/=.
  - apply with_signaling_Some in Hstep as (s & s' & w1 & Hi & Hk & ->).
    unfold run_build in Hk. repeat case_first_in Hk; simplify_eq; cbn; by rewrite ?release_config.
  - repeat case_first_in Hstep; simplify_eq; destruct st; cbn; by rewrite ?release_config.
  - by injection Hstep as <-.
  - by injection Hstep as <-.
Qed.

Lemma run_config es w w' : run es w = Some w' → config w' = config w.
Proof.
  revert w. induction es as [|e es IH]; intros w; cbn; [by intros [= ->]|].
  destruct (step e w) as [w1|] eqn:Hs; [|done]. intros ->%IH. by eapply step_config.
Qed.

(** C34: under any interleaving of offers, build tasks, callbacks, cancellations and drains the
    registry never has more than [max_peer_connections] slots and no slot twice; each registered
    connection is registered once, belongs to a call that is answered 200, is owned by no call any
    more, and the plugin has not closed it. *)
Theorem webrtc_registry es cfg w :
  run es (init cfg) = Some w → (len (signalings w) ≤ 2 ^ 64)%N →
  (len (registry w) ≤ max_peer_connections cfg)%N ∧ NoDup (registry w).*1 ∧ NoDup (actives w)
  ∧ ∀ id pc, (id, Active pc) ∈ registry w →
      (pc ∉ closing w)
      ∧ (∃ i s, signalings w !! i = Some s ∧ slot_id s = id ∧ answered s = true)
      ∧ ∀ i s, signalings w !! i = Some s → pc ∉ owned s.
Proof.
  intros Hrun Hlen. pose proof (run_inv es _ _ (world_inv_init cfg) Hrun Hlen) as H.
  split_and!; [|apply H|apply H|].
  - pose proof (run_config _ _ _ Hrun) as Hcfg. cbn in Hcfg. rewrite <- Hcfg. apply H.
  - intros id pc Hpc. assert (pc ∈ actives w) as Ha by (apply elem_of_actives; eauto). split_and!.
    + by apply (inv_open _ H).
    + by apply (inv_entry _ H) in Hpc.
    + intros i s Hi Ho. by eapply (inv_apart _ H).
Qed.

(** ** Nothing is leaked *)

(** The event does not happen outside of a tokio runtime, where [spawn_close] can start no task. *)
Definition in_runtime (e : Event) : Prop :=
  match e with
  | Advance _ runtime _ | Build _ runtime _ | PeerState _ runtime _ => runtime = true
  | _ => True
  end.

Lemma release_forgotten id w : forgotten (release_slot true id w) = forgotten w.
Proof. unfold release_slot. repeat case_first; done. Qed.

Lemma step_forgotten e w w' : step e w = Some w' → in_runtime e → forgotten w' = forgotten w.
Proof.
  destruct e as [head body|i runtime a|i|i|i runtime b|i runtime st| |]; [|cbn..]; intros Hstep Hrt; cbn in Hrt; subst.
  - apply step_offer in Hstep as [->|(id & w1 & Hres & ->)]; [done|]. by apply reserve_slot_Some in Hres as (_ & _ & ? & _ & ? & _).
  - apply with_signaling_Some in Hstep as (s & s' & w1 & Hi & Hk & ->). cbn. unfold complete_signaling in Hk.
    repeat case_first_in Hk; simplify_eq; cbn; rewrite ?release_forgotten; try done;
      unfold activate_slot; repeat case_first; done.
  - apply with_signaling_Some in Hstep as (s & s' & w1 & Hi & Hk & ->). destruct (at_await s); by simplify_eq/=.
  - apply with_signaling_Some in Hstep as (s & s' & w1 & Hi & Hk & ->). destruct (at_await s); by simplify_eq/=.
  - apply with_signaling_Some in Hstep as (s & s' & w1 & Hi & Hk & ->).
    unfold run_build in Hk. repeat case_first_in Hk; simplify_eq; cbn; by rewrite ?release_forgotten.
  - repeat case_first_in Hstep; simplify_eq; destruct st; cbn; by rewrite ?release_forgotten.
  - by injection Hstep as <-.
  - by injection Hstep as <-.
Qed.

Lemma run_forgotten es w w' : run es w = Some w' → Forall in_runtime es → forgotten w' = forgotten w.
Proof.
  revert w. induction es as [|e es IH]; intros w; cbn; [by intros [= ->]|].
  destruct (step e w) as [w1|] eqn:Hs; [|done]. intros Hrun [He Hes]%Forall_cons.
  rewrite (IH _ Hrun Hes). by eapply step_forgotten.
Qed.

(** When every call has returned or was dropped, and every build task has ended. *)
Definition all_over (w : World) : Prop := Forall (λ s, over s = true) (signalings w).

Lemma over_holds_nothing s : over s = true → holds_slot s = false.
Proof. unfold over, holds_slot, build_idle. destruct (stage s), (build s), (state s); done. Qed.

Lemma over_dirty s : over s = true → dirty s = true.
Proof. unfold over, dirty. destruct (stage s); done. Qed.

Lemma over_reserved w id : inv w → all_over w → (id, Reserved) ∉ registry w.
Proof.
  intros H Hover (i & s & Hi & _ & Hok)%(inv_entry _ H). cbn in Hok.
  rewrite (over_holds_nothing s) in Hok; [done|]. eapply (proj1 (Forall_lookup _ _) Hover), Hi.
Qed.

Lemma over_closed w pc :
  inv w → all_over w → forgotten w = [] → pc < next_pc w → pc ∈ actives w ∨ pc ∈ closing w.
Proof.
  intros H Hover Hf [[(i & s & Hi & Ho)|Ha]|[Hc|Hx]]%(inv_all _ H); [|by left|by right|].
  - right. eapply (inv_dirty _ H); [exact Hi| |exact Ho].
    apply over_dirty. eapply (proj1 (Forall_lookup _ _) Hover), Hi.
  - rewrite Hf in Hx. by apply elem_of_nil in Hx.
Qed.

(** C35: whatever the interleaving of deadlines, cancellations, panics, failed builds and callbacks,
    once every call and every build task is over no slot is left reserved, and every connection that
    was ever built is registered or was handed to [close]. *)
Theorem webrtc_no_leak es cfg w :
  run es (init cfg) = Some w → (len (signalings w) ≤ 2 ^ 64)%N → Forall in_runtime es → all_over w →
  (∀ id v, (id, v) ∈ registry w → ∃ pc, v = Active pc)
  ∧ ∀ pc, pc < next_pc w → pc ∈ actives w ∨ pc ∈ closing w.
Proof.
  intros Hrun Hlen Hrt Hover. pose proof (run_inv es _ _ (world_inv_init cfg) Hrun Hlen) as H. split.
  - intros id [|pc] Hv; [|by exists pc]. by apply over_reserved in Hv.
  - intros pc Hpc. apply over_closed; [done..| |done]. by rewrite (run_forgotten _ _ _ Hrun Hrt).
Qed.

(** ** After a drain *)

Lemma remove_slot_sublist id r v r' : remove_slot id r = Some (v, r') → r' `sublist_of` r.
Proof.
  revert r'. induction r as [|[k u] r IH]; cbn; [done|]. intros r'. destruct (k =? id)%N.
  - intros [= _ <-]. by constructor.
  - destruct (remove_slot id r) as [[u1 r1]|]; [|done]. intros [= -> <-]. constructor. by apply IH.
Qed.

Lemma release_registry runtime id w : registry (release_slot runtime id w) `sublist_of` registry w.
Proof.
  unfold release_slot, spawn_close. destruct (remove_slot id (registry w)) as [[[|pc] r]|] eqn:Hr; [| |done].
  - by apply remove_slot_sublist in Hr.
  - apply remove_slot_sublist in Hr. by destruct runtime.
Qed.

Lemma release_draining runtime id w : terminal_draining (release_slot runtime id w) = terminal_draining w.
Proof. unfold release_slot, spawn_close. repeat case_first; done. Qed.

(** Steps while draining: the flag stays, and entries are only removed, or added as [Reserved]. *)
Lemma step_draining e w w' :
  terminal_draining w = true → step e w = Some w' →
  terminal_draining w' = true ∧ ∀ pc, pc ∈ actives w' → pc ∈ actives w.
Proof.
  assert (∀ w', terminal_draining w = true → registry w' `sublist_of` registry w → terminal_draining w' = terminal_draining w →
            terminal_draining w' = true ∧ ∀ pc, pc ∈ actives w' → pc ∈ actives w) as Hsub.
  { intros w0 Hd Hs Heq. split; [congruence|]. intros pc Hpc. eapply elem_of_sublist, sublist_actives, Hs. done. }
  assert (∀ w', terminal_draining w = true → registry w' = registry w → terminal_draining w' = terminal_draining w →
            terminal_draining w' = true ∧ ∀ pc, pc ∈ actives w' → pc ∈ actives w) as Hsame.
  { intros w0 Hd Hs. apply Hsub; [done|]. by rewrite Hs. }
  intros Hd. destruct e as [head body|i runtime a|i|i|i runtime b|i runtime st| |]; [|cbn..]; intros Hstep.
  - apply step_offer in Hstep as [->|(id & w1 & Hres & ->)]; [by apply Hsame|].
    apply reserve_slot_Some in Hres as (_ & Hreg & _ & _ & _ & Hdr). split; [by rewrite <- Hd|].
    intros pc. unfold actives. cbn. rewrite Hreg, omap_app. cbn. by rewrite app_nil_r.
  - apply with_signaling_Some in Hstep as (s & s' & w1 & Hi & Hk & ->). unfold complete_signaling in Hk.
    repeat case_first_in Hk; simplify_eq; apply Hsub; cbn; try done;
      unfold activate_slot; rewrite ?Hd; unfold spawn_close; repeat case_first; cbn;
      rewrite ?release_draining; try done; first [apply release_registry | apply filter_sublist_b].
  - apply with_signaling_Some in Hstep as (s & s' & w1 & Hi & Hk & ->). destruct (at_await s); [|done].
    injection Hk as <- <-. by apply Hsame.
  - apply with_signaling_Some in Hstep as (s & s' & w1 & Hi & Hk & ->). destruct (at_await s); [|done].
    injection Hk as <- <-. by apply Hsame.
  - apply with_signaling_Some in Hstep as (s & s' & w1 & Hi & Hk & ->).
    unfold run_build in Hk. repeat case_first_in Hk; simplify_eq; apply Hsub; cbn; try done;
      first [apply release_registry | apply release_draining].
  - repeat case_first_in Hstep; simplify_eq; destruct st; apply Hsub; cbn; try done;
      first [apply release_registry | apply release_draining].
  - injection Hstep as <-. by split.
  - injection Hstep as <-. apply Hsub; [done|apply filter_sublist_b|done].
Qed.

Lemma run_draining es w w' :
  terminal_draining w = true → run es w = Some w' →
  terminal_draining w' = true ∧ ∀ pc, pc ∈ actives w' → pc ∈ actives w.
Proof.
  revert w. induction es as [|e es IH]; intros w Hd; cbn; [by intros [= <-]|].
  destruct (step e w) as [w1|] eqn:Hs; [|done]. intros Hrun.
  destruct (step_draining _ _ _ Hd Hs) as [Hd1 Ha1]. destruct (IH _ Hd1 Hrun) as [? Ha2]. auto.
Qed.

Lemma closed_peers_gone w pc : pc ∉ actives (close_active_peers w).
Proof. intros [id Hid]%elem_of_actives. cbn in Hid. by apply elem_of_filter_b in Hid as [_ ?]. Qed.

(** Where no peer is registered, all is over and nothing was forgotten, everything was closed. *)
Lemma drained_empty es cfg w :
  run es (init cfg) = Some w → actives w = [] →
  (len (signalings w) ≤ 2 ^ 64)%N → Forall in_runtime es → all_over w →
  registry w = [] ∧ ∀ pc, pc < next_pc w → pc ∈ closing w.
Proof.
  intros Hrun Hact Hlen Hrt Hover. pose proof (run_inv _ _ _ (world_inv_init cfg) Hrun Hlen) as H. split.
  - apply elem_of_nil_inv. intros [id [|pc]] Hv; [by apply over_reserved in Hv|].
    assert (pc ∈ actives w) as Ha by (apply elem_of_actives; eauto). rewrite Hact in Ha. by apply elem_of_nil in Ha.
  - intros pc Hpc. assert (forgotten w = []) as Hf by (by rewrite (run_forgotten _ _ _ Hrun Hrt)).
    destruct (over_closed w pc H Hover Hf Hpc) as [Ha|]; [|done]. rewrite Hact in Ha. by apply elem_of_nil in Ha.
Qed.

(** After [drain_for_shutdown], whatever runs in between and afterwards, no connection is
    registered any more; and once every call and build task is over, the registry is empty and every
    connection that was ever built was handed to [close]. *)
Theorem webrtc_drain_final es1 es2 es3 cfg w :
  run (es1 ++ BeginDrain :: es2 ++ ClosePeers :: es3) (init cfg) = Some w →
  actives w = []
  ∧ ((len (signalings w) ≤ 2 ^ 64)%N → Forall in_runtime (es1 ++ BeginDrain :: es2 ++ ClosePeers :: es3) → all_over w →
     registry w = [] ∧ ∀ pc, pc < next_pc w → pc ∈ closing w).
Proof.
  intros Hrun. assert (actives w = []) as Hact.
  { rewrite events_app in Hrun. apply bind_Some in Hrun as (w1 & _ & Hrun). cbn [run step] in Hrun.
    rewrite events_app in Hrun. apply bind_Some in Hrun as (w2 & H2 & Hrun). cbn [run step] in Hrun.
    apply run_draining in H2 as [Hd2 _]; [|done].
    apply run_draining in Hrun as [_ Ha]; [|exact Hd2].
    apply elem_of_nil_inv. intros pc Hpc%Ha. by apply closed_peers_gone in Hpc. }
  split; [done|]. by eapply drained_empty.
Qed.

(** ** An answered peer is registered *)

(** No drain, and no peer is reported closed or failed. *)
Definition undisturbed (e : Event) : Prop :=
  match e with
  | BeginDrain | ClosePeers => False
  | PeerState _ _ st => match st with PcClosed | PcFailed => False | _ => True end
  | _ => True
  end.

(** The slot must still be there, reserved. *)
Definition needs_slot (s : Signaling) : bool :=
  match stage s with
  | AtParse _ | AtSetRemote | AtCreateAnswer | AtSetLocal | AtGather | AtLocalDesc | AtActivate _ | AtActivateSlot _ _ => true
  | AtBuild => negb (empty s)
  | _ => false
  end.

Definition kept (w : World) (s : Signaling) : Prop :=
  (needs_slot s = true → (slot_id s, Reserved) ∈ registry w)
  ∧ (answered s = true → ∃ pc, (slot_id s, Active pc) ∈ registry w).

Definition all_kept (w : World) : Prop :=
  terminal_draining w = false ∧ ∀ i s, signalings w !! i = Some s → kept w s.

(** The slots of all others are as they were. *)
Definition others_kept (id : N) (w w1 : World) : Prop :=
  ∀ id' v, id' ≠ id → (id', v) ∈ registry w → (id', v) ∈ registry w1.

Lemma release_others runtime id w : NoDup (registry w).*1 → others_kept id w (release_slot runtime id w).
Proof.
  intros Hnd id' v Hne Hv. rewrite (release_slot_spec _ _ _ Hnd).
  pose proof (spawn_closes_fields runtime (omap active_pc (List.filter (λ e, e.1 =? id)%N (registry w)))
    (set_registry (List.filter (not_slot id) (registry w)) w)) as (_ & Hreg & _).
  rewrite Hreg. cbn. apply elem_of_filter_b. split; [done|]. by apply not_slot_ne.
Qed.

Lemma kept_update i s s' w w1 :
  inv w → all_kept w → signalings w !! i = Some s → slot_id s' = slot_id s → signalings w1 = signalings w →
  terminal_draining w1 = terminal_draining w → others_kept (slot_id s) w w1 → kept w1 s' →
  all_kept (set_signaling i s' w1).
Proof.
  intros H [Hd Hk] Hi Hslot Hsigs Hdr Ho Hs'. split; [by rewrite <- Hd|]. intros j t Hj.
  assert ((j = i ∧ t = s') ∨ (j ≠ i ∧ signalings w !! j = Some t)) as [[-> ->]|[Hne Hjw]].
  { eapply elem_of_insert; [|exact Hj]. cbn. by rewrite Hsigs. }
  - exact Hs'.
  - assert (slot_id t ≠ slot_id s) as Hid.
    { intros Heq. by destruct (slot_inj w j i t s H Hjw Hi Heq). }
    destruct (Hk j t Hjw) as [H1 H2]. split.
    + intros Hn. apply Ho; [done|auto].
    + intros Ha. destruct (H2 Ha) as [pc Hpc]. exists pc. by apply Ho.
Qed.

Lemma complete_kept runtime a i s s' w w1 :
  inv w → all_kept w → signalings w !! i = Some s → complete_signaling runtime a s w = Some (s', w1) →
  all_kept (set_signaling i s' w1).
Proof.
  intros H Hk Hi Hc. pose proof (inv_shape _ H _ _ Hi) as Hshape. pose proof (complete_sigs _ _ _ _ _ _ Hc) as Hsigs.
  pose proof (proj2 Hk i s Hi) as [Hneed Hans]. pose proof (release_others runtime (slot_id s) w (inv_ids _ H)) as Hrel.
  assert (slot_id s' = slot_id s ∧ terminal_draining w1 = terminal_draining w ∧ others_kept (slot_id s) w w1 ∧ kept w1 s')
    as (? & ? & ? & ?); [|by eapply (kept_update i s)].
  destruct (match stage s with AtActivateSlot _ _ => true | _ => false end) eqn:Hact.
  - destruct (stage s) as [| | | | | | | |pc answer| | | | | |] eqn:Hst; try done.
    unfold complete_signaling in Hc. rewrite Hst in Hc. unfold activate_slot in Hc. rewrite (proj1 Hk) in Hc.
    unfold needs_slot in Hneed. rewrite Hst in Hneed. specialize (Hneed eq_refl).
    pose proof (put_slot_spec (slot_id s) (Active pc) _ (inv_ids _ H)) as Hspec.
    destruct (put_slot _ _ _) as [r|].
    + injection Hc as <- <-. destruct Hspec as (_ & _ & Hel). split_and!; [done..| |].
      * intros id v Hne Hv. cbn. apply Hel. by right.
      * split; [done|]. intros _. exists pc. cbn. apply Hel. by left.
    + destruct Hspec. apply list_elem_of_fmap. by exists (slot_id s, Reserved).
  - clear Hsigs. destruct s as [id st ar sg bu se]. unfold complete_signaling in Hc. cbn in *.
    destruct sg; try discriminate Hact; destruct ar; sig_fields Hshape.
    all: repeat case_first_in Hc; simplify_eq Hc; intros; subst.
    all: unfold spawn_close; repeat match goal with |- context [if ?b then close _ _ else _] => destruct b end.
    all: split_and!; [done|first [done|apply release_draining]|first [exact Hrel|by intros ? ? _ ?]|].
    all: split; [by auto|intros Hn; cbn in Hn; rewrite ?andb_true_r in Hn; try discriminate Hn; auto].
    all: cbn in Hshape; rewrite Hn in Hshape; discriminate Hshape.
Qed.

Lemma build_kept runtime b i s s' w w1 :
  inv w → all_kept w → signalings w !! i = Some s → run_build runtime b s w = Some (s', w1) →
  all_kept (set_signaling i s' w1).
Proof.
  intros H Hk Hi Hc. pose proof (inv_shape _ H _ _ Hi) as Hshape. pose proof (run_build_sigs _ _ _ _ _ _ Hc) as Hsigs.
  pose proof (proj2 Hk i s Hi) as [Hneed Hans]. pose proof (release_others runtime (slot_id s) w (inv_ids _ H)) as Hrel.
  assert (slot_id s' = slot_id s ∧ terminal_draining w1 = terminal_draining w ∧ others_kept (slot_id s) w w1 ∧ kept w1 s')
    as (? & ? & ? & ?); [|by eapply (kept_update i s)].
  clear Hsigs. destruct s as [id st ar sg bu se]. unfold run_build, build_over in Hc. cbn in *.
  destruct bu; try discriminate Hc; repeat case_first_in Hc; simplify_eq Hc; intros; subst.
  all: destruct sg; destruct ar; sig_fields Hshape.
  all: split_and!; [done|first [done|apply release_draining]|first [exact Hrel|by intros ? ? _ ?]|].
  all: split; [by auto|intros Hn; cbn in Hn; try discriminate Hn; auto].
Qed.

Lemma drop_kept r i s w :
  inv w → all_kept w → signalings w !! i = Some s → at_await s = true → all_kept (set_signaling i (set_stage (AtDrop r) s) w).
Proof.
  intros H Hk Hi Ha. pose proof (inv_shape _ H _ _ Hi) as Hshape. eapply (kept_update i s); try done; [by intros ? ? _|].
  split; [done|]. destruct s as [id st ar sg bu se]. destruct r as [r|]; cbn in *; [|done].
  destruct sg; try discriminate Ha; destruct ar; sig_fields Hshape; done.
Qed.

Lemma step_kept e w w' : inv w → inv w' → undisturbed e → all_kept w → step e w = Some w' → all_kept w'.
Proof.
  intros H _ He Hk. destruct e as [head body|i runtime a|i|i|i runtime b|i runtime st| |];
    [|cbn [step undisturbed] in *..]; intros Hstep; [..|done|done].
  - apply step_offer in Hstep as [->|(id & w1 & Hres & ->)]; [done|].
    apply reserve_slot_Some in Hres as (Hid & Hreg & _ & Hsigs & _ & Hdr). split; [by rewrite <- (proj1 Hk)|].
    intros j t Hj. cbn in Hj. rewrite Hsigs, lookup_snoc_Some in Hj.
    unfold kept. cbn [push_signaling registry]. rewrite Hreg. destruct Hj as [[_ Hj]|[_ <-]].
    + destruct (proj2 Hk j t Hj) as [H1 H2]. split; intros Hn; [apply elem_of_app; left; auto|].
      destruct (H2 Hn) as [pc Hpc]. exists pc. apply elem_of_app. by left.
    + split; [|done]. intros _. apply elem_of_app. right. by left.
  - apply with_signaling_Some in Hstep as (s & s' & w1 & Hi & Hc & ->). by eapply complete_kept.
  - apply with_signaling_Some in Hstep as (s & s' & w1 & Hi & Hc & ->).
    destruct (at_await s) eqn:Ha; [|done]. injection Hc as <- <-. by apply drop_kept.
  - apply with_signaling_Some in Hstep as (s & s' & w1 & Hi & Hc & ->).
    destruct (at_await s) eqn:Ha; [|done]. injection Hc as <- <-. by apply drop_kept.
  - apply with_signaling_Some in Hstep as (s & s' & w1 & Hi & Hc & ->). by eapply build_kept.
  - destruct (signalings w !! i) as [s|]; [|done].
    assert (w' = on_connection_state_change runtime st s w) as -> by (destruct (build s); by simplify_eq).
    by destruct st.
Qed.

(** As long as the server does not drain and no peer was reported closed or failed, the peer of
    every call that was answered 200 is registered and open, and no other peer is registered. *)
Theorem webrtc_answered_registered es cfg w :
  run es (init cfg) = Some w → (len (signalings w) ≤ 2 ^ 64)%N → Forall undisturbed es →
  (∀ i s r, signalings w !! i = Some s → stage s = Gone (Some r) → status r = 200%N →
     ∃ pc, (slot_id s, Active pc) ∈ registry w ∧ pc ∉ closing w)
  ∧ (∀ id pc, (id, Active pc) ∈ registry w →
       ∃ i s r, signalings w !! i = Some s ∧ slot_id s = id ∧ stage s ∈ [AtDrop (Some r); Gone (Some r)] ∧ status r = 200%N).
Proof.
  intros Hrun Hlen Hq. pose proof (run_inv es _ _ (world_inv_init cfg) Hrun Hlen) as H.
  assert (all_kept w) as [_ Hk].
  { eapply (run_keeps all_kept undisturbed); [apply step_kept|apply (world_inv_init cfg)|exact Hq|done|exact Hrun|exact Hlen]. }
  split.
  - intros i s r Hi Hst Hr. assert (answered s = true) as Ha.
    { pose proof (inv_shape _ H _ _ Hi) as Hshape. unfold shape in Hshape. unfold answered. rewrite Hst in *.
      destruct (armed s); rewrite Hr in *; done. }
    destruct (proj2 (Hk i s Hi) Ha) as [pc Hpc]. exists pc. split; [done|].
    apply (inv_open _ H), elem_of_actives. eauto.
  - intros id pc (i & s & Hi & Hid & Hok)%(inv_entry _ H). cbn in Hok. unfold answered in Hok.
    destruct (stage s) as [| | | | | | | | | | | |[r|]| |[r|]] eqn:Hst; try done;
      apply andb_prop in Hok as [_ Hr]; apply N.eqb_eq in Hr; exists i, s, r; rewrite Hst; split_and!; set_solver.
Qed.

(** ** Every signalling ends *)

(** How many steps of its own a call, and a build task, can still take. *)
Definition stage_rank (s : Signaling) : nat :=
  match stage s with
  | AtParse _ => 17
  | AtBuild => 11
  | AtSetRemote => 10
  | AtCreateAnswer => 9
  | AtSetLocal => 8
  | AtGather => 7
  | AtLocalDesc => 6
  | AtActivate _ => 4
  | AtActivateSlot _ _ => 3
  | AtFinish _ => 5
  | AtClosing _ => 4
  | AtRelease _ => 3
  | AtDrop _ => 2
  | AtDropRelease _ _ => 1
  | Gone _ => 0
  end.
Definition build_rank (s : Signaling) : nat :=
  match build s with
  | BAwait => 4
  | BClosing => 3
  | BRelease _ => 2
  | BSend _ => 1
  | BNone | BDone => 0
  end.
Definition cost (s : Signaling) : nat := stage_rank s + build_rank s.
Definition MAX_STEPS : nat := 17.

Definition is_offer (e : Event) : bool := match e with Offer _ _ => true | _ => false end.
(** A step of a call or of its build task. *)
Definition is_progress (e : Event) : bool :=
  match e with Advance _ _ _ | Deadline _ | Cancel _ | Build _ _ _ => true | _ => false end.

Lemma complete_cost runtime a s w s' w1 : complete_signaling runtime a s w = Some (s', w1) → cost s' < cost s.
Proof.
  intros H. destruct s as [id st ar sg bu se]. unfold complete_signaling in H. cbn in H.
  unfold cost, stage_rank, build_rank.
  destruct sg; try discriminate H; repeat case_first_in H; simplify_eq H; intros; subst; cbn; lia.
Qed.

Lemma build_cost runtime b s w s' w1 : run_build runtime b s w = Some (s', w1) → cost s' < cost s.
Proof.
  intros H. destruct s as [id st ar sg bu se]. unfold run_build, build_over in H. cbn in H.
  unfold cost, stage_rank, build_rank.
  destruct bu; try discriminate H; repeat case_first_in H; simplify_eq H; intros; subst; cbn; lia.
Qed.

Lemma drop_cost r s : at_await s = true → cost (set_stage (AtDrop r) s) < cost s.
Proof. unfold at_await, cost, stage_rank, build_rank. cbn. destruct (stage s); cbn; done || lia. Qed.

Definition total (w : World) : nat := sum_list (cost <$> signalings w).

Lemma sum_insert (l : list Signaling) i s s' :
  l !! i = Some s → sum_list (cost <$> <[i := s']> l) + cost s = sum_list (cost <$> l) + cost s'.
Proof.
  revert i. induction l as [|t l IH]; intros [|i]; cbn -[cost]; try done; [intros [= ->]; lia|].
  intros H. specialize (IH i H). cbn -[cost] in IH. rewrite <- !Nat.add_assoc. f_equal. exact IH.
Qed.

Lemma step_total e w w' :
  step e w = Some w' → (if is_progress e then 1 else 0) + total w' ≤ total w + (if is_offer e then MAX_STEPS else 0).
Proof.
  intros H%step_sigs. unfold total. destruct e as [head body|i rt a|i|i|i rt b|i rt st| |]; cbn [is_progress is_offer].
  - destruct H as [->|[id ->]]; [lia|]. rewrite fmap_app.
    assert (∀ l1 l2, sum_list (l1 ++ l2) = sum_list l1 + sum_list l2) as Happ.
    { intros l1 l2. induction l1; cbn; lia. }
    rewrite Happ. cbn. unfold MAX_STEPS. lia.
  - destruct H as (s & s' & w1 & Hi & Hc%complete_cost & ->). pose proof (sum_insert _ _ _ s' Hi). lia.
  - destruct H as (s & r & Hi & Hc%(drop_cost r) & ->). pose proof (sum_insert _ _ _ (set_stage (AtDrop r) s) Hi). lia.
  - destruct H as (s & r & Hi & Hc%(drop_cost r) & ->). pose proof (sum_insert _ _ _ (set_stage (AtDrop r) s) Hi). lia.
  - destruct H as (s & s' & w1 & Hi & Hc%build_cost & ->). pose proof (sum_insert _ _ _ s' Hi). lia.
  - rewrite H. lia.
  - rewrite H. lia.
  - rewrite H. lia.
Qed.

Definition count_events (f : Event → bool) (es : list Event) : nat := length (List.filter f es).

Lemma run_total es w w' :
  run es w = Some w' → count_events is_progress es + total w' ≤ total w + MAX_STEPS * count_events is_offer es.
Proof.
  revert w. induction es as [|e es IH]; intros w; cbn [run]; [intros [= ->]; cbn; lia|].
  destruct (step e w) as [w1|] eqn:Hs; [|done]. intros Hrun%IH. apply step_total in Hs.
  unfold count_events in *. cbn [List.filter]. destruct (is_progress e), (is_offer e); cbn [length]; lia.
Qed.

Lemma complete_enabled rt a s w :
  shape s = true → build_idle s = true →
  match stage s with Gone _ => true | _ => false end = true ∨ ∃ r, complete_signaling rt a s w = Some r.
Proof.
  intros Hshape Hb. destruct s as [id st ar sg bu se]. unfold complete_signaling, build_idle in *. cbn in *.
  destruct sg; try (by left); right; try (repeat case_first; by eauto).
  destruct ar; sig_fields Hshape; try discriminate Hb; repeat case_first; by eauto.
Qed.

(** C37: every offer causes at most [MAX_STEPS] steps of its call and its build task, however they are
    interleaved; as long as a call or its build task is not over, one of the two can take a step,
    whatever the webrtc crate answers; and a call whose deadline elapses answers 504 after at most two
    steps more, wherever it was. *)
Theorem webrtc_signaling_ends es cfg w :
  run es (init cfg) = Some w → (len (signalings w) ≤ 2 ^ 64)%N →
  count_events is_progress es ≤ MAX_STEPS * count_events is_offer es
  ∧ ∀ i s, signalings w !! i = Some s →
      (over s = false →
         (∀ rt a, is_Some (step (Advance i rt a) w)) ∨ (∀ rt b, is_Some (step (Build i rt b) w)))
      ∧ (at_await s = true →
         ∀ rt a, ∃ n w' s', n ≤ 2 ∧ run (Deadline i :: replicate n (Advance i rt a)) w = Some w'
           ∧ signalings w' !! i = Some s' ∧ stage s' = Gone (Some (error_response 504 (lit "signaling_timeout")))).
Proof.
  intros Hrun Hlen. pose proof (run_inv es _ _ (world_inv_init cfg) Hrun Hlen) as H. split.
  { apply run_total in Hrun. change (total (init cfg)) with 0 in Hrun. lia. }
  intros i s Hi. pose proof (inv_shape _ H _ _ Hi) as Hshape. pose proof (lookup_lt_Some _ _ _ Hi) as Hlt. split.
  - intros Hover. unfold over, build_idle in Hover.
    destruct (match build s with BNone | BDone => true | _ => false end) eqn:Hb.
    + left. intros rt a. cbn [step]. unfold with_signaling. rewrite Hi.
      assert (build_idle s = true) as Hidle by exact Hb.
      destruct (complete_enabled rt a s w Hshape Hidle) as [Hg|[[s' w1] ->]]; [|by eauto].
      destruct (stage s); done.
    + right. intros rt b. cbn [step]. unfold with_signaling. rewrite Hi. unfold run_build.
      destruct (build s), b; try done; destruct (state s); eauto.
  - intros Ha rt a. cbn [run step]. unfold with_signaling at 1. rewrite Hi, Ha.
    set (w1 := set_signaling _ _ w). set (s1 := within_signaling_deadline s) in *.
    assert (signalings w1 !! i = Some s1) as Hi1 by (by apply list_lookup_insert_eq).
    destruct (complete_signaling rt a s1 w1) as [[s2 w2]|] eqn:H1.
    2: { exfalso. unfold complete_signaling in H1. cbn in H1. repeat case_first_in H1; done. }
    pose proof (complete_sigs _ _ _ _ _ _ H1) as Hsigs2.
    assert (step (Advance i rt a) w1 = Some (set_signaling i s2 w2)) as Hst1.
    { cbn [step]. unfold with_signaling. by rewrite Hi1, H1. }
    assert (signalings (set_signaling i s2 w2) !! i = Some s2) as Hi2.
    { cbn. rewrite Hsigs2. apply list_lookup_insert_eq. by apply lookup_lt_Some in Hi1. }
    assert (stage s2 = Gone (Some (error_response 504 (lit "signaling_timeout")))
            ∨ ∃ pc, stage s2 = AtDropRelease pc (Some (error_response 504 (lit "signaling_timeout")))) as [Hg|[pc Hg]].
    { unfold complete_signaling in H1. cbn in H1. repeat case_first_in H1; simplify_eq H1; intros; subst; cbn; eauto. }
    + exists 1, (set_signaling i s2 w2), s2. cbn [replicate run]. rewrite Hst1. split_and!; [lia|done..].
    + destruct (complete_signaling rt a s2 (set_signaling i s2 w2)) as [[s3 w3]|] eqn:H2.
      2: { exfalso. unfold complete_signaling in H2. rewrite Hg in H2. done. }
      exists 2, (set_signaling i s3 w3), s3. cbn [replicate run]. rewrite Hst1. cbn [step]. unfold with_signaling.
      rewrite Hi2, H2. pose proof (complete_sigs _ _ _ _ _ _ H2) as Hsigs3. split_and!; [lia|done| |].
      * cbn. rewrite Hsigs3. apply list_lookup_insert_eq. by apply lookup_lt_Some in Hi2.
      * unfold complete_signaling in H2. rewrite Hg in H2. by injection H2 as <- _.
Qed.

End spec.

(** ** Data channels *)

Definition is_holding (st : AcquireStage) : bool := match st with AHolding => true | _ => false end.
Definition holding (self : DataChannelLimiter) : N := len (List.filter is_holding (acquires self)).

Record limiter_ok (max : N) (self : DataChannelLimiter) : Prop := {
  lim_max : max_channels self = max;
  lim_open : open_channels self = holding self;
  lim_bound : max ≠ 0%N → (open_channels self ≤ max)%N;
  lim_usize : (open_channels self ≤ USIZE_MAX)%N;
}.

Definition one_if (b : bool) : N := if b then 1 else 0.

Lemma holding_insert (l : list AcquireStage) i a b :
  l !! i = Some a →
  (len (List.filter is_holding (<[i := b]> l)) + one_if (is_holding a)
   = len (List.filter is_holding l) + one_if (is_holding b))%N.
Proof.
  unfold len. revert i. induction l as [|c l IH]; intros [|i]; cbn; try done.
  - intros [= ->]. destruct a, b; cbn; lia.
  - intros H. specialize (IH i H). destruct c; cbn [is_holding length]; try exact IH.
    rewrite !Nat2N.inj_succ, !N.add_succ_l. f_equal. exact IH.
Qed.

Lemma limiter_set max i a b n self :
  limiter_ok max self → acquires self !! i = Some a →
  (n + one_if (is_holding a) = open_channels self + one_if (is_holding b))%N →
  (max ≠ 0%N → (n ≤ max)%N) → (n ≤ USIZE_MAX)%N →
  limiter_ok max (set_acquire i b (set_open n self)).
Proof.
  intros H Hi Hn Hmax Husize. pose proof (holding_insert _ _ _ b Hi) as Hh. pose proof (lim_open _ _ H) as Ho.
  unfold holding in Ho. split; cbn; [apply H| |done|done]. unfold holding. cbn. lia.
Qed.

Lemma set_open_same self : set_open (open_channels self) self = self.
Proof. by destruct self. Qed.

Lemma channel_step_ok max e self self' : limiter_ok max self → channel_step e self = Some self' → limiter_ok max self'.
Proof.
  intros H Hstep. pose proof (lim_usize _ _ H) as Hu. pose proof (lim_bound _ _ H) as Hb. pose proof (lim_open _ _ H) as Ho.
  assert (∀ i a b, acquires self !! i = Some a → is_holding a = is_holding b → limiter_ok max (set_acquire i b self)) as Hsame.
  { intros i a b Hi Heq. rewrite <- (set_open_same self). eapply limiter_set; [done|exact Hi| |done|done]. by rewrite Heq. }
  destruct e as [|i spurious|i]; cbn in Hstep.
  - injection Hstep as <-. split; cbn; try apply H. unfold holding, len in *. cbn.
    rewrite List.filter_app, length_app. cbn. lia.
  - destruct (acquires self !! i) as [[|current| | |]|] eqn:Hi; try done; injection Hstep as <-.
    + by eapply Hsame.
    + unfold try_acquire. rewrite (lim_max _ _ H). case_first; [by eapply Hsame|]. case_first; [by eapply Hsame|].
      case_first; [|by eapply Hsame]. apply andb_false_iff in Heqb. bool_to_prop. subst current.
      eapply limiter_set; [done|exact Hi|cbn; lia| |lia]. intros Hne. destruct Heqb as [Hz|Hlt]; bool_to_prop; [done|lia].
  - destruct (acquires self !! i) as [[| | | |]|] eqn:Hi; try done; injection Hstep as <-. unfold drop_permit.
    assert (1 ≤ open_channels self)%N as H1.
    { rewrite Ho. pose proof (holding_insert _ _ _ AReleased Hi) as Hh. cbn in Hh. unfold holding. lia. }
    assert ((open_channels self + USIZE_MAX) mod 2 ^ 64 = open_channels self - 1)%N as ->.
    { unfold USIZE_MAX, u64_max in *. change (2 ^ 64)%N with 18446744073709551616%N in *.
      replace (open_channels self + (18446744073709551616 - 1))%N
        with (open_channels self - 1 + 1 * 18446744073709551616)%N by lia.
      rewrite N.Div0.mod_add. apply N.mod_small. lia. }
    eapply limiter_set; [done|exact Hi|cbn; lia|lia|lia].
Qed.

(** However the tasks of a connection interleave, with spurious failures of the exchange, the
    counter is the number of permits that are held and never passes [max] (unless [max] is 0, which is
    no limit) nor wraps; and an exchange that meets no interference grants exactly if there is room. *)
Theorem data_channels_bounded max es self :
  channel_run es (DataChannelLimiter_new max) = Some self →
  open_channels self = holding self
  ∧ (max ≠ 0 → open_channels self ≤ max)%N ∧ (open_channels self ≤ USIZE_MAX)%N
  ∧ ∀ i self', acquires self !! i = Some (ALoop (open_channels self)) →
      channel_step (AcquireStep i false) self = Some self' →
      (acquires self' !! i = Some AHolding ↔ (max = 0 ∨ open_channels self < max)%N ∧ (open_channels self < USIZE_MAX)%N).
Proof.
  intros Hrun. assert (limiter_ok max self) as H.
  { assert (limiter_ok max (DataChannelLimiter_new max)) as H0 by (split; cbn; try done; lia).
    revert H0 Hrun. generalize (DataChannelLimiter_new max). induction es as [|e es IH]; intros l H0; cbn; [by intros [= <-]|].
    destruct (channel_step e l) as [l1|] eqn:Hs; [|done]. apply IH. by eapply channel_step_ok. }
  split_and!; [apply H..|]. intros i self' Hi Hstep. cbn in Hstep. rewrite Hi in Hstep. injection Hstep as <-.
  pose proof (lookup_lt_Some _ _ _ Hi) as Hlt. unfold try_acquire. rewrite (lim_max _ _ H), N.eqb_refl.
  destruct (max =? 0)%N eqn:Hz, (max <=? open_channels self)%N eqn:Hm, (USIZE_MAX <=? open_channels self)%N eqn:Hu;
    cbn; rewrite list_lookup_insert_eq by done; bool_to_prop; split; intros Hx; try done; lia.
Qed.

(** What is sent back is what came before the close, in order. *)
Lemma echo_loop_messages pre post :
  Forall (λ e, e ≠ OnClose) pre →
  echo_loop (pre ++ OnClose :: post) = omap (λ e, match e with OnMessage d => Some d | _ => None end) pre.
Proof.
  induction 1 as [|e pre He _ IH]; cbn; [done|]. destruct e; cbn; rewrite ?IH; done.
Qed.

(** ** A run

    One offer is answered; a second one is cancelled while its connection is being built. *)

#[local] Instance demo_types : AnyTypes := {| TypeId := unit; Any := λ _, unit |}.
#[local] Existing Instance naive_memmem.
#[local] Instance demo_crate : WebRtcCrate :=
  {| Desc := bytes; desc_from_slice b := if bool_decide (b = []) then None else Some b; desc_to_vec := Some |}.

Definition demo_head : RequestHead :=
  let k := lit "Content-Length" in
  {| buf := lit "POST" ++ OFFER_PATH ++ k ++ lit "5"; method_r := Range 0 4; target_r := Range 4 14; version := Http11;
     headers_r := [(Range 14 28, Range 28 29)]; extensions := ext_new |}.

Definition demo_events : list Event :=
  [Offer demo_head (lit "offer"); Advance 0 true AOk; Build 0 true BOk; Build 0 true BOk; Advance 0 true AOk;
   Advance 0 true AOk; Advance 0 true AOk; Advance 0 true AOk; Advance 0 true AOk; Advance 0 true (ADesc (Some (lit "answer")));
   Offer demo_head (lit "offer"); Advance 1 true AOk; Cancel 1; Advance 1 true AOk;
   Advance 0 true AOk; Advance 0 true AOk; Advance 0 true AOk;
   Build 1 true BOk; Build 1 true BOk; Build 1 true BOk].
Definition demo_world : World := default (init WebRtcConfig_default) (run demo_events (init WebRtcConfig_default)).

Lemma demo_run : run demo_events (init WebRtcConfig_default) = Some demo_world.
Proof. vm_compute. reflexivity. Qed.
Lemma demo_len : (len (signalings demo_world) ≤ 2 ^ 64)%N.
Proof. vm_compute. discriminate. Qed.
Lemma all_over_b w : forallb over (signalings w) = true → all_over w.
Proof. rewrite forallb_forall. intros H. apply Forall_forall. intros s Hs%list_elem_of_In. auto. Qed.
Lemma demo_over : all_over demo_world.
Proof. apply all_over_b. vm_compute. reflexivity. Qed.
Lemma demo_in_runtime : Forall in_runtime demo_events.
Proof. repeat constructor. Qed.

Example demo_end :
  registry demo_world = [(0%N, Active 0)] ∧ closing demo_world = [1]
  ∧ (stage <$> signalings demo_world) = [Gone (Some (answer_response (lit "answer"))); Gone None].
Proof. repeat split; vm_compute; reflexivity. Qed.

Lemma webrtc_registry_witness :
  (len (registry demo_world) ≤ 64)%N ∧ (0%N, Active 0) ∈ registry demo_world ∧ 0 ∉ closing demo_world.
Proof.
  pose proof (webrtc_registry demo_events WebRtcConfig_default demo_world demo_run demo_len) as (H1 & _ & _ & H2).
  assert ((0%N, Active 0) ∈ registry demo_world) as Hin by (vm_compute; left).
  split; [exact H1|]. split; [exact Hin|exact (proj1 (H2 _ _ Hin))].
Defined.

Lemma webrtc_no_leak_witness :
  next_pc demo_world = 2 ∧ ∀ pc, pc < 2 → pc ∈ actives demo_world ∨ pc ∈ closing demo_world.
Proof.
  split; [vm_compute; reflexivity|].
  exact (proj2 (webrtc_no_leak demo_events WebRtcConfig_default demo_world demo_run demo_len demo_in_runtime demo_over)).
Defined.

(** The same run, with a drain that starts before the second offer and ends at the end. *)
Definition demo_drained : World :=
  default (init WebRtcConfig_default)
    (run (take 10 demo_events ++ BeginDrain :: drop 10 demo_events ++ ClosePeers :: []) (init WebRtcConfig_default)).

Lemma webrtc_drain_final_witness :
  actives demo_drained = [] ∧ registry demo_drained = [] ∧ ∀ pc, pc < next_pc demo_drained → pc ∈ closing demo_drained.
Proof.
  destruct (webrtc_drain_final (take 10 demo_events) (drop 10 demo_events) [] WebRtcConfig_default demo_drained) as [H1 H2].
  - vm_compute. reflexivity.
  - split; [exact H1|]. apply H2.
    + vm_compute. discriminate.
    + repeat constructor.
    + apply all_over_b. vm_compute. reflexivity.
Defined.

Definition demo_answered : Signaling :=
  {| slot_id := 0; state := Empty; armed := false; stage := Gone (Some (answer_response (lit "answer"))); build := BDone;
     sent := Some (Ok tt) |}.

Lemma webrtc_answered_registered_witness :
  ∃ pc, (0%N, Active pc) ∈ registry demo_world ∧ pc ∉ closing demo_world.
Proof.
  assert (Forall undisturbed demo_events) as Hq by (repeat constructor).
  pose proof (proj1 (webrtc_answered_registered demo_events WebRtcConfig_default demo_world demo_run demo_len Hq)) as H.
  assert (signalings demo_world !! 0 = Some demo_answered) as H0 by (vm_compute; reflexivity).
  exact (H 0 demo_answered (answer_response (lit "answer")) H0 eq_refl eq_refl).
Defined.

Lemma webrtc_signaling_ends_witness :
  count_events is_progress demo_events ≤ 34.
Proof. exact (proj1 (webrtc_signaling_ends demo_events WebRtcConfig_default demo_world demo_run demo_len)). Defined.

Definition demo_channels : list ChannelEvent :=
  [OnDataChannel; OnDataChannel; AcquireStep 0 false; AcquireStep 1 false; AcquireStep 0 false; AcquireStep 1 false;
   AcquireStep 1 false; EchoEnds 0].

Definition demo_limiter : DataChannelLimiter :=
  default (DataChannelLimiter_new 1) (channel_run demo_channels (DataChannelLimiter_new 1)).
Lemma demo_channel_run : channel_run demo_channels (DataChannelLimiter_new 1) = Some demo_limiter.
Proof. vm_compute. reflexivity. Qed.

Lemma data_channels_bounded_witness :
  acquires demo_limiter = [AReleased; ARefused] ∧ open_channels demo_limiter = holding demo_limiter.
Proof.
  split; [vm_compute; reflexivity|].
  exact (proj1 (data_channels_bounded 1 demo_channels demo_limiter demo_channel_run)).
Defined.
