(* ===== verification/RtcProxy.v ===== *)
(** * [plugin-webrtc-proxy]: the signalling proxy

    [config.rs], [error.rs], [client.rs] (a minimal HTTP/1.1 client that posts an offer to the
    configured upstream and reads its answer) and [handler.rs].  What the connection answers is a
    list of results of [read]; a list that ends is an upstream that sends nothing more, and then the
    timeout strikes.  The theorems say which responses of the upstream are passed on. *)

From S2P Require Import Prelude Text Utf8 Radix Extensions Request ServerConfig.

#[local] Open Scope N_scope.

(** ** [config.rs] *)

Record ProxyConfig := {
  upstream_addr : bytes;
  upstream_path : bytes;
  connect_timeout : Duration;
  request_timeout : Duration;
  px_max_offer_bytes : N;
  max_answer_bytes : N;
}.

Definition DEFAULT_UPSTREAM_PATH : bytes := lit "/rtc/offer".
Definition DEFAULT_CONNECT_TIMEOUT : Duration := from_secs 3.
Definition DEFAULT_REQUEST_TIMEOUT : Duration := from_secs 5.
Definition DEFAULT_MAX_PAYLOAD_BYTES : N := 64 * 1024.

Definition ProxyConfig_default : ProxyConfig :=
  {| upstream_addr := []; upstream_path := DEFAULT_UPSTREAM_PATH; connect_timeout := DEFAULT_CONNECT_TIMEOUT;
     request_timeout := DEFAULT_REQUEST_TIMEOUT; px_max_offer_bytes := DEFAULT_MAX_PAYLOAD_BYTES;
     max_answer_bytes := DEFAULT_MAX_PAYLOAD_BYTES |}.
Definition ProxyConfig_new (addr : bytes) : ProxyConfig :=
  {| upstream_addr := addr; upstream_path := upstream_path ProxyConfig_default;
     connect_timeout := connect_timeout ProxyConfig_default; request_timeout := request_timeout ProxyConfig_default;
     px_max_offer_bytes := px_max_offer_bytes ProxyConfig_default; max_answer_bytes := max_answer_bytes ProxyConfig_default |}.
Definition with_upstream_path (v : bytes) (self : ProxyConfig) : ProxyConfig :=
  {| upstream_addr := upstream_addr self; upstream_path := v; connect_timeout := connect_timeout self;
     request_timeout := request_timeout self; px_max_offer_bytes := px_max_offer_bytes self;
     max_answer_bytes := max_answer_bytes self |}.
Definition with_connect_timeout (v : Duration) (self : ProxyConfig) : ProxyConfig :=
  {| upstream_addr := upstream_addr self; upstream_path := upstream_path self; connect_timeout := v;
     request_timeout := request_timeout self; px_max_offer_bytes := px_max_offer_bytes self;
     max_answer_bytes := max_answer_bytes self |}.
Definition with_request_timeout (v : Duration) (self : ProxyConfig) : ProxyConfig :=
  {| upstream_addr := upstream_addr self; upstream_path := upstream_path self; connect_timeout := connect_timeout self;
     request_timeout := v; px_max_offer_bytes := px_max_offer_bytes self; max_answer_bytes := max_answer_bytes self |}.
Definition px_with_max_offer_bytes (v : N) (self : ProxyConfig) : ProxyConfig :=
  {| upstream_addr := upstream_addr self; upstream_path := upstream_path self; connect_timeout := connect_timeout self;
     request_timeout := request_timeout self; px_max_offer_bytes := v; max_answer_bytes := max_answer_bytes self |}.
Definition with_max_answer_bytes (v : N) (self : ProxyConfig) : ProxyConfig :=
  {| upstream_addr := upstream_addr self; upstream_path := upstream_path self; connect_timeout := connect_timeout self;
     request_timeout := request_timeout self; px_max_offer_bytes := px_max_offer_bytes self; max_answer_bytes := v |}.

(** ** [error.rs] *)

Inductive ProxyError := UpstreamConnect | UpstreamTimeout | UpstreamProtocol | UpstreamStatus | AnswerTooLarge | Io.
#[export] Instance ProxyError_eq_dec : EqDecision ProxyError.
Proof. solve_decision. Defined.

(** ** [client.rs] *)

Definition READ_CHUNK_BYTES : N := 4 * 1024.
Definition RESPONSE_HEAD_LIMIT : N := 8 * 1024.

(** What [write_request] sends: fixed fields only. *)
Definition write_request (config : ProxyConfig) (body : bytes) : bytes :=
  lit "POST " ++ upstream_path config ++ lit " HTTP/1.1" ++ CRLF
  ++ lit "Host: " ++ upstream_addr config ++ CRLF
  ++ lit "Content-Type: application/sdp" ++ CRLF
  ++ lit "Content-Length: " ++ to_decimal (len body) ++ CRLF
  ++ lit "Connection: close" ++ CRLF ++ CRLF ++ body.

Definition find_subslice (haystack needle : bytes) : option nat :=
  if bool_decide (needle = []) || (length haystack <? length needle)%nat then None
  else find_sub needle haystack.

(** [splitn(3, ' ')]: the first piece and the second one, if there is one. *)
Definition first_two (line : bytes) : bytes * option bytes :=
  match split_once x20 line with
  | None => (line, None)
  | Some (version, rest) =>
      (version, Some (match split_once x20 rest with Some (st, _) => st | None => rest end))
  end.

(** The loop over the fields. *)
Fixpoint head_fields (lines : list bytes) (content_length : option N) : result (option N) ProxyError :=
  match lines with
  | [] => Ok content_length
  | line :: lines =>
      if bool_decide (line = []) then head_fields lines content_length
      else
        let? (name, value) := ok_or (split_once x3a line) UpstreamProtocol in
        if eq_ignore_ascii_case (trim name) (lit "content-length") then
          match content_length with
          | Some _ => Err UpstreamProtocol
          | None =>
              let? parsed := ok_or (parse_uint u64_max (trim value)) UpstreamProtocol in
              head_fields lines (Some parsed)
          end
        else head_fields lines content_length
  end.

Definition parse_response_head (head : bytes) : result (N * N) ProxyError :=
  if negb (utf8_valid head) then Err UpstreamProtocol
  else
    match split_str CRLF head with
    | [] => Err UpstreamProtocol
    | status_line :: lines =>
        let '(version, second) := first_two status_line in
        if negb (starts_with (lit "HTTP/1.") version) then Err UpstreamProtocol
        else
          let? st := ok_or second UpstreamProtocol in
          let? status := ok_or (parse_uint u16_max st) UpstreamProtocol in
          let? found := head_fields lines None in
          let? content_length := ok_or found UpstreamProtocol in
          Ok (status, content_length)
    end.

(** A result of [stream.read]; no bytes are the end of the stream. *)
Inductive Read := RData (chunk : bytes) | RError.

(** The loop that looks for the end of the head, from what was read: the index after the terminator,
    the bytes, and the reads that are left.  [None]: it waits for a read that never completes. *)
Fixpoint read_head_loop (buf : bytes) (reads : list Read) : option (result (nat * bytes * list Read) ProxyError) :=
  match find_subslice buf (CRLF ++ CRLF) with
  | Some pos => Some (Ok ((pos + 4)%nat, buf, reads))
  | None =>
      if RESPONSE_HEAD_LIMIT <=? len buf then Some (Err UpstreamProtocol)
      else
        match reads with
        | [] => None
        | RError :: _ => Some (Err Io)
        | RData [] :: _ => Some (Err UpstreamProtocol)
        | RData chunk :: reads => read_head_loop (buf ++ chunk) reads
        end
  end.

(** The loop that completes the body. *)
Fixpoint read_rest_loop (content_length max_answer_bytes : N) (body : bytes) (reads : list Read) :
    option (result bytes ProxyError) :=
  if content_length <=? len body then Some (Ok (take (N.to_nat content_length) body))
  else if max_answer_bytes <=? len body then Some (Err AnswerTooLarge)
  else
    match reads with
    | [] => None
    | RError :: _ => Some (Err Io)
    | RData [] :: _ => Some (Err UpstreamProtocol)
    | RData chunk :: reads => read_rest_loop content_length max_answer_bytes (body ++ chunk) reads
    end.

Definition read_response_body (reads : list Read) (max_answer_bytes : N) : option (result bytes ProxyError) :=
  match read_head_loop [] reads with
  | None => None
  | Some (Err e) => Some (Err e)
  | Some (Ok (header_end, buf, reads)) =>
      match parse_response_head (take header_end buf) with
      | Err e => Some (Err e)
      | Ok (status, content_length) =>
          if negb ((200 <=? status) && (status <? 300)) then Some (Err UpstreamStatus)
          else if max_answer_bytes <? content_length then Some (Err AnswerTooLarge)
          else read_rest_loop content_length max_answer_bytes (drop header_end buf) reads
      end
  end.

(** The upstream: how [connect] and [write_all] end ([None]: not in time), and the reads. *)
Record Upstream := {
  connects : option (result unit unit);
  writes : option (result unit unit);
  reads : list Read;
}.

(** What was sent, and the result. *)
Definition forward_offer (config : ProxyConfig) (offer_body : bytes) (up : Upstream) :
    option bytes * result bytes ProxyError :=
  match connects up with
  | None => (None, Err UpstreamTimeout)
  | Some (Err _) => (None, Err UpstreamConnect)
  | Some (Ok _) =>
      (Some (write_request config offer_body),
       match writes up with
       | None => Err UpstreamTimeout
       | Some (Err _) => Err Io
       | Some (Ok _) =>
           match read_response_body (reads up) (max_answer_bytes config) with
           | None => Err UpstreamTimeout
           | Some r => r
           end
       end)
  end.

(** ** [handler.rs] *)

Definition PX_OFFER_PATH : bytes := lit "/rtc/offer".

Record ProxyResponse := { px_status : N; px_reason : bytes; px_content_type : bytes; px_body : bytes }.

Definition ProxyResponse_error (status : N) (reason : bytes) : ProxyResponse :=
  {| px_status := status; px_reason := reason; px_content_type := lit "text/plain; charset=utf-8"; px_body := reason |}.

Section handler.
Context {AT : AnyTypes} {MM : Memmem}.

Definition px_try_handle_rtc_offer (head : RequestHead) (body : bytes) (config : ProxyConfig) (up : Upstream) :
    option bytes * option ProxyResponse :=
  if negb (str_eqb (method head) (lit "POST")) || negb (str_eqb (target head) PX_OFFER_PATH) then (None, None)
  else
    match header head (lit "content-length") ≫= parse_uint u64_max with
    | None => (None, Some (ProxyResponse_error 400 (lit "Bad Request")))
    | Some declared_len =>
        if negb (declared_len =? len body) then (None, Some (ProxyResponse_error 400 (lit "Bad Request")))
        else if px_max_offer_bytes config <? len body
             then (None, Some (ProxyResponse_error 413 (lit "Payload Too Large")))
        else
          let '(sent, r) := forward_offer config body up in
          (sent,
           Some (match r with
                 | Ok answer => {| px_status := 200; px_reason := lit "OK"; px_content_type := lit "application/sdp";
                                   px_body := answer |}
                 | Err UpstreamTimeout => ProxyResponse_error 504 (lit "Gateway Timeout")
                 | Err _ => ProxyResponse_error 502 (lit "Bad Gateway")
                 end))
    end.
End handler.
