(* ===== verification/RtcProxySpec.v ===== *)
(** * [plugin-webrtc-proxy]: which answers are passed on

    The head of a response is read as a grammar says; an answer is exactly the body that the head of
    a successful response delimits, however the upstream cuts it into pieces; and nothing else of the
    upstream reaches the client. *)

From S2P Require Import Prelude Text Utf8 Radix Extensions Request ServerConfig RtcProxy.

Definition CRLF2 : bytes := CRLF ++ CRLF.

(** ** The head of a response *)

Definition has_colon (line : bytes) : Prop := line = [] ∨ x3a ∈ line.

(** The value of a content-length line. *)
Definition content_length_value (line : bytes) : option bytes :=
  match split_once x3a line with
  | Some (name, value) => if eq_ignore_ascii_case (trim name) (lit "content-length") then Some value else None
  | None => None
  end.

Definition status_line_ok (line : bytes) (st : N) : Prop :=
  ∃ version rest, line = version ++ [x20] ++ rest ∧ (x20 ∉ version) ∧ starts_with (lit "HTTP/1.") version = true
    ∧ parse_uint u16_max (match split_once x20 rest with Some (st, _) => st | None => rest end) = Some st.

Definition response_head_ok (head : bytes) (st cl : N) : Prop :=
  utf8_valid head = true
  ∧ ∃ status_line lines, split_str CRLF head = status_line :: lines ∧ status_line_ok status_line st
    ∧ Forall has_colon lines
    ∧ ∃ v, omap content_length_value lines = [v] ∧ parse_uint u64_max (trim v) = Some cl.

Lemma head_fields_Ok lines acc r :
  head_fields lines acc = Ok r ↔
  Forall has_colon lines ∧
  match acc with
  | Some c => omap content_length_value lines = [] ∧ r = Some c
  | None => (omap content_length_value lines = [] ∧ r = None)
            ∨ ∃ v c, omap content_length_value lines = [v] ∧ parse_uint u64_max (trim v) = Some c ∧ r = Some c
  end.
Proof.
  revert acc. induction lines as [|line lines IH]; intros acc; cbn [head_fields].
  { cbn. split.
    - intros [= <-]. split; [constructor|]. destruct acc; auto.
    - intros [_ H]. destruct acc; destruct_and?; destruct_or?; naive_solver. }
  rewrite Forall_cons. case_bool_decide as Hnil.
  { subst line. cbn. rewrite IH. unfold has_colon at 2. naive_solver. }
  change (omap content_length_value (line :: lines)) with
    (match content_length_value line with
     | Some v => v :: omap content_length_value lines
     | None => omap content_length_value lines
     end).
  unfold content_length_value at 1 4 7.
  destruct (split_once x3a line) as [[name value]|] eqn:Hs; cbn [ok_or rbind].
  - assert (has_colon line) as Hcol.
    { right. apply split_once_Some in Hs as (-> & _). apply elem_of_app. right. by left. }
    destruct (eq_ignore_ascii_case (trim name) (lit "content-length")) eqn:He; [|rewrite IH; tauto].
    destruct acc as [c|]; [split; [done|naive_solver]|].
    destruct (parse_uint u64_max (trim value)) as [c|] eqn:Hp; cbn [ok_or rbind].
    + rewrite IH. split.
      * intros (H1 & H2 & ->). split; [done|]. right. exists value, c. by rewrite H2.
      * intros ((_ & H1) & [[H2 _]|(v & c' & H2 & Hv & ->)]); [done|]. injection H2 as -> H2. split; [done|]. split; congruence.
    + split; [done|]. intros (_ & [[H2 _]|(v & c' & H2 & Hv & ->)]); [done|]. injection H2 as -> H2. congruence.
  - split; [done|]. intros ((H1 & _) & _). destruct H1 as [|H1]; [done|].
    apply split_once_None in Hs. apply contains_spec in H1. congruence.
Qed.

Lemma parse_response_head_spec head st cl :
  parse_response_head head = Ok (st, cl) ↔ response_head_ok head st cl.
Proof.
  unfold parse_response_head, response_head_ok. destruct (utf8_valid head); [cbn [negb]|naive_solver].
  destruct (split_str CRLF head) as [|status_line lines]; [naive_solver|].
  unfold first_two. destruct (split_once x20 status_line) as [[version rest]|] eqn:Hs.
  - pose proof Hs as Hs'. apply split_once_Some in Hs' as (Hline & Hno).
    split.
    + destruct (starts_with (lit "HTTP/1.") version) eqn:Hv; [cbn [negb]|done].
      intros (st' & [= <-]%ok_or_Ok & (status & Hst%ok_or_Ok & (found & Hf%head_fields_Ok &
        (cl' & Hcl%ok_or_Ok & [= -> ->])%rbind_Ok)%rbind_Ok)%rbind_Ok)%rbind_Ok.
      subst found. destruct Hf as [Hcol [[_ Hf]|(v & c & Hv1 & Hv2 & [= <-])]]; [done|].
      split; [done|]. exists status_line, lines. split_and!; [done| |done|by exists v].
      exists version, rest. split_and!; [exact Hline| |done|done].
      intros Hin. apply contains_spec in Hin. congruence.
    + intros (_ & sl & ls & [= <- <-] & (version' & rest' & Hl & Hn & Hv & Hst) & Hcol & v & Hv1 & Hv2).
      assert (split_once x20 status_line = Some (version', rest')) as Hs2.
      { apply split_once_Some. split; [exact Hl|]. destruct (contains x20 version') eqn:Hc; [|done].
        by apply contains_spec in Hc. }
      rewrite Hs in Hs2. injection Hs2 as -> ->. rewrite Hv. cbn [negb ok_or rbind]. rewrite Hst. cbn [ok_or rbind].
      assert (head_fields lines None = Ok (Some cl)) as -> by (apply head_fields_Ok; naive_solver). done.
  - split.
    + destruct (negb _); done.
    + intros (_ & sl & ls & [= <- <-] & (version' & rest' & Hl & _) & _). apply split_once_None in Hs.
      rewrite Hl, contains_app in Hs. apply orb_false_iff in Hs as [_ Hs]. by cbn in Hs.
Qed.

(** ** Reading the response *)

Lemma find_sub_prefix n s t i :
  find_sub n (s ++ t) = Some i → i + length n ≤ length s → find_sub n s = Some i.
Proof.
  intros H Hl. destruct (find_sub n s) as [j|] eqn:Hs.
  - by rewrite (find_sub_app _ _ t _ Hs) in H.
  - apply find_sub_Some in H as [(a & b & E & <-) _]. apply find_sub_None with (j := length a) in Hs. destruct Hs.
    assert (s = a ++ n ++ take (length s - length a - length n) b) as Heq; [|by exists a, (take (length s - length a - length n) b)].
    apply (f_equal (take (length s))) in E. rewrite take_app_length in E. rewrite E at 1.
    rewrite take_app_ge by lia. f_equal. rewrite take_app_ge by lia. done.
Qed.

Lemma find_subslice_eq s : find_subslice s CRLF2 = find_sub CRLF2 s.
Proof.
  unfold find_subslice. change (bool_decide (CRLF2 = [])) with false. cbn [orb].
  destruct (length s <? length CRLF2) eqn:Hl; [|done]. symmetry. apply find_sub_None. intros j Hj.
  apply occurs_at_length in Hj. bool_to_prop. lia.
Qed.

(** Pieces of a stream, as [read] gives them. *)
Definition pieces (chunks : list bytes) : list Read := RData <$> chunks.
Definition nonempty (chunks : list bytes) : Prop := Forall (λ c, c ≠ []) chunks.

Lemma read_head_sound reads buf e buf' rest :
  read_head_loop buf reads = Some (Ok (e, buf', rest)) →
  ∃ chunks, reads = pieces chunks ++ rest ∧ nonempty chunks ∧ buf' = buf ++ concat chunks
    ∧ ∃ pos, e = pos + 4 ∧ find_sub CRLF2 buf' = Some pos.
Proof.
  revert buf. induction reads as [|r reads IH]; intros buf; cbn [read_head_loop]; rewrite find_subslice_eq;
    destruct (find_sub CRLF2 buf) as [pos|] eqn:Hf.
  1, 3: intros [= <- <- <-]; exists []; split_and!; [done|by apply Forall_nil|cbn; by rewrite app_nil_r|by exists pos].
  - by destruct (_ <=? _)%N.
  - destruct (_ <=? _)%N; [done|]. destruct r as [[|c chunk]|]; [done| |done].
    intros (chunks & -> & Hne & -> & Hpos)%IH. exists ((c :: chunk) :: chunks). split_and!; try done.
    + by constructor.
    + by rewrite <- app_assoc.
Qed.

Lemma read_head_complete chunks rest buf s pos :
  nonempty chunks → buf ++ concat chunks = s → find_sub CRLF2 s = Some pos → (N.of_nat pos + 4 ≤ RESPONSE_HEAD_LIMIT)%N →
  ∃ buf' chunks', read_head_loop buf (pieces chunks ++ rest) = Some (Ok (pos + 4, buf', pieces chunks' ++ rest))
    ∧ nonempty chunks' ∧ buf' ++ concat chunks' = s ∧ pos + 4 ≤ length buf'.
Proof.
  intros Hne <- Hs Hlim. revert buf Hs. induction chunks as [|c chunks IH]; intros buf Hs.
  - cbn [concat] in *. rewrite app_nil_r in *. exists buf, []. pose proof Hs as Ho.
    apply find_sub_Some in Ho as [Ho%occurs_at_length _].
    destruct rest; cbn [pieces fmap list_fmap app read_head_loop concat]; rewrite find_subslice_eq, Hs;
      (split_and!; [done|by apply Forall_nil|by rewrite app_nil_r|done]).
  - cbn [pieces fmap list_fmap app read_head_loop]. rewrite find_subslice_eq.
    destruct (find_sub CRLF2 buf) as [p|] eqn:Hb.
    + pose proof (find_sub_app _ _ (concat (c :: chunks)) _ Hb) as Hb'. rewrite Hs in Hb'. injection Hb' as <-.
      exists buf, (c :: chunks). pose proof Hb as Ho. apply find_sub_Some in Ho as [Ho%occurs_at_length _]. done.
    + destruct (RESPONSE_HEAD_LIMIT <=? len buf)%N eqn:Hl.
      * bool_to_prop. apply find_sub_prefix in Hs; [congruence|]. change (length CRLF2) with 4. unfold len in Hl. lia.
      * apply Forall_cons in Hne as [Hc Hne]. destruct c as [|x c]; [done|].
        destruct (IH Hne (buf ++ (x :: c))) as (buf' & chunks' & H1 & H2 & H3 & H4).
        -- cbn [concat] in Hs. by rewrite <- app_assoc.
        -- exists buf', chunks'. split_and!; [exact H1|done| |done]. rewrite H3. cbn [concat]. by rewrite <- app_assoc.
Qed.

Lemma read_rest_sound reads cl max body a :
  read_rest_loop cl max body reads = Some (Ok a) →
  ∃ chunks rest, reads = pieces chunks ++ rest ∧ nonempty chunks ∧ (cl ≤ len (body ++ concat chunks))%N
    ∧ a = take (N.to_nat cl) (body ++ concat chunks).
Proof.
  revert body. induction reads as [|r reads IH]; intros body; cbn [read_rest_loop]; destruct (cl <=? len body)%N eqn:Hl.
  1, 3: intros [= <-]; exists []; eexists; cbn [concat]; bool_to_prop;
    split_and!; [done|by apply Forall_nil|by rewrite app_nil_r|by rewrite app_nil_r].
  - destruct (max <=? len body)%N; intros H; discriminate H.
  - destruct (max <=? len body)%N; [done|]. destruct r as [[|c chunk]|]; [done| |done].
    intros (chunks & rest & -> & Hne & Hcl & ->)%IH. exists ((c :: chunk) :: chunks), rest.
    rewrite <- app_assoc in *. split_and!; [done|by constructor|done|done].
Qed.

Lemma read_rest_complete chunks rest cl max body :
  nonempty chunks → (cl ≤ max)%N → (cl ≤ len (body ++ concat chunks))%N →
  read_rest_loop cl max body (pieces chunks ++ rest) = Some (Ok (take (N.to_nat cl) (body ++ concat chunks))).
Proof.
  intros Hne Hmax. revert body. induction chunks as [|c chunks IH]; intros body Hcl.
  - cbn in Hcl. cbn [concat]. rewrite app_nil_r in *. destruct rest; cbn [pieces fmap list_fmap app read_rest_loop];
      assert ((cl <=? len body)%N = true) as -> by (apply N.leb_le; lia); done.
  - cbn [pieces fmap list_fmap app read_rest_loop]. destruct (cl <=? len body)%N eqn:Hl.
    + bool_to_prop. rewrite take_app_le; [done|]. unfold len in Hl. lia.
    + bool_to_prop. assert ((max <=? len body)%N = false) as -> by (apply N.leb_gt; lia).
      apply Forall_cons in Hne as [Hc Hne]. destruct c as [|x c]; [done|]. fold (pieces chunks).
      cbn [concat] in *. rewrite app_assoc in *. by apply IH.
Qed.

(** ** The answer that a stream carries *)

(** The upstream sends [stream], in any pieces, and perhaps more. *)
Definition sends (reads : list Read) (stream : bytes) : Prop :=
  ∃ chunks rest, reads = pieces chunks ++ rest ∧ nonempty chunks ∧ concat chunks = stream.

(** [stream] is the head of a successful response, the answer that it delimits, and more. *)
Definition carries (max : N) (stream head answer : bytes) : Prop :=
  ∃ extra st, stream = head ++ answer ++ extra
    ∧ (∃ pos, find_sub CRLF2 stream = Some pos ∧ length head = pos + 4)
    ∧ response_head_ok head st (len answer) ∧ (200 ≤ st < 300)%N ∧ (len answer ≤ max)%N.

Lemma read_response_sound reads max answer :
  read_response_body reads max = Some (Ok answer) → ∃ stream head, sends reads stream ∧ carries max stream head answer.
Proof.
  unfold read_response_body. destruct (read_head_loop [] reads) as [[[[e buf] rest]|]|] eqn:Hh; try done.
  apply read_head_sound in Hh as (chunks & -> & Hne & -> & pos & -> & Hpos). cbn [app] in *.
  destruct (parse_response_head _) as [[st cl]|] eqn:Hp; [|done].
  destruct (negb ((200 <=? st) && (st <? 300))%N) eqn:Hst; [done|].
  destruct (max <? cl)%N eqn:Hmax; [done|].
  intros (chunks2 & rest2 & -> & Hne2 & Hcl & ->)%read_rest_sound.
  pose proof Hpos as Ho. apply find_sub_Some in Ho as [Ho%occurs_at_length _]. change (length CRLF2) with 4 in Ho.
  set (buf := concat chunks) in *. set (more := concat chunks2) in *.
  assert (length (take (pos + 4) buf) = pos + 4) as Hhl by (rewrite length_take; lia).
  set (body := drop (pos + 4) buf ++ more) in *.
  assert (len (take (N.to_nat cl) body) = cl) as Hal.
  { unfold len in *. rewrite length_take. lia. }
  exists (buf ++ more), (take (pos + 4) buf). split.
  - exists (chunks ++ chunks2), rest2. unfold pieces. rewrite fmap_app, <- app_assoc. split_and!; [done|by apply Forall_app|].
    by rewrite concat_app.
  - exists (drop (N.to_nat cl) body), st. rewrite Hal. bool_to_prop. split_and!; try done.
    + rewrite take_drop. unfold body. by rewrite app_assoc, take_drop.
    + exists pos. split; [by apply find_sub_app|done].
    + by apply parse_response_head_spec.
Qed.

Lemma read_response_complete reads max stream head answer :
  sends reads stream → carries max stream head answer → (len head ≤ RESPONSE_HEAD_LIMIT)%N →
  read_response_body reads max = Some (Ok answer).
Proof.
  intros (chunks & rest & -> & Hne & Hcat) (extra & st & Hstream & (pos & Hpos & Hhl) & Hp & Hst & Hmax) Hlim.
  unfold read_response_body.
  destruct (read_head_complete chunks rest [] stream pos Hne Hcat Hpos) as (buf & chunks' & Hh & Hne' & Hbuf & Hle).
  { unfold len in Hlim. lia. }
  rewrite Hh. assert (take (pos + 4) buf = head) as ->.
  { rewrite <- (take_app_le buf (concat chunks')) by lia. by rewrite Hbuf, Hstream, <- Hhl, take_app_length. }
  apply parse_response_head_spec in Hp. rewrite Hp.
  assert ((200 <=? st)%N && (st <? 300)%N = true) as -> by (apply andb_true_iff; rewrite N.leb_le, N.ltb_lt; lia).
  assert ((max <? len answer)%N = false) as -> by (apply N.ltb_ge; lia). cbn [negb].
  assert (drop (pos + 4) buf ++ concat chunks' = answer ++ extra) as Hbody.
  { rewrite <- (drop_app_le buf (concat chunks')) by lia. by rewrite Hbuf, Hstream, <- Hhl, drop_app_length. }
  rewrite read_rest_complete; [|done|done|].
  - rewrite Hbody. unfold len. by rewrite Nat2N.id, take_app_length.
  - rewrite Hbody. unfold len. rewrite length_app. lia.
Qed.

(** ** The handler *)

Section handler.
Context {AT : AnyTypes} {MM : Memmem}.

Definition for_proxy (head : RequestHead) : Prop := method head = lit "POST" ∧ target head = PX_OFFER_PATH.
Definition offer_accepted (head : RequestHead) (body : bytes) (config : ProxyConfig) : Prop :=
  (header head (lit "content-length") ≫= parse_uint u64_max) = Some (len body) ∧ (len body ≤ px_max_offer_bytes config)%N.

Definition answer_ok (answer : bytes) : ProxyResponse :=
  {| px_status := 200; px_reason := lit "OK"; px_content_type := lit "application/sdp"; px_body := answer |}.
Definition refusals : list ProxyResponse :=
  [ProxyResponse_error 400 (lit "Bad Request"); ProxyResponse_error 413 (lit "Payload Too Large");
   ProxyResponse_error 502 (lit "Bad Gateway"); ProxyResponse_error 504 (lit "Gateway Timeout")].

(** The handler as one case distinction. *)
Lemma px_handler head body config up :
  for_proxy head →
  (offer_accepted head body config ∧
   ∃ sent r, forward_offer config body up = (sent, r)
     ∧ px_try_handle_rtc_offer head body config up
       = (sent, Some (match r with
                      | Ok answer => answer_ok answer
                      | Err UpstreamTimeout => ProxyResponse_error 504 (lit "Gateway Timeout")
                      | Err _ => ProxyResponse_error 502 (lit "Bad Gateway")
                      end)))
  ∨ (¬ offer_accepted head body config ∧
     ∃ r, r ∈ refusals ∧ px_try_handle_rtc_offer head body config up = (None, Some r)).
Proof.
  intros [Hm Ht]. unfold px_try_handle_rtc_offer, offer_accepted. rewrite Hm, Ht, !str_eqb_refl. cbn [negb orb].
  destruct (header head (lit "content-length") ≫= parse_uint u64_max) as [n|].
  2: { right. split; [by intros [? _]|]. eexists. split; [|reflexivity]. left. }
  destruct (n =? len body)%N eqn:Hn; cbn [negb]; bool_to_prop.
  2: { right. split; [intros [[= ?] _]; done|]. eexists. split; [|reflexivity]. left. }
  destruct (px_max_offer_bytes config <? len body)%N eqn:Hmax; bool_to_prop.
  - right. split; [intros [_ ?]; lia|]. eexists. split; [|reflexivity]. right; left.
  - left. subst n. split; [done|]. destruct (forward_offer config body up) as [sent r]. exists sent, r. done.
Qed.

Lemma answer_ok_not_refused answer : answer_ok answer ∉ refusals.
Proof. intros H. assert (200%N ∈ px_status <$> refusals) as H2 by (by apply (list_elem_of_fmap_2 px_status) in H). vm_compute in H2. set_solver. Qed.

(** C39: the client gets 200 exactly for an accepted offer whose forwarding was answered by the head of
    a successful response and, in whatever pieces, its body: that body, no more and no less, and never
    longer than [max_answer_bytes].  Every other response is one of four fixed ones, so that nothing
    else of the upstream reaches the client; and what the upstream gets is the fixed request. *)
Theorem proxy_answer_exact head body config up :
  for_proxy head →
  (∀ sent r, px_try_handle_rtc_offer head body config up = (sent, Some r) →
     (r ∈ refusals ∨ ∃ answer stream rhead, r = answer_ok answer ∧ offer_accepted head body config
        ∧ connects up = Some (Ok tt) ∧ writes up = Some (Ok tt) ∧ sends (reads up) stream
        ∧ carries (max_answer_bytes config) stream rhead answer)
     ∧ (sent = None ∨ sent = Some (write_request config body) ∧ offer_accepted head body config))
  ∧ (∀ stream rhead answer,
       offer_accepted head body config → connects up = Some (Ok tt) → writes up = Some (Ok tt) → sends (reads up) stream →
       carries (max_answer_bytes config) stream rhead answer → (len rhead ≤ RESPONSE_HEAD_LIMIT)%N →
       px_try_handle_rtc_offer head body config up = (Some (write_request config body), Some (answer_ok answer))).
Proof.
  intros Hfor. destruct (px_handler head body config up Hfor) as [(Hacc & sent & r & Hfwd & Hpx)|(Hacc & r & Hr & Hpx)].
  2: { split; [|done]. intros sent r' H. rewrite Hpx in H. injection H as <- <-. auto. }
  rewrite Hpx. unfold forward_offer in Hfwd. split.
  - intros sent' r' [= <- <-]. destruct (connects up) as [[[]|]|] eqn:Hc.
    2, 3: injection Hfwd as <- <-; split; [left; vm_compute; set_solver|by left].
    injection Hfwd as <- Hr. split; [|right; done].
    destruct (writes up) as [[[]|]|] eqn:Hw.
    2, 3: subst r; left; vm_compute; set_solver.
    destruct (read_response_body (reads up) (max_answer_bytes config)) as [[answer|e]|] eqn:Hb; subst r.
    + right. apply read_response_sound in Hb as (stream & rhead & H1 & H2). by exists answer, stream, rhead.
    + left. destruct e; vm_compute; set_solver.
    + left. vm_compute; set_solver.
  - intros stream rhead answer _ Hc Hw Hsend Hcar Hlim. rewrite Hc, Hw in Hfwd.
    rewrite (read_response_complete _ _ _ _ _ Hsend Hcar Hlim) in Hfwd. by injection Hfwd as <- <-.
Qed.
End handler.

(** ** Examples *)

#[local] Instance px_demo_types : AnyTypes := {| TypeId := unit; Any := λ _, unit |}.
#[local] Existing Instance naive_memmem.

Definition px_demo_head : RequestHead :=
  let k := lit "Content-Length" in
  {| buf := lit "POST" ++ PX_OFFER_PATH ++ k ++ lit "5"; method_r := Range 0 4; target_r := Range 4 14; version := Http11;
     headers_r := [(Range 14 28, Range 28 29)]; extensions := ext_new |}.
Definition px_demo_answer_head : bytes :=
  lit "HTTP/1.1 201 Created" ++ CRLF ++ lit "content-LENGTH : 6 " ++ CRLF ++ CRLF.
Definition px_demo_upstream : Upstream :=
  {| connects := Some (Ok tt); writes := Some (Ok tt);
     reads := pieces [lit "HTTP/1.1 201 Cre"; drop 16 px_demo_answer_head ++ lit "ans"; lit "wer!"] |}.

Lemma proxy_answer_exact_witness :
  (px_try_handle_rtc_offer px_demo_head (lit "offer") (ProxyConfig_new (lit "rtc:1")) px_demo_upstream).2
  = Some (answer_ok (lit "answer")).
Proof.
  assert (for_proxy px_demo_head) as Hfor by (split; vm_compute; reflexivity).
  assert (offer_accepted px_demo_head (lit "offer") (ProxyConfig_new (lit "rtc:1"))) as Hacc.
  { split; vm_compute; [reflexivity|discriminate]. }
  destruct (proxy_answer_exact px_demo_head (lit "offer") (ProxyConfig_new (lit "rtc:1")) px_demo_upstream Hfor) as [_ H].
  rewrite (H (px_demo_answer_head ++ lit "answer!") px_demo_answer_head (lit "answer")); [reflexivity|exact Hacc|reflexivity|reflexivity|..].
  - exists [lit "HTTP/1.1 201 Cre"; drop 16 px_demo_answer_head ++ lit "ans"; lit "wer!"], [].
    split; [reflexivity|]. split; [repeat constructor; vm_compute; discriminate|vm_compute; reflexivity].
  - exists (lit "!"), 201%N. split; [reflexivity|]. split; [exists 41; split; vm_compute; reflexivity|].
    split; [apply parse_response_head_spec; vm_compute; reflexivity|]. split; [lia|vm_compute; discriminate].
  - vm_compute. discriminate.
Defined.

(** Whether a head that is longer than [RESPONSE_HEAD_LIMIT] is refused depends on its pieces. *)
Definition px_long_head : bytes :=
  lit "HTTP/1.1 200 OK" ++ CRLF ++ lit "Content-Length: 0" ++ CRLF ++ lit "X: " ++ replicate (N.to_nat 9000) x61 ++ CRLF ++ CRLF.
Example px_head_limit_by_pieces :
  read_response_body (pieces [take (N.to_nat 4096) px_long_head; take (N.to_nat 4000) (drop (N.to_nat 4096) px_long_head); drop (N.to_nat 8096) px_long_head]) 10
    = Some (Ok [])
  ∧ read_response_body (pieces [take (N.to_nat 4096) px_long_head; take (N.to_nat 4096) (drop (N.to_nat 4096) px_long_head); drop (N.to_nat 8192) px_long_head]) 10
    = Some (Err UpstreamProtocol).
Proof. split; vm_compute; reflexivity. Qed.
