(* ===== verification/Hub.v ===== *)
(** * [plugin-hub-wiring]: the tenant gate and the stores behind it

    [auth.rs] (a token of plugin-jwt with a tenant), [gate.rs] (the gate that admits requests of a
    tenant only), [consent.rs], [outbox.rs] and [audit.rs] (the stores in memory, whose operations are
    critical sections of one mutex, so that a history is a sequence of operations).  The theorems say
    whom the gate admits and that what an admitted handler reads is of its tenant. *)

From S2P Require Import Prelude Text Utf8 Radix Extensions Request Response Error Gate ServerConfig Jwt Dpop JwtAuth.

(** ** [auth.rs] *)

(** What serde makes of the claims that the policy does not know. *)
Record HubClaims := { hc_org_id : option bytes }.

Section hub.
Context {AT : AnyTypes} {JC : JwtCrates}.

Class HubExtra := { hub_claims : Extra → HubClaims }.
Context {HE : HubExtra}.

Inductive AuthError := AuthJwt (e : VerifyError) | MissingOrgId.

Record TenantClaims := { org_id : bytes; tc_claims : Claims }.

(** [Authenticator::authenticate] once the [JwtAuthenticator] has returned. *)
Definition authenticate (r : result Claims VerifyError) : result TenantClaims AuthError :=
  let? claims := map_err AuthJwt r in
  let trimmed := trim <$> hc_org_id (hub_claims (extra claims)) in
  let? org := ok_or (match trimmed with Some s => if bool_decide (s = []) then None else Some s | None => None end)
                MissingOrgId in
  Ok {| org_id := org; tc_claims := claims |}.

(** ** [gate.rs] *)

(** [TenantVerified], as a type of the extensions. *)
Class TenantVerifiedType := {
  tenant_verified : TypeId;
  TenantVerified_new : TenantClaims → Any tenant_verified;
  tv_tenant : Any tenant_verified → TenantClaims;
  tv_tenant_new : ∀ c, tv_tenant (TenantVerified_new c) = c;
}.
Context {TV : TenantVerifiedType}.

Definition UNAUTHORIZED_BODY : bytes := BODY_INVALID_TOKEN.
Definition FORBIDDEN_BODY : bytes :=
  [x7b] ++ QUOTE ++ lit "error" ++ QUOTE ++ lit ":" ++ QUOTE ++ lit "tenant_scope_required" ++ QUOTE ++ [x7d].

Definition reject_json (status : N) (body : bytes) : GateOutcome :=
  Reject (with_content_type (lit "application/json") (response_new status body)).

(** [TenantGate::check] once the authentication has returned. *)
Definition tenant_gate_outcome (cfg : AuthConfig) (head : RequestHead) (ext : RequestExtensions)
    (r : result Claims VerifyError) : GateOutcome * RequestExtensions :=
  match authenticate r with
  | Ok tenant =>
      match ext_insert tenant_verified (TenantVerified_new tenant) ext with
      | (e, Ok _) => (Allow, e)
      | (e, Err _) => (Reject (error_response 500 (lit "internal_error")), e)
      end
  | Err MissingOrgId => (reject_json 403 FORBIDDEN_BODY, ext)
  | Err (AuthJwt e) =>
      match dpop cfg with
      | Some _ => (Reject (unauthorized_response cfg head e), ext)
      | None => (reject_json 401 UNAUTHORIZED_BODY, ext)
      end
  end.

(** [TenantGate::check] by itself: the call of the authenticator and its outcome. *)
Definition tenant_gate_check (cfg : AuthConfig) (head : RequestHead) (ext : RequestExtensions) (now_unix : N) (w : World) :
    World * option (GateOutcome * RequestExtensions) :=
  let '(w, r) := authenticate_at cfg head now_unix w in
  (w, tenant_gate_outcome cfg head ext <$> r).

(** [TenantGate::verified]; [None] is [NotAdmitted]. *)
Definition tenant (head : RequestHead) : option TenantClaims := tv_tenant <$> ext_get tenant_verified (extensions head).

End hub.

(** ** [consent.rs] *)

Definition ConsentKey : Type := bytes * bytes * bytes.
Record InMemoryConsentStore := { grants : gmap ConsentKey bool }.
Definition InMemoryConsentStore_new : InMemoryConsentStore := {| grants := ∅ |}.

Definition grant (org service info_type : bytes) (self : InMemoryConsentStore) : InMemoryConsentStore :=
  {| grants := <[(org, service, info_type) := true]> (grants self) |}.
Definition revoke (org service info_type : bytes) (self : InMemoryConsentStore) : InMemoryConsentStore :=
  {| grants := <[(org, service, info_type) := false]> (grants self) |}.
Definition is_granted (org service info_type : bytes) (self : InMemoryConsentStore) : bool :=
  if bool_decide (org = []) then false
  else default false (grants self !! (org, service, info_type)).

(** ** [outbox.rs] *)

Record OutboxEvent := { ev_id : bytes; ev_org_id : bytes; ev_event_type : bytes; ev_payload : bytes }.
Record InMemoryOutboxStore := { outbox : list OutboxEvent }.
Definition InMemoryOutboxStore_new : InMemoryOutboxStore := {| outbox := [] |}.

Definition enqueue (event : OutboxEvent) (self : InMemoryOutboxStore) : InMemoryOutboxStore :=
  {| outbox := outbox self ++ [event] |}.
Definition list_for_org (org : option bytes) (self : InMemoryOutboxStore) : list OutboxEvent :=
  match (match org with Some id => if bool_decide (id = []) then None else Some id | None => None end) with
  | None => []
  | Some id => List.filter (λ e, str_eqb (ev_org_id e) id) (outbox self)
  end.

(** ** [audit.rs] *)

Inductive AuditCategory := CrossTenantAttemptCategory.
Record AuditContext := { ax_org_id : bytes; ax_method : bytes; ax_path : bytes; ax_source : bytes }.

Definition AuditContext_new (org method path source : bytes) : AuditContext :=
  {| ax_org_id := org; ax_method := method;
     ax_path := match split_once x3f path with Some (path, _) => path | None => path end; ax_source := source |}.

Record AuditEvent := { category : AuditCategory; occurred_at_unix : N; ae_context : AuditContext }.

Definition cross_tenant_attempt (ctx : AuditContext) (occurred_at_unix : N) : AuditEvent :=
  {| category := CrossTenantAttemptCategory; occurred_at_unix := occurred_at_unix; ae_context := ctx |}.

(** [MemoryAuditSink]: its events; [record] appends. *)
Definition record (event : AuditEvent) (sink : list AuditEvent) : list AuditEvent := sink ++ [event].

Inductive TenantLookupOutcome (T : Type) := Found (value : T) | NotFound | CrossTenantAttempt.
Arguments Found {T} value.
Arguments NotFound {T}.
Arguments CrossTenantAttempt {T}.

Definition resolve {T} (self : TenantLookupOutcome T) (sink : list AuditEvent) (ctx : AuditContext) (occurred_at_unix : N) :
    option T * list AuditEvent :=
  match self with
  | Found value => (Some value, sink)
  | NotFound => (None, sink)
  | CrossTenantAttempt => (None, record (cross_tenant_attempt ctx occurred_at_unix) sink)
  end.
