(* ===== verification/HubSpec.v ===== *)
(** * [plugin-hub-wiring]: who is admitted, and what a tenant sees

    The gate admits exactly authenticated requests of a tenant, and their handlers run under the tenant
    of their token; the stores show a tenant its own history only, in order, and the last decision on a consent counts. *)

From S2P Require Import Prelude Text Utf8 Radix Extensions Request Response Error Gate ServerConfig Jwt JwtSpec Dpop JwtAuth JwtAuthSpec Hub.

Section hub.
Context {AT : AnyTypes} {JC : JwtCrates} {HE : HubExtra} {TV : TenantVerifiedType}.

(** ** The gate *)

(** The tenant that claims name. *)
Definition tenant_of (c : Claims) (org : bytes) : Prop :=
  ∃ raw, hc_org_id (hub_claims (extra c)) = Some raw ∧ org = trim raw ∧ org ≠ [].

Lemma authenticate_Ok r t :
  authenticate r = Ok t ↔ r = Ok (tc_claims t) ∧ tenant_of (tc_claims t) (org_id t).
Proof.
  unfold authenticate, tenant_of. destruct r as [c|e]; cbn; [|naive_solver].
  destruct (hc_org_id (hub_claims (extra c))) as [raw|] eqn:Hraw; cbn.
  - case_bool_decide as Hnil; cbn; split.
    + done.
    + intros [[= <-] (raw' & Hr & -> & Hne)]. rewrite Hraw in Hr. by injection Hr as <-.
    + intros [= <-]. cbn. split; [done|]. by exists raw.
    + intros [[= ->] (raw' & Hr & Horg & Hne)]. rewrite Hraw in Hr. injection Hr as <-.
      destruct t as [org c]. cbn in *. by subst org.
  - split; [done|]. intros [[= <-] (raw' & Hr & _)]. congruence.
Qed.

Lemma authenticate_Err r e :
  authenticate r = Err e ↔
  (∃ v, r = Err v ∧ e = AuthJwt v) ∨ (∃ c, r = Ok c ∧ e = MissingOrgId ∧ ∀ org, ¬ tenant_of c org).
Proof.
  unfold authenticate, tenant_of. destruct r as [c|v]; cbn; [|naive_solver].
  destruct (hc_org_id (hub_claims (extra c))) as [raw|] eqn:Hraw; cbn.
  - case_bool_decide as Hnil; cbn; split.
    + intros [= <-]. right. exists c. split_and!; [done..|]. intros org (raw' & Hr & -> & Hne). congruence.
    + intros [(v & ? & _)|(c' & [= <-] & -> & _)]; done.
    + done.
    + intros [(v & ? & _)|(c' & [= <-] & -> & H)]; [done|]. destruct (H (trim raw)). by exists raw.
  - split; [|naive_solver]. intros [= <-]. right. exists c. split_and!; [done..|]. intros org (raw' & Hr & _). congruence.
Qed.

(** a request is admitted exactly if its token was verified and names a tenant (an [org_id] that is
    not blank), and no value of the gate is there yet; the handler then reads exactly that tenant and
    those claims, and nothing else changed.  Otherwise nothing is stored and the answer is 500, 403 with
    a fixed body for a token without a tenant, or 401 with one of two fixed bodies. *)
Theorem tenant_gate_admits cfg head ext r :
  let '(o, ext') := tenant_gate_outcome cfg head ext r in
  (o = Allow ↔ ext_get tenant_verified ext = None ∧ ∃ c org, r = Ok c ∧ tenant_of c org)
  ∧ (o = Allow → ∃ t, r = Ok (tc_claims t) ∧ tenant_of (tc_claims t) (org_id t)
       ∧ tenant (set_extensions ext' head) = Some t ∧ ∀ u, u ≠ tenant_verified → ext_get u ext' = ext_get u ext)
  ∧ ∀ resp, o = Reject resp →
      ext' = ext
      ∧ ((resp = error_response 500 (lit "internal_error") ∧ is_Some (ext_get tenant_verified ext) ∧ is_ok r = true)
         ∨ (resp = with_content_type (lit "application/json") (response_new 403 FORBIDDEN_BODY)
            ∧ ∃ c, r = Ok c ∧ ∀ org, ¬ tenant_of c org)
         ∨ (status resp = 401%N ∧ (r_body resp = BODY_INVALID_TOKEN ∨ r_body resp = BODY_INVALID_DPOP_PROOF) ∧ is_ok r = false)).
Proof.
  unfold tenant_gate_outcome. destruct (authenticate r) as [t|e] eqn:Ha.
  - apply authenticate_Ok in Ha as [-> Ht]. destruct (ext_get tenant_verified ext) as [v|] eqn:Hg.
    + rewrite (insert_taken _ _ _ v Hg). split_and!; [split; [done|by intros [? _]]|done|].
      intros resp [= <-]. split; [done|]. left. by split_and!.
    + rewrite insert_fresh by done. split_and!; [split; [|done]; intros _; split; [done|eauto]| |done].
      intros _. exists t. split_and!; [done|done| |].
      * unfold tenant. cbn [extensions set_extensions]. rewrite get_snoc, Hg, downcast_eq. cbn. by rewrite tv_tenant_new.
      * intros u Hu. rewrite get_snoc. destruct (ext_get u ext); [done|]. unfold downcast. cbn.
        destruct (decide (tenant_verified = u)); [congruence|done].
  - apply authenticate_Err in Ha as [(v & -> & ->)|(c & -> & -> & Hno)].
    + destruct (dpop cfg) as [d|].
      * split_and!; [split; [done|by intros (_ & c & org & ? & _)]|done|]. intros resp [= <-]. split; [done|]. right; right.
        destruct (unauthorized_response_is cfg head v) as (b & cs & Hb & Hc & ->). by split_and!.
      * split_and!; [split; [done|by intros (_ & c & org & ? & _)]|done|]. intros resp [= <-]. split; [done|]. right; right.
        split_and!; [done|by left|done].
    + split_and!; [|done|].
      * split; [done|]. intros (_ & c' & org & [= <-] & Ht). by apply Hno in Ht.
      * intros resp [= <-]. split; [done|]. right; left. split; [done|]. by exists c.
Qed.

(** ** The stores *)

(** An operation of some handler on the stores. *)
Inductive StoreOp :=
| OpGrant (org service info_type : bytes)
| OpRevoke (org service info_type : bytes)
| OpEnqueue (event : OutboxEvent).

Definition op_org (op : StoreOp) : bytes :=
  match op with OpGrant org _ _ | OpRevoke org _ _ => org | OpEnqueue event => ev_org_id event end.

Definition Stores : Type := InMemoryConsentStore * InMemoryOutboxStore.
Definition stores_new : Stores := (InMemoryConsentStore_new, InMemoryOutboxStore_new).
Definition apply_op (st : Stores) (op : StoreOp) : Stores :=
  match op with
  | OpGrant org service info_type => (grant org service info_type st.1, st.2)
  | OpRevoke org service info_type => (revoke org service info_type st.1, st.2)
  | OpEnqueue event => (st.1, enqueue event st.2)
  end.
Definition history (ops : list StoreOp) : Stores := fold_left apply_op ops stores_new.

(** The operations of a tenant, the events among them, and the decisions on one consent. *)
Definition own (org : bytes) (ops : list StoreOp) : list StoreOp := List.filter (λ op, str_eqb (op_org op) org) ops.
Definition event_of (op : StoreOp) : option OutboxEvent := match op with OpEnqueue event => Some event | _ => None end.
Definition decision_of (service info_type : bytes) (op : StoreOp) : option bool :=
  match op with
  | OpGrant _ s i => if str_eqb s service && str_eqb i info_type then Some true else None
  | OpRevoke _ s i => if str_eqb s service && str_eqb i info_type then Some false else None
  | OpEnqueue _ => None
  end.

Lemma history_snoc ops op : history (ops ++ [op]) = apply_op (history ops) op.
Proof. unfold history. by rewrite fold_left_app. Qed.

Lemma own_snoc org ops op : own org (ops ++ [op]) = own org ops ++ if str_eqb (op_org op) org then [op] else [].
Proof. unfold own. rewrite List.filter_app. cbn. by destruct (str_eqb _ _). Qed.

Lemma str_eqb_neq a b : str_eqb a b = false ↔ a ≠ b.
Proof. unfold str_eqb. apply bool_decide_eq_false. Qed.

Lemma outbox_history org ops :
  org ≠ [] → list_for_org (Some org) (history ops).2 = omap event_of (own org ops).
Proof.
  intros Hne. induction ops as [|op ops IH] using rev_ind; [unfold list_for_org; by rewrite bool_decide_eq_false_2|].
  rewrite history_snoc, own_snoc, omap_app, <- IH. unfold list_for_org. rewrite bool_decide_eq_false_2 by done.
  destruct op as [o s i|o s i|event]; cbn.
  - destruct (str_eqb o org); cbn; by rewrite app_nil_r.
  - destruct (str_eqb o org); cbn; by rewrite app_nil_r.
  - rewrite List.filter_app. cbn. by destruct (str_eqb (ev_org_id event) org).
Qed.

Lemma consent_history org service info_type ops :
  org ≠ [] →
  is_granted org service info_type (history ops).1 = default false (last (omap (decision_of service info_type) (own org ops))).
Proof.
  intros Hne. unfold is_granted. rewrite bool_decide_eq_false_2 by done.
  enough (grants (history ops).1 !! (org, service, info_type) = last (omap (decision_of service info_type) (own org ops))) as -> by done.
  induction ops as [|op ops IH] using rev_ind; [done|].
  rewrite history_snoc, own_snoc, omap_app, last_app, <- IH.
  assert (∀ o s i (b : bool),
    <[(o, s, i) := b]> (grants (history ops).1) !! (org, service, info_type)
    = if str_eqb o org && (str_eqb s service && str_eqb i info_type) then Some b
      else grants (history ops).1 !! (org, service, info_type)) as Hins.
  { intros o s i b. destruct (str_eqb o org && (str_eqb s service && str_eqb i info_type)) eqn:E.
    - apply andb_prop in E as [E1 [E2 E3]%andb_prop]. apply str_eqb_eq in E1, E2, E3. subst. apply lookup_insert_eq.
    - apply lookup_insert_ne. intros [= -> -> ->]. by rewrite !str_eqb_refl in E. }
  destruct op as [o s i|o s i|event]; cbn [apply_op fst grants grant revoke op_org].
  - rewrite Hins. destruct (str_eqb o org); [|done]. cbn. by destruct (_ && _).
  - rewrite Hins. destruct (str_eqb o org); [|done]. cbn. by destruct (_ && _).
  - by destruct (str_eqb _ _).
Qed.

(** ** Handlers behind the gate *)

(** What a handler does with the tenant of its request. *)
Inductive TenantAct :=
| ActGrant (service info_type : bytes)
| ActRevoke (service info_type : bytes)
| ActEnqueue (id event_type payload : bytes).

Definition act_op (org : bytes) (act : TenantAct) : StoreOp :=
  match act with
  | ActGrant service info_type => OpGrant org service info_type
  | ActRevoke service info_type => OpRevoke org service info_type
  | ActEnqueue id event_type payload =>
      OpEnqueue {| ev_id := id; ev_org_id := org; ev_event_type := event_type; ev_payload := payload |}
  end.

(** A request: its head with the extensions the earlier gates left, the result of its token, and
    what its handler does. *)
Record HubRequest := {
  hq_head : RequestHead; hq_ext : RequestExtensions; hq_result : result Claims VerifyError; hq_acts : list TenantAct;
}.

Definition hub_gate (cfg : AuthConfig) (q : HubRequest) : GateOutcome * RequestExtensions :=
  tenant_gate_outcome cfg (hq_head q) (hq_ext q) (hq_result q).
(** [TenantGate::verified] in the handler of [q]. *)
Definition hub_tenant (cfg : AuthConfig) (q : HubRequest) : option TenantClaims :=
  tenant (set_extensions (hub_gate cfg q).2 (hq_head q)).

(** The handler runs if the gate allows the request, and acts under the tenant it finds there. *)
Definition hub_serve (cfg : AuthConfig) (st : Stores) (q : HubRequest) : Stores :=
  match (hub_gate cfg q).1, hub_tenant cfg q with
  | Allow, Some t => fold_left apply_op (act_op (org_id t) <$> hq_acts q) st
  | _, _ => st
  end.
Definition hub_run (cfg : AuthConfig) (qs : list HubRequest) : Stores := fold_left (hub_serve cfg) qs stores_new.

(** The requests of a tenant, by their tokens alone: a verified token whose claims have this
    [org_id], up to space around it, and no value of the gate in its place yet. *)
Definition token_of (org : bytes) (q : HubRequest) : bool :=
  match hq_result q, ext_get tenant_verified (hq_ext q) with
  | Ok c, None => match hc_org_id (hub_claims (extra c)) with Some raw => str_eqb (trim raw) org | None => false end
  | _, _ => false
  end.
Definition acts_of (org : bytes) (qs : list HubRequest) : list TenantAct := concat (hq_acts <$> List.filter (token_of org) qs).
Definition act_event (org : bytes) (act : TenantAct) : option OutboxEvent :=
  match act with
  | ActEnqueue id event_type payload =>
      Some {| ev_id := id; ev_org_id := org; ev_event_type := event_type; ev_payload := payload |}
  | _ => None
  end.
Definition act_decision (service info_type : bytes) (act : TenantAct) : option bool :=
  match act with
  | ActGrant s i => if str_eqb s service && str_eqb i info_type then Some true else None
  | ActRevoke s i => if str_eqb s service && str_eqb i info_type then Some false else None
  | ActEnqueue _ _ _ => None
  end.

(** The gate and the reader after it, by the token of the request. *)
Lemma hub_gate_tenant cfg q :
  (∃ t, (hub_gate cfg q).1 = Allow ∧ hub_tenant cfg q = Some t ∧ hq_result q = Ok (tc_claims t)
      ∧ tenant_of (tc_claims t) (org_id t) ∧ ∀ org, token_of org q = str_eqb (org_id t) org)
  ∨ (hub_gate cfg q).1 ≠ Allow ∧ ∀ org, org ≠ [] → token_of org q = false.
Proof.
  unfold hub_gate, hub_tenant, tenant_gate_outcome, token_of. destruct (authenticate (hq_result q)) as [t|e] eqn:Ha.
  - apply authenticate_Ok in Ha as [Hr Ht]. destruct Ht as (raw & Hraw & Horg & Hne). rewrite Hr, Hraw.
    destruct (ext_get tenant_verified (hq_ext q)) as [v|] eqn:Hg; [right; by rewrite (insert_taken _ _ _ v Hg)|].
    left. exists t. rewrite insert_fresh by done. split_and!; [done| |done|by exists raw|by rewrite Horg].
    unfold tenant, hub_gate, tenant_gate_outcome. cbn [extensions set_extensions].
    assert (authenticate (hq_result q) = Ok t) as -> by (apply authenticate_Ok; split; [done|by exists raw]).
    rewrite insert_fresh by done. cbn [snd]. rewrite get_snoc, Hg, downcast_eq. cbn. by rewrite tv_tenant_new.
  - right. apply authenticate_Err in Ha as [(v & -> & ->)|(c & -> & -> & Hno)].
    + by destruct (dpop cfg).
    + split; [done|]. intros org Hne. destruct (ext_get _ _); [done|].
      destruct (hc_org_id _) as [raw|] eqn:Hraw; [|done]. apply str_eqb_neq. intros <-. apply (Hno (trim raw)). by exists raw.
Qed.

(** A run of requests is a history of operations, of which a tenant owns those of its tokens. *)
Lemma hub_run_history cfg qs :
  ∃ ops, hub_run cfg qs = history ops ∧ ∀ org, org ≠ [] → own org ops = act_op org <$> acts_of org qs.
Proof.
  induction qs as [|q qs (ops & Hrun & Hown)] using rev_ind; [by exists []|].
  unfold hub_run. rewrite fold_left_app. cbn [fold_left]. fold (hub_run cfg qs). rewrite Hrun.
  unfold hub_serve, acts_of. destruct (hub_gate_tenant cfg q) as [(t & -> & -> & _ & _ & Htok)|[Hno Htok]].
  - exists (ops ++ (act_op (org_id t) <$> hq_acts q)). unfold history. split; [by rewrite fold_left_app|].
    intros org Hne. unfold own. rewrite !List.filter_app, fmap_app, concat_app, fmap_app. fold (own org ops). rewrite Hown by done.
    f_equal. cbn. rewrite Htok.
    assert (∀ acts, List.filter (λ op, str_eqb (op_org op) org) (act_op (org_id t) <$> acts)
                    = if str_eqb (org_id t) org then act_op (org_id t) <$> acts else []) as ->.
    { intros acts. induction acts as [|act acts IH]; cbn; [by destruct (str_eqb _ _)|].
      assert (op_org (act_op (org_id t) act) = org_id t) as -> by (by destruct act). rewrite IH. by destruct (str_eqb _ _). }
    destruct (str_eqb (org_id t) org) eqn:E; [|done]. apply str_eqb_eq in E as ->. cbn. by rewrite app_nil_r.
  - exists ops. split; [by destruct (hub_gate cfg q).1|]. intros org Hne.
    rewrite List.filter_app. cbn. rewrite (Htok org Hne), app_nil_r. by apply Hown.
Qed.

Lemma act_op_event org (acts : list TenantAct) : omap event_of (act_op org <$> acts) = omap (act_event org) acts.
Proof. induction acts as [|[] acts IH]; cbn; by rewrite ?IH. Qed.

Lemma act_op_decision org service info_type (acts : list TenantAct) :
  omap (decision_of service info_type) (act_op org <$> acts) = omap (act_decision service info_type) acts.
Proof. induction acts as [|[] acts IH]; cbn; repeat case_match; by rewrite ?IH. Qed.

(** C40: a handler behind the gate runs under the tenant of its token: the claims it finds are the
    verified ones and its tenant is the [org_id] that these claims have. Whatever requests were served
    before, the events it reads are exactly those that the handlers of admitted requests with a token of
    the same [org_id] enqueued, in order, and a consent is the last decision of such a handler (none is
    a refusal); the requests of all other tokens make no difference. Without a tenant there are no
    events and no consents. *)
Theorem tenant_isolation cfg qs q t :
  (hub_gate cfg q).1 = Allow → hub_tenant cfg q = Some t →
  (∃ c raw, hq_result q = Ok c ∧ tc_claims t = c ∧ hc_org_id (hub_claims (extra c)) = Some raw
     ∧ org_id t = trim raw ∧ org_id t ≠ [])
  ∧ list_for_org (Some (org_id t)) (hub_run cfg qs).2 = omap (act_event (org_id t)) (acts_of (org_id t) qs)
  ∧ (∀ service info_type,
       is_granted (org_id t) service info_type (hub_run cfg qs).1
       = default false (last (omap (act_decision service info_type) (acts_of (org_id t) qs))))
  ∧ (∀ qs', List.filter (token_of (org_id t)) qs' = List.filter (token_of (org_id t)) qs →
       list_for_org (Some (org_id t)) (hub_run cfg qs').2 = list_for_org (Some (org_id t)) (hub_run cfg qs).2
       ∧ ∀ service info_type, is_granted (org_id t) service info_type (hub_run cfg qs').1
                            = is_granted (org_id t) service info_type (hub_run cfg qs).1)
  ∧ list_for_org None (hub_run cfg qs).2 = [] ∧ list_for_org (Some []) (hub_run cfg qs).2 = []
  ∧ ∀ service info_type, is_granted [] service info_type (hub_run cfg qs).1 = false.
Proof.
  intros Hallow Ht. destruct (hub_gate_tenant cfg q) as [(t' & _ & Ht' & Hr & Hof & _)|[? _]]; [|done].
  rewrite Ht in Ht'. injection Ht' as <-. pose proof Hof as (raw & Hraw & Horg & Hne).
  assert (∀ qs, list_for_org (Some (org_id t)) (hub_run cfg qs).2 = omap (act_event (org_id t)) (acts_of (org_id t) qs)
    ∧ ∀ service info_type, is_granted (org_id t) service info_type (hub_run cfg qs).1
        = default false (last (omap (act_decision service info_type) (acts_of (org_id t) qs)))) as Hread.
  { intros qs0. destruct (hub_run_history cfg qs0) as (ops & -> & Hown). split.
    - by rewrite outbox_history, Hown, act_op_event by done.
    - intros. by rewrite consent_history, Hown, act_op_decision by done. }
  destruct (Hread qs) as [H1 H2]. split_and!; try done.
  - by exists (tc_claims t), raw.
  - intros qs' Heq. destruct (Hread qs') as [H1' H2']. split; [rewrite H1, H1'|intros; rewrite H2, H2']; unfold acts_of; by rewrite Heq.
Qed.

(** ** Audit *)

(** An attempt across tenants looks like a missing value to the caller, leaves exactly one event, and
    the event has no query. *)
Lemma resolve_cross_tenant {T} sink org method path source now :
  let ctx := AuditContext_new org method path source in
  (resolve (CrossTenantAttempt (T := T)) sink ctx now).1 = (resolve (NotFound (T := T)) sink ctx now).1
  ∧ (resolve (CrossTenantAttempt (T := T)) sink ctx now).2 = sink ++ [cross_tenant_attempt ctx now]
  ∧ contains x3f (ax_path ctx) = false.
Proof.
  split_and!; [done..|]. cbn. destruct (split_once x3f path) as [[p q]|] eqn:Hs.
  - by apply split_once_Some in Hs as [_ ?].
  - by apply split_once_None in Hs.
Qed.
End hub.

(** ** An instance *)

(** The crates of the verification, with the further claims of a token as its tenant. *)
#[local] Instance hub_crates : JwtCrates := {|
  b64_decode := b64_decode (JwtCrates := demo_crates); b64_encode := b64_encode (JwtCrates := demo_crates);
  json_jwks := json_jwks (JwtCrates := demo_crates); json_header := json_header (JwtCrates := demo_crates);
  json_claims := json_claims (JwtCrates := demo_crates);
  Extra := bytes; json_extra := Some;
  json_proof_header := json_proof_header (JwtCrates := demo_crates); json_proof_claims := json_proof_claims (JwtCrates := demo_crates);
  json_proof_jwk := json_proof_jwk (JwtCrates := demo_crates); rsa_verify := rsa_verify (JwtCrates := demo_crates);
  ecdsa_verify := ecdsa_verify (JwtCrates := demo_crates); sha256 := sha256 (JwtCrates := demo_crates);
|}.
#[local] Instance hub_types : AnyTypes := {| TypeId := unit; Any := λ _, TenantClaims |}.
#[local] Instance hub_demo_extra : HubExtra := {| hub_claims := λ e, {| hc_org_id := Some e |} |}.
#[local] Instance hub_demo_verified : TenantVerifiedType (AT := hub_types) :=
  {| tenant_verified := (tt : @TypeId hub_types); TenantVerified_new := λ c, c; tv_tenant := λ c, c; tv_tenant_new := λ _, eq_refl |}.

Definition hub_demo_cfg : AuthConfig :=
  {| policy := demo_policy; notifier := false; refresh_trigger := false; dpop := None |}.
Definition hub_demo_head : RequestHead :=
  {| buf := []; method_r := Range 0 0; target_r := Range 0 0; version := Http11; headers_r := []; extensions := ext_new |}.
Definition hub_demo_claims (org : bytes) : Claims :=
  @Build_Claims hub_crates (lit "https://issuer") (Some (lit "alice")) [lit "api"] 1000%N None None None None None Absent org.
Definition hub_demo_request (r : result Claims VerifyError) (acts : list TenantAct) : HubRequest :=
  {| hq_head := hub_demo_head; hq_ext := ext_new; hq_result := r; hq_acts := acts |}.

Definition hub_demo_requests : list HubRequest :=
  [hub_demo_request (Ok (hub_demo_claims (lit "org-b"))) [ActGrant (lit "crm") (lit "email"); ActEnqueue (lit "1") (lit "t") []];
   hub_demo_request (Ok (hub_demo_claims (lit " org-a"))) [ActGrant (lit "crm") (lit "email"); ActEnqueue (lit "2") (lit "t") []];
   hub_demo_request (Err Expired) [ActEnqueue (lit "3") (lit "t") []];
   hub_demo_request (Ok (hub_demo_claims (lit " "))) [ActEnqueue (lit "4") (lit "t") []];
   hub_demo_request (Ok (hub_demo_claims (lit "org-b"))) [ActRevoke (lit "crm") (lit "email")]].
Definition hub_demo_tenant : TenantClaims := {| org_id := lit "org-a"; tc_claims := hub_demo_claims (lit "org-a ") |}.

Lemma tenant_isolation_witness :
  (ev_id <$> list_for_org (Some (lit "org-a")) (hub_run hub_demo_cfg hub_demo_requests).2) = [lit "2"]
  ∧ is_granted (lit "org-a") (lit "crm") (lit "email") (hub_run hub_demo_cfg hub_demo_requests).1 = true.
Proof.
  destruct (tenant_isolation hub_demo_cfg hub_demo_requests (hub_demo_request (Ok (hub_demo_claims (lit "org-a "))) [])
              hub_demo_tenant) as (_ & H1 & H2 & _).
  - vm_compute. reflexivity.
  - vm_compute. reflexivity.
  - change (lit "org-a") with (org_id hub_demo_tenant). rewrite H1, H2. split; vm_compute; reflexivity.
Defined.
