(* ===== verification/Tracing.v ===== *)
(** * [plugin-tracing]: which responses are logged

    [config.rs], [sampler.rs] and [layer.rs].  [record_response] touches the shared state in one
    atomic [fetch_add], so that concurrent calls are a sequence of calls, in the order of their
    additions.  The log is what [tracing::info!] is given. *)

From S2P Require Import Prelude Text Utf8 Radix Extensions Request ServerConfig.

#[local] Open Scope N_scope.

(** ** [config.rs] *)

Definition DEFAULT_SAMPLE_INTERVAL : N := 100.

(** [sample_interval] is a [NonZeroU64]. *)
Record TracingConfig := { sample_interval : N; exclude_paths : list bytes }.

Definition TracingConfig_default : TracingConfig :=
  {| sample_interval := DEFAULT_SAMPLE_INTERVAL; exclude_paths := [] |}.
Definition TracingConfig_new (interval : N) : TracingConfig := {| sample_interval := interval; exclude_paths := [] |}.
Definition exclude_path (path : bytes) (self : TracingConfig) : TracingConfig :=
  {| sample_interval := sample_interval self; exclude_paths := exclude_paths self ++ [path] |}.

Definition config_ok (config : TracingConfig) : Prop := 1 ≤ sample_interval config ≤ u64_max.

(** ** [sampler.rs] *)

Record Sampler := { interval : N; counter : N }.
Definition Sampler_new (interval : N) : Sampler := {| interval := interval; counter := 0 |}.

(** [fetch_add] wraps; [is_multiple_of]. *)
Definition should_sample (self : Sampler) : bool * Sampler :=
  (counter self mod interval self =? 0, {| interval := interval self; counter := (counter self + 1) mod 2 ^ 64 |}).

(** ** [layer.rs] *)

Record TracingLayer := { sampler : Sampler; layer_excluded : list bytes }.
Definition TracingLayer_new (config : TracingConfig) : TracingLayer :=
  {| sampler := Sampler_new (sample_interval config); layer_excluded := exclude_paths config |}.

(** The fields of the message "request completed". *)
Record LogEntry := { l_method : bytes; l_path : bytes; l_elapsed : Duration }.

Section layer.
Context {AT : AnyTypes} {MM : Memmem}.

Definition logged_path (head : RequestHead) : bytes :=
  match split_once x3f (target head) with Some (path, _) => path | None => target head end.

Definition record_response (head : RequestHead) (elapsed : Duration) (self : TracingLayer) : option LogEntry * TracingLayer :=
  let path := logged_path head in
  if existsb (λ excluded, str_eqb excluded path) (layer_excluded self) then (None, self)
  else
    let '(sampled, s) := should_sample (sampler self) in
    let self := {| sampler := s; layer_excluded := layer_excluded self |} in
    if negb sampled then (None, self)
    else (Some {| l_method := method head; l_path := path; l_elapsed := elapsed |}, self).

(** A sequence of responses, and the log. *)
Fixpoint record_all (calls : list (RequestHead * Duration)) (self : TracingLayer) : list LogEntry :=
  match calls with
  | [] => []
  | (head, elapsed) :: calls =>
      let '(entry, self) := record_response head elapsed self in
      match entry with Some e => [e] | None => [] end ++ record_all calls self
  end.

(** ** What is logged *)

Definition included (config : TracingConfig) (call : RequestHead * Duration) : bool :=
  negb (existsb (λ excluded, str_eqb excluded (logged_path call.1)) (exclude_paths config)).
Definition entry_of (call : RequestHead * Duration) : LogEntry :=
  {| l_method := method call.1; l_path := logged_path call.1; l_elapsed := call.2 |}.

(** Every [k]-th of a list, from the one with [n] before it. *)
Fixpoint every (k n : N) {A} (l : list A) : list A :=
  match l with
  | [] => []
  | x :: l => (if n mod k =? 0 then [x] else []) ++ every k (n + 1) l
  end.

Lemma record_all_every config calls n :
  n + len calls ≤ 2 ^ 64 →
  record_all calls {| sampler := {| interval := sample_interval config; counter := n mod 2 ^ 64 |};
                      layer_excluded := exclude_paths config |}
  = entry_of <$> every (sample_interval config) n (List.filter (included config) calls).
Proof.
  unfold len. revert n. induction calls as [|[head elapsed] calls IH]; intros n; [done|].
  cbn [length record_all List.filter]. intros Hn. unfold record_response, included. cbn [layer_excluded fst].
  destruct (existsb _ (exclude_paths config)); cbn [negb]; [apply IH; lia|].
  unfold should_sample. cbn [sampler counter interval]. rewrite (N.mod_small n) by lia.
  specialize (IH (n + 1) ltac:(lia)). cbn [every]. destruct (n mod sample_interval config =? 0); cbn [negb app fmap list_fmap].
  - f_equal. exact IH.
  - exact IH.
Qed.

(** The length of [every]: a division that rounds up. *)
Lemma every_length {A} k n (l : list A) :
  1 ≤ k → len (every k n l) = (n + len l + k - 1) / k - (n + k - 1) / k.
Proof.
  intros Hk. unfold len. revert n. induction l as [|x l IH]; intros n; cbn [every length].
  { rewrite N.add_0_r. lia. }
  rewrite length_app, Nat2N.inj_add, IH.
  replace (n + 1 + N.of_nat (length l) + k - 1) with (n + N.of_nat (S (length l)) + k - 1) by lia.
  pose proof (N.div_mod n k ltac:(lia)) as Hdm. pose proof (N.mod_lt n k ltac:(lia)) as Hlt.
  assert ((n + k - 1) / k + (if n mod k =? 0 then 1 else 0) = (n + 1 + k - 1) / k) as Hstep.
  { replace (n + 1 + k - 1) with (n + 1 * k) by lia. rewrite N.div_add by lia.
    generalize dependent (n mod k). intros r Hdm Hlt. generalize dependent (n / k). intros q Hdm.
    destruct (r =? 0) eqn:E; bool_to_prop.
    - replace (n + k - 1) with (k - 1 + q * k) by nia. rewrite N.div_add, (N.div_small (k - 1)) by lia. lia.
    - replace (n + k - 1) with (r - 1 + (q + 1) * k) by nia. rewrite N.div_add, (N.div_small (r - 1)) by lia. lia. }
  assert ((n + 1 + k - 1) / k ≤ (n + N.of_nat (S (length l)) + k - 1) / k) as Hle by (apply N.Div0.div_le_mono; lia).
  destruct (n mod k =? 0); cbn [length] in *; lia.
Qed.

(** over fewer than 2^64 responses, in the order of their additions, the log has exactly every
    [sample_interval]-th response with a path that is not excluded, the first one included, with its
    method, its path without the query and its time: one for each [sample_interval] begun (rounded
    up).  Excluded responses do not count. *)
Theorem tracing_log_exact config calls :
  config_ok config → len calls ≤ 2 ^ 64 →
  record_all calls (TracingLayer_new config) = entry_of <$> every (sample_interval config) 0 (List.filter (included config) calls)
  ∧ len (record_all calls (TracingLayer_new config))
    = (len (List.filter (included config) calls) + sample_interval config - 1) / sample_interval config
  ∧ Forall (λ e, contains x3f (l_path e) = false ∧ l_path e ∉ exclude_paths config) (record_all calls (TracingLayer_new config)).
Proof.
  intros [Hk _] Hlen. pose proof (record_all_every config calls 0 Hlen) as H.
  change (record_all calls {| sampler := _; layer_excluded := _ |}) with (record_all calls (TracingLayer_new config)) in H.
  split_and!; [exact H| |].
  - rewrite H. unfold len at 1. rewrite length_fmap. fold (len (every (sample_interval config) 0 (List.filter (included config) calls))).
    rewrite every_length by done. replace (0 + sample_interval config - 1) with (sample_interval config - 1) by lia.
    rewrite (N.div_small (sample_interval config - 1)) by lia. rewrite N.sub_0_r. by rewrite N.add_0_l.
  - rewrite H. apply Forall_fmap, Forall_forall. intros [head elapsed] Hin. cbn.
    assert ((head, elapsed) ∈ List.filter (included config) calls) as Hcall.
    { clear -Hin. revert Hin. generalize 0 at 1. induction (List.filter (included config) calls) as [|y l IH]; intros n Hin; [done|].
      cbn [every] in Hin. apply elem_of_app in Hin as [Hin|Hin]; [|right; by eapply IH].
      destruct (_ =? _); [apply list_elem_of_singleton in Hin as ->; left|by apply elem_of_nil in Hin]. }
    apply list_elem_of_In, filter_In in Hcall as [_ Hinc]. split.
    + unfold logged_path. destruct (split_once x3f (target head)) as [[p q]|] eqn:Hs.
      * by apply split_once_Some in Hs as [_ ?].
      * by apply split_once_None in Hs.
    + unfold included in Hinc. cbn in Hinc. apply negb_true_iff in Hinc. intros Hex.
      assert (existsb (λ excluded, str_eqb excluded (logged_path head)) (exclude_paths config) = true) as Ht; [|congruence].
      apply existsb_exists. exists (logged_path head). split; [by apply list_elem_of_In|apply str_eqb_refl].
Qed.
End layer.

(** The number of records is not the quotient rounded down. *)
Example sampler_rounds_up :
  (should_sample (Sampler_new 3)).1 = true ∧ 1 / 3 = 0.
Proof. split; reflexivity. Qed.

#[local] Instance tracing_demo_types : AnyTypes := {| TypeId := unit; Any := λ _, unit |}.
#[local] Existing Instance naive_memmem.
Definition tracing_demo_head (t : bytes) : RequestHead :=
  {| buf := t; method_r := Range 0 0; target_r := Range 0 (length t); version := Http11; headers_r := []; extensions := ext_new |}.

Lemma tracing_log_exact_witness :
  len (record_all ((λ t, (tracing_demo_head t, 1)) <$> [lit "/a?q"; lit "/health"; lit "/b"; lit "/c"; lit "/d"])
         (TracingLayer_new (exclude_path (lit "/health") (TracingConfig_new 3)))) = 2.
Proof.
  destruct (tracing_log_exact (exclude_path (lit "/health") (TracingConfig_new 3))
    ((λ t, (tracing_demo_head t, 1)) <$> [lit "/a?q"; lit "/health"; lit "/b"; lit "/c"; lit "/d"])) as (_ & H & _).
  - split; vm_compute; discriminate.
  - vm_compute. discriminate.
  - rewrite H. vm_compute. reflexivity.
Defined.
