(* ===== verification/GraphQl.v ===== *)
(** * [plugin-graphql] and the documents of [plugin-openapi]

    [plugin-graphql/lib.rs] (one endpoint that hands a parsed request to an executor) and
    [plugin-openapi/custom.rs] (the checks of a registered document).  serde_json and async-graphql
    are parameters. *)

From S2P Require Import Prelude Text Utf8 Radix Extensions Request ServerConfig.

(** [serde_json::Value] and [GraphQlRequestBody] as serde derives it; [Variables::from_json] and the
    response of async-graphql. *)
Class GraphQlCrates := {
  Json : Type;
  json_from_slice : bytes → option Json;
  is_object : Json → bool;
  Variables : Type;
  variables_from_json : Json → Variables;
  body_from_slice : bytes → option (bytes * option Json * option bytes);
  GqlResponse : Type;
  gql_to_vec : GqlResponse → option bytes;
}.

Section graphql.
Context {AT : AnyTypes} {MM : Memmem} {GC : GraphQlCrates}.

Definition GRAPHQL_PATH : bytes := lit "/graphql".

(** [async_graphql::Request], with the fields that the plugin sets. *)
Record GqlRequest := { gql_query : bytes; gql_variables : option Variables; gql_operation_name : option bytes }.

(** [GraphQlConfig]: the executor. *)
Record GraphQlConfig := { execute : GqlRequest → GqlResponse }.
Definition GraphQlConfig_new (executor : GqlRequest → GqlResponse) : GraphQlConfig := {| execute := executor |}.

Definition graphql_json (status : N) (body : bytes) : PluginResponse :=
  {| p_status := status; p_body := body; p_content_type := lit "application/json" |}.

(** [{"errors":[{"message":"invalid request body"}]}]. *)
Definition INVALID_REQUEST_BODY : bytes :=
  [x7b; x22] ++ lit "errors" ++ [x22] ++ lit ":[" ++ [x7b; x22] ++ lit "message" ++ [x22] ++ lit ":" ++ [x22]
  ++ lit "invalid request body" ++ [x22; x7d] ++ lit "]" ++ [x7d].

Definition try_handle_graphql (head : RequestHead) (body : bytes) (config : GraphQlConfig) : option PluginResponse :=
  if negb (str_eqb (method head) (lit "POST")) || negb (str_eqb (target head) GRAPHQL_PATH) then None
  else
    match body_from_slice body with
    | None => Some (graphql_json 400 INVALID_REQUEST_BODY)
    | Some (query, variables, operation_name) =>
        let request := {| gql_query := query; gql_variables := variables_from_json <$> variables;
                          gql_operation_name := operation_name |} in
        let result := execute config request in
        Some (graphql_json 200 (default INVALID_REQUEST_BODY (gql_to_vec result)))
    end.

(** ** [plugin-openapi/custom.rs] *)

Inductive OpenApiDocError := InvalidJson | NotAnObject | InvalidYaml.

Definition openapi_from_json (json : bytes) : result OpenApiDoc OpenApiDocError :=
  match json_from_slice json with
  | None => Err InvalidJson
  | Some value => if negb (is_object value) then Err NotAnObject else Ok {| doc_json := json; doc_yaml := None |}
  end.

Definition with_yaml (yaml : bytes) (self : OpenApiDoc) : result OpenApiDoc OpenApiDocError :=
  if bool_decide (yaml = []) || negb (utf8_valid yaml) then Err InvalidYaml
  else Ok {| doc_json := doc_json self; doc_yaml := Some yaml |}.

(** A document that the two constructors made. *)
Inductive built_doc : OpenApiDoc → Prop :=
| built_json json doc : openapi_from_json json = Ok doc → built_doc doc
| built_yaml yaml doc doc' : built_doc doc → with_yaml yaml doc = Ok doc' → built_doc doc'.

(** Its JSON is an object, and its YAML is not empty and UTF-8. *)
Lemma built_doc_ok doc :
  built_doc doc →
  (∃ value, json_from_slice (doc_json doc) = Some value ∧ is_object value = true)
  ∧ ∀ yaml, doc_yaml doc = Some yaml → yaml ≠ [] ∧ utf8_valid yaml = true.
Proof.
  induction 1 as [json doc H|yaml doc doc' _ [IH _] H].
  - unfold openapi_from_json in H. destruct (json_from_slice json) as [value|] eqn:Hj; [|done].
    destruct (negb (is_object value)) eqn:Ho; [done|]. bool_to_prop. injection H as <-. cbn. split; [by exists value|done].
  - unfold with_yaml in H. case_bool_decide as Hnil; [done|]. destruct (utf8_valid yaml) eqn:Hu; [|done].
    injection H as <-. cbn. split; [done|]. by intros y [= <-].
Qed.
End graphql.
