(* ===== verification/Plugins.v ===== *)
(** * The path plugins behind the seam of the core

    [core/plugin.rs] asks the plugins in a fixed order.  Here the class [PathPlugins], against which
    the theorems of the server are proved, is implemented with the models of the plugins: the proxy and
    the handler of offers, GraphQL, the static files and the WebSocket upgrade.  What a plugin meets
    outside (the upstream, the file system, the end of a signalling) is part of its configuration. *)

From S2P Require Import Prelude Text Utf8 Radix Extensions Request Response Error Gate F32 Compression Cors ServerConfig Server.
From S2P Require Import WsPattern WsConfig WsHandshake Static NetAddr WebRtc RtcProxy GraphQl.

Section plugins.
Context {AT : AnyTypes} {MM : Memmem} {WC : WebRtcCrate} {GC : GraphQlCrates}.
Context (openapi_json_text openapi_yaml_text : bytes).

Definition proxy_response (r : ProxyResponse) : PluginResponse :=
  {| p_status := px_status r; p_body := px_body r; p_content_type := px_content_type r |}.

(** The registry as the offer meets it, and what a signalling that starts will answer. *)
Record OfferEnv := { oe_world : WebRtc.World; oe_answer : Response }.
Definition offer_response (head : RequestHead) (body : bytes) (env : OfferEnv) : option Response :=
  match WebRtc.try_handle_rtc_offer head body (oe_world env) with
  | NotHandled => None
  | Refused r => Some r
  | Started _ => Some (oe_answer env)
  end.

(** The file system at each of its calls, and whether the blocking task returned. *)
Record StaticEnv := { se_config : StaticFilesConfig; se_fs : nat → FileSystem; se_joined : bool }.

#[export] Instance modelled_plugins : PathPlugins := {|
  ServerConfig.ProxyConfig := RtcProxy.ProxyConfig * Upstream;
  try_rtc_proxy head body c := proxy_response <$> (px_try_handle_rtc_offer head body c.1 c.2).2;
  ServerConfig.WebRtcConfig := OfferEnv;
  try_rtc_offer head body env := offer_response head body env;
  ServerConfig.GraphQlConfig := GraphQl.GraphQlConfig;
  try_graphql head body c := try_handle_graphql head body c;
  ServerConfig.StaticFilesConfig := StaticEnv;
  try_static head env := try_handle_static (se_fs env) (se_joined env) head (se_config env);
  ServerConfig.WebSocketConfig := WsConfig;
  websocket_matches head c := WsHandshake.matches head c;
  OPENAPI_JSON := openapi_json_text;
  OPENAPI_YAML := openapi_yaml_text;
|}.

(** ** The requests of the plugins *)

Definition is_request (m t : bytes) (head : RequestHead) : Prop := method head = m ∧ target head = t.
Definition post_offer (head : RequestHead) : Prop := is_request (lit "POST") (lit "/rtc/offer") head.
Definition post_graphql (head : RequestHead) : Prop := is_request (lit "POST") GRAPHQL_PATH head.

Lemma request_test m t head :
  negb (str_eqb (method head) m) || negb (str_eqb (target head) t) = false ↔ is_request m t head.
Proof.
  unfold is_request. rewrite orb_false_iff, !negb_false_iff, !str_eqb_eq. done.
Qed.

Lemma proxy_answers head body c : post_offer head ↔ is_Some (px_try_handle_rtc_offer head body c.1 c.2).2.
Proof.
  unfold px_try_handle_rtc_offer, post_offer. rewrite <- request_test. change PX_OFFER_PATH with (lit "/rtc/offer").
  destruct (negb _ || negb _); [split; [done|by intros []]|]. split; [intros _|done].
  destruct (_ ≫= _); [|by eexists]. destruct (negb _); [by eexists|]. destruct (_ <? _)%N; [by eexists|].
  destruct (forward_offer _ _ _). by eexists.
Qed.

Lemma offer_answers head body env : post_offer head ↔ is_Some (offer_response head body env).
Proof.
  unfold offer_response, WebRtc.try_handle_rtc_offer, post_offer. rewrite <- request_test. change OFFER_PATH with (lit "/rtc/offer").
  destruct (negb _ || negb _); [split; [done|by intros []]|]. split; [intros _|done].
  destruct (check_offer _ _ _); [by eexists|]. destruct (reserve_slot _) as [[]|]; by eexists.
Qed.

Lemma graphql_answers head body c : post_graphql head ↔ is_Some (try_handle_graphql head body c).
Proof.
  unfold try_handle_graphql, post_graphql. rewrite <- request_test.
  destruct (negb _ || negb _); [split; [done|by intros []]|]. split; [intros _|done].
  destruct (body_from_slice body) as [[[q v] o]|]; by eexists.
Qed.

Lemma not_some {A} (o : option A) (P : Prop) : (P ↔ is_Some o) → ¬ P → o = None.
Proof. destruct o; [|done]. intros H Hn. destruct Hn. apply H. eauto. Qed.

Context `{GzEncoder} (server : Server).

Definition proxy_first (head : RequestHead) (body : bytes) : option Response :=
  from_plugin_response <$> (webrtc_proxy_config server ≫= try_rtc_proxy head body).
Definition graphql_third (head : RequestHead) (body : bytes) : option Response :=
  from_plugin_response <$> (graphql_config server ≫= try_graphql head body).

Lemma proxy_silent head body : ¬ post_offer head → proxy_first head body = None.
Proof.
  intros Hn. unfold proxy_first. destruct (webrtc_proxy_config server) as [c|]; [|done]. cbn.
  by rewrite (not_some _ _ (proxy_answers head body c) Hn).
Qed.
Lemma offer_silent head body : ¬ post_offer head → (webrtc_config server ≫= try_rtc_offer head body) = None.
Proof.
  intros Hn. destruct (webrtc_config server) as [env|]; [|done]. exact (not_some _ _ (offer_answers head body env) Hn).
Qed.
Lemma graphql_silent head body : ¬ post_graphql head → graphql_third head body = None.
Proof.
  intros Hn. unfold graphql_third. destruct (graphql_config server) as [c|]; [|done]. cbn.
  by rewrite (not_some _ _ (graphql_answers head body c) Hn).
Qed.
Lemma openapi_silent head t doc ct : ¬ is_request (lit "GET") t head → openapi_response head t doc ct = None.
Proof.
  intros Hn. unfold openapi_response. destruct (str_eqb (method head) (lit "GET") && str_eqb (target head) t) eqn:E; [|done].
  destruct Hn. apply andb_prop in E as [?%str_eqb_eq ?%str_eqb_eq]. done.
Qed.
Lemma openapi_speaks head t doc ct : is_request (lit "GET") t head →
  openapi_response head t doc ct = (λ b, with_content_type ct (response_new 200 b)) <$> doc.
Proof. intros [Hm Ht]. unfold openapi_response. by rewrite Hm, Ht, !str_eqb_refl. Qed.

Lemma static_silent head :
  eq_ignore_ascii_case (method head) (lit "GET") = false
  ∨ (∀ env, static_files_config server = Some env → strip_mount (path head) (mount (se_config env)) = None) →
  (static_files_config server ≫= try_static head) = None.
Proof.
  intros H0. destruct (static_files_config server) as [env|]; [|done]. cbn. unfold try_handle_static.
  destruct H0 as [->|H0]; [done|]. rewrite (H0 env eq_refl). by destruct (negb _).
Qed.

Lemma not_request m t m' t' head : is_request m t head → (m, t) ≠ (m', t') → ¬ is_request m' t' head.
Proof. intros [<- <-] Hne [<- <-]. done. Qed.

(** an offer is answered by the proxy if it is configured and otherwise by the signalling handler; a
    GraphQL request by GraphQL, and a request for a registered document by that document, whatever else
    is configured; every other request reaches the static files, which look only at GET requests below
    their mount; and what no plugin answers goes on to the application. *)
Theorem plugins_intercept head body :
  (post_offer head →
     match webrtc_proxy_config server, webrtc_config server with
     | Some c, _ => ∃ r, (px_try_handle_rtc_offer head body c.1 c.2).2 = Some r
                      ∧ try_intercept server head body = Some (from_plugin_response (proxy_response r))
     | None, Some env => try_intercept server head body = offer_response head body env
                         ∧ is_Some (offer_response head body env)
     | None, None => try_intercept server head body = None
     end)
  ∧ (post_graphql head → ∀ c, graphql_config server = Some c →
       ∃ r, try_handle_graphql head body c = Some r ∧ try_intercept server head body = Some (from_plugin_response r))
  ∧ (is_request (lit "GET") (lit "/openapi.json") head → ∀ json, openapi_json server = Some json →
       try_intercept server head body = Some (with_content_type (lit "application/json") (response_new 200 json)))
  ∧ (is_request (lit "GET") (lit "/openapi.yaml") head → ∀ yaml, openapi_yaml server = Some yaml →
       try_intercept server head body = Some (with_content_type (lit "application/yaml") (response_new 200 yaml)))
  ∧ (¬ post_offer head → ¬ post_graphql head →
     ¬ is_request (lit "GET") (lit "/openapi.json") head → ¬ is_request (lit "GET") (lit "/openapi.yaml") head →
       try_intercept server head body = (static_files_config server ≫= try_static head)
       ∧ (eq_ignore_ascii_case (method head) (lit "GET") = false
          ∨ (∀ env, static_files_config server = Some env → strip_mount (path head) (mount (se_config env)) = None) →
          try_intercept server head body = None)).
Proof.
  assert (∀ t, post_offer head → ¬ is_request (lit "GET") t head) as Hoffer.
  { intros t [Hm _] [Hg _]. rewrite Hm in Hg. done. }
  assert (∀ t, post_graphql head → ¬ is_request (lit "GET") t head) as Hgraph.
  { intros t [Hm _] [Hg _]. rewrite Hm in Hg. done. }
  unfold try_intercept. fold (proxy_first head body) (graphql_third head body). split_and!.
  - intros Hp. assert (¬ post_graphql head) as Hng by (eapply not_request; [exact Hp|done]).
    destruct (webrtc_proxy_config server) as [c|] eqn:Hc.
    + destruct (proj1 (proxy_answers head body c) Hp) as [r Hr]. exists r. split; [done|].
      unfold proxy_first. rewrite Hc. cbn [mbind option_bind try_rtc_proxy modelled_plugins]. by rewrite Hr.
    + assert (proxy_first head body = None) as -> by (unfold proxy_first; by rewrite Hc).
      destruct (webrtc_config server) as [env|] eqn:He.
      * destruct (proj1 (offer_answers head body env) Hp) as [r Hr]. cbn. rewrite Hr. by split; [|eexists].
      * cbn [mbind option_bind first_some]. rewrite graphql_silent, !openapi_silent by auto. cbn [first_some].
        apply static_silent. left. by rewrite (proj1 Hp).
  - intros Hp c Hc. assert (¬ post_offer head) as Hno by (eapply not_request; [exact Hp|done]).
    rewrite proxy_silent, offer_silent by done. cbn [first_some].
    destruct (proj1 (graphql_answers head body c) Hp) as [r Hr]. exists r. split; [done|].
    unfold graphql_third. rewrite Hc. cbn [mbind option_bind try_graphql modelled_plugins]. by rewrite Hr.
  - intros Hp json Hj. rewrite proxy_silent, offer_silent, graphql_silent; [|intros Hx; exact (Hgraph _ Hx Hp)|intros Hx; exact (Hoffer _ Hx Hp)..].
    cbn [first_some]. by rewrite openapi_speaks, Hj.
  - intros Hp yaml Hy. rewrite proxy_silent, offer_silent, graphql_silent; [|intros Hx; exact (Hgraph _ Hx Hp)|intros Hx; exact (Hoffer _ Hx Hp)..].
    cbn [first_some]. rewrite openapi_silent; [|by eapply not_request]. cbn [first_some]. by rewrite openapi_speaks, Hy.
  - intros H1 H2 H3 H4. rewrite proxy_silent, offer_silent, graphql_silent, !openapi_silent by done. cbn [first_some].
    split; [done|]. apply static_silent.
Qed.
End plugins.
