(* ===== verification/Streaming.v ===== *)
(** * [core::streaming]: the producers and the receiver of a streamed response

    [StreamingResponse::channel] with the [BodyWriter]s that send chunks and finish, possibly from
    several clones at once, and the [recv] that the connection loop calls.  The bounded channel of
    tokio is a parameter, the class [Mpsc]: a type of channels with what can be observed of one
    ([View]), its operations, and as laws what its documentation says of them.  A future is a function
    of the channel that is called at each poll.  A label is one poll of a call or one act of a
    handle; what the calls asked for and how they ended, and what [recv] returned, is recorded beside
    the channel. *)

From S2P Require Import Prelude Text Radix Extensions ServerConfig.

(** ** [tokio::sync::mpsc] *)

(** What is queued, for how many there is room, whether the receiver was dropped, how many senders
    there are, and which sends were polled and wait. *)
Record View (A : Type) := {
  v_queue : list A;
  v_capacity : N;
  v_closed : bool;
  v_senders : nat;
  v_waiting : gset nat;
}.
Arguments Build_View {A} _ _ _ _ _.
Arguments v_queue {A} _.
Arguments v_capacity {A} _.
Arguments v_closed {A} _.
Arguments v_senders {A} _.
Arguments v_waiting {A} _.

Definition view_senders {A} (n : nat) (v : View A) : View A :=
  {| v_queue := v_queue v; v_capacity := v_capacity v; v_closed := v_closed v; v_senders := n; v_waiting := v_waiting v |}.
Definition view_queue {A} (q : list A) (v : View A) : View A :=
  {| v_queue := q; v_capacity := v_capacity v; v_closed := v_closed v; v_senders := v_senders v; v_waiting := v_waiting v |}.
Definition view_waiting {A} (w : gset nat) (v : View A) : View A :=
  {| v_queue := v_queue v; v_capacity := v_capacity v; v_closed := v_closed v; v_senders := v_senders v; v_waiting := w |}.
Definition view_closed {A} (v : View A) : View A :=
  {| v_queue := []; v_capacity := v_capacity v; v_closed := true; v_senders := v_senders v; v_waiting := v_waiting v |}.

(** A poll of the send [id] of [a]: it fails once the receiver is gone, it can only succeed while
    there is room, and it waits while there is none or others wait. *)
Inductive send_polled {A} (id : nat) (a : A) (v : View A) : option (result unit A) → View A → Prop :=
| send_closed : v_closed v = true →
    send_polled id a v (Some (Err a)) (view_waiting (v_waiting v ∖ {[ id ]}) v)
| send_room : v_closed v = false → (len (v_queue v) < v_capacity v)%N →
    send_polled id a v (Some (Ok tt)) (view_queue (v_queue v ++ [a]) (view_waiting (v_waiting v ∖ {[ id ]}) v))
| send_waits : v_closed v = false → (v_capacity v <= len (v_queue v))%N ∨ (∃ id', id' ≠ id ∧ id' ∈ v_waiting v) →
    send_polled id a v None (view_waiting ({[ id ]} ∪ v_waiting v) v).

(** A poll of [Receiver::recv]: the oldest value, the end once no sender is left, or pending. *)
Inductive recv_polled {A} (v : View A) : option (option A) → View A → Prop :=
| recv_value a q : v_queue v = a :: q → recv_polled v (Some (Some a)) (view_queue q v)
| recv_end : v_queue v = [] → v_senders v = 0 → recv_polled v (Some None) v
| recv_waits : v_queue v = [] → v_senders v ≠ 0 → recv_polled v None v.

(** [Semaphore::MAX_PERMITS], beyond which [mpsc::channel] panics. *)
Definition MAX_PERMITS : N := N.shiftr u64_max 3.

Class Mpsc (A : Type) := {
  Chan : Type;
  view : Chan → View A;
  mpsc_channel : N → option Chan;
  tx_clone : Chan → Chan;
  tx_drop : Chan → Chan;
  poll_send : nat → A → Chan → option (result unit A) * Chan;
  forget_send : nat → Chan → Chan;
  poll_recv : Chan → option (option A) * Chan;
  rx_drop : Chan → Chan;

  mpsc_channel_view cap c : mpsc_channel cap = Some c → view c = Build_View [] cap false 1 ∅;
  mpsc_channel_panics cap : mpsc_channel cap = None ↔ cap = 0%N ∨ (MAX_PERMITS < cap)%N;
  tx_clone_view c : view (tx_clone c) = view_senders (S (v_senders (view c))) (view c);
  tx_drop_view c : view (tx_drop c) = view_senders (pred (v_senders (view c))) (view c);
  poll_send_view id a c : send_polled id a (view c) (poll_send id a c).1 (view (poll_send id a c).2);
  forget_send_view id c : view (forget_send id c) = view_waiting (v_waiting (view c) ∖ {[ id ]}) (view c);
  poll_recv_view c : v_closed (view c) = false → recv_polled (view c) (poll_recv c).1 (view (poll_recv c).2);
  rx_drop_view c : view (rx_drop c) = view_closed (view c);
}.

(** ** [streaming.rs] *)

Definition DEFAULT_CHANNEL_CAPACITY : N := 8.

Inductive StreamClosed := StreamClosed_.

Inductive RecvOutcome :=
| RcChunk (data : bytes)
| RcEnd
| RcAborted.

Section streaming.
Context {MP : Mpsc StreamEvent}.

(** The channel of [StreamingResponse::channel], with its receiver and its first writer; none is the
    panic. *)
Definition stream_channel (cap : N) : option Chan := mpsc_channel (N.max cap 1).
Definition streaming_new : option Chan := stream_channel DEFAULT_CHANNEL_CAPACITY.

(** The error of a send is dropped with the value it gives back. *)
Definition closed_err (r : result unit StreamEvent) : result unit StreamClosed := map_err (λ _, StreamClosed_) r.

(** A poll of [BodyWriter::send], and of [BodyWriter::finish], which owns its writer and drops it
    when it returns. *)
Definition writer_send (id : nat) (data : bytes) (c : Chan) : option (result unit StreamClosed) * Chan :=
  let '(r, c) := poll_send id (StreamChunk data) c in (closed_err <$> r, c).
Definition writer_finish (id : nat) (c : Chan) : option (result unit StreamClosed) * Chan :=
  match poll_send id StreamEnd c with
  | (Some r, c) => (Some (closed_err r), tx_drop c)
  | (None, c) => (None, c)
  end.

(** A poll of [StreamingResponse::recv]. *)
Definition stream_recv (c : Chan) : option RecvOutcome * Chan :=
  match poll_recv c with
  | (Some (Some (StreamChunk data)), c) => (Some (RcChunk data), c)
  | (Some (Some StreamEnd), c) => (Some RcEnd, c)
  | (Some None, c) => (Some RcAborted, c)
  | (None, c) => (None, c)
  end.

(** ** Writers at work *)

(** What a caller asks for. *)
Inductive Request := RqSend (data : bytes) | RqFinish.
(** A call with the writer that it borrows, or consumed. *)
Record WriterCall := { c_writer : nat; c_request : Request }.

Definition call_poll (id : nat) (rq : Request) (c : Chan) : option (result unit StreamClosed) * Chan :=
  match rq with RqSend data => writer_send id data c | RqFinish => writer_finish id c end.
(** A call that is dropped before it returned. *)
Definition call_drop (id : nat) (rq : Request) (c : Chan) : Chan :=
  match rq with RqSend _ => forget_send id c | RqFinish => tx_drop (forget_send id c) end.

Record StreamState := {
  chan : Chan;
  writers : gset nat;
  calls : gmap nat WriterCall;
  rx_dropped : bool;
  (** The calls that returned, with their results, and what [recv] returned, both in order. *)
  results : list (Request * result unit StreamClosed);
  outcomes : list RecvOutcome;
}.

Definition stream_start (cap : N) : option StreamState :=
  let! c := stream_channel cap else None in
  Some {| chan := c; writers := {[ 0 ]}; calls := ∅; rx_dropped := false; results := []; outcomes := [] |}.

Definition set_chan (c : Chan) (s : StreamState) : StreamState :=
  {| chan := c; writers := writers s; calls := calls s; rx_dropped := rx_dropped s; results := results s; outcomes := outcomes s |}.
Definition set_writers (ws : gset nat) (s : StreamState) : StreamState :=
  {| chan := chan s; writers := ws; calls := calls s; rx_dropped := rx_dropped s; results := results s; outcomes := outcomes s |}.
Definition set_calls (cs : gmap nat WriterCall) (s : StreamState) : StreamState :=
  {| chan := chan s; writers := writers s; calls := cs; rx_dropped := rx_dropped s; results := results s; outcomes := outcomes s |}.
Definition add_result (rq : Request) (r : result unit StreamClosed) (s : StreamState) : StreamState :=
  {| chan := chan s; writers := writers s; calls := calls s; rx_dropped := rx_dropped s; results := results s ++ [(rq, r)];
     outcomes := outcomes s |}.
Definition add_outcome (o : RecvOutcome) (s : StreamState) : StreamState :=
  {| chan := chan s; writers := writers s; calls := calls s; rx_dropped := rx_dropped s; results := results s;
     outcomes := outcomes s ++ [o] |}.
Definition set_rx_dropped (s : StreamState) : StreamState :=
  {| chan := chan s; writers := writers s; calls := calls s; rx_dropped := true; results := results s; outcomes := outcomes s |}.

(** No call borrows the writer. *)
Definition unborrowed (w : nat) (s : StreamState) : bool := bool_decide (map_Forall (λ _ c, c_writer c ≠ w) (calls s)).
Definition unused (id : nat) (s : StreamState) : bool := bool_decide (calls s !! id = None).
Definition alive (w : nat) (s : StreamState) : bool := bool_decide (w ∈ writers s).

Inductive Label :=
| LSend (id w : nat) (data : bytes)
| LFinish (id w : nat)
| LClone (w w' : nat)
| LDropWriter (w : nat)
| LPoll (id : nat)
| LAbandon (id : nat)
| LRecv
| LRxDrop.

Definition guard_step (b : bool) (s : StreamState) : option StreamState := if b then Some s else None.

Definition apply (l : Label) (s : StreamState) : option StreamState :=
  match l with
  | LSend id w data =>
      guard_step (alive w s && unused id s)
        (set_calls (<[ id := {| c_writer := w; c_request := RqSend data |} ]> (calls s)) s)
  | LFinish id w =>
      guard_step (alive w s && unborrowed w s && unused id s)
        (set_writers (writers s ∖ {[ w ]}) (set_calls (<[ id := {| c_writer := w; c_request := RqFinish |} ]> (calls s)) s))
  | LClone w w' =>
      guard_step (alive w s && negb (alive w' s)) (set_writers ({[ w' ]} ∪ writers s) (set_chan (tx_clone (chan s)) s))
  | LDropWriter w =>
      guard_step (alive w s && unborrowed w s) (set_writers (writers s ∖ {[ w ]}) (set_chan (tx_drop (chan s)) s))
  | LPoll id =>
      let! call := calls s !! id else None in
      match call_poll id (c_request call) (chan s) with
      | (Some r, c) => Some (add_result (c_request call) r (set_calls (delete id (calls s)) (set_chan c s)))
      | (None, c) => Some (set_chan c s)
      end
  | LAbandon id =>
      let! call := calls s !! id else None in
      Some (set_calls (delete id (calls s)) (set_chan (call_drop id (c_request call) (chan s)) s))
  | LRecv =>
      if rx_dropped s then None
      else match stream_recv (chan s) with
           | (Some o, c) => Some (add_outcome o (set_chan c s))
           | (None, c) => Some (set_chan c s)
           end
  | LRxDrop => guard_step (negb (rx_dropped s)) (set_rx_dropped (set_chan (rx_drop (chan s)) s))
  end.

Fixpoint run (ls : list Label) (s : StreamState) : option StreamState :=
  match ls with
  | [] => Some s
  | l :: ls => let! s := apply l s else None in run ls s
  end.
End streaming.
