(* ===== verification/StreamingSpec.v ===== *)
(** * What a streamed response carries

    For every channel that keeps tokio's promises and every interleaving of writers, polls, receives
    and drops: [recv] returns, in order, what the calls that returned [Ok] asked for, and the response is
    complete exactly with the chunks sent before the first [finish]. *)

From S2P Require Import Prelude Text Radix Extensions ServerConfig ServerSpec Streaming.

#[export] Instance Request_eq_dec : EqDecision Request.
Proof. solve_decision. Defined.

Section streaming.
Context {MP : Mpsc StreamEvent}.

(** ** What is asked for and what is observed *)

Definition event_of (rq : Request) : StreamEvent := match rq with RqSend data => StreamChunk data | RqFinish => StreamEnd end.
Definition outcome_of (rq : Request) : RecvOutcome := match rq with RqSend data => RcChunk data | RqFinish => RcEnd end.

(** The requests of the calls that returned [Ok], in the order in which they returned. *)
Definition accepted (s : StreamState) : list Request :=
  omap (λ p, match p.2 with Ok _ => Some p.1 | Err _ => None end) (results s).

(** What [recv] returned as the connection loop reads it ([s_rx] of Server.v). *)
Definition rx_event (o : RecvOutcome) : option StreamEvent :=
  match o with RcChunk data => Some (StreamChunk data) | RcEnd => Some StreamEnd | RcAborted => None end.

Definition finishing (s : StreamState) : gmap nat WriterCall := filter (λ p, c_request p.2 = RqFinish) (calls s).

Record flow (s : StreamState) (delivered waiting left : list Request) (aborts : nat) : Prop := {
  fl_accepted : accepted s = delivered ++ waiting ++ left;
  fl_outcomes : outcomes s = (outcome_of <$> delivered) ++ replicate aborts RcAborted;
  fl_queue : v_queue (view (chan s)) = event_of <$> waiting;
  fl_left : rx_dropped s = false → left = [];
  fl_aborts : aborts ≠ 0 → writers s = ∅ ∧ calls s = ∅ ∧ waiting = [];
}.

Record inv (cap : N) (s : StreamState) : Prop := {
  inv_flow : ∃ delivered waiting left aborts, flow s delivered waiting left aborts;
  inv_capacity : v_capacity (view (chan s)) = cap;
  inv_bounded : (len (v_queue (view (chan s))) <= cap)%N;
  inv_closed : v_closed (view (chan s)) = rx_dropped s;
  inv_gone : rx_dropped s = true → v_queue (view (chan s)) = [];
  inv_senders : v_senders (view (chan s)) = size (writers s) + size (finishing s);
  inv_borrow : ∀ id c, calls s !! id = Some c → c_request c = RqFinish ∨ c_writer c ∈ writers s;
  inv_waits : v_waiting (view (chan s)) ⊆ dom (calls s);
  inv_refused : ∀ rq e, (rq, Err e) ∈ results s → rx_dropped s = true;
}.

Lemma guard_step_Some b s s' : guard_step b s = Some s' ↔ b = true ∧ s' = s.
Proof. destruct b; cbn; naive_solver. Qed.
Lemma unborrowed_spec w s : unborrowed w s = true ↔ ∀ id c, calls s !! id = Some c → c_writer c ≠ w.
Proof. apply bool_decide_eq_true. Qed.

(** ** The code over the channel *)

Lemma call_poll_view id rq c r c' :
  call_poll id rq c = (r, c') →
  ∃ v, send_polled id (event_of rq) (view c) (match r with Some (Ok _) => Some (Ok tt) | Some (Err _) => Some (Err (event_of rq)) | None => None end) v
    ∧ view c' = (if bool_decide (rq = RqFinish ∧ is_Some r) then view_senders (pred (v_senders v)) v else v).
Proof.
  intros H. exists (view (poll_send id (event_of rq) c).2). pose proof (poll_send_view id (event_of rq) c) as Hs.
  destruct rq as [data|]; cbn [call_poll event_of] in *; unfold writer_send, writer_finish in *.
  - destruct (poll_send id (StreamChunk data) c) as [o c1]. injection H as <- <-. cbn in *.
    rewrite bool_decide_false by (by intros [[=] _]). split; [|done].
    destruct o as [[[]|e]|]; cbn in *; try exact Hs.
    assert (e = StreamChunk data) as -> by (by inversion Hs). exact Hs.
  - destruct (poll_send id StreamEnd c) as [[o|] c1]; injection H as <- <-; cbn in *.
    + rewrite tx_drop_view. split; [|done]. destruct o as [[]|e]; cbn; try exact Hs.
      assert (e = StreamEnd) as -> by (by inversion Hs). exact Hs.
    + rewrite bool_decide_false by (by intros [_ [? [=]]]). by split.
Qed.

Lemma call_drop_view id rq c :
  view (call_drop id rq c) =
    view_waiting (v_waiting (view c) ∖ {[ id ]})
      (if bool_decide (rq = RqFinish) then view_senders (pred (v_senders (view c))) (view c) else view c).
Proof. destruct rq; cbn; by rewrite ?tx_drop_view, forget_send_view. Qed.

Lemma stream_recv_view c o c' :
  v_closed (view c) = false → stream_recv c = (o, c') →
  (∃ rq q, v_queue (view c) = event_of rq :: q ∧ o = Some (outcome_of rq) ∧ view c' = view_queue q (view c))
  ∨ v_queue (view c) = [] ∧ view c' = view c
    ∧ (o = Some RcAborted ∧ v_senders (view c) = 0 ∨ o = None ∧ v_senders (view c) ≠ 0).
Proof.
  intros Hc. pose proof (poll_recv_view c Hc) as Hr. unfold stream_recv.
  destruct (poll_recv c) as [[[[data|]|]|] c1]; intros [= <- <-]; cbn in *; inversion Hr as [a q Hq E1 E2|Hq Hz E1 E2|Hq Hz E1 E2];
    subst; eauto 8.
  - left. by exists (RqSend data), q.
  - left. by exists RqFinish, q.
Qed.

(** ** The invariant *)

Lemma inv_body_start cap s : stream_start cap = Some s → inv (N.max cap 1) s ∧ accepted s = [].
Proof.
  unfold stream_start, stream_channel. destruct (mpsc_channel _) as [c|] eqn:Hc; [|done]. intros [= <-].
  apply mpsc_channel_view in Hc. split; [|done]. split; cbn; rewrite ?Hc; cbn; try done.
  - exists [], [], [], 0. split; cbn; try done. by rewrite Hc.
  - unfold len. cbn. lia.
  - intros rq e H. by apply elem_of_nil in H.
Qed.

(** Steps that change neither the results nor the outcomes nor the queue. *)
Lemma inv_quiet cap s s' v :
  inv cap s → (∀ d w l n, flow s d w l n → n = 0) →
  results s' = results s → outcomes s' = outcomes s → rx_dropped s' = rx_dropped s →
  view (chan s') = v → v_queue v = v_queue (view (chan s)) → v_capacity v = v_capacity (view (chan s)) →
  v_closed v = v_closed (view (chan s)) → v_senders v = size (writers s') + size (finishing s') →
  (∀ id c, calls s' !! id = Some c → c_request c = RqFinish ∨ c_writer c ∈ writers s') →
  v_waiting v ⊆ dom (calls s') → inv cap s'.
Proof.
  intros [(d & w & l & n & Hfl) ? ? ? ? ? ? ? ?] Hn Hr Ho Hx Hv Hq Hc Hcl Hs Hb Hw.
  pose proof (Hn _ _ _ _ Hfl) as ->. destruct Hfl as [Ha Hou Hqu Hl _].
  split; rewrite ?Hv, ?Hq, ?Hc, ?Hcl, ?Hx, ?Hr; auto.
  exists d, w, l, 0. split; rewrite ?Hv, ?Hq, ?Ho, ?Hx; auto; [|done]. unfold accepted in *. by rewrite Hr.
Qed.

(** Nothing was told to be aborted while a writer or a call is left. *)
Lemma no_aborts s : writers s ≠ ∅ ∨ calls s ≠ ∅ → ∀ d w l n, flow s d w l n → n = 0.
Proof. intros Hne d w l n Hfl. destruct (decide (n = 0)) as [|Hn]; [done|]. destruct (fl_aborts _ _ _ _ _ Hfl Hn). naive_solver. Qed.

Lemma alive_writers w s : alive w s = true → writers s ≠ ∅.
Proof. unfold alive. intros H%bool_decide_eq_true. set_solver. Qed.

Lemma finishing_insert id c s :
  calls s !! id = None →
  size (filter (λ p, c_request p.2 = RqFinish) (<[ id := c ]> (calls s)))
  = (if bool_decide (c_request c = RqFinish) then 1 else 0) + size (finishing s).
Proof.
  intros Hn. unfold finishing. case_bool_decide as Hf.
  - rewrite map_filter_insert_True by done. rewrite map_size_insert_None; [done|]. apply map_lookup_filter_None. by left.
  - rewrite map_filter_insert_False by done. by rewrite delete_id by done.
Qed.

Lemma finishing_delete id c s :
  calls s !! id = Some c →
  size (finishing s) = (if bool_decide (c_request c = RqFinish) then 1 else 0)
    + size (filter (λ p, c_request p.2 = RqFinish) (delete id (calls s))).
Proof.
  intros Hc. unfold finishing. rewrite map_filter_delete. case_bool_decide as Hf.
  - assert (filter (λ p : nat * WriterCall, c_request p.2 = RqFinish) (calls s) !! id = Some c) as Hl by by apply map_lookup_filter_Some.
    rewrite map_size_delete_Some by eauto. assert (size (filter (λ p : nat * WriterCall, c_request p.2 = RqFinish) (calls s)) ≠ 0).
    { rewrite map_size_empty_iff. intros E. by rewrite E in Hl. } lia.
  - rewrite delete_id; [done|]. apply map_lookup_filter_None. right. intros c' Hc'. by simplify_eq.
Qed.

Lemma inv_begin cap id w rq s :
  inv cap s → alive w s = true → calls s !! id = None → (rq = RqFinish → unborrowed w s = true) →
  let ws := match rq with RqSend _ => writers s | RqFinish => writers s ∖ {[ w ]} end in
  inv cap (set_writers ws (set_calls (<[ id := {| c_writer := w; c_request := rq |} ]> (calls s)) s)).
Proof.
  intros H Hw Hid Hu ws. pose proof (no_aborts s (or_introl (alive_writers _ _ Hw))).
  unfold alive in Hw. apply bool_decide_eq_true in Hw.
  eapply inv_quiet; [exact H|done..| | |]; cbn.
  - unfold finishing at 1. cbn. rewrite finishing_insert by done. rewrite (inv_senders _ _ H). subst ws. destruct rq; cbn; [done|].
    assert (size (writers s) ≠ 0) by (intros E%size_empty_inv; set_solver).
    rewrite size_difference by set_solver. rewrite size_singleton. rewrite bool_decide_true by done. lia.
  - intros id' c' [[<- <-]|[_ Hc']]%lookup_insert_Some; [subst ws; destruct rq; auto|].
    destruct (inv_borrow _ _ H _ _ Hc') as [?|?]; [by left|]. right. subst ws. destruct rq; [done|].
    apply elem_of_difference. split; [done|]. apply not_elem_of_singleton. by apply (proj1 (unborrowed_spec w s) (Hu eq_refl) id').
  - rewrite dom_insert_L. pose proof (inv_waits _ _ H). set_solver.
Qed.

Lemma inv_clone cap w w' s :
  inv cap s → alive w s = true → alive w' s = false → inv cap (set_writers ({[ w' ]} ∪ writers s) (set_chan (tx_clone (chan s)) s)).
Proof.
  intros H Hw Hw'. pose proof (no_aborts s (or_introl (alive_writers _ _ Hw))). unfold alive in Hw'. apply bool_decide_eq_false in Hw'.
  eapply inv_quiet; [exact H|done| | | |cbn; apply tx_clone_view|..]; cbn; [done..| | |apply H].
  - rewrite (inv_senders _ _ H), size_union by set_solver. rewrite size_singleton. done.
  - intros id c Hc. destruct (inv_borrow _ _ H _ _ Hc); [by left|right; set_solver].
Qed.

Lemma inv_drop_writer cap w s :
  inv cap s → alive w s = true → unborrowed w s = true →
  inv cap (set_writers (writers s ∖ {[ w ]}) (set_chan (tx_drop (chan s)) s)).
Proof.
  intros H Hw Hu. pose proof (no_aborts s (or_introl (alive_writers _ _ Hw))). unfold alive in Hw. apply bool_decide_eq_true in Hw.
  eapply inv_quiet; [exact H|done| | | |cbn; apply tx_drop_view|..]; cbn; [done..| | |apply H].
  - assert (size (writers s) ≠ 0) by (intros E%size_empty_inv; set_solver).
    rewrite (inv_senders _ _ H), size_difference by set_solver. rewrite size_singleton. unfold finishing. cbn. lia.
  - intros id c Hc. destruct (inv_borrow _ _ H _ _ Hc) as [?|?]; [by left|]. right. apply elem_of_difference. split; [done|].
    apply not_elem_of_singleton. by apply (proj1 (unborrowed_spec w s) Hu id).
Qed.

Lemma calls_left cap id c s :
  inv cap s → calls s !! id = Some c → ∀ id' c', delete id (calls s) !! id' = Some c' → c_request c' = RqFinish ∨ c_writer c' ∈ writers s.
Proof. intros H _ id' c' [_ Hc']%lookup_delete_Some. by eapply inv_borrow. Qed.

Lemma inv_abandon cap id c s :
  inv cap s → calls s !! id = Some c →
  inv cap (set_calls (delete id (calls s)) (set_chan (call_drop id (c_request c) (chan s)) s)).
Proof.
  intros H Hc. assert (calls s ≠ ∅) as Hne by (intros E; by rewrite E in Hc). pose proof (no_aborts s (or_intror Hne)).
  eapply inv_quiet; [exact H|done| | | |cbn; apply call_drop_view|..]; cbn; try done; try (by case_bool_decide).
  - pose proof (finishing_delete id c s Hc) as Hf. pose proof (inv_senders _ _ H). unfold finishing at 1. cbn.
    case_bool_decide; cbn; lia.
  - by eapply calls_left.
  - rewrite dom_delete_L. pose proof (inv_waits _ _ H). set_solver.
Qed.

Lemma inv_pending cap id c s ch :
  inv cap s → calls s !! id = Some c → call_poll id (c_request c) (chan s) = (None, ch) → inv cap (set_chan ch s).
Proof.
  intros H Hc Hp. assert (calls s ≠ ∅) as Hne by (intros E; by rewrite E in Hc). pose proof (no_aborts s (or_intror Hne)).
  destruct (call_poll_view _ _ _ _ _ Hp) as (v & Hs & Hv). rewrite bool_decide_false in Hv by (intros [_ [? [=]]]).
  assert (v = view_waiting ({[ id ]} ∪ v_waiting (view (chan s))) (view (chan s))) as -> by (by inversion Hs).
  eapply inv_quiet; [exact H|done| | | |cbn; exact Hv|..]; cbn; try done; [apply H|apply H|].
  pose proof (inv_waits _ _ H). apply elem_of_dom_2 in Hc. set_solver.
Qed.

Lemma omap_snoc {A B} (f : A → option B) l x : omap f (l ++ [x]) = omap f l ++ match f x with Some y => [y] | None => [] end.
Proof. rewrite omap_app. cbn. by destruct (f x). Qed.

Lemma accepted_add rq r s :
  accepted (add_result rq r s) = accepted s ++ match r with Ok _ => [rq] | Err _ => [] end.
Proof. unfold accepted. cbn. rewrite omap_snoc. cbn. by destruct r. Qed.

Lemma inv_return cap id c s r ch :
  inv cap s → calls s !! id = Some c → call_poll id (c_request c) (chan s) = (Some r, ch) →
  inv cap (add_result (c_request c) r (set_calls (delete id (calls s)) (set_chan ch s))).
Proof.
  intros H Hc Hp. assert (calls s ≠ ∅) as Hne by (intros E; by rewrite E in Hc). pose proof (no_aborts s (or_intror Hne)) as Hab.
  destruct (call_poll_view _ _ _ _ _ Hp) as (v & Hs & Hv).
  assert (v_senders (view ch) = size (writers s) + size (filter (λ p, c_request p.2 = RqFinish) (delete id (calls s)))) as Hsend.
  { rewrite Hv. pose proof (finishing_delete id c s Hc). pose proof (inv_senders _ _ H).
    assert (v_senders v = v_senders (view (chan s))) as E by (inversion Hs; subst; done).
    destruct (decide (c_request c = RqFinish)); [rewrite !bool_decide_true in * by eauto|rewrite !bool_decide_false in * by naive_solver];
      cbn; lia. }
  assert (v_queue (view ch) = v_queue v ∧ v_capacity (view ch) = v_capacity v ∧ v_closed (view ch) = v_closed v
          ∧ v_waiting (view ch) = v_waiting v) as (Eq & Ec & Ex & Ew) by (rewrite Hv; by case_bool_decide).
  pose proof (calls_left _ _ _ _ H Hc) as Hbor. pose proof (inv_waits _ _ H) as Hwt.
  destruct (inv_flow _ _ H) as (d & w & l & n & Hfl). pose proof (Hab _ _ _ _ Hfl) as ->. destruct Hfl as [Ha Hou Hqu Hl _].
  destruct r as [[]|e]; inversion Hs as [Hcl E1 E2|Hcl Hroom E1 E2|Hcl Hfull E1 E2]; subst v; cbn in *.
  - rewrite (inv_closed _ _ H) in Hcl. split; cbn; rewrite ?Eq, ?Ec, ?Ex, ?Ew; cbn; try apply H; try done.
    + exists d, (w ++ [c_request c]), [], 0. split; [|exact Hou|cbn; by rewrite Eq, Hqu, fmap_app|done|done].
      rewrite accepted_add. change (accepted s ++ [c_request c] = d ++ (w ++ [c_request c]) ++ []).
      by rewrite Ha, (Hl Hcl), !app_nil_r, (assoc_L (++)).
    + rewrite (inv_capacity _ _ H) in Hroom. unfold len in *. rewrite length_app. cbn. lia.
    + congruence.
    + rewrite dom_delete_L. set_solver.
    + intros rq e [Hin|[=]%list_elem_of_singleton]%elem_of_app. by eapply (inv_refused _ _ H).
  - rewrite (inv_closed _ _ H) in Hcl. split; cbn; rewrite ?Eq, ?Ec, ?Ex, ?Ew; cbn; try apply H; try done.
    + exists d, w, l, 0. split; [|exact Hou|cbn; by rewrite Eq|exact Hl|done].
      rewrite accepted_add. change (accepted s ++ [] = d ++ w ++ l). by rewrite Ha, app_nil_r.
    + rewrite dom_delete_L. set_solver.
Qed.

Lemma no_senders cap s : inv cap s → v_senders (view (chan s)) = 0 ↔ writers s = ∅ ∧ calls s = ∅.
Proof.
  intros H. rewrite (inv_senders _ _ H). split.
  - intros E. assert (writers s ≡ ∅) as Hw%leibniz_equiv by (apply size_empty_inv; lia). split; [done|].
    apply map_empty. intros id. destruct (calls s !! id) as [c|] eqn:Hc; [|done]. exfalso.
    destruct (inv_borrow _ _ H _ _ Hc) as [Hf|Hin]; [|set_solver].
    assert (finishing s = ∅) as Hfe by (apply map_size_empty_inv; lia).
    assert (finishing s !! id = Some c) as Hl by by apply map_lookup_filter_Some. by rewrite Hfe in Hl.
  - intros [-> Hc]. unfold finishing. by rewrite Hc, map_filter_empty, size_empty.
Qed.

Lemma inv_body_recv cap s o ch :
  inv cap s → rx_dropped s = false → stream_recv (chan s) = (o, ch) →
  inv cap (match o with Some o => add_outcome o (set_chan ch s) | None => set_chan ch s end).
Proof.
  intros H Hd Hr. pose proof (inv_closed _ _ H) as Hcl. rewrite Hd in Hcl.
  destruct (inv_flow _ _ H) as (d & w & l & n & [Ha Hou Hqu Hl Hn]).
  destruct (stream_recv_view _ _ _ Hcl Hr) as [(rq & q & Hq & -> & Hv)|(Hq & Hv & Ho)].
  - rewrite Hqu in Hq. destruct w as [|rq' w]; [done|]. cbn in Hq. injection Hq as Erq <-.
    assert (rq' = rq) as -> by (destruct rq, rq'; cbn in Erq; congruence).
    assert (n = 0) as -> by (destruct (decide (n = 0)) as [|N0]; [done|]; by destruct (Hn N0) as (_ & _ & ?)).
    split; cbn; rewrite ?Hv; cbn; try apply H; try done.
    + exists (d ++ [rq]), w, l, 0. split; cbn; [|by rewrite Hou, fmap_app, !app_nil_r|by rewrite Hv|done|done].
      change (accepted s = (d ++ [rq]) ++ w ++ l). by rewrite Ha, <- (assoc_L (++)).
    + pose proof (inv_bounded _ _ H) as Hb. rewrite Hqu in Hb. unfold len in *. cbn in *. lia.
    + congruence.
  - destruct Ho as [[-> Hz]|[-> Hz]].
    + apply (no_senders _ _ H) in Hz as [Hw Hcs].
      assert (w = []) as -> by (rewrite Hqu in Hq; by destruct w).
      split; cbn; rewrite ?Hv; try apply H; try done.
      exists d, [], l, (S n). split; cbn; try done; [|by rewrite Hv, Hqu].
      rewrite Hou, <- (assoc_L (++)). f_equal. change [RcAborted] with (replicate 1 RcAborted).
      rewrite <- replicate_add. by rewrite Nat.add_comm.
    + split; cbn; rewrite ?Hv; try apply H; try done. exists d, w, l, n. split; cbn; rewrite ?Hv; auto.
Qed.

Lemma inv_body_rx_drop cap s : inv cap s → rx_dropped s = false → inv cap (set_rx_dropped (set_chan (rx_drop (chan s)) s)).
Proof.
  intros H Hd. destruct (inv_flow _ _ H) as (d & w & l & n & [Ha Hou Hqu Hl Hn]).
  split; cbn; rewrite ?rx_drop_view; cbn; try apply H; try done; [|unfold len; cbn; lia].
  exists d, [], w, n. split; cbn; try done; [|by rewrite rx_drop_view|naive_solver].
  change (accepted s = d ++ [] ++ w). by rewrite Ha, (Hl Hd), app_nil_r.
Qed.

Lemma inv_body_apply cap l s s' : inv cap s → apply l s = Some s' → inv cap s'.
Proof.
  intros H. destruct l; cbn [apply].
  - intros [[Hw Hid%bool_decide_eq_true]%andb_prop ->]%guard_step_Some. by apply (inv_begin cap id w (RqSend data) s).
  - intros [[[Hw Hu]%andb_prop Hid%bool_decide_eq_true]%andb_prop ->]%guard_step_Some. by apply (inv_begin cap id w RqFinish s).
  - intros [[Hw Hw'%negb_true_iff]%andb_prop ->]%guard_step_Some. by eapply inv_clone.
  - intros [[Hw Hu]%andb_prop ->]%guard_step_Some. by apply inv_drop_writer.
  - destruct (calls s !! id) as [c|] eqn:Hc; [|done]. destruct (call_poll _ _ _) as [[r|] ch] eqn:Hp; intros [= <-].
    + by eapply inv_return.
    + by eapply inv_pending.
  - destruct (calls s !! id) as [c|] eqn:Hc; [|done]. intros [= <-]. by apply inv_abandon.
  - destruct (rx_dropped s) eqn:Hd; [done|]. destruct (stream_recv _) as [o ch] eqn:Hr. pose proof (inv_body_recv _ _ _ _ H Hd Hr).
    destruct o; by intros [= <-].
  - intros [Hd%negb_true_iff ->]%guard_step_Some. by apply inv_body_rx_drop.
Qed.

Lemma inv_run cap ls s s' : inv cap s → run ls s = Some s' → inv cap s'.
Proof.
  revert s. induction ls as [|l ls IH]; intros s H; cbn; [by intros [= <-]|].
  destruct (apply l s) as [s1|] eqn:Hl; [|done]. apply IH. by eapply inv_body_apply.
Qed.
(** A response whose end the loop has seen is made of the requests before it. *)
Lemma complete_requests delivered aborts ds :
  stream_data (omap rx_event ((outcome_of <$> delivered) ++ replicate aborts RcAborted)) = Some ds →
  ∃ post, delivered = (RqSend <$> ds) ++ RqFinish :: post.
Proof.
  rewrite omap_app. assert (omap rx_event (replicate aborts RcAborted) = []) as -> by by induction aborts.
  rewrite app_nil_r. revert ds. induction delivered as [|[data|] delivered IH]; intros ds; cbn; [done| |].
  - intros (ds' & Hds & ->)%fmap_Some. destruct (IH _ Hds) as [post ->]. by exists post.
  - intros [= <-]. by exists delivered.
Qed.

(** C38: over every channel that keeps tokio's promises and for every interleaving of sends, finishes,
    clones, polls, drops and receives: [recv] has returned, in order, a chunk for every [send], with its
    data, and an end for every [finish], of those calls that returned [Ok], in the order in which they
    returned, and what it has not returned yet of them waits in the channel, which holds at most its
    capacity; nothing is lost unless the receiver is dropped. A call returns [Ok] only while there is
    room, an error only after the receiver was dropped, and waits only while the channel is full or
    another call waits. [recv] tells the next of the waiting requests if there is one, that the body was
    aborted exactly if there is none, no writer and no call is left, and waits otherwise. The response is
    complete exactly with the data of the sends accepted before the first [finish], which ends it
    for every other writer too. *)
Theorem body_channel_faithful cap init ls s :
  stream_start cap = Some init → run ls init = Some s →
  ∃ delivered waiting left aborts,
    accepted s = delivered ++ waiting ++ left
    ∧ outcomes s = (outcome_of <$> delivered) ++ replicate aborts RcAborted
    ∧ (len waiting <= N.max cap 1)%N ∧ (rx_dropped s = false → left = []) ∧ (rx_dropped s = true → waiting = [])
    ∧ (aborts ≠ 0 → writers s = ∅ ∧ calls s = ∅ ∧ waiting = [])
    ∧ (∀ id c, calls s !! id = Some c →
         match (call_poll id (c_request c) (chan s)).1 with
         | Some (Ok _) => rx_dropped s = false ∧ (len waiting < N.max cap 1)%N
         | Some (Err _) => rx_dropped s = true
         | None => rx_dropped s = false ∧ (len waiting = N.max cap 1 ∨ ∃ id', id' ≠ id ∧ is_Some (calls s !! id'))
         end)
    ∧ (∀ rq e, (rq, Err e) ∈ results s → rx_dropped s = true)
    ∧ (rx_dropped s = false →
         match (stream_recv (chan s)).1 with
         | Some RcAborted => waiting = [] ∧ writers s = ∅ ∧ calls s = ∅
         | Some o => ∃ rq rest, waiting = rq :: rest ∧ o = outcome_of rq
         | None => waiting = [] ∧ ¬ (writers s = ∅ ∧ calls s = ∅)
         end)
    ∧ ∀ ds, stream_data (omap rx_event (outcomes s)) = Some ds → ∃ post, accepted s = (RqSend <$> ds) ++ RqFinish :: post.
Proof.
  intros [Hinit _]%inv_body_start Hrun. pose proof (inv_run _ _ _ _ Hinit Hrun) as H.
  destruct (inv_flow _ _ H) as (d & w & l & n & [Ha Hou Hqu Hl Hn]). exists d, w, l, n.
  assert (len (v_queue (view (chan s))) = len w) as Hlen by (rewrite Hqu; unfold len; by rewrite length_fmap).
  pose proof (inv_bounded _ _ H) as Hb. rewrite Hlen in Hb. pose proof (inv_closed _ _ H) as Hc.
  split_and!; try done; try apply H.
  - intros Hd. pose proof (inv_gone _ _ H Hd) as Hq. rewrite Hqu in Hq. by destruct w.
  - intros id c Hid. destruct (call_poll id (c_request c) (chan s)) as [r c'] eqn:Hp. cbn [fst].
    destruct (call_poll_view _ _ _ _ _ Hp) as (v & Hs & _).
    destruct r as [[[]|e]|]; inversion Hs as [Hx E1 E2|Hx Hr E1 E2|Hx Hf E1 E2].
    + rewrite Hlen, (inv_capacity _ _ H) in Hr. split; [congruence|done].
    + congruence.
    + rewrite Hlen, (inv_capacity _ _ H) in Hf. split; [congruence|]. destruct Hf as [Hf|(id' & Hne & Hin)]; [left; lia|right].
      exists id'. split; [done|]. by apply elem_of_dom, (inv_waits _ _ H).
  - intros Hd. rewrite Hd in Hc. destruct (stream_recv (chan s)) as [o c'] eqn:Hr. cbn [fst].
    destruct (stream_recv_view _ _ _ Hc Hr) as [(rq & q & Hq & -> & _)|(Hq & _ & Ho)].
    + rewrite Hqu in Hq. destruct w as [|rq' w]; [done|]. injection Hq as Erq _.
      assert (rq' = rq) as -> by (destruct rq, rq'; cbn in Erq; congruence). destruct rq; cbn; by eexists _, _.
    + assert (w = []) as -> by (rewrite Hqu in Hq; by destruct w).
      destruct Ho as [[-> Hz]|[-> Hz]]; (split; [done|]); rewrite (no_senders _ _ H) in Hz; tauto.
  - intros ds Hds. rewrite Hou in Hds. destruct (complete_requests _ _ _ Hds) as [post ->].
    exists (post ++ w ++ l). by rewrite Ha, <- (assoc_L (++)).
Qed.

(** [StreamingResponse::channel] panics exactly for a capacity beyond the limit of tokio. *)
Lemma stream_start_panics cap : stream_start cap = None ↔ (MAX_PERMITS < N.max cap 1)%N.
Proof.
  unfold stream_start, stream_channel. pose proof (mpsc_channel_panics (N.max cap 1)) as Hp.
  destruct (mpsc_channel (N.max cap 1)) as [c|]; cbn; split; [done| | |done].
  - intros Hlt. by specialize (proj2 Hp (or_intror Hlt)).
  - intros _. destruct (proj1 Hp eq_refl); [lia|done].
Qed.
End streaming.

(** ** A channel and a body of two writers *)

(** The channel that lets a send in whenever there is room. *)
#[local] Program Instance eager_mpsc A : Mpsc A := {|
  Chan := View A;
  view c := c;
  mpsc_channel cap := if (cap =? 0)%N || (MAX_PERMITS <? cap)%N then None else Some (Build_View [] cap false 1 ∅);
  tx_clone c := view_senders (S (v_senders c)) c;
  tx_drop c := view_senders (pred (v_senders c)) c;
  poll_send id a c :=
    let c' := view_waiting (v_waiting c ∖ {[ id ]}) c in
    if v_closed c then (Some (Err a), c')
    else if (len (v_queue c) <? v_capacity c)%N then (Some (Ok tt), view_queue (v_queue c ++ [a]) c')
    else (None, view_waiting ({[ id ]} ∪ v_waiting c) c);
  forget_send id c := view_waiting (v_waiting c ∖ {[ id ]}) c;
  poll_recv c :=
    match v_queue c with
    | a :: q => (Some (Some a), view_queue q c)
    | [] => (if v_senders c =? 0 then Some None else None, c)
    end;
  rx_drop c := view_closed c;
|}.
Next Obligation. intros A cap c. cbn. destruct (_ || _); [done|]. by intros [= <-]. Qed.
Next Obligation.
  intros A cap. cbn. destruct (N.eqb_spec cap 0); cbn; [split; auto|]. destruct (N.ltb_spec MAX_PERMITS cap); split; auto; [done|lia].
Qed.
Next Obligation. done. Qed.
Next Obligation. done. Qed.
Next Obligation.
  intros A id a c. cbn. destruct (v_closed c) eqn:Hc; [by constructor|].
  destruct (N.ltb_spec (len (v_queue c)) (v_capacity c)); constructor; auto.
Qed.
Next Obligation. done. Qed.
Next Obligation.
  intros A c _. cbn. destruct (v_queue c) as [|a q] eqn:Hq; [|by constructor].
  destruct (Nat.eqb_spec (v_senders c) 0); by constructor.
Qed.
Next Obligation. done. Qed.

(** Writer 1, a clone of writer 0, waits for room and commits behind the [finish] of writer 0: its
    chunk is left behind although its call returned [Ok]. *)
Definition demo_labels : list Label :=
  [LClone 0 1; LSend 10 0 (lit "hello "); LSend 11 1 (lit "world"); LPoll 10; LPoll 11; LFinish 12 0; LPoll 12;
   LRecv; LPoll 12; LRecv; LSend 13 1 (lit "lost"); LPoll 13; LRecv; LRxDrop; LSend 14 1 (lit "late"); LPoll 14].
Definition demo_init : StreamState :=
  {| chan := Build_View [] 2 false 1 ∅ : Chan (A := StreamEvent); writers := {[ 0 ]}; calls := ∅; rx_dropped := false;
     results := []; outcomes := [] |}.
Definition demo_body : StreamState := default demo_init (run demo_labels demo_init).

Example demo_body_is :
  run demo_labels demo_init = Some demo_body
  ∧ outcomes demo_body = [RcChunk (lit "hello "); RcChunk (lit "world"); RcEnd]
  ∧ results demo_body = [(RqSend (lit "hello "), Ok tt); (RqSend (lit "world"), Ok tt); (RqFinish, Ok tt);
      (RqSend (lit "lost"), Ok tt); (RqSend (lit "late"), Err StreamClosed_)].
Proof. split_and!; vm_compute; reflexivity. Qed.

Lemma body_channel_faithful_witness :
  stream_start 2 = Some demo_init ∧ run demo_labels demo_init = Some demo_body
  ∧ ∃ post, accepted demo_body = (RqSend <$> [lit "hello "; lit "world"]) ++ RqFinish :: post.
Proof.
  assert (stream_start 2 = Some demo_init) as Hc by (vm_compute; reflexivity).
  assert (run demo_labels demo_init = Some demo_body) as Hr by (vm_compute; reflexivity).
  destruct (body_channel_faithful 2 demo_init demo_labels demo_body Hc Hr)
    as (d & w & l & n & _ & _ & _ & _ & _ & _ & _ & _ & _ & Hd).
  split; [exact Hc|]. split; [exact Hr|]. apply Hd. vm_compute. reflexivity.
Defined.
