(* ===== verification/Shutdown.v ===== *)
(** * [core::plugin]: the seams of a shutdown, and the server with its sessions

    [GenerationCancel], [UpgradeCancel] and [SessionDrain] carry the end of the server, or of one of
    its generations, to what outlives a connection: the WebSocket sessions, by a cancellation per
    generation, and the registry of WebRTC peers, by a drain of its own task.  A [Node] is the
    listener of Listener with the sessions of WsSession that its upgrades started, the registry of
    WebRtc, and the drain tasks that are still to run; its steps are the steps of these parts,
    tied by the seams.  All sessions here are of one endpoint. *)

From stdpp Require Import relations.
From S2P Require Import Prelude Text Utf8 Radix Extensions Request Response Gate ServerConfig Server.
From S2P Require Import WsPattern WsChannel WsConfig WsSession WsSessionSpec.
From S2P Require Import NetAddr WebRtc WebRtcInv WebRtcSpec Listener.

(** ** Cancellation handles *)

(** A subscription to the cell of a generation, or [UpgradeCancel::disabled]. *)
Definition UpgradeCancel : Type := option nat.
Definition cancel_handle (s : Listening) : UpgradeCancel := Some (current_cancel s).
Definition cancel_disabled : UpgradeCancel := None.
(** Whether [into_future] is ready: [wait_for] looks at the current value first. *)
Definition cancel_ready (s : Listening) (c : UpgradeCancel) : bool :=
  match c with Some c => bool_decide (cancels s !! c = Some true) | None => false end.

Definition SESSION_DRAIN_CLOSE_TIMEOUT : Duration := from_secs 5.

(** ** What a step of the listener keeps *)

Definition keeps (s s' : Listening) : Prop :=
  sessions s' = sessions s ∧ cancels s' = cancels s ∧ next s ≤ next s'.
#[local] Instance keeps_preorder : PreOrder keeps.
Proof. split; unfold keeps; [by intros s|intros s1 s2 s3 (? & ? & ?) (? & ? & ?); split_and!; [congruence..|lia]]. Qed.

Lemma poll_accept_fut_keeps r s : keeps s (poll_accept_fut r s).1.
Proof.
  unfold poll_accept_fut, poll_listener. destruct (accept_fut s).
  - destruct (_ =? _)%N; [done|]. by destruct (ready_accept r).
  - by destruct (ready_accept r).
  - by destruct (ready_slept r).
Qed.
Lemma race_keeps r s : keeps s (race_shutdown_or_accept r s).1.
Proof.
  unfold race_shutdown_or_accept. destruct (ready_shutdown r); [done|]. destruct (ready_rebind r) as [[]|]; [done|].
  pose proof (poll_accept_fut_keeps r s) as H. by destruct (poll_accept_fut r s) as [s1 []].
Qed.
Lemma spawn_all_keeps peers s : keeps s (spawn_all peers s).
Proof.
  revert s. induction peers as [|p peers IH]; intros s; cbn; [done|]. etrans; [|apply IH].
  unfold keeps, spawn. cbn. auto with lia.
Qed.

(** A cancellation that fired stays so, and only upgrades and their ends change the sessions. *)
Definition tells (s s' : Listening) : Prop :=
  sessions s' = sessions s ∧ ∀ c, cancels s !! c = Some true → cancels s' !! c = Some true.
Lemma keeps_tells s s' : keeps s s' → tells s s'.
Proof. intros (? & Hc & _). split; [done|]. intros c. by rewrite Hc. Qed.
Lemma fire_tells c s s' : keeps s s' → tells s (fire c s').
Proof.
  intros (? & Hc & _). split; [done|]. intros c' Ht. cbn. rewrite Hc. destruct (decide (c = c')) as [<-|?].
  - by rewrite lookup_insert_eq.
  - by rewrite lookup_insert_ne.
Qed.

Lemma turn_tells max r s : Listener.reachable max s → tells s (turn r s).
Proof.
  intros I%inv_reachable. unfold turn.
  assert (keeps s (race_shutdown_or_accept r (reap s)).1) as Hk by (etrans; [|apply race_keeps]; done).
  destruct (race_shutdown_or_accept r (reap s)) as [s1 [[|l backlog|[peer|]]|]]; cbn in *; try by apply keeps_tells.
  - by apply (fire_tells (current_cancel s1)) in Hk.
  - unfold on_rebind. destruct (drain_listener_backlog_spec REBIND_BACKLOG_DRAIN_LIMIT backlog
      (set_flag (current_shutdown_flag s1) s1)) as (peers & -> & _).
    set (s2 := set_limit _ _). pose proof (spawn_all_keeps peers s2) as Hs.
    assert (keeps s (spawn_all peers s2)) as (H1 & H2 & H3) by (by etrans). clearbody s2.
    split; [done|]. intros c Hc. cbn. rewrite lookup_insert_ne, H2; [done|].
    apply (inv_cancels_fresh _ _ _ _ I) in Hc. lia.
  - apply keeps_tells. etrans; [exact Hk|]. unfold keeps, spawn. cbn. auto with lia.
Qed.

Definition session_label (l : Listener.Label) : bool :=
  match l with LUpgrade _ | LSessionEnd _ => true | _ => false end.

Lemma apply_tells max l s s' :
  Listener.reachable max s → Listener.apply l s = Some s' → session_label l = false → tells s s'.
Proof.
  intros Hr E Hl. destruct l as [r|t|t|t|d|d|d| | | |]; try done; cbn [Listener.apply] in E.
  - destruct (phase s); try done. injection E as <-. by eapply turn_tells.
  - destruct (tasks s !! t); [|done]. by injection E as <-.
  - destruct (drains s !! d) as [[js c []]|]; [done| |done]. injection E as <-. by apply (fire_tells c s s).
  - destruct (drains s !! d) as [dr|]; [|done]. destruct (_ && _); [|done]. by injection E as <-.
  - destruct (drains s !! d) as [dr|]; [|done]. destruct (d_fired dr); [|done]. by injection E as <-.
  - destruct (phase s); try done. destruct (_ <=? _)%N; [|done]. by injection E as <-.
  - destruct (phase s); try done. destruct (ended _ _); [|done]. by injection E as <-.
  - destruct (phase s); try done. by injection E as <-.
  - destruct (phase s); try done; injection E as <-; by apply (fire_tells (current_cancel s) s s).
Qed.

Section node.
Context {AT : AnyTypes} {MM : Memmem} {WC : WebRtcCrate}.
Context (ws_config : WsConfig) (webrtc : option WebRtc.WebRtcConfig).

(** A task that [SessionDrain::fire] spawned, before its first step or between the two calls of
    [drain_for_shutdown]. *)
Inductive DrainTask :=
| DrainSpawned (is_final : bool)
| DrainBegun.

Record Node := {
  listening : Listening;
  ws : gmap nat Session;
  rtc : option World;
  spawned : list DrainTask;
  (** What happened to the registry so far. *)
  rtc_events : list Event;
}.

Definition node_init (max_connections : N) : Node :=
  {| listening := bind max_connections; ws := ∅; rtc := WebRtc.init <$> webrtc; spawned := []; rtc_events := [] |}.

Definition set_listening (l : Listening) (n : Node) : Node :=
  {| listening := l; ws := ws n; rtc := rtc n; spawned := spawned n; rtc_events := rtc_events n |}.
Definition set_ws (m : gmap nat Session) (n : Node) : Node :=
  {| listening := listening n; ws := m; rtc := rtc n; spawned := spawned n; rtc_events := rtc_events n |}.
Definition set_spawned (ts : list DrainTask) (n : Node) : Node :=
  {| listening := listening n; ws := ws n; rtc := rtc n; spawned := ts; rtc_events := rtc_events n |}.

(** [SessionDrain::fire]: nothing without the plugin. *)
Definition session_drain_fire (is_final : bool) (n : Node) : Node :=
  match webrtc with
  | Some _ => set_spawned (spawned n ++ [DrainSpawned is_final]) n
  | None => n
  end.

Definition accepting (s : Listening) : bool := match phase s with Accepting => true | _ => false end.
Definition draining (s : Listening) : bool := match phase s with Draining => true | _ => false end.

(** A step of the listener: shutdown fires the drain of the sessions, and so does the start of the
    drain of a replaced generation. *)
Definition listener_step (l : Listener.Label) (n : Node) : option Node :=
  let! s := Listener.apply l (listening n) else None in
  let n' := set_listening s n in
  match l with
  | LUpgrade _ | LSessionEnd _ => None
  | LTurn _ => Some (if draining s then session_drain_fire true n' else n')
  | LDrainFire _ => Some (session_drain_fire false n')
  | _ => Some n'
  end.

(** The connection becomes a session, whose end gives the permit back. *)
Definition upgrade (t : nat) (now : Instant) (n : Node) : option Node :=
  let! s := Listener.apply (LUpgrade t) (listening n) else None in
  Some (set_ws (<[ t := session_init ws_config now ]> (ws n)) (set_listening s n)).
Definition session_over (s : Session) : bool :=
  match pc s with PReturned _ | PPanicked => true | _ => false end.
Definition session_end (t : nat) (n : Node) : option Node :=
  let! s := ws n !! t else None in
  if session_over s then
    let! l := Listener.apply (LSessionEnd t) (listening n) else None in
    Some (set_ws (delete t (ws n)) (set_listening l n))
  else None.

(** The cancellation of the session that [t] became. *)
Definition fired (t : nat) (n : Node) : bool :=
  match sessions (listening n) !! t with
  | Some task => cancel_ready (listening n) (Some (t_cancel task))
  | None => false
  end.
Definition told_cancel (t : nat) (n : Node) (s : Session) : Session :=
  if fired t n then set_time (clock s) true s else s.
Definition ws_step (t : nat) (l : SLabel) (n : Node) : option Node :=
  let! s := ws n !! t else None in
  let! s' := match l with
             | SCancel => None
             | SPoll w => Some (poll ws_config w (told_cancel t n s))
             | l => session_apply ws_config l s
             end else None in
  Some (set_ws (<[ t := s' ]> (ws n)) n).

(** An event of the registry. *)
Definition rtc_do (e : Event) (n : Node) : option Node :=
  let! w := rtc n else None in
  let! w' := WebRtc.step e w else None in
  Some {| listening := listening n; ws := ws n; rtc := Some w'; spawned := spawned n;
          rtc_events := rtc_events n ++ [e] |}.
Definition is_drain (e : Event) : bool := match e with BeginDrain | ClosePeers => true | _ => false end.
(** A step of a drain task. *)
Definition drain_step (i : nat) (n : Node) : option Node :=
  match spawned n !! i with
  | Some (DrainSpawned true) => rtc_do BeginDrain (set_spawned (<[ i := DrainBegun ]> (spawned n)) n)
  | Some (DrainSpawned false) | Some DrainBegun => rtc_do ClosePeers (set_spawned (delete i (spawned n)) n)
  | None => None
  end.

Inductive NodeLabel :=
| NListener (l : Listener.Label)
| NUpgrade (t : nat) (now : Instant)
| NSession (t : nat) (l : SLabel)
| NSessionEnd (t : nat)
| NRtc (e : Event)
| NDrain (i : nat).

Definition node_apply (l : NodeLabel) (n : Node) : option Node :=
  match l with
  | NListener l => listener_step l n
  | NUpgrade t now => if (now <=? instant_max)%N then upgrade t now n else None
  | NSession t l => ws_step t l n
  | NSessionEnd t => session_end t n
  | NRtc e => if is_drain e then None else rtc_do e n
  | NDrain i => drain_step i n
  end.

Fixpoint node_run (ls : list NodeLabel) (n : Node) : option Node :=
  match ls with
  | [] => Some n
  | l :: ls => let! n := node_apply l n else None in node_run ls n
  end.

(** ** The invariant *)

Definition session_fine (n : Node) (t : nat) (s : Session) : Prop :=
  (∃ now, (now <= instant_max)%N ∧ session_reachable ws_config now s)
  ∧ (cancelled s = true → fired t n = true).

(** The final drain is to run, has begun, or has left no peer. *)
Definition drained (n : Node) (w : World) : Prop :=
  DrainSpawned true ∈ spawned n
  ∨ (terminal_draining w = true ∧ (DrainBegun ∈ spawned n ∨ actives w = [])).
Definition undrained (n : Node) (w : World) : Prop :=
  (DrainSpawned true ∉ spawned n) ∧ (DrainBegun ∉ spawned n) ∧ terminal_draining w = false.

Definition left_by_shutdown (s : Listening) : bool :=
  match phase s with Draining | Joining | Returned => true | _ => false end.

Record node_inv (max : N) (n : Node) : Prop := {
  ni_listener : Listener.reachable max (listening n);
  ni_dom : dom (ws n) = dom (sessions (listening n));
  ni_sessions : ∀ t s, ws n !! t = Some s → session_fine n t s;
  ni_rtc : match webrtc with
           | Some cfg => ∃ w, rtc n = Some w ∧ WebRtc.run (rtc_events n) (WebRtc.init cfg) = Some w
           | None => rtc n = None ∧ spawned n = []
           end;
  ni_accepting : ∀ w, rtc n = Some w → accepting (listening n) = true → undrained n w;
  ni_shutdown : ∀ w, rtc n = Some w → left_by_shutdown (listening n) = true → drained n w;
}.

Lemma node_inv_init max : node_inv max (node_init max).
Proof.
  split; cbn.
  - apply rtc_refl.
  - done.
  - intros t s Hs. by rewrite lookup_empty in Hs.
  - by destruct webrtc; [eexists|split].
  - intros w Hw _. apply fmap_Some in Hw as (cfg & _ & ->). unfold undrained. cbn.
    rewrite !elem_of_nil. naive_solver.
  - done.
Qed.

Lemma session_fine_mono n n' t s :
  (fired t n = true → fired t n' = true) → session_fine n t s → session_fine n' t s.
Proof. intros Hf [? Hc]. split; auto. Qed.

Lemma fired_tells t n n' : tells (listening n) (listening n') → fired t n = true → fired t n' = true.
Proof.
  unfold fired, cancel_ready. intros [-> Hc]. destruct (sessions (listening n) !! t); [|done].
  rewrite !bool_decide_eq_true. apply Hc.
Qed.

(** The phases of a step of the listener. *)
Lemma step_phases max l s s' :
  Listener.reachable max s → Listener.apply l s = Some s' →
  (accepting s' = true → accepting s = true)
  ∧ (left_by_shutdown s' = true → left_by_shutdown s = true ∨ (∃ r, l = LTurn r) ∧ draining s' = true)
  ∧ ((∃ r, l = LTurn r) → accepting s' = negb (draining s')).
Proof.
  intros Hr E. pose proof (inv_reachable _ _ Hr) as I. split_and!.
  - unfold accepting. destruct (phase s') eqn:Hp'; [intros _|done..].
    destruct (decide (phase s = Accepting)) as [->|Hp]; [done|].
    by destruct (stopping_step s s' (ex_intro _ l E) Hp) as [[] _].
  - destruct l as [r|t|t|t|d|d|d| | | |]; cbn [Listener.apply] in E.
    { destruct (phase s) eqn:Hp; try done. injection E as <-. unfold stopped in I. rewrite Hp in I.
      unfold left_by_shutdown, draining. destruct (turn_phase _ r s I Hp) as [->| ->]; [done|]. right. eauto. }
    all: intros H; left; revert H; unfold left_by_shutdown; repeat case_match; simplify_eq/=; try done; congruence.
  - intros [r ->]. cbn in E. destruct (phase s) eqn:Hp; try done. injection E as <-.
    unfold stopped in I. rewrite Hp in I. unfold accepting, draining.
    by destruct (turn_phase _ r s I Hp) as [->| ->].
Qed.

Lemma reachable_step max l s s' : Listener.reachable max s → Listener.apply l s = Some s' → Listener.reachable max s'.
Proof. intros Hr E. eapply rtc_r; [exact Hr|by exists l]. Qed.

Lemma drain_fire_fields b n :
  listening (session_drain_fire b n) = listening n ∧ ws (session_drain_fire b n) = ws n
  ∧ rtc (session_drain_fire b n) = rtc n ∧ rtc_events (session_drain_fire b n) = rtc_events n
  ∧ spawned (session_drain_fire b n) = spawned n ++ match webrtc with Some _ => [DrainSpawned b] | None => [] end.
Proof. unfold session_drain_fire. destruct webrtc; cbn; [done|]. by rewrite app_nil_r. Qed.

(** A step of the listener fires [d] drains. *)
Lemma listener_step_Some l n n' :
  listener_step l n = Some n' →
  ∃ s d, Listener.apply l (listening n) = Some s ∧ session_label l = false
    ∧ listening n' = s ∧ ws n' = ws n ∧ rtc n' = rtc n ∧ rtc_events n' = rtc_events n
    ∧ spawned n' = spawned n ++ match webrtc with Some _ => DrainSpawned <$> d | None => [] end
    ∧ match l with
      | LTurn _ => d = if draining s then [true] else []
      | LDrainFire _ => d = [false]
      | _ => d = []
      end.
Proof.
  unfold listener_step. destruct (Listener.apply l (listening n)) as [s|] eqn:E; [|done].
  assert (∀ b, let n1 := session_drain_fire b (set_listening s n) in
    listening n1 = s ∧ ws n1 = ws n ∧ rtc n1 = rtc n ∧ rtc_events n1 = rtc_events n
    ∧ spawned n1 = spawned n ++ match webrtc with Some _ => DrainSpawned <$> [b] | None => [] end) as Hf.
  { intros b. cbn zeta. destruct (drain_fire_fields b (set_listening s n)) as (-> & -> & -> & -> & ->). by destruct webrtc. }
  assert (spawned n = spawned n ++ match webrtc with Some _ => DrainSpawned <$> [] | None => [] end) as Hnil.
  { destruct webrtc; cbn; by rewrite app_nil_r. }
  destruct l as [r|t|t|t|d|d|d| | | |]; try done; intros [= <-].
  3: { exists s, [false]. destruct (Hf false) as (? & ? & ? & ? & ?). by split_and!. }
  1: destruct (draining s) eqn:Hd; [exists s, [true]; rewrite Hd; destruct (Hf true) as (? & ? & ? & ? & ?); by split_and!|].
  all: exists s, []; rewrite ?Hd; split_and!; done.
Qed.

Lemma inv_listener_step max l n n' : node_inv max n → listener_step l n = Some n' → node_inv max n'.
Proof.
  intros I (s & d & E & Hl & Hs & Hws & Hrtc & Hev & Hsp & Hd)%listener_step_Some. destruct I as [I1 I2 I3 I4 I5 I6].
  pose proof (apply_tells _ _ _ _ I1 E Hl) as Ht. destruct (step_phases _ _ _ _ I1 E) as (Ha & Hsh & Hturn).
  split.
  - rewrite Hs. by eapply reachable_step.
  - rewrite Hws, Hs, I2. by rewrite (proj1 Ht).
  - intros t s0. rewrite Hws. intros H0. eapply session_fine_mono; [|by apply I3].
    apply fired_tells. by rewrite Hs.
  - rewrite Hrtc, Hev, Hsp. destruct webrtc; [done|]. by rewrite app_nil_r.
  - rewrite Hrtc, Hs. intros w Hw Hacc. destruct (I5 w Hw (Ha Hacc)) as (H1 & H2 & H3).
    unfold undrained. rewrite Hsp, !not_elem_of_app. split_and!; try done; destruct webrtc; try (by apply not_elem_of_nil).
    + intros (b & Hb & Hin)%list_elem_of_fmap. destruct l; subst d; try (by apply elem_of_nil in Hin).
      * rewrite Hturn in Hacc by eauto. apply negb_true_iff in Hacc. rewrite Hacc in Hin. by apply elem_of_nil in Hin.
      * apply list_elem_of_singleton in Hin. congruence.
    + intros (b & Hb & _)%list_elem_of_fmap. done.
  - rewrite Hrtc, Hs. intros w Hw Hleft. unfold drained. rewrite Hsp.
    destruct (Hsh Hleft) as [H0|[[r ->] Hdr]].
    + destruct (I6 w Hw H0) as [?|[? [?|?]]]; rewrite !elem_of_app; auto.
    + rewrite Hdr in Hd. subst d. destruct webrtc; [left; set_solver|by destruct I4; congruence].
Qed.

Lemma inv_upgrade max t now n n' :
  node_inv max n → (now <= instant_max)%N → upgrade t now n = Some n' → node_inv max n'.
Proof.
  intros [I1 I2 I3 I4 I5 I6] Hnow. unfold upgrade. destruct (Listener.apply (LUpgrade t) (listening n)) as [s|] eqn:E; [|done].
  intros [= <-]. pose proof (reachable_step _ _ _ _ I1 E) as Hr.
  cbn in E. destruct (tasks (listening n) !! t) as [task|] eqn:Ht; [|done]. injection E as <-.
  assert (sessions (listening n) !! t = None) as Hnone.
  { destruct (sessions (listening n) !! t) as [task'|] eqn:Es; [|done].
    destruct (inv_sessions_fresh _ _ _ _ (inv_reachable _ _ I1) t task' Es). congruence. }
  split; cbn; try done.
  - by rewrite !dom_insert_L, I2.
  - intros t' s [[<- <-]|[Hne Hs]]%lookup_insert_Some.
    + split; [|done]. exists now. split; [done|apply rtc_refl].
    + eapply session_fine_mono; [|by apply I3]. unfold fired. cbn. by rewrite lookup_insert_ne.
Qed.

Lemma inv_session_end max t n n' : node_inv max n → session_end t n = Some n' → node_inv max n'.
Proof.
  intros [I1 I2 I3 I4 I5 I6]. unfold session_end. destruct (ws n !! t) as [s|]; [|done].
  destruct (session_over s); [|done]. destruct (Listener.apply (LSessionEnd t) (listening n)) as [l|] eqn:E; [|done].
  intros [= <-]. pose proof (reachable_step _ _ _ _ I1 E) as Hr.
  cbn in E. destruct (sessions (listening n) !! t); [|done]. injection E as <-.
  split; cbn; try done.
  - by rewrite !dom_delete_L, I2.
  - intros t' s' [Hne Hs]%lookup_delete_Some. eapply session_fine_mono; [|by apply I3].
    unfold fired. cbn. by rewrite lookup_delete_ne.
Qed.

Lemma told_cancel_reachable t n s now :
  session_reachable ws_config now s → session_reachable ws_config now (told_cancel t n s).
Proof.
  intros Hs. unfold told_cancel. destruct (fired t n); [|done].
  eapply rtc_r; [exact Hs|]. by exists SCancel.
Qed.

Lemma inv_ws_step max t l n n' : node_inv max n → ws_step t l n = Some n' → node_inv max n'.
Proof.
  intros [I1 I2 I3 I4 I5 I6]. unfold ws_step. destruct (ws n !! t) as [s|] eqn:Hs; [|done].
  destruct (I3 t s Hs) as [(now & Hnow & Hr) Hc]. set (o := match l with SCancel => _ | _ => _ end).
  destruct o as [s'|] eqn:Ho; [|done]. intros [= <-]. subst o. split; cbn; try done.
  - rewrite dom_insert_lookup_L by done. done.
  - intros t' s0 [[<- <-]|[Hne Hs0]]%lookup_insert_Some; [|by eapply session_fine_mono; [|by apply I3]].
    assert (session_reachable ws_config now s') as Hr'.
    { destruct l; [..|done|]; try (eapply rtc_r; [exact Hr|by eexists]).
      injection Ho as <-. eapply rtc_r; [by apply told_cancel_reachable|by exists (SPoll w)]. }
    split; [by exists now|]. intros Hc'. change (fired t n = true). destruct l; [| |done|].
    + apply Hc. cbn in Ho. destruct (sender_label l); [|done]. destruct (WsChannel.apply l (chan s)); [|done].
      by injection Ho as <-.
    + apply Hc. cbn in Ho. destruct (checked_add (clock s) d); [|done]. by injection Ho as <-.
    + injection Ho as <-. pose proof (poll_env ws_config w (told_cancel t n s)) as He. unfold env in He.
      injection He as _ He. rewrite He in Hc'. unfold told_cancel in Hc'. destruct (fired t n); [done|by apply Hc].
Qed.

Lemma step_flag e w w' : is_drain e = false → WebRtc.step e w = Some w' → terminal_draining w' = terminal_draining w.
Proof.
  intros Hd. destruct e as [head body|i runtime a|i|i|i runtime b|i runtime st| |]; [|cbn..|done|done]; intros Hstep.
  - apply step_offer in Hstep as [->|(id & w1 & Hres & ->)]; [done|].
    by apply reserve_slot_Some in Hres as (_ & _ & _ & _ & _ & Hdr).
  - apply with_signaling_Some in Hstep as (s & s' & w1 & Hi & Hk & ->). unfold complete_signaling in Hk.
    repeat case_first_in Hk; simplify_eq; cbn; try done;
      unfold activate_slot; unfold spawn_close; repeat case_first; cbn; rewrite ?release_draining; done.
  - apply with_signaling_Some in Hstep as (s & s' & w1 & Hi & Hk & ->). destruct (at_await s); by simplify_eq/=.
  - apply with_signaling_Some in Hstep as (s & s' & w1 & Hi & Hk & ->). destruct (at_await s); by simplify_eq/=.
  - apply with_signaling_Some in Hstep as (s & s' & w1 & Hi & Hk & ->).
    unfold run_build in Hk. repeat case_first_in Hk; simplify_eq; cbn; by rewrite ?release_draining.
  - repeat case_first_in Hstep; simplify_eq; destruct st; cbn; by rewrite ?release_draining.
Qed.

Lemma rtc_do_Some e n n' :
  rtc_do e n = Some n' ↔
  ∃ w w', rtc n = Some w ∧ WebRtc.step e w = Some w'
    ∧ n' = {| listening := listening n; ws := ws n; rtc := Some w'; spawned := spawned n;
              rtc_events := rtc_events n ++ [e] |}.
Proof.
  unfold rtc_do. destruct (rtc n) as [w|]; [|naive_solver].
  destruct (WebRtc.step e w) eqn:E; naive_solver.
Qed.

(** The registry and its history move together; what is left to show are the drains. *)
Lemma inv_rtc_do max e n ts n' :
  node_inv max n → rtc_do e (set_spawned ts n) = Some n' →
  (∀ w w', rtc n = Some w → WebRtc.step e w = Some w' →
     (undrained n w → accepting (listening n) = true → undrained n' w') ∧ (drained n w → drained n' w')) →
  node_inv max n'.
Proof.
  intros [I1 I2 I3 I4 I5 I6] (w & w' & Hw & Hstep & ->)%rtc_do_Some Hdr. cbn in *.
  destruct (Hdr w w' Hw Hstep) as [Hu Hd]. split; cbn; try done.
  - destruct webrtc; [|by destruct I4; congruence]. destruct I4 as (w1 & Hw1 & Hrun). exists w'. split; [done|].
    rewrite events_app, Hrun. cbn. assert (w1 = w) as -> by congruence. by rewrite Hstep.
  - intros w0 [= <-] Ha. apply Hu; [by apply I5|done].
  - intros w0 [= <-] Ha. by apply Hd, I6.
Qed.

Lemma set_spawned_id n : set_spawned (spawned n) n = n.
Proof. by destruct n. Qed.

Lemma inv_event max e n n' : node_inv max n → is_drain e = false → rtc_do e n = Some n' → node_inv max n'.
Proof.
  intros I He. rewrite <- (set_spawned_id n) at 1. intros H. eapply inv_rtc_do; [exact I|exact H|].
  apply rtc_do_Some in H as (w0 & w0' & _ & _ & ->). intros w w' _ Hs. pose proof (step_flag _ _ _ He Hs) as Hf. split.
  - intros (H1 & H2 & H3) _. split_and!; cbn; [done..|congruence].
  - intros [H1|[H1 H2]]; [by left|]. right. cbn. split; [congruence|]. destruct H2 as [?|H2]; [by left|right].
    apply elem_of_nil_inv. intros pc Hpc. destruct (step_draining _ _ _ H1 Hs) as [_ Ha].
    apply Ha in Hpc. rewrite H2 in Hpc. by apply elem_of_nil in Hpc.
Qed.

Lemma elem_of_delete_other {A} (x y : A) (l : list A) i : l !! i = Some y → x ≠ y → x ∈ l → x ∈ delete i l.
Proof.
  intros Hi Hne Hx. rewrite <- (take_drop_middle l i y Hi) in Hx. rewrite delete_take_drop.
  rewrite elem_of_app, elem_of_cons in Hx. rewrite elem_of_app. naive_solver.
Qed.
Lemma elem_of_delete_sub {A} (x : A) (l : list A) i : x ∈ delete i l → x ∈ l.
Proof. intros Hx. eapply elem_of_sublist; [exact Hx|apply sublist_delete]. Qed.
Lemma actives_closed w : actives (close_active_peers w) = [].
Proof. apply elem_of_nil_inv. intros pc Hpc. by apply closed_peers_gone in Hpc. Qed.

Lemma inv_drain_step max i n n' : node_inv max n → drain_step i n = Some n' → node_inv max n'.
Proof.
  intros I. unfold drain_step. destruct (spawned n !! i) as [[[]|]|] eqn:Hi; [..|done];
    intros H; (eapply inv_rtc_do; [exact I|exact H|]); apply rtc_do_Some in H as (w0 & w0' & _ & _ & ->);
    intros w w' _ [= <-]; (split; [intros (H1 & H2 & H3) _|]).
  - destruct H1. by eapply list_elem_of_lookup_2.
  - intros _. right. cbn. split; [done|left]. apply list_elem_of_lookup. exists i.
    apply list_lookup_insert_eq. by eapply lookup_lt_Some.
  - split_and!; cbn; [by intros ?%elem_of_delete_sub..|done].
  - intros [H1|[H1 [H2|H2]]]; [left|right; split; [done|left]|right; split; [done|right]].
    + by eapply elem_of_delete_other.
    + by eapply elem_of_delete_other.
    + apply actives_closed.
  - destruct H2. by eapply list_elem_of_lookup_2.
  - intros [H1|[H1 _]]; [left; by eapply elem_of_delete_other|]. right. split; [done|right]. apply actives_closed.
Qed.

Lemma inv_node_run max ls n n' : node_inv max n → node_run ls n = Some n' → node_inv max n'.
Proof.
  revert n. induction ls as [|l ls IH]; intros n I; cbn; [by intros [= <-]|].
  destruct (node_apply l n) as [n1|] eqn:E; [|done]. apply IH. clear IH. destruct l; cbn in E.
  - by eapply inv_listener_step.
  - destruct (N.leb_spec now instant_max); [|done]. by eapply inv_upgrade.
  - by eapply inv_ws_step.
  - by eapply inv_session_end.
  - destruct (is_drain e) eqn:He; [done|]. by eapply inv_event.
  - by eapply inv_drain_step.
Qed.

Lemma node_run_app ls1 ls2 n : node_run (ls1 ++ ls2) n = (node_run ls1 n ≫= node_run ls2).
Proof. revert n. induction ls1 as [|l ls1 IH]; intros n; cbn; [done|]. by destruct (node_apply l n); cbn. Qed.

(** ** Polling a cancelled session to its end *)

Definition polling (t : nat) (ps : list Polled) : list NodeLabel := (λ w, NSession t (SPoll w)) <$> ps.

Lemma told_cancelled t n s : cancelled s = true → told_cancel t n s = s.
Proof. intros Hc. unfold told_cancel. destruct (fired t n); [|done]. rewrite <- Hc. by destruct s. Qed.

Lemma run_polling t ps n s :
  ws n !! t = Some s → cancelled s = true →
  ∃ n', node_run (polling t ps) n = Some n' ∧ ws n' !! t = Some (polls ws_config ps s) ∧ listening n' = listening n.
Proof.
  unfold polls. revert n s. induction ps as [|p ps IH]; intros n s Hs Hc; cbn [polling fmap list_fmap fold_left node_run].
  { by exists n. }
  cbn [node_apply]. unfold ws_step. rewrite Hs, told_cancelled by done.
  destruct (IH (set_ws (<[ t := poll ws_config p s ]> (ws n)) n) (poll ws_config p s)) as (n' & H1 & H2 & H3).
  - cbn. apply lookup_insert_eq.
  - pose proof (poll_env ws_config p s) as He. unfold env in He. injection He as _ He. congruence.
  - by exists n'.
Qed.

(** The first poll after the cancellation fired sees it. *)
Lemma run_polling_fired t ps n s :
  ws n !! t = Some s → fired t n = true → ps ≠ [] →
  ∃ n', node_run (polling t ps) n = Some n'
    ∧ ws n' !! t = Some (polls ws_config ps (set_time (clock s) true s)) ∧ listening n' = listening n.
Proof.
  intros Hs Hf Hps. destruct (run_polling t ps (set_ws (<[ t := set_time (clock s) true s ]> (ws n)) n)
    (set_time (clock s) true s)) as (n' & H1 & H2 & H3); [apply lookup_insert_eq|done|].
  exists n'. split; [|done]. destruct ps as [|p ps]; [done|]. cbn [polling fmap list_fmap node_run node_apply] in *.
  unfold ws_step in *. cbn [ws set_ws] in H1. rewrite lookup_insert_eq, told_cancelled in H1 by done.
  rewrite Hs. unfold told_cancel. rewrite Hf. cbn in *. by rewrite insert_insert_eq in H1.
Qed.

(** *** What the steps of the server do to one of its sessions *)

(** The session as its next poll sees it once its cancellation fired. *)
Definition told (s : Session) : Session := set_time (clock s) true s.
(** The steps of the session [t] among those of the server. *)
Definition session_labels (t : nat) (ls : list NodeLabel) : list SLabel :=
  omap (λ l, match l with NSession t' l' => if decide (t = t') then Some l' else None | _ => None end) ls.

Lemma told_id s : cancelled s = true → told s = s.
Proof. intros Hc. unfold told. rewrite <- Hc. by destruct s. Qed.

Lemma told_poll w s : told (poll ws_config w (told s)) = poll ws_config w (told s).
Proof. apply told_id. pose proof (poll_env ws_config w (told s)) as He. unfold env in He. by injection He as _ ->. Qed.

(** A step of the session itself, as a step of the session that was told. *)
Lemma ws_step_told t l n n' s :
  ws_step t l n = Some n' → ws n !! t = Some s → fired t n = true →
  ∃ s', ws n' !! t = Some s' ∧ session_apply ws_config l (told s) = Some (told s').
Proof.
  unfold ws_step. intros E Hs Hf. rewrite Hs in E. destruct l as [l|d| |w]; [| |done|].
  - cbn in *. destruct (sender_label l); [|done]. destruct (WsChannel.apply l (chan s)) as [c|]; [|done].
    injection E as <-. exists (set_chan c s). cbn. by rewrite lookup_insert_eq.
  - cbn in *. destruct (checked_add (clock s) d) as [now|]; [|done].
    injection E as <-. exists (set_time now (cancelled s) s). cbn. by rewrite lookup_insert_eq.
  - unfold told_cancel in E. rewrite Hf in E. injection E as <-. exists (poll ws_config w (told s)).
    cbn [ws set_ws session_apply]. by rewrite lookup_insert_eq, told_poll.
Qed.

Lemma ws_step_other t t' l n n' : ws_step t' l n = Some n' → t ≠ t' → ws n' !! t = ws n !! t.
Proof.
  intros E Hne. unfold ws_step in E. destruct (ws n !! t') as [s|]; [|done]. set (o := match l with SCancel => _ | _ => _ end) in E.
  destruct o; [|done]. injection E as <-. cbn. by rewrite lookup_insert_ne.
Qed.

Lemma ws_step_listening t l n n' : ws_step t l n = Some n' → listening n' = listening n.
Proof.
  intros E. unfold ws_step in E. destruct (ws n !! t) as [s|]; [|done]. set (o := match l with SCancel => _ | _ => _ end) in E.
  destruct o; [|done]. by injection E as <-.
Qed.

(** Only its end takes a session out of the server, and what fired stays so. *)
Lemma node_step_session max t l n n' s :
  node_inv max n → node_apply l n = Some n' → ws n !! t = Some s → fired t n = true → l ≠ NSessionEnd t →
  fired t n' = true
  ∧ ∃ s', ws n' !! t = Some s' ∧ session_run ws_config (session_labels t [l]) (told s) = Some (told s').
Proof.
  intros I E Hs Hf Hl. destruct l as [l|t' now|t' l|t'|e|i]; cbn in E.
  - apply listener_step_Some in E as (s0 & d & E & Hsl & Hlis & Hws & _).
    split; [|exists s; by rewrite Hws]. eapply fired_tells; [|exact Hf]. rewrite Hlis. by eapply apply_tells; [apply I|..].
  - destruct (now <=? instant_max)%N; [|done]. unfold upgrade in E.
    destruct (Listener.apply (LUpgrade t') (listening n)) as [l|] eqn:El; [|done]. injection E as <-.
    cbn in El. destruct (tasks (listening n) !! t') as [task|] eqn:Ht; [|done]. injection El as <-.
    assert (t ≠ t') as Hne.
    { intros <-. assert (t ∈ dom (sessions (listening n))) as [task' Es]%elem_of_dom
        by (rewrite <- (ni_dom _ _ I); by eapply elem_of_dom_2).
      destruct (inv_sessions_fresh _ _ _ _ (inv_reachable _ _ (ni_listener _ _ I)) t task' Es). congruence. }
    split; [|exists s; cbn; by rewrite lookup_insert_ne]. unfold fired in *. cbn. by rewrite lookup_insert_ne.
  - split; [unfold fired in *; by rewrite (ws_step_listening _ _ _ _ E)|]. cbn. destruct (decide (t = t')) as [<-|Hne]; cbn.
    + destruct (ws_step_told t l n n' s E Hs Hf) as (s' & ? & Ha). exists s'. split; [done|]. by rewrite Ha.
    + exists s. by rewrite (ws_step_other t t' l n n').
  - assert (t ≠ t') as Hne by congruence. unfold session_end in E. destruct (ws n !! t') as [s'|]; [|done].
    destruct (session_over s'); [|done]. destruct (Listener.apply (LSessionEnd t') (listening n)) as [l|] eqn:El; [|done].
    injection E as <-. cbn in El. destruct (sessions (listening n) !! t'); [|done]. injection El as <-.
    split; [|exists s; cbn; by rewrite lookup_delete_ne]. unfold fired in *. cbn. by rewrite lookup_delete_ne.
  - destruct (is_drain e); [done|]. apply rtc_do_Some in E as (w & w' & _ & _ & ->). split; [done|by exists s].
  - unfold drain_step in E. destruct (spawned n !! i) as [[[]|]|]; [..|done];
      apply rtc_do_Some in E as (w & w' & _ & _ & ->); (split; [done|by exists s]).
Qed.

(** So a run of the server is, for a session that does not end in it, a run of the session. *)
Lemma node_run_session max t ls n n' s :
  node_inv max n → node_run ls n = Some n' → ws n !! t = Some s → fired t n = true → NSessionEnd t ∉ ls →
  fired t n' = true
  ∧ ∃ s', ws n' !! t = Some s' ∧ session_run ws_config (session_labels t ls) (told s) = Some (told s').
Proof.
  revert n s. induction ls as [|l ls IH]; intros n s I E Hs Hf Hl; cbn in E; [by injection E as <-; eauto|].
  destruct (node_apply l n) as [n1|] eqn:E1; [|done]. apply not_elem_of_cons in Hl as [Hne Hl].
  destruct (node_step_session max t l n n1 s I E1 Hs Hf) as (Hf1 & s1 & Hs1 & Er); [congruence|].
  destruct (IH n1 s1) as (Hf' & s' & Hs' & Er'); [|done..|].
  { eapply (inv_node_run max [l] n); [done|]. cbn. by rewrite E1. }
  split; [done|]. exists s'. split; [done|]. unfold session_labels in *. cbn [omap list_omap] in *.
  destruct l as [l|t' now|t' l|t'|e|i]; try (apply (inj Some) in Er; by rewrite Er).
  destruct (decide (t = _)); [|apply (inj Some) in Er; by rewrite Er]. cbn [session_run] in *.
  destruct (session_apply ws_config _ (told s)) as [s0|]; [|done]. apply (inj Some) in Er as ->. exact Er'.
Qed.

(** A session that is over gives its permit back. *)
Lemma session_leaves max t n s :
  node_inv max n → ws n !! t = Some s → session_over s = true →
  ∃ n', node_run [NSessionEnd t] n = Some n'
    ∧ ws n' !! t = None ∧ sessions (listening n') !! t = None
    ∧ connection_limit (listening n') = (connection_limit (listening n) + 1)%N.
Proof.
  intros I Hs Ho. assert (is_Some (sessions (listening n) !! t)) as [task Ht].
  { apply elem_of_dom. rewrite <- (ni_dom _ _ I). by apply elem_of_dom_2 in Hs. }
  cbn. unfold session_end. rewrite Hs, Ho. cbn. rewrite Ht. eexists. split; [done|]. cbn. by rewrite !lookup_delete_eq.
Qed.

Lemma panicked_polls ws0 s : pc s = PPanicked → pc (polls ws_config ws0 s) = PPanicked.
Proof.
  revert s. induction ws0 as [|w ws0 IH]; intros s Hp; [done|]. apply (IH (poll ws_config w s)). unfold poll. by rewrite Hp.
Qed.

(** A cancelled session leaves: [n1] is the server after the polls that follow the cancellation,
    [n2] any later state of it. *)
Lemma cancelled_session_leaves max t n s ls1 n1 ls2 n2 w :
  node_inv max n → ws n !! t = Some s → fired t n = true →
  node_run ls1 n = Some n1 → node_run ls2 n1 = Some n2 → (NSessionEnd t ∉ ls1) → (NSessionEnd t ∉ ls2) →
  polls_to_close (pc s) <= poll_count (session_labels t ls1) →
  ∃ s1 s2, ws n1 !! t = Some s1 ∧ ws n2 !! t = Some s2
    ∧ (pc s2 = PPanicked → overflow ws_config s2)
    ∧ (pc s2 = PPanicked ∨ (clock s1 + close_grace ws_config <= clock s2)%N →
       ∃ n3, node_run (polling t [Pending; w] ++ [NSessionEnd t]) n2 = Some n3
         ∧ ws n3 !! t = None ∧ sessions (listening n3) !! t = None
         ∧ connection_limit (listening n3) = (connection_limit (listening n2) + 1)%N).
Proof.
  intros I Hs Hf E1 E2 Hl1 Hl2 Hn. pose proof (inv_node_run max _ _ _ I E1) as I1. pose proof (inv_node_run max _ _ _ I1 E2) as I2.
  destruct (node_run_session max t ls1 n n1 s I E1 Hs Hf Hl1) as (Hf1 & s1 & Hs1 & R1).
  destruct (node_run_session max t ls2 n1 n2 s1 I1 E2 Hs1 Hf1 Hl2) as (Hf2 & s2 & Hs2 & R2).
  exists s1, s2. split; [done|]. split; [done|].
  assert (wf ws_config (told s)) as Hw.
  { destruct (ni_sessions _ _ I t s Hs) as [(now & Hnow & Hr) _]. eapply session_wf; [exact Hnow|].
    eapply rtc_r; [exact Hr|by exists SCancel]. }
  destruct (cancelled_session_returns ws_config (told s) _ (told s1) _ (told s2) w Hw eq_refl R1 Hn R2) as [[Hp Ho]|[Hp Hret]].
  all: split; [intros Hp'; done|]. all: intros Hend.
  all: destruct (run_polling_fired t [Pending; w] n2 s2 Hs2 Hf2 ltac:(done)) as (n3 & H1 & H2 & H3).
  all: rewrite node_run_app, H1; cbn [mbind option_bind]; rewrite <- H3.
  all: eapply session_leaves; [by eapply inv_node_run; [exact I2|exact H1]|exact H2|]; unfold session_over.
  - by rewrite panicked_polls.
  - destruct Hend as [?|Hend]; [done|]. destruct (Hret Hend) as (reason & r & E & _). unfold told in E. by rewrite E.
Qed.

(** Where every drain of a replaced generation has started, a stopping server has told all. *)
Lemma stopped_fired max t n s :
  node_inv max n → ws n !! t = Some s → phase (listening n) ≠ Accepting →
  (∀ d dr, drains (listening n) !! d = Some dr → d_fired dr = true) → fired t n = true.
Proof.
  intros I Hs Hp Hd. assert (is_Some (sessions (listening n) !! t)) as [task Ht].
  { apply elem_of_dom. rewrite <- (ni_dom _ _ I). by apply elem_of_dom_2 in Hs. }
  unfold fired, cancel_ready. rewrite Ht. apply bool_decide_eq_true.
  pose proof (inv_reachable _ _ (ni_listener _ _ I)) as J.
  destruct (inv_told _ _ _ _ J t task (or_intror Ht)) as [->|[(d & dr & Hdr & _ & Hf)|?]]; [| |done].
  - rewrite (inv_cancel _ _ _ _ J). by rewrite stopped_phase.
  - apply Hd in Hdr. congruence.
Qed.

(** C36: a server tells its end to what outlives the connections, whatever happens in between.  While
    it accepts, also across rebinds, new peers may register.  After a graceful shutdown every drain
    task that was spawned can run, and when none is left no peer is registered any more, nor ever
    again; once all signalling is over every connection was handed to [close].  A session is
    cancelled only if the cancellation of its generation fired, and when the server stops it has
    fired for all of them as soon as the drains of replaced generations have started.  From then on,
    in any run of the server and of its peers: the first poll of a session that waits, or the next
    six of one that does not, bring it to its closing phase, in the state [n1] of the server; and in
    any later state [n2], however many frames the peer has sent to keep the session, once its clock
    is the grace period past [n1], a poll that finds nothing ready and one more end it, and its
    permit comes back.  A session that panicked, which takes an overflow of its clock, gives its
    permit back as well. *)
Theorem graceful_shutdown max ls n :
  node_run ls (node_init max) = Some n →
  (∀ w, rtc n = Some w → phase (listening n) = Accepting → terminal_draining w = false)
  ∧ (∀ i, i < length (spawned n) → is_Some (node_apply (NDrain i) n))
  ∧ (∀ w, rtc n = Some w → left_by_shutdown (listening n) = true → spawned n = [] →
       actives w = []
       ∧ ((len (signalings w) <= 2 ^ 64)%N → Forall in_runtime (rtc_events n) → all_over w →
          registry w = [] ∧ ∀ pc, pc < next_pc w → pc ∈ closing w))
  ∧ (∀ t s, ws n !! t = Some s →
       (cancelled s = true → fired t n = true)
       ∧ (phase (listening n) ≠ Accepting → (∀ d dr, drains (listening n) !! d = Some dr → d_fired dr = true) →
          fired t n = true)
       ∧ ∀ ls1 n1 ls2 n2 w, fired t n = true →
           node_run ls1 n = Some n1 → node_run ls2 n1 = Some n2 → (NSessionEnd t ∉ ls1) → (NSessionEnd t ∉ ls2) →
           polls_to_close (pc s) <= poll_count (session_labels t ls1) →
           ∃ s1 s2, ws n1 !! t = Some s1 ∧ ws n2 !! t = Some s2
             ∧ (pc s2 = PPanicked → overflow ws_config s2)
             ∧ (pc s2 = PPanicked ∨ (clock s1 + close_grace ws_config <= clock s2)%N →
                ∃ n3, node_run (polling t [Pending; w] ++ [NSessionEnd t]) n2 = Some n3
                  ∧ ws n3 !! t = None ∧ sessions (listening n3) !! t = None
                  ∧ connection_limit (listening n3) = (connection_limit (listening n2) + 1)%N)).
Proof.
  intros Hrun. pose proof (inv_node_run max _ _ _ (node_inv_init max) Hrun) as I. split_and!.
  - intros w Hw Hp. apply (ni_accepting _ _ I w Hw). unfold accepting. by rewrite Hp.
  - intros i [task Hi]%lookup_lt_is_Some. cbn. unfold drain_step. rewrite Hi.
    pose proof (ni_rtc _ _ I) as Hr. destruct webrtc as [cfg|]; [|by destruct Hr as [_ Hsp]; rewrite Hsp in Hi].
    destruct Hr as (w & Hw & _). destruct task as [[]|]; unfold rtc_do; cbn; rewrite Hw; cbn; eauto.
  - intros w Hw Hs Hsp. assert (actives w = []) as Ha.
    { destruct (ni_shutdown _ _ I w Hw Hs) as [H|[_ [H|H]]]; [| |done]; rewrite Hsp in H; by apply elem_of_nil in H. }
    split; [done|]. intros Hlen Hrt Hover. pose proof (ni_rtc _ _ I) as Hr.
    destruct webrtc as [cfg|]; [|by destruct Hr; congruence]. destruct Hr as (w0 & Hw0 & Hevs).
    assert (w0 = w) as -> by congruence. by apply (drained_empty (rtc_events n) cfg).
  - intros t s Hs. split_and!; [apply (ni_sessions _ _ I t s Hs)|by eapply stopped_fired|].
    intros ls1 n1 ls2 n2 w Hf H1 H2 Hl1 Hl2 Hn. by eapply cancelled_session_leaves.
Qed.
End node.

(** ** A server with a session and two peers that shuts down *)

Section witness.
#[local] Existing Instances WebRtcSpec.demo_types naive_memmem demo_crate.

Definition demo_node_labels : list NodeLabel :=
  [NListener (LTurn (ready (AReady (local 1)))); NUpgrade 3 0%N; NSession 3 (SPoll Pending); NSession 3 (SPoll Pending)]
  ++ (NRtc <$> demo_events) ++ [NListener (LTurn demo_shutdown); NDrain 0; NDrain 0].
Definition demo_start : Node := node_init (Some WebRtcConfig_default) 2.
Definition demo_node : Node :=
  default demo_start (node_run ws_default (Some WebRtcConfig_default) demo_node_labels demo_start).
Definition demo_ws : Session := default (session_init ws_default 0%N) (ws demo_node !! 3).
Definition demo_rtc : World := default (WebRtc.init WebRtcConfig_default) (rtc demo_node).

(** The session sees its cancellation; then its peer sends a frame every few seconds. *)
Definition demo_seen : list NodeLabel := [NSession 3 (SPoll Pending)].
Definition demo_kept : list NodeLabel := NSession 3 <$> demo_chatty.
Definition demo_after (ls : list NodeLabel) (n : Node) : Node :=
  default demo_start (node_run ws_default (Some WebRtcConfig_default) ls n).
Definition demo_closing : Node := demo_after demo_seen demo_node.
Definition demo_late : Node := demo_after demo_kept demo_closing.

Lemma graceful_shutdown_witness :
  node_run ws_default (Some WebRtcConfig_default) demo_node_labels demo_start = Some demo_node
  ∧ rtc demo_node = Some demo_rtc ∧ next_pc demo_rtc = 2 ∧ actives demo_rtc = []
  ∧ connection_limit (listening demo_late) = 1%N
  ∧ ∃ n3, node_run ws_default (Some WebRtcConfig_default) (polling 3 [Pending; Pending] ++ [NSessionEnd 3]) demo_late = Some n3
      ∧ ws n3 !! 3 = None ∧ connection_limit (listening n3) = 2%N.
Proof.
  assert (node_run ws_default (Some WebRtcConfig_default) demo_node_labels demo_start = Some demo_node) as Hrun
    by (vm_compute; reflexivity).
  assert (rtc demo_node = Some demo_rtc) as Hr by (vm_compute; reflexivity).
  assert (ws demo_node !! 3 = Some demo_ws) as Hs by (vm_compute; reflexivity).
  assert (∀ ls t, forallb (λ l, match l with NSessionEnd t' => negb (t' =? t) | _ => true end) ls = true →
    NSessionEnd t ∉ ls) as Hend.
  { intros ls t H Hin. apply list_elem_of_In in Hin. rewrite forallb_forall in H. specialize (H _ Hin). cbn in H.
    by rewrite Nat.eqb_refl in H. }
  destruct (graceful_shutdown ws_default (Some WebRtcConfig_default) 2 demo_node_labels demo_node Hrun)
    as (_ & _ & H1 & H2).
  destruct (H2 3 demo_ws Hs) as (_ & _ & H3).
  destruct (H3 demo_seen demo_closing demo_kept demo_late Pending) as (s1 & s2 & E1 & E2 & _ & H4);
    [vm_compute; reflexivity..|apply Hend; vm_compute; reflexivity|apply Hend; vm_compute; reflexivity|
     apply Nat.leb_le; vm_compute; reflexivity|].
  assert (connection_limit (listening demo_late) = 1%N) as Hlim by (vm_compute; reflexivity).
  split; [exact Hrun|]. split; [exact Hr|]. split; [vm_compute; reflexivity|]. split; [|split; [exact Hlim|]].
  - apply (H1 demo_rtc Hr); vm_compute; reflexivity.
  - destruct H4 as (n3 & E3 & E4 & _ & E5).
    + right. assert (s1 = default demo_ws (ws demo_closing !! 3)) as -> by (by rewrite E1).
      assert (s2 = default demo_ws (ws demo_late !! 3)) as -> by (by rewrite E2).
      apply N.leb_le. vm_compute. reflexivity.
    + exists n3. rewrite Hlim in E5. split; [exact E3|split; [exact E4|exact E5]].
Defined.
End witness.
