(* ===== verification/Rebind.v ===== *)
(** * [core::server]: rebinding

    [RebindHandle::rebind] beside the accept loop: a call binds its listener, sends it as a command
    through a channel of capacity one, and waits for the reply; the loop of Listener takes a command
    when its race gets to it, replaces the listener and replies; and shutdown, or the end of
    [run_until], closes the channel.  A label is one poll of a call, a turn of the accept loop, or
    another step of the server. *)

From stdpp Require Import relations.
From S2P Require Import Prelude Text Utf8 Extensions Request Response Gate ServerConfig Listener.

(** A call of [rebind] that has bound its listener: before its command is in the channel, then
    before its reply. *)
Inductive RebindStage := RbSend | RbReply.
Record RebindCall := { rb_listener : nat; rb_stage : RebindStage }.

(** The two errors of a call whose listener was bound. *)
Inductive RebindError := RbEnded | RbUnfinished.

Record Rebinding := {
  server : Listening;
  rx_open : bool;
  (** The command in the channel, by its call. *)
  command : option (nat * nat);
  rb_calls : gmap nat RebindCall;
  (** The commands whose reply was sent, in the order in which their listeners were installed. *)
  installed : list (nat * nat);
  rb_results : gmap nat (result nat RebindError);
}.

Definition rebind_handle (max_connections : N) : Rebinding :=
  {| server := bind max_connections; rx_open := true; command := None; rb_calls := ∅; installed := [];
     rb_results := ∅ |}.

(** The server moves; when it stops accepting the receiver is dropped with what is in the channel. *)
Definition set_server (s : Listening) (r : Rebinding) : Rebinding :=
  {| server := s; rx_open := rx_open r && negb (stopped s);
     command := if stopped s then None else command r; rb_calls := rb_calls r; installed := installed r;
     rb_results := rb_results r |}.
Definition set_call (id : nat) (c : RebindCall) (cmd : option (nat * nat)) (r : Rebinding) : Rebinding :=
  {| server := server r; rx_open := rx_open r; command := cmd; rb_calls := <[ id := c ]> (rb_calls r);
     installed := installed r; rb_results := rb_results r |}.
Definition rb_return (id : nat) (x : result nat RebindError) (r : Rebinding) : Rebinding :=
  {| server := server r; rx_open := rx_open r; command := command r; rb_calls := delete id (rb_calls r);
     installed := installed r; rb_results := <[ id := x ]> (rb_results r) |}.
Definition rb_drop (id : nat) (r : Rebinding) : Rebinding :=
  {| server := server r; rx_open := rx_open r; command := command r; rb_calls := delete id (rb_calls r);
     installed := installed r; rb_results := rb_results r |}.

(** A poll of a call; none is pending. *)
Definition rebind_poll (id : nat) (c : RebindCall) (r : Rebinding) : option Rebinding :=
  match rb_stage c with
  | RbSend =>
      if negb (rx_open r) then Some (rb_return id (Err RbEnded) r)
      else match command r with
           | Some _ => None
           | None => Some (set_call id {| rb_listener := rb_listener c; rb_stage := RbReply |} (Some (id, rb_listener c)) r)
           end
  | RbReply =>
      if bool_decide (id ∈ (installed r).*1) then Some (rb_return id (Ok (rb_listener c)) r)
      else if bool_decide (fst <$> command r = Some id) then None
      else Some (rb_return id (Err RbUnfinished) r)
  end.

(** A turn of the accept loop, with the command if there is one. *)
Definition turn_ready (shutdown : bool) (backlog : list AcceptPoll) (a : AcceptPoll) (slept : bool) (r : Rebinding) : Ready :=
  {| ready_shutdown := shutdown; ready_rebind := (λ c, (c.2, backlog)) <$> command r; ready_accept := a;
     ready_slept := slept |}.
Definition rebind_turn (rd : Ready) (r : Rebinding) : option Rebinding :=
  let! s := Listener.apply (LTurn rd) (server r) else None in
  let r' := set_server s r in
  match command r with
  | Some c =>
      if ready_shutdown rd then Some r'
      else Some {| server := s; rx_open := rx_open r'; command := None; rb_calls := rb_calls r;
                   installed := installed r ++ [c]; rb_results := rb_results r |}
  | None => Some r'
  end.

Inductive RebindLabel :=
| RbBegin (id l : nat)
| RbPoll (id : nat)
| RbAbandon (id : nat)
| RbTurn (shutdown : bool) (backlog : list AcceptPoll) (a : AcceptPoll) (slept : bool)
| RbServer (l : Listener.Label).

Definition rb_unused (id : nat) (r : Rebinding) : bool :=
  bool_decide (rb_calls r !! id = None ∧ rb_results r !! id = None ∧ (id ∉ (installed r).*1) ∧ fst <$> command r ≠ Some id).

Definition rebind_apply (l : RebindLabel) (r : Rebinding) : option Rebinding :=
  match l with
  | RbBegin id l =>
      if rb_unused id r then Some (set_call id {| rb_listener := l; rb_stage := RbSend |} (command r) r) else None
  | RbPoll id => let! c := rb_calls r !! id else None in rebind_poll id c r
  | RbAbandon id => let! _ := rb_calls r !! id else None in Some (rb_drop id r)
  | RbTurn shutdown backlog a slept => rebind_turn (turn_ready shutdown backlog a slept r) r
  | RbServer (LTurn _) => None
  | RbServer l => let! s := Listener.apply l (server r) else None in Some (set_server s r)
  end.

Definition rebind_step (r r' : Rebinding) : Prop := ∃ l, rebind_apply l r = Some r'.

(** ** The invariant *)

Record rb_inv (r : Rebinding) : Prop := {
  rbi_nodup : NoDup (installed r).*1;
  rbi_open : rx_open r = negb (stopped (server r));
  rbi_command : ∀ id l, command r = Some (id, l) →
    rx_open r = true ∧ (id ∉ (installed r).*1) ∧ rb_results r !! id = None
    ∧ ∀ c, rb_calls r !! id = Some c → c = {| rb_listener := l; rb_stage := RbReply |};
  rbi_send : ∀ id c, rb_calls r !! id = Some c →
    rb_results r !! id = None ∧ (rb_stage c = RbSend → id ∉ (installed r).*1);
  rbi_reply : ∀ id l c, (id, l) ∈ installed r → rb_calls r !! id = Some c → rb_listener c = l;
  rbi_ok : ∀ id l, rb_results r !! id = Some (Ok l) → (id, l) ∈ installed r;
  rbi_err : ∀ id e, rb_results r !! id = Some (Err e) → id ∉ (installed r).*1;
}.

Lemma rb_inv_init max : rb_inv (rebind_handle max).
Proof.
  split; cbn; try done; try (intros ? ? H; by rewrite lookup_empty in H).
  apply NoDup_nil_2.
Qed.

Lemma rb_inv_set_server s r :
  rb_inv r → (stopped (server r) = true → stopped s = true) → rb_inv (set_server s r).
Proof.
  intros [] Hs. split; cbn; auto.
  - rewrite rbi_open0. destruct (stopped (server r)); [by rewrite Hs|done].
  - intros id l Hc. destruct (stopped s); [done|]. rewrite andb_true_r. by apply rbi_command0.
Qed.

Lemma stopped_mono l s s' : Listener.apply l s = Some s' → stopped s = true → stopped s' = true.
Proof.
  unfold stopped. rewrite !bool_decide_eq_true. intros E Hp.
  by destruct (stopping_step s s' (ex_intro _ l E) Hp).
Qed.

Lemma not_elem_fst {A} (id : nat) (x : A) (l : list (nat * A)) : id ∉ l.*1 → (id, x) ∉ l.
Proof. intros Hn H. apply Hn. apply list_elem_of_fmap. by exists (id, x). Qed.

Lemma rb_inv_return id x r :
  rb_inv r → is_Some (rb_calls r !! id) →
  match x with Ok l => (id, l) ∈ installed r | Err _ => (id ∉ (installed r).*1) ∧ fst <$> command r ≠ Some id end →
  rb_inv (rb_return id x r).
Proof.
  intros [] [c Hc] Hx. split; cbn; auto.
  - intros id' l Hcmd. destruct (rbi_command0 id' l Hcmd) as (H1 & H2 & H3 & H4).
    assert (id ≠ id') as Hne.
    { intros ->. destruct x as [l'|e]; [by apply (not_elem_fst _ l') in H2|]. rewrite Hcmd in Hx. by destruct Hx. }
    split_and!; [done..| |]; [by rewrite lookup_insert_ne|]. intros c'. rewrite lookup_delete_ne by done. apply H4.
  - intros id' c' [Hne Hc']%lookup_delete_Some. rewrite lookup_insert_ne by done. by apply rbi_send0.
  - intros id' l c' Hin [Hne Hc']%lookup_delete_Some. by eapply rbi_reply0.
  - intros id' l [[<- ->]|[_ H]]%lookup_insert_Some; [done|by apply rbi_ok0].
  - intros id' e [[<- ->]|[_ H]]%lookup_insert_Some; [apply Hx|by eapply rbi_err0].
Qed.

Lemma rb_inv_poll id c r r' : rb_inv r → rb_calls r !! id = Some c → rebind_poll id c r = Some r' → rb_inv r'.
Proof.
  intros I Hc. unfold rebind_poll. destruct (rb_stage c) eqn:Hst.
  - destruct (rx_open r) eqn:Ho; cbn.
    + destruct (command r) as [|] eqn:Hcmd; [done|]. intros [= <-]. destruct (rbi_send _ I id c Hc) as [Hr Hn].
      destruct I as []. split; cbn; auto.
      * intros id' l [= <- <-]. split_and!; [done|by apply Hn|done|]. intros c'. rewrite lookup_insert_eq. by intros [= <-].
      * intros id' c' [[<- <-]|[_ H]]%lookup_insert_Some; [|by apply rbi_send0]. by split.
      * intros id' l c' Hin [[<- <-]|[_ H]]%lookup_insert_Some; [|by eapply rbi_reply0]. cbn. by eapply rbi_reply0.
    + intros [= <-]. apply rb_inv_return; [done|by eexists|]. split; [by apply (rbi_send _ I id c)|].
      intros Hcmd. destruct (command r) as [[id' l]|] eqn:E; [|done].
      destruct (rbi_command _ I id' l E) as [? _]. congruence.
  - case_bool_decide as Hin.
    + intros [= <-]. apply rb_inv_return; [done|by eexists|].
      apply list_elem_of_fmap in Hin as ([id' l] & -> & Hin). cbn in *. by rewrite (rbi_reply _ I _ _ _ Hin Hc).
    + case_bool_decide as Hcmd; [done|]. intros [= <-]. apply rb_inv_return; [done|by eexists|]. by split.
Qed.

Lemma rb_inv_turn rd r r' : rb_inv r → rebind_turn rd r = Some r' → rb_inv r'.
Proof.
  intros I. unfold rebind_turn. destruct (Listener.apply (LTurn rd) (server r)) as [s|] eqn:E; [|done].
  pose proof (rb_inv_set_server s r I (stopped_mono _ _ _ E)) as I'.
  destruct (command r) as [[id l]|] eqn:Hcmd; [|by intros [= <-]]. destruct (ready_shutdown rd); [by intros [= <-]|].
  intros [= <-]. destruct (rbi_command _ I id l Hcmd) as (Ho & Hn & Hr & Hcall). destruct I' as []. cbn in *.
  split; cbn; auto.
  - rewrite fmap_app. apply NoDup_app. split_and!; [done| |apply NoDup_singleton].
    intros x Hx ->%list_elem_of_singleton. done.
  - done.
  - intros id' c Hc'. split; [by apply rbi_send0 in Hc' as []|]. intros Hst.
    rewrite fmap_app, not_elem_of_app. split; [by apply rbi_send0 in Hc' as [_ ?]; auto|].
    cbn. rewrite list_elem_of_singleton. intros ->. apply Hcall in Hc'. by subst c.
  - intros id' l' c [Hin|[= -> ->]%list_elem_of_singleton]%elem_of_app Hc'; [by eapply rbi_reply0|].
    apply Hcall in Hc'. by subst c.
  - intros id' l' Hok. apply elem_of_app. left. by apply rbi_ok0.
  - intros id' e He. rewrite fmap_app, not_elem_of_app. split; [by eapply rbi_err0|].
    cbn. rewrite list_elem_of_singleton. intros ->. congruence.
Qed.

Lemma rb_inv_step l r r' : rb_inv r → rebind_apply l r = Some r' → rb_inv r'.
Proof.
  intros I. destruct l as [id l|id|id|sd backlog a slept|l]; cbn [rebind_apply].
  - destruct (rb_unused id r) eqn:Hu; [|done]. apply bool_decide_eq_true in Hu as (Hc & Hr & Hn & Hcmd).
    intros [= <-]. destruct I as []. split; cbn; auto.
    + intros id' l' H. destruct (rbi_command0 id' l' H) as (? & ? & ? & Hcall). split_and!; [done..|].
      intros c [[<- <-]|[_ ?]]%lookup_insert_Some; [|by apply Hcall]. rewrite H in Hcmd. done.
    + intros id' c [[<- <-]|[_ ?]]%lookup_insert_Some; [by split|by apply rbi_send0].
    + intros id' l' c Hin [[<- <-]|[_ ?]]%lookup_insert_Some; [|by eapply rbi_reply0].
      by apply (not_elem_fst _ l') in Hn.
  - destruct (rb_calls r !! id) as [c|] eqn:Hc; [|done]. by eapply rb_inv_poll.
  - destruct (rb_calls r !! id) as [c|] eqn:Hc; [|done]. intros [= <-]. destruct I as []. split; cbn; auto.
    + intros id' l H. destruct (rbi_command0 id' l H) as (? & ? & ? & Hcall). split_and!; [done..|].
      intros c' [_ ?]%lookup_delete_Some. by apply Hcall.
    + intros id' c' [_ ?]%lookup_delete_Some. by apply rbi_send0.
    + intros id' l c' Hin [_ ?]%lookup_delete_Some. by eapply rbi_reply0.
  - by apply rb_inv_turn.
  - destruct (Listener.apply l (server r)) as [s|] eqn:E; [|by destruct l].
    pose proof (rb_inv_set_server s r I (stopped_mono _ _ _ E)) as I'. destruct l; try done; by intros [= <-].
Qed.

(** A result is never changed. *)
Lemma results_kept l r r' id x :
  rb_inv r → rebind_apply l r = Some r' → rb_results r !! id = Some x → rb_results r' !! id = Some x.
Proof.
  intros I E Hx. destruct l as [i l|i|i|sd backlog a slept|l]; cbn [rebind_apply] in E.
  - destruct (rb_unused i r); [|done]. by injection E as <-.
  - destruct (rb_calls r !! i) as [c|] eqn:Hc; [|done].
    assert (i ≠ id) as Hne by (intros ->; apply (rbi_send _ I) in Hc as [? _]; congruence).
    unfold rebind_poll in E. repeat case_match; simplify_eq; cbn; by rewrite ?lookup_insert_ne.
  - destruct (rb_calls r !! i); [|done]. by injection E as <-.
  - unfold rebind_turn in E. repeat case_match; by simplify_eq/=.
  - repeat case_match; by simplify_eq/=.
Qed.

Lemma on_rebind_listener l backlog s : listener (on_rebind l backlog s) = Some l.
Proof. unfold on_rebind. by destruct (drain_listener_backlog _ _ _). Qed.

(** A call of [rebind] tells the truth: it returns the address of its listener only after the server
    installed it, and an error only if it never was and never will be; a listener is installed at
    most once, whether its caller still waits or not.  A turn of a server that is not told to shut
    down installs the listener that waits in the channel, so that the server accepts from it; and
    as soon as the server stops accepting every call returns at its next poll. *)
Theorem rebind_answers max r :
  rtc rebind_step (rebind_handle max) r →
  NoDup (installed r).*1
  ∧ (∀ id l, rb_results r !! id = Some (Ok l) → (id, l) ∈ installed r)
  ∧ (∀ id e, rb_results r !! id = Some (Err e) → ∀ r', rtc rebind_step r r' → id ∉ (installed r').*1)
  ∧ (∀ id l backlog a slept r', command r = Some (id, l) →
       rebind_apply (RbTurn false backlog a slept) r = Some r' →
       (id, l) ∈ installed r' ∧ command r' = None ∧ listener (server r') = Some l)
  ∧ (phase (server r) ≠ Accepting → ∀ id, is_Some (rb_calls r !! id) →
       ∃ r' x, rebind_apply (RbPoll id) r = Some r' ∧ rb_results r' !! id = Some x).
Proof.
  intros Hr. assert (∀ r1 r2, rtc rebind_step r1 r2 → rb_inv r1 → rb_inv r2) as Hinv.
  { induction 1 as [|r1 r2 r3 [l E] _ IH]; [done|]. intros I. by eapply IH, rb_inv_step. }
  pose proof (Hinv _ _ Hr (rb_inv_init max)) as I. split_and!.
  - apply I.
  - apply I.
  - intros id e He r' Hr'. pose proof (Hinv _ _ Hr' I) as I'. apply (rbi_err _ I' id e).
    clear I' Hr Hinv. revert He. induction Hr' as [|r1 r2 r3 [l E] _ IH]; [done|]. intros He.
    apply IH; [by eapply rb_inv_step|]. by eapply results_kept.
  - intros id l backlog a slept r' Hcmd E. cbn in E. unfold rebind_turn in E.
    destruct (Listener.apply _ (server r)) as [s|] eqn:Es; [|done]. rewrite Hcmd in E. cbn in E. injection E as <-. cbn.
    split_and!; [apply elem_of_app; right; by apply list_elem_of_singleton|done|].
    cbn in Es. destruct (phase (server r)); try done. injection Es as <-.
    unfold turn, race_shutdown_or_accept, turn_ready. cbn. rewrite Hcmd. apply on_rebind_listener.
  - intros Hp id [c Hc]. assert (rx_open r = false) as Ho by (rewrite (rbi_open _ I), stopped_phase; done).
    assert (command r = None) as Hcmd.
    { destruct (command r) as [[id' l]|] eqn:E; [|done]. destruct (rbi_command _ I _ _ E). congruence. }
    cbn. rewrite Hc. unfold rebind_poll. rewrite Ho, Hcmd. cbn.
    destruct (rb_stage c); [|case_bool_decide]; eexists _, _; (split; [done|]); apply lookup_insert_eq.
Qed.

(** A call is answered by a turn; another finds the server shut down. *)
Definition demo_rebinding : option Rebinding :=
  foldl (λ r l, r ≫= rebind_apply l) (Some (rebind_handle 3))
    [RbBegin 0 7; RbPoll 0; RbTurn false [] APending false; RbBegin 1 8; RbPoll 0; RbPoll 1;
     RbTurn true [] APending false; RbPoll 1; RbBegin 2 9; RbPoll 2].

Example demo_rebinding_is :
  (λ r, (installed r, (rb_results r !! 0, rb_results r !! 1, rb_results r !! 2))) <$> demo_rebinding
  = Some ([(0, 7)], (Some (Ok 7), Some (Err RbUnfinished), Some (Err RbEnded))).
Proof. by vm_compute. Qed.
