(* ===== verification/WsDialogue.v ===== *)
(** * The dialogue of a session

    What a handler answers, and what the peer is sent of it: a session hands the messages of the peer
    to its handler one at a time, and the frames of an answer go out in their order, all of them
    before the next message is looked at.  The ghost of the theorem is the list of answers along a
    run; the rest of a session is as in WsSession. *)

From stdpp Require Import relations.
From S2P Require Import Prelude Text Utf8 Extensions Request Response Gate ServerConfig Server.
From S2P Require Import RoutePattern WsPattern WsChannel WsConfig WsHandshake WsSession WsSessionSpec.

Section dialogue.
Context {AT : AnyTypes} (config : WsConfig).

(** The frames of answers. *)
Definition by_reply (f : Origin * Frame) : option Frame :=
  match f with (ByReply, f) => Some f | _ => None end.
Definition said (s : Session) : list Frame := omap by_reply (frames s).
Definition frames_of (ms : list WsMessage) : list Frame := to_tungstenite_message <$> ms.

(** What is still to be sent of the current answer, while the session is in its loop. *)
Definition cont_rest (k : Cont) : list WsMessage :=
  match k with
  | KPing _ | KLoop | KHandler => []
  | KDrainBefore _ ms | KDrainToClose ms | KReply ms => ms
  end.
Definition rest (p : PC) : option (list WsMessage) :=
  match p with
  | PStart | PTop | PSelect | PHandler => Some []
  | PSend _ _ _ k => Some (cont_rest k)
  | PDrainBefore _ ms | PApplyReply ms | PDrainToClose ms | PReply ms => Some ms
  | _ => None
  end.
(** The handler has a message that it has not answered. *)
Definition busy (p : PC) : bool :=
  match p with PHandler | PSend _ _ _ KHandler => true | _ => false end.

(** The answer that a poll takes from the handler, and those of a run. *)
Definition answer_of (l : SLabel) (s : Session) : option (list WsMessage) :=
  match pc s, l with
  | PHandler, SPoll (RdHandler (Ok (Reply ms))) => if cancelled s then None else Some ms
  | _, _ => None
  end.
Fixpoint answers (ls : list SLabel) (s : Session) : list (list WsMessage) :=
  match ls with
  | [] => []
  | l :: ls =>
      option_list (answer_of l s)
      ++ match session_apply config l s with Some s' => answers ls s' | None => [] end
  end.

(** ** The invariant *)

Definition talk (ans : list (list WsMessage)) (s : Session) : Prop :=
  match rest (pc s) with
  | Some ms => said s ++ frames_of ms = frames_of (concat ans)
               ∧ length (handled s) = length ans + (if busy (pc s) then 1 else 0)
  | None => said s `prefix_of` frames_of (concat ans) ∧ length ans ≤ length (handled s) ≤ S (length ans)
  end.

(** The session left its loop, or goes on with the same rest. *)
Definition onward (p0 p : PC) : Prop := rest p = None ∨ (rest p = rest p0 ∧ busy p = busy p0).
Definition quiet (s0 s : Session) : Prop := said s = said s0 ∧ handled s = handled s0 ∧ onward (pc s0) (pc s).

Lemma quiet_talk ans s0 s : quiet s0 s → talk ans s0 → talk ans s.
Proof.
  unfold talk. intros (-> & -> & [->|[-> ->]]); [|done]. destruct (rest (pc s0)) as [ms|]; [|done].
  intros [Hs Hl]. split; [by exists (frames_of ms)|]. destruct (busy (pc s0)); lia.
Qed.

Lemma said_other o f s : o ≠ ByReply → said (hand_over o f s) = said s.
Proof. intros Ho. unfold said. cbn. rewrite omap_app. cbn. destruct o; [by rewrite app_nil_r|done|by rewrite app_nil_r..]. Qed.
Lemma said_reply f s : said (hand_over ByReply f s) = said s ++ [f].
Proof. unfold said. cbn. by rewrite omap_app. Qed.

(** ** Operations *)

(** The parts of a state that the dialogue is about. *)
Definition same (s0 s : Session) : Prop := said s = said s0 ∧ handled s = handled s0 ∧ pc s = pc s0.

Lemma release_same s : same s (release s).
Proof. unfold release. by destruct (rx (seal_session s)). Qed.
Lemma try_recv_same s : same s (try_recv s).2.
Proof. unfold try_recv. destruct (recv (chan s)); [destruct (ch_queue (chan s))|]; done. Qed.

Lemma quiet_same s0 s1 s : same s0 s1 → quiet s1 s → quiet s0 s.
Proof. unfold quiet. intros (H1 & H2 & H3). by rewrite H1, H2, H3. Qed.

(** Control leaves the loop. *)
Lemma quiet_goto p s0 s : same s0 s → onward (pc s0) p → quiet s0 (goto p s).
Proof. intros (? & ? & ?) Hp. by split_and!. Qed.
Lemma quiet_finish e s0 s : same s0 s → quiet s0 (finish e s).
Proof. intros H. apply (quiet_same _ _ _ H). apply quiet_goto; [apply release_same|by left]. Qed.
Lemma quiet_panic s0 s : same s0 s → quiet s0 (panic s).
Proof. intros H. apply (quiet_same _ _ _ H). apply quiet_goto; [apply release_same|by left]. Qed.
Lemma quiet_now_plus d k s0 s : same s0 s → (∀ x, quiet s0 (k x)) → quiet s0 (now_plus d k s).
Proof. intros H Hk. unfold now_plus. destruct (checked_add (clock s) d); [done|]. by apply quiet_panic. Qed.
Lemma quiet_observe k s0 s :
  same s0 s → (∀ o s1, same s0 s1 → quiet s0 (k o s1)) → quiet s0 (observe config k s).
Proof.
  intros H Hk. unfold observe. destruct (close_request_signal (chan s)); [|by apply Hk].
  destruct (close_deadline s); [by apply Hk|]. apply quiet_now_plus; [done|]. intros x. by apply Hk.
Qed.
Lemma quiet_send o f k s0 s :
  same s0 s → o ≠ ByReply → onward (pc s0) (PSend f None None k) → quiet s0 (send_bounded o f k s).
Proof. intros (H1 & H2 & H3) Ho Hp. split_and!; [|done..]. cbn. rewrite <- H1. by apply (said_other o f s). Qed.
Lemma quiet_close reason f dl s0 s : same s0 s → quiet s0 (close_and_drain reason f dl s).
Proof. intros (H1 & H2 & H3). split_and!; [|done|by left]. rewrite <- H1. by apply (said_other ByClose (FClose f) s). Qed.
Lemma same_trans s1 s2 s3 : same s1 s2 → same s2 s3 → same s1 s3.
Proof. unfold same. intuition congruence. Qed.
Lemma same_refl s : same s s.
Proof. done. Qed.
Lemma same_release s0 s : same s0 s → same s0 (release s).
Proof. intros H. eapply same_trans; [exact H|apply release_same]. Qed.
Lemma same_seal s0 s : same s0 s → same s0 (seal_session s).
Proof. done. Qed.

Lemma quiet_cancelled s0 s : same s0 s → quiet s0 (on_cancelled config s).
Proof. intros H%same_release. apply quiet_now_plus; [done|]. intros d. by apply quiet_close. Qed.
Lemma quiet_deadline k s0 s :
  same s0 s → (∀ d s1, same s0 s1 → quiet s0 (k d s1)) → quiet s0 (deadline config k s).
Proof.
  intros H Hk. apply quiet_observe; [done|]. intros [d|] s1 H1; [by apply Hk|].
  apply quiet_now_plus; [done|]. intros d. by apply Hk.
Qed.
Lemma quiet_sender_close code reason s0 s : same s0 s → quiet s0 (on_sender_close config code reason s).
Proof. intros H. apply quiet_deadline; [done|]. intros d s1 H1%same_release. by apply quiet_close. Qed.
Lemma quiet_close_normally reason s0 s : same s0 s → quiet s0 (close_normally config reason s).
Proof. intros H. apply quiet_now_plus; [done|]. intros d. by apply quiet_close. Qed.

Lemma quiet_end_of_message s0 s :
  same s0 s → onward (pc s0) PTop → quiet s0 (end_of_message config s).
Proof.
  intros H Hp. unfold end_of_message. destruct (idle_timeout config); [|by apply quiet_goto].
  apply quiet_now_plus; [done|]. intros dl. by apply quiet_goto.
Qed.

Lemma quiet_outbound o k again s0 s s' :
  same s0 s → onward (pc s0) (PSend FRaw None None k) → onward (pc s0) again →
  on_outbound config o k again s = Some s' → quiet s0 s'.
Proof.
  intros H Hk Ha. unfold on_outbound. destruct o as [[msg|code reason]| |]; [..|done|]; intros [= <-].
  - by apply quiet_send.
  - by apply quiet_sender_close.
  - by apply quiet_goto; [apply same_release|].
Qed.

(** A message reached the handler. *)
Definition asks (s0 s : Session) : Prop :=
  said s = said s0 ∧ (∃ m, handled s = handled s0 ++ [m]) ∧ pc s = PHandler.

Lemma asks_talk ans s0 s : pc s0 = PSelect → asks s0 s → talk ans s0 → talk ans s.
Proof.
  unfold talk. intros -> (-> & [m ->] & ->). cbn. rewrite length_app. cbn. intros [? ?]. split; [done|lia].
Qed.

Lemma on_message_frame_talk m s0 s :
  same s0 s → pc s0 = PSelect → quiet s0 (on_message_frame config m s) ∨ asks s0 (on_message_frame config m s).
Proof.
  intros H Hp. pose proof H as (H1 & H2 & H3). assert (onward (pc s0) PTop) as Ht by (rewrite Hp; by right).
  unfold on_message_frame.
  destruct m as [[[t|b|x|x|f|]|err]|]; [right|right|left..].
  - split; [exact H1|]. split; [|done]. exists (Text t). cbn. by rewrite H2.
  - split; [exact H1|]. split; [|done]. exists (Binary b). cbn. by rewrite H2.
  - by apply quiet_end_of_message.
  - by apply quiet_end_of_message.
  - by apply quiet_finish.
  - by apply quiet_end_of_message.
  - destruct (recv_reason err); try by apply quiet_finish.
    apply quiet_deadline; [done|]. intros d s1 (E1 & E2 & E3)%same_release. split_and!; [|done|by left].
    rewrite <- E1. by apply (said_other ByClose _ (release s1)).
  - by apply quiet_finish.
Qed.

Lemma on_timer_quiet k s : pc s = PSelect → quiet s (on_timer config k s).
Proof.
  intros Hp. destruct k; cbn [on_timer]; try apply quiet_close_normally, release_same.
  apply quiet_goto; [done|]. rewrite Hp. by right.
Qed.

Lemma poll_select_talk w s s' : pc s = PSelect → poll_select config w s = Some s' → quiet s s' ∨ asks s s'.
Proof.
  intros Hp. assert (∀ s', poll_inbound config w s = Some s' → quiet s s' ∨ asks s s') as Hin.
  { intros s1. unfold poll_inbound. destruct w as [|m|r|r| |b];
      try (destruct (select_timer s) as [[dl k]|]; [|done]; destruct (_ <=? _)%N; [|done]; intros [= <-]; left; by apply on_timer_quiet).
    intros [= <-]. by apply on_message_frame_talk. }
  assert (∀ s', poll_outbound config s = Some s' → quiet s s') as Hout.
  { intros s1. unfold poll_outbound. destruct (rx s); [|done]. pose proof (try_recv_same s) as Ht.
    destruct (try_recv s) as [o s2]. intros H. eapply quiet_outbound; [exact Ht|..|exact H]; rewrite Hp; by right. }
  unfold poll_select. destruct (cancelled s); [intros [= <-]; left; by apply quiet_cancelled|].
  destruct (rx s && prefer_outbound s).
  - destruct (poll_outbound config s) as [s1|]; cbn; [|apply Hin]. intros [= <-]. left. by apply Hout.
  - destruct (poll_inbound config w s) as [s1|]; cbn; [|left; by apply Hout]. intros [= <-]. by apply Hin.
Qed.

Lemma loop_top_quiet s : pc s = PTop → quiet s (loop_top s).
Proof.
  intros Hp. assert (∀ s1, same s s1 → quiet s (enter_select s1)) as He.
  { intros s1 H. unfold enter_select. apply quiet_goto; [by destruct (rx s1)|]. rewrite Hp. by right. }
  unfold loop_top. destruct (keepalive s) as [ka|]; [|by apply He]. destruct (ka_pending ka); [by apply He|].
  destruct (_ <=? _)%N; [|by apply He]. destruct (next_payload ka) as [payload ka'].
  apply quiet_send; [done..|]. rewrite Hp. by right.
Qed.

Lemma after_send_quiet frame expires stalls k s s1 :
  pc s = PSend frame expires stalls k → same s s1 → quiet s (after_send k s1).
Proof.
  intros Hp H. destruct k; cbn [after_send]; try (apply quiet_goto; [done|rewrite Hp; by right]).
  unfold enter_select. apply quiet_goto; [|rewrite Hp; by right]. by destruct (rx _).
Qed.

Lemma poll_send_quiet frame expires stalls k w s :
  pc s = PSend frame expires stalls k → quiet s (poll_send config frame expires stalls k w s).
Proof.
  intros Hp. unfold poll_send. destruct (cancelled s); [by apply quiet_cancelled|].
  assert (∀ o s1, same s s1 → quiet s (poll_stall config frame k stalls o s1)) as Hst.
  { intros o s1 H. assert (∀ x y, onward (pc s) (PSend frame x y k)) as Ho by (intros; rewrite Hp; right; by destruct k).
    unfold poll_stall. destruct (ws_ping config); [|by apply quiet_goto].
    destruct (elapsed _ s1); [by apply quiet_finish|by apply quiet_goto]. }
  assert (quiet s (poll_expired config expires (poll_stall config frame k stalls) s)) as He.
  { unfold poll_expired. destruct (elapsed expires s); [by apply quiet_finish|]. apply quiet_observe; [done|].
    intros o s1 H. destruct (elapsed o s1); [by apply quiet_finish|by apply Hst]. }
  destruct w as [|m|[[]|err]|r| |b]; try done; [|by apply quiet_finish].
  by eapply after_send_quiet.
Qed.

Lemma flush_quiet for_ g s0 s : same s0 s → quiet s0 (flush_outbound config for_ g s).
Proof.
  intros H. apply quiet_observe; [done|]. intros o s1 H1.
  assert (∀ s2, same s0 s2 → quiet s0 (flush_done for_ g s2)) as Hd.
  { intros s2 (E1 & E2 & E3). destruct for_; [|by apply quiet_finish]. split_and!; [|done|by left].
    rewrite <- E1. by apply (said_other ByClose _ s2). }
  cbv zeta. destruct (rx (seal_session s1)); [|by apply Hd]. apply quiet_goto; [done|by left].
Qed.

Lemma flush_next_quiet for_ dl g s : rest (pc s) = None → quiet s (flush_next for_ dl g s).
Proof.
  intros Hp. unfold flush_next. pose proof (try_recv_same s) as H. destruct (try_recv s) as [o s1]. cbn in H.
  assert (quiet s (flush_done for_ g s1)) as Hd.
  { destruct for_; [|by apply quiet_finish]. destruct H as (E1 & E2 & E3). split_and!; [|done|by left].
    rewrite <- E1. by apply (said_other ByClose _ s1). }
  destruct o as [[msg|code reason]| |]; [| |done..].
  - destruct H as (E1 & E2 & E3). split_and!; [|done|by left]. rewrite <- E1. by apply (said_other ByQueue _ s1).
  - by apply quiet_close, same_release.
Qed.

Lemma handler_done_talk ans r s :
  pc s = PHandler → talk ans s →
  talk (ans ++ match r with Ok (Reply ms) => [ms] | _ => [] end) (handler_done config r s).
Proof.
  intros Hp Ht. assert (∀ for_, talk (ans ++ []) (now_plus (close_grace config) (λ d, flush_outbound config for_ d s) s)) as Hf.
  { intros for_. rewrite app_nil_r. eapply quiet_talk; [|exact Ht]. apply quiet_now_plus; [done|]. intros d. by apply flush_quiet. }
  unfold handler_done. destruct r as [[ms|]|err]; [|apply Hf..].
  unfold talk in *. cbn. rewrite Hp in Ht. cbn in Ht. destruct Ht as [Hs Hl]. split.
  - change (said s ++ frames_of ms = frames_of (concat (ans ++ [ms]))).
    rewrite concat_app. cbn. unfold frames_of in *. rewrite !fmap_app, <- Hs. cbn. by rewrite !app_nil_r.
  - rewrite length_app. cbn. lia.
Qed.

Lemma drain_before_quiet budget ms s : pc s = PDrainBefore budget ms → quiet s (drain_before_reply config budget ms s).
Proof.
  intros Hp. assert (∀ s1, same s s1 → quiet s (before_apply config ms s1)) as Hb.
  { intros s1 H. apply quiet_now_plus; [done|]. intros d. apply quiet_goto; [done|]. rewrite Hp. by right. }
  destruct budget as [|budget]; cbn [drain_before_reply]; [by apply Hb|]. destruct (rx s); [|by apply Hb].
  pose proof (try_recv_same s) as H. destruct (try_recv s) as [o s1]. cbn in H.
  destruct o as [[msg|code reason]| |].
  - apply quiet_send; [done..|]. rewrite Hp. by right.
  - by apply quiet_sender_close.
  - by apply Hb.
  - by apply Hb, same_release.
Qed.

Lemma drain_to_close_quiet ms s : pc s = PDrainToClose ms → quiet s (drain_to_close config ms s).
Proof.
  intros Hp. assert (∀ s1, same s s1 → quiet s (goto (PReply ms) s1)) as Hb.
  { intros s1 H. apply quiet_goto; [done|]. rewrite Hp. by right. }
  unfold drain_to_close. destruct (rx s); [|by apply Hb].
  pose proof (try_recv_same s) as H. destruct (try_recv s) as [o s1]. cbn in H.
  destruct o as [[msg|code reason]| |].
  - apply quiet_send; [done..|]. rewrite Hp. by right.
  - by apply quiet_sender_close.
  - destruct (close_committed (chan s1)); [by apply quiet_panic|by apply Hb].
  - by apply Hb, same_release.
Qed.

Lemma reply_talk ans ms s : pc s = PReply ms → talk ans s → talk ans (reply config ms s).
Proof.
  intros Hp Ht. destruct ms as [|m ms]; cbn [reply].
  - eapply quiet_talk; [|exact Ht]. apply quiet_end_of_message; [done|]. rewrite Hp. by right.
  - unfold talk in *. rewrite Hp in Ht. cbn in *. destruct Ht as [Hs Hl]. split; [|done].
    change (said (hand_over ByReply (to_tungstenite_message m) s) ++ frames_of ms = frames_of (concat ans)).
    by rewrite said_reply, <- (assoc_L (++)).
Qed.

(** What happens after the loop says nothing. *)
Lemma linger_quiet e dl ld s : rest (pc s) = None → quiet s (linger e dl ld s).
Proof. intros Hp. apply quiet_now_plus; [done|]. intros d. apply quiet_goto; [done|by left]. Qed.
Lemma quiet_refl s : quiet s s.
Proof. split_and!; [done..|by right]. Qed.

Lemma poll_over_quiet w s : rest (pc s) = None → quiet s (poll config w s).
Proof.
  intros Hp. assert (∀ e, quiet s (finish e s)) as Hfin by (intros; by apply quiet_finish).
  pose proof (quiet_refl s) as Href. pose proof (quiet_cancelled s s (same_refl s)) as Hc.
  assert (∀ p s1, same s s1 → rest p = None → quiet s (goto p s1)) as Hgo by (intros; apply quiet_goto; [done|by left]).
  unfold poll. destruct (pc s) as [| | | | | | | | |for_ dl g|f for_ dl g|dl|reason f dl|reason dl|e dl|e dl|e dl ld ru|e|e|] eqn:Epc; try done.
  - apply flush_next_quiet. by rewrite Epc.
  - unfold poll_flush_send, flush_failed, flush_timed_out. repeat case_match; auto; by apply Hgo.
  - unfold poll_handler_close. repeat case_match; auto; by apply (quiet_finish _ s (wrote_frame s)).
  - unfold poll_closing, at_end. repeat case_match; auto; by apply Hgo.
  - unfold poll_draining, at_end. repeat case_match; auto.
  - unfold poll_big_close. repeat case_match; auto; by apply Hgo.
  - unfold poll_big_shutdown. destruct w; try (destruct (_ <=? _)%N; auto).
    apply quiet_now_plus; [done|]. intros d. apply linger_quiet. by rewrite Epc.
  - unfold poll_big_linger. repeat case_match; auto; apply linger_quiet; by rewrite Epc.
  - by apply (Hgo _ (call_on_close e.1 s)).
Qed.

Lemma start_quiet s : pc s = PStart → quiet s (start config s).
Proof.
  intros Hp. unfold start. destruct (idle_timeout config); [apply quiet_now_plus; [done|]; intros x|];
    (apply quiet_goto; [done|rewrite Hp; by right]).
Qed.

Lemma poll_talk ans w s : talk ans s → talk (ans ++ option_list (answer_of (SPoll w) s)) (poll config w s).
Proof.
  intros Ht. destruct (rest (pc s)) as [ms|] eqn:Er.
  2: { assert (answer_of (SPoll w) s = None) as -> by (unfold answer_of; by destruct (pc s)).
       cbn. rewrite app_nil_r. eapply quiet_talk; [by apply poll_over_quiet|done]. }
  assert (pc s ≠ PHandler → answer_of (SPoll w) s = None) as Hn by (unfold answer_of; by destruct (pc s)).
  destruct (pc s) as [| | |frame expires stalls k| |budget l|l|l|l| | | | | | | | | | |] eqn:Epc; try done;
    try (rewrite Hn by done; cbn [option_list]; rewrite app_nil_r); unfold poll; rewrite Epc.
  - eapply quiet_talk; [by apply start_quiet|done].
  - eapply quiet_talk; [by apply loop_top_quiet|done].
  - destruct (poll_select config w s) as [s1|] eqn:E; cbn; [|done].
    destruct (poll_select_talk w s s1 Epc E) as [H|H]; [by eapply quiet_talk|by eapply asks_talk].
  - eapply quiet_talk; [by apply poll_send_quiet|done].
  - unfold poll_handler, answer_of. rewrite Epc. destruct (cancelled s) eqn:Hc.
    { assert (talk ans (on_cancelled config s)) as H by (eapply quiet_talk; [by apply quiet_cancelled|done]).
      destruct w as [|m|r|[[]|]| |b]; cbn; by rewrite app_nil_r. }
    assert (talk ans (default s (if rx s then let (o, s) := try_recv s in on_outbound config o KHandler PHandler s else None))) as Hq.
    { destruct (rx s); [|done]. pose proof (try_recv_same s) as H. destruct (try_recv s) as [o s1]. cbn in H.
      destruct (on_outbound config o KHandler PHandler s1) as [s2|] eqn:E; cbn; [|done].
      eapply quiet_talk; [|exact Ht]. eapply quiet_outbound; [exact H|..|exact E]; rewrite Epc; by right. }
    destruct w as [|m|r|r| |b]; try (cbn [option_list]; by rewrite app_nil_r).
    cbn. pose proof (handler_done_talk ans r s Epc Ht) as H. by destruct r as [[]|].
  - eapply quiet_talk; [by apply drain_before_quiet|done].
  - eapply quiet_talk; [|done]. apply quiet_goto; [done|]. rewrite Epc. right. by destruct (close_committed (chan s)).
  - eapply quiet_talk; [by apply drain_to_close_quiet|done].
  - by apply reply_talk.
Qed.

Lemma apply_talk ans l s s' :
  talk ans s → session_apply config l s = Some s' → talk (ans ++ option_list (answer_of l s)) s'.
Proof.
  intros Ht E. destruct l as [l|d| |w]; cbn in E.
  4: { injection E as <-. by apply poll_talk. }
  all: assert (answer_of _ s = None) as -> by (unfold answer_of; by destruct (pc s)); cbn; rewrite app_nil_r;
    eapply quiet_talk; [|exact Ht].
  - destruct (sender_label l); [|done]. destruct (WsChannel.apply l (chan s)); [|done]. injection E as <-. split_and!; [done..|by right].
  - destruct (checked_add (clock s) d); [|done]. injection E as <-. split_and!; [done..|by right].
  - injection E as <-. split_and!; [done..|by right].
Qed.

Lemma run_talk ans ls s s' : talk ans s → session_run config ls s = Some s' → talk (ans ++ answers ls s) s'.
Proof.
  revert ans s. induction ls as [|l ls IH]; intros ans s Ht E; cbn in *.
  - injection E as <-. by rewrite app_nil_r.
  - destruct (session_apply config l s) as [s1|] eqn:E1; [|done]. rewrite (assoc_L (++)).
    eapply IH; [|exact E]. by eapply apply_talk.
Qed.

(** The answers that a longer run takes begin with those of a shorter one. *)
Lemma answers_app ls1 ls2 s s1 :
  session_run config ls1 s = Some s1 → answers (ls1 ++ ls2) s = answers ls1 s ++ answers ls2 s1.
Proof.
  revert s. induction ls1 as [|l ls1 IH]; intros s E; cbn in *; [by injection E as <-|].
  destruct (session_apply config l s) as [s2|] eqn:E2; [|done]. by rewrite (IH s2 E), (assoc_L (++)).
Qed.

(** C19: the dialogue of a session, whatever its peer, its handler, its senders and the clock do.  The
    frames of answers that were handed over are, in order, those of the answers that the handler
    gave, up to what a session that is ending no longer sends; the handler has at most one message
    that it has not answered; and whenever the session looks for the next message, or the handler
    works on one, all answers so far are handed over completely, so that no answer is sent before,
    or mixed with, that of an earlier message. *)
Theorem session_dialogue now ls s :
  session_run config ls (session_init config now) = Some s →
  let ans := answers ls (session_init config now) in
  said s `prefix_of` frames_of (concat ans)
  ∧ length ans ≤ length (handled s) ≤ S (length ans)
  ∧ (pc s = PTop ∨ pc s = PSelect → said s = frames_of (concat ans) ∧ length (handled s) = length ans)
  ∧ (pc s = PHandler → said s = frames_of (concat ans) ∧ length (handled s) = S (length ans))
  ∧ (∀ ms, pc s = PReply ms → said s ++ frames_of ms = frames_of (concat ans) ∧ length (handled s) = length ans).
Proof.
  intros Hrun ans. assert (talk ans s) as Ht.
  { apply (run_talk [] ls (session_init config now)); [by split|exact Hrun]. }
  unfold talk in Ht. split_and!.
  - destruct (rest (pc s)) as [ms|]; [|apply Ht]. exists (frames_of ms). by rewrite (proj1 Ht).
  - destruct (rest (pc s)) as [ms|]; [|apply Ht]. destruct Ht as [_ ->]. destruct (busy (pc s)); lia.
  - destruct (rest (pc s)) as [ms|]; [|apply Ht]. destruct Ht as [_ ->]. destruct (busy (pc s)); lia.
  - intros [Hp|Hp]; rewrite Hp in Ht; cbn in Ht; rewrite app_nil_r in Ht; split; [apply Ht|lia|apply Ht|lia].
  - intros Hp. rewrite Hp in Ht. cbn in Ht. rewrite app_nil_r in Ht. split; [apply Ht|lia].
  - intros ms Hp. rewrite Hp in Ht. cbn in Ht. split; [apply Ht|lia].
Qed.
End dialogue.

Section witness.
#[local] Existing Instance demo_types.

(** The session answers [hi] with two messages, and the first of them is on its way. *)
Definition demo_dialogue_labels : list SLabel :=
  [SPoll Pending; SPoll Pending; SPoll (RdNext (Some (Ok (FText (lit "hi")))));
   SPoll (RdHandler (Ok (Reply [Text (lit "one"); Text (lit "two")])));
   SPoll Pending; SPoll Pending; SPoll Pending; SPoll (RdSent (Ok tt))].
Definition demo_dialogue : Session :=
  default (session_init ws_default 0%N) (session_run ws_default demo_dialogue_labels (session_init ws_default 0%N)).

Lemma session_dialogue_witness :
  pc demo_dialogue = PReply [Text (lit "two")] ∧ said demo_dialogue = [FText (lit "one")]
  ∧ said demo_dialogue ++ frames_of [Text (lit "two")]
    = frames_of (concat (answers ws_default demo_dialogue_labels (session_init ws_default 0%N))).
Proof.
  assert (session_run ws_default demo_dialogue_labels (session_init ws_default 0%N) = Some demo_dialogue) as Hrun
    by (vm_compute; reflexivity).
  assert (pc demo_dialogue = PReply [Text (lit "two")]) as Hp by (vm_compute; reflexivity).
  destruct (session_dialogue ws_default 0%N demo_dialogue_labels demo_dialogue Hrun) as (_ & _ & _ & _ & H).
  split; [exact Hp|]. split; [vm_compute; reflexivity|]. exact (proj1 (H _ Hp)).
Defined.
End witness.
