(* ===== verification/Reference.v ===== *)
(** * A reference server

    [respond] says what a connection answers to its bytes: a pure function of the whole byte
    stream, without clocks, timers, buffers, reads in pieces or failing writes.  It cuts the
    stream into requests with [request_of], decides each with [gates_run], [application] and
    [finished], and concatenates the messages.  In a calm environment the connection loop of
    Server.v writes exactly these bytes and makes exactly these calls; pipelined requests then
    get, in order, the answers they would get each on a connection of its own. *)

From S2P Require Import Prelude Text Utf8 Radix Extensions Request RequestSpec Chunked ChunkedSpec.
From S2P Require Import Body RecvBuffer Connection Response Gate Cors Compression ServerConfig Server.
From S2P Require Import ServerSpec ServerCalm.

Section reference.
Context {AT : AnyTypes} {MM : Memmem} `{GzEncoder} {PP : PathPlugins}.

(** What one request gets: the message, the calls, and whether the connection stays open. *)
Record Reply := { rp_wire : bytes; rp_calls : list Event; rp_open : bool }.

Definition calling (evs : list Event) (rp : Reply) : Reply :=
  {| rp_wire := rp_wire rp; rp_calls := evs ++ rp_calls rp; rp_open := rp_open rp |}.

(** ** Streamed bodies: the bytes, and whether the producer ended them *)

Fixpoint raw_body (rx : list StreamEvent) : bytes * bool :=
  match rx with
  | StreamChunk d :: rx => let '(w, ok) := raw_body rx in (d ++ w, ok)
  | StreamEnd :: _ => ([], true)
  | [] => ([], false)
  end.

Fixpoint coded_body (enc : StreamingBodyEncoder) (rx : list StreamEvent) : bytes * bool :=
  match rx with
  | StreamChunk d :: rx =>
      match transform d enc with
      | Some (d, enc) => let '(w, ok) := coded_body enc rx in (encode_chunk d [] ++ w, ok)
      | None => ([], false)
      end
  | StreamEnd :: _ =>
      match finish enc with
      | Some residual => (encode_chunks [residual] [], true)
      | None => ([], false)
      end
  | [] => ([], false)
  end.

Context (server : Server).

Definition reported (head : RequestHead) (st : N) : list Event :=
  (λ m, EvResponse m head st) <$> middlewares server.

Definition streamed_reply (s : StreamingResponse) (head : RequestHead) (ka : bool) : Reply :=
  let hd := streaming_head server s head in
  match version head with
  | Http10 =>
      let '(w, ok) := if is_bodyless_status (status hd) then ([], true) else raw_body (s_rx s) in
      {| rp_wire := serialize_streaming_head_http10 hd ++ w;
         rp_calls := if ok then reported head (status hd) else []; rp_open := false |}
  | Http11 =>
      let '(hd', enc) := prepare_streaming_compression server head hd in
      let '(w, ok) := if is_bodyless_status (status hd') then ([], true) else coded_body enc (s_rx s) in
      {| rp_wire := serialize_chunked_head ka hd' ++ w;
         rp_calls := if ok then reported head (status hd) else []; rp_open := ka && ok |}
  end.

(** ** Whole responses *)

Definition whole_reply (head : RequestHead) (r : Response) (ka : bool) : Reply :=
  {| rp_wire := serialize ka r; rp_calls := reported head (status r); rp_open := ka |}.

Definition last_reply (r : Response) : Reply :=
  {| rp_wire := serialize false r; rp_calls := []; rp_open := false |}.

(** The interceptors' changes, CORS and compression. *)
Definition finished (head : RequestHead) (r : Response) : Response :=
  let r := foldl (λ acc i, map_response i head acc) r (interceptors server) in
  let r := apply_cors server head r in
  match compression_config server with
  | Some config =>
      match plan_compression head config r with
      | Skip r => r
      | Compress r => attach_compressed r (compress_body (r_body r))
      end
  | None => r
  end.

(** The first interceptor that answers, or else the path plugins. *)
Definition intercepted (head : RequestHead) (body : bytes) : option Response :=
  foldr (λ i, first_some (intercept i head body)) (try_intercept server head body) (interceptors server).

(** Who makes the response. *)
Definition application (head : RequestHead) (body : bytes) :
    list Event * (Response + StreamingResponse) :=
  match intercepted head body, handler server with
  | Some r, _ => ([], inl r)
  | None, None => ([], inl (response_empty 404))
  | None, Some h =>
      match handle_streaming h head body with
      | Some s => ([EvStream head body], inr s)
      | None => ([EvHandle head body], inl (handle h head body))
      end
  end.

(** ** One request, with [rest] behind it on the connection *)

Definition admitted_reply (head : RequestHead) (body : bytes) (ka : bool) (rest : bytes) : Reply :=
  if existsb (λ h, upgrade_matches h head) (upgrade_handlers server) then
    match List.find (websocket_matches head) (websocket_configs server) with
    | Some _ => {| rp_wire := []; rp_calls := [EvUpgrade head rest []]; rp_open := false |}
    | None => last_reply (response_empty 501)
    end
  else
    let '(evs, made) := application head body in
    calling (EvApplication head body :: evs)
      match made with
      | inl r => whole_reply head (finished head r) ka
      | inr s => streamed_reply s head ka
      end.

(** The gates that are asked: up to the first that rejects. *)
Fixpoint gates_asked (gs : list RequestGate) (head : RequestHead) (ctx : GateContext)
    (ext : RequestExtensions) : list Event :=
  match gs with
  | [] => []
  | g :: gs =>
      EvGate (gate_name g) head ::
      match check g head ctx ext with
      | (Allow, ext) => gates_asked gs head ctx ext
      | (Reject _, _) => []
      end
  end.

Definition may_keep_alive (served : N) (head : RequestHead) : bool :=
  keep_alive_enabled server && should_keep_alive head && (served <? max_requests server)%N.

Definition answer (ctx : GateContext) (served : N) (req : HttpRequest) (rest : bytes) : Reply :=
  let head := Connection.head req in
  let ka := may_keep_alive served head in
  calling (((λ m, EvRequest m head) <$> middlewares server) ++ gates_asked (gates server) head ctx ext_new)
    match gates_run (gates server) head ctx ext_new with
    | (Some rejection, _) => whole_reply head rejection ka
    | (None, ext) => admitted_reply (admitted_head ext head) (Connection.body req) ka rest
    end.

(** ** The connection *)

Fixpoint respond_from (fuel : nat) (ctx : GateContext) (served : N) (input : bytes) : bytes * list Event :=
  match fuel with
  | O => ([], [])
  | S fuel =>
      match request_of (srv_max_body_bytes server) input with
      | Ok None => ([], [])
      | Err e => (match request_error_response e with Some r => serialize false r | None => [] end, [])
      | Ok (Some (req, n)) =>
          let rest := drop n input in
          let rp := answer ctx (served + 1) req rest in
          let '(out, trace) := if rp_open rp then respond_from fuel ctx (served + 1) rest else ([], []) in
          (rp_wire rp ++ out, rp_calls rp ++ trace)
      end
  end.

(** Every request takes at least one byte of the input. *)
Definition respond (ctx : GateContext) (input : bytes) : bytes * list Event :=
  respond_from (S (length input)) ctx 0 input.

End reference.
