(* ===== verification/ReferenceSpec.v ===== *)
(** * A calm connection is the reference server

    [computes] is a logic for effects in a calm environment: the result, the bytes and the calls
    are values of the reference.  Every stage of Server.v computes its counterpart in
    Reference.v, and so the connection loop computes [respond]. *)

From S2P Require Import Prelude Text Utf8 Radix Extensions Request RequestSpec Chunked ChunkedSpec.
From S2P Require Import Body RecvBuffer Connection Response Gate Cors Compression ServerConfig Server.
From S2P Require Import ServerSpec ServerCalm Reference.

(** ** A logic for effects that are determined *)

Section logic.
Context {AT : AnyTypes} {PP : PathPlugins}.
Context (rest : bytes).

(** With [rest] still to come, [m] returns [x], writes [w] and calls [evs]. *)
Definition computes {A} (m : M A) (x : A) (w : bytes) (evs : list Event) : Prop := ∀ c,
  pending (c_buf c) (c_reader c) = rest →
  ∃ c' evs', m c = Some (x, c') ∧ frame c c' w evs' ∧ Forall2 same_event evs' evs.

Lemma computes_ret {A} (x : A) : computes (mret x) x [] [].
Proof. intros c _. exists c, []. unfold frame. rewrite !app_nil_r. by split_and!. Qed.

Lemma computes_bind {A B} (m : M A) (k : A → M B) x w evs y w' evs' :
  computes m x w evs → computes (k x) y w' evs' → computes (m ≫= k) y (w ++ w') (evs ++ evs').
Proof.
  intros H1 H2 c Hc. destruct (H1 c Hc) as (c1 & e1 & E1 & (F1 & F2 & F3 & F4) & Hs1).
  destruct (H2 c1) as (c2 & e2 & E2 & (G1 & G2 & G3 & G4) & Hs2); [by rewrite F1, F2|].
  exists c2, (e1 ++ e2). unfold mbind, M_bind. rewrite E1. split; [done|].
  split; [|by apply Forall2_app]. unfold frame. by rewrite G1, G2, G3, G4, F1, F2, F3, F4, !(assoc_L (++)).
Qed.

(** An effect with a known result, no writes and no calls. *)
Lemma computes_pure {A B} (m : M A) (k : A → M B) x y w evs :
  computes m x [] [] → computes (k x) y w evs → computes (m ≫= k) y w evs.
Proof. apply (computes_bind m k x [] []). Qed.

(** An effect whose result does not matter. *)
Lemma computes_silent {A B} (m : M A) (k : A → M B) y w evs :
  silent m → (∀ x, computes (k x) y w evs) → computes (m ≫= k) y w evs.
Proof.
  intros H1 H2 c Hc. destruct (H1 c) as (x & c1 & w1 & e1 & E1 & (F1 & F2 & F3 & F4) & -> & ->).
  rewrite app_nil_r in F3, F4. destruct (H2 x c1) as (c2 & e2 & E2 & (G1 & G2 & G3 & G4) & Hs2); [by rewrite F1, F2|].
  exists c2, e2. unfold mbind, M_bind. rewrite E1. split; [done|]. split; [|done].
  unfold frame. by rewrite G1, G2, G3, G4, F1, F2, F3, F4.
Qed.

Lemma computes_observe {A} (f : nat → A) v : (∀ k, f k = v) → computes (observe f) v [] [].
Proof.
  intros Hf c _. eexists _, []. unfold observe. rewrite Hf. split; [reflexivity|]. split; [|done].
  unfold frame. cbn. by rewrite !app_nil_r.
Qed.

Lemma computes_emit evs : computes (emit evs) tt [] evs.
Proof.
  intros c _. eexists _, evs. split; [reflexivity|]. split; [|apply same_events_refl].
  unfold frame. cbn. by rewrite app_nil_r.
Qed.

Lemma computes_put_out b : computes (put_out b) tt b [].
Proof.
  intros c _. eexists _, []. split; [reflexivity|]. split; [|done]. unfold frame. cbn. by rewrite app_nil_r.
Qed.

Lemma computes_eq {A} (m : M A) x w evs w' evs' :
  computes m x w evs → w = w' → evs = evs' → computes m x w' evs'.
Proof. by intros ? -> ->. Qed.

(** [m] followed by nothing but its result. *)
Lemma computes_then {A} (m : M unit) (y : A) w evs :
  computes m tt w evs → computes (m ;; mret y) y w evs.
Proof.
  intros Hm. eapply computes_eq; [eapply computes_bind; [exact Hm|apply computes_ret]|by rewrite app_nil_r..].
Qed.

End logic.

#[local] Hint Resolve silent_put_send silent_get silent_observe silent_shrink_send silent_io_timeout silent_elapsed : effects.

Section calm.
Context {AT : AnyTypes} {MM : Memmem} `{GzEncoder} {PP : PathPlugins}.
Context (server : Server) (env : Env) (Hcalm : calm env (max_connection_lifetime server)).
Context (rest : bytes).

#[local] Abbreviation computes := (computes rest).

Lemma computes_write_all data t : computes (write_all env data t) true data [].
Proof.
  unfold write_all. eapply computes_pure; [by apply computes_observe; intros k; eapply calm_write|].
  apply computes_then, computes_put_out.
Qed.

Lemma computes_timed_write data : computes (timed_write env server data) true data [].
Proof. apply computes_silent; [apply silent_io_timeout|]. intros t. apply computes_write_all. Qed.

Lemma computes_recv_expired : computes (recv_expired env server) false [] [].
Proof.
  apply computes_silent; [apply silent_io_timeout|]. intros t. apply computes_observe. intros k.
  by eapply calm_recv.
Qed.

Lemma computes_load_shutdown : computes (load_shutdown env) false [] [].
Proof. apply computes_observe. intros k. by eapply calm_shutdown. Qed.

Lemma computes_still_alive ka : computes (still_alive env server ka) ka [] [].
Proof.
  unfold still_alive. destruct ka; [|apply computes_ret]. intros c Hc.
  assert (computes (stop ← load_shutdown env; mret (negb stop)) true [] []) as Hload.
  { eapply computes_pure; [apply computes_load_shutdown|]. apply computes_ret. }
  unfold elapsed, observe, mbind, M_bind.
  rewrite (proj2 (N.ltb_lt _ _)) by (apply (calm_elapsed _ _ Hcalm)).
  destruct (Hload {| c_tick := S (c_tick c); c_reader := c_reader c; c_buf := c_buf c; c_send := c_send c;
    c_out := c_out c; c_trace := c_trace c |} Hc) as (c' & evs' & E & F & Hs).
  by exists c', evs'.
Qed.

(** The last message of a connection. *)
Lemma computes_last r :
  computes (write_all env (serialize false r) None ;; mret Return) Return (serialize false r) [].
Proof.
  eapply computes_eq; [eapply computes_bind; [apply computes_write_all|apply computes_ret]|..];
    by rewrite ?app_nil_r.
Qed.

(** ** Streaming *)

Definition completion (ok ka : bool) (st : N) : option StreamingCompletion :=
  if ok then Some {| sc_keep_alive := ka; sc_status := st |} else None.

Lemma computes_stream_http10 st rx :
  computes (stream_http10 env server st rx) (completion (raw_body rx).2 false st) (raw_body rx).1 [].
Proof.
  induction rx as [|[d|] rx IH]; cbn [stream_http10 raw_body];
    (eapply computes_pure; [apply computes_recv_expired|]); [apply computes_ret| |apply computes_ret].
  destruct (raw_body rx) as [w ok]. case_bool_decide as Hd; [subst d; exact IH|].
  apply (computes_bind _ _ _ _ _ [] _ _ [] (computes_timed_write d) IH).
Qed.

Lemma computes_stream_chunked ka st enc rx :
  computes (stream_chunked env server ka st enc rx)
    (completion (coded_body enc rx).2 ka st) (coded_body enc rx).1 [].
Proof.
  revert enc. induction rx as [|[d|] rx IH]; intros enc; cbn [stream_chunked coded_body];
    (eapply computes_pure; [apply computes_recv_expired|]); [apply computes_ret| |].
  - destruct (transform d enc) as [[d' enc']|]; [|apply computes_ret]. specialize (IH enc').
    destruct (coded_body enc' rx) as [w ok]. case_bool_decide as Hd; [by rewrite Hd|].
    apply (computes_bind _ _ _ _ _ [] _ _ [] (computes_timed_write _) IH).
  - destruct (finish enc) as [residual|]; [|apply computes_ret]. rewrite <- encode_chunks_last.
    eapply computes_eq; [eapply computes_bind; [apply computes_timed_write|]|..].
    + eapply computes_pure; [apply computes_still_alive|]. apply computes_ret.
    + by rewrite app_nil_r.
    + done.
Qed.

(** Reports and the decision behind a streamed response. *)
Lemma computes_completion head ok ka st :
  computes
    match completion ok ka st with
    | Some sc =>
        observers server (λ m, EvResponse m head (sc_status sc)) ;;
        mret (if sc_keep_alive sc then Continue else Return)
    | None => mret Return
    end (if ka && ok then Continue else Return) [] (if ok then reported server head st else []).
Proof.
  destruct ok; cbn [completion]; rewrite ?andb_true_r, ?andb_false_r; [|apply computes_ret].
  apply computes_then, computes_emit.
Qed.

Definition flow_of (rp : Reply) : Flow := if rp_open rp then Continue else Return.

Definition replies (m : M Flow) (rp : Reply) : Prop := computes m (flow_of rp) (rp_wire rp) (rp_calls rp).

(** What a streamed response writes, and whether it is complete. *)
Definition streamed_wire (s : StreamingResponse) (head : RequestHead) (ka : bool) : bytes * bool :=
  let hd := streaming_head server s head in
  match version head with
  | Http10 =>
      let '(w, ok) := if is_bodyless_status (status hd) then ([], true) else raw_body (s_rx s) in
      (serialize_streaming_head_http10 hd ++ w, ok)
  | Http11 =>
      let '(hd', enc) := prepare_streaming_compression server head hd in
      let '(w, ok) := if is_bodyless_status (status hd') then ([], true) else coded_body enc (s_rx s) in
      (serialize_chunked_head ka hd' ++ w, ok)
  end.

Lemma computes_write_streaming s head ka :
  computes (write_streaming_response env server s head ka)
    (completion (streamed_wire s head ka).2 (match version head with Http10 => false | Http11 => ka end)
       (status (streaming_head server s head))) (streamed_wire s head ka).1 [].
Proof.
  unfold streamed_wire, write_streaming_response. set (hd := streaming_head server s head).
  destruct (version head).
  - destruct (if is_bodyless_status (status hd) then _ else _) as [w ok] eqn:Eb. cbn [fst snd].
    eapply (computes_bind _ _ _ _ _ []); [apply computes_timed_write|]. cbn [negb].
    pose proof (computes_stream_http10 (status hd) (s_rx s)) as Hs.
    destruct (is_bodyless_status (status hd)); [injection Eb as <- <-; apply computes_ret|].
    by rewrite Eb in Hs.
  - destruct (prepare_streaming_compression server head hd) as [hd' enc] eqn:Ep.
    destruct (if is_bodyless_status (status hd') then _ else _) as [w ok] eqn:Eb. cbn [fst snd].
    eapply computes_pure; [apply computes_still_alive|].
    eapply (computes_bind _ _ _ _ _ []); [apply computes_timed_write|]. cbn [negb].
    pose proof (computes_stream_chunked ka (status hd) enc (s_rx s)) as Hs.
    destruct (is_bodyless_status (status hd')).
    + injection Eb as <- <-. eapply computes_pure; [apply computes_still_alive|]. apply computes_ret.
    + by rewrite Eb in Hs.
Qed.

Lemma computes_streamed_reply s head ka :
  replies
    (completion ← write_streaming_response env server s head ka;
     match completion with
     | Some sc =>
         observers server (λ m, EvResponse m head (sc_status sc)) ;;
         mret (if sc_keep_alive sc then Continue else Return)
     | None => mret Return
     end) (streamed_reply server s head ka).
Proof.
  unfold replies, streamed_reply. pose proof (computes_write_streaming s head ka) as Hw. unfold streamed_wire in Hw.
  destruct (version head).
  - destruct (if is_bodyless_status _ then _ else _) as [w ok].
    eapply computes_eq; [eapply computes_bind with (evs := []); [exact Hw|apply computes_completion]|by rewrite app_nil_r|done].
  - destruct (prepare_streaming_compression _ _ _) as [hd' enc]. destruct (if is_bodyless_status _ then _ else _) as [w ok].
    eapply computes_eq; [eapply computes_bind with (evs := []); [exact Hw|apply computes_completion]|by rewrite app_nil_r|done].
Qed.

(** ** One request *)

Lemma computes_finished head r :
  computes
    (finalize_response env server head (foldl (λ acc i, map_response i head acc) r (interceptors server)))
    (finished server head r) [] [].
Proof.
  unfold finalize_response, finished. destruct (compression_config server) as [config|]; [|apply computes_ret].
  destruct (plan_compression _ _ _) as [r'|r']; [apply computes_ret|].
  destruct (_ <=? _)%N; [|apply computes_ret].
  eapply computes_pure; [apply computes_observe; intros k; by eapply calm_join|]. apply computes_ret.
Qed.

Lemma computes_send_response head r ka :
  replies (send_response env server head r ka) (whole_reply server head r ka).
Proof.
  unfold replies, send_response, serialize_response. cbn [rp_wire rp_calls whole_reply].
  eapply computes_eq; [eapply computes_pure with (x := serialize ka r)|..].
  - apply computes_silent; [apply silent_put_send|]. intros _. apply computes_ret.
  - eapply computes_bind; [apply computes_write_all|]. cbn [negb].
    apply computes_silent; [apply silent_shrink_send|]. intros _. apply computes_then, computes_emit.
  - apply app_nil_r.
  - done.
Qed.

Lemma intercepted_first head body :
  match list_find (λ i, is_Some (intercept i head body)) (interceptors server) with
  | Some (_, i) => intercept i head body
  | None => try_intercept server head body
  end = intercepted server head body.
Proof.
  unfold intercepted. induction (interceptors server) as [|i l IH]; [done|]. cbn [list_find foldr].
  case_decide as Hi; [by destruct Hi as [r ->]|].
  apply eq_None_not_Some in Hi. rewrite Hi. cbn [first_some]. rewrite <- IH.
  by destruct (list_find _ l) as [[]|].
Qed.

Lemma computes_upgrade head :
  replies
    (leftover ← get (λ c, unread (c_buf c));
     stream ← get c_reader;
     upgraded ← try_handle_upgrade server stream head leftover;
     if upgraded : bool then mret Return
     else write_all env (serialize false (response_empty 501)) None ;; mret Return)
    match List.find (websocket_matches head) (websocket_configs server) with
    | Some _ => {| rp_wire := []; rp_calls := [EvUpgrade head rest []]; rp_open := false |}
    | None => last_reply (response_empty 501)
    end.
Proof.
  unfold replies, try_handle_upgrade. destruct (List.find _ _) as [config|].
  - intros c Hc. eexists _, _. split; [reflexivity|]. split.
    + unfold frame. cbn. by rewrite app_nil_r.
    + repeat constructor. cbn. by rewrite app_nil_r.
  - apply computes_silent; [apply silent_get|]. intros leftover.
    apply computes_silent; [apply silent_get|]. intros stream.
    eapply computes_pure; [apply computes_ret|]. apply computes_last.
Qed.

Lemma computes_admitted head body ka :
  replies (serve_admitted env server head body ka) (admitted_reply server head body ka rest).
Proof.
  unfold serve_admitted, admitted_reply. destruct (existsb _ _).
  { unfold replies. eapply computes_pure; [apply computes_load_shutdown|]. apply computes_upgrade. }
  rewrite intercepted_first. cbv zeta.
  assert (∀ m evs made, computes m (flow_of made) (rp_wire made) (evs ++ rp_calls made) →
    replies (emit [EvApplication head body] ;; m) (calling (EvApplication head body :: evs) made)) as Happ.
  { intros m evs made. exact (computes_bind rest _ (λ _, m) _ [] [_] _ _ _ (computes_emit rest _)). }
  assert (∀ (m : M Response) evs r, computes m r [] evs →
    computes (response ← m;
      response ← finalize_response env server head
        (foldl (λ acc i, map_response i head acc) response (interceptors server));
      keep_alive ← still_alive env server ka;
      send_response env server head response keep_alive)
      (flow_of (whole_reply server head (finished server head r) ka))
      (rp_wire (whole_reply server head (finished server head r) ka))
      (evs ++ rp_calls (whole_reply server head (finished server head r) ka))) as Hwhole.
  { intros m evs r Hm. eapply (computes_bind rest _ _ _ []); [exact Hm|].
    eapply computes_pure; [apply computes_finished|].
    eapply computes_pure; [apply computes_still_alive|]. apply computes_send_response. }
  unfold application. destruct (intercepted server head body) as [r|].
  { destruct (handler server); apply Happ, Hwhole, computes_ret. }
  destruct (handler server) as [h|]; [|apply Happ, Hwhole, computes_ret].
  destruct (handle_streaming h head body) as [s|].
  - apply Happ. exact (computes_bind rest _ _ _ [] [_] _ _ _ (computes_emit rest _) (computes_streamed_reply s head ka)).
  - apply Happ, Hwhole, computes_then, computes_emit.
Qed.

Lemma computes_gates gs head ctx ext :
  computes (first_rejection gs head ctx ext) (gates_run gs head ctx ext) [] (gates_asked gs head ctx ext).
Proof.
  revert ext. induction gs as [|g gs IH]; intros ext; cbn [first_rejection gates_run gates_asked];
    [apply computes_ret|].
  eapply (computes_bind rest _ _ _ [] [_]); [apply computes_emit|].
  destruct (check g head ctx ext) as [[|r] ext']; [apply IH|apply computes_ret].
Qed.

Lemma computes_answer ctx served req :
  extensions (Connection.head req) = ext_new →
  replies (serve_request env server ctx served req) (answer server ctx served req rest).
Proof.
  intros Hext. unfold serve_request, answer. cbv zeta. set (h := Connection.head req) in *.
  unfold replies. cbn [calling rp_wire rp_calls]. rewrite <- (assoc_L (++)).
  eapply (computes_bind rest _ _ _ []); [apply computes_emit|].
  eapply computes_pure; [apply computes_still_alive|]. rewrite Hext. change (ext_is_empty ext_new) with true.
  cbn [negb]. eapply (computes_bind rest _ _ _ []); [apply computes_gates|].
  destruct (gates_run (gates server) h ctx ext_new) as [[r|] ext];
    [apply computes_send_response|apply computes_admitted].
Qed.

End calm.

Section connection.
Context {AT : AnyTypes} {MM : Memmem} `{GzEncoder} {PP : PathPlugins}.

Lemma computes_error (env : Env) (server : Server) rest e :
  calm env (max_connection_lifetime server) →
  computes rest
    match request_error_response e with
    | Some response => write_all env (serialize false response) None ;; mret Return
    | None => mret Return
    end Return
    match request_error_response e with Some r => serialize false r | None => [] end [].
Proof.
  intros Hc. destruct (request_error_response e) as [r|]; [by eapply computes_last|apply computes_ret].
Qed.

Lemma connection_loop_responds env server ctx fuel served c :
  calm env (max_connection_lifetime server) →
  conn_ok (c_buf c) (c_reader c) → length (pending (c_buf c) (c_reader c)) < fuel →
  ∃ c' evs, connection_loop env server fuel ctx served c = Some (tt, c')
    ∧ c_out c' = c_out c ++ (respond_from server fuel ctx served (pending (c_buf c) (c_reader c))).1
    ∧ c_trace c' = c_trace c ++ evs
    ∧ Forall2 same_event evs (respond_from server fuel ctx served (pending (c_buf c) (c_reader c))).2.
Proof.
  intros Hc. revert served c. induction fuel as [|fuel IH]; intros served c Hok Hf; [lia|].
  cbn [connection_loop respond_from]. unfold mbind at 1, M_bind at 1.
  destruct (read_request_spec (srv_max_body_bytes server) _ _ Hok) as (r & buf & reader & Hr & Hs).
  rewrite (serve_one_calm _ _ _ _ _ _ _ _ Hc Hr).
  destruct (request_of _ _) as [[[req n]|]|e] eqn:Eq.
  - destruct Hs as (-> & Hok1 & Hp & Hn & _). cbn [after_read].
    destruct (request_of_head _ _ _ _ Eq) as [Hext Hpos].
    destruct (computes_answer server env Hc _ ctx (served + 1) req Hext (set_io buf reader c) Hp)
      as (c1 & evs & -> & (F1 & F2 & F3 & F4) & Hev). unfold flow_of.
    set (rp := answer _ _ _ _ _) in *. destruct (rp_open rp).
    + cbn [c_buf c_reader set_io] in F1, F2. rewrite <- F1, <- F2 in Hp, Hok1.
      destruct (IH (served + 1)%N c1 Hok1) as (c2 & evs2 & -> & Ho2 & Ht2 & Hev2);
        [rewrite Hp, length_drop; lia|].
      rewrite Hp in Ho2, Hev2. destruct (respond_from _ _ _ _ (drop n _)) as [out trace].
      exists c2, (evs ++ evs2). rewrite Ho2, F3, Ht2, F4. cbn. rewrite !(assoc_L (++)).
      split_and!; [done..|]. by apply Forall2_app.
    + exists c1, evs. rewrite F3, F4. cbn. rewrite !app_nil_r. by split_and!.
  - subst r. exists (set_io buf reader c), []. cbn. rewrite !app_nil_r. by split_and!.
  - subst r. cbn [after_read].
    destruct (computes_error env server (pending buf reader) e Hc (set_io buf reader c) eq_refl)
      as (c1 & evs & -> & (F1 & F2 & F3 & F4) & Hev). exists c1, evs. rewrite F3, F4. by split_and!.
Qed.

Lemma handle_connection_responds env server reader peer :
  calm env (max_connection_lifetime server) → reader_ok reader →
  ∃ c, handle_connection_with_permit env server reader peer = Some c
    ∧ c_out c = (respond server {| peer_addr := peer |} (stream reader)).1
    ∧ Forall2 same_event (c_trace c) (respond server {| peer_addr := peer |} (stream reader)).2.
Proof.
  intros Hc Hr. unfold handle_connection_with_permit, respond.
  destruct (connection_loop_responds env server {| peer_addr := peer |} (conn_fuel reader) 0 (conn_new reader))
    as (c & evs & -> & Ho & Ht & Hev); [done|by apply rb_new_conn_ok|cbn; unfold conn_fuel; lia|].
  exists c. split; [done|]. cbn in Ho, Ht. by rewrite Ho, Ht.
Qed.

(** C7: the connection loop implements the reference server.  In a calm environment, whatever
    the clocks show and however the transport cuts the bytes into reads, a connection writes
    exactly the bytes of [respond], a pure function of the server, the peer and the bytes the
    client sent, and makes exactly its calls in the same order; an upgraded session is given
    exactly the bytes behind the upgrade request.  So buffers, pieces, keep-alive bookkeeping
    and streaming add nothing to, and take nothing from, what is served. *)
Theorem connection_refines_reference env server reader peer :
  calm env (max_connection_lifetime server) → reader_ok reader →
  ∃ c, handle_connection_with_permit env server reader peer = Some c
    ∧ c_out c = (respond server {| peer_addr := peer |} (stream reader)).1
    ∧ Forall2 same_event (c_trace c) (respond server {| peer_addr := peer |} (stream reader)).2.
Proof. apply handle_connection_responds. Qed.

(** ** Pipelined requests *)

(** [b] is exactly one request. *)
Definition one_request (server : Server) (b : bytes) (req : HttpRequest) : Prop :=
  request_of (srv_max_body_bytes server) b = Ok (Some (req, length b)).

(** Which request comes when only matters through keep-alive, and what follows only to upgrades. *)
Lemma answer_position server ctx s1 s2 req rest1 rest2 :
  (s1 < max_requests server)%N → (s2 < max_requests server)%N →
  rp_wire (answer server ctx s1 req rest1) = rp_wire (answer server ctx s2 req rest2)
  ∧ rp_open (answer server ctx s1 req rest1) = rp_open (answer server ctx s2 req rest2).
Proof.
  intros H1%N.ltb_lt H2%N.ltb_lt. unfold answer, may_keep_alive. rewrite H1, H2. cbv zeta.
  destruct (gates_run _ _ _ _) as [[r|] ext]; [done|]. cbn [calling rp_wire rp_open].
  unfold admitted_reply. destruct (existsb _ _); [by destruct (List.find _ _)|].
  by destruct (application server _ _) as [evs [r|s]].
Qed.

(** A request at the front, with anything behind it. *)
Lemma respond_from_request server fuel ctx served b req rest :
  one_request server b req →
  let rp := answer server ctx (served + 1) req rest in
  respond_from server (S fuel) ctx served (b ++ rest)
  = let '(out, trace) := if rp_open rp then respond_from server fuel ctx (served + 1) rest else ([], []) in
    (rp_wire rp ++ out, rp_calls rp ++ trace).
Proof.
  intros Hb. cbn [respond_from]. pose proof (request_self_delimiting _ _ _ _ rest Hb) as [_ Hr].
  rewrite firstn_all in Hr. rewrite Hr. by rewrite drop_app_length.
Qed.

Lemma one_request_positive server b req : one_request server b req → 0 < length b.
Proof. intros Hb. by apply request_of_head in Hb as [_ ?]. Qed.

Lemma respond_from_nil server fuel ctx served : respond_from server fuel ctx served [] = ([], []).
Proof. by destruct fuel. Qed.

(** A request alone on a connection gets its reply and nothing else. *)
Lemma respond_alone server ctx b req :
  one_request server b req → (respond server ctx b).1 = rp_wire (answer server ctx 1 req []).
Proof.
  intros Hb. unfold respond. rewrite <- (app_nil_r b) at 2. rewrite (respond_from_request _ _ _ _ _ req); [|done].
  cbn zeta. change (0 + 1)%N with 1%N. rewrite respond_from_nil.
  destruct (rp_open _); cbn [fst]; by rewrite app_nil_r.
Qed.

Lemma respond_pipelined server ctx bs reqs served fuel b req :
  Forall2 (one_request server) bs reqs → one_request server b req →
  Forall (λ req, rp_open (answer server ctx 1 req []) = true) reqs →
  (served + len reqs + 1 < max_requests server)%N →
  length (concat bs ++ b) < fuel →
  (respond_from server fuel ctx served (concat bs ++ b)).1
  = concat ((λ req, rp_wire (answer server ctx 1 req [])) <$> reqs) ++ rp_wire (answer server ctx 1 req []).
Proof.
  intros Hbs Hb Hopen. revert served fuel.
  induction Hbs as [|b0 req0 bs reqs Hb0 Hbs IH]; intros served fuel Hmax Hf;
    cbn [concat fmap list_fmap app] in *; (destruct fuel as [|fuel]; [lia|]).
  - rewrite <- (app_nil_r b), (respond_from_request _ _ _ _ _ req) by done. cbn zeta.
    destruct (answer_position server ctx (served + 1) 1 req [] []) as [-> _]; [lia|lia|].
    rewrite respond_from_nil. destruct (rp_open _); cbn [fst]; by rewrite app_nil_r.
  - apply Forall_cons in Hopen as [Ho Hopen]. unfold len in *. cbn [length] in Hmax.
    rewrite <- !(assoc_L (++)) in *. rewrite (respond_from_request _ _ _ _ _ req0) by done. cbn zeta.
    destruct (answer_position server ctx (served + 1) 1 req0 (concat bs ++ b) []) as [-> ->]; [lia|lia|].
    rewrite Ho. pose proof (one_request_positive _ _ _ Hb0). rewrite length_app in Hf.
    rewrite <- (IH Hopen (served + 1)%N fuel) by lia. by destruct (respond_from _ _ _ _ _).
Qed.

(** Connections that carry one request each. *)
Lemma connections_alone env server peer readers outs reqs :
  calm env (max_connection_lifetime server) → Forall reader_ok readers →
  Forall2 (λ r out, ∃ c, handle_connection_with_permit env server r peer = Some c ∧ c_out c = out)
    readers outs →
  Forall2 (one_request server) (stream <$> readers) reqs →
  concat outs = concat ((λ req, rp_wire (answer server {| peer_addr := peer |} 1 req [])) <$> reqs).
Proof.
  intros Hc Hrs Houts. revert reqs. induction Houts as [|r out readers outs (c1 & E1 & <-) Houts IH]; intros reqs Hall.
  { by apply Forall2_nil_inv_l in Hall as ->. }
  apply Forall2_cons_inv_l in Hall as (req & l & Hreq & Hall & ->). apply Forall_cons in Hrs as [Hr Hrs].
  cbn [fmap list_fmap concat]. rewrite <- (IH Hrs l Hall).
  destruct (handle_connection_responds env server r peer Hc Hr) as (c2 & E2 & Ho2 & _).
  rewrite E1 in E2. injection E2 as <-. by rewrite Ho2, (respond_alone _ _ _ req).
Qed.

(** C9: pipelining changes nothing.  Take requests whose replies leave the connection open, and
    one more request of any kind, all within the request limit.  In calm environments, one
    connection on which the client sends them all at once writes exactly, and in order, what
    the server writes on separate connections that carry one of the requests each: every
    request is answered, exactly once, and no answer depends on its neighbours. *)
Theorem pipelining_transparent env server reader peer bs b reqs req :
  calm env (max_connection_lifetime server) → reader_ok reader → stream reader = concat bs ++ b →
  Forall2 (one_request server) bs reqs → one_request server b req →
  Forall (λ req, rp_open (answer server {| peer_addr := peer |} 1 req []) = true) reqs →
  (len reqs + 1 < max_requests server)%N →
  ∃ c, handle_connection_with_permit env server reader peer = Some c
    ∧ ∀ env' readers outs,
        calm env' (max_connection_lifetime server) → Forall reader_ok readers →
        stream <$> readers = bs ++ [b] →
        Forall2 (λ r out, ∃ c1, handle_connection_with_permit env' server r peer = Some c1 ∧ c_out c1 = out)
          readers outs →
        c_out c = concat outs.
Proof.
  intros Hc Hr Es Hbs Hb Hopen Hmax.
  destruct (handle_connection_responds env server reader peer Hc Hr) as (c & E & Ho & _).
  exists c. split; [done|]. intros env' readers outs Hc' Hrs Est Houts. rewrite Ho, Es. unfold respond.
  rewrite (respond_pipelined _ _ _ reqs _ _ _ req) by (done || lia).
  rewrite (connections_alone env' server peer readers outs (reqs ++ [req])); [|done..|].
  - rewrite fmap_app, concat_app. cbn [fmap list_fmap concat]. by rewrite app_nil_r.
  - rewrite Est. by apply Forall2_app; auto.
Qed.

End connection.

(** ** The demo connection *)

#[local] Existing Instance demo_types.
#[local] Existing Instance naive_memmem.

Lemma demo_env_calm : calm demo_env (max_connection_lifetime demo_server).
Proof.
  constructor; try done. intros k. cbn [env_elapsed demo_env].
  change (max_connection_lifetime demo_server) with 300000000000%N. lia.
Qed.

(** The reference, run: a whole response, a rejection and a stream. *)
Example demo_respond :
  (respond demo_server {| peer_addr := None |} demo_pipeline).1
  = lit "HTTP/1.1 200 OK" ++ CRLF ++ lit "Content-Length: 2" ++ CRLF ++ CRLF ++ lit "hi"
    ++ lit "HTTP/1.1 403 Forbidden" ++ CRLF ++ lit "Content-Length: 0" ++ CRLF ++ CRLF
    ++ lit "HTTP/1.1 200 OK" ++ CRLF ++ lit "Content-Type: text/plain" ++ CRLF
    ++ lit "Transfer-Encoding: chunked" ++ CRLF ++ lit "Connection: close" ++ CRLF ++ CRLF
    ++ lit "8" ++ CRLF ++ lit "aaaaaaaa" ++ CRLF ++ lit "1" ++ CRLF ++ lit "b" ++ CRLF
    ++ lit "0" ++ CRLF ++ CRLF.
Proof. by vm_compute. Qed.

Lemma connection_refines_reference_witness :
  ∃ c, handle_connection_with_permit demo_env demo_server demo_pieces None = Some c
    ∧ c_out c = (respond demo_server {| peer_addr := None |} demo_pipeline).1
    ∧ Forall2 same_event (c_trace c) (respond demo_server {| peer_addr := None |} demo_pipeline).2.
Proof.
  change demo_pipeline with (stream demo_pieces).
  exact (connection_refines_reference demo_env demo_server demo_pieces None demo_env_calm demo_pieces_ok).
Defined.

Definition demo_get : bytes := lit "GET /a HTTP/1.1" ++ CRLF ++ CRLF.
Definition demo_delete : bytes := lit "DELETE /b HTTP/1.1" ++ CRLF ++ CRLF.
Definition demo_last : bytes := lit "GET /s HTTP/1.1" ++ CRLF ++ lit "Connection: close" ++ CRLF ++ CRLF.

(** The request that [b] is. *)
Definition demo_parsed (b : bytes) : HttpRequest :=
  match request_of (srv_max_body_bytes demo_server) b with
  | Ok (Some (req, _)) => req
  | _ => {| Connection.head := head_of demo_ast; Connection.body := [] |}
  end.

Lemma pipelining_transparent_witness :
  ∃ c, handle_connection_with_permit demo_env demo_server demo_pieces None = Some c
    ∧ ∀ env' readers outs,
        calm env' (max_connection_lifetime demo_server) → Forall reader_ok readers →
        stream <$> readers = [demo_get; demo_delete; demo_last] →
        Forall2 (λ r out, ∃ c1, handle_connection_with_permit env' demo_server r None = Some c1 ∧ c_out c1 = out)
          readers outs →
        c_out c = concat outs.
Proof.
  apply (pipelining_transparent demo_env demo_server demo_pieces None [demo_get; demo_delete] demo_last
    [demo_parsed demo_get; demo_parsed demo_delete] (demo_parsed demo_last) demo_env_calm demo_pieces_ok).
  - by vm_compute.
  - repeat constructor; by vm_compute.
  - by vm_compute.
  - repeat constructor; by vm_compute.
  - by vm_compute.
Defined.
