(* ===== verification/StreamIntegrity.v ===== *)
(** * When a streamed response is complete

    The wire of a streamed response over HTTP/1.1 against the channel of its producer: completed
    responses carry the producer's data, every other one is a message that no client can take for a
    complete one, and in a calm environment a response completes exactly if its producer ended it. *)

From S2P Require Import Prelude Text Utf8 Radix Extensions Request RequestSpec Chunked ChunkedSpec.
From S2P Require Import Body RecvBuffer Connection Response Gate Cors Compression ServerConfig Server.
From S2P Require Import ServerSpec ServerCalm Reference ReferenceSpec.

Section integrity.
Context {AT : AnyTypes} {MM : Memmem} `{GzEncoder} {PP : PathPlugins}.

(** The heads of a persistent and of a closing message differ before the end of either. *)
Lemma chunked_head_inj ka1 ka2 r x y :
  serialize_chunked_head ka1 r ++ x = serialize_chunked_head ka2 r ++ y → ka1 = ka2.
Proof.
  unfold serialize_chunked_head. set (out := if negb (is_bodyless_status (status r)) then _ else _). clearbody out.
  destruct ka1, ka2; cbn [negb]; rewrite <- ?(assoc_L (++)); intros E; try done; apply app_inv_head in E; discriminate E.
Qed.

(** The beginning of a head is not followed by a body. *)
Lemma chunked_head_cut ka1 ka2 r n y :
  n < length (serialize_chunked_head ka1 r) → take n (serialize_chunked_head ka1 r) ≠ serialize_chunked_head ka2 r ++ y.
Proof.
  intros Hn E. assert (ka1 = ka2) as <-.
  { apply (chunked_head_inj ka1 ka2 r [] (y ++ drop n (serialize_chunked_head ka1 r))).
    by rewrite app_nil_r, (assoc_L (++)), <- E, take_drop. }
  apply (f_equal length) in E. rewrite length_app, length_take in E. lia.
Qed.

(** The reference ends a body exactly if the producer did and the encoder had no error. *)
Lemma coded_body_ok enc rx : (coded_body enc rx).2 = true ↔ ∃ ds cs, stream_data rx = Some ds ∧ encoded enc ds = Some cs.
Proof.
  revert enc. induction rx as [|[d|] rx IH]; intros enc; cbn [coded_body stream_data]; [split; [done|by intros (? & ? & ? & _)]| |].
  - destruct (transform d enc) as [[d' enc']|] eqn:Et.
    + specialize (IH enc'). destruct (coded_body enc' rx) as [w ok]. cbn [snd] in *. rewrite IH. split.
      * intros (ds & cs & -> & Hc). exists (d :: ds), (d' :: cs). split; [done|]. by eapply encoded_cons.
      * intros (ds' & cs' & (ds & Hds & ->)%fmap_Some & Hc). exists ds. unfold encoded, transform in *.
        destruct enc as [e|]; [|injection Et as <- <-; by exists ds].
        destruct (sg_encode_chunk d e) as [[o e1]|] eqn:Ee; [|done]. injection Et as <- <-. cbn [sg_encode_all] in Hc.
        rewrite Ee in Hc. destruct (sg_encode_all ds e1) as [[outs e2]|]; [|done]. destruct (sg_finish e2); [|done]. by eexists.
    + split; [done|]. intros (ds' & cs' & (ds & Hds & ->)%fmap_Some & Hc). exfalso. unfold encoded, transform in *.
      destruct enc as [e|]; [|done]. cbn [sg_encode_all] in Hc. by destruct (sg_encode_chunk d e) as [[]|].
  - unfold finish, encoded. destruct enc as [e|]; cbn [sg_encode_all].
    + destruct (sg_finish e) as [b|] eqn:Ef; cbn; [split; [intros _; exists [], [b]; split; [done|]; cbn; by rewrite Ef|done]|]. split; [done|]. intros (ds & cs & [= <-] & Hc). cbn in Hc. by rewrite Ef in Hc.
    + split; [intros _; by exists [], []|done].
Qed.

(** C10: a streamed response is never mistaken for a complete one. Over HTTP/1.1, if streaming
    completes, the channel was ended by the producer and the wire holds the head and then the
    chunked coding, with its terminator, of the producer's data, or of what decompresses to it when the
    response was compressed. If it does not (the producer dropped the channel, a timeout, a failed
    write, an encoder error), the wire holds a beginning of the head, or the head and a strict
    beginning of such a coding (of the first chunks of the producer when they are not compressed), and
    for neither form of the head is it followed by a complete chunked body, whatever the client decodes.
    In a calm environment the response completes exactly if the producer ended it and the encoder has
    no error. *)
Theorem streaming_integrity `{!GzLaws} env server s head ka c :
  version head = Http11 →
  let '(hd, enc) := prepare_streaming_compression server head (streaming_head server s head) in
  is_bodyless_status (status hd) = false →
  ∃ r c' w, write_streaming_response env server s head ka c = Some (r, c') ∧ c_out c' = c_out c ++ w
    ∧ match r with
      | Some sc =>
          ∃ ka' cs ds, (ka' = true → ka = true) ∧ (sc_keep_alive sc = true → ka' = true)
            ∧ w = serialize_chunked_head ka' hd ++ encode_chunks cs []
            ∧ stream_data (s_rx s) = Some ds
            ∧ match enc with
              | None => concat cs = concat ds
              | Some _ => gunzip (concat cs) = Some (concat ds)
              end
      | None =>
          (∃ ka', (ka' = true → ka = true)
             ∧ ((∃ z, z ≠ [] ∧ w ++ z = serialize_chunked_head ka' hd)
                ∨ ∃ cs z, z ≠ [] ∧ w ++ z = serialize_chunked_head ka' hd ++ encode_chunks cs []
                    ∧ serialize_chunked_head ka' hd `prefix_of` w
                    ∧ (enc = None → cs `prefix_of` sent_chunks (s_rx s))))
          ∧ ∀ ka' text data n rest, chunked_body text data n → w ≠ serialize_chunked_head ka' hd ++ text ++ rest
      end
    ∧ (calm env (max_connection_lifetime server) →
       is_Some r ↔ ∃ ds cs, stream_data (s_rx s) = Some ds ∧ encoded enc ds = Some cs).
Proof.
  intros Hv. destruct (prepare_streaming_compression server head (streaming_head server s head)) as [hd enc] eqn:Ep. intros Hb.
  destruct (does_write_streaming env server s head ka c) as (r & c' & w & evs & E & (_ & _ & Ho & _) & -> & Hs).
  exists r, c', w. split; [done|]. split; [done|]. split.
  - destruct Hs as [n hd0 Ev|hd0 Ev|r w hd0 Ev|hd0 enc0 ka' n Ep' _ Hn Hka|hd0 enc0 ka' r Ep' _ Hb' _ _ _
      |hd0 enc0 ka' r w Ep' _ _ Hka Hc Hw]; try congruence; rewrite Ep in Ep'; injection Ep' as <- <-.
    + split; [|intros; by apply chunked_head_cut]. exists ka'. split; [done|]. left.
      exists (drop n (serialize_chunked_head ka' hd)). split; [|apply take_drop].
      intros E0. apply (f_equal length) in E0. rewrite length_drop in E0. cbn in E0. lia.
    + destruct r as [sc|].
      * destruct Hw as (ds & cs & Hds & Henc & ->). exists ka', cs, ds. split_and!; [done|apply Hc|done..|].
        unfold encoded in Henc. destruct enc as [e|]; [|by injection Henc as ->].
        assert (e = sg_new) as ->.
        { unfold prepare_streaming_compression, begin_streaming_compression in Ep.
          destruct (compression_config server); [|done]. repeat case_match; by simplify_eq. }
        destruct (sg_encode_all ds sg_new) as [[outs e']|] eqn:Ea; [|done].
        destruct (sg_finish e') as [last|] eqn:Ef; [|done]. injection Henc as <-.
        apply (sg_encode_all_ok _ _ [] []) in Ea; [|apply enc_ok_new]. cbn [app] in Ea.
        rewrite concat_app. cbn [concat]. rewrite app_nil_r. exact (enc_ok_finish _ _ _ _ Ea Ef).
      * destruct Hw as (cs & z & Hz & Ew & Hp). split.
        { exists ka'. split; [done|]. right. exists cs, z. split_and!; [done| |by eexists|done]. by rewrite <- Ew, (assoc_L (++)). }
        intros ka2 text data m rest Hbody E'. pose proof (chunked_head_inj _ _ _ _ _ E') as <-.
        apply app_inv_head in E'. subst w. rewrite <- (assoc_L (++)) in Ew.
        apply (chunked_body_ends _ _ _ _ _ Hbody) in Ew. by apply app_eq_nil in Ew as [_ ->].
  - intros Hcalm. destruct (computes_write_streaming server env Hcalm _ s head ka c eq_refl) as (c2 & evs & E2 & _ & _).
    rewrite E in E2. injection E2 as -> <-. rewrite <- coded_body_ok. unfold streamed_wire. rewrite Hv, Ep, Hb.
    destruct (coded_body enc (s_rx s)) as [w0 ok]. cbn. destruct ok; cbn; split; try done; by intros [? [=]].
Qed.
End integrity.

(** ** A stream of the demo server, and the same without its end *)

#[local] Existing Instance demo_types.
#[local] Existing Instance naive_memmem.

Definition demo_cut : StreamingResponse :=
  {| s_status := s_status demo_stream; s_content_type := s_content_type demo_stream; s_rx := take 1 (s_rx demo_stream) |}.

Lemma streaming_integrity_witness :
  (∃ sc c' w, write_streaming_response demo_env demo_server demo_stream (head_of demo_ast) true (conn_new []) = Some (Some sc, c')
     ∧ c_out c' = w)
  ∧ ∃ c' w, write_streaming_response demo_env demo_server demo_cut (head_of demo_ast) true (conn_new []) = Some (None, c')
     ∧ c_out c' = w.
Proof.
  assert (∀ ds : list bytes, is_Some (Some ds)) as Hsome by eauto.
  split.
  - destruct (streaming_integrity demo_env demo_server demo_stream (head_of demo_ast) true (conn_new []))
      as (r & c' & w & E & Ho & _ & Hc); [reflexivity|reflexivity|].
    destruct (proj2 (Hc demo_env_calm)) as [sc ->]; [vm_compute; eauto|]. exists sc, c', w. split; [exact E|exact Ho].
  - destruct (streaming_integrity demo_env demo_server demo_cut (head_of demo_ast) true (conn_new []))
      as (r & c' & w & E & Ho & _ & Hc); [reflexivity|reflexivity|].
    destruct r as [sc|]; [exfalso|exists c', w; split; [exact E|exact Ho]].
    destruct (proj1 (Hc demo_env_calm)) as (ds & cs & Hds & _); [eauto|]. vm_compute in Hds. discriminate Hds.
Defined.
