(* ===== verification/Secured.v ===== *)
(** * What the gates of a server promise its application

    The composition of the connection loop, the CSRF gate and the JWT gate with the shared
    authenticator behind it.  A property that a gate establishes when it lets a request pass
    ([establishes]) holds of every request that reaches an upgrade, an interceptor, a plugin or
    the handler, whatever else is configured and whatever the connection goes through. *)

From S2P Require Import Prelude Text Utf8 Radix Extensions Request RequestSpec Chunked Body RecvBuffer Connection.
From S2P Require Import Response Error Gate Cors Compression Csrf ServerConfig Server ServerSpec.
From S2P Require Import Jwt JwtSpec Dpop JwtAuth JwtAuthSpec.

(** ** Gates as contracts *)

Section gates.
Context {AT : AnyTypes}.

(** [e'] holds what [e] holds: the store is written once. *)
Definition ext_extends (e e' : RequestExtensions) : Prop := ∀ u v, ext_get u e = Some v → ext_get u e' = Some v.

#[export] Instance ext_extends_preorder : PreOrder ext_extends.
Proof. split; [by intros e u v|]. intros e1 e2 e3 H1 H2 u v Hv. by apply H2, H1. Qed.

Lemma ext_insert_extends t v e : ext_extends e (ext_insert t v e).1.
Proof.
  intros u w Hw. unfold ext_insert. destruct (existsb _ _); [done|]. cbn [fst]. by rewrite get_snoc, Hw.
Qed.

(** A gate that adds to the extensions only. *)
Definition gate_extends (g : RequestGate) : Prop := ∀ head ctx e, ext_extends e (check g head ctx e).2.

(** When [g] lets a request pass, [P] holds of its head and of the extensions from then on. *)
Definition establishes (g : RequestGate) (P : RequestHead → RequestExtensions → Prop) : Prop :=
  (∀ head ctx e e', check g head ctx e = (Allow, e') → P head e')
  ∧ ∀ head e e', ext_extends e e' → P head e → P head e'.

Lemma gates_run_extends gs head ctx e e' :
  Forall gate_extends gs → gates_run gs head ctx e = (None, e') → ext_extends e e'.
Proof.
  intros Hgs. revert e. induction Hgs as [|g gs Hg Hgs IH]; intros e; cbn [gates_run]; [by intros [= ->]|].
  pose proof (Hg head ctx e) as He. destruct (check g head ctx e) as [[|r] e1]; [|done].
  intros E%IH. by etrans.
Qed.

(** What the gates establish holds of every request they let pass. *)
Lemma gates_run_establishes gs head ctx e e' g P :
  Forall gate_extends gs → g ∈ gs → establishes g P → gates_run gs head ctx e = (None, e') → P head e'.
Proof.
  intros Hgs Hin [Hp Hmono]. revert e. induction Hgs as [|g' gs Hg Hgs IH]; intros e; cbn [gates_run].
  { by apply elem_of_nil in Hin. }
  destruct (check g' head ctx e) as [[|r] e1] eqn:E; [|done]. intros Hrun.
  apply elem_of_cons in Hin as [->|Hin]; [|by apply (IH Hin e1)].
  apply (Hmono head e1); [by eapply gates_run_extends|]. by eapply Hp.
Qed.

End gates.

(** ** The connection *)

Section connection.
Context {AT : AnyTypes} {MM : Memmem} `{GzEncoder} {PP : PathPlugins}.

(** Every call behind the gates is about a request of the stream for which they established [P]. *)
Lemma behind_gates_established env server reader peer :
  reader_ok reader → Forall gate_extends (gates server) →
  ∃ c, handle_connection_with_permit env server reader peer = Some c
    ∧ ∀ ev h, ev ∈ c_trace c → behind_gates ev = Some h →
      ∃ head ext, h = admitted_head ext head ∧ ∀ g P, g ∈ gates server → establishes g P → P head ext.
Proof.
  intros Hr Hgs. destruct (handle_connection_exchanges env server reader peer Hr) as (c & E & Hx).
  exists c. split; [done|]. intros ev h (t1 & t2 & Et)%list_elem_of_split Hb.
  destruct (exchanges_admitted _ _ _ _ _ _ Hx t1 ev t2 h Et Hb)
    as (pre & suffix & _ & req & n & ext & a & b & _ & Hrun & -> & _).
  exists (Connection.head req), ext. split; [done|]. intros g P Hg HP. by eapply gates_run_establishes.
Qed.

End connection.

(** ** The two gates *)

Section secured.
Context {AT : AnyTypes} {JC : JwtCrates} {GV : GateVerifiedType}.

Lemma csrf_gate_extends self : gate_extends (csrf_gate self).
Proof. by intros head ctx e u v. Qed.

Lemma csrf_gate_establishes self : establishes (csrf_gate self) (λ head _, csrf_evidence self head).
Proof.
  split; [|done]. intros head ctx e e' Hc. change (csrf_check self head ctx e = (Allow, e')) in Hc.
  destruct (csrf_check_spec self head ctx e) as [[Hev _] [E|E]]; [by apply Hev|congruence].
Qed.

(** [JwtGate::check], where [auth] is what [authenticate] returns for each request. *)
Definition jwt_gate (cfg : AuthConfig) (auth : RequestHead → result Claims VerifyError) : RequestGate :=
  {| gate_name := lit "jwt-gate"; check head _ ext := jwt_gate_outcome cfg head ext (auth head) |}.

Lemma jwt_gate_extends cfg auth : gate_extends (jwt_gate cfg auth).
Proof.
  intros head ctx e. cbn [check jwt_gate]. unfold jwt_gate_outcome. destruct (auth head) as [c|]; [|done].
  pose proof (ext_insert_extends gate_verified (GateVerified_new c) e) as Hi.
  by destruct (ext_insert _ _ _) as [e' [|]].
Qed.

Lemma jwt_gate_establishes cfg auth :
  establishes (jwt_gate cfg auth) (λ head ext, ∃ c, auth head = Ok c ∧ gv_claims <$> ext_get gate_verified ext = Some c).
Proof.
  split.
  - intros head ctx e e'. cbn [check jwt_gate]. unfold jwt_gate_outcome. destruct (auth head) as [c|]; [|done].
    destruct (ext_get gate_verified e) as [v|] eqn:Hg; [by rewrite (insert_taken _ _ _ v Hg)|].
    rewrite insert_fresh by done. intros [= <-]. exists c. split; [done|].
    rewrite get_snoc, Hg, downcast_eq. cbn. by rewrite gv_claims_new.
  - intros head e e' He (c & Ha & Hc). exists c. split; [done|].
    destruct (ext_get gate_verified e) as [v|] eqn:Hg; [|done]. by rewrite (He _ _ Hg).
Qed.

(** The gate's answers come from calls to the shared authenticator. *)
Definition served_by (auth : RequestHead → result Claims VerifyError) (pool : list Thread) : Prop :=
  ∀ head c, auth head = Ok c → ∃ t, t ∈ pool ∧ t_head t = head ∧ t_pc t = Returned (Ok c).

(** The token of [head] was verified, at some clock, against a key set that was current. *)
Definition token_verified (cfg : AuthConfig) (w : World) (head : RequestHead) (c : Claims) : Prop :=
  ∃ i ks s token now, published w !! i = Some ks ∧ request_credentials cfg head = Some (s, token)
    ∧ verify token ks (policy cfg) now = Ok c.

Lemma served_verified cfg interval keys w pool auth head c :
  rtc (sys_step cfg) (sys_init cfg interval keys) (w, pool) → collision_free cfg pool →
  served_by auth pool → auth head = Ok c → token_verified cfg w head c.
Proof.
  intros Hr Hcf Hs Ha. destruct (Hs _ _ Ha) as (t & Ht & <- & Hpc).
  destruct (sys_reach_ok cfg interval keys _ Hr Hcf) as [_ Hth _]. destruct (Hth t Ht) as [_ Hok].
  unfold pc_ok in Hok. rewrite Hpc in Hok. destruct Hok as (i & ks & _ & Hi & Ho).
  unfold auth_spec, outcome in Ho. destruct (request_credentials cfg (t_head t)) as [[s token]|] eqn:Ec; [|done].
  exists i, ks, s, token, (t_now t). split_and!; [done..|].
  destruct (verify token ks (policy cfg) (t_now t)) as [c'|]; cbn [rbind] in Ho; [|done].
  destruct (dpop cfg) as [d|]; [|by injection Ho as ->].
  destruct (check_binding _ _ _ _ _ _) as [[p|]|]; cbn [rbind] in Ho; [|by injection Ho as ->|done].
  destruct Ho as [Ho|[Ho|Ho]]; by simplify_eq.
Qed.

(** A call alone with the authenticator, as a run of the system. *)
Lemma lone_call_reach cfg fuel t w w' r :
  run_call fuel cfg (t_head t) (t_now t) w (t_pc t) = (w', Some r) →
  rtc (sys_step cfg) (w, [t]) (w', [set_pc (Returned r) t]).
Proof.
  revert t w. induction fuel as [|fuel IH]; intros t w.
  - destruct t as [h now from []]; cbn; by intros [= <- <-].
  - intros Hrun. destruct (step cfg (t_head t) (t_now t) w (t_pc t)) as [w1 pc1] eqn:Es.
    assert ((∃ r', t_pc t = Returned r')
      ∨ run_call fuel cfg (t_head t) (t_now t) w1 pc1 = (w', Some r)) as [[r' Er]|Hnext].
    { cbn [run_call] in Hrun. rewrite Es in Hrun. destruct (t_pc t); auto. left. by eexists. }
    + rewrite Er in Hrun. injection Hrun as <- <-. destruct t. cbn in Er. by subst.
    + apply (rtc_l _ _ (w1, [set_pc pc1 t])); [by apply (sys_run cfg w [t] 0 t w1 pc1)|].
      exact (IH (set_pc pc1 t) w1 Hnext).
Qed.

End secured.

Section claim.
Context {AT : AnyTypes} {MM : Memmem} `{GzEncoder} {PP : PathPlugins} {JC : JwtCrates} {GV : GateVerifiedType}.

Lemma csrf_evidence_admitted self ext head : csrf_evidence self head → csrf_evidence self (admitted_head ext head).
Proof.
  unfold admitted_head. destruct (ext_is_empty ext); [done|].
  intros [Hm|Hp|v Hv Hin|o Hs Ho Hin];
    [by apply ev_safe_method|by apply ev_exempt|by eapply ev_fetch_site|by eapply ev_origin].
Qed.

Lemma request_credentials_admitted cfg ext head :
  request_credentials cfg (admitted_head ext head) = request_credentials cfg head.
Proof. unfold admitted_head. by destruct (ext_is_empty ext). Qed.

Lemma verified_admitted ext head c :
  gv_claims <$> ext_get gate_verified ext = Some c → verified (admitted_head ext head) = Some c.
Proof.
  intros Hc. unfold admitted_head, verified. destruct ext as [[|e es]]; [done|exact Hc].
Qed.

(** C8: no forged and no unauthenticated request reaches the application.  Take a server that has
    the CSRF gate and the JWT gate among its gates, in any order, with others that only add
    to the extensions, in front of an authenticator that any number of calls share, with its
    cache and under any replacement of its keys.  Whatever the environment does, every call of
    any of its connections to an upgrade, an interceptor, a plugin or the handler is about a
    request with CSRF evidence, whose one token verified against a key set that was published,
    and what the handler reads from the request are the claims of that token. *)
Theorem application_secured env server reader peer self cfg auth interval keys w pool :
  reader_ok reader → Forall gate_extends (gates server) →
  csrf_gate self ∈ gates server → jwt_gate cfg auth ∈ gates server →
  rtc (sys_step cfg) (sys_init cfg interval keys) (w, pool) → collision_free cfg pool → served_by auth pool →
  ∃ c, handle_connection_with_permit env server reader peer = Some c
    ∧ ∀ ev h, ev ∈ c_trace c → behind_gates ev = Some h →
      csrf_evidence self h ∧ ∃ claims, verified h = Some claims ∧ token_verified cfg w h claims.
Proof.
  intros Hr Hgs Hcsrf Hjwt Hw Hcf Hs.
  destruct (behind_gates_established env server reader peer Hr Hgs) as (c & E & Hc).
  exists c. split; [done|]. intros ev h Hev Hb. destruct (Hc ev h Hev Hb) as (head & ext & -> & Hest).
  split; [apply csrf_evidence_admitted, (Hest _ _ Hcsrf (csrf_gate_establishes self))|].
  destruct (Hest _ _ Hjwt (jwt_gate_establishes cfg auth)) as (claims & Ha & Hg).
  exists claims. split; [by apply verified_admitted|].
  destruct (served_verified cfg interval keys w pool auth head claims Hw Hcf Hs Ha)
    as (i & ks & s & token & now & Hi & Hcred & Hv).
  exists i, ks, s, token, now. by rewrite request_credentials_admitted.
Qed.

End claim.

(** ** A server behind both gates *)

#[local] Existing Instance gate_types.
#[local] Existing Instance demo_gate_verified.
#[local] Existing Instance demo_crates.
#[local] Existing Instance naive_memmem.

Definition same_site : CsrfGate := {| allowed_origins := []; exempt_paths := [] |}.

Definition good_post : bytes :=
  lit "POST /a HTTP/1.1" ++ CRLF ++ lit "Sec-Fetch-Site: same-origin" ++ CRLF
  ++ lit "Authorization: Bearer {es}.{ok}.sig" ++ CRLF ++ CRLF.
Definition forged_post : bytes :=
  lit "POST /a HTTP/1.1" ++ CRLF ++ lit "Sec-Fetch-Site: cross-site" ++ CRLF
  ++ lit "Authorization: Bearer {es}.{ok}.sig" ++ CRLF ++ CRLF.

Definition good_head : RequestHead :=
  match parse_request_head good_post with
  | Ok (Complete h _) => h
  | _ => head_of demo_ast
  end.

(** The one call: it verified the token of [good_head]. *)
Definition good_call (pc : Pc) : Thread := {| t_head := good_head; t_now := 20; t_from := 0; t_pc := pc |}.
Definition good_world : World := (authenticate_at demo_cfg good_head 20 (build demo_cfg (from_secs 10) demo_keys)).1.

#[local] Instance range_eq_dec : EqDecision range.
Proof. solve_decision. Defined.
Definition good_auth (head : RequestHead) : result Claims VerifyError :=
  match extensions head with
  | {| entries := [] |} =>
      if bool_decide ((buf head, method_r head, target_r head, version head, headers_r head)
          = (buf good_head, method_r good_head, target_r good_head, version good_head, headers_r good_head))
      then Ok demo_claims else Err MissingToken
  | _ => Err MissingToken
  end.

Lemma good_auth_served : served_by good_auth [good_call (Returned (Ok demo_claims))].
Proof.
  intros head c Ha. eexists. split; [by apply list_elem_of_singleton|]. unfold good_auth in Ha.
  destruct head as [b m t v hs [[|]]]; [|done]. cbn [extensions buf method_r target_r version headers_r] in Ha.
  case_bool_decide as E; [|done]. injection Ha as <-. cbn [t_head t_pc good_call]. split; [|done].
  assert (extensions good_head = {| entries := [] |}) as Hx by (vm_compute; reflexivity).
  destruct good_head. cbn in Hx, E. by simplify_eq.
Qed.

Lemma good_call_reach :
  rtc (sys_step demo_cfg) (sys_init demo_cfg (from_secs 10) demo_keys)
    (good_world, [good_call (Returned (Ok demo_claims))]).
Proof.
  eapply rtc_l; [apply (sys_call demo_cfg _ [] good_head 20)|].
  apply (lone_call_reach demo_cfg CALL_FUEL (good_call AtStart)). vm_compute. reflexivity.
Qed.

Lemma one_presented : collision_free demo_cfg [good_call (Returned (Ok demo_claims))].
Proof.
  intros t1 t2 (x & s1 & ->%list_elem_of_singleton & E1) (y & s2 & ->%list_elem_of_singleton & E2) _.
  congruence.
Qed.

#[local] Instance bare_plugins : PathPlugins := {
  ProxyConfig := Empty_set; try_rtc_proxy _ _ _ := None;
  WebRtcConfig := Empty_set; try_rtc_offer _ _ _ := None;
  GraphQlConfig := Empty_set; try_graphql _ _ _ := None;
  StaticFilesConfig := Empty_set; try_static _ _ := None;
  WebSocketConfig := Empty_set; websocket_matches _ _ := false;
  OPENAPI_JSON := lit "{}"; OPENAPI_YAML := [];
}.

Definition secured_handler : Handler :=
  {| handle head _ := response_new 200 (match verified head with Some c => lit "hello" | None => lit "who?" end);
     handle_streaming _ _ := None |}.
Definition secured_server : Server :=
  set_handler secured_handler (add_gate (jwt_gate demo_cfg good_auth) (add_gate (csrf_gate same_site) server_new)).

(** The good request is served with its claims, the forged one refused. *)
Example secured_answers :
  c_out <$> handle_connection_with_permit demo_env secured_server [RData (good_post ++ forged_post)] None
  = Some (lit "HTTP/1.1 200 OK" ++ CRLF ++ lit "Content-Length: 5" ++ CRLF ++ CRLF ++ lit "hello"
      ++ lit "HTTP/1.1 403 Forbidden" ++ CRLF ++ lit "Content-Length: 0" ++ CRLF ++ CRLF).
Proof. by vm_compute. Qed.

Lemma application_secured_witness :
  ∃ c, handle_connection_with_permit demo_env secured_server [RData (good_post ++ forged_post)] None = Some c
    ∧ ∀ ev h, ev ∈ c_trace c → behind_gates ev = Some h →
      csrf_evidence same_site h ∧ ∃ claims, verified h = Some claims ∧ token_verified demo_cfg good_world h claims.
Proof.
  apply (application_secured demo_env secured_server [RData (good_post ++ forged_post)] None same_site demo_cfg
    good_auth (from_secs 10) demo_keys good_world [good_call (Returned (Ok demo_claims))]).
  - repeat constructor. eexists. split; [reflexivity|by vm_compute].
  - cbn [gates secured_server]. repeat constructor; [apply csrf_gate_extends|apply jwt_gate_extends].
  - by left.
  - right. by left.
  - exact good_call_reach.
  - exact one_presented.
  - exact good_auth_served.
Defined.
