(* ===== verification/Diagnostics.v ===== *)
(** * [core::diagnostics] and the places of the listener that report

    The events, their text, the two kinds of sinks, and what each step of the listener reports:
    [configure_accepted_stream] after an accept, [AcceptFailed] before the pause, and a forced
    close after it took place.  The errors of the operating system are their texts. *)

From S2P Require Import Prelude Text Utf8 Radix Extensions Request Response Gate ServerConfig Listener.

(** ** Durations as text, [impl Debug for Duration] *)

(** The digits behind the point: [divisor] is the weight of the next one, none is written once
    nothing is left. *)
Fixpoint frac_digits (fuel : nat) (frac divisor : N) : bytes :=
  match fuel with
  | O => []
  | S fuel =>
      if (frac =? 0)%N then []
      else to_decimal (frac / divisor) ++ frac_digits fuel (frac mod divisor) (divisor / 10)
  end.

Definition fmt_decimal (int frac divisor : N) (suffix : bytes) : bytes :=
  let digits := frac_digits 9 frac divisor in
  to_decimal int ++ (if bool_decide (digits = []) then [] else x2e :: digits) ++ suffix.

Definition fmt_duration (d : Duration) : bytes :=
  let secs := (d / 1000000000)%N in
  let nanos := (d mod 1000000000)%N in
  if (0 <? secs)%N then fmt_decimal secs nanos 100000000%N (lit "s")
  else if (1000000 <=? nanos)%N then fmt_decimal (nanos / 1000000)%N (nanos mod 1000000)%N 100000%N (lit "ms")
  else if (1000 <=? nanos)%N then fmt_decimal (nanos / 1000)%N (nanos mod 1000)%N 100%N (lit "µs")
  else fmt_decimal nanos 0%N 1%N (lit "ns").

(** ** Events *)

Inductive DiagnosticEvent :=
| AcceptFailed (error : bytes)
| TcpNodelayFailed (error : bytes)
| ShutdownGraceExceeded (grace : Duration)
| RebindDrainGraceExceeded (grace : Duration).

(** [impl Display for DiagnosticEvent]. *)
Definition event_text (e : DiagnosticEvent) : bytes :=
  match e with
  | AcceptFailed error => lit "accept に失敗しました: " ++ error
  | TcpNodelayFailed error => lit "TCP_NODELAY の設定に失敗しました（接続は継続します）: " ++ error
  | ShutdownGraceExceeded grace =>
      lit "graceful shutdown の猶予期間（" ++ fmt_duration grace
        ++ lit "）を超過したため残存接続を強制クローズします"
  | RebindDrainGraceExceeded grace =>
      lit "rebind による旧世代接続の drain が猶予期間（" ++ fmt_duration grace
        ++ lit "）を超過したため強制クローズします"
  end.

Definition format_line (e : DiagnosticEvent) : bytes := lit "fandhe_backend_core::server: " ++ event_text e.

Example demo_line :
  format_line (ShutdownGraceExceeded 1500000000%N)
  = lit "fandhe_backend_core::server: graceful shutdown の猶予期間（1.5s）を超過したため残存接続を強制クローズします".
Proof. by vm_compute. Qed.

(** ** Sinks *)

(** A call of [report]: it comes back, perhaps by a panic, or blocks for good. *)
Inductive Report :=
| RpBack (panicked : bool) (after : Duration)
| RpBlocks.

Record Sink := {
  is_default : bool;
  report : DiagnosticEvent → Report;
}.

(** [Server::diagnostics] registers any sink, [StderrDiagnostics] too, as a custom one. *)
Definition server_diagnostics (sink : DiagnosticEvent → Report) : Sink := {| is_default := false; report := sink |}.
(** Without a call the lines go to standard error. *)
Definition stderr_diagnostics (eprintln : bytes → Report) : Sink :=
  {| is_default := true; report e := eprintln (format_line e) |}.

(** [emit] catches panics: the caller goes on after the call, or never. *)
Definition emit (sink : Sink) (e : DiagnosticEvent) : option Duration :=
  match report sink e with
  | RpBack _ after => Some after
  | RpBlocks => None
  end.

(** ** The end of [run_until] *)

Definition SHUTDOWN_NOTIFY_FLUSH_WAIT : Duration := 200000000%N.

(** How long [run_until] is held up by its last report ([None]: for good), and whether the sink
    is called at all: a default sink inline, a custom one on a thread, if there is one. *)
Definition notify_shutdown (sink : Sink) (thread : bool) (grace : Duration) : option Duration * bool :=
  if is_default sink then (emit sink (ShutdownGraceExceeded grace), true)
  else if thread then
    (Some match emit sink (ShutdownGraceExceeded grace) with
          | Some after => N.min after SHUTDOWN_NOTIFY_FLUSH_WAIT
          | None => SHUTDOWN_NOTIFY_FLUSH_WAIT
          end, true)
  else (Some 0%N, false).

(** ** What the listener reports *)

(** What a turn meets: the error of a failing accept, and what setting [TCP_NODELAY] gives for
    each connection it accepts. *)
Record Met := { accept_error : bytes; set_nodelay : nat → result unit bytes }.

(** [http::socket::configure_stream]. *)
Definition configure_stream (nodelay : result unit bytes) : result unit bytes := nodelay.

Definition configure_accepted_stream (nodelay : result unit bytes) : list DiagnosticEvent :=
  match configure_stream nodelay with
  | Ok _ => []
  | Err error => [TcpNodelayFailed error]
  end.

(** The body of the accept future. *)
Definition accept_reports (r : Ready) (m : Met) : list DiagnosticEvent :=
  match ready_accept r with
  | APending => []
  | AReady _ => configure_accepted_stream (set_nodelay m 0)
  | AError => [AcceptFailed (accept_error m)]
  end.

(** Whether the accept future calls [listener.accept()] when it is polled. *)
Definition polls_listener (s : Listening) : bool :=
  match accept_fut s with
  | AfAcquire => negb (connection_limit s =? 0)%N
  | AfAccept => true
  | AfBackoff => false
  end.

Definition backlog_reports (m : Met) (drained : nat) : list DiagnosticEvent :=
  concat ((λ k, configure_accepted_stream (set_nodelay m k)) <$> seq 0 drained).

Definition turn_reports (r : Ready) (m : Met) (s : Listening) : list DiagnosticEvent :=
  let s := reap s in
  if ready_shutdown r then []
  else
    match ready_rebind r with
    | Some (_, backlog) =>
        let s := set_flag (current_shutdown_flag s) (drop_accept_fut s) in
        backlog_reports m (length (drain_listener_backlog REBIND_BACKLOG_DRAIN_LIMIT backlog s).1)
    | None => if polls_listener s then accept_reports r m else []
    end.

Definition reports (grace : Duration) (l : Label) (m : Met) (s : Listening) : list DiagnosticEvent :=
  match l with
  | LTurn r => turn_reports r m s
  | LDrainGrace _ => [RebindDrainGraceExceeded grace]
  | LGrace => [ShutdownGraceExceeded grace]
  | _ => []
  end.

(** A run of the listener with its log. *)
Fixpoint run_logged (grace : Duration) (ls : list (Label * Met)) (s : Listening) :
    option (Listening * list DiagnosticEvent) :=
  match ls with
  | [] => Some (s, [])
  | (l, m) :: ls =>
      let! s1 := Listener.apply l s else None in
      let! (s2, log) := run_logged grace ls s1 else None in
      Some (s2, reports grace l m s ++ log)
  end.

(** ** The text of a duration is exact *)

Definition digits_value (ds : bytes) : N := foldl (λ acc b, acc * 10 + (bv b - 48))%N 0%N ds.

Lemma len_cons {A} (x : A) l : len (x :: l) = (1 + len l)%N.
Proof. unfold len. cbn [length]. lia. Qed.

Lemma digits_value_from ds acc :
  foldl (λ acc b, acc * 10 + (bv b - 48))%N acc ds = (acc * 10 ^ len ds + digits_value ds)%N.
Proof.
  unfold digits_value. revert acc. induction ds as [|b ds IH]; intros acc; cbn [foldl].
  - change (10 ^ len (@nil byte))%N with 1%N. lia.
  - rewrite IH, (IH (0 * 10 + _)%N). rewrite len_cons, N.pow_add_r. lia.
Qed.

Lemma digit_text k : (k < 10)%N → ∃ b, to_decimal k = [b] ∧ (bv b - 48)%N = k.
Proof.
  intros Hk. assert (Forall (λ k, ∃ b, to_decimal k = [b] ∧ (bv b - 48)%N = k)
    (N.of_nat <$> seq 0 10)) as Hall by (repeat constructor; eexists; split; vm_compute; reflexivity).
  rewrite Forall_forall in Hall. apply Hall, list_elem_of_fmap. exists (N.to_nat k).
  split; [lia|]. apply elem_of_seq. lia.
Qed.

Lemma frac_digits_S fuel frac divisor :
  frac_digits (S fuel) frac divisor
  = if (frac =? 0)%N then []
    else to_decimal (frac / divisor) ++ frac_digits fuel (frac mod divisor) (divisor / 10).
Proof. done. Qed.

(** No digit is lost or rounded: the digits, filled up with zeros, are the fraction. *)
Theorem frac_digits_exact k frac :
  (frac < 10 ^ N.of_nat (S k))%N →
  let ds := frac_digits (S k) frac (10 ^ N.of_nat k) in
  length ds ≤ S k ∧ (digits_value ds * 10 ^ (N.of_nat (S k) - len ds))%N = frac.
Proof.
  revert frac. induction k as [|k IH]; intros frac Hf; rewrite frac_digits_S.
  - destruct (N.eqb_spec frac 0) as [->|Hn]; [split; [cbn; lia|done]|].
    change (10 ^ N.of_nat 0)%N with 1%N. rewrite N.div_1_r.
    destruct (digit_text frac) as (b & -> & Hb); [done|]. split; [done|].
    unfold digits_value. cbn [app frac_digits foldl]. rewrite Hb. change (10 ^ (N.of_nat 1 - len [b]))%N with 1%N. lia.
  - destruct (N.eqb_spec frac 0) as [->|Hn]; [split; [cbn; lia|done]|].
    assert (10 ^ N.of_nat (S (S k)) = 10 * 10 ^ N.of_nat (S k))%N as E1.
    { rewrite (Nat2N.inj_succ (S k)), N.pow_succ_r'. done. }
    assert (10 ^ N.of_nat (S k) / 10 = 10 ^ N.of_nat k)%N as E2.
    { rewrite (Nat2N.inj_succ k), N.pow_succ_r', N.mul_comm. by apply N.div_mul. }
    set (p := (10 ^ N.of_nat (S k))%N) in *.
    assert (p ≠ 0)%N as Hp by (by apply N.pow_nonzero).
    destruct (digit_text (frac / p)) as (b & -> & Hb); [apply N.Div0.div_lt_upper_bound; lia|].
    rewrite E2. destruct (IH (frac mod p)%N) as [Hl Hv]; [by apply N.mod_lt|].
    set (ds := frac_digits (S k) _ _) in *. cbn [app length]. split; [lia|].
    unfold digits_value. cbn [foldl]. rewrite digits_value_from, Hb, len_cons.
    assert (N.of_nat (S (S k)) - (1 + len ds) = N.of_nat (S k) - len ds)%N as -> by lia.
    rewrite N.mul_add_distr_r, <- N.mul_assoc, <- N.pow_add_r, Hv.
    assert (len ds + (N.of_nat (S k) - len ds) = N.of_nat (S k))%N as -> by (unfold len; lia).
    fold p. pose proof (N.div_mod frac p Hp). lia.
Qed.

(** ** Sinks cannot hold up the end *)

(** A custom sink delays the return of [run_until] by at most [SHUTDOWN_NOTIFY_FLUSH_WAIT],
    whether it panics, is slow or blocks, and one that is fast enough was called before; the
    default sink is always called before, and holds [run_until] up for as long as it takes. *)
Theorem shutdown_notified sink thread grace :
  (is_default sink = false →
     ∃ d, (notify_shutdown sink thread grace).1 = Some d ∧ (d <= SHUTDOWN_NOTIFY_FLUSH_WAIT)%N
       ∧ (thread = true → ∀ after, emit sink (ShutdownGraceExceeded grace) = Some after →
            (after <= SHUTDOWN_NOTIFY_FLUSH_WAIT)%N → d = after))
  ∧ (is_default sink = true →
     notify_shutdown sink thread grace = (emit sink (ShutdownGraceExceeded grace), true)).
Proof.
  unfold notify_shutdown. split; intros ->; [|done]. destruct thread; cbn [fst].
  - eexists. split; [done|]. destruct (emit _ _) as [after|].
    + split; [lia|]. intros _ after' [= <-]. lia.
    + split; [done|]. by intros.
  - exists 0%N. by split_and!.
Qed.

(** ** The log of a run *)

Definition tally {A} (p : A → bool) (l : list A) : nat := length (List.filter p l).

Lemma tally_app {A} (p : A → bool) l1 l2 : tally p (l1 ++ l2) = tally p l1 + tally p l2.
Proof. unfold tally. by rewrite List.filter_app, length_app. Qed.

Definition is_accept_failed (e : DiagnosticEvent) : bool := match e with AcceptFailed _ => true | _ => false end.
Definition is_shutdown_exceeded (e : DiagnosticEvent) : bool :=
  match e with ShutdownGraceExceeded _ => true | _ => false end.
Definition is_rebind_exceeded (e : DiagnosticEvent) : bool :=
  match e with RebindDrainGraceExceeded _ => true | _ => false end.

(** Turns that end a pause, by its time or by a rebind, and turns that rebind. *)
Definition rebinds (l : Label) : bool := match l with LTurn r => bool_decide (is_Some (ready_rebind r)) | _ => false end.
Definition resumes (l : Label) : bool := match l with LTurn r => ready_slept r || rebinds l | _ => false end.

(** Counting against a potential. *)
Lemma tally_log grace (p : DiagnosticEvent → bool) (q : Label → bool) (pot : Listening → nat) :
  (∀ l m s s', Listener.apply l s = Some s' →
     tally p (reports grace l m s) + pot s' ≤ pot s + (if q l then 1 else 0)) →
  ∀ ls s s' log, run_logged grace ls s = Some (s', log) → tally p log ≤ pot s + tally q ls.*1.
Proof.
  intros Hstep ls. induction ls as [|[l m] ls IH]; intros s s' log E; cbn [run_logged] in E.
  { injection E as <- <-. cbn. lia. }
  destruct (Listener.apply l s) as [s1|] eqn:E1; [|done].
  destruct (run_logged grace ls s1) as [[s2 log1]|] eqn:E2; [|done]. injection E as <- <-.
  rewrite tally_app. apply IH in E2. apply (Hstep l m) in E1.
  assert (tally q ((l, m) :: ls).*1 = (if q l then 1 else 0) + tally q ls.*1) as ->.
  { unfold tally. rewrite fmap_cons. cbn [fst List.filter]. by destruct (q l). }
  lia.
Qed.

Lemma run_logged_run grace ls s s' log : run_logged grace ls s = Some (s', log) → Listener.run ls.*1 s = Some s'.
Proof.
  revert s log. induction ls as [|[l m] ls IH]; intros s log E; cbn [run_logged] in E; [by injection E as <- _|].
  cbn. destruct (Listener.apply l s) as [s1|]; [|done]. cbn.
  destruct (run_logged grace ls s1) as [[s2 log1]|] eqn:E2; [|done]. injection E as <- _. by eapply IH.
Qed.

(** What a run does is not changed by what its reports meet. *)
Lemma run_run_logged grace ls s s' : Listener.run ls.*1 s = Some s' → ∃ log, run_logged grace ls s = Some (s', log).
Proof.
  revert s. induction ls as [|[l m] ls IH]; intros s E; cbn in *; [injection E as <-; by eexists|].
  destruct (Listener.apply l s) as [s1|]; [|done]. cbn in E. destruct (IH s1 E) as [log ->]. by eexists.
Qed.

Lemma tally_none {A} (p : A → bool) l : Forall (λ x, p x = false) l → tally p l = 0.
Proof. unfold tally. induction 1 as [|x l Hx _ IH]; [done|]. cbn. by rewrite Hx. Qed.

Lemma configure_nodelay n : Forall (λ e, ∃ err, e = TcpNodelayFailed err) (configure_accepted_stream n).
Proof. destruct n; repeat constructor; eauto. Qed.

Lemma backlog_nodelay m n : Forall (λ e, ∃ err, e = TcpNodelayFailed err) (backlog_reports m n).
Proof.
  unfold backlog_reports. apply Forall_concat, Forall_fmap, Forall_forall. intros k _. apply configure_nodelay.
Qed.

(** The reports of a turn: one failed accept, and then it pauses, or failures of the option only. *)
Lemma turn_reports_cases r m s :
  Forall (λ e, ∃ err, e = TcpNodelayFailed err) (turn_reports r m s)
  ∨ turn_reports r m s = [AcceptFailed (accept_error m)] ∧ ready_shutdown r = false ∧ ready_rebind r = None
    ∧ polls_listener (reap s) = true ∧ ready_accept r = AError.
Proof.
  unfold turn_reports. destruct (ready_shutdown r); [by left|].
  destruct (ready_rebind r) as [[l backlog]|]; [left; apply backlog_nodelay|].
  destruct (polls_listener (reap s)); [|by left]. unfold accept_reports.
  destruct (ready_accept r); [by left|left; apply configure_nodelay|by right].
Qed.

Lemma tally_nodelay p l :
  (∀ err, p (TcpNodelayFailed err) = false) → Forall (λ e, ∃ err, e = TcpNodelayFailed err) l → tally p l = 0.
Proof. intros Hp Hl. apply tally_none. eapply Forall_impl; [exact Hl|]. by intros e [err ->]. Qed.

(** The accept future may fail an accept before it pauses. *)
Definition may_fail (s : Listening) : nat :=
  match phase s, accept_fut s with
  | Accepting, AfBackoff => 0
  | Accepting, _ => 1
  | _, _ => 0
  end.

Lemma may_fail_le s : may_fail s ≤ 1.
Proof. unfold may_fail. destruct (phase s), (accept_fut s); lia. Qed.

Lemma turn_may_fail r m s :
  phase s = Accepting →
  tally is_accept_failed (turn_reports r m s) + may_fail (turn r s) ≤ may_fail s + (if resumes (LTurn r) then 1 else 0).
Proof.
  intros Hp. pose proof (may_fail_le (turn r s)) as Hle.
  destruct (turn_reports_cases r m s) as [Hn|(-> & Hs & Hr & Hpoll & Ha)].
  - rewrite (tally_nodelay is_accept_failed) by done. cbn [resumes].
    destruct (ready_slept r) eqn:Esl; cbn [orb]; [lia|]. unfold rebinds.
    case_bool_decide as Hrb; [lia|]. apply eq_None_not_Some in Hrb.
    assert (may_fail s = 1 ∨ accept_fut s = AfBackoff) as [->|Hb]; [|lia|].
    { unfold may_fail. rewrite Hp. destruct (accept_fut s); auto. }
    assert (may_fail (turn r s) = 0); [|lia]. unfold turn, race_shutdown_or_accept.
    destruct (ready_shutdown r); [done|]. rewrite Hrb. unfold poll_accept_fut. cbn. rewrite Hb, Esl.
    unfold may_fail. cbn. by rewrite Hp, Hb.
  - assert (may_fail (turn r s) = 0 ∧ may_fail s = 1) as [-> ->]; [|cbn; lia].
    unfold polls_listener in Hpoll. cbn in Hpoll. unfold turn, race_shutdown_or_accept. rewrite Hs, Hr.
    unfold may_fail, poll_accept_fut, poll_listener. cbn. rewrite Ha.
    destruct (accept_fut s); cbn; [|by rewrite Hp|done].
    destruct (connection_limit s =? 0)%N; [done|]. cbn. by rewrite Hp.
Qed.

(** Other steps leave the accept loop as it is, or end it. *)
Lemma other_step l s s' :
  Listener.apply l s = Some s' → (∀ r, l ≠ LTurn r) →
  phase s' = phase s ∧ accept_fut s' = accept_fut s ∨ phase s' ≠ Accepting.
Proof.
  intros E Hl. destruct l as [r|t|t|t|d|d|d| | | |]; [by destruct (Hl r)|..]; cbn [Listener.apply] in E;
    repeat (case_match; simplify_eq); cbn; auto.
Qed.

Lemma step_may_fail grace l m s s' :
  Listener.apply l s = Some s' →
  tally is_accept_failed (reports grace l m s) + may_fail s' ≤ may_fail s + (if resumes l then 1 else 0).
Proof.
  intros E. assert ((∃ r, l = LTurn r) ∨ ∀ r, l ≠ LTurn r) as [[r ->]|Hl] by (destruct l; eauto).
  { cbn [Listener.apply reports] in *. destruct (phase s) eqn:Ep; try done. injection E as <-. by apply turn_may_fail. }
  assert (tally is_accept_failed (reports grace l m s) = 0) as -> by (destruct l; try done; by destruct (Hl r)).
  unfold may_fail. destruct (other_step _ _ _ E Hl) as [[-> ->]|Hn]; [lia|].
  destruct (phase s'); [done|destruct (accept_fut s'); lia..].
Qed.

Definition may_close (s : Listening) : nat := match phase s with Accepting | Draining => 1 | _ => 0 end.

Lemma step_may_close grace l m s s' :
  Listener.apply l s = Some s' →
  tally is_shutdown_exceeded (reports grace l m s) + may_close s' ≤ may_close s + (if false then 1 else 0).
Proof.
  assert (∀ s, may_close s ≤ 1) as Hle by (intros s0; unfold may_close; destruct (phase s0); lia).
  destruct l as [r|t|t|t|d|d|d| | | |]; cbn [Listener.apply reports]; intros E.
  { destruct (phase s) eqn:Ep; try done. injection E as <-. unfold may_close at 2. rewrite Ep.
    pose proof (Hle (turn r s)). destruct (turn_reports_cases r m s) as [Hn|(-> & _)]; [|cbn; lia].
    rewrite (tally_nodelay is_shutdown_exceeded) by done. lia. }
  all: unfold may_close, tally; cbn; destruct (phase s) eqn:Ep; repeat case_match; simplify_eq; cbn in *;
    try congruence; lia.
Qed.

Lemma spawn_all_drains peers s : drains (spawn_all peers s) = drains s.
Proof. revert s. induction peers as [|p peers IH]; intros s; [done|]. cbn. exact (IH (spawn p s)). Qed.

Lemma turn_drains r s : size (drains (turn r s)) ≤ size (drains s) + (if rebinds (LTurn r) then 1 else 0).
Proof.
  unfold turn, race_shutdown_or_accept. destruct (ready_shutdown r); [cbn; lia|]. cbn [rebinds].
  destruct (ready_rebind r) as [[l backlog]|].
  - cbn [on_raced]. unfold on_rebind.
    destruct (drain_listener_backlog_spec REBIND_BACKLOG_DRAIN_LIMIT backlog
      (set_flag (current_shutdown_flag (drop_accept_fut (reap s))) (drop_accept_fut (reap s)))) as (peers & -> & _).
    unfold new_generation. cbn. rewrite spawn_all_drains. cbn.
    match goal with |- context [size (insert ?i ?x ?m)] => pose proof (map_size_insert i x m) as -> end.
    case_match; cbn; unfold id; lia.
  - cbn. unfold poll_accept_fut, poll_listener.
    repeat (case_match; simplify_eq); cbn in *; lia.
Qed.

Lemma step_drains grace l m s s' :
  Listener.apply l s = Some s' →
  tally is_rebind_exceeded (reports grace l m s) + size (drains s') ≤ size (drains s) + (if rebinds l then 1 else 0).
Proof.
  assert (∀ d dr, drains s !! d = Some dr → S (size (delete d (drains s))) = size (drains s)) as Hdel.
  { intros d dr Hd. rewrite map_size_delete, Hd. assert (size (drains s) ≠ 0); [|lia].
    apply map_size_non_empty_iff. intros E0. by rewrite E0, lookup_empty in Hd. }
  destruct l as [r|t|t|t|d|d|d| | | |]; cbn [Listener.apply reports]; intros E.
  { destruct (phase s) eqn:Ep; try done. injection E as <-. pose proof (turn_drains r s).
    destruct (turn_reports_cases r m s) as [Hn|(-> & _)]; [|cbn in *; lia].
    rewrite (tally_nodelay is_rebind_exceeded) by done. lia. }
  all: change (rebinds _) with false; unfold tally; cbn.
  all: try (destruct (drains s !! d) as [[js c fired]|] eqn:Ed; [|done]; cbn in E; apply Hdel in Ed as Hd;
    destruct fired; try done).
  all: repeat case_match; simplify_eq; cbn in *; try lia.
  rewrite map_size_insert, Ed. unfold id; lia.
Qed.

(** The reports of a run.  They change nothing in it; a failed accept is followed by a pause, so
    there is at most one more of them than pauses that ended; the end is reported at most once,
    and the forced close of a replaced generation at most once for each rebind. *)
Theorem run_reports max grace ls s log :
  run_logged grace ls (bind max) = Some (s, log) →
  Listener.run ls.*1 (bind max) = Some s
  ∧ (∀ ls', ls'.*1 = ls.*1 → ∃ log', run_logged grace ls' (bind max) = Some (s, log'))
  ∧ tally is_accept_failed log ≤ 1 + tally resumes ls.*1
  ∧ tally is_shutdown_exceeded log ≤ 1
  ∧ tally is_rebind_exceeded log ≤ tally rebinds ls.*1.
Proof.
  intros E. pose proof (run_logged_run _ _ _ _ _ E) as Hrun. split_and!; [done| | | |].
  - intros ls' El. apply run_run_logged. by rewrite El.
  - exact (tally_log grace is_accept_failed resumes may_fail (step_may_fail grace) ls (bind max) s log E).
  - pose proof (tally_log grace is_shutdown_exceeded (λ _, false) may_close (step_may_close grace) ls (bind max) s log E) as Hc.
    rewrite (tally_none (λ _, false)) in Hc by (by apply Forall_forall). exact Hc.
  - exact (tally_log grace is_rebind_exceeded rebinds (λ s, size (drains s)) (step_drains grace) ls (bind max) s log E).
Qed.

(** A forced close is reported when it took place: none of the tasks is left. *)
Theorem forced_close_first s s' :
  (∀ d, Listener.apply (LDrainGrace d) s = Some s' →
     ∃ dr, drains s !! d = Some dr ∧ ∀ t, t ∈ d_join_set dr → tasks s' !! t = None)
  ∧ (Listener.apply LGrace s = Some s' → ∀ t, t ∈ join_set s → tasks s' !! t = None).
Proof.
  assert (∀ js s0 t, t ∈ js → tasks (abort js s0) !! t = None) as Habort.
  { intros js s0 t Ht. cbn. apply map_lookup_filter_None. right. intros x _ Hn. by apply Hn. }
  split.
  - intros d E. cbn in E. destruct (drains s !! d) as [dr|]; [|done]. exists dr. split; [done|].
    destruct (d_fired dr); [|done]. injection E as <-. intros t Ht. by apply (Habort (d_join_set dr) s).
  - intros E t Ht. cbn in E. destruct (phase s); try done. injection E as <-. by apply (Habort (join_set s) s).
Qed.

(** ** Instances *)

Definition demo_ready (shut : bool) (a : AcceptPoll) (slept : bool) : Ready :=
  {| ready_shutdown := shut; ready_rebind := None; ready_accept := a; ready_slept := slept |}.
Definition demo_met : Met := {| accept_error := lit "EMFILE"; set_nodelay _ := Err (lit "EINVAL") |}.

(** An accept fails, the pause ends, a connection whose option cannot be set is served all the
    same, and is closed by force at the end. *)
Definition demo_steps : list (Label * Met) :=
  (λ l, (l, demo_met)) <$>
    [LTurn (demo_ready false AError false); LTurn (demo_ready false AError false);
     LTurn (demo_ready false AError true); LTurn (demo_ready false (AReady ([127; 0; 0; 1]%N, 80%N)) false);
     LTurn (demo_ready true APending false); LGrace].

Example demo_log :
  match run_logged (from_secs 5) demo_steps (bind 2) with
  | Some (s, log) =>
      phase s = Returned ∧ tasks s = ∅
      ∧ log = [AcceptFailed (lit "EMFILE"); TcpNodelayFailed (lit "EINVAL"); ShutdownGraceExceeded (from_secs 5)]
  | None => False
  end.
Proof. vm_compute. by split_and!. Qed.

Lemma run_reports_witness :
  ∃ s log, run_logged (from_secs 5) demo_steps (bind 2) = Some (s, log) ∧ length log = 3
    ∧ tally is_accept_failed log ≤ 2 ∧ tally is_shutdown_exceeded log ≤ 1.
Proof.
  destruct (run_logged (from_secs 5) demo_steps (bind 2)) as [[s log]|] eqn:E; [|by vm_compute in E].
  exists s, log. split; [done|]. pose proof demo_log as Hlog. rewrite E in Hlog.
  assert (length log = 3) as -> by (by destruct Hlog as (_ & _ & ->)).
  pose proof (run_reports 2 (from_secs 5) demo_steps s log E) as (_ & _ & H1 & H2 & _). by split_and!.
Defined.

(** A blocked standard error holds up the return for good. *)
Example default_sink_blocks :
  notify_shutdown (stderr_diagnostics (λ _, RpBlocks)) true (from_secs 5) = (None, true).
Proof. done. Qed.

Example demo_durations :
  fmt_duration <$> [0; 999; 1500; 2000000; 1500000000; 300000000000]%N
  = [lit "0ns"; lit "999ns"; lit "1.5µs"; lit "2ms"; lit "1.5s"; lit "300s"].
Proof. by vm_compute. Qed.
