(* ===== verification/GenOpenapi.v ===== *)
(** * [gen-openapi]: the generator of the OpenAPI documents

    The command line, and writing or checking the two documents.  What [utoipa] derives from the
    annotated functions is a parameter; paths lead to files through the file system, so that two
    of them may be the same file, and a write may fail before or after it has cut the file. *)

From stdpp Require Import gmap.
From S2P Require Import Prelude Text Utf8.

Inductive Mode := Write | CheckMode.

Record Args := { mode : Mode; output_json : bytes; output_yaml : bytes }.

Inductive ArgError := NoValue (option : bytes) | UnknownArg (arg : bytes).

Section gen.
(** [CARGO_MANIFEST_DIR]. *)
Context (manifest_dir : bytes).

Definition default_output_path : bytes := manifest_dir ++ lit "/openapi.json".
Definition default_output_yaml_path : bytes := manifest_dir ++ lit "/openapi.yaml".

Fixpoint parse_args_loop (args : list bytes) (acc : Args) : result Args ArgError :=
  match args with
  | [] => Ok acc
  | arg :: args =>
      if str_eqb arg (lit "--check") then
        parse_args_loop args {| mode := CheckMode; output_json := output_json acc; output_yaml := output_yaml acc |}
      else if str_eqb arg (lit "--update") then
        parse_args_loop args {| mode := Write; output_json := output_json acc; output_yaml := output_yaml acc |}
      else if str_eqb arg (lit "--output") then
        match args with
        | path :: args =>
            parse_args_loop args {| mode := mode acc; output_json := path; output_yaml := output_yaml acc |}
        | [] => Err (NoValue (lit "--output"))
        end
      else if str_eqb arg (lit "--output-yaml") then
        match args with
        | path :: args =>
            parse_args_loop args {| mode := mode acc; output_json := output_json acc; output_yaml := path |}
        | [] => Err (NoValue (lit "--output-yaml"))
        end
      else Err (UnknownArg arg)
  end.

Definition parse_args (args : list bytes) : result Args ArgError :=
  parse_args_loop args
    {| mode := Write; output_json := default_output_path; output_yaml := default_output_yaml_path |}.

(** ** The disk *)

(** The file a path leads to, the files, and how writes end. *)
Inductive WriteOutcome := WriteDone | NotOpened | CutShort (n : nat).
Record Disk := {
  resolve : bytes → nat;
  files : gmap nat bytes;
  write_end : bytes → WriteOutcome;
}.

Definition set_files (fs : gmap nat bytes) (d : Disk) : Disk :=
  {| resolve := resolve d; files := fs; write_end := write_end d |}.

(** [fs::write]. *)
Definition fs_write (path data : bytes) (d : Disk) : bool * Disk :=
  match write_end d path with
  | WriteDone => (true, set_files (<[ resolve d path := data ]> (files d)) d)
  | NotOpened => (false, d)
  | CutShort n => (false, set_files (<[ resolve d path := take n data ]> (files d)) d)
  end.

(** [fs::read_to_string]: an error for a missing file and for one that is not UTF-8. *)
Definition fs_read_to_string (path : bytes) (d : Disk) : option bytes :=
  let! text := files d !! resolve d path else None in
  if utf8_valid text then Some text else None.

Definition write_or_check (m : Mode) (output generated : bytes) (d : Disk) : bool * Disk :=
  match m with
  | Write => fs_write output generated d
  | CheckMode =>
      match fs_read_to_string output d with
      | Some existing => (str_eqb existing generated, d)
      | None => (false, d)
      end
  end.

(** ** The documents *)

(** [ApiDoc::openapi().to_pretty_json()] and [to_yaml()]. *)
Context (api_doc_json api_doc_yaml : bytes).

Definition end_line (s : bytes) : bytes := if ends_with [x0a] s then s else s ++ [x0a].
Definition generate_json : bytes := end_line api_doc_json.
Definition generate_yaml : bytes := end_line api_doc_yaml.

(** The exit code, [true] for [ExitCode::SUCCESS], and the disk. *)
Definition main (args : list bytes) (d : Disk) : bool * Disk :=
  match parse_args args with
  | Err _ => (false, d)
  | Ok parsed =>
      let '(json_ok, d) := write_or_check (mode parsed) (output_json parsed) generate_json d in
      let '(yaml_ok, d) := write_or_check (mode parsed) (output_yaml parsed) generate_yaml d in
      (json_ok && yaml_ok, d)
  end.

(** ** Properties *)

Lemma parse_args_app a b acc p :
  parse_args_loop a acc = Ok p → parse_args_loop (a ++ b) acc = parse_args_loop b p.
Proof.
  assert (∀ n a acc, length a ≤ n →
    parse_args_loop a acc = Ok p → parse_args_loop (a ++ b) acc = parse_args_loop b p) as Hn; [|by apply (Hn (length a))].
  clear a acc. induction n as [|n IH]; intros [|arg a] acc Hl; cbn in Hl; try lia;
    cbn [parse_args_loop app]; try by intros [= ->].
  repeat case_match; try done; intros Hp; simplify_eq; cbn [app] in *; simplify_eq;
    (eapply IH; [|exact Hp]); cbn in Hl; lia.
Qed.

Definition with_mode (m : Mode) (p : Args) : Args :=
  {| mode := m; output_json := output_json p; output_yaml := output_yaml p |}.

(** The last of [--check] and [--update] decides. *)
Lemma parse_args_mode args p :
  parse_args args = Ok p →
  parse_args (args ++ [lit "--check"]) = Ok (with_mode CheckMode p)
  ∧ parse_args (args ++ [lit "--update"]) = Ok (with_mode Write p).
Proof. intros Hp. unfold parse_args in *. by rewrite !(parse_args_app _ _ _ _ Hp). Qed.

Lemma fs_read_written path data d :
  utf8_valid data = true → fs_read_to_string path (set_files (<[ resolve d path := data ]> (files d)) d) = Some data.
Proof. intros Hu. unfold fs_read_to_string. cbn. by rewrite lookup_insert_eq, Hu. Qed.

(** [--check] changes nothing and succeeds exactly if both files hold the documents. *)
Theorem check_exact args p d :
  parse_args args = Ok p →
  let '(ok, d') := main (args ++ [lit "--check"]) d in
  d' = d ∧ (ok = true ↔ fs_read_to_string (output_json p) d = Some generate_json
                        ∧ fs_read_to_string (output_yaml p) d = Some generate_yaml).
Proof.
  intros [Hc _]%parse_args_mode. unfold main. rewrite Hc. cbn [mode with_mode output_json output_yaml write_or_check].
  destruct (fs_read_to_string (output_json p) d) as [j|]; destruct (fs_read_to_string (output_yaml p) d) as [y|];
    (split; [done|]); rewrite ?andb_true_iff, ?str_eqb_eq; split; intros H'; try (destruct H'; congruence).
  - destruct H' as [-> ->]. done.
  - destruct H' as [[= ->] [= ->]]. done.
Qed.

(** A successful [--update] of two different files is followed by a successful [--check]. *)
Theorem update_then_check args p d d' :
  parse_args args = Ok p → utf8_valid generate_json = true → utf8_valid generate_yaml = true →
  resolve d (output_json p) ≠ resolve d (output_yaml p) →
  main (args ++ [lit "--update"]) d = (true, d') → main (args ++ [lit "--check"]) d' = (true, d').
Proof.
  intros Hp Hj Hy Hne Hu. pose proof (check_exact args p d' Hp) as Hcheck.
  destruct (main (args ++ [lit "--check"]) d') as [ok d2]. destruct Hcheck as [-> Hok]. f_equal. apply Hok.
  unfold main in Hu. rewrite (proj2 (parse_args_mode _ _ Hp)) in Hu.
  cbn [mode with_mode output_json output_yaml write_or_check] in Hu. unfold fs_write in Hu.
  destruct (write_end d (output_json p)) eqn:Ej; cbn in Hu; destruct (write_end d (output_yaml p)) eqn:Ey;
    cbn in Hu; try done; rewrite ?andb_false_l in Hu; try (injection Hu; discriminate).
  injection Hu as <-. unfold fs_read_to_string. cbn.
  rewrite lookup_insert_ne by done. by rewrite !lookup_insert_eq, Hj, Hy.
Qed.

End gen.

Definition demo_disk : Disk :=
  {| resolve p := length p; files := ∅; write_end _ := WriteDone |}.

Lemma update_then_check_witness :
  ∃ d', main [] (lit "{}") (lit "a: 1") [lit "--output"; lit "/tmp/x"; lit "--update"] demo_disk = (true, d')
    ∧ main [] (lit "{}") (lit "a: 1") [lit "--output"; lit "/tmp/x"; lit "--check"] d' = (true, d').
Proof.
  eexists. split; [vm_compute; reflexivity|].
  apply (update_then_check [] (lit "{}") (lit "a: 1") [lit "--output"; lit "/tmp/x"]
    {| mode := Write; output_json := lit "/tmp/x"; output_yaml := lit "/openapi.yaml" |} demo_disk);
    by vm_compute.
Defined.

(** One path for both documents: the update succeeds, the check does not. *)
Example same_file :
  let args := [lit "--output"; lit "x"; lit "--output-yaml"; lit "x"] in
  let r := main [] (lit "{}") (lit "a: 1") args demo_disk in
  r.1 = true ∧ (main [] (lit "{}") (lit "a: 1") (args ++ [lit "--check"]) r.2).1 = false.
Proof. by vm_compute. Qed.
